(* ===== verification/_CoqProject ===== *)
-Q . S2P
Prelude.v
Float64.v
Json.v
Numeric.v
ExprSyntax.v
Lexer.v
Parser.v
Grammar.v
Budget.v
Functions.v
Evaluator.v
Denotation.v
Refinement.v
StaticTypes.v
TypeSoundness.v
References.v
Compile.v
CompileCorrect.v
Session.v
SessionCorrect.v
Metering.v
Samples.v
Guarantees.v
RuntimeJson.v
RuntimeJsonCorrect.v
Authorizer.v
AuthorizerCorrect.v
CanonicalRef.v
Schedule.v
SchedulerDb.v
ScheduleSpec.v
Scheduler.v
Retention.v
SchedulerDbCorrect.v
RetentionCorrect.v
SchedulerCorrect.v
ScheduleCorrect.v
MisfireCorrect.v
SchedulerSamples.v
CasStore.v
ChainObjects.v
ChainValidation.v
Chain.v
ChainHistory.v
ChainValidationCorrect.v
ChainTotality.v
ChainGrowth.v
ChainStaging.v
ChainSuccessor.v
ChainCorrect.v
ChainRuns.v
ChainReads.v
ChainCodec.v
ChainSamples.v
ChainLossy.v
