(* ===== verification/Prelude.v ===== *)
(** * Verification of the RyeOS core

    RyeOS is a daemon that executes signed items (tools, directives, graphs)
    as threads, on a node that keeps their history.  This library models four
    parts of it as executable definitions and proves what they promise:

    - the expression language of the runtime crate, with which items compute
      values, conditions and texts, and the incremental JSON validators and
      the capability authorizer beside it;
    - canonical item references of the engine crate;
    - the scheduler of the daemon: schedules, plans, misfires, dispatch,
      repair, recovery and retention over an SQLite table of fires and
      append-only journals;
    - execution chains of the state crate: content-addressed objects, signed
      heads, and the validator of whole histories.

    They meet in the data: the scheduler dispatches items named by canonical
    references and derives the identities of its fires with the same digest
    that addresses objects; a thread snapshot captures a policy about a
    canonical reference; the canonical JSON of the store and that of the
    expression language are separate functions, as in the code.

    ** How code becomes definitions

    A pure function is a function.  A method on [&mut self] is a value of
    [M S E A], which passes the state explicitly and keeps the state reached
    when it fails: nothing is rolled back unless the code does it.  A [Result]
    is [Result], a panic and a process kill are errors of their own ([Panicked],
    [Killed]), and the text of an error is kept where a caller can observe it.
    Integers are [Z] or [N] with the overflow behaviour of each operation
    written out; [f64] is the IEEE 754 model of the standard library
    ([Float64]); a [str] is the string of its UTF-8 bytes; a [HashMap] or a
    [BTreeMap] is a finite map, with an explicit key order where the code
    iterates; an SQL table is a finite map, and rows without [ORDER BY] come
    in an order that is a parameter.

    Loops that the type checker does not see to terminate take fuel, and
    running out is a distinct error ([OutOfFuel], [Diverged]).
    The fuel is the length of the text for scanners ([Lexer.run],
    [Lexer.string_loop], [Compile.compile_loop], [Compile.end_loop]), the
    number of tokens or nodes for the parser and the reference collector, the
    code's own bound for [Schedule.walk] and [Scheduler.detect_loop], the number
    of rows for the outbox drain, and one more than the number of stored
    objects for the walks of the chain validator, which visit no object twice.
    That it is enough is proved: [Guarantees.compile_total],
    [Grammar.parse_exact], [ChainTotality.validation_total], and the theorems
    on the scheduler, which state what an operation returns and not only what
    holds if it returns.

    A durable write (a journal append, a transaction, an object, a head, a
    pending transition) asks the state whether the process is killed there.
    A kill is chosen from outside, by the number of the write and, for the
    journals, the number of bytes that still reach the file; the theorems
    quantify over it.

    ** Parameters

    Code outside the repository is a type class, with what is relied on in a
    class of laws: [Externals] (formatting of floats, the JSON reader, regular
    expressions, case tables, sizes) with [ReaderLaws]; [RegexEngine] with
    [RegexLaws]; [UnicodeTables]; [Calendar] (cron, chrono); [Sha256], a
    function to 32 bytes of which nothing else is assumed, so that the theorem
    about tampering has as its alternative a collision the two stores hold; [Clock] and
    [SystemTime], arbitrary readings; [FireCodec] with [FireCodecLaws];
    [RowOrder]; [JsonText]; [SchedulerContext] and [RetentionContext], the
    answers of the daemon, which may differ at every call; [JsonReader],
    [NaiveDateTime], [Ed25519], [Process] and [Wire], the derived conversions
    of chain objects, with [WireLaws].  [WireLaws] speaks of objects whose
    embedded values are read back from their text ([exact]), because the
    workspace builds serde_json without exact reading of all floats and its
    reader limits nesting; the operations do not check it, and the theorems on
    sequences of operations are about requests that satisfy it
    ([ChainRuns.exact_request]).  [Samples], [SchedulerSamples], [ChainCodec]
    with [ChainSamples] and [ChainLossy] instantiate all of them by concrete
    functions and apply the theorems.

    ** Files

    Expressions (src/crates/engine/ryeos-runtime/src/expression/): [Numeric] is
    value.rs; [ExprSyntax] ast.rs, token.rs, error.rs and limits.rs; [Lexer]
    lexer.rs; [Parser] parser.rs, with its grammar in [Grammar]; [Budget],
    [Evaluator] evaluator.rs; [Functions] functions.rs; [StaticTypes]
    static_types.rs; [References] references.rs; [Compile] and [Session]
    template.rs and mod.rs.  [Denotation] is a meaning without budgets,
    [Refinement] and [SessionCorrect] relate the evaluator to it, [Metering]
    gives every evaluation its cost, [TypeSoundness] and [CompileCorrect] are
    about the static checks and the compiler, and [Guarantees] states the
    results.  The theorems: evaluation and rendering refine the meaning,
    budgets only shrink, an evaluation succeeds exactly when limits and budget
    cover its cost, limits never change a result, the tokens of the lexer
    spell the source and are as long as possible, the parser accepts exactly
    the token sequences of the grammar, static types are sound, compiled
    expressions never panic, numbers are compared and added exactly.

    Runtime crate, otherwise: [RuntimeJson] is expression/runtime_json.rs and
    [RuntimeJsonCorrect] shows that its incremental counters measure the whole
    value; [Authorizer] is authorizer.rs and [AuthorizerCorrect] shows that
    authorization of concrete capabilities is matching of patterns.  Engine crate: [CanonicalRef] is
    canonical_ref.rs, with its parser exact for its display.

    Scheduler (src/crates/state/ryeos-scheduler/src/, with gc/retention.rs of
    ryeos-state and the maintenance and scheduler_deregister handlers of
    ryeos-api): [Schedule] is crontab.rs, planning.rs, the record types and the fire
    contract; [ScheduleSpec] the schedule sources; [SchedulerDb] db.rs and
    projection.rs; [Scheduler] misfire.rs, overlap.rs, timer.rs and
    reconcile.rs; [Retention] the sweep, the retention and purge transactions
    and the deregister handler.  [SchedulerDbCorrect] and [SchedulerCorrect]
    show that journals and outbox hold one table of fires through every history
    of operations, kills and restarts, that a fire ends once, and that without
    recovery, retention and purges no fire is dispatched twice; the operations
    of a history run one after the other. [MisfireCorrect] and
    [ScheduleCorrect] show that boundaries are accounted for and plans are
    exact, and where they are not; [RetentionCorrect] that retention removes exactly what its policy says.

    Chains (src/crates/state/ryeos-state/src/ and
    src/crates/kernel/lillux/src/): [CasStore] is cas.rs and time.rs;
    [ChainObjects] the objects and their checks; [ChainValidation]
    chain/validation.rs; [Chain] chain.rs with refs.rs, signer.rs,
    recovery.rs and head_cache.rs, over one record [Store] of the objects, the
    heads, the pending transitions and the cache.  [ChainHistory] says what a
    history is: a log of linked events, states from a genesis through legal
    transitions, and the closure of the head.  [ChainValidationCorrect] shows
    that the validator accepts exactly the histories, [ChainTotality] that it
    always returns.  [ChainGrowth], [ChainStaging], [ChainSuccessor] and
    [ChainCorrect] show for each operation that it leaves the heads alone or
    publishes a head whose history extends the previous one, and [ChainRuns]
    draws the conclusions for sequences of operations with kills, restarts and
    foreign objects: heads only advance, events are only appended, operations
    are atomic, ended threads stay ended, and a head hash fixes its history
    unless two stores hold different texts with one digest.  It also shows
    that an append of an event that is not read back publishes a head the
    validator refuses.  [ChainReads] shows that the head cache never changes
    what is read.

    ** Not modelled

    Of the modelled crates: opening and migrating SQLite files, the read-only
    listings of the scheduler, the discarding of its whole fire history by the
    offline garbage collector, the hook of the daemon that settles a fire when
    its thread completes, the verification of signed schedule files, file
    locks and pinned directories (a lock is the name of what it protects),
    blobs and streamed captures of the store, removal of chains, staged
    uploads, other kinds of refs, SQLite projections and object collection of
    the state crate, cancellation callbacks, logging and tracing.  Not at all:
    argument binding, callbacks and hooks of the runtime crate; the engine's
    kind registry, resolution and planning; the executor; the wire protocols;
    the vault; the graph, directive and knowledge runtimes; the daemon's HTTP
    services; clients and tools.  They are process, network, file and
    third-party I/O around the parts modelled here, or derived serialisation
    without logic of their own. *)

From stdpp Require Export base decidable list strings gmap pretty.
From Stdlib Require Export ZArith Lia Sorted.
#[export] Set Default Goal Selector "!".

Create HintDb rye.

Declare Scope rust_scope.
Delimit Scope rust_scope with rust.
#[global] Open Scope rust_scope.
#[global] Open Scope Z_scope.

(** ** Machine integers

    [usize], [u64] and [i64] of the 64-bit production target are integers
    of [Z]; every operation the code performs on them is written with its
    own overflow behaviour. *)

Definition usize_max : Z := 2 ^ 64 - 1.
Definition i64_min : Z := - 2 ^ 63.
Definition i64_max : Z := 2 ^ 63 - 1.
Definition u64_max : Z := 2 ^ 64 - 1.

(** [usize::saturating_add], [saturating_sub], [saturating_mul]. *)
Definition saturating_add (a b : Z) : Z := Z.min (a + b) usize_max.
Definition saturating_sub (a b : Z) : Z := Z.max (a - b) 0.
Definition saturating_mul (a b : Z) : Z := Z.min (a * b) usize_max.

(** [usize::checked_add] and [usize::checked_sub]. *)
Definition checked_add (a b : Z) : option Z :=
  if a + b <=? usize_max then Some (a + b) else None.
Definition checked_sub (a b : Z) : option Z :=
  if b <=? a then Some (a - b) else None.

Definition is_i64 (z : Z) : bool := (i64_min <=? z) && (z <=? i64_max).
Definition is_u64 (z : Z) : bool := (0 <=? z) && (z <=? u64_max).

(** ** [Result] and the state-and-error monad

    [Result] is Rust's; [M S E] is the type of a method that mutates a
    state [S] through [&mut] and returns a [Result]: the state after an
    error is the state the method had reached, as in the code, and is not
    rolled back. *)

Inductive Result (E A : Type) : Type :=
| Ok (a : A)
| Err (e : E).
Arguments Ok {E A} a.
Arguments Err {E A} e.

#[export] Instance result_ret {E} : MRet (Result E) := λ A a, Ok a.
#[export] Instance result_bind {E} : MBind (Result E) :=
  λ A B f r, match r with Ok a => f a | Err e => Err e end.
#[export] Instance result_fmap {E} : FMap (Result E) :=
  λ A B f r, match r with Ok a => Ok (f a) | Err e => Err e end.

Definition map_err {E F A} (f : E → F) (r : Result E A) : Result F A :=
  match r with Ok a => Ok a | Err e => Err (f e) end.
Definition ok_or {E A} (o : option A) (e : E) : Result E A :=
  match o with Some a => Ok a | None => Err e end.

Definition M (S E A : Type) : Type := S → Result E A * S.

#[export] Instance m_ret {S E} : MRet (M S E) := λ A a s, (Ok a, s).
#[export] Instance m_bind {S E} : MBind (M S E) :=
  λ A B f m s,
    match m s with
    | (Ok a, s') => f a s'
    | (Err e, s') => (Err e, s')
    end.

#[export] Instance m_fmap {S E} : FMap (M S E) := λ A B f m s,
  match m s with
  | (Ok a, s') => (Ok (f a), s')
  | (Err e, s') => (Err e, s')
  end.

Definition throw {S E A} (e : E) : M S E A := λ s, (Err e, s).
Definition lift {S E A} (r : Result E A) : M S E A := λ s, (r, s).
Definition get {S E} : M S E S := λ s, (Ok s, s).
Definition put {S E} (s : S) : M S E unit := λ _, (Ok tt, s).

(** [for x in l { f(x)?; }]. *)
Definition for_each {S E A} (f : A → M S E unit) : list A → M S E unit :=
  fix go l :=
    match l with
    | [] => mret tt
    | x :: l => f x ;; go l
    end.

(** [for x in l { out.push(f(x)?); }]. *)
Definition try_map {S E A B} (f : A → M S E B) : list A → M S E (list B) :=
  fix go l :=
    match l with
    | [] => mret []
    | x :: l => y ← f x ; ys ← go l ; mret (y :: ys)
    end.

(** [for x in l { acc = f(acc, x)?; }]. *)
Definition fold_m {S E A B} (f : B → A → M S E B) : B → list A → M S E B :=
  fix go acc l :=
    match l with
    | [] => mret acc
    | x :: l => acc ← f acc x ; go acc l
    end.

(** [for _ in 0..n { m?; }]. *)
Fixpoint repeat_m {S E} (n : nat) (m : M S E unit) : M S E unit :=
  match n with O => mret tt | Datatypes.S n => m ;; repeat_m n m end.

(** ** Strings

    A Rust [str] is the sequence of its UTF-8 bytes, here the characters
    of a [string]. *)

Definition byte_of (a : Ascii.ascii) : Z := Z.of_N (Ascii.N_of_ascii a).
Definition ascii_of_Z (z : Z) : Ascii.ascii := Ascii.ascii_of_N (Z.to_N z).
Definition len (s : string) : Z := Z.of_nat (String.length s).

Definition dquote : string := String (ascii_of_Z 34) EmptyString.
Definition backslash : string := String (ascii_of_Z 92) EmptyString.

(** Length of the UTF-8 encoding whose first byte is [b]. *)
Definition utf8_width (b : Z) : nat :=
  if b <? 128 then 1%nat else if b <? 224 then 2%nat
  else if b <? 240 then 3%nat else 4%nat.

(** [char::len_utf8]. *)
Definition len_utf8 (c : Z) : Z :=
  if c <? 128 then 1 else if c <? 2048 then 2 else if c <? 65536 then 3 else 4.

(** [str::chars]: the Unicode scalar values of a UTF-8 string. *)
Fixpoint chars (s : string) : list Z :=
  match s with
  | EmptyString => []
  | String a0 s0 =>
      let b0 := byte_of a0 in
      if b0 <? 128 then b0 :: chars s0
      else
        match s0 with
        | EmptyString => []
        | String a1 s1 =>
            let b1 := Z.land (byte_of a1) 63 in
            if b0 <? 224 then Z.lor (Z.shiftl (Z.land b0 31) 6) b1 :: chars s1
            else
              match s1 with
              | EmptyString => []
              | String a2 s2 =>
                  let b2 := Z.land (byte_of a2) 63 in
                  if b0 <? 240 then
                    Z.lor (Z.shiftl (Z.land b0 15) 12)
                      (Z.lor (Z.shiftl b1 6) b2) :: chars s2
                  else
                    match s2 with
                    | EmptyString => []
                    | String a3 s3 =>
                        let b3 := Z.land (byte_of a3) 63 in
                        Z.lor (Z.shiftl (Z.land b0 7) 18)
                          (Z.lor (Z.shiftl b1 12)
                             (Z.lor (Z.shiftl b2 6) b3)) :: chars s3
                    end
              end
        end
  end.

(** [char::encode_utf8]. *)
Definition encode_utf8 (c : Z) : string :=
  let cont z := ascii_of_Z (Z.lor 128 (Z.land z 63)) in
  if c <? 128 then String (ascii_of_Z c) EmptyString
  else if c <? 2048 then
    String (ascii_of_Z (Z.lor 192 (Z.shiftr c 6))) (String (cont c) EmptyString)
  else if c <? 65536 then
    String (ascii_of_Z (Z.lor 224 (Z.shiftr c 12)))
      (String (cont (Z.shiftr c 6)) (String (cont c) EmptyString))
  else
    String (ascii_of_Z (Z.lor 240 (Z.shiftr c 18)))
      (String (cont (Z.shiftr c 12))
         (String (cont (Z.shiftr c 6)) (String (cont c) EmptyString))).

(** [char_indices]-style lexicographic comparison of scalar sequences. *)
Fixpoint cmp_chars (l r : list Z) : comparison :=
  match l, r with
  | [], [] => Eq
  | [], _ :: _ => Lt
  | _ :: _, [] => Gt
  | a :: l, b :: r => match Z.compare a b with Eq => cmp_chars l r | c => c end
  end.

(** [char::from_u32]. *)
Definition char_from_u32 (c : Z) : option Z :=
  if (c <? 55296) || ((57343 <? c) && (c <? 1114112)) then Some c else None.

Fixpoint drop_bytes (n : nat) (s : string) : string :=
  match n, s with
  | S n, String _ s => drop_bytes n s
  | _, _ => s
  end.
Fixpoint take_bytes (n : nat) (s : string) : string :=
  match n, s with
  | S n, String a s => String a (take_bytes n s)
  | _, _ => EmptyString
  end.

(** [str::starts_with] and [str::contains] on byte strings. *)
Fixpoint starts_with (p s : string) : bool :=
  match p, s with
  | EmptyString, _ => true
  | String a p, String b s => if decide (a = b) then starts_with p s else false
  | String _ _, EmptyString => false
  end.
Fixpoint str_contains (h n : string) : bool :=
  starts_with n h ||
  match h with EmptyString => false | String _ h => str_contains h n end.

Definition str_of_chars (l : list Z) : string :=
  foldr (λ c s, encode_utf8 c +:+ s) EmptyString l.

(** [char::is_whitespace]: the Unicode [White_Space] property. *)
Definition is_whitespace (c : Z) : bool :=
  ((9 <=? c) && (c <=? 13)) || (c =? 32) || (c =? 133) || (c =? 160) ||
  (c =? 5760) || ((8192 <=? c) && (c <=? 8202)) || (c =? 8232) ||
  (c =? 8233) || (c =? 8239) || (c =? 8287) || (c =? 12288).

Fixpoint drop_whitespace (l : list Z) : list Z :=
  match l with
  | [] => []
  | c :: l' => if is_whitespace c then drop_whitespace l' else l
  end.

(** [str::trim]. *)
Definition trim (s : string) : string :=
  str_of_chars (reverse (drop_whitespace (reverse (drop_whitespace (chars s))))).

(** Byte classes of [u8]. *)
Definition is_ascii_digit (b : Z) : bool := (48 <=? b) && (b <=? 57).
Definition is_ascii_alphabetic (b : Z) : bool :=
  ((97 <=? b) && (b <=? 122)) || ((65 <=? b) && (b <=? 90)).
Definition is_ascii_alphanumeric (b : Z) : bool :=
  is_ascii_alphabetic b || is_ascii_digit b.
Definition is_ascii_hexdigit (b : Z) : bool :=
  is_ascii_digit b || ((97 <=? b) && (b <=? 102)) || ((65 <=? b) && (b <=? 70)).
(** [u8::is_ascii_whitespace]: tab, line feed, form feed, carriage return, space. *)
Definition is_ascii_whitespace (b : Z) : bool :=
  (b =? 9) || (b =? 10) || (b =? 12) || (b =? 13) || (b =? 32).

(** First byte, [as_bytes().get(0)]. *)
Definition first_byte (s : string) : option Z :=
  match s with EmptyString => None | String a _ => Some (byte_of a) end.
Definition head_is (p : Z → bool) (s : string) : bool :=
  match first_byte s with Some b => p b | None => false end.

(** The longest prefix of bytes satisfying [p], and what follows it. *)
Fixpoint take_while (p : Z → bool) (s : string) : string :=
  match s with
  | EmptyString => EmptyString
  | String a r => if p (byte_of a) then String a (take_while p r) else EmptyString
  end.
Fixpoint skip_while (p : Z → bool) (s : string) : string :=
  match s with
  | EmptyString => EmptyString
  | String a r => if p (byte_of a) then skip_while p r else s
  end.

Fixpoint all_bytes (p : Z → bool) (s : string) : bool :=
  match s with EmptyString => true | String a r => p (byte_of a) && all_bytes p r end.

Definition is_empty (s : string) : bool :=
  match s with EmptyString => true | String _ _ => false end.

(** [str::split_once], [str::splitn] (for [n > 0]) and [str::split] at an
    ASCII character. *)
Fixpoint split_once (b : Z) (s : string) : string * option string :=
  match s with
  | EmptyString => (EmptyString, None)
  | String a s' =>
      if byte_of a =? b then (EmptyString, Some s')
      else let '(part, rest) := split_once b s' in (String a part, rest)
  end.
Fixpoint splitn (b : Z) (n : nat) (s : string) : list string :=
  match n with
  | O => []
  | S O => [s]
  | S n =>
      match split_once b s with
      | (part, Some rest) => part :: splitn b n rest
      | (part, None) => [part]
      end
  end.
Fixpoint split (b : Z) (s : string) : list string :=
  match s with
  | EmptyString => [EmptyString]
  | String a r =>
      if byte_of a =? b then EmptyString :: split b r
      else match split b r with
           | part :: parts => String a part :: parts
           | [] => [String a EmptyString]
           end
  end.

(** No byte of the text is [b]. *)
Definition free_of (b : Z) : string → bool := all_bytes (λ z, negb (z =? b)).

(** Value of a string of decimal digits. *)
Fixpoint digits_value_from (acc : Z) (s : string) : Z :=
  match s with
  | EmptyString => acc
  | String a r => digits_value_from (10 * acc + (byte_of a - 48)) r
  end.
Definition digits_value : string → Z := digits_value_from 0.

(** ** Lemmas on byte strings *)

Lemma append_cons a (s t : string) : String a s +:+ t = String a (s +:+ t).
Proof. done. Qed.
Lemma append_nil_l (s : string) : EmptyString +:+ s = s.
Proof. done. Qed.
Lemma append_assoc (a b c : string) : (a +:+ b) +:+ c = a +:+ (b +:+ c).
Proof. induction a; rewrite ?append_cons, ?append_nil_l; congruence. Qed.
Lemma append_nil_r (s : string) : s +:+ EmptyString = s.
Proof. induction s; rewrite ?append_cons, ?append_nil_l; congruence. Qed.
Lemma append_length (a b : string) :
  String.length (a +:+ b) = (String.length a + String.length b)%nat.
Proof. induction a; rewrite ?append_cons, ?append_nil_l; cbn; congruence. Qed.
Lemma len_append a b : len (a +:+ b) = len a + len b.
Proof. unfold len. rewrite append_length. lia. Qed.
Lemma len_nonneg s : 0 ≤ len s.
Proof. unfold len. lia. Qed.
Lemma take_drop_bytes n s : take_bytes n s +:+ drop_bytes n s = s.
Proof. revert s. induction n; intros [|a s]; cbn; rewrite ?append_cons; try done. by rewrite IHn. Qed.
Lemma take_skip_while p s : take_while p s +:+ skip_while p s = s.
Proof. induction s as [|a s IH]; cbn; [done|]. case_match; rewrite ?append_cons; [by rewrite IH|done]. Qed.
Lemma take_bytes_append a b : take_bytes (String.length a) (a +:+ b) = a.
Proof. induction a; rewrite ?append_cons; cbn; [by destruct b|congruence]. Qed.
Lemma drop_bytes_append a b : drop_bytes (String.length a) (a +:+ b) = b.
Proof. induction a; rewrite ?append_cons; cbn; [by destruct b|done]. Qed.
Lemma all_bytes_take_while p s : all_bytes p (take_while p s) = true.
Proof. induction s as [|a s IH]; cbn; [done|]. destruct (p (byte_of a)) eqn:E; cbn; [by rewrite E|done]. Qed.
Lemma head_is_skip_while p s : head_is p (skip_while p s) = false.
Proof. induction s as [|a s IH]; cbn; [done|]. destruct (p (byte_of a)) eqn:E; cbn; done. Qed.
Lemma skip_while_append p a b :
  all_bytes p a = true → head_is p b = false → skip_while p (a +:+ b) = b.
Proof.
  intros Ha Hb. induction a as [|x a IH]; rewrite ?append_cons, ?append_nil_l; cbn in *.
  - destruct b as [|y b]; cbn in *; [done|]. unfold head_is in Hb; cbn in Hb. by rewrite Hb.
  - apply andb_prop in Ha as [-> Ha]. auto.
Qed.
Lemma split_once_spec b c x y :
  byte_of c = b → free_of b x = true → split_once b (x +:+ String c y) = (x, Some y).
Proof.
  intros Hc Hx. induction x as [|a x IH]; rewrite ?append_cons, ?append_nil_l; cbn.
  - by rewrite Hc, Z.eqb_refl.
  - cbn in Hx. apply andb_prop in Hx as [Ha Hx]. apply negb_true_iff in Ha.
    by rewrite Ha, (IH Hx).
Qed.
Lemma split_once_free b s a r : split_once b s = (a, r) → free_of b a = true.
Proof.
  revert a. induction s as [|c s IH]; intros a; cbn; [by intros [= <- <-]|].
  destruct (byte_of c =? b) eqn:Hc; [by intros [= <- <-]|].
  destruct (split_once b s) as [p r'] eqn:Hs. intros [= <- <-]. cbn. by rewrite Hc, (IH p).
Qed.
Lemma split_once_inv b s a r :
  split_once b s = (a, Some r) → ∃ c, byte_of c = b ∧ s = a +:+ String c r.
Proof.
  revert a. induction s as [|c s IH]; intros a; cbn; [done|].
  destruct (byte_of c =? b) eqn:Hc; [intros [= <- ->]; exists c; split; [lia|done]|].
  destruct (split_once b s) as [p r'] eqn:Hs. intros [= <- ->].
  destruct (IH p eq_refl) as (d & Hd & ->). by exists d.
Qed.
Lemma split_once_none b s a : split_once b s = (a, None) → a = s ∧ free_of b s = true.
Proof.
  revert a. induction s as [|c s IH]; intros a; cbn; [by intros [= <-]|].
  destruct (byte_of c =? b) eqn:Hc; [done|].
  destruct (split_once b s) as [p r'] eqn:Hs. intros [= <- ->].
  destruct (IH p eq_refl) as [-> ->]. by cbn.
Qed.
Lemma split_once_whole b s : free_of b s = true → split_once b s = (s, None).
Proof.
  induction s as [|c s IH]; cbn; [done|]. rewrite andb_true_iff, negb_true_iff.
  intros [-> Hs]. by rewrite (IH Hs).
Qed.
Lemma byte_of_inj a b : byte_of a = byte_of b → a = b.
Proof.
  unfold byte_of. intros H. rewrite <- (Ascii.ascii_N_embedding a), <- (Ascii.ascii_N_embedding b).
  f_equal. lia.
Qed.
Lemma byte_of_range a : 0 ≤ byte_of a < 256.
Proof. unfold byte_of. pose proof (Ascii.N_ascii_bounded a). lia. Qed.
Lemma ascii_of_byte_of a : ascii_of_Z (byte_of a) = a.
Proof. unfold ascii_of_Z, byte_of. rewrite N2Z.id. apply Ascii.ascii_N_embedding. Qed.
Lemma byte_eq a z : byte_of a = z → a = ascii_of_Z z.
Proof. intros <-. by rewrite ascii_of_byte_of. Qed.
Create Rewrite HintDb rye.
#[export] Hint Rewrite append_assoc append_nil_r len_append : rye.
#[export] Hint Resolve len_nonneg all_bytes_take_while head_is_skip_while : rye.

(** Case analysis on every [match] and [if] of a hypothesis that a
    computation returned a value, discarding the failing branches. *)
Ltac inv_ok H :=
  repeat first
    [ progress cbn [mbind mret result_bind result_ret] in H
    | case_match; simplify_eq/= ].
