(* ===== verification/Float64.v ===== *)
(** * IEEE 754 binary64 as the expression engine uses it

    [f64] is the Standard Library's specification of floating-point
    numbers at [prec = 53], [emax = 1024].  This file adds the [f64]
    operations of the Rust standard library that the engine calls
    (conversion from an integer, [trunc], [fract], [%], the cast to an
    integer, decimal parsing) and the exact integer value of a finite
    float scaled by [2 ^ 1074], with which comparisons are specified. *)

From Corelib Require Export SpecFloat.
From S2P Require Import Prelude.

Abbreviation f64 := spec_float (only parsing).
Abbreviation prec := 53 (only parsing).
Abbreviation emax := 1024 (only parsing).

Module F64.

Definition zero : f64 := S754_zero false.

Definition add : f64 → f64 → f64 := SFadd prec emax.
Definition sub : f64 → f64 → f64 := SFsub prec emax.
Definition mul : f64 → f64 → f64 := SFmul prec emax.
Definition div : f64 → f64 → f64 := SFdiv prec emax.
Definition neg : f64 → f64 := SFopp.

Definition eqb : f64 → f64 → bool := SFeqb.
Definition ltb : f64 → f64 → bool := SFltb.
Definition leb : f64 → f64 → bool := SFleb.

Definition is_finite (x : f64) : bool :=
  match x with S754_zero _ | S754_finite _ _ _ => true | _ => false end.

(** [z as f64] for an integer [z]: round to nearest, ties to even. *)
Definition of_Z (z : Z) : f64 := binary_normalize prec emax z 0 false.

(** [f64::trunc]. *)
Definition trunc (x : f64) : f64 :=
  match x with
  | S754_finite s m e =>
      if 0 <=? e then x
      else binary_normalize prec emax (cond_Zopp s (Z.shiftr (Zpos m) (- e))) 0 s
  | _ => x
  end.

(** [f64::fract], that is [self - self.trunc()]. *)
Definition fract (x : f64) : f64 := sub x (trunc x).

(** [%] on [f64]: the exact remainder of the truncated division, with the
    sign of the dividend. *)
Definition rem (x y : f64) : f64 :=
  match x, y with
  | S754_nan, _ | _, S754_nan => S754_nan
  | S754_infinity _, _ => S754_nan
  | _, S754_zero _ => S754_nan
  | S754_zero _, _ => x
  | S754_finite _ _ _, S754_infinity _ => x
  | S754_finite sx mx ex, S754_finite _ my ey =>
      let e := Z.min ex ey in
      let a := Zpos mx * 2 ^ (ex - e) in
      let b := Zpos my * 2 ^ (ey - e) in
      binary_normalize prec emax (cond_Zopp sx (a mod b)) e sx
  end.

(** The integer obtained by dropping the fractional part. *)
Definition to_Z (x : f64) : Z :=
  match x with
  | S754_finite s m e =>
      cond_Zopp s (if 0 <=? e then Zpos m * 2 ^ e else Z.shiftr (Zpos m) (- e))
  | _ => 0
  end.

(** [x as i64] and [x as u64]: truncation with saturation, NaN to zero. *)
Definition as_int (lo hi : Z) (x : f64) : Z :=
  match x with
  | S754_infinity s => if s then lo else hi
  | _ => Z.max lo (Z.min hi (to_Z x))
  end.
Definition as_i64 : f64 → Z := as_int i64_min i64_max.
Definition as_u64 : f64 → Z := as_int 0 u64_max.

(** Correctly rounded value of the decimal [d * 10 ^ e]. *)
Definition of_decimal (d e : Z) : f64 :=
  if d <=? 0 then zero
  else if 0 <=? e then binary_normalize prec emax (d * 10 ^ e) 0 false
  else
    let '(mz, ez, lz) := SFdiv_core_binary prec emax d 0 (10 ^ (- e)) 0 in
    binary_round_aux prec emax false mz ez lz.

(** ** Exact values *)

(** A float the hardware can hold. *)
Definition valid (x : f64) : bool := valid_binary prec emax x.

(** [scaled x] is [x * 2 ^ 1074], an integer for every finite [x]. *)
Definition scale : Z := 2 ^ 1074.
Definition scaled (x : f64) : Z :=
  match x with
  | S754_finite s m e => cond_Zopp s (Zpos m * 2 ^ (e + 1074))
  | _ => 0
  end.

Lemma digits2_pos_bounds m :
  2 ^ (Zpos (digits2_pos m) - 1) ≤ Zpos m < 2 ^ Zpos (digits2_pos m).
Proof.
  induction m as [m IH|m IH|]; cbn [digits2_pos]; [| |cbn; lia];
    rewrite Pos2Z.inj_succ;
    replace (Z.succ (Zpos (digits2_pos m)) - 1)
      with (Z.succ (Zpos (digits2_pos m) - 1)) by lia;
    rewrite !Z.pow_succ_r by lia; lia.
Qed.

Lemma digits2_pos_le m k :
  0 ≤ k → Zpos m < 2 ^ k → Zpos (digits2_pos m) ≤ k.
Proof.
  intros Hk Hm. destruct (Z.le_gt_cases (Zpos (digits2_pos m)) k) as [|Hlt]; [done|].
  pose proof (digits2_pos_bounds m) as [Hlo _].
  assert (2 ^ k ≤ 2 ^ (Zpos (digits2_pos m) - 1)) by (apply Z.pow_le_mono_r; lia).
  lia.
Qed.

Lemma iter_xO m d : Zpos (Pos.iter xO m d) = Zpos m * 2 ^ Zpos d.
Proof.
  induction d as [|d IH] using Pos.peano_ind; [cbn; lia|].
  rewrite Pos.iter_succ, Pos2Z.inj_succ, Z.pow_succ_r by lia. lia.
Qed.

Lemma digits2_iter_xO m d :
  Zpos (digits2_pos (Pos.iter xO m d)) = Zpos (digits2_pos m) + Zpos d.
Proof.
  induction d as [|d IH] using Pos.peano_ind; [cbn; lia|].
  rewrite Pos.iter_succ; cbn [digits2_pos]. lia.
Qed.

(** Rounding does nothing to a value the format represents exactly. *)
Lemma round_exact s m e :
  Zpos (digits2_pos m) ≤ 53 → -1074 ≤ e →
  fexp prec emax (Zpos (digits2_pos m) + e) ≤ 971 →
  ∃ m' e', binary_round prec emax s m e = S754_finite s m' e' ∧
    e' = fexp prec emax (Zpos (digits2_pos m) + e) ∧
    -1074 ≤ e' ≤ e ∧ Zpos m' = Zpos m * 2 ^ (e - e') ∧
    valid (S754_finite s m' e') = true.
Proof.
  intros Hd He Hmax. unfold binary_round, shl_align.
  set (f := fexp _ _ _) in *.
  assert (Hf : f ≤ e ∧ -1074 ≤ f) by (unfold f, fexp, emin; lia).
  assert (Haux : ∀ m' : positive, Zpos (digits2_pos m') + f = Zpos (digits2_pos m) + e →
    binary_round_aux prec emax s (Zpos m') f loc_Exact = S754_finite s m' f ∧
    valid (S754_finite s m' f) = true).
  { intros m' Hm'. unfold binary_round_aux, shr_fexp; cbn [shr_record_of_loc Zdigits2].
    rewrite Hm'; fold f. rewrite Z.sub_diag; cbn [shr shr_m loc_of_shr_record round_nearest_even Zdigits2].
    rewrite Hm'; fold f. rewrite Z.sub_diag; cbn [shr shr_m].
    rewrite (proj2 (Z.leb_le f (1024 - 53))) by lia.
    split; [done|]. unfold valid, valid_binary, bounded, canonical_mantissa.
    rewrite Hm'; fold f. rewrite Z.eqb_refl; cbn. apply Z.leb_le; lia. }
  destruct (f - e) as [|p|d] eqn:Hfe; [| lia |].
  - assert (f = e) by lia.
    replace e with f by lia. exists m, f.
    destruct (Haux m) as [-> ->]; [lia|].
    rewrite Z.sub_diag, Z.pow_0_r. repeat split; lia.
  - exists (Pos.iter xO m d), f.
    destruct (Haux (Pos.iter xO m d)) as [-> ->]; [rewrite digits2_iter_xO; lia|].
    rewrite iter_xO. replace (e - f) with (Zpos d) by lia. repeat split; lia.
Qed.

(** Canonical floats of one sign are ordered by exponent, then mantissa. *)
Lemma bounded_spec m e :
  bounded prec emax m e = true →
  Zpos m < 2 ^ 53 ∧ -1074 ≤ e ≤ 971 ∧ (-1074 < e → 2 ^ 52 ≤ Zpos m) ∧
  fexp prec emax (Zpos (digits2_pos m) + e) = e ∧ Zpos (digits2_pos m) ≤ 53.
Proof.
  unfold bounded, canonical_mantissa.
  intros [Hc%Z.eqb_eq He%Z.leb_le]%andb_true_iff.
  assert (Hf : fexp prec emax (Zpos (digits2_pos m) + e) = e) by exact Hc.
  unfold fexp, emin in Hc.
  pose proof (digits2_pos_bounds m) as [Hlo Hhi].
  assert (2 ^ Zpos (digits2_pos m) ≤ 2 ^ 53) by (apply Z.pow_le_mono_r; lia).
  repeat split; try lia.
  intros. assert (Zpos (digits2_pos m) = 53) as Hd by lia. rewrite Hd in Hlo. lia.
Qed.

Lemma pos_compare_scaled m1 e1 m2 e2 :
  bounded prec emax m1 e1 = true → bounded prec emax m2 e2 = true →
  match Z.compare e1 e2 with
  | Lt => Lt | Gt => Gt | Eq => Pos.compare_cont Eq m1 m2
  end = (Zpos m1 * 2 ^ (e1 + 1074) ?= Zpos m2 * 2 ^ (e2 + 1074)).
Proof.
  intros (Hm1 & He1 & Hn1 & _)%bounded_spec (Hm2 & He2 & Hn2 & _)%bounded_spec.
  assert (Hlt : ∀ m m' e e', Zpos m < 2 ^ 53 → -1074 ≤ e → e < e' → 2 ^ 52 ≤ Zpos m' →
    Zpos m * 2 ^ (e + 1074) < Zpos m' * 2 ^ (e' + 1074)).
  { intros m m' e e' ????.
    apply Z.lt_le_trans with (2 ^ 53 * 2 ^ (e + 1074)).
    - apply Z.mul_lt_mono_pos_r; [apply Z.pow_pos_nonneg|]; lia.
    - transitivity (2 ^ 52 * 2 ^ (e' + 1074)).
      + rewrite <- !Z.pow_add_r by lia. apply Z.pow_le_mono_r; lia.
      + apply Z.mul_le_mono_nonneg_r; [apply Z.pow_nonneg|]; lia. }
  destruct (Z.compare_spec e1 e2) as [->|?|?].
  - change (Pos.compare_cont Eq m1 m2) with (Zpos m1 ?= Zpos m2).
    symmetry. rewrite !(Z.mul_comm _ (2 ^ (e2 + 1074))).
    symmetry; apply Zmult_compare_compat_l, Z.lt_gt, Z.pow_pos_nonneg; lia.
  - symmetry; apply Z.compare_lt_iff, Hlt; lia.
  - symmetry; apply Z.compare_gt_iff, Hlt; lia.
Qed.

(** [partial_cmp] on finite floats compares their exact values. *)
Lemma compare_exact x y :
  valid x = true → is_finite x = true → valid y = true → is_finite y = true →
  SFcompare x y = Some (scaled x ?= scaled y).
Proof.
  intros Vx Fx Vy Fy.
  assert (Hp : ∀ m e, bounded prec emax m e = true → 0 < Zpos m * 2 ^ (e + 1074)).
  { intros m e (?&?&_)%bounded_spec. apply Z.mul_pos_pos; [lia|].
    apply Z.pow_pos_nonneg; lia. }
  destruct x as [sx|sx| |sx mx ex], y as [sy|sy| |sy my ey]; try done;
    cbn [SFcompare scaled] in *; f_equal.
  - specialize (Hp _ _ Vy). destruct sy; cbn [cond_Zopp]; symmetry;
      [apply Z.compare_gt_iff|apply Z.compare_lt_iff]; lia.
  - specialize (Hp _ _ Vx). destruct sx; cbn [cond_Zopp]; symmetry;
      [apply Z.compare_lt_iff|apply Z.compare_gt_iff]; lia.
  - pose proof (Hp _ _ Vx); pose proof (Hp _ _ Vy).
    pose proof (pos_compare_scaled _ _ _ _ Vx Vy) as Hc.
    destruct sx, sy; cbn [cond_Zopp]; [|symmetry; apply Z.compare_lt_iff; lia
                                       |symmetry; apply Z.compare_gt_iff; lia|done].
    rewrite Z.compare_opp, (Z.compare_antisym (Zpos mx * _)), <- Hc.
    by destruct (ex ?= ey).
Qed.

Lemma scale_split e : -1074 ≤ e ≤ 0 → scale = 2 ^ (- e) * 2 ^ (e + 1074).
Proof. intros. unfold scale. rewrite <- Z.pow_add_r by lia. f_equal; lia. Qed.

Lemma shiftr_digits m k :
  0 ≤ k → Z.shiftr (Zpos m) k = Zpos m / 2 ^ k.
Proof. intros. by apply Z.shiftr_div_pow2. Qed.

Lemma digits2_shift m k t :
  0 ≤ k → Zpos m / 2 ^ k = Zpos t →
  Zpos (digits2_pos t) = Zpos (digits2_pos m) - k.
Proof.
  intros Hk Ht.
  pose proof (digits2_pos_bounds m) as [Hm1 Hm2].
  pose proof (digits2_pos_bounds t) as [Ht1 Ht2].
  assert (Hp : 0 < 2 ^ k) by (apply Z.pow_pos_nonneg; lia).
  pose proof (Z.div_mod (Zpos m) (2 ^ k)) as Hdm.
  pose proof (Z.mod_pos_bound (Zpos m) (2 ^ k) Hp) as Hmod.
  set (a := Zpos (digits2_pos m)) in *. set (b := Zpos (digits2_pos t)) in *.
  assert (2 ^ (b - 1 + k) ≤ Zpos m < 2 ^ (b + k)) as [H1 H2].
  { rewrite !Z.pow_add_r by lia. nia. }
  assert (b - 1 + k < a) by (apply (Z.pow_lt_mono_r_iff 2); lia).
  assert (a - 1 < b + k) by (apply (Z.pow_lt_mono_r_iff 2); lia).
  lia.
Qed.

(** Truncation keeps the integer part exactly. *)
Lemma to_Z_trunc x :
  valid x = true → to_Z (trunc x) = to_Z x.
Proof.
  destruct x as [| | |s m e]; try done. intros (Hm & He & _ & _ & Hd)%bounded_spec.
  cbn [trunc to_Z]. destruct (Z.leb_spec 0 e) as [He0|He0].
  { cbn [to_Z]. by rewrite (proj2 (Z.leb_le 0 e)). }
  rewrite shiftr_digits by lia.
  destruct (Zpos m / 2 ^ (- e)) as [|t|t] eqn:Ht; [by destruct s| |].
  2: { pose proof (Z.div_pos (Zpos m) (2 ^ (- e))). nia. }
  pose proof (digits2_shift m (- e) t ltac:(lia) Ht).
  destruct (round_exact s t 0) as (m' & e' & Hr & _ & He' & Hm' & _);
    [lia..|unfold fexp, emin; lia|].
  assert (Hn : binary_normalize prec emax (cond_Zopp s (Zpos t)) 0 s
    = binary_round prec emax s t 0) by (by destruct s).
  rewrite Hn, Hr; cbn [to_Z]. f_equal.
  destruct (Z.leb_spec 0 e') as [?|?].
  - replace e' with 0 in * by lia. rewrite Z.sub_diag in Hm'. lia.
  - rewrite shiftr_digits, Hm' by lia.
    replace (0 - e') with (- e') by lia.
    apply Z.div_mul, Z.pow_nonzero; lia.
Qed.

(** The sign test on [fract] as the engine writes it. *)
Definition sign_of (x : f64) : comparison :=
  if ltb zero x then Gt else if ltb x zero then Lt else Eq.

Lemma sign_of_finite s m e :
  sign_of (S754_finite s m e) = if s then Lt else Gt.
Proof. by destruct s. Qed.

Lemma sub_same_exponent s m m' e :
  0 ≤ Zpos m - Zpos m' → -1074 ≤ e ≤ 0 → Zpos m < 2 ^ 53 →
  sign_of (sub (S754_finite s m e) (S754_finite s m' e)) =
  if decide (m = m') then Eq else if s then Lt else Gt.
Proof.
  intros Hle He Hm. unfold sub, SFsub, shl_align.
  rewrite Z.min_id, Z.sub_diag; cbn [fst].
  set (r := Zpos m - Zpos m').
  replace (cond_Zopp s (Zpos m) - cond_Zopp s (Zpos m')) with (cond_Zopp s r)
    by (unfold r; destruct s; simpl; lia).
  destruct (decide (m = m')) as [->|Hne].
  { replace r with 0 by lia. by destruct s. }
  destruct r as [|p|p] eqn:Hr; [exfalso; apply Hne; lia| |lia].
  pose proof (digits2_pos_le p 53 ltac:(lia) ltac:(lia)).
  destruct (round_exact s p e) as (m1 & e1 & Hround & _); [lia..|unfold fexp, emin; lia|].
  assert (binary_normalize prec emax (cond_Zopp s (Zpos p)) e false
    = binary_round prec emax s p e) as -> by (by destruct s).
  rewrite Hround. apply sign_of_finite.
Qed.

(** The sign of [fract] is the exact sign of the fractional part. *)
Lemma fract_sign x :
  valid x = true → is_finite x = true →
  sign_of (fract x) = (scaled x ?= to_Z x * scale).
Proof.
  destruct x as [s|s| |s m e]; try done.
  { by destruct s. }
  intros Hb _. pose proof Hb as (Hm & He & _ & Hf & Hd)%bounded_spec.
  unfold fract. cbn [trunc to_Z scaled].
  destruct (Z.leb_spec 0 e) as [He0|He0].
  { assert (sign_of (sub (S754_finite s m e) (S754_finite s m e)) = Eq) as ->.
    { unfold sub, SFsub. rewrite Z.sub_diag. by cbn. }
    symmetry. apply Z.compare_eq_iff. unfold scale.
    rewrite Z.pow_add_r by lia. destruct s; simpl; lia. }
  rewrite (scale_split e) by lia. rewrite shiftr_digits by lia.
  assert (Hpe : 0 < 2 ^ (e + 1074)) by (apply Z.pow_pos_nonneg; lia).
  assert (Hp : 0 < 2 ^ (- e)) by (apply Z.pow_pos_nonneg; lia).
  pose proof (Z.div_mod (Zpos m) (2 ^ (- e)) ltac:(lia)) as Hdm.
  pose proof (Z.mod_pos_bound (Zpos m) (2 ^ (- e)) Hp) as Hmod.
  destruct (Zpos m / 2 ^ (- e)) as [|t|t] eqn:Ht.
  - replace (binary_normalize prec emax (cond_Zopp s 0) 0 s) with (S754_zero s)
      by (by destruct s).
    change (sub (S754_finite s m e) (S754_zero s)) with (S754_finite s m e).
    rewrite sign_of_finite. destruct s; cbn [cond_Zopp]; symmetry;
      [apply Z.compare_lt_iff|apply Z.compare_gt_iff]; nia.
  - pose proof (digits2_shift m (- e) t ltac:(lia) Ht) as Hdt.
    destruct (round_exact s t 0) as (m' & e' & Hr & Hfe & He' & Hm' & _);
      [lia..|unfold fexp, emin; lia|].
    assert (e' = e) as ->.
    { rewrite Hfe, Hdt. etransitivity; [|exact Hf]. f_equal; lia. }
    assert (binary_normalize prec emax (cond_Zopp s (Zpos t)) 0 s
      = S754_finite s m' e) as -> by (rewrite <- Hr; by destruct s).
    replace (0 - e) with (- e) in Hm' by lia.
    rewrite sub_same_exponent by lia.
    case_decide as Hmm.
    + subst m'. symmetry. apply Z.compare_eq_iff. destruct s; cbn [cond_Zopp]; nia.
    + assert (Zpos m' < Zpos m) by (assert (Zpos m ≠ Zpos m') by congruence; lia).
      destruct s; cbn [cond_Zopp]; symmetry;
        [apply Z.compare_lt_iff|apply Z.compare_gt_iff]; nia.
  - pose proof (Z.div_pos (Zpos m) (2 ^ (- e))). lia.
Qed.

(** The integer part is within one of the value, on its side of zero. *)
Lemma to_Z_bounds x :
  valid x = true →
  (scaled x < 0 → scaled x ≤ to_Z x * scale < scaled x + scale) ∧
  (0 ≤ scaled x → scaled x - scale < to_Z x * scale ≤ scaled x).
Proof.
  assert (0 < scale) by (apply Z.pow_pos_nonneg; lia).
  destruct x as [s|s| |s m e]; try (intros; cbn [scaled to_Z]; lia).
  intros (Hm & He & _)%bounded_spec. cbn [to_Z scaled].
  assert (Hpe : 0 < 2 ^ (e + 1074)) by (apply Z.pow_pos_nonneg; lia).
  destruct (Z.leb_spec 0 e) as [He0|He0].
  { unfold scale in *. rewrite Z.pow_add_r in * by lia.
    destruct s; cbn [cond_Zopp]; nia. }
  rewrite (scale_split e) by lia. rewrite shiftr_digits by lia.
  assert (Hp : 0 < 2 ^ (- e)) by (apply Z.pow_pos_nonneg; lia).
  pose proof (Z.div_mod (Zpos m) (2 ^ (- e)) ltac:(lia)) as Hdm.
  pose proof (Z.mod_pos_bound (Zpos m) (2 ^ (- e)) Hp) as Hmod.
  destruct s; cbn [cond_Zopp]; nia.
Qed.

End F64.
