(* ===== verification/Json.v ===== *)
(** * JSON values

    [serde_json::Value] as the workspace builds it (no [preserve_order]
    and no [arbitrary_precision] feature): an object is a [BTreeMap], here
    the list of its entries in key order, and a number is a [u64], a
    negative [i64] or a finite [f64].  The class [Externals] collects what
    the modelled code calls outside the repository. *)

From S2P Require Import Prelude Float64.
#[local] Set Warnings "-register-all".

(** [serde_json::Number]. *)
Inductive Number : Type :=
| PosInt (n : Z)
| NegInt (z : Z)
| Float (f : f64).

(** [serde_json::Value]. *)
#[local] Unset Elimination Schemes.
Inductive Value : Type :=
| VNull
| VBool (b : bool)
| VNumber (n : Number)
| VString (s : string)
| VArray (vs : list Value)
| VObject (m : list (string * Value)).
#[local] Set Elimination Schemes.

(** Induction with the hypothesis for every element and every entry. *)
Definition Value_ind (P : Value → Prop)
    (HNull : P VNull) (HBool : ∀ b, P (VBool b)) (HNumber : ∀ n, P (VNumber n))
    (HString : ∀ s, P (VString s))
    (HArray : ∀ vs, Forall P vs → P (VArray vs))
    (HObject : ∀ m, Forall (λ kv, P kv.2) m → P (VObject m)) :
  ∀ v, P v :=
  fix go v :=
    match v with
    | VNull => HNull
    | VBool b => HBool b
    | VNumber n => HNumber n
    | VString s => HString s
    | VArray vs =>
        HArray vs ((fix all l : Forall P l :=
          match l with
          | [] => Forall_nil_2 P
          | x :: l => Forall_cons_2 P x l (go x) (all l)
          end) vs)
    | VObject m =>
        HObject m ((fix all l : Forall (λ kv, P kv.2) l :=
          match l with
          | [] => Forall_nil_2 (λ kv, P kv.2)
          | kv :: l => Forall_cons_2 (λ kv, P kv.2) kv l (go kv.2) (all l)
          end) m)
    end.

(** ** Numbers *)

Module Number.

Definition as_i64 (n : Number) : option Z :=
  match n with
  | PosInt n => if n <=? i64_max then Some n else None
  | NegInt z => Some z
  | Float _ => None
  end.
Definition as_u64 (n : Number) : option Z :=
  match n with PosInt n => Some n | _ => None end.
Definition as_f64 (n : Number) : option f64 :=
  match n with
  | PosInt n => Some (F64.of_Z n)
  | NegInt z => Some (F64.of_Z z)
  | Float f => Some f
  end.
Definition from_i64 (z : Z) : Number := if z <? 0 then NegInt z else PosInt z.
Definition from_u64 (n : Z) : Number := PosInt n.
Definition from_f64 (f : f64) : option Number :=
  if F64.is_finite f then Some (Float f) else None.

(** The representation invariant of [serde_json::Number]. *)
Definition wf (n : Number) : Prop :=
  match n with
  | PosInt n => 0 ≤ n ≤ u64_max
  | NegInt z => i64_min ≤ z < 0
  | Float f => F64.is_finite f = true ∧ F64.valid f = true
  end.

End Number.

(** ** Maps *)

Module Map.

Definition t : Type := list (string * Value).

Fixpoint get (k : string) (m : t) : option Value :=
  match m with
  | [] => None
  | (k', v) :: m => if decide (k = k') then Some v else get k m
  end.

Definition contains_key (k : string) (m : t) : bool :=
  match get k m with Some _ => true | None => false end.

(** [BTreeMap::insert]: keeps the entries in key order. *)
Fixpoint insert (k : string) (v : Value) (m : t) : t :=
  match m with
  | [] => [(k, v)]
  | (k', v') :: m' =>
      match String.compare k k' with
      | Lt => (k, v) :: m
      | Eq => (k, v) :: m'
      | Gt => (k', v') :: insert k v m'
      end
  end.

Definition keys (m : t) : list string := m.*1.

(** Keys strictly increasing in byte order. *)
Definition sorted (m : t) : Prop :=
  StronglySorted (λ a b, String.compare a b = Lt) (keys m).

End Map.

(** Values [serde_json] can build. *)
Inductive wf_value : Value → Prop :=
| wf_null : wf_value VNull
| wf_bool b : wf_value (VBool b)
| wf_num n : Number.wf n → wf_value (VNumber n)
| wf_string s : wf_value (VString s)
| wf_array vs : Forall wf_value vs → wf_value (VArray vs)
| wf_object m :
    Map.sorted m → Forall (λ kv, wf_value kv.2) m → wf_value (VObject m).

(** [evaluator::json_type]. *)
Definition json_type (v : Value) : string :=
  match v with
  | VNull => "null"
  | VBool _ => "bool"
  | VNumber _ => "number"
  | VString _ => "string"
  | VArray _ => "array"
  | VObject _ => "object"
  end.

(** ** Code outside the repository

    - [fmt_f64]: the decimal text [serde_json] prints for a finite float;
    - [json_deserialize], [json_end]: [Value::deserialize] on a
      [Deserializer] (with the unread input) and [Deserializer::end];
    - [Regex], [regex_build], [regex_is_match]: the [regex] crate;
    - [to_uppercase], [to_lowercase]: the Unicode case tables;
    - [size_of_*]: [std::mem::size_of], a property of the compiled layout. *)
Class Externals := {
  fmt_f64 : f64 → string;
  json_deserialize : string → Result string (Value * string);
  json_end : string → Result string unit;
  Regex : Type;
  regex_build : string → Z → Z → Result string Regex;
  regex_is_match : Regex → string → bool;
  to_uppercase : Z → list Z;
  to_lowercase : Z → list Z;
  size_of_Value : N;
  size_of_StringValue : N;
  size_of_RuntimeValue : N;
}.

(** [Display for Number]: the integer digits, or the float text. *)
Definition number_to_string `{Externals} (n : Number) : string :=
  match n with
  | PosInt n => pretty n
  | NegInt z => pretty z
  | Float f => fmt_f64 f
  end.

(** ** The byte order on keys *)


Lemma string_compare_refl s : String.compare s s = Eq.
Proof.
  induction s as [|a s IH]; [done|]; simpl.
  by rewrite (proj2 (N.compare_eq_iff _ _) eq_refl : Ascii.compare a a = Eq).
Qed.

Lemma string_compare_trans a b c :
  String.compare a b = Lt → String.compare b c = Lt → String.compare a c = Lt.
Proof.
  revert b c. induction a as [|x a IH]; intros [|y b] [|z c]; simpl; try done.
  unfold Ascii.compare.
  destruct (N.compare_spec (Ascii.N_of_ascii x) (Ascii.N_of_ascii y)) as [Hxy|Hxy|Hxy]; try done;
    destruct (N.compare_spec (Ascii.N_of_ascii y) (Ascii.N_of_ascii z)) as [Hyz|Hyz|Hyz]; try done;
    intros H1 H2;
    destruct (N.compare_spec (Ascii.N_of_ascii x) (Ascii.N_of_ascii z)); try done; try lia; eauto.
Qed.

Lemma string_compare_lt_ne a b : String.compare a b = Lt → a ≠ b.
Proof. intros H ->. by rewrite string_compare_refl in H. Qed.

Lemma string_compare_gt a b : String.compare a b = Gt → String.compare b a = Lt.
Proof. intros H. by rewrite String.compare_antisym, H. Qed.

#[export] Hint Resolve string_compare_trans string_compare_lt_ne string_compare_gt : rye.

(** ** Map laws *)

Module MapFacts.

Lemma get_In k v m : Map.get k m = Some v → (k, v) ∈ m.
Proof.
  induction m as [|[k' v'] m IH]; simpl; [done|].
  case_decide; [intros [= ->]; subst; left|intros; right; auto].
Qed.

Lemma get_None k m : Map.get k m = None ↔ k ∉ Map.keys m.
Proof.
  induction m as [|[k' v'] m IH]; cbn [Map.get Map.keys fmap list_fmap fst].
  { split; [intros _; apply not_elem_of_nil|done]. }
  case_decide; subst.
  - split; [done|]. intros []. left.
  - rewrite IH, not_elem_of_cons. naive_solver.
Qed.

Lemma get_insert k k' v m :
  Map.sorted m →
  Map.get k (Map.insert k' v m) = if decide (k = k') then Some v else Map.get k m.
Proof.
  induction m as [|[k0 v0] m IH]; intros Hs.
  { simpl. by case_decide. }
  inversion Hs as [|?? Hs' Hall]; subst.
  cbn [Map.insert]. destruct (String.compare k' k0) eqn:Hc.
  - apply String.compare_eq_iff in Hc as ->. simpl. by case_decide.
  - simpl. by case_decide.
  - simpl. rewrite IH by done.
    destruct (decide (k = k0)) as [->|], (decide (k0 = k')) as [->|]; try done.
    by rewrite string_compare_refl in Hc.
Qed.

Lemma insert_keys k k' v m : k ∈ Map.keys (Map.insert k' v m) → k = k' ∨ k ∈ Map.keys m.
Proof.
  induction m as [|[k0 v0] m IH]; cbn [Map.insert].
  { cbn. set_solver. }
  destruct (String.compare k' k0); cbn; [set_solver..|].
  rewrite !elem_of_cons. unfold Map.keys in *. naive_solver.
Qed.

Lemma insert_sorted k v m : Map.sorted m → Map.sorted (Map.insert k v m).
Proof.
  induction m as [|[k0 v0] m IH]; intros Hs.
  { repeat constructor. }
  inversion Hs as [|?? Hs' Hall]; subst.
  cbn [Map.insert]. destruct (String.compare k k0) eqn:Hc.
  - apply String.compare_eq_iff in Hc as ->. by constructor.
  - constructor; [done|]. constructor; [done|].
    eapply Forall_impl; [exact Hall|]. simpl. eauto with rye.
  - constructor; [by apply IH|].
    apply Forall_forall. intros x [->|Hx]%insert_keys; [auto with rye|].
    rewrite Forall_forall in Hall. by apply Hall.
Qed.

(** Appending a key above every key is insertion: how a map is rebuilt in
    iteration order. *)
Lemma insert_last k v m :
  Forall (λ k', String.compare k' k = Lt) (Map.keys m) →
  Map.insert k v m = m ++ [(k, v)].
Proof.
  induction m as [|[k0 v0] m IH]; intros Hall; [done|].
  inversion Hall as [|?? Hk Hm]; subst. cbn [Map.insert app].
  rewrite String.compare_antisym, Hk. cbn [CompOpp]. by rewrite IH.
Qed.

Lemma sorted_app_inv m1 m2 :
  Map.sorted (m1 ++ m2) →
  Map.sorted m1 ∧ Map.sorted m2 ∧
  ∀ k1 k2, k1 ∈ Map.keys m1 → k2 ∈ Map.keys m2 → String.compare k1 k2 = Lt.
Proof.
  unfold Map.sorted, Map.keys. rewrite fmap_app.
  induction (m1.*1) as [|k ks IH]; simpl.
  { intros. split_and!; [constructor|done|]. intros ?? []%not_elem_of_nil. }
  inversion 1 as [|?? Hs Hall]; subst. destruct (IH Hs) as (?&?&Hlt).
  apply Forall_app in Hall as [Hall1 Hall2].
  split_and!; [by constructor|done|].
  intros k1 k2 [->|Hk1]%elem_of_cons Hk2; [|by apply Hlt].
  rewrite Forall_forall in Hall2. by apply Hall2.
Qed.

End MapFacts.
