(* ===== verification/Numeric.v ===== *)
(** * Numbers of the expression language

    [expression/value.rs]: signed and unsigned 64-bit integers computed
    through [i128] with explicit overflow errors, and finite decimals.
    The theorems state that integer arithmetic is exact or an error, that
    comparison across the three representations is comparison of exact
    values, and that the JSON encoding round-trips. *)

From S2P Require Import Prelude Float64 Json.

Inductive Numeric : Type :=
| Signed (z : Z)
| Unsigned (n : Z)
| Decimal (f : f64).

Module Numeric.

(** How an operation of [value.rs] ends without a result: with the message
    of an [Err], or in a panic. *)
Inductive Fault : Type :=
| Refused (message : string)
| Panicked.

(** The [Err] of an operation that cannot panic. *)
Definition refused {A} (r : Result string A) : Result Fault A := map_err Refused r.

Definition i128_min : Z := - 2 ^ 127.
Definition i128_max : Z := 2 ^ 127 - 1.

Definition normalize_zero (f : f64) : f64 := if F64.eqb f F64.zero then F64.zero else f.

Definition finite_decimal (f : f64) : Result string Numeric :=
  if F64.is_finite f then Ok (Decimal (normalize_zero f))
  else Err "decimal number must be finite".

(** [as_f64]. *)
Definition as_f64 (n : Numeric) : f64 :=
  match n with
  | Signed z => F64.of_Z z
  | Unsigned n => F64.of_Z n
  | Decimal f => f
  end.

(** [integer_i128]; the [Decimal] arm is [unreachable!()]. *)
Definition integer_i128 (n : Numeric) : Result Fault Z :=
  match n with Signed z => Ok z | Unsigned n => Ok n | Decimal _ => Err Panicked end.

Definition is_integer (n : Numeric) : bool :=
  match n with Decimal _ => false | _ => true end.

Definition from_i128 (value : Z) (overflow : string) : Result string Numeric :=
  if is_i64 value then Ok (Signed value)
  else if is_u64 value then Ok (Unsigned value)
  else Err overflow.

Definition checked_i128 (z : Z) : option Z :=
  if (i128_min <=? z) && (z <=? i128_max) then Some z else None.

Definition is_zero (n : Numeric) : bool :=
  match n with
  | Signed z => z =? 0
  | Unsigned n => n =? 0
  | Decimal f => F64.eqb f F64.zero
  end.

(** The two operations that share [integer_or_decimal]. *)
Inductive IntegerOperation := Addition | Multiplication.

Definition integer_or_decimal (self other : Numeric) (operation : IntegerOperation)
    : Result Fault Numeric :=
  if is_integer self && is_integer other then
    let overflow :=
      match operation with
      | Addition => "integer addition overflow"
      | Multiplication => "integer multiplication overflow"
      end in
    lhs ← integer_i128 self ;
    rhs ← integer_i128 other ;
    let value :=
      match operation with
      | Addition => checked_i128 (lhs + rhs)
      | Multiplication => checked_i128 (lhs * rhs)
      end in
    refused (value ← ok_or value overflow ; from_i128 value overflow)
  else
    refused (map_err (λ _, "decimal arithmetic produced a non-finite result")
      (finite_decimal
         match operation with
         | Addition => F64.add (as_f64 self) (as_f64 other)
         | Multiplication => F64.mul (as_f64 self) (as_f64 other)
         end)).

Definition add (self other : Numeric) : Result Fault Numeric :=
  integer_or_decimal self other Addition.

Definition multiply (self other : Numeric) : Result Fault Numeric :=
  integer_or_decimal self other Multiplication.

Definition subtract (self other : Numeric) : Result Fault Numeric :=
  if is_integer self && is_integer other then
    lhs ← integer_i128 self ;
    rhs ← integer_i128 other ;
    refused (from_i128 (lhs - rhs) "integer subtraction overflow")
  else
    refused (map_err (λ _, "decimal subtraction produced a non-finite result")
      (finite_decimal (F64.sub (as_f64 self) (as_f64 other)))).

Definition divide (self other : Numeric) : Result Fault Numeric :=
  if is_zero other then Err (Refused "division by zero")
  else
    refused (map_err (λ _, "division produced a non-finite result")
      (finite_decimal (F64.div (as_f64 self) (as_f64 other)))).

Definition remainder (self other : Numeric) : Result Fault Numeric :=
  if is_zero other then Err (Refused "remainder by zero")
  else if is_integer self && is_integer other then
    lhs ← integer_i128 self ;
    rhs ← integer_i128 other ;
    refused (from_i128 (Z.rem lhs rhs) "integer remainder overflow")
  else
    refused (map_err (λ _, "decimal remainder produced a non-finite result")
      (finite_decimal (F64.rem (as_f64 self) (as_f64 other)))).

Definition positive (self : Numeric) : Result Fault Numeric :=
  match self with
  | Decimal f => refused (finite_decimal f)
  | value => Ok value
  end.

Definition negate (self : Numeric) : Result Fault Numeric :=
  match self with
  | Decimal f =>
      refused (map_err (λ _, "decimal negation produced a non-finite result")
        (finite_decimal (normalize_zero (F64.neg f))))
  | value =>
      integer ← integer_i128 value ;
      refused (from_i128 (- integer) "integer negation overflow")
  end.

(** [as_array_index]; [usize::try_from] succeeds on a 64-bit target. *)
Definition as_array_index (self : Numeric) : Result string (option Z) :=
  match self with
  | Signed z =>
      if z <? 0 then Err "array index cannot be negative" else Ok (Some z)
  | Unsigned n => Ok (Some n)
  | Decimal _ => Err "array index must be a non-negative integer"
  end.

(** ** Comparison *)

Definition I64_MIN_F64 : f64 := F64.of_Z (- 2 ^ 63).
Definition I64_UPPER_F64 : f64 := F64.of_Z (2 ^ 63).
Definition U64_UPPER_F64 : f64 := F64.of_Z (2 ^ 64).

Definition compare_i64_f64 (integer : Z) (decimal : f64) : comparison :=
  if F64.ltb decimal I64_MIN_F64 then Gt
  else if F64.leb I64_UPPER_F64 decimal then Lt
  else
    let truncated := F64.as_i64 (F64.trunc decimal) in
    match Z.compare integer truncated with
    | Eq =>
        if F64.ltb F64.zero (F64.fract decimal) then Lt
        else if F64.ltb (F64.fract decimal) F64.zero then Gt
        else Eq
    | ordering => ordering
    end.

Definition compare_u64_f64 (integer : Z) (decimal : f64) : comparison :=
  if F64.ltb decimal F64.zero then Gt
  else if F64.leb U64_UPPER_F64 decimal then Lt
  else
    let truncated := F64.as_u64 (F64.trunc decimal) in
    match Z.compare integer truncated with
    | Eq => if F64.ltb F64.zero (F64.fract decimal) then Lt else Eq
    | ordering => ordering
    end.

(** [None] is the panic of [partial_cmp(..).unwrap()] on a NaN. *)
Definition compare (self other : Numeric) : option comparison :=
  match self, other with
  | Signed lhs, Signed rhs => Some (Z.compare lhs rhs)
  | Unsigned lhs, Unsigned rhs => Some (Z.compare lhs rhs)
  | Signed lhs, Unsigned rhs => Some (if lhs <? 0 then Lt else Z.compare lhs rhs)
  | Unsigned lhs, Signed rhs => Some (if rhs <? 0 then Gt else Z.compare lhs rhs)
  | Signed integer, Decimal decimal => Some (compare_i64_f64 integer decimal)
  | Decimal decimal, Signed integer => Some (CompOpp (compare_i64_f64 integer decimal))
  | Unsigned integer, Decimal decimal => Some (compare_u64_f64 integer decimal)
  | Decimal decimal, Unsigned integer => Some (CompOpp (compare_u64_f64 integer decimal))
  | Decimal lhs, Decimal rhs => SFcompare lhs rhs
  end.

(** ** JSON *)

Definition from_json (number : Number) : Result string Numeric :=
  match Number.as_i64 number with
  | Some value => Ok (Signed value)
  | None =>
      match Number.as_u64 number with
      | Some value => Ok (Unsigned value)
      | None =>
          value ← ok_or (Number.as_f64 number) "unrepresentable JSON number" ;
          finite_decimal value
      end
  end.

Definition to_json (self : Numeric) : Result string Value :=
  number ←
    match self with
    | Signed value => Ok (Number.from_i64 value)
    | Unsigned value => Ok (Number.from_u64 value)
    | Decimal value =>
        ok_or (Number.from_f64 (normalize_zero value)) "numeric result is not finite"
    end ;
  Ok (VNumber number).

Definition canonical `{Externals} (self : Numeric) : Result string string :=
  match self with
  | Signed value => Ok (pretty value)
  | Unsigned value => Ok (pretty value)
  | Decimal value =>
      ok_or (number_to_string <$> Number.from_f64 (normalize_zero value))
        "numeric result is not finite"
  end.

(** ** Text *)

(** [str::parse::<f64>] on the unsigned decimal grammar. *)
Definition parse_f64 (s : string) : option f64 :=
  let whole := take_while is_ascii_digit s in
  let rest := skip_while is_ascii_digit s in
  let '(fraction, rest) :=
    match rest with
    | String a r =>
        if byte_of a =? 46 then (take_while is_ascii_digit r, skip_while is_ascii_digit r)
        else (EmptyString, rest)
    | EmptyString => (EmptyString, rest)
    end in
  let exponent :=
    match rest with
    | EmptyString => Some 0
    | String a r =>
        if (byte_of a =? 101) || (byte_of a =? 69) then
          let '(negative, digits) :=
            match r with
            | String b r' =>
                if byte_of b =? 45 then (true, r')
                else if byte_of b =? 43 then (false, r') else (false, r)
            | EmptyString => (false, r)
            end in
          if is_empty digits || negb (all_bytes is_ascii_digit digits) then None
          else Some (if negative : bool then - digits_value digits else digits_value digits)
        else None
    end in
  if is_empty (whole +:+ fraction) then None
  else (λ e, F64.of_decimal (digits_value (whole +:+ fraction)) (e - len fraction)) <$> exponent.

(** [str::parse::<i64>] and [str::parse::<u64>] on unsigned tokens. *)
Definition parse_integer (in_range : Z → bool) (s : string) : option Z :=
  if is_empty s || negb (all_bytes is_ascii_digit s) then None
  else if in_range (digits_value s) then Some (digits_value s) else None.

Definition is_decimal_byte (b : Z) : bool := (b =? 46) || (b =? 101) || (b =? 69).

Definition parse_unsigned_token (token : string) : Result string Numeric :=
  if negb (all_bytes (λ b, negb (is_decimal_byte b)) token) then
    value ← ok_or (parse_f64 token) "invalid decimal number" ; finite_decimal value
  else
    match parse_integer is_i64 token with
    | Some value => Ok (Signed value)
    | None =>
        value ← ok_or (parse_integer is_u64 token) "integer literal exceeds the u64 range" ;
        Ok (Unsigned value)
    end.

(** The three stages of [valid_unsigned_number_token]; a cursor is the
    suffix it points at, [None] the early [return false]. *)
Definition scan_integer (value : string) : option string :=
  match value with
  | EmptyString => None
  | String a r =>
      if byte_of a =? 48 then if head_is is_ascii_digit r then None else Some r
      else if is_ascii_digit (byte_of a) then Some (skip_while is_ascii_digit r)
      else None
  end.

Definition scan_fraction (cursor : string) : option string :=
  match cursor with
  | String a r =>
      if byte_of a =? 46 then
        if head_is is_ascii_digit r then Some (skip_while is_ascii_digit r) else None
      else Some cursor
  | EmptyString => Some cursor
  end.

Definition scan_exponent (cursor : string) : option string :=
  match cursor with
  | String a r =>
      if (byte_of a =? 101) || (byte_of a =? 69) then
        let start := if head_is (λ b, (b =? 43) || (b =? 45)) r then drop_bytes 1 r else r in
        if head_is is_ascii_digit start then Some (skip_while is_ascii_digit start) else None
      else Some cursor
  | EmptyString => Some cursor
  end.

Definition valid_unsigned_number_token (value : string) : bool :=
  match (scan_integer value ≫= scan_fraction) ≫= scan_exponent with
  | Some cursor => is_empty cursor
  | None => false
  end.

Definition parse_string (value : string) : Result Fault Numeric :=
  if is_empty value || negb (bool_decide (trim value = value)) then
    Err (Refused "number(string) requires a numeric string without whitespace")
  else
    let '(negative, unsigned) :=
      match first_byte value with
      | Some b =>
          if b =? 45 then (true, drop_bytes 1 value)
          else if b =? 43 then (false, drop_bytes 1 value) else (false, value)
      | None => (false, value)
      end in
    if is_empty unsigned || negb (valid_unsigned_number_token unsigned) then
      Err (Refused "number(string) requires the expression numeric grammar")
    else
      parsed ← refused (parse_unsigned_token unsigned) ;
      if negative : bool then negate parsed else Ok parsed.

(** ** The number grammar *)

(** The unsigned numbers of the language: an integer part without leading
    zeroes, an optional fraction and an optional exponent. *)
Inductive integer_part : string → Prop :=
| integer_zero : integer_part "0"
| integer_digits a r :
    is_ascii_digit (byte_of a) = true → byte_of a ≠ 48 → all_bytes is_ascii_digit r = true →
    integer_part (String a r).
Definition digits (s : string) : Prop := s ≠ EmptyString ∧ all_bytes is_ascii_digit s = true.
Inductive fraction_part : string → Prop :=
| fraction_none : fraction_part EmptyString
| fraction_some d : digits d → fraction_part ("." +:+ d).
Inductive exponent_part : string → Prop :=
| exponent_none : exponent_part EmptyString
| exponent_some e sign d :
    e ∈ ["e"; "E"]%string → sign ∈ [""; "+"; "-"]%string → digits d →
    exponent_part (e +:+ sign +:+ d).
Definition number_text (s : string) : Prop :=
  ∃ i f e, s = i +:+ f +:+ e ∧ integer_part i ∧ fraction_part f ∧ exponent_part e.

(** ** Invariant and exact values *)

(** What every [Numeric] of the engine satisfies: integers in range, and
    decimals finite. *)
Definition wf (n : Numeric) : Prop :=
  match n with
  | Signed z => i64_min ≤ z ≤ i64_max
  | Unsigned n => 0 ≤ n ≤ u64_max
  | Decimal f => F64.is_finite f = true ∧ F64.valid f = true
  end.

(** [scaled n] is the exact value of [n], times [2 ^ 1074]. *)
Definition scaled (n : Numeric) : Z :=
  match n with
  | Signed z | Unsigned z => z * F64.scale
  | Decimal f => F64.scaled f
  end.

(** Unsigned is used only for what [i64] cannot hold, and zero is positive. *)
Definition normal (n : Numeric) : Prop :=
  match n with
  | Signed _ => True
  | Unsigned n => i64_max < n
  | Decimal f => normalize_zero f = f
  end.

Lemma scale_pos : 0 < F64.scale.
Proof. apply Z.pow_pos_nonneg; lia. Qed.

Lemma mul_scale_compare a b : (a * F64.scale ?= b * F64.scale) = (a ?= b).
Proof.
  rewrite !(Z.mul_comm _ F64.scale). symmetry.
  apply Zmult_compare_compat_l, Z.lt_gt, scale_pos.
Qed.

Lemma bound_valid : F64.valid I64_MIN_F64 = true ∧ F64.valid I64_UPPER_F64 = true ∧
  F64.valid U64_UPPER_F64 = true ∧ F64.scaled I64_MIN_F64 = - 2 ^ 63 * F64.scale ∧
  F64.scaled I64_UPPER_F64 = 2 ^ 63 * F64.scale ∧
  F64.scaled U64_UPPER_F64 = 2 ^ 64 * F64.scale.
Proof. by vm_compute. Qed.

Lemma ltb_exact x y :
  F64.valid x = true → F64.is_finite x = true → F64.valid y = true → F64.is_finite y = true →
  F64.ltb x y = (F64.scaled x <? F64.scaled y).
Proof.
  intros. unfold F64.ltb, SFltb. rewrite F64.compare_exact by done.
  unfold Z.ltb. by destruct (_ ?= _).
Qed.

Lemma leb_exact x y :
  F64.valid x = true → F64.is_finite x = true → F64.valid y = true → F64.is_finite y = true →
  F64.leb x y = (F64.scaled x <=? F64.scaled y).
Proof.
  intros. unfold F64.leb, SFleb. rewrite F64.compare_exact by done.
  unfold Z.leb. by destruct (_ ?= _).
Qed.

(** The shared core of the two mixed comparisons: once the float is inside
    the integer range, comparing with its truncation and then looking at
    the sign of the fractional part is exact comparison. *)
Lemma compare_truncated i f :
  F64.valid f = true → F64.is_finite f = true →
  (i * F64.scale ?= F64.scaled f) =
  match i ?= F64.to_Z f with
  | Eq => CompOpp (F64.sign_of (F64.fract f))
  | c => c
  end.
Proof.
  intros Hv Hf. rewrite F64.fract_sign by done.
  destruct (F64.to_Z_bounds f Hv) as [Hneg Hpos]. pose proof scale_pos.
  destruct (Z.compare_spec i (F64.to_Z f)) as [->|Hi|Hi].
  - apply Z.compare_antisym.
  - apply Z.compare_lt_iff. nia.
  - apply Z.compare_gt_iff. nia.
Qed.

Lemma as_int_in_range lo hi f :
  F64.is_finite f = true → lo ≤ F64.to_Z f ≤ hi → F64.as_int lo hi f = F64.to_Z f.
Proof. destruct f; try done; intros _ H; unfold F64.as_int; lia. Qed.

Lemma trunc_finite f : F64.valid f = true → F64.is_finite f = true →
  F64.is_finite (F64.trunc f) = true.
Proof.
  destruct f as [s|s| |s m e]; try done. intros Hb _.
  pose proof Hb as (Hm & He & _ & _ & Hd)%F64.bounded_spec. cbn [F64.trunc].
  destruct (Z.leb_spec 0 e) as [|He0]; [done|].
  rewrite F64.shiftr_digits by lia.
  destruct (Zpos m / 2 ^ (- e)) as [|t|t] eqn:Ht; [by destruct s| |].
  2: { pose proof (Z.div_pos (Zpos m) (2 ^ (- e)) ltac:(lia)
         ltac:(apply Z.pow_pos_nonneg; lia)). lia. }
  pose proof (F64.digits2_shift m (- e) t ltac:(lia) Ht).
  destruct (F64.round_exact s t 0) as (m' & e' & Hr & _);
    [lia..|unfold fexp, emin; lia|].
  assert (binary_normalize prec emax (cond_Zopp s (Zpos t)) 0 s
    = binary_round prec emax s t 0) as -> by (by destruct s).
  by rewrite Hr.
Qed.

Lemma as_int_trunc lo hi f :
  F64.valid f = true → F64.is_finite f = true → lo ≤ F64.to_Z f ≤ hi →
  F64.as_int lo hi (F64.trunc f) = F64.to_Z f.
Proof.
  intros Hv Hf Hr. rewrite as_int_in_range.
  - by apply F64.to_Z_trunc.
  - by apply trunc_finite.
  - by rewrite F64.to_Z_trunc.
Qed.

Lemma compare_i64_f64_exact i f :
  i64_min ≤ i ≤ i64_max → F64.valid f = true → F64.is_finite f = true →
  compare_i64_f64 i f = (i * F64.scale ?= F64.scaled f).
Proof.
  intros Hi Hv Hf. destruct bound_valid as (Vmin & Vup & _ & Smin & Sup & _).
  pose proof scale_pos. unfold i64_min, i64_max in Hi.
  unfold compare_i64_f64. rewrite ltb_exact, leb_exact by done. rewrite Smin, Sup.
  destruct (Z.ltb_spec (F64.scaled f) (- 2 ^ 63 * F64.scale)).
  { symmetry; apply Z.compare_gt_iff; nia. }
  destruct (Z.leb_spec (2 ^ 63 * F64.scale) (F64.scaled f)).
  { symmetry; apply Z.compare_lt_iff; nia. }
  rewrite compare_truncated by done.
  destruct (F64.to_Z_bounds f Hv) as [Hneg Hpos].
  unfold F64.as_i64. rewrite as_int_trunc by (done || (unfold i64_min, i64_max; nia)).
  destruct (_ ?= _); [|done..]. unfold F64.sign_of.
  by destruct (F64.ltb F64.zero (F64.fract f)), (F64.ltb (F64.fract f) F64.zero).
Qed.

Lemma compare_u64_f64_exact i f :
  0 ≤ i ≤ u64_max → F64.valid f = true → F64.is_finite f = true →
  compare_u64_f64 i f = (i * F64.scale ?= F64.scaled f).
Proof.
  intros Hi Hv Hf. destruct bound_valid as (_ & _ & Vup & _ & _ & Sup).
  pose proof scale_pos. unfold u64_max in Hi.
  unfold compare_u64_f64. rewrite ltb_exact, leb_exact by done. rewrite Sup.
  change (F64.scaled F64.zero) with 0.
  destruct (Z.ltb_spec (F64.scaled f) 0).
  { symmetry; apply Z.compare_gt_iff; nia. }
  destruct (Z.leb_spec (2 ^ 64 * F64.scale) (F64.scaled f)).
  { symmetry; apply Z.compare_lt_iff; nia. }
  rewrite compare_truncated by done.
  destruct (F64.to_Z_bounds f Hv) as [Hneg Hpos].
  unfold F64.as_u64. rewrite as_int_trunc by (done || (unfold u64_max; nia)).
  destruct (Z.compare_spec i (F64.to_Z f)) as [->|?|?]; [|done..].
  pose proof (F64.fract_sign f Hv Hf) as Hs. unfold F64.sign_of in *.
  destruct (F64.ltb F64.zero (F64.fract f)), (F64.ltb (F64.fract f) F64.zero); try done.
  symmetry in Hs. rewrite Z.compare_lt_iff in Hs.
  exfalso. nia.
Qed.

(** ** The number grammar is what the validator accepts *)

Lemma head_is_cons p a s : head_is p (String a s) = p (byte_of a).
Proof. done. Qed.

Lemma digits_scan s :
  head_is is_ascii_digit s = true →
  ∃ d, s = d +:+ skip_while is_ascii_digit s ∧ digits d.
Proof.
  intros H. exists (take_while is_ascii_digit s). split; [|split].
  - by rewrite take_skip_while.
  - destruct s as [|a s]; [done|]. rewrite head_is_cons in H. cbn. rewrite H. discriminate.
  - apply all_bytes_take_while.
Qed.

Lemma digits_head d s : digits d → head_is is_ascii_digit (d +:+ s) = true.
Proof. intros [Hne Hd]. destruct d as [|a d]; [done|]. cbn in Hd. by apply andb_prop in Hd as [? _]. Qed.

Lemma scan_integer_sound s r :
  scan_integer s = Some r → ∃ i, s = i +:+ r ∧ integer_part i.
Proof.
  destruct s as [|a s]; cbn [scan_integer]; [done|].
  destruct (Z.eqb_spec (byte_of a) 48) as [Ha|Ha].
  - case_match; intros [= <-]. exists "0". split; [by apply byte_eq in Ha as ->|constructor].
  - destruct (is_ascii_digit (byte_of a)) eqn:E; intros [= <-].
    exists (String a (take_while is_ascii_digit s)). rewrite append_cons, take_skip_while.
    split; [done|]. constructor; auto with rye.
Qed.

Lemma scan_fraction_sound s r :
  scan_fraction s = Some r → ∃ f, s = f +:+ r ∧ fraction_part f.
Proof.
  destruct s as [|a s]; cbn [scan_fraction].
  - intros [= <-]. exists EmptyString. split; [done|constructor].
  - destruct (Z.eqb_spec (byte_of a) 46) as [Ha|Ha].
    + destruct (head_is _ s) eqn:E; intros [= <-].
      apply digits_scan in E as (d & Hs & Hd). exists ("." +:+ d). split; [|by constructor].
      apply byte_eq in Ha as ->. by rewrite Hs at 1.
    + intros [= <-]. exists EmptyString. split; [done|constructor].
Qed.

Lemma scan_exponent_sound s r :
  scan_exponent s = Some r → ∃ e, s = e +:+ r ∧ exponent_part e.
Proof.
  destruct s as [|a s]; cbn [scan_exponent].
  { intros [= <-]. exists EmptyString. split; [done|constructor]. }
  destruct ((byte_of a =? 101) || (byte_of a =? 69)) eqn:Ha.
  2: { intros [= <-]. exists EmptyString. split; [done|constructor]. }
  assert (String a EmptyString ∈ ["e"; "E"]%string) as He.
  { apply orb_prop in Ha as [Ha|Ha]; apply Z.eqb_eq in Ha.
    - apply byte_eq in Ha as ->. set_solver.
    - apply byte_eq in Ha as ->. set_solver. }
  assert (∃ sign, sign ∈ [""; "+"; "-"]%string ∧
    s = sign +:+ (if head_is (λ b, (b =? 43) || (b =? 45)) s then drop_bytes 1 s else s)) as
    (sign & Hsign & Hs).
  { destruct s as [|b s]; [exists EmptyString; split; [set_solver|done]|].
    rewrite head_is_cons. destruct ((byte_of b =? 43) || (byte_of b =? 45)) eqn:Hb; [|exists EmptyString; split; [set_solver|done]].
    exists (String b EmptyString). cbn [drop_bytes]. split; [|done].
    apply orb_prop in Hb as [Hb|Hb]; apply Z.eqb_eq in Hb.
    - apply byte_eq in Hb as ->. set_solver.
    - apply byte_eq in Hb as ->. set_solver. }
  cbv zeta. set (start := if head_is _ s then _ else _) in *.
  destruct (head_is is_ascii_digit start) eqn:E; intros [= <-].
  apply digits_scan in E as (d & Hd & ?).
  exists (String a EmptyString +:+ sign +:+ d). split; [|by constructor].
  rewrite append_cons, append_nil_l, append_cons, append_assoc, <- Hd. by rewrite Hs at 1.
Qed.

Lemma exponent_head e : exponent_part e → head_is (λ b, is_ascii_digit b || (b =? 46)) e = false.
Proof. destruct 1 as [|e sign d He]; [done|]. apply list_elem_of_In in He. cbn in He. by destruct He as [<-|[<-|[]]]. Qed.

Lemma fraction_head f e :
  fraction_part f → exponent_part e → head_is is_ascii_digit (f +:+ e) = false.
Proof.
  destruct 1; [|done]. intros He%exponent_head. rewrite append_nil_l.
  unfold head_is in *. destruct (first_byte e); [|done]. by apply orb_false_elim in He as [? _].
Qed.

Lemma scan_integer_complete i r :
  integer_part i → head_is is_ascii_digit r = false → scan_integer (i +:+ r) = Some r.
Proof.
  destruct 1 as [|a s Ha Hz Hs]; intros Hr; rewrite append_cons; cbn [scan_integer].
  - rewrite append_nil_l. by rewrite Hr.
  - rewrite (proj2 (Z.eqb_neq _ _)), Ha by done. by rewrite skip_while_append.
Qed.

Lemma scan_fraction_complete f e :
  fraction_part f → exponent_part e → scan_fraction (f +:+ e) = Some e.
Proof.
  intros Hf He%exponent_head. destruct Hf as [|d Hd].
  - rewrite append_nil_l. destruct e as [|a e]; [done|]. rewrite head_is_cons in He.
    apply orb_false_elim in He as [_ He]. cbn [scan_fraction]. by rewrite He.
  - rewrite append_assoc, append_cons, append_nil_l. cbn [scan_fraction]. 
    change ((if head_is is_ascii_digit (d +:+ e)
             then Some (skip_while is_ascii_digit (d +:+ e)) else None) = Some e).
    rewrite digits_head by done. rewrite skip_while_append; [done|apply Hd|].
    unfold head_is in *. destruct (first_byte e); [|done]. by apply orb_false_elim in He as [? _].
Qed.

Lemma scan_exponent_complete e : exponent_part e → scan_exponent e = Some EmptyString.
Proof.
  destruct 1 as [|e sign d He Hsign Hd]; [done|].
  pose proof (digits_head d EmptyString Hd) as Hh. rewrite append_nil_r in Hh.
  assert (skip_while is_ascii_digit d = EmptyString) as Hskip.
  { rewrite <- (append_nil_r d). apply skip_while_append; [apply Hd|done]. }
  assert (head_is (λ b, (b =? 43) || (b =? 45)) d = false) as Hsg.
  { unfold head_is in *. destruct (first_byte d); [|done]. unfold is_ascii_digit in Hh.
    apply andb_prop in Hh as [?%Z.leb_le ?%Z.leb_le]. apply orb_false_intro; apply Z.eqb_neq; lia. }
  apply list_elem_of_In in He, Hsign. cbn in He, Hsign.
  destruct He as [<-|[<-|[]]], Hsign as [<-|[<-|[<-|[]]]];
    rewrite ?append_cons, ?append_nil_l; cbn [scan_exponent];
    rewrite ?head_is_cons, ?Hsg;
    change ((if head_is is_ascii_digit d then Some (skip_while is_ascii_digit d) else None) =
            Some EmptyString);
    by rewrite Hh, Hskip.
Qed.

Lemma valid_number_text s : valid_unsigned_number_token s = true ↔ number_text s.
Proof.
  unfold valid_unsigned_number_token. split.
  - destruct (scan_integer s) as [r1|] eqn:H1; [|done]. cbn.
    destruct (scan_fraction r1) as [r2|] eqn:H2; [|done]. cbn.
    destruct (scan_exponent r2) as [[|]|] eqn:H3; [|done..]. intros _.
    apply scan_integer_sound in H1 as (i & -> & ?).
    apply scan_fraction_sound in H2 as (f & -> & ?).
    apply scan_exponent_sound in H3 as (e & -> & ?). exists i, f, e. by rewrite append_nil_r.
  - intros (i & f & e & -> & Hi & Hf & He).
    rewrite scan_integer_complete by auto using fraction_head. cbn.
    rewrite scan_fraction_complete by done. cbn. by rewrite scan_exponent_complete.
Qed.

(** ** Properties *)

(** C17. Comparison across [i64], [u64] and [f64] is comparison of exact
    values: no integer is rounded to a float on the way, so
    [9007199254740993] and [9007199254740992.0] stay distinct, and the
    comparison does not panic. *)
Theorem compare_is_exact a b :
  wf a → wf b → compare a b = Some (scaled a ?= scaled b).
Proof.
  destruct a as [a|a|a], b as [b|b|b]; cbn [wf scaled compare]; intros Ha Hb;
    rewrite ?mul_scale_compare; try f_equal; try done.
  - destruct (Z.ltb_spec a 0); [symmetry; apply Z.compare_lt_iff; lia|done].
  - apply compare_i64_f64_exact; naive_solver.
  - destruct (Z.ltb_spec b 0); [symmetry; apply Z.compare_gt_iff; lia|done].
  - apply compare_u64_f64_exact; naive_solver.
  - rewrite compare_i64_f64_exact by naive_solver. symmetry; apply Z.compare_antisym.
  - rewrite compare_u64_f64_exact by naive_solver. symmetry; apply Z.compare_antisym.
  - rewrite F64.compare_exact by naive_solver. done.
Qed.

Lemma compare_is_exact_witness :
  compare (Signed 9007199254740993) (Decimal (F64.of_Z 9007199254740992)) =
  Some (scaled (Signed 9007199254740993) ?= scaled (Decimal (F64.of_Z 9007199254740992))).
Proof.
  apply (compare_is_exact (Signed 9007199254740993) (Decimal (F64.of_Z 9007199254740992)));
    vm_compute; repeat split; discriminate.
Defined.

Lemma from_i128_spec z e :
  from_i128 z e =
  if (i64_min <=? z) && (z <=? i64_max) then Ok (Signed z)
  else if (i64_max <? z) && (z <=? u64_max) then Ok (Unsigned z) else Err e.
Proof.
  unfold from_i128, is_i64, is_u64, i64_min, i64_max, u64_max.
  repeat match goal with |- context [?a <=? ?b] => destruct (Z.leb_spec a b)
    | |- context [?a <? ?b] => destruct (Z.ltb_spec a b) end; done || lia.
Qed.

(** An integer result is the mathematical one, in normal form. *)
Lemma from_i128_ok z e n :
  from_i128 z e = Ok n → integer_i128 n = Ok z ∧ is_integer n = true ∧ wf n ∧ normal n.
Proof.
  rewrite from_i128_spec. intros H. repeat case_match; simplify_eq; cbn;
    unfold i64_min, i64_max, u64_max in *; split_and!; done || lia.
Qed.

Lemma from_i128_err z e e' :
  from_i128 z e = Err e' → e' = e ∧ (z < i64_min ∨ u64_max < z).
Proof.
  rewrite from_i128_spec. intros H. repeat case_match; simplify_eq; cbn;
    unfold i64_min, i64_max, u64_max in *; split; [done|lia].
Qed.

Lemma checked_i128_some z :
  i64_min ≤ z ≤ u64_max → checked_i128 z = Some z.
Proof.
  unfold checked_i128, i128_min, i128_max, i64_min, u64_max. intros.
  rewrite (proj2 (Z.leb_le _ _)), (proj2 (Z.leb_le _ _)) by lia. done.
Qed.

(** The mathematical operation each integer operator stands for. *)
Inductive integer_op : (Numeric → Numeric → Result Fault Numeric) → (Z → Z → Z) → Prop :=
| op_add : integer_op add Z.add
| op_subtract : integer_op subtract Z.sub
| op_multiply : integer_op multiply Z.mul
| op_remainder : integer_op remainder Z.rem.

(** A result in 64 bits, in normal form, or a refusal out of their range. *)
Definition exact_integer (z : Z) (r : Result Fault Numeric) : Prop :=
  match r with
  | Ok n => integer_i128 n = Ok z ∧ is_integer n = true ∧ wf n ∧ normal n
  | Err e => e ≠ Panicked ∧ (z < i64_min ∨ u64_max < z)
  end.

Lemma from_i128_exact z e : exact_integer z (refused (from_i128 z e)).
Proof.
  destruct (from_i128 z e) eqn:E; cbn; [by eapply from_i128_ok|].
  by apply from_i128_err in E as [_ ?].
Qed.

Lemma checked_exact z e : exact_integer z (refused (value ← ok_or (checked_i128 z) e ; from_i128 value e)).
Proof.
  unfold checked_i128. destruct (Z.leb_spec i128_min z), (Z.leb_spec z i128_max);
    cbn [andb ok_or mbind result_bind]; try apply from_i128_exact;
    (split; [by cbn|]); unfold i128_min, i128_max, i64_min, u64_max in *; lia.
Qed.

(** C18. Integer arithmetic is exact or an error: on integer operands the
    operators return the mathematical result, in range and in normal form,
    or fail with an error that is not a panic, and except for a zero
    remainder divisor they fail only when the result is representable
    neither as [i64] nor as [u64]. *)
Theorem integer_arithmetic_exact f g a b x y :
  integer_op f g → integer_i128 a = Ok x → integer_i128 b = Ok y →
  match f a b with
  | Ok n => integer_i128 n = Ok (g x y) ∧ is_integer n = true ∧ wf n ∧ normal n
  | Err e => e ≠ Panicked ∧ ((f = remainder ∧ y = 0) ∨ g x y < i64_min ∨ u64_max < g x y)
  end.
Proof.
  intros Hop Ha Hb.
  assert (is_integer a = true ∧ is_integer b = true ∧ is_zero b = (y =? 0)) as (Ia & Ib & Hz).
  { destruct a, b; cbn in *; naive_solver. }
  destruct Hop; unfold add, subtract, multiply, remainder, integer_or_decimal;
    rewrite Ia, Ib, Ha, Hb; cbn [andb mbind result_bind].
  - pose proof (checked_exact (x + y) "integer addition overflow"). case_match; naive_solver.
  - pose proof (from_i128_exact (x - y) "integer subtraction overflow"). case_match; naive_solver.
  - pose proof (checked_exact (x * y) "integer multiplication overflow"). case_match; naive_solver.
  - rewrite Hz. destruct (Z.eqb_spec y 0); [by split; [|left]|].
    pose proof (from_i128_exact (Z.rem x y) "integer remainder overflow"). case_match; naive_solver.
Qed.

Lemma integer_arithmetic_exact_witness :
  match multiply (Signed 4294967296) (Signed 4294967295) with
  | Ok n => integer_i128 n = Ok (4294967296 * 4294967295) ∧ is_integer n = true ∧ wf n ∧ normal n
  | Err e => e ≠ Panicked ∧ ((multiply = remainder ∧ 4294967295 = 0) ∨
      4294967296 * 4294967295 < i64_min ∨ u64_max < 4294967296 * 4294967295)
  end.
Proof.
  apply (integer_arithmetic_exact multiply Z.mul (Signed 4294967296) (Signed 4294967295));
    [constructor|reflexivity|reflexivity].
Defined.

(** ** No operation panics *)

Definition panic_free {A} (r : Result Fault A) : Prop := r ≠ Err Panicked.

Lemma panic_free_refused {A} (r : Result string A) : panic_free (refused r).
Proof. by destruct r. Qed.

(** The operators look at the operands before they call [integer_i128]. *)
Lemma operators_panic_free a b :
  panic_free (add a b) ∧ panic_free (subtract a b) ∧ panic_free (multiply a b) ∧
  panic_free (divide a b) ∧ panic_free (remainder a b) ∧ panic_free (positive a) ∧ panic_free (negate a).
Proof.
  unfold add, subtract, multiply, divide, remainder, positive, negate, integer_or_decimal.
  destruct a, b; cbn [is_integer andb integer_i128 mbind result_bind];
    split_and!; try case_match; done || apply panic_free_refused.
Qed.

Lemma parse_string_panic_free s : panic_free (parse_string s).
Proof.
  unfold parse_string. destruct (is_empty s || _); [done|].
  match goal with |- panic_free (let '(_, _) := ?p in _) => destruct p as [negative unsigned] end.
  destruct (is_empty unsigned || _); [done|].
  destruct (parse_unsigned_token _) as [n|]; [|done]. cbn [refused map_err mbind result_bind].
  destruct negative; [|done]. by apply (operators_panic_free n n).
Qed.

(** Decimals are finite. *)
Definition finite (n : Numeric) : Prop :=
  match n with Decimal f => F64.is_finite f = true | _ => True end.

Lemma compare_finite a b : finite a → finite b → is_Some (compare a b).
Proof.
  destruct a as [a|a|a], b as [b|b|b]; cbn [compare finite]; try (by eauto).
  destruct a, b; try done; cbn [SFcompare]; intros _ _; repeat case_match; eauto.
Qed.

(** The JSON encoding of a number round-trips: a normal number written
    to JSON is read back as itself. *)
Theorem json_roundtrip n :
  wf n → normal n →
  ∃ number, to_json n = Ok (VNumber number) ∧ Number.wf number ∧ from_json number = Ok n.
Proof.
  destruct n as [z|n|f]; cbn [wf normal]; intros Hw Hn.
  - exists (Number.from_i64 z). split; [done|].
    unfold Number.from_i64, from_json, Number.wf.
    destruct (Z.ltb_spec z 0); cbn.
    + split; [lia|done].
    + rewrite (proj2 (Z.leb_le _ _)) by lia. unfold i64_max, u64_max in *. split; [lia|done].
  - exists (PosInt n). split; [done|]. unfold from_json; cbn.
    rewrite (proj2 (Z.leb_gt _ _)) by lia. split; [lia|done].
  - destruct Hw as [Hf Hv]. exists (Float f). unfold to_json. rewrite Hn.
    unfold Number.from_f64. rewrite Hf. split; [done|]. split; [done|].
    unfold from_json; cbn. unfold finite_decimal. by rewrite Hf, Hn.
Qed.

Lemma json_roundtrip_witness :
  ∃ number, to_json (Unsigned 18446744073709551615) = Ok (VNumber number) ∧
    Number.wf number ∧ from_json number = Ok (Unsigned 18446744073709551615).
Proof. apply (json_roundtrip (Unsigned 18446744073709551615)); vm_compute; repeat split; discriminate. Defined.

End Numeric.
