(* ===== verification/ExprSyntax.v ===== *)
(** * Syntax of the expression language

    [expression/error.rs], [limits.rs], [token.rs] and [ast.rs]: source
    spans and diagnostics, resource limits, tokens and the abstract syntax
    tree. *)

From S2P Require Import Prelude Float64 Json Numeric.

(** ** Errors *)

(** [SourceSpan]: a half-open byte range. *)
Record SourceSpan := Span { span_start : Z; span_end : Z }.

Definition span_at (offset : Z) : SourceSpan := Span offset offset.
Definition span_join (self other : SourceSpan) : SourceSpan :=
  Span (span_start self) (span_end other).

Inductive ErrorPhase := Scan | Lex | Parse | Evaluate | Limit.

Record ExpressionError := MkError {
  err_phase : ErrorPhase;
  err_field : option string;
  err_source : string;
  err_span : SourceSpan;
  err_message : string;
  err_correction : option string;
}.

(** [ExpressionError::new] and [ExpressionError::correction]. *)
Definition error_new (phase : ErrorPhase) (field : option string) (source : string)
    (span : SourceSpan) (message : string) : ExpressionError :=
  MkError phase field source span message None.

Definition with_correction (e : ExpressionError) (correction : string) : ExpressionError :=
  MkError (err_phase e) (err_field e) (err_source e) (err_span e) (err_message e)
    (Some correction).

(** The bytes after the last line feed, if there is one ([rsplit_once]). *)
Fixpoint after_last_newline (s : string) : option string :=
  match s with
  | EmptyString => None
  | String a r =>
      match after_last_newline r with
      | Some tail => Some tail
      | None => if byte_of a =? 10 then Some r else None
      end
  end.

Fixpoint count_newlines (s : string) : Z :=
  match s with
  | EmptyString => 0
  | String a r => (if byte_of a =? 10 then 1 else 0) + count_newlines r
  end.

Definition char_count (s : string) : Z := Z.of_nat (length (chars s)).

(** [ExpressionError::line_column]. *)
Definition line_column (e : ExpressionError) : Z * Z :=
  let offset := Z.min (span_start (err_span e)) (len (err_source e)) in
  let prefix := take_bytes (Z.to_nat offset) (err_source e) in
  let line := count_newlines prefix + 1 in
  let column :=
    match after_last_newline prefix with
    | None => char_count prefix + 1
    | Some tail => char_count tail + 1
    end in
  (line, column).

(** [str::is_char_boundary]: not inside an encoded scalar. *)
Definition is_char_boundary (s : string) (offset : Z) : bool :=
  match drop_bytes (Z.to_nat offset) s with
  | EmptyString => offset =? len s
  | String a _ => negb ((128 <=? byte_of a) && (byte_of a <? 192))
  end.

(** The loop that moves an offset back to a character boundary. *)
Fixpoint floor_char_boundary (fuel : nat) (s : string) (offset : Z) : Z :=
  if is_char_boundary s offset then offset
  else match fuel with
       | O => offset
       | S fuel => floor_char_boundary fuel s (offset - 1)
       end.

Definition MAX_CHARS : Z := 160.
Definition ellipsis : Z := 8230.

(** [ExpressionError::source_excerpt]. *)
Definition source_excerpt (e : ExpressionError) : option string :=
  let source := err_source e in
  if is_empty source then None
  else
    let offset0 := Z.min (span_start (err_span e)) (len source) in
    let offset := floor_char_boundary (Z.to_nat offset0) source offset0 in
    let before := take_bytes (Z.to_nat offset) source in
    let line_start :=
      match after_last_newline before with
      | Some tail => offset - len tail
      | None => 0
      end in
    let after := take_while (λ b, negb (b =? 10)) (drop_bytes (Z.to_nat offset) source) in
    let line_end := offset + len after in
    let line :=
      take_bytes (Z.to_nat (line_end - line_start)) (drop_bytes (Z.to_nat line_start) source) in
    let total := char_count line in
    if total <=? MAX_CHARS then Some line
    else
      let error_column :=
        char_count (take_bytes (Z.to_nat (offset - line_start))
                      (drop_bytes (Z.to_nat line_start) source)) in
      let window_start :=
        Z.min (saturating_sub error_column (MAX_CHARS / 2)) (total - MAX_CHARS) in
      let window :=
        take (Z.to_nat MAX_CHARS) (drop (Z.to_nat window_start) (chars line)) in
      Some (str_of_chars
        ((if 0 <? window_start then [ellipsis] else []) ++ window ++
         (if window_start + MAX_CHARS <? total then [ellipsis] else []))).

(** ** Failures

    What a computation of the model can end with besides a value: an
    error the code reports, a panic (an index out of bounds or an
    [unreachable!] that is reached), or a fuel too small for the input. *)
Inductive Failure :=
| Reported (e : ExpressionError)
| Panic
| OutOfFuel.

Abbreviation Compiled := (Result Failure).

Definition reported {A} (r : Result ExpressionError A) : Compiled A := map_err Reported r.

(** Neither a panic nor an exhausted fuel of the model. *)
Definition clean {A} (r : Compiled A) : Prop := ∀ f, r = Err f → ∃ e, f = Reported e.

Lemma clean_ok {A} (a : A) : clean (Ok a).
Proof. done. Qed.
Lemma clean_reported {A} e : clean (Err (Reported e) : Compiled A).
Proof. intros f [= <-]. by eexists. Qed.
Lemma clean_bind {A B} (r : Compiled A) (f : A → Compiled B) :
  clean r → (∀ a, r = Ok a → clean (f a)) → clean (r ≫= f).
Proof. intros Hr Hf. destruct r as [a|e]; [by apply Hf|]. intros f' [= <-]. by apply Hr. Qed.
Lemma clean_fmap {A B} (f : A → B) (r : Compiled A) : clean r → clean (f <$> r).
Proof. intros Hr. destruct r as [a|e]; [done|]. intros f' [= <-]. by apply Hr. Qed.
Lemma clean_map_err {A E} (f : E → ExpressionError) (r : Result E A) : clean (map_err (λ e, Reported (f e)) r).
Proof. destruct r; [done|]. apply clean_reported. Qed.
Lemma clean_ok_or {A} (o : option A) e : clean (ok_or o (Reported e)).
Proof. destruct o; [done|]. apply clean_reported. Qed.

(** ** Limits *)

Record CompilationLimits := {
  max_source_bytes : Z;
  max_template_bytes : Z;
  max_expressions_per_template : Z;
  max_tokens : Z;
  max_ast_depth : Z;
  max_literal_elements : Z;
  max_function_arguments : Z;
}.

Definition CompilationLimits_default : CompilationLimits := {|
  max_source_bytes := 64 * 1024;
  max_template_bytes := 256 * 1024;
  max_expressions_per_template := 256;
  max_tokens := 8 * 1024;
  max_ast_depth := 128;
  max_literal_elements := 4 * 1024;
  max_function_arguments := 64;
|}.

Record EvaluationLimits := {
  fuel : Z;
  max_traversal_depth : Z;
  max_container_elements : Z;
  max_scalar_bytes : Z;
  max_regex_pattern_bytes : Z;
  max_regex_haystack_bytes : Z;
  max_from_json_bytes : Z;
  max_result_depth : Z;
  max_result_nodes : Z;
  max_result_bytes : Z;
  max_produced_string_bytes : Z;
  max_allocation_bytes : Z;
}.

Definition EvaluationLimits_default : EvaluationLimits := {|
  fuel := 200000;
  max_traversal_depth := 128;
  max_container_elements := 100000;
  max_scalar_bytes := 1024 * 1024;
  max_regex_pattern_bytes := 16 * 1024;
  max_regex_haystack_bytes := 1024 * 1024;
  max_from_json_bytes := 1024 * 1024;
  max_result_depth := 128;
  max_result_nodes := 100000;
  max_result_bytes := 4 * 1024 * 1024;
  max_produced_string_bytes := 4 * 1024 * 1024;
  max_allocation_bytes := 8 * 1024 * 1024;
|}.

(** ** Tokens *)

Inductive TokenKind :=
| TNull | TTrue | TFalse | TIn
| TIdentifier (name : string)
| TNumber (text : string)
| TString (value : string)
| TLeftParen | TRightParen | TLeftBracket | TRightBracket | TLeftBrace | TRightBrace
| TComma | TColon | TDot | TQuestion | TCoalesce | TOr | TAnd
| TEqual | TNotEqual | TLess | TLessEqual | TGreater | TGreaterEqual
| TPlus | TMinus | TStar | TSlash | TPercent | TBang | TEof.

#[export] Instance TokenKind_eq_dec : EqDecision TokenKind.
Proof. solve_decision. Defined.

Record Token := MkToken { tok_kind : TokenKind; tok_span : SourceSpan }.

(** [TokenKind::description]. *)
Definition description (k : TokenKind) : string :=
  match k with
  | TNull => "null"
  | TTrue => "true"
  | TFalse => "false"
  | TIn => "in"
  | TIdentifier _ => "identifier"
  | TNumber _ => "number"
  | TString _ => "string"
  | TLeftParen => "`(`"
  | TRightParen => "`)`"
  | TLeftBracket => "`[`"
  | TRightBracket => "`]`"
  | TLeftBrace => "`{`"
  | TRightBrace => "`}`"
  | TComma => "`,`"
  | TColon => "`:`"
  | TDot => "`.`"
  | TQuestion => "`?`"
  | TCoalesce => "`??`"
  | TOr => "`||`"
  | TAnd => "`&&`"
  | TEqual => "`==`"
  | TNotEqual => "`!=`"
  | TLess => "`<`"
  | TLessEqual => "`<=`"
  | TGreater => "`>`"
  | TGreaterEqual => "`>=`"
  | TPlus => "`+`"
  | TMinus => "`-`"
  | TStar => "`*`"
  | TSlash => "`/`"
  | TPercent => "`%`"
  | TBang => "`!`"
  | TEof => "end of expression"
  end.

(** ** Abstract syntax *)

Inductive Literal :=
| LNull
| LBool (b : bool)
| LString (s : string)
| LNumber (n : Numeric).

Inductive UnaryOperator := Not | Plus | Minus.
#[export] Instance UnaryOperator_eq_dec : EqDecision UnaryOperator.
Proof. solve_decision. Defined.

Inductive BinaryOperator :=
| Add | Subtract | Multiply | Divide | Remainder
| Equal | NotEqual | Less | LessEqual | Greater | GreaterEqual
| In | And | Or | Coalesce.
#[export] Instance BinaryOperator_eq_dec : EqDecision BinaryOperator.
Proof. solve_decision. Defined.

Inductive BuiltinFunction :=
| FLength | FContains | FKeys | FUpper | FLower | FJson | FFromJson | FType
| FExists | FMatches | FString | FNumber.
#[export] Instance BuiltinFunction_eq_dec : EqDecision BuiltinFunction.
Proof. solve_decision. Defined.

(** [BuiltinFunction::from_name], [name] and [arity]. *)
Definition from_name (name : string) : option BuiltinFunction :=
  if decide (name = "length") then Some FLength
  else if decide (name = "contains") then Some FContains
  else if decide (name = "keys") then Some FKeys
  else if decide (name = "upper") then Some FUpper
  else if decide (name = "lower") then Some FLower
  else if decide (name = "json") then Some FJson
  else if decide (name = "from_json") then Some FFromJson
  else if decide (name = "type") then Some FType
  else if decide (name = "exists") then Some FExists
  else if decide (name = "matches") then Some FMatches
  else if decide (name = "string") then Some FString
  else if decide (name = "number") then Some FNumber
  else None.

Definition function_name (f : BuiltinFunction) : string :=
  match f with
  | FLength => "length"
  | FContains => "contains"
  | FKeys => "keys"
  | FUpper => "upper"
  | FLower => "lower"
  | FJson => "json"
  | FFromJson => "from_json"
  | FType => "type"
  | FExists => "exists"
  | FMatches => "matches"
  | FString => "string"
  | FNumber => "number"
  end.

Definition arity (f : BuiltinFunction) : Z :=
  match f with FContains | FMatches => 2 | _ => 1 end.

(** [struct Expr] and [enum ExprKind], one mutual declaration. *)
#[local] Unset Elimination Schemes.
Inductive Expr :=
| MkExpr (kind : ExprKind) (span : SourceSpan)
with ExprKind :=
| KLiteral (l : Literal)
| KVariable (name : string)
| KMember (target : Expr) (key : string)
| KIndex (target index : Expr)
| KArray (elements : list Expr)
| KObject (entries : list (string * Expr))
| KUnary (operator : UnaryOperator) (operand : Expr)
| KBinary (operator : BinaryOperator) (lhs rhs : Expr)
| KConditional (condition then_branch else_branch : Expr)
| KCall (function : BuiltinFunction) (arguments : list Expr)
| KGroup (inner : Expr).
#[local] Set Elimination Schemes.

Definition expr_kind (e : Expr) : ExprKind := let 'MkExpr kind _ := e in kind.
Definition expr_span (e : Expr) : SourceSpan := let 'MkExpr _ span := e in span.

(** Induction over expressions, with a hypothesis for every child. *)
Definition Expr_ind (P : Expr → Prop)
    (HLiteral : ∀ l s, P (MkExpr (KLiteral l) s))
    (HVariable : ∀ n s, P (MkExpr (KVariable n) s))
    (HMember : ∀ t k s, P t → P (MkExpr (KMember t k) s))
    (HIndex : ∀ t i s, P t → P i → P (MkExpr (KIndex t i) s))
    (HArray : ∀ es s, Forall P es → P (MkExpr (KArray es) s))
    (HObject : ∀ es s, Forall (λ ke, P ke.2) es → P (MkExpr (KObject es) s))
    (HUnary : ∀ o e s, P e → P (MkExpr (KUnary o e) s))
    (HBinary : ∀ o l r s, P l → P r → P (MkExpr (KBinary o l r) s))
    (HConditional : ∀ c t e s, P c → P t → P e → P (MkExpr (KConditional c t e) s))
    (HCall : ∀ f es s, Forall P es → P (MkExpr (KCall f es) s))
    (HGroup : ∀ e s, P e → P (MkExpr (KGroup e) s)) :
  ∀ e, P e :=
  fix go e :=
    let all := fix all l : Forall P l :=
      match l with
      | [] => Forall_nil_2 P
      | x :: l => Forall_cons_2 P x l (go x) (all l)
      end in
    let all_entries := fix all l : Forall (λ ke, P ke.2) l :=
      match l with
      | [] => Forall_nil_2 (λ ke, P ke.2)
      | ke :: l => Forall_cons_2 (λ ke, P ke.2) ke l (go ke.2) (all l)
      end in
    match e with
    | MkExpr (KLiteral l) s => HLiteral l s
    | MkExpr (KVariable n) s => HVariable n s
    | MkExpr (KMember t k) s => HMember t k s (go t)
    | MkExpr (KIndex t i) s => HIndex t i s (go t) (go i)
    | MkExpr (KArray es) s => HArray es s (all es)
    | MkExpr (KObject es) s => HObject es s (all_entries es)
    | MkExpr (KUnary o e) s => HUnary o e s (go e)
    | MkExpr (KBinary o l r) s => HBinary o l r s (go l) (go r)
    | MkExpr (KConditional c t e) s => HConditional c t e s (go c) (go t) (go e)
    | MkExpr (KCall f es) s => HCall f es s (all es)
    | MkExpr (KGroup e) s => HGroup e s (go e)
    end.

Lemma from_name_function_name f : from_name (function_name f) = Some f.
Proof. by destruct f. Qed.
