(* ===== verification/Lexer.v ===== *)
(** * The lexer

    [expression/lexer.rs].  The scanner's [cursor] into [source] is kept
    together with the suffix of the source it points at ([Cursor]); the
    two loops carry a fuel that the theorems below show is never
    exhausted. *)

From S2P Require Import Prelude Float64 Json Numeric ExprSyntax.

(** [self.cursor] and [source[self.cursor..]]. *)
Record Cursor := At { pos : Z; rest : string }.

(** [self.cursor += n] for [n] bytes of the source. *)
Definition skip (n : nat) (c : Cursor) : Cursor :=
  At (pos c + len (take_bytes n (rest c))) (drop_bytes n (rest c)).

(** [self.source.len()]. *)
Definition source_len (c : Cursor) : Z := pos c + len (rest c).

(** The parts of [Lexer] that do not change. *)
Record LexerEnv := { lex_source : string; lex_field : option string; lex_limits : CompilationLimits }.

Section lexer.
Context (env : LexerEnv).

Definition lex_error (phase : ErrorPhase) (span : SourceSpan) (message : string) : Failure :=
  Reported (error_new phase (lex_field env) (lex_source env) span message).
Definition lex_error_with (phase : ErrorPhase) (span : SourceSpan) (message correction : string)
    : Failure :=
  Reported (with_correction
    (error_new phase (lex_field env) (lex_source env) span message) correction).

Definition is_identifier_start (b : Z) : bool := is_ascii_alphabetic b || (b =? 95).
Definition is_identifier_byte (b : Z) : bool := is_ascii_alphanumeric b || (b =? 95).

(** [&source[start..cursor]] for two positions of the same scan. *)
Definition slice (start c : Cursor) : string :=
  take_bytes (Z.to_nat (pos c - pos start)) (rest start).

Definition advance_while (p : Z → bool) (c : Cursor) : Cursor :=
  At (pos c + len (take_while p (rest c))) (skip_while p (rest c)).

(** [Lexer::identifier]. *)
Definition identifier (c : Cursor) : TokenKind * Cursor :=
  let c' := advance_while is_identifier_byte (skip 1 c) in
  let value := slice c c' in
  (if decide (value = "null") then TNull
   else if decide (value = "true") then TTrue
   else if decide (value = "false") then TFalse
   else if decide (value = "in") then TIn
   else TIdentifier value, c').

(** [Lexer::take_digits]. *)
Definition take_digits (c : Cursor) : Cursor := advance_while is_ascii_digit c.

(** [Lexer::number]. *)
Definition number (c : Cursor) : Compiled (TokenKind * Cursor) :=
  integer ←
    (if head_is (λ b, b =? 48) (rest c) then
       let c1 := skip 1 c in
       if head_is is_ascii_digit (rest c1) then
         Err (lex_error Lex (Span (pos c) (pos c1 + 1))
                "numeric literals cannot contain leading zeroes")
       else Ok c1
     else Ok (take_digits c)) ;
  fraction ←
    (if head_is (λ b, b =? 46) (rest integer) then
       let start := skip 1 integer in
       let c1 := take_digits start in
       if pos start =? pos c1 then
         Err (lex_error Lex (Span (pos c) (pos c1))
                "a decimal point must be followed by a digit")
       else Ok c1
     else Ok integer) ;
  exponent ←
    (if head_is (λ b, (b =? 101) || (b =? 69)) (rest fraction) then
       let c1 := skip 1 fraction in
       let start := if head_is (λ b, (b =? 43) || (b =? 45)) (rest c1) then skip 1 c1 else c1 in
       let c2 := take_digits start in
       if pos start =? pos c2 then
         Err (lex_error Lex (Span (pos c) (pos c2))
                "an exponent must contain at least one digit")
       else Ok c2
     else Ok fraction) ;
  Ok (TNumber (slice c exponent), exponent).

(** ** String literals *)

Definition hex_digit (b : Z) : Z :=
  if is_ascii_digit b then b - 48 else if b <? 97 then b - 55 else b - 87.
Fixpoint hex_value_from (acc : Z) (s : string) : Z :=
  match s with
  | EmptyString => acc
  | String a r => hex_value_from (16 * acc + hex_digit (byte_of a)) r
  end.

(** Whether a scalar starts here ([str::get] refuses other positions). *)
Definition starts_char (s : string) : bool :=
  negb (head_is (λ b, (128 <=? b) && (b <? 192)) s).

(** [Lexer::read_hex_escape]. *)
Definition read_hex_escape (escape_start : Z) (c : Cursor) : Compiled (Z * Cursor) :=
  let c' := skip 4 c in
  if (len (rest c) <? 4) || negb (starts_char (rest c)) || negb (starts_char (rest c')) then
    Err (lex_error Lex (Span escape_start (source_len c))
           "Unicode escape must contain four hexadecimal digits")
  else
    let hex := take_bytes 4 (rest c) in
    if negb (all_bytes is_ascii_hexdigit hex) then
      Err (lex_error Lex (Span escape_start (pos c'))
             "Unicode escape must contain four hexadecimal digits")
    else Ok (hex_value_from 0 hex, c').

Definition in_range (lo hi z : Z) : bool := (lo <=? z) && (z <=? hi).

(** The [b'u'] arm of [decode_escape]. *)
Definition unicode_escape (escape_start : Z) (c : Cursor) : Compiled (Z * Cursor) :=
  '(first, c) ← read_hex_escape escape_start c ;
  '(scalar, c) ←
    (if in_range 55296 56319 first then
       if bool_decide (take_bytes 2 (rest c) = backslash +:+ "u") then
         '(second, c) ← read_hex_escape escape_start (skip 2 c) ;
         if in_range 56320 57343 second then
           Ok (65536 + Z.shiftl (first - 55296) 10 + (second - 56320), c)
         else Err (lex_error Lex (Span escape_start (pos c)) "invalid Unicode surrogate pair")
       else Err (lex_error Lex (Span escape_start (pos c))
                   "high Unicode surrogate must be followed by a low surrogate")
     else if in_range 56320 57343 first then
       Err (lex_error Lex (Span escape_start (pos c)) "unpaired low Unicode surrogate")
     else Ok (first, c)) ;
  match char_from_u32 scalar with
  | Some scalar => Ok (scalar, c)
  | None => Err (lex_error Lex (Span escape_start (pos c)) "invalid Unicode scalar value")
  end.

(** [Lexer::decode_escape]: the decoded text and the position after it. *)
Definition decode_escape (quote string_start : Z) (c : Cursor) : Compiled (string * Cursor) :=
  let escape_start := saturating_sub (pos c) 1 in
  match first_byte (rest c) with
  | None =>
      Err (lex_error Lex (Span string_start (source_len c)) "unterminated string escape")
  | Some escaped =>
      let c := skip 1 c in
      if escaped =? 34 then Ok (dquote, c)
      else if (escaped =? 39) && (quote =? 39) then Ok ("'"%string, c)
      else if escaped =? 92 then Ok (backslash, c)
      else if escaped =? 47 then Ok ("/"%string, c)
      else if escaped =? 98 then Ok (encode_utf8 8, c)
      else if escaped =? 102 then Ok (encode_utf8 12, c)
      else if escaped =? 110 then Ok (encode_utf8 10, c)
      else if escaped =? 114 then Ok (encode_utf8 13, c)
      else if escaped =? 116 then Ok (encode_utf8 9, c)
      else if escaped =? 117 then
        '(scalar, c) ← unicode_escape escape_start c ; Ok (encode_utf8 scalar, c)
      else
        Err (lex_error Lex (Span escape_start (pos c))
               ("unknown string escape `" +:+ backslash +:+ encode_utf8 escaped +:+ "`"))
  end.

(** The loop of [Lexer::string] after the opening quote. *)
Fixpoint string_loop (fuel : nat) (quote start : Z) (output : string) (c : Cursor)
    : Compiled (TokenKind * Cursor) :=
  match first_byte (rest c) with
  | None => Err (lex_error Lex (Span start (source_len c)) "unterminated string literal")
  | Some byte =>
      match fuel with
      | O => Err OutOfFuel
      | S fuel =>
          if byte =? quote then Ok (TString output, skip 1 c)
          else if byte =? 92 then
            '(text, c) ← decode_escape quote start (skip 1 c) ;
            string_loop fuel quote start (output +:+ text) c
          else if byte <? 32 then
            Err (lex_error Lex (Span (pos c) (pos c + 1))
                   "unescaped control character in string literal")
          else
            let width := utf8_width byte in
            string_loop fuel quote start (output +:+ take_bytes width (rest c)) (skip width c)
      end
  end.

(** [Lexer::string]. *)
Definition string_literal (quote : Z) (c : Cursor) : Compiled (TokenKind * Cursor) :=
  string_loop (String.length (rest c)) quote (pos c) EmptyString (skip 1 c).

(** ** The main loop *)

Definition next_is (b : Z) (c : Cursor) : bool := head_is (λ b', b' =? b) (drop_bytes 1 (rest c)).

(** The [match byte] of [Lexer::run]. *)
Definition scan_token (byte : Z) (c : Cursor) : Compiled (TokenKind * Cursor) :=
  let one kind := Ok (kind, skip 1 c) in
  let two kind := Ok (kind, skip 2 c) in
  if is_identifier_start byte then Ok (identifier c)
  else if is_ascii_digit byte then number c
  else if (byte =? 39) || (byte =? 34) then string_literal byte c
  else if byte =? 40 then one TLeftParen
  else if byte =? 41 then one TRightParen
  else if byte =? 91 then one TLeftBracket
  else if byte =? 93 then one TRightBracket
  else if byte =? 123 then one TLeftBrace
  else if byte =? 125 then one TRightBrace
  else if byte =? 44 then one TComma
  else if byte =? 58 then one TColon
  else if byte =? 46 then one TDot
  else if byte =? 43 then one TPlus
  else if byte =? 45 then one TMinus
  else if byte =? 42 then one TStar
  else if byte =? 47 then one TSlash
  else if byte =? 37 then one TPercent
  else if byte =? 63 then if next_is 63 c then two TCoalesce else one TQuestion
  else if byte =? 124 then
    if next_is 124 c then two TOr
    else Err (lex_error_with Lex (Span (pos c) (pos c + 1))
                "pipe-filter syntax was removed in rye-expr/1"
                "call the filter as a function, for example `length(value)`; use `??` for fallback")
  else if (byte =? 38) && next_is 38 c then two TAnd
  else if (byte =? 61) && next_is 61 c then two TEqual
  else if byte =? 33 then if next_is 61 c then two TNotEqual else one TBang
  else if byte =? 60 then if next_is 61 c then two TLessEqual else one TLess
  else if byte =? 62 then if next_is 61 c then two TGreaterEqual else one TGreater
  else
    let width := utf8_width byte in
    Err (lex_error Lex (Span (pos c) (pos c + Z.of_nat width))
           ("unexpected character `" +:+ take_bytes width (rest c) +:+ "`")).

(** [Lexer::push]. *)
Definition push (tokens : list Token) (kind : TokenKind) (span : SourceSpan)
    : Compiled (list Token) :=
  if max_tokens (lex_limits env) <=? Z.of_nat (length tokens) then
    Err (lex_error Limit span
           ("expression exceeds token limit of " +:+ pretty (max_tokens (lex_limits env))))
  else Ok (tokens ++ [MkToken kind span]).

(** [Lexer::run]. *)
Fixpoint run (fuel : nat) (tokens : list Token) (c : Cursor) : Compiled (list Token) :=
  match first_byte (rest c) with
  | None => push tokens TEof (span_at (pos c))
  | Some byte =>
      match fuel with
      | O => Err OutOfFuel
      | S fuel =>
          if is_ascii_whitespace byte then run fuel tokens (skip 1 c)
          else
            '(kind, c') ← scan_token byte c ;
            tokens ← push tokens kind (Span (pos c) (pos c')) ;
            run fuel tokens c'
      end
  end.

End lexer.

(** [lexer::lex]. *)
Definition lex (source : string) (field : option string) (limits : CompilationLimits)
    : Compiled (list Token) :=
  let env := {| lex_source := source; lex_field := field; lex_limits := limits |} in
  if max_source_bytes limits <? len source then
    Err (lex_error env Limit (Span 0 (len source))
           ("expression source is " +:+ pretty (len source) +:+ " bytes; limit is " +:+
            pretty (max_source_bytes limits)))
  else run env (String.length source) [] (At 0 source).

(** ** What a token's text is *)

(** The fixed spellings. *)
Definition spelling (k : TokenKind) : option string :=
  match k with
  | TNull => Some "null" | TTrue => Some "true" | TFalse => Some "false" | TIn => Some "in"
  | TLeftParen => Some "(" | TRightParen => Some ")"
  | TLeftBracket => Some "[" | TRightBracket => Some "]"
  | TLeftBrace => Some "{" | TRightBrace => Some "}"
  | TComma => Some "," | TColon => Some ":" | TDot => Some "." | TQuestion => Some "?"
  | TCoalesce => Some "??" | TOr => Some "||" | TAnd => Some "&&"
  | TEqual => Some "==" | TNotEqual => Some "!=" | TLess => Some "<" | TLessEqual => Some "<="
  | TGreater => Some ">" | TGreaterEqual => Some ">="
  | TPlus => Some "+" | TMinus => Some "-" | TStar => Some "*" | TSlash => Some "/"
  | TPercent => Some "%" | TBang => Some "!"
  | TIdentifier _ | TNumber _ | TString _ | TEof => None
  end%string.

Definition keywords : list string := ["null"; "true"; "false"; "in"]%string.

Definition identifier_text (s : string) : Prop :=
  ∃ a r, s = String a r ∧ is_identifier_start (byte_of a) = true ∧
    all_bytes is_identifier_byte r = true.

(** Four hexadecimal digits and their value. *)
Definition hex4 (s : string) (z : Z) : Prop :=
  String.length s = 4%nat ∧ all_bytes is_ascii_hexdigit s = true ∧ z = hex_value_from 0 s.

(** The text of an escape after its backslash, and what it stands for. *)
Inductive escape (quote : Z) : string → string → Prop :=
| escape_quote : escape quote dquote dquote
| escape_apostrophe : quote = 39 → escape quote "'" "'"
| escape_backslash : escape quote backslash backslash
| escape_slash : escape quote "/" "/"
| escape_b : escape quote "b" (encode_utf8 8)
| escape_f : escape quote "f" (encode_utf8 12)
| escape_n : escape quote "n" (encode_utf8 10)
| escape_r : escape quote "r" (encode_utf8 13)
| escape_t : escape quote "t" (encode_utf8 9)
| escape_scalar h z :
    hex4 h z → ¬ (55296 ≤ z ≤ 57343) → escape quote ("u" +:+ h) (encode_utf8 z)
| escape_pair h1 z1 h2 z2 :
    hex4 h1 z1 → hex4 h2 z2 → 55296 ≤ z1 ≤ 56319 → 56320 ≤ z2 ≤ 57343 →
    escape quote ("u" +:+ h1 +:+ backslash +:+ "u" +:+ h2)
      (encode_utf8 (65536 + (z1 - 55296) * 1024 + (z2 - 56320))).

(** The text between the quotes of a string literal, and its value. *)
Inductive string_body (quote : Z) : string → string → Prop :=
| body_end : string_body quote EmptyString EmptyString
| body_escape raw out text value :
    escape quote raw out → string_body quote text value →
    string_body quote (backslash +:+ raw +:+ text) (out +:+ value)
| body_char a r text value :
    byte_of a ≠ quote → byte_of a ≠ 92 → 32 ≤ byte_of a →
    String.length (String a r) = utf8_width (byte_of a) →
    string_body quote text value →
    string_body quote (String a r +:+ text) (String a r +:+ value).

(** [spells k text]: the token [k] is written [text]. *)
Inductive spells : TokenKind → string → Prop :=
| spells_fixed k text : spelling k = Some text → spells k text
| spells_identifier name : identifier_text name → name ∉ keywords → spells (TIdentifier name) name
| spells_number text : Numeric.number_text text → spells (TNumber text) text
| spells_string q body value :
    q = 34 ∨ q = 39 → string_body q body value →
    spells (TString value)
      (String (ascii_of_Z q) EmptyString +:+ body +:+ String (ascii_of_Z q) EmptyString).

Definition is_exponent_byte (b : Z) : bool := (b =? 101) || (b =? 69).

(** No longer text is a number: a digit would continue every number, a
    point one that has neither fraction nor exponent, and [e] or [E] one
    that has no exponent. *)
Definition number_ends (text next : string) : Prop :=
  head_is is_ascii_digit next = false ∧
  (all_bytes (λ b, negb (Numeric.is_decimal_byte b)) text = true → head_is (λ b, b =? 46) next = false) ∧
  (all_bytes (λ b, negb (is_exponent_byte b)) text = true → head_is is_exponent_byte next = false).

(** The token [k] could not have been continued by what follows it. *)
Definition maximal (k : TokenKind) (next : string) : Prop :=
  match k with
  | TIdentifier _ | TNull | TTrue | TFalse | TIn => head_is is_identifier_byte next = false
  | TNumber text => number_ends text next
  | TQuestion => head_is (λ b, b =? 63) next = false
  | TBang | TLess | TGreater => head_is (λ b, b =? 61) next = false
  | _ => True
  end.

(** The tokens of a text starting at an offset: whitespace separates, each
    token covers exactly its text, and the end is marked. *)
Inductive tokens_of : Z → string → list Token → Prop :=
| tokens_end p : tokens_of p EmptyString [MkToken TEof (span_at p)]
| tokens_space p a s ts :
    is_ascii_whitespace (byte_of a) = true → tokens_of (p + 1) s ts →
    tokens_of p (String a s) ts
| tokens_token p k text s ts :
    spells k text → maximal k s → text ≠ EmptyString →
    tokens_of (p + len text) s ts →
    tokens_of p (text +:+ s) (MkToken k (Span p (p + len text)) :: ts).

(** ** Moving the cursor *)

(** [c'] is [c] after reading [text]. *)
Definition reads (c : Cursor) (text : string) (c' : Cursor) : Prop :=
  rest c = text +:+ rest c' ∧ pos c' = pos c + len text.

Lemma reads_refl c : reads c EmptyString c.
Proof. split; [done|]. unfold len; cbn; lia. Qed.
Lemma reads_trans c t c' t' c'' : reads c t c' → reads c' t' c'' → reads c (t +:+ t') c''.
Proof.
  intros [H1 H2] [H3 H4]. split; [by rewrite H1, H3, append_assoc|].
  rewrite H4, H2, len_append. lia.
Qed.
Lemma reads_skip n c : reads c (take_bytes n (rest c)) (skip n c).
Proof. split; cbn; [by rewrite take_drop_bytes|done]. Qed.
Lemma reads_while p c : reads c (take_while p (rest c)) (advance_while p c).
Proof. split; cbn; [by rewrite take_skip_while|done]. Qed.
Lemma reads_slice c t c' : reads c t c' → slice c c' = t.
Proof.
  intros [Hr Hp]. unfold slice. rewrite Hr, Hp. replace (pos c + len t - pos c) with (len t) by lia.
  unfold len. rewrite Nat2Z.id. apply take_bytes_append.
Qed.
Lemma reads_source_len c t c' : reads c t c' → source_len c' = source_len c.
Proof. intros [Hr Hp]. unfold source_len. rewrite Hr, Hp, len_append. lia. Qed.
Lemma reads_skip_1 c a s : rest c = String a s → reads c (String a EmptyString) (skip 1 c).
Proof. intros H. pose proof (reads_skip 1 c) as Hs. rewrite H in Hs. cbn in Hs. by destruct s. Qed.
#[local] Hint Resolve reads_refl reads_skip reads_while : rye.

(** ** Soundness of the scanners *)

Section scanners.
Context (env : LexerEnv).

Lemma identifier_sound c a s k c' :
  rest c = String a s → is_identifier_start (byte_of a) = true → identifier c = (k, c') →
  ∃ text, reads c text c' ∧ spells k text ∧ maximal k (rest c') ∧ text ≠ EmptyString.
Proof.
  intros Hc Ha. unfold identifier.
  assert (reads c (String a (take_while is_identifier_byte s))
            (advance_while is_identifier_byte (skip 1 c))) as Hr.
  { pose proof (reads_trans _ _ _ _ _ (reads_skip_1 _ _ _ Hc)
      (reads_while is_identifier_byte (skip 1 c))) as H.
    cbn [skip rest] in H. rewrite Hc in H. cbn [drop_bytes] in H.
    destruct s; exact H. }
  rewrite (reads_slice _ _ _ Hr). set (text := String a (take_while is_identifier_byte s)) in *.
  set (c1 := advance_while _ _) in *.
  assert (head_is is_identifier_byte (rest c1) = false) as Hm by apply head_is_skip_while.
  assert (text ≠ EmptyString) as Hne by done.
  assert (identifier_text text) as Ht 
    by (eexists a, _; split_and!; [done|done|apply all_bytes_take_while]).
  clearbody text c1. intros H. exists text.
  repeat case_decide; injection H as <- <-; (split; [done|]);
    (split; [|split; [exact Hm|done]]); try by (subst; constructor).
  apply spells_identifier; [done|]. unfold keywords. rewrite !elem_of_cons, elem_of_nil. naive_solver.
Qed.

Lemma take_digits_reads c : reads c (take_while is_ascii_digit (rest c)) (take_digits c).
Proof. apply reads_while. Qed.

(** A run of digits that moved the cursor is not empty. *)
Lemma take_digits_nonempty c :
  pos c ≠ pos (take_digits c) → Numeric.digits (take_while is_ascii_digit (rest c)).
Proof.
  intros H. split; [|auto with rye]. intros E. apply H. cbn. rewrite E. unfold len; cbn. lia.
Qed.

Lemma head_cons p s : head_is p s = true → ∃ a r, s = String a r ∧ p (byte_of a) = true.
Proof. destruct s as [|a r]; [done|]. eauto. Qed.

Lemma integer_stage start c c1 :
  head_is is_ascii_digit (rest c) = true →
  (if head_is (λ b, b =? 48) (rest c) then
     if head_is is_ascii_digit (rest (skip 1 c)) then
       Err (lex_error env Lex (Span (pos start) (pos (skip 1 c) + 1))
              "numeric literals cannot contain leading zeroes")
     else Ok (skip 1 c)
   else Ok (take_digits c)) = Ok c1 →
  ∃ i, reads c i c1 ∧ Numeric.integer_part i ∧ head_is is_ascii_digit (rest c1) = false.
Proof.
  intros (a & r & Hc & Ha)%head_cons. rewrite Hc at 1. change (head_is _ (String a r)) with (byte_of a =? 48).
  destruct (Z.eqb_spec (byte_of a) 48) as [Hz|Hz].
  - destruct (head_is _ _) eqn:E; intros [= <-]. exists "0". split_and!; [|constructor|done].
    pose proof (reads_skip_1 _ _ _ Hc) as H. by apply byte_eq in Hz as ->.
  - intros [= <-]. exists (String a (take_while is_ascii_digit r)). split_and!.
    + pose proof (take_digits_reads c) as H. rewrite Hc in H. cbn in H. by rewrite Ha in H.
    + by constructor; auto with rye.
    + apply head_is_skip_while.
Qed.

Lemma fraction_stage start c1 c2 :
  head_is is_ascii_digit (rest c1) = false →
  (if head_is (λ b, b =? 46) (rest c1) then
     if pos (skip 1 c1) =? pos (take_digits (skip 1 c1)) then
       Err (lex_error env Lex (Span (pos start) (pos (take_digits (skip 1 c1))))
              "a decimal point must be followed by a digit")
     else Ok (take_digits (skip 1 c1))
   else Ok c1) = Ok c2 →
  ∃ f, reads c1 f c2 ∧ Numeric.fraction_part f ∧ head_is is_ascii_digit (rest c2) = false ∧
    (f = EmptyString → head_is (λ b, b =? 46) (rest c2) = false).
Proof.
  intros Hh. destruct (head_is (λ b, b =? 46) (rest c1)) eqn:E.
  - destruct (Z.eqb_spec (pos (skip 1 c1)) (pos (take_digits (skip 1 c1)))) as [|Hne]; intros [= <-].
    apply head_cons in E as (a & r & Hc & Ha%Z.eqb_eq%byte_eq). subst a.
    eexists. split_and!; [|apply (Numeric.fraction_some _ (take_digits_nonempty _ Hne))|apply head_is_skip_while|done].
    eapply reads_trans; [apply (reads_skip_1 _ _ _ Hc)|apply take_digits_reads].
  - intros [= <-]. exists EmptyString. split_and!; [apply reads_refl|constructor|done|done].
Qed.

Lemma exponent_stage start c2 c3 :
  head_is is_ascii_digit (rest c2) = false →
  (if head_is (λ b, (b =? 101) || (b =? 69)) (rest c2) then
     let c1 := skip 1 c2 in
     let start' := if head_is (λ b, (b =? 43) || (b =? 45)) (rest c1) then skip 1 c1 else c1 in
     if pos start' =? pos (take_digits start') then
       Err (lex_error env Lex (Span (pos start) (pos (take_digits start')))
              "an exponent must contain at least one digit")
     else Ok (take_digits start')
   else Ok c2) = Ok c3 →
  ∃ e, reads c2 e c3 ∧ Numeric.exponent_part e ∧ head_is is_ascii_digit (rest c3) = false ∧
    (e = EmptyString → head_is is_exponent_byte (rest c3) = false).
Proof.
  intros Hh. destruct (head_is (λ b, (b =? 101) || (b =? 69)) (rest c2)) eqn:E; cbv zeta.
  2: { intros [= <-]. exists EmptyString. split_and!; [apply reads_refl|constructor|done|done]. }
  set (c1 := skip 1 c2). set (start' := if head_is _ (rest c1) then _ else _).
  destruct (Z.eqb_spec (pos start') (pos (take_digits start'))) as [|Hne]; intros [= <-].
  apply head_cons in E as (a & r & Hc & Ha).
  assert (∃ sign, sign ∈ [""; "+"; "-"]%string ∧ reads c1 sign start') as (sign & Hs & Hr).
  { subst start'. destruct (head_is (λ b, (b =? 43) || (b =? 45)) (rest c1)) eqn:Es.
    - apply head_cons in Es as (b & r' & Hc1 & Hb). exists (String b EmptyString).
      split; [|by eapply reads_skip_1].
      apply orb_prop in Hb as [Hb%Z.eqb_eq%byte_eq|Hb%Z.eqb_eq%byte_eq]; subst b; set_solver.
    - exists EmptyString. split; [set_solver|apply reads_refl]. }
  exists (String a EmptyString +:+ sign +:+ take_while is_ascii_digit (rest start')). split_and!.
  - eapply reads_trans; [by eapply reads_skip_1|]. eapply reads_trans; [done|apply take_digits_reads].
  - constructor; [|done|by apply take_digits_nonempty].
    apply orb_prop in Ha as [Ha%Z.eqb_eq%byte_eq|Ha%Z.eqb_eq%byte_eq]; subst a; set_solver.
  - apply head_is_skip_while.
  - done.
Qed.

Lemma all_bytes_append p s t : all_bytes p (s +:+ t) = all_bytes p s && all_bytes p t.
Proof. induction s as [|a s IH]; [done|]. rewrite append_cons. cbn [all_bytes]. by rewrite IH, andb_assoc. Qed.

(** A text without the bytes of a fraction or an exponent has none. *)
Lemma fraction_absent f : Numeric.fraction_part f → all_bytes (λ b, negb (Numeric.is_decimal_byte b)) f = true → f = EmptyString.
Proof. by destruct 1. Qed.
Lemma exponent_absent (p : Z → bool) e :
  Numeric.exponent_part e → p 101 = false → p 69 = false → all_bytes p e = true → e = EmptyString.
Proof.
  destruct 1 as [|e sign d He _ _]; [done|]. intros H1 H2.
  apply list_elem_of_In in He as [<-|[<-|[]]]; rewrite append_cons; cbn [all_bytes];
    [change (byte_of _) with 101; by rewrite H1|change (byte_of _) with 69; by rewrite H2].
Qed.
Lemma number_ends_intro i f e c2 c3 :
  Numeric.fraction_part f → Numeric.exponent_part e → reads c2 e c3 →
  head_is is_ascii_digit (rest c3) = false →
  (f = EmptyString → head_is (λ b, b =? 46) (rest c2) = false) →
  (e = EmptyString → head_is is_exponent_byte (rest c3) = false) →
  number_ends (i +:+ f +:+ e) (rest c3).
Proof.
  intros Hf He [Hr _] Hd Hpoint Hexp. split_and!; [done|..]; rewrite !all_bytes_append.
  - intros [_ [Hfb Heb]%andb_prop]%andb_prop.
    apply fraction_absent in Hfb; [|done]. apply exponent_absent in Heb; [|done..]. subst.
    rewrite append_nil_l in Hr. rewrite <- Hr. by apply Hpoint.
  - intros [_ [_ Heb]%andb_prop]%andb_prop. apply exponent_absent in Heb; [|done..]. auto.
Qed.

Lemma number_sound c k c' :
  head_is is_ascii_digit (rest c) = true → number env c = Ok (k, c') →
  ∃ text, reads c text c' ∧ k = TNumber text ∧ Numeric.number_text text ∧ number_ends text (rest c').
Proof.
  intros Hd. unfold number.
  set (I := if head_is (λ b, b =? 48) (rest c) then _ else _).
  assert (∀ c1, I = Ok c1 → ∃ i, reads c i c1 ∧ Numeric.integer_part i ∧
            head_is is_ascii_digit (rest c1) = false) as HI.
  { subst I. intros c1. apply integer_stage; done. }
  destruct I as [c1|]; [|done]. destruct (HI _ eq_refl) as (i & Hi & ? & Hh1). clear HI.
  cbn [mbind result_bind].
  set (F := if head_is (λ b, b =? 46) (rest c1) then _ else _).
  assert (∀ c2, F = Ok c2 → ∃ f, reads c1 f c2 ∧ Numeric.fraction_part f ∧
            head_is is_ascii_digit (rest c2) = false ∧
            (f = EmptyString → head_is (λ b, b =? 46) (rest c2) = false)) as HF.
  { subst F. intros c2. by apply fraction_stage. }
  destruct F as [c2|]; [|done]. destruct (HF _ eq_refl) as (f & Hf & ? & Hh2 & Hpoint). clear HF.
  cbn [mbind result_bind].
  set (X := if head_is _ (rest c2) then _ else _).
  assert (∀ c3, X = Ok c3 → ∃ e, reads c2 e c3 ∧ Numeric.exponent_part e ∧
            head_is is_ascii_digit (rest c3) = false ∧
            (e = EmptyString → head_is is_exponent_byte (rest c3) = false)) as HX.
  { subst X. intros c3. by apply exponent_stage. }
  destruct X as [c3|]; [|done]. destruct (HX _ eq_refl) as (e & He & ? & Hh3 & Hexp). clear HX.
  cbn [mbind result_bind]. intros [= <- <-].
  pose proof (reads_trans _ _ _ _ _ Hi (reads_trans _ _ _ _ _ Hf He)) as Hr.
  exists (i +:+ f +:+ e). rewrite (reads_slice _ _ _ Hr). split_and!; [done|done|by exists i, f, e|].
  by eapply number_ends_intro.
Qed.

Lemma read_hex_escape_sound start c z c' :
  read_hex_escape env start c = Ok (z, c') → ∃ h, reads c h c' ∧ hex4 h z.
Proof.
  unfold read_hex_escape. destruct (_ || _ || _) eqn:E; [done|].
  destruct (all_bytes _ _) eqn:Hh; intros [= <- <-].
  exists (take_bytes 4 (rest c)). split; [apply reads_skip|]. split_and!; [|done|done].
  apply orb_false_elim in E as [[E _]%orb_false_elim _]. apply Z.ltb_ge in E. unfold len in E.
  destruct (rest c) as [|? [|? [|? [|? r]]]]; cbn in *; try lia.
Qed.

Lemma take_bytes_reads n c t : take_bytes n (rest c) = t → reads c t (skip n c).
Proof. intros <-. apply reads_skip. Qed.

Lemma in_range_spec lo hi z : in_range lo hi z = true ↔ lo ≤ z ≤ hi.
Proof. unfold in_range. rewrite andb_true_iff, !Z.leb_le. done. Qed.

Lemma char_from_u32_some z z' : char_from_u32 z = Some z' → z' = z.
Proof. unfold char_from_u32. case_match; naive_solver. Qed.

Lemma unicode_escape_sound quote start c z c' :
  unicode_escape env start c = Ok (z, c') →
  ∃ raw, reads c raw c' ∧ escape quote ("u" +:+ raw) (encode_utf8 z).
Proof.
  unfold unicode_escape.
  destruct (read_hex_escape env start c) as [[first c1]|] eqn:E1; cbn [mbind result_bind]; [|done].
  apply read_hex_escape_sound in E1 as (h1 & Hr1 & Hh1).
  destruct (in_range 55296 56319 first) eqn:Hhigh.
  - case_bool_decide as Hb; [|done]. apply take_bytes_reads in Hb.
    destruct (read_hex_escape env start (skip 2 c1)) as [[second c2]|] eqn:E2; cbn [mbind result_bind]; [|done].
    apply read_hex_escape_sound in E2 as (h2 & Hr2 & Hh2).
    destruct (in_range 56320 57343 second) eqn:Hlow; cbn [mbind result_bind]; [|done].
    destruct (char_from_u32 _) eqn:Hz; intros [= <- <-]. apply char_from_u32_some in Hz as ->.
    exists (h1 +:+ backslash +:+ "u" +:+ h2). split.
    + eapply reads_trans; [done|]. rewrite <- append_assoc. by eapply reads_trans.
    + rewrite Z.shiftl_mul_pow2 by done. apply in_range_spec in Hhigh, Hlow. by constructor.
  - destruct (in_range 56320 57343 first) eqn:Hlow; cbn [mbind result_bind]; [done|].
    destruct (char_from_u32 _) eqn:Hz; intros [= <- <-]. apply char_from_u32_some in Hz as ->.
    exists h1. split; [done|]. constructor; [done|].
    unfold in_range in Hhigh, Hlow. lia.
Qed.

Lemma decode_escape_sound quote start c out c' :
  decode_escape env quote start c = Ok (out, c') →
  ∃ raw, reads c raw c' ∧ escape quote raw out.
Proof.
  unfold decode_escape. destruct (rest c) as [|a s] eqn:Hc; cbn [first_byte]; [done|].
  apply reads_skip_1 in Hc. destruct (byte_of a =? 117) eqn:Hu.
  - apply Z.eqb_eq in Hu. rewrite Hu. cbn.
    destruct (unicode_escape _ _ _) as [[z c1]|] eqn:E; cbn [mbind result_bind]; [|done].
    intros [= <- <-]. apply (unicode_escape_sound quote) in E as (raw & Hr & He).
    apply byte_eq in Hu as ->. exists ("u" +:+ raw). split; [|done]. by eapply reads_trans.
  - repeat (match goal with |- context [if ?b then _ else _] =>
              lazymatch b with context [byte_of a] => destruct b eqn:? end end);
    intros [= <- <-]; exists (String a EmptyString); (split; [done|]);
    repeat match goal with H : _ && _ = true |- _ => apply andb_prop in H as [? ?] end;
    match goal with H : (byte_of a =? _) = true |- _ => apply Z.eqb_eq, byte_eq in H as -> end;
    constructor. by apply Z.eqb_eq.
Qed.

Lemma take_bytes_length n s : String.length (take_bytes n s) = (n `min` String.length s)%nat.
Proof. revert s. induction n; intros [|a s]; cbn; [done..|]. by rewrite IHn. Qed.
Lemma drop_bytes_empty n s : (String.length s ≤ n)%nat → drop_bytes n s = EmptyString.
Proof. revert s. induction n; intros [|a s]; cbn; try done; try lia. intros. apply IHn. lia. Qed.

(** A literal that ends has every scalar of its body complete. *)
Lemma string_loop_scalar n quote start out c r w :
  string_loop env n quote start out (skip w c) = Ok r →
  String.length (take_bytes w (rest c)) = w.
Proof.
  rewrite take_bytes_length. intros H. destruct (decide (w ≤ String.length (rest c))%nat); [lia|].
  assert (rest (skip w c) = EmptyString) as Hs by (cbn; apply drop_bytes_empty; lia).
  destruct n; cbn [string_loop] in H; rewrite Hs in H; cbn in H; done.
Qed.

Lemma string_loop_sound n quote start out c k c' :
  0 ≤ quote < 256 →
  string_loop env n quote start out c = Ok (k, c') →
  ∃ body value, reads c (body +:+ String (ascii_of_Z quote) EmptyString) c' ∧
    string_body quote body value ∧ k = TString (out +:+ value).
Proof.
  intros Hq. revert out c. induction n as [|n IH]; intros out c; cbn [string_loop];
    destruct (rest c) as [|a s] eqn:Hc; cbn [first_byte]; try done.
  destruct (Z.eqb_spec (byte_of a) quote) as [Ha|Ha].
  { intros [= <- <-]. exists EmptyString, EmptyString. split_and!; [|constructor|].
    - apply byte_eq in Ha as <-. by eapply reads_skip_1.
    - by rewrite append_nil_r. }
  destruct (Z.eqb_spec (byte_of a) 92) as [Hb|Hb].
  { destruct (decode_escape env quote start (skip 1 c)) as [[text c1]|] eqn:E; cbn [mbind result_bind]; [|done].
    intros (body & value & Hr & Hbody & ->)%IH. apply decode_escape_sound in E as (raw & Hr1 & He).
    apply byte_eq in Hb as ->. apply reads_skip_1 in Hc.
    exists (backslash +:+ raw +:+ body), (text +:+ value). split_and!; [|by constructor|by rewrite append_assoc].
    pose proof (reads_trans _ _ _ _ _ Hc (reads_trans _ _ _ _ _ Hr1 Hr)) as H.
    unfold backslash. by rewrite !append_assoc. }
  destruct (Z.ltb_spec (byte_of a) 32); [done|].
  cbv zeta. set (w := utf8_width (byte_of a)). intros H0.
  apply string_loop_scalar in H0 as Hlen.
  apply IH in H0 as (body & value & Hr & Hbody & ->).
  pose proof (reads_trans _ _ _ _ _ (reads_skip w c) Hr) as Hr'. rewrite Hc in Hlen, Hr'.
  exists (take_bytes w (String a s) +:+ body), (take_bytes w (String a s) +:+ value).
  split_and!; [by rewrite append_assoc| |by rewrite append_assoc].
  clear Hr Hr'. subst w. destruct (utf8_width (byte_of a)) as [|w] eqn:Hw; [done|]. cbn [take_bytes] in *.
  constructor; try done. by rewrite Hw.
Qed.

Lemma string_literal_sound quote c s k c' :
  quote = 34 ∨ quote = 39 → rest c = String (ascii_of_Z quote) s →
  string_literal env quote c = Ok (k, c') →
  ∃ text, reads c text c' ∧ spells k text ∧ maximal k (rest c') ∧ text ≠ EmptyString.
Proof.
  intros Hq Hc H. unfold string_literal in H.
  apply string_loop_sound in H as (body & value & Hr & Hb & ->); [|lia].
  eexists. split_and!; [eapply reads_trans; [by eapply reads_skip_1|done]|by constructor|done|done].
Qed.

(** ** Progress and termination *)

Lemma reads_length c t c' :
  reads c t c' → String.length (rest c) = (String.length t + String.length (rest c'))%nat.
Proof. intros [-> _]. apply append_length. Qed.

Lemma nonempty_length t : t ≠ EmptyString → (0 < String.length t)%nat.
Proof. destruct t; cbn; [done|lia]. Qed.

Lemma decode_escape_total quote start c : clean (decode_escape env quote start c).
Proof.
  unfold decode_escape, unicode_escape, read_hex_escape, lex_error.
  intros f H. repeat (case_match; simplify_eq/=); by eexists.
Qed.

Lemma escape_nonempty quote raw out : escape quote raw out → raw ≠ EmptyString.
Proof. by destruct 1. Qed.

Lemma string_loop_total n quote start out c :
  (String.length (rest c) ≤ n)%nat → clean (string_loop env n quote start out c).
Proof.
  revert out c. induction n as [|n IH]; intros out c Hn; cbn [string_loop];
    destruct (rest c) as [|a s] eqn:Hc; cbn [first_byte]; try apply clean_reported; [cbn in Hn; lia|].
  case_match; [done|]. case_match.
  - destruct (decode_escape env quote start (skip 1 c)) as [[text c1]|e] eqn:E; cbn [mbind result_bind].
    + apply IH. apply decode_escape_sound in E as (raw & Hr & He%escape_nonempty%nonempty_length).
      apply reads_length in Hr. pose proof (reads_length _ _ _ (reads_skip_1 _ _ _ Hc)) as Hl.
      rewrite Hc in Hl. cbn in Hl, Hn. cbn in Hr. lia.
    + intros f [= <-]. by apply decode_escape_total in E.
  - case_match; [apply clean_reported|]. apply IH. pose proof (reads_length _ _ _ (reads_skip (utf8_width (byte_of a)) c)) as Hl.
    rewrite Hc in Hl. cbn in Hn. unfold utf8_width in *. repeat case_match; cbn in *; lia.
Qed.

Lemma scan_token_total byte c : clean (scan_token env byte c).
Proof.
  unfold scan_token. destruct (is_identifier_start byte); [by destruct (identifier c)|].
  destruct (is_ascii_digit byte).
  { unfold number, lex_error. intros f H. repeat (case_match; simplify_eq/=); by eexists. }
  destruct ((byte =? 39) || (byte =? 34)).
  { apply string_loop_total. pose proof (reads_length _ _ _ (reads_skip 1 c)). lia. }
  unfold lex_error, lex_error_with. repeat case_match; first [apply clean_ok | apply clean_reported].
Qed.

(** ** The main loop *)

Lemma punctuation_1 c a s z k :
  rest c = String a s → (byte_of a =? z) = true →
  spelling k = Some (String (ascii_of_Z z) EmptyString) → maximal k s →
  ∃ text, reads c text (skip 1 c) ∧ spells k text ∧ maximal k (rest (skip 1 c)) ∧ text ≠ EmptyString.
Proof.
  intros Hc Ha%Z.eqb_eq%byte_eq Hk Hm. subst a. eexists. split_and!; [by eapply reads_skip_1|..].
  - by constructor.
  - cbn. rewrite Hc. by destruct s.
  - done.
Qed.

Lemma punctuation_2 c a s z z' k :
  rest c = String a s → (byte_of a =? z) = true → next_is z' c = true →
  spelling k = Some (String (ascii_of_Z z) (String (ascii_of_Z z') EmptyString)) →
  (∀ s, maximal k s) →
  ∃ text, reads c text (skip 2 c) ∧ spells k text ∧ maximal k (rest (skip 2 c)) ∧ text ≠ EmptyString.
Proof.
  unfold next_is. intros Hc Ha%Z.eqb_eq%byte_eq. rewrite Hc. subst a.
  destruct s as [|b s]; [done|]. intros Hb%Z.eqb_eq%byte_eq Hk Hm. subst b.
  eexists. split_and!; [apply reads_skip| |apply Hm|].
  - rewrite Hc. constructor. cbn. by destruct s.
  - rewrite Hc. done.
Qed.

Lemma next_is_false c a s z : rest c = String a s → next_is z c = false → head_is (λ b, b =? z) s = false.
Proof. unfold next_is. intros ->. by destruct s. Qed.

Lemma scan_token_sound byte c a s k c' :
  rest c = String a s → byte_of a = byte → scan_token env byte c = Ok (k, c') →
  ∃ text, reads c text c' ∧ spells k text ∧ maximal k (rest c') ∧ text ≠ EmptyString.
Proof.
  intros Hc <-. unfold scan_token.
  destruct (is_identifier_start _) eqn:Hi; [intros H; eapply identifier_sound; [done..|congruence]|].
  destruct (is_ascii_digit _) eqn:Hd.
  { intros H. apply number_sound in H as (text & Hr & -> & Ht & Hm); [|by rewrite Hc].
    exists text. split_and!; [done|by constructor|done|]. intros ->.
    apply Numeric.valid_number_text in Ht. done. }
  destruct ((byte_of a =? 39) || (byte_of a =? 34)) eqn:Hq.
  { apply string_literal_sound with s; [lia|]. rewrite Hc. f_equal. symmetry; apply ascii_of_byte_of. }
  repeat (match goal with |- context [if ?b then _ else _] =>
            lazymatch b with
            | (byte_of a =? ?z) && _ => destruct b eqn:?
            | byte_of a =? ?z => destruct b eqn:?
            | next_is _ _ => destruct b eqn:?
            end end);
  intros [= <- <-];
  repeat match goal with H : _ && _ = true |- _ => apply andb_prop in H as [? ?] end;
  first [ eapply punctuation_2; [done|done|done|reflexivity|done]
        | eapply punctuation_1; [done|done|reflexivity|try done; by eapply next_is_false] ].
Qed.

Lemma push_ok tokens k sp tokens' :
  push env tokens k sp = Ok tokens' →
  tokens' = tokens ++ [MkToken k sp] ∧ Z.of_nat (length tokens') ≤ max_tokens (lex_limits env).
Proof.
  unfold push. destruct (Z.leb_spec (max_tokens (lex_limits env)) (Z.of_nat (length tokens)));
    intros [= <-]. split; [done|]. rewrite length_app. cbn. lia.
Qed.

Lemma push_total tokens k sp : clean (push env tokens k sp).
Proof. unfold push, lex_error. case_match; [apply clean_reported|done]. Qed.

Lemma run_sound n tokens c ts :
  run env n tokens c = Ok ts →
  ∃ new, ts = tokens ++ new ∧ tokens_of (pos c) (rest c) new ∧
    Z.of_nat (length ts) ≤ max_tokens (lex_limits env).
Proof.
  revert tokens c. induction n as [|n IH]; intros tokens c; cbn [run];
    destruct (rest c) as [|a s] eqn:Hc; cbn [first_byte]; try done;
    [intros [-> ?]%push_ok; eexists; split_and!; [done|constructor|done]..|].
  destruct (is_ascii_whitespace (byte_of a)) eqn:Hw.
  - intros (new & -> & Hn & ?)%IH. exists new. split_and!; [done| |done].
    constructor; [done|]. destruct (reads_skip_1 _ _ _ Hc) as [Hr Hp].
    rewrite Hc in Hr. injection Hr as ->. by rewrite Hp in Hn.
  - destruct (scan_token env (byte_of a) c) as [[k c1]|] eqn:E; cbn [mbind result_bind]; [|done].
    destruct (push env tokens k _) as [tokens'|] eqn:Ep; cbn [mbind result_bind]; [|done].
    intros (new & -> & Hn & ?)%IH. apply push_ok in Ep as [-> _].
    apply (scan_token_sound _ _ a s) in E as (text & [Hr Hp] & Hsp & Hm & Hne); [|done..].
    eexists. rewrite <- app_assoc in *. split_and!; [done| |done].
    rewrite <- Hc, Hr, Hp. rewrite Hp in Hn. by constructor.
Qed.

Lemma run_total n tokens c :
  (String.length (rest c) ≤ n)%nat → clean (run env n tokens c).
Proof.
  revert tokens c. induction n as [|n IH]; intros tokens c Hn; cbn [run];
    destruct (rest c) as [|a s] eqn:Hc; cbn [first_byte];
    [apply push_total|cbn in Hn; lia|apply push_total|].
  case_match.
  - apply IH. pose proof (reads_length _ _ _ (reads_skip_1 _ _ _ Hc)) as Hl. rewrite Hc in Hl. cbn in Hl, Hn |- *. lia.
  - destruct (scan_token env (byte_of a) c) as [[k c1]|e] eqn:E; cbn [mbind result_bind].
    2: { intros f [= <-]. by apply scan_token_total in E. }
    destruct (push env tokens k _) as [tokens'|e] eqn:Ep; cbn [mbind result_bind].
    2: { intros f [= <-]. by apply push_total in Ep. }
    apply IH. apply (scan_token_sound _ _ a s) in E as (text & Hr & _ & _ & Hne); [|done..].
    apply reads_length in Hr. rewrite Hc in Hr. apply nonempty_length in Hne. cbn in Hr, Hn. lia.
Qed.

End scanners.

(** Scanning always ends with tokens or with an error the code reports. *)
Lemma lex_clean source field limits : clean (lex source field limits).
Proof. unfold lex. case_match; [apply clean_reported|]. by apply run_total. Qed.

(** ** Properties *)

(** C16. The tokens returned are a tokenisation of the source: they cover it
    in order, with only whitespace between them, each token's span is
    exactly the text that spells it (numbers by the numeric grammar,
    strings by their decoded escapes), identifiers, numbers and operators
    are as long as possible, the last token is the end marker at the end of
    the source, and both source and token limits are respected. *)
Theorem lex_sound source field limits tokens :
  lex source field limits = Ok tokens →
  tokens_of 0 source tokens ∧
  Z.of_nat (length tokens) ≤ max_tokens limits ∧ len source ≤ max_source_bytes limits.
Proof.
  unfold lex. destruct (Z.ltb_spec (max_source_bytes limits) (len source)); [done|].
  intros (new & -> & Hn & ?)%run_sound. done.
Qed.

Definition sample_source : string := "steps[0].n1 >= 1.5e3 || 'a'".

Lemma lex_sound_witness :
  match lex sample_source None CompilationLimits_default with
  | Ok tokens =>
      tokens_of 0 sample_source tokens ∧ length tokens = 11%nat
  | Err _ => False
  end.
Proof.
  destruct (lex sample_source None CompilationLimits_default) as [tokens|] eqn:E.
  - split; [apply (lex_sound _ _ _ _ E)|]. vm_compute in E. by injection E as <-.
  - vm_compute in E. discriminate.
Defined.
