(* ===== verification/Parser.v ===== *)
(** * The parser

    [expression/parser.rs]: a precedence-climbing parser over the lexer's
    tokens.  The [cursor] into [tokens] is the list of the tokens that are
    left; indexing past the end is a [Panic].  The recursion of
    [expression] and its loops carry a fuel. *)

From S2P Require Import Prelude Float64 Json Numeric ExprSyntax Lexer.

(** The mutable part of [Parser]. *)
Record ParserState := { upcoming : list Token; literal_elements : Z }.

Abbreviation P := (M ParserState Failure).

(** The fields of [Parser] that do not change. *)
Record ParserEnv := {
  parser_source : string; parser_field : option string; parser_limits : CompilationLimits
}.

(** [infix_operator]. *)
Definition infix_operator (kind : TokenKind) : option (Z * Z * BinaryOperator) :=
  match kind with
  | TCoalesce => Some (2, 3, Coalesce)
  | TOr => Some (4, 5, Or)
  | TAnd => Some (6, 7, And)
  | TEqual => Some (8, 9, Equal)
  | TNotEqual => Some (8, 9, NotEqual)
  | TLess => Some (10, 11, Less)
  | TLessEqual => Some (10, 11, LessEqual)
  | TGreater => Some (10, 11, Greater)
  | TGreaterEqual => Some (10, 11, GreaterEqual)
  | TIn => Some (10, 11, In)
  | TPlus => Some (12, 13, Add)
  | TMinus => Some (12, 13, Subtract)
  | TStar => Some (14, 15, Multiply)
  | TSlash => Some (14, 15, Divide)
  | TPercent => Some (14, 15, Remainder)
  | _ => None
  end.

Definition is_boolean_root (e : Expr) : bool :=
  match expr_kind e with KBinary (And | Or) _ _ => true | _ => false end.
Definition is_coalesce_root (e : Expr) : bool :=
  match expr_kind e with KBinary Coalesce _ _ => true | _ => false end.

Definition mixes_nullish_and_boolean (operator : BinaryOperator) (lhs rhs : Expr) : bool :=
  match operator with
  | Coalesce => is_boolean_root lhs || is_boolean_root rhs
  | And | Or => is_coalesce_root lhs || is_coalesce_root rhs
  | _ => false
  end.

Fixpoint is_path_expression (e : Expr) : bool :=
  match e with
  | MkExpr (KVariable _) _ => true
  | MkExpr (KMember target _) _ => is_path_expression target
  | MkExpr (KIndex target _) _ => is_path_expression target
  | MkExpr (KGroup inner) _ => is_path_expression inner
  | _ => false
  end.

(** [literal]. *)
Definition literal (value : Literal) (span : SourceSpan) : Expr := MkExpr (KLiteral value) span.

Section parser.
Context (env : ParserEnv).

Definition parse_error (span : SourceSpan) (message : string) : Failure :=
  Reported (error_new Parse (parser_field env) (parser_source env) span message).
Definition limit_error (span : SourceSpan) (message : string) : Failure :=
  Reported (error_new Limit (parser_field env) (parser_source env) span message).
Definition parse_error_with (span : SourceSpan) (message correction : string) : Failure :=
  Reported (with_correction
    (error_new Parse (parser_field env) (parser_source env) span message) correction).

(** [Parser::current]. *)
Definition current : P Token := λ s,
  match upcoming s with
  | [] => (Err Panic, s)
  | token :: _ => (Ok token, s)
  end.
Definition current_kind : P TokenKind := token ← current ; mret (tok_kind token).

(** [Parser::advance]. *)
Definition advance : P Token := λ s,
  match upcoming s with
  | [] => (Err Panic, s)
  | token :: rest =>
      (Ok token,
       if decide (tok_kind token = TEof) then s
       else {| upcoming := rest; literal_elements := literal_elements s |})
  end.

(** [Parser::expect]. *)
Definition expect (predicate : TokenKind → bool) (expected : string) : P Token :=
  token ← current ;
  if predicate (tok_kind token) then advance
  else throw (parse_error (tok_span token)
                ("expected " +:+ expected +:+ ", found " +:+ description (tok_kind token))).

Definition is_kind (kind : TokenKind) (k : TokenKind) : bool := bool_decide (k = kind).

(** [Parser::check_depth]. *)
Definition check_depth (depth : Z) : P unit :=
  if max_ast_depth (parser_limits env) <? depth then
    token ← current ;
    throw (limit_error (tok_span token)
             ("expression exceeds AST depth limit of " +:+ pretty (max_ast_depth (parser_limits env))))
  else mret tt.

(** [Parser::charge_literal_element]. *)
Definition charge_literal_element (span : SourceSpan) : P unit := λ s,
  let s := {| upcoming := upcoming s; literal_elements := literal_elements s + 1 |} in
  if max_literal_elements (parser_limits env) <? literal_elements s then
    (Err (limit_error span
       ("expression exceeds literal element limit of " +:+
        pretty (max_literal_elements (parser_limits env)))), s)
  else (Ok tt, s).

(** The functions below are mutually recursive with [Parser::expression]:
    [expression] is that function, called on fewer tokens. *)
Section mutual.
Context (expression : Z → Z → P Expr).

(** The argument loop of [Parser::identifier]. *)
Fixpoint arguments_loop (n : nat) (arguments : list Expr) (depth : Z) : P (list Expr) :=
  match n with
  | O => throw OutOfFuel
  | S n =>
      token ← current ;
      if max_function_arguments (parser_limits env) <=? Z.of_nat (length arguments) then
        throw (limit_error (tok_span token)
                 ("function call exceeds argument limit of " +:+
                  pretty (max_function_arguments (parser_limits env))))
      else
        argument ← expression 0 (depth + 1) ;
        let arguments := arguments ++ [argument] in
        kind ← current_kind ;
        if negb (is_kind TComma kind) then mret arguments
        else
          advance ;;
          token ← current ;
          if is_kind TRightParen (tok_kind token) then
            throw (parse_error (tok_span token) "trailing function argument comma")
          else arguments_loop n arguments depth
  end.

(** [Parser::identifier]. *)
Definition parse_identifier (n : nat) (name : string) (span : SourceSpan) (depth : Z) : P Expr :=
  kind ← current_kind ;
  if negb (is_kind TLeftParen kind) then mret (MkExpr (KVariable name) span)
  else
    advance ;;
    match from_name name with
    | None => throw (parse_error span ("unknown function `" +:+ name +:+ "`"))
    | Some function =>
        kind ← current_kind ;
        arguments ← (if negb (is_kind TRightParen kind) then arguments_loop n [] depth
                     else mret []) ;
        close ← expect (is_kind TRightParen) "`)`" ;
        let span' := Span (span_start span) (span_end (tok_span close)) in
        if negb (Z.of_nat (length arguments) =? arity function) then
          throw (parse_error span'
            ("function `" +:+ function_name function +:+ "` expects " +:+
             pretty (arity function) +:+ " argument" +:+
             (if arity function =? 1 then EmptyString else "s") +:+ ", received " +:+
             pretty (Z.of_nat (length arguments))))
        else
          match arguments with
          | first :: _ =>
              if bool_decide (function = FExists) && negb (is_path_expression first) then
                throw (parse_error_with (expr_span first) "exists(...) requires a path expression"
                         "pass a context path such as exists(inputs.optional)")
              else mret (MkExpr (KCall function arguments) span')
          | [] => mret (MkExpr (KCall function arguments) span')
          end
    end.

(** [Parser::postfix]. *)
Definition postfix (target : Expr) (depth : Z) : P Expr :=
  token ← advance ;
  match tok_kind token with
  | TDot =>
      token ← advance ;
      match tok_kind token with
      | TIdentifier key =>
          mret (MkExpr (KMember target key)
                  (Span (span_start (expr_span target)) (span_end (tok_span token))))
      | _ =>
          throw (parse_error_with (tok_span token) "dot access requires a non-reserved identifier"
                   "use bracket access with a quoted key")
      end
  | TLeftBracket =>
      index ← expression 0 (depth + 1) ;
      close ← expect (is_kind TRightBracket) "`]`" ;
      mret (MkExpr (KIndex target index)
              (Span (span_start (expr_span target)) (span_end (tok_span close))))
  | _ => throw Panic
  end.

(** [Parser::array]. *)
Fixpoint array_loop (n : nat) (elements : list Expr) (depth : Z) : P (list Expr) :=
  match n with
  | O => throw OutOfFuel
  | S n =>
      token ← current ;
      charge_literal_element (tok_span token) ;;
      element ← expression 0 (depth + 1) ;
      let elements := elements ++ [element] in
      kind ← current_kind ;
      if negb (is_kind TComma kind) then mret elements
      else
        advance ;;
        token ← current ;
        if is_kind TRightBracket (tok_kind token) then
          throw (parse_error (tok_span token) "trailing array element comma")
        else array_loop n elements depth
  end.

Definition array (n : nat) (open : SourceSpan) (depth : Z) : P Expr :=
  kind ← current_kind ;
  elements ← (if negb (is_kind TRightBracket kind) then array_loop n [] depth else mret []) ;
  close ← expect (is_kind TRightBracket) "`]`" ;
  mret (MkExpr (KArray elements) (Span (span_start open) (span_end (tok_span close)))).

(** [Parser::object]. *)
Fixpoint object_loop (n : nat) (entries : list (string * Expr)) (keys : gset string) (depth : Z)
    : P (list (string * Expr)) :=
  match n with
  | O => throw OutOfFuel
  | S n =>
      token ← current ;
      charge_literal_element (tok_span token) ;;
      key_token ← advance ;
      key ← (match tok_kind key_token with
             | TIdentifier key | TString key => mret key
             | other =>
                 throw (parse_error (tok_span key_token)
                   ("object key must be an identifier or quoted string, found " +:+
                    description other))
             end) ;
      if bool_decide (key ∈ keys) then
        throw (parse_error (tok_span key_token) ("duplicate object key `" +:+ key +:+ "`"))
      else
        expect (is_kind TColon) "`:` after object key" ;;
        value ← expression 0 (depth + 1) ;
        let entries := entries ++ [(key, value)] in
        kind ← current_kind ;
        if negb (is_kind TComma kind) then mret entries
        else
          advance ;;
          token ← current ;
          if is_kind TRightBrace (tok_kind token) then
            throw (parse_error (tok_span token) "trailing object entry comma")
          else object_loop n entries ({[key]} ∪ keys) depth
  end.

Definition object (n : nat) (open : SourceSpan) (depth : Z) : P Expr :=
  kind ← current_kind ;
  entries ← (if negb (is_kind TRightBrace kind) then object_loop n [] ∅ depth else mret []) ;
  close ← expect (is_kind TRightBrace) "`}`" ;
  mret (MkExpr (KObject entries) (Span (span_start open) (span_end (tok_span close)))).

(** [Parser::prefix]. *)
Definition prefix (n : nat) (depth : Z) : P Expr :=
  token ← advance ;
  let span := tok_span token in
  let unary operator :=
    operand ← expression 18 (depth + 1) ;
    mret (MkExpr (KUnary operator operand)
            (Span (span_start span) (span_end (expr_span operand)))) in
  match tok_kind token with
  | TNull => mret (literal LNull span)
  | TTrue => mret (literal (LBool true) span)
  | TFalse => mret (literal (LBool false) span)
  | TString value => mret (literal (LString value) span)
  | TNumber value =>
      numeric ← lift (map_err (parse_error span) (Numeric.parse_unsigned_token value)) ;
      mret (literal (LNumber numeric) span)
  | TIdentifier name => parse_identifier n name span depth
  | TBang => unary Not
  | TPlus => unary Plus
  | TMinus => unary Minus
  | TLeftParen =>
      inner ← expression 0 (depth + 1) ;
      close ← expect (is_kind TRightParen) "`)`" ;
      mret (MkExpr (KGroup inner) (Span (span_start span) (span_end (tok_span close))))
  | TLeftBracket => array n span depth
  | TLeftBrace => object n span depth
  | other =>
      throw (parse_error span ("expected an expression, found " +:+ description other))
  end.

(** The [loop] of [Parser::expression]. *)
Fixpoint infix_loop (n : nat) (left_ : Expr) (min_binding_power depth : Z) : P Expr :=
  match n with
  | O => throw OutOfFuel
  | S n =>
      kind ← current_kind ;
      if is_kind TDot kind || is_kind TLeftBracket kind then
        if 20 <? min_binding_power then mret left_
        else left_ ← postfix left_ depth ; infix_loop n left_ min_binding_power depth
      else if is_kind TQuestion kind then
        if 1 <? min_binding_power then mret left_
        else
          advance ;;
          then_branch ← expression 0 (depth + 1) ;
          expect (is_kind TColon) "`:` in conditional expression" ;;
          else_branch ← expression 1 (depth + 1) ;
          infix_loop n
            (MkExpr (KConditional left_ then_branch else_branch)
               (Span (span_start (expr_span left_)) (span_end (expr_span else_branch))))
            min_binding_power depth
      else
        match infix_operator kind with
        | None => mret left_
        | Some (left_bp, right_bp, operator) =>
            if left_bp <? min_binding_power then mret left_
            else
              operator_token ← advance ;
              right_ ← expression right_bp (depth + 1) ;
              if mixes_nullish_and_boolean operator left_ right_ then
                throw (parse_error_with (tok_span operator_token)
                  "`??` cannot be mixed with `&&` or `||` without parentheses"
                  "parenthesize either the nullish or boolean expression")
              else
                infix_loop n
                  (MkExpr (KBinary operator left_ right_)
                     (Span (span_start (expr_span left_)) (span_end (expr_span right_))))
                  min_binding_power depth
        end
  end.

End mutual.

(** [Parser::expression]. *)
Fixpoint expression (n : nat) (min_binding_power depth : Z) : P Expr :=
  match n with
  | O => throw OutOfFuel
  | S n =>
      check_depth depth ;;
      left_ ← prefix (expression n) n depth ;
      infix_loop (expression n) n left_ min_binding_power depth
  end.

(** The children [Parser::validate_ast_depth] pushes, in pushing order. *)
Definition children (e : Expr) : list Expr :=
  match expr_kind e with
  | KLiteral _ | KVariable _ => []
  | KMember target _ => [target]
  | KIndex target index => [target; index]
  | KArray elements => elements
  | KObject entries => entries.*2
  | KUnary _ operand | KGroup operand => [operand]
  | KBinary _ lhs rhs => [lhs; rhs]
  | KConditional condition then_branch else_branch => [condition; then_branch; else_branch]
  | KCall _ arguments => arguments
  end.

(** [Parser::validate_ast_depth]; the head of the list is the top of the stack. *)
Fixpoint validate_loop (n : nat) (stack : list (Expr * Z)) : Compiled unit :=
  match stack with
  | [] => Ok tt
  | (expression, depth) :: stack =>
      match n with
      | O => Err OutOfFuel
      | S n =>
          if max_ast_depth (parser_limits env) <? depth then
            Err (limit_error (expr_span expression)
                   ("expression exceeds AST depth limit of " +:+
                    pretty (max_ast_depth (parser_limits env))))
          else
            validate_loop n
              (reverse ((λ child, (child, depth + 1)) <$> children expression) ++ stack)
      end
  end.

End parser.

(** Fold over a tree, children in source order. *)
Fixpoint tree_fold {A} (f : Expr → list A → A) (e : Expr) : A :=
  let all := fix all l := match l with [] => [] | e :: l => tree_fold f e :: all l end in
  let all_entries := fix all_entries l :=
    match l with [] => [] | (_, e) :: l => tree_fold f e :: all_entries l end in
  let 'MkExpr kind _ := e in
  f e match kind with
      | KLiteral _ | KVariable _ => []
      | KMember e _ | KUnary _ e | KGroup e => [tree_fold f e]
      | KIndex a b | KBinary _ a b => [tree_fold f a; tree_fold f b]
      | KArray l | KCall _ l => all l
      | KObject l => all_entries l
      | KConditional a b c => [tree_fold f a; tree_fold f b; tree_fold f c]
      end.

(** Number of nodes: the fuel of [validate_ast_depth]. *)
Definition expr_size : Expr → nat := tree_fold (λ _ sizes, S (sum_list sizes)).

Definition validate_ast_depth (env : ParserEnv) (root : Expr) : Compiled unit :=
  validate_loop env (expr_size root) [(root, 1)].

(** The body of [parser::parse] after the parser is built. *)
Definition parse_all (env : ParserEnv) (n : nat) : P Expr :=
  e ← expression env n 0 1 ;
  lift (validate_ast_depth env e) ;;
  token ← current ;
  if negb (is_kind TEof (tok_kind token)) then
    throw (parse_error env (tok_span token)
      ("unexpected " +:+ description (tok_kind token) +:+ "; expected end of expression"))
  else mret e.

(** [parser::parse]. *)
Definition parse (source : string) (field : option string) (tokens : list Token)
    (limits : CompilationLimits) : Compiled Expr :=
  let env := {| parser_source := source; parser_field := field; parser_limits := limits |} in
  fst (parse_all env (S (length tokens)) {| upcoming := tokens; literal_elements := 0 |}).
