(* ===== verification/Grammar.v ===== *)
(** * The grammar of expressions and the correctness of the parser

    A declarative grammar ([derives]) relates a syntax tree to the tokens
    it is written with, precedence and associativity included; the parser
    is shown to return only trees of the grammar, and to return the tree
    of every token sequence the grammar derives. *)

From S2P Require Import Prelude Float64 Json Numeric ExprSyntax Lexer Parser.

(** ** Precedence *)

(** Binary operators from loosest to tightest; all associate to the left. *)
Definition power (op : BinaryOperator) : Z :=
  match op with
  | Coalesce => 2
  | Or => 4
  | And => 6
  | Equal | NotEqual => 8
  | Less | LessEqual | Greater | GreaterEqual | In => 10
  | Add | Subtract => 12
  | Multiply | Divide | Remainder => 14
  end.

(** How tightly the root of a tree binds: conditionals loosest, then binary
    operators, then unary operators, then everything else. *)
Definition level (e : Expr) : Z :=
  match expr_kind e with
  | KConditional _ _ _ => 1
  | KBinary op _ _ => power op
  | KUnary _ _ => 18
  | _ => 20
  end.

Inductive literal_token : TokenKind → Literal → Prop :=
| token_null : literal_token TNull LNull
| token_true : literal_token TTrue (LBool true)
| token_false : literal_token TFalse (LBool false)
| token_string s : literal_token (TString s) (LString s)
| token_number text n :
    Numeric.parse_unsigned_token text = Ok n → literal_token (TNumber text) (LNumber n).

Inductive unary_token : TokenKind → UnaryOperator → Prop :=
| token_not : unary_token TBang Not
| token_plus : unary_token TPlus Plus
| token_minus : unary_token TMinus Minus.

Inductive key_token (key : string) : TokenKind → Prop :=
| key_identifier : key_token key (TIdentifier key)
| key_string : key_token key (TString key).

Definition binary_token (k : TokenKind) (op : BinaryOperator) : Prop :=
  infix_operator k = Some (power op, power op + 1, op).

Definition from_to (a b : SourceSpan) : SourceSpan := Span (span_start a) (span_end b).

(** ** Derivations *)

(** [derives e ts]: the tree [e] is written with the tokens [ts]. *)
Inductive derives : Expr → list Token → Prop :=
| derives_literal k l sp :
    literal_token k l → derives (MkExpr (KLiteral l) sp) [MkToken k sp]
| derives_variable name sp :
    derives (MkExpr (KVariable name) sp) [MkToken (TIdentifier name) sp]
| derives_member target key ts dot sp :
    derives target ts → level target = 20 →
    derives (MkExpr (KMember target key) (from_to (expr_span target) sp))
      (ts ++ [MkToken TDot dot; MkToken (TIdentifier key) sp])
| derives_index target index ts ixs open close :
    derives target ts → derives index ixs → level target = 20 →
    derives (MkExpr (KIndex target index) (from_to (expr_span target) close))
      (ts ++ MkToken TLeftBracket open :: ixs ++ [MkToken TRightBracket close])
| derives_array elements ts open close :
    derives_elements elements ts →
    derives (MkExpr (KArray elements) (from_to open close))
      (MkToken TLeftBracket open :: ts ++ [MkToken TRightBracket close])
| derives_object entries ts open close :
    derives_entries entries ts → NoDup entries.*1 →
    derives (MkExpr (KObject entries) (from_to open close))
      (MkToken TLeftBrace open :: ts ++ [MkToken TRightBrace close])
| derives_unary k op operand ts sp :
    unary_token k op → derives operand ts → 18 ≤ level operand →
    derives (MkExpr (KUnary op operand) (from_to sp (expr_span operand))) (MkToken k sp :: ts)
| derives_binary k op l r ls rs sp :
    binary_token k op → derives l ls → derives r rs →
    power op ≤ level l → power op < level r → mixes_nullish_and_boolean op l r = false →
    derives (MkExpr (KBinary op l r) (from_to (expr_span l) (expr_span r)))
      (ls ++ MkToken k sp :: rs)
| derives_conditional c t e cs ts es question colon :
    derives c cs → derives t ts → derives e es → 1 < level c →
    derives (MkExpr (KConditional c t e) (from_to (expr_span c) (expr_span e)))
      (cs ++ MkToken TQuestion question :: ts ++ MkToken TColon colon :: es)
| derives_call name function arguments ts sp open close :
    from_name name = Some function → derives_elements arguments ts →
    Z.of_nat (length arguments) = arity function →
    (function = FExists → Forall (λ e, is_path_expression e = true) arguments) →
    derives (MkExpr (KCall function arguments) (from_to sp close))
      (MkToken (TIdentifier name) sp :: MkToken TLeftParen open ::
       ts ++ [MkToken TRightParen close])
| derives_group inner ts open close :
    derives inner ts →
    derives (MkExpr (KGroup inner) (from_to open close))
      (MkToken TLeftParen open :: ts ++ [MkToken TRightParen close])

(** Comma-separated, without a trailing comma. *)
with derives_elements : list Expr → list Token → Prop :=
| elements_none : derives_elements [] []
| elements_one e ts : derives e ts → derives_elements [e] ts
| elements_more e es ts comma ts' :
    derives e ts → es ≠ [] → derives_elements es ts' →
    derives_elements (e :: es) (ts ++ MkToken TComma comma :: ts')

with derives_entries : list (string * Expr) → list Token → Prop :=
| entries_none : derives_entries [] []
| entries_one key e k sp colon ts :
    key_token key k → derives e ts →
    derives_entries [(key, e)] (MkToken k sp :: MkToken TColon colon :: ts)
| entries_more key e k sp colon ts es comma ts' :
    key_token key k → derives e ts → es ≠ [] → derives_entries es ts' →
    derives_entries ((key, e) :: es)
      (MkToken k sp :: MkToken TColon colon :: ts ++ MkToken TComma comma :: ts').

Scheme derives_mut := Minimality for derives Sort Prop
with derives_elements_mut := Minimality for derives_elements Sort Prop
with derives_entries_mut := Minimality for derives_entries Sort Prop.
Combined Scheme derives_mutind from derives_mut, derives_elements_mut, derives_entries_mut.

(** Array elements and object entries of a tree: what
    [max_literal_elements] bounds. *)
Definition sum_Z (l : list Z) : Z := foldr Z.add 0 l.
Definition max_Z (l : list Z) : Z := foldr Z.max 0 l.
Definition own_literals (e : Expr) : Z :=
  match expr_kind e with KArray _ | KObject _ => Z.of_nat (length (children e)) | _ => 0 end.
Definition literal_count : Expr → Z := tree_fold (λ e cs, own_literals e + sum_Z cs).

(** Height of the tree, what [max_ast_depth] bounds. *)
Definition ast_depth : Expr → Z := tree_fold (λ _ ds, 1 + max_Z ds).

(** ** Measures *)

Lemma tree_fold_eq {A} (f : Expr → list A → A) e :
  tree_fold f e = f e (tree_fold f <$> children e).
Proof.
  destruct e as [[| | | |es|es| | | |? es|] span]; cbn; try done; f_equal.
  induction es as [|[k x] l IH]; cbn; [done|]. by rewrite IH.
Qed.

Lemma expr_size_eq e : expr_size e = S (sum_list (expr_size <$> children e)).
Proof. exact (tree_fold_eq _ e). Qed.
Lemma literal_count_eq e : literal_count e = own_literals e + sum_Z (literal_count <$> children e).
Proof. exact (tree_fold_eq _ e). Qed.
Lemma ast_depth_eq e : ast_depth e = 1 + max_Z (ast_depth <$> children e).
Proof. exact (tree_fold_eq _ e). Qed.
Lemma sum_Z_cons x l : sum_Z (x :: l) = x + sum_Z l.
Proof. done. Qed.
Lemma sum_Z_app l1 l2 : sum_Z (l1 ++ l2) = sum_Z l1 + sum_Z l2.
Proof. unfold sum_Z. induction l1; cbn; lia. Qed.
Lemma max_Z_nonneg l : 0 ≤ max_Z l.
Proof. unfold max_Z. induction l; cbn; lia. Qed.
Lemma max_Z_le l z : 0 ≤ z → (∀ x, x ∈ l → x ≤ z) → max_Z l ≤ z.
Proof.
  unfold max_Z. intros Hz. induction l as [|x l IH]; cbn; intros H; [done|].
  apply Z.max_lub; [apply H; left|]. apply IH. intros y Hy. apply H. by right.
Qed.
Lemma max_Z_ge l x : x ∈ l → x ≤ max_Z l.
Proof. unfold max_Z. induction 1; cbn; lia. Qed.

(** ** Effects of the parser's primitives *)

(** From [s] to [s'] the parser read [ts] and charged [c] literal elements,
    within the limit if any was charged. *)
Record step (env : ParserEnv) (s : ParserState) (ts : list Token) (c : Z) (s' : ParserState) : Prop := {
  step_upcoming : upcoming s = ts ++ upcoming s';
  step_literals : literal_elements s' = literal_elements s + c;
  step_limit : c = 0 ∨ 0 < c ∧ literal_elements s' ≤ max_literal_elements (parser_limits env);
}.

Lemma bind_ok {S E A B} (m : M S E A) (f : A → M S E B) s b s' :
  (m ≫= f) s = (Ok b, s') → ∃ a s1, m s = (Ok a, s1) ∧ f a s1 = (Ok b, s').
Proof. unfold mbind, m_bind. destruct (m s) as [[a|e] s1]; [eauto|done]. Qed.

Ltac bind_inv H a s E := apply bind_ok in H as (a & s & E & H).

Section facts.
Context (env : ParserEnv).

Lemma step_refl s : step env s [] 0 s.
Proof. split; [done|lia|by left]. Qed.
Lemma step_trans s ts c s1 ts' c' s2 :
  step env s ts c s1 → step env s1 ts' c' s2 → step env s (ts ++ ts') (c + c') s2.
Proof.
  intros [H1 H2 H3] [H4 H5 H6]. split; [by rewrite H1, H4, app_assoc|lia|].
  destruct H6 as [->|[??]]; [|right; lia]. destruct H3 as [->|[??]]; [by left|right; lia].
Qed.
Lemma step_charge s ts c c' s' : step env s ts c s' → c = c' → step env s ts c' s'.
Proof. by intros ? <-. Qed.
Lemma step_nonneg s ts c s' : step env s ts c s' → 0 ≤ c.
Proof. intros [_ _ ?]. lia. Qed.

Lemma current_ok s t s' : current s = (Ok t, s') → s' = s ∧ ∃ ts, upcoming s = t :: ts.
Proof. unfold current. destruct (upcoming s); intros [= <- <-]. eauto. Qed.

Lemma current_kind_ok s k s' :
  current_kind s = (Ok k, s') → s' = s ∧ ∃ sp ts, upcoming s = MkToken k sp :: ts.
Proof.
  unfold current_kind. intros H. bind_inv H t s1 E. apply current_ok in E as (-> & ts & Hs).
  injection H as <- <-. split; [done|]. destruct t. eauto.
Qed.

Lemma advance_ok s t s' :
  advance s = (Ok t, s') → tok_kind t ≠ TEof → step env s [t] 0 s'.
Proof.
  unfold advance. destruct (upcoming s) as [|t' ts] eqn:Hs; [done|].
  intros [= <- <-] Hk. rewrite decide_False by done. split; cbn; [done|lia|by left].
Qed.

Lemma advance_current s t s' : advance s = (Ok t, s') → ∃ ts, upcoming s = t :: ts.
Proof. unfold advance. destruct (upcoming s); intros [= <- <-]. eauto. Qed.

Lemma advance_known s k sp ts t s' :
  upcoming s = MkToken k sp :: ts → k ≠ TEof → advance s = (Ok t, s') →
  t = MkToken k sp ∧ step env s [t] 0 s'.
Proof.
  intros Hs Hk H. apply advance_current in H as Hc. destruct Hc as [ts' Hc].
  rewrite Hs in Hc. injection Hc as <- <-. split; [done|]. by apply advance_ok in H.
Qed.

Lemma is_kind_true k k' : is_kind k k' = true ↔ k' = k.
Proof. unfold is_kind. by rewrite bool_decide_eq_true. Qed.
Lemma is_kind_false k k' : is_kind k k' = false ↔ k' ≠ k.
Proof. unfold is_kind. by rewrite bool_decide_eq_false. Qed.

Lemma expect_ok k msg s t s' :
  k ≠ TEof → expect env (is_kind k) msg s = (Ok t, s') →
  ∃ sp, t = MkToken k sp ∧ step env s [MkToken k sp] 0 s'.
Proof.
  intros Hk H. unfold expect in H. bind_inv H t1 s1 E. apply current_ok in E as (-> & ts & Hs).
  destruct (is_kind k (tok_kind t1)) eqn:Ek; [|done]. apply is_kind_true in Ek.
  apply advance_current in H as Hc. destruct Hc as [ts' Hs']. rewrite Hs in Hs'.
  injection Hs' as -> ->. apply advance_ok in H; [|congruence].
  destruct t as [k' sp]. cbn in Ek. subst k'. eauto.
Qed.

Lemma charge_ok sp s u s' :
  charge_literal_element env sp s = (Ok u, s') → step env s [] 1 s'.
Proof.
  unfold charge_literal_element. cbn.
  destruct (Z.ltb_spec (max_literal_elements (parser_limits env)) (literal_elements s + 1));
    intros [= <- <-]. split; cbn; [done|lia|right; lia].
Qed.

Lemma check_depth_ok d s u s' : check_depth env d s = (Ok u, s') → s' = s.
Proof.
  unfold check_depth. case_match; [|by intros [= _ <-]].
  intros H0. by bind_inv H0 t s1 E.
Qed.

(** ** Soundness *)

(** The kind of token an expression of binding power [min] ends before. *)
Definition stops (min : Z) (k : TokenKind) : Prop :=
  k ≠ TDot ∧ k ≠ TLeftBracket ∧ (k = TQuestion → 1 < min) ∧
  ∀ l r op, infix_operator k = Some (l, r, op) → l < min.
Definition next_kind (s : ParserState) (k : TokenKind) : Prop :=
  ∃ sp ts, upcoming s = MkToken k sp :: ts.

(** A tree that the loop may go on extending at the next token. *)
Definition fits (e : Expr) (s : ParserState) : Prop :=
  ∀ k, next_kind s k →
    (k = TDot ∨ k = TLeftBracket → level e = 20) ∧ (k = TQuestion → 1 < level e) ∧
    ∀ l r op, infix_operator k = Some (l, r, op) → l ≤ level e.

Definition parsed (min : Z) (s : ParserState) (e : Expr) (s' : ParserState) : Prop :=
  ∃ ts k, derives e ts ∧ step env s ts (literal_count e) s' ∧ min ≤ level e ∧
    next_kind s' k ∧ stops min k.

Lemma infix_operator_power k l r op :
  infix_operator k = Some (l, r, op) → binary_token k op ∧ l = power op ∧ r = power op + 1.
Proof. destruct k; intros [= <- <- <-]; done. Qed.
Lemma power_range op : 2 ≤ power op ≤ 14.
Proof. destruct op; cbn; lia. Qed.
Lemma level_range e : 1 ≤ level e ≤ 20.
Proof. unfold level. destruct (expr_kind e); try lia. pose proof (power_range operator). lia. Qed.

Lemma next_kind_inj s k k' : next_kind s k → next_kind s k' → k = k'.
Proof. intros (? & ? & H) (? & ? & H'). congruence. Qed.

Lemma fits_tight e s : level e = 20 → fits e s.
Proof.
  intros He k _. rewrite He. split_and!; [done|lia|].
  intros l r op (_ & -> & _)%infix_operator_power. pose proof (power_range op). lia.
Qed.

(** After an operand of power [m] the tree [e] of power at least [m - 1] fits. *)
Lemma stops_fits m k e s :
  next_kind s k → stops m k → m - 1 ≤ level e → (m ≤ 1 ∨ 1 < level e) → fits e s.
Proof.
  intros Hk (H1 & H2 & H3 & H4) Hm Hq k' Hk'. rewrite (next_kind_inj _ _ _ Hk' Hk) in *.
  split_and!; [tauto| |].
  - intros ->. specialize (H3 eq_refl). lia.
  - intros l r op H. apply H4 in H as Hl. apply infix_operator_power in H as (_ & -> & _). lia.
Qed.

Section soundness.
Context (expr : Z → Z → P Expr).
Hypothesis expr_sound : ∀ min d s e s',
  min ≤ 18 → expr min d s = (Ok e, s') → parsed min s e s'.

Lemma arguments_loop_sound n acc d s l s' :
  arguments_loop env expr n acc d s = (Ok l, s') →
  ∃ es ts, l = acc ++ es ∧ es ≠ [] ∧ derives_elements es ts ∧
    step env s ts (sum_Z (literal_count <$> es)) s'.
Proof.
  revert acc s. induction n as [|n IH]; intros acc s H; [done|]. cbn [arguments_loop] in H.
  bind_inv H t s1 E. apply current_ok in E as [-> _]. case_match; [done|].
  bind_inv H e s1 E. apply expr_sound in E as (ts & k & Hd & Hst & _); [|lia].
  bind_inv H k1 s2 E. apply current_kind_ok in E as (-> & sp & ts1 & Hs1).
  destruct (negb (is_kind TComma k1)) eqn:Ek.
  { injection H as <- <-. exists [e], ts. split_and!; [done|done|by constructor|].
    cbn. by rewrite Z.add_0_r. }
  apply negb_false_iff, is_kind_true in Ek. subst k1.
  bind_inv H t1 s2 E. apply (advance_known _ _ _ _ _ _ Hs1) in E as [-> E]; [|done].
  bind_inv H t2 s3 E2. apply current_ok in E2 as [-> _]. case_match; [done|].
  apply IH in H as (es & ts' & -> & Hne & Hes & Hst').
  exists (e :: es), (ts ++ MkToken TComma sp :: ts'). split_and!.
  - by rewrite <- app_assoc.
  - done.
  - by constructor.
  - exact (step_trans _ _ _ _ _ _ _ Hst (step_trans _ _ _ _ _ _ _ E Hst')).
Qed.

Lemma array_loop_sound n acc d s l s' :
  array_loop env expr n acc d s = (Ok l, s') →
  ∃ es ts, l = acc ++ es ∧ es ≠ [] ∧ derives_elements es ts ∧
    step env s ts (Z.of_nat (length es) + sum_Z (literal_count <$> es)) s'.
Proof.
  revert acc s. induction n as [|n IH]; intros acc s H; [done|]. cbn [array_loop] in H.
  bind_inv H t s1 E. apply current_ok in E as [-> _].
  bind_inv H u s0 Ec. apply charge_ok in Ec.
  bind_inv H e s1 E. apply expr_sound in E as (ts & k & Hd & Hst & _); [|lia].
  pose proof (step_trans _ _ _ _ _ _ _ Ec Hst) as Hs.
  bind_inv H k1 s2 E. apply current_kind_ok in E as (-> & sp & ts1 & Hs1).
  destruct (negb (is_kind TComma k1)) eqn:Ek.
  { injection H as <- <-. exists [e], ts. split_and!; [done|done|by constructor|].
    cbn in Hs |- *. by rewrite Z.add_0_r. }
  apply negb_false_iff, is_kind_true in Ek. subst k1.
  bind_inv H t1 s2 E. apply (advance_known _ _ _ _ _ _ Hs1) in E as [-> E]; [|done].
  bind_inv H t2 s3 E2. apply current_ok in E2 as [-> _]. case_match; [done|].
  apply IH in H as (es & ts' & -> & Hne & Hes & Hst').
  exists (e :: es), (ts ++ MkToken TComma sp :: ts'). split_and!.
  - by rewrite <- app_assoc.
  - done.
  - by constructor.
  - pose proof (step_trans _ _ _ _ _ _ _ Hs (step_trans _ _ _ _ _ _ _ E Hst')) as Hall.
    eapply step_charge; [exact Hall|]. rewrite ?fmap_cons, sum_Z_cons, length_cons. cbn [snd]. lia.
Qed.

Lemma object_loop_sound n acc keys d s l s' :
  object_loop env expr n acc keys d s = (Ok l, s') →
  ∃ es ts, l = acc ++ es ∧ es ≠ [] ∧ derives_entries es ts ∧
    NoDup es.*1 ∧ (∀ k, k ∈ es.*1 → k ∉ keys) ∧
    step env s ts (Z.of_nat (length es) + sum_Z (literal_count <$> es.*2)) s'.
Proof.
  revert acc keys s. induction n as [|n IH]; intros acc keys s H; [done|]. cbn [object_loop] in H.
  bind_inv H t s1 E. apply current_ok in E as [-> _].
  bind_inv H u s0 Ec. apply charge_ok in Ec.
  bind_inv H kt s1 Ea. bind_inv H key s2 Ek.
  assert (key_token key (tok_kind kt) ∧ s2 = s1) as [Hkey ->].
  { destruct (tok_kind kt) eqn:Hk; try done; injection Ek as <- <-; by split; [constructor|]. }
  clear Ek. apply advance_ok in Ea; [|by inversion Hkey].
  case_bool_decide as Hin; [done|].
  bind_inv H colon s2 E. apply expect_ok in E as (csp & -> & Hcolon); [|done].
  bind_inv H e s3 E. apply expr_sound in E as (ts & k & Hd & Hst & _); [|lia].
  pose proof (step_trans _ _ _ _ _ _ _ Ec (step_trans _ _ _ _ _ _ _ Ea
    (step_trans _ _ _ _ _ _ _ Hcolon Hst))) as Hs. cbn in Hs.
  destruct kt as [kk ksp]. cbn [tok_kind] in Hkey.
  bind_inv H k1 s4 E. apply current_kind_ok in E as (-> & sp & ts1 & Hs1).
  destruct (negb (is_kind TComma k1)) eqn:Ekc.
  { injection H as <- <-. eexists [(key, e)], _.
    split_and!; [done|done|by constructor|apply NoDup_singleton|set_solver|].
    cbn. eapply step_charge; [exact Hs|lia]. }
  apply negb_false_iff, is_kind_true in Ekc. subst k1.
  bind_inv H t1 s4 E. apply (advance_known _ _ _ _ _ _ Hs1) in E as [-> E]; [|done].
  bind_inv H t2 s5 E2. apply current_ok in E2 as [-> _]. case_match; [done|].
  apply IH in H as (es & ts' & -> & Hne & Hes & Hnd & Hdis & Hst').
  eexists ((key, e) :: es), _. split_and!; [by rewrite <- app_assoc|done|by constructor| | |].
  - cbn. constructor; [|done]. intros Hi. by apply Hdis in Hi; set_solver.
  - cbn. intros k' [->|Hk']%elem_of_cons; [done|]. apply Hdis in Hk'. set_solver.
  - pose proof (step_trans _ _ _ _ _ _ _ Hs (step_trans _ _ _ _ _ _ _ E Hst')) as Hall.
    eapply step_charge; [exact Hall|]. rewrite ?fmap_cons, sum_Z_cons, length_cons. cbn [snd]. lia.
Qed.

(** What [prefix] and [postfix] return. *)
Definition operand (s : ParserState) (read : list Token) (e : Expr) (s' : ParserState) : Prop :=
  ∃ ts, derives e (read ++ ts) ∧ step env s ts (literal_count e) s' ∧ 18 ≤ level e ∧ fits e s'.

Lemma tight_operand s read ts e c s' :
  derives e (read ++ ts) → step env s ts c s' → c = literal_count e → level e = 20 →
  operand s read e s'.
Proof. intros Hd Hs -> Hl. exists ts. split_and!; [done|done|lia|by apply fits_tight]. Qed.

Lemma parse_identifier_sound n name sp d s e s' :
  parse_identifier env expr n name sp d s = (Ok e, s') →
  operand s [MkToken (TIdentifier name) sp] e s'.
Proof.
  unfold parse_identifier. intros H.
  bind_inv H k s1 E. apply current_kind_ok in E as (-> & osp & ts0 & Hs).
  destruct (negb (is_kind TLeftParen k)) eqn:Ek.
  { injection H as <- <-. eapply tight_operand; [constructor|apply step_refl|done|done]. }
  apply negb_false_iff, is_kind_true in Ek. subst k.
  bind_inv H t s1 E. apply (advance_known _ _ _ _ _ _ Hs) in E as [-> Hopen]; [|done].
  destruct (from_name name) as [function|] eqn:Hname; [|done].
  bind_inv H k s2 E. apply current_kind_ok in E as (-> & _).
  bind_inv H args s2 E.
  assert (∃ ts, derives_elements args ts ∧ step env s1 ts (sum_Z (literal_count <$> args)) s2)
    as (ts & Hargs & Hst).
  { destruct (negb (is_kind TRightParen k)).
    - apply arguments_loop_sound in E as (es & ts & -> & _ & Hes & Hst). eauto.
    - injection E as <- <-. exists []. split; [constructor|apply step_refl]. }
  bind_inv H close s3 Ex. apply expect_ok in Ex as (csp & -> & Hclose); [|done].
  cbv zeta in H. destruct (Z.eqb_spec (Z.of_nat (length args)) (arity function)) as [Hlen|]; [|done].
  cbn [negb] in H.
  assert ((function = FExists → Forall (λ e, is_path_expression e = true) args) ∧
          MkExpr (KCall function args) (from_to sp csp) = e ∧ s3 = s') as (Hpath & <- & <-).
  { destruct args as [|a args]; [injection H as <- <-; split; [constructor|done]|].
    destruct (bool_decide (function = FExists) && negb (is_path_expression a)) eqn:Hp; [done|].
    injection H as <- <-. split; [|done]. intros ->. cbn in Hp.
    destruct args; [|rewrite !length_cons in Hlen; cbn [arity] in Hlen; lia]. apply negb_false_iff in Hp. by constructor. }
  eapply tight_operand; [|exact (step_trans _ _ _ _ _ _ _ Hopen (step_trans _ _ _ _ _ _ _ Hst Hclose))| |done].
  - by apply derives_call.
  - rewrite (literal_count_eq (MkExpr _ _)). cbn [own_literals expr_kind children]. lia.
Qed.

Lemma array_sound n open d s e s' :
  array env expr n open d s = (Ok e, s') → operand s [MkToken TLeftBracket open] e s'.
Proof.
  unfold array. intros H. bind_inv H k s1 E. apply current_kind_ok in E as (-> & _).
  bind_inv H es s2 E.
  assert (∃ ts, derives_elements es ts ∧
    step env s ts (Z.of_nat (length es) + sum_Z (literal_count <$> es)) s2) as (ts & Hes & Hst).
  { destruct (negb (is_kind TRightBracket k)).
    - apply array_loop_sound in E as (es' & ts & -> & _ & Hes & Hst). eauto.
    - injection E as <- <-. exists []. split; [constructor|apply step_refl]. }
  bind_inv H close s3 Ex. apply expect_ok in Ex as (csp & -> & Hclose); [|done].
  injection H as <- <-.
  eapply tight_operand; [|exact (step_trans _ _ _ _ _ _ _ Hst Hclose)| |done].
  - by apply derives_array.
  - rewrite (literal_count_eq (MkExpr _ _)). cbn [own_literals expr_kind children]. lia.
Qed.

Lemma object_sound n open d s e s' :
  object env expr n open d s = (Ok e, s') → operand s [MkToken TLeftBrace open] e s'.
Proof.
  unfold object. intros H. bind_inv H k s1 E. apply current_kind_ok in E as (-> & _).
  bind_inv H es s2 E.
  assert (∃ ts, derives_entries es ts ∧ NoDup es.*1 ∧
    step env s ts (Z.of_nat (length es) + sum_Z (literal_count <$> es.*2)) s2) as (ts & Hes & Hnd & Hst).
  { destruct (negb (is_kind TRightBrace k)).
    - apply object_loop_sound in E as (es' & ts & -> & _ & Hes & Hnd & _ & Hst). eauto.
    - injection E as <- <-. exists []. split_and!; [constructor|constructor|apply step_refl]. }
  bind_inv H close s3 Ex. apply expect_ok in Ex as (csp & -> & Hclose); [|done].
  injection H as <- <-.
  eapply tight_operand; [|exact (step_trans _ _ _ _ _ _ _ Hst Hclose)| |done].
  - by apply derives_object.
  - rewrite (literal_count_eq (MkExpr _ _)). cbn [own_literals expr_kind children]. rewrite length_fmap. lia.
Qed.

Lemma unary_sound k op sp d s e s' :
  unary_token k op →
  (operand ← expr 18 d ;
   mret (MkExpr (KUnary op operand) (Span (span_start sp) (span_end (expr_span operand)))))%stdpp s =
    (Ok e, s') →
  operand s [MkToken k sp] e s'.
Proof.
  intros Hk H. bind_inv H x s1 E. apply expr_sound in E as (ts & k' & Hd & Hst & Hl & Hn & Hs); [|lia].
  injection H as <- <-. exists ts. split_and!.
  - by apply derives_unary.
  - eapply step_charge; [exact Hst|]. rewrite (literal_count_eq (MkExpr _ _)). cbn. lia.
  - cbn. lia.
  - eapply stops_fits; [done|done|cbn; lia|right; cbn; lia].
Qed.

Lemma group_sound sp d s e s' :
  (inner ← expr 0 d ;
   close ← expect env (is_kind TRightParen) "`)`" ;
   mret (MkExpr (KGroup inner) (Span (span_start sp) (span_end (tok_span close))))) s = (Ok e, s') →
  operand s [MkToken TLeftParen sp] e s'.
Proof.
  intros H. bind_inv H x s1 E. apply expr_sound in E as (ts & k' & Hd & Hst & _); [|lia].
  bind_inv H close s3 Ex. apply expect_ok in Ex as (csp & -> & Hclose); [|done].
  injection H as <- <-.
  eapply tight_operand; [|exact (step_trans _ _ _ _ _ _ _ Hst Hclose)| |done].
  - by apply derives_group.
  - rewrite (literal_count_eq (MkExpr _ _)). cbn. lia.
Qed.

Lemma prefix_sound n d s e s' :
  prefix env expr n d s = (Ok e, s') → operand s [] e s'.
Proof.
  unfold prefix. intros H. bind_inv H t s1 E. destruct t as [k sp]. cbn [tok_kind tok_span] in H.
  assert (operand s1 [MkToken k sp] e s' ∧ k ≠ TEof) as [(ts & Hd & Hst & ? & ?) Hk].
  { assert (∀ l, literal_token k l → (mret (literal l sp) : P Expr) s1 = (Ok e, s') →
            operand s1 [MkToken k sp] e s') as Hlit.
    { intros l Hl [= <- <-]. eapply tight_operand; [by constructor|apply step_refl|done|done]. }
    destruct k; try done; (split; [|done]);
      try (by eapply Hlit; [constructor|exact H]);
      try (by eapply unary_sound; [constructor|exact H]).
    - by apply parse_identifier_sound in H.
    - destruct (Numeric.parse_unsigned_token text) eqn:Hn; [|done]. by eapply Hlit; [constructor|exact H].
    - by apply group_sound in H.
    - by apply array_sound in H.
    - by apply object_sound in H. }
  apply advance_ok in E; [|done]. exists (MkToken k sp :: ts).
  split_and!; [done|exact (step_trans _ _ _ _ _ _ _ E Hst)|done|done].
Qed.

Lemma postfix_sound target d s k sp ts0 e s' ts :
  derives target ts → level target = 20 → upcoming s = MkToken k sp :: ts0 →
  k = TDot ∨ k = TLeftBracket → postfix env expr target d s = (Ok e, s') →
  ∃ ts', derives e (ts ++ ts') ∧ level e = 20 ∧
    step env s ts' (literal_count e - literal_count target) s'.
Proof.
  intros Hd Hl Hs Hk H. unfold postfix in H. bind_inv H t s1 E.
  apply (advance_known _ _ _ _ _ _ Hs) in E as [-> E]; [|by destruct Hk; subst].
  destruct Hk as [-> | ->]; cbn [tok_kind tok_span] in H.
  - bind_inv H t s2 E2. destruct t as [k sp2]. cbn [tok_kind tok_span] in H.
    destruct k; try done. injection H as <- <-. apply advance_ok in E2; [|done].
    eexists. split_and!; [by apply derives_member|done|].
    eapply step_charge; [exact (step_trans _ _ _ _ _ _ _ E E2)|].
    rewrite (literal_count_eq (MkExpr _ _)). cbn. lia.
  - bind_inv H x s2 E2. apply expr_sound in E2 as (ixs & k' & Hdx & Hst & _); [|lia].
    bind_inv H close s3 Ex. apply expect_ok in Ex as (csp & -> & Hclose); [|done].
    injection H as <- <-. eexists. split_and!; [by apply derives_index|done|].
    eapply step_charge; [exact (step_trans _ _ _ _ _ _ _ E (step_trans _ _ _ _ _ _ _ Hst Hclose))|].
    rewrite (literal_count_eq (MkExpr _ _)). cbn. lia.
Qed.

(** The tree [e] extends [lhs], which was read from [tsl]. *)
Definition grown (tsl : list Token) (lhs : Expr) (min : Z) (s : ParserState) (e : Expr)
    (s' : ParserState) : Prop :=
  ∃ ts k, derives e (tsl ++ ts) ∧ step env s ts (literal_count e - literal_count lhs) s' ∧
    min ≤ level e ∧ next_kind s' k ∧ stops min k.

Lemma grown_end tsl lhs min s k :
  derives lhs tsl → min ≤ level lhs → next_kind s k → stops min k → grown tsl lhs min s lhs s.
Proof.
  intros. exists [], k. rewrite app_nil_r. split_and!; try done.
  eapply step_charge; [apply step_refl|lia].
Qed.

Lemma grown_more tsl ts lhs lhs' c min s s1 e s' :
  step env s ts c s1 → c = literal_count lhs' - literal_count lhs →
  grown (tsl ++ ts) lhs' min s1 e s' → grown tsl lhs min s e s'.
Proof.
  intros Hst -> (ts' & k & Hd & Hst' & ?). exists (ts ++ ts'), k. rewrite app_assoc.
  split; [done|]. split; [|done]. eapply step_charge; [exact (step_trans _ _ _ _ _ _ _ Hst Hst')|]. lia.
Qed.

Lemma infix_loop_sound n min d s lhs tsl e s' :
  min ≤ 18 → derives lhs tsl → min ≤ level lhs → fits lhs s →
  infix_loop env expr n lhs min d s = (Ok e, s') → grown tsl lhs min s e s'.
Proof.
  intros Hmin. revert lhs tsl s. induction n as [|n IH]; intros lhs tsl s Hd Hl Hf H; [done|].
  cbn [infix_loop] in H. bind_inv H k s1 E. apply current_kind_ok in E as (-> & sp & ts0 & Hs).
  assert (next_kind s k) as Hk by (eexists _, _; exact Hs). specialize (Hf k Hk) as (Hf1 & Hf2 & Hf3).
  destruct (is_kind TDot k || is_kind TLeftBracket k) eqn:Hpost.
  { rewrite orb_true_iff, !is_kind_true in Hpost. rewrite (proj2 (Z.ltb_ge _ _)) in H by lia.
    bind_inv H lhs' s1 E. eapply postfix_sound in E as (ts & Hd' & Hl' & Hst); [|eauto..].
    eapply grown_more; [done|done|]. apply IH with (3 := fits_tight _ _ Hl'); [done|lia|done]. }
  apply orb_false_iff in Hpost as [Hdot%is_kind_false Hbracket%is_kind_false].
  destruct (is_kind TQuestion k) eqn:Hq.
  { apply is_kind_true in Hq. destruct (Z.ltb_spec 1 min).
    { injection H as <- <-. eapply grown_end; eauto. subst k. split_and!; [done..|done|by intros]. }
    bind_inv H t s1 E. apply (advance_known _ _ _ _ _ _ Hs) in E as [-> Hq1]; [|by subst].
    bind_inv H t s2 E. apply expr_sound in E as (tst & k1 & Hdt & Hst1 & _); [|lia].
    bind_inv H c s3 E. apply expect_ok in E as (csp & -> & Hcolon); [|done].
    bind_inv H el s4 E. apply expr_sound in E as (tse & k2 & Hde & Hst2 & _ & Hk2 & Hstop); [|lia].
    subst k. pose proof (step_trans _ _ _ _ _ _ _ Hq1 (step_trans _ _ _ _ _ _ _ Hst1
      (step_trans _ _ _ _ _ _ _ Hcolon Hst2))) as Hst.
    eapply grown_more; [exact Hst| |eapply IH; [| | |exact H]].
    - rewrite (literal_count_eq (MkExpr _ _)). cbn. lia.
    - apply derives_conditional; auto.
    - cbn. lia.
    - eapply stops_fits; [exact Hk2|exact Hstop|cbn; lia|left; lia]. }
  apply is_kind_false in Hq.
  destruct (infix_operator k) as [[[lbp rbp] op]|] eqn:Hop.
  2: { injection H as <- <-. eapply grown_end; eauto. split_and!; [done..|]. by rewrite Hop. }
  apply infix_operator_power in Hop as Hp. destruct Hp as (Hbt & -> & ->).
  destruct (Z.ltb_spec (power op) min).
  { injection H as <- <-. eapply grown_end; eauto. split_and!; [done..|]. rewrite Hop. naive_solver. }
  bind_inv H t s1 E. apply (advance_known _ _ _ _ _ _ Hs) in E as [-> Ht]; [|by intros ->].
  pose proof (power_range op).
  bind_inv H rhs s2 E. apply expr_sound in E as (tsr & k1 & Hdr & Hst1 & Hlr & Hk1 & Hstop); [|lia].
  destruct (mixes_nullish_and_boolean op lhs rhs) eqn:Hmix; [done|].
  eapply grown_more; [exact (step_trans _ _ _ _ _ _ _ Ht Hst1)| |eapply IH; [| | |exact H]].
  - rewrite (literal_count_eq (MkExpr _ _)). cbn. lia.
  - apply derives_binary; auto; [|lia]. by eapply Hf3.
  - cbn. lia.
  - eapply stops_fits; [exact Hk1|exact Hstop|cbn; lia|right; cbn; lia].
Qed.

End soundness.

Lemma expression_sound n min d s e s' :
  min ≤ 18 → expression env n min d s = (Ok e, s') → parsed min s e s'.
Proof.
  revert min d s e s'. induction n as [|n IH]; intros min d s e s' Hmin H; [done|].
  cbn [expression] in H. bind_inv H u s1 E. apply check_depth_ok in E as ->.
  bind_inv H lhs s1 E. apply (prefix_sound _ IH) in E as (tsl & Hd & Hst & Hl & Hf).
  eapply (infix_loop_sound _ IH) in H as (ts & k & Hde & Hst' & ?); [|done|exact Hd|lia|done].
  exists (tsl ++ ts), k. split; [done|]. split; [|done].
  eapply step_charge; [exact (step_trans _ _ _ _ _ _ _ Hst Hst')|]. lia.
Qed.

(** ** The depth check *)

Definition within (max : Z) (node : Expr * Z) : Prop := node.2 + ast_depth node.1 - 1 ≤ max.

Lemma within_children max e d :
  within max (e, d) ↔ d ≤ max ∧ Forall (within max) ((λ child, (child, d + 1)) <$> children e).
Proof.
  unfold within at 1. rewrite ast_depth_eq. cbn [fst snd]. rewrite Forall_fmap, Forall_forall. cbn.
  pose proof (max_Z_nonneg (ast_depth <$> children e)). split.
  - intros H'. split; [lia|]. intros x Hx.
    pose proof (max_Z_ge (ast_depth <$> children e) (ast_depth x)
      (list_elem_of_fmap_2 ast_depth _ _ Hx)). unfold within; cbn. lia.
  - intros [Hd Hc]. assert (max_Z (ast_depth <$> children e) ≤ max - d); [|lia].
    apply max_Z_le; [lia|]. intros z (x & -> & Hx)%list_elem_of_fmap. apply Hc in Hx.
    unfold within in Hx. cbn in Hx. lia.
Qed.

Lemma sum_list_app (l1 l2 : list nat) : sum_list (l1 ++ l2) = (sum_list l1 + sum_list l2)%nat.
Proof. induction l1; cbn; lia. Qed.
Lemma sum_list_reverse (l : list nat) : sum_list (reverse l) = sum_list l.
Proof. induction l; [done|]. rewrite reverse_cons, sum_list_app. cbn. lia. Qed.

Lemma validate_loop_spec n stack :
  (sum_list ((λ node, expr_size node.1) <$> stack) ≤ n)%nat →
  match validate_loop env n stack with
  | Ok _ => Forall (within (max_ast_depth (parser_limits env))) stack
  | Err f => (∃ e, f = Reported e) ∧ ¬ Forall (within (max_ast_depth (parser_limits env))) stack
  end.
Proof.
  revert stack. induction n as [|n IH]; intros [|[e d] stack] Hn; cbn [validate_loop]; try by constructor.
  { cbn in Hn. rewrite expr_size_eq in Hn. lia. }
  destruct (Z.ltb_spec (max_ast_depth (parser_limits env)) d) as [Hd|Hd].
  { split; [by eexists|]. rewrite Forall_cons, within_children. lia. }
  specialize (IH (reverse ((λ child, (child, d + 1)) <$> children e) ++ stack)).
  ospecialize (IH _).
  { rewrite fmap_app, sum_list_app, fmap_reverse, sum_list_reverse, <- list_fmap_compose.
    cbn in Hn. rewrite expr_size_eq in Hn. unfold compose. cbn [fst].
    change ((λ x : Expr, expr_size x) <$> children e) with (expr_size <$> children e). lia. }
  destruct (validate_loop _ _ _); rewrite Forall_app, Forall_reverse in IH;
    rewrite Forall_cons, within_children; tauto.
Qed.

Lemma validate_ast_depth_spec root :
  match validate_ast_depth env root with
  | Ok _ => ast_depth root ≤ max_ast_depth (parser_limits env)
  | Err f => (∃ e, f = Reported e) ∧ max_ast_depth (parser_limits env) < ast_depth root
  end.
Proof.
  unfold validate_ast_depth. pose proof (validate_loop_spec (expr_size root) [(root, 1)]) as H.
  ospecialize (H _); [cbn; lia|].
  destruct (validate_loop _ _ _); rewrite Forall_singleton in H; unfold within in H; cbn in H;
    [lia|]. split; [apply H|lia].
Qed.

(** ** Termination without panics *)

Definition is_reported (f : Failure) : Prop := ∃ e, f = Reported e.

(** [m] run from [s] fails only with a reported error, and its value and
    final state satisfy [Q]. *)
Definition safe {A} (m : P A) (s : ParserState) (Q : A → ParserState → Prop) : Prop :=
  match m s with
  | (Ok a, s') => Q a s'
  | (Err f, _) => is_reported f
  end.

(** The end marker is still ahead. *)
Definition live (s : ParserState) : Prop := ∃ ts sp, upcoming s = ts ++ [MkToken TEof sp].
Definition left_over (s : ParserState) : nat := length (upcoming s).

Lemma live_pos s : live s → (0 < left_over s)%nat.
Proof. intros (ts & sp & Hs). unfold left_over. rewrite Hs, length_app. cbn. lia. Qed.
Lemma safe_bind {A B} (m : P A) (f : A → P B) s Q :
  safe m s (λ a s', safe (f a) s' Q) → safe (m ≫= f) s Q.
Proof. unfold safe, mbind, m_bind. by destruct (m s) as [[]]. Qed.
Lemma safe_ret {A} (a : A) s (Q : A → ParserState → Prop) : Q a s → safe (mret a) s Q.
Proof. done. Qed.
Lemma safe_throw {A} f s (Q : A → ParserState → Prop) : is_reported f → safe (throw f) s Q.
Proof. done. Qed.
Lemma safe_mono {A} (m : P A) s (Q R : A → ParserState → Prop) :
  safe m s Q → (∀ a s', Q a s' → R a s') → safe m s R.
Proof. unfold safe. destruct (m s) as [[]]; auto. Qed.

Lemma safe_current s (Q : Token → ParserState → Prop) :
  live s → (∀ t, Q t s) → safe current s Q.
Proof.
  intros (ts & sp & Hs) HQ. unfold safe, current. rewrite Hs. destruct ts; apply HQ.
Qed.
Lemma safe_current_kind s (Q : TokenKind → ParserState → Prop) :
  live s → (∀ k, next_kind s k → Q k s) → safe current_kind s Q.
Proof.
  intros (ts & sp & Hs) HQ. unfold safe, current_kind, current, mbind, m_bind.
  rewrite Hs. destruct ts as [|[k sp'] ts]; cbn; apply HQ; eexists _, _; rewrite Hs; done.
Qed.

Lemma safe_advance s (Q : Token → ParserState → Prop) :
  live s →
  (∀ t s', next_kind s (tok_kind t) → live s' → (left_over s' ≤ left_over s)%nat →
    (tok_kind t ≠ TEof → (left_over s' < left_over s)%nat) → Q t s') →
  safe advance s Q.
Proof.
  intros (ts & sp & Hs) HQ. unfold safe, advance.
  assert (∃ t ts', upcoming s = t :: ts' ∧ (tok_kind t ≠ TEof → ∃ ts'', ts' = ts'' ++ [MkToken TEof sp]))
    as (t & ts' & Hu & Hlast).
  { rewrite Hs. destruct ts as [|t ts]; eexists _, _; (split; [done|]); [done|eauto]. }
  assert (next_kind s (tok_kind t)) by (destruct t; eexists _, _; exact Hu).
  rewrite Hu. case_decide as Hk.
  - apply HQ; [done|by exists ts, sp|lia|done].
  - destruct (Hlast Hk) as [ts'' ->]. unfold left_over in HQ. rewrite Hu in HQ.
    apply HQ; cbn; [done|by eexists _, _|lia|lia].
Qed.

Lemma safe_advance_known s k (Q : Token → ParserState → Prop) :
  live s → next_kind s k → k ≠ TEof →
  (∀ t s', live s' → (left_over s' < left_over s)%nat → Q t s') → safe advance s Q.
Proof.
  intros Hl Hk Hne HQ. apply safe_advance; [done|]. intros t s' Ht Hl' _ Hlt.
  rewrite <- (next_kind_inj _ _ _ Hk Ht) in Hlt. auto.
Qed.

Lemma safe_expect k msg s (Q : Token → ParserState → Prop) :
  live s → k ≠ TEof → (∀ t s', live s' → (left_over s' < left_over s)%nat → Q t s') →
  safe (expect env (is_kind k) msg) s Q.
Proof.
  intros Hl Hk HQ. unfold expect. apply safe_bind. destruct Hl as (ts & sp & Hs).
  assert (live s) as Hl by by exists ts, sp.
  unfold safe at 1, current. destruct (upcoming s) as [|t0 ts0] eqn:Hu; [by destruct ts|]. cbn beta iota.
  destruct (is_kind k (tok_kind t0)) eqn:E; [|by apply safe_throw; eexists]. apply is_kind_true in E.
  apply (safe_advance_known _ k); try done. destruct t0. cbn in E. subst. by eexists _, _.
Qed.

Lemma safe_charge sp s (Q : unit → ParserState → Prop) :
  live s → (∀ s', live s' → left_over s' = left_over s → Q tt s') →
  safe (charge_literal_element env sp) s Q.
Proof.
  intros (ts & tsp & Hs) HQ. unfold safe, charge_literal_element. cbn.
  destruct (_ <? _); [by eexists|]. apply HQ; [by exists ts, tsp|done].
Qed.

Section totality.
Context (expr : Z → Z → P Expr) (bound : nat).
Hypothesis expr_safe : ∀ min d s, live s → (left_over s < bound)%nat →
  safe (expr min d) s (λ _ s', live s' ∧ (left_over s' < left_over s)%nat).

Lemma safe_expr min d s (Q : Expr → ParserState → Prop) :
  live s → (left_over s < bound)%nat →
  (∀ e s', live s' → (left_over s' < left_over s)%nat → Q e s') → safe (expr min d) s Q.
Proof. intros Hl Hb HQ. eapply safe_mono; [by apply expr_safe|]. cbn. naive_solver. Qed.

(** Steps through a method of the parser: each primitive by its rule, a
    reported error by [is_reported]. *)
Ltac safe_step :=
  lazymatch goal with
  | |- safe (_ ≫= _) _ _ => apply safe_bind
  | |- safe (mret _) _ _ => apply safe_ret
  | |- safe (throw _) _ _ => apply safe_throw; by eexists
  | |- safe (expect _ _ _) _ _ => apply safe_expect; [done|done|intros ????]
  | |- safe (charge_literal_element _ _) _ _ => apply safe_charge; [done|intros ???]
  | |- safe (expr _ _) _ _ => apply safe_expr; [done|lia|intros ????]
  | |- safe current _ _ => apply safe_current; [done|intros ?]
  | |- safe current_kind _ _ => apply safe_current_kind; [done|intros ??]
  | |- safe (if ?b then _ else _) _ _ => destruct b eqn:?
  end.
Ltac safe_comma :=
  match goal with
  | E : negb (is_kind _ _) = false |- _ => apply negb_false_iff, is_kind_true in E; subst
  end;
  match goal with
  | Hl : live ?s, Hk : next_kind ?s _ |- safe advance ?s _ =>
      apply (safe_advance_known _ _ _ Hl Hk); [done|intros ????]
  end.

Lemma arguments_loop_safe n acc d s :
  live s → (left_over s < bound)%nat → (left_over s ≤ n)%nat →
  safe (arguments_loop env expr n acc d) s (λ _ s', live s' ∧ (left_over s' < left_over s)%nat).
Proof.
  revert acc s. induction n as [|n IH]; intros acc s Hl Hb Hn; [apply live_pos in Hl; lia|].
  cbn [arguments_loop].
  repeat first [safe_step|safe_comma]; [split; [done|lia]|].
  eapply safe_mono; [apply IH; [done|lia|lia]|]. cbn. naive_solver lia.
Qed.

Lemma array_loop_safe n acc d s :
  live s → (left_over s < bound)%nat → (left_over s ≤ n)%nat →
  safe (array_loop env expr n acc d) s (λ _ s', live s' ∧ (left_over s' < left_over s)%nat).
Proof.
  revert acc s. induction n as [|n IH]; intros acc s Hl Hb Hn; [apply live_pos in Hl; lia|].
  cbn [array_loop].
  repeat first [safe_step|safe_comma]; [split; [done|lia]|].
  eapply safe_mono; [apply IH; [done|lia|lia]|]. cbn. naive_solver lia.
Qed.

Lemma object_loop_safe n acc keys d s :
  live s → (left_over s < bound)%nat → (left_over s ≤ n)%nat →
  safe (object_loop env expr n acc keys d) s (λ _ s', live s' ∧ (left_over s' < left_over s)%nat).
Proof.
  revert acc keys s. induction n as [|n IH]; intros acc keys s Hl Hb Hn; [apply live_pos in Hl; lia|].
  cbn [object_loop]. do 4 safe_step. safe_step.
  apply safe_advance; [done|]. intros kt s1 Hk Hl1 Hle Hlt. safe_step.
  assert (∀ key, safe (mret key : P string) s1 (λ _ s', s' = s1)) as Hret by done.
  eapply (safe_mono _ _ (λ _ s', s' = s1)).
  { destruct (tok_kind kt); try (apply safe_throw; by eexists); done. }
  cbn. intros key _ ->.
  repeat first [safe_step|safe_comma]; [split; [done|lia]|].
  eapply safe_mono; [apply IH; [done|lia|lia]|]. cbn. naive_solver lia.
Qed.

Definition shrinks {A} (s : ParserState) (_ : A) (s' : ParserState) : Prop :=
  live s' ∧ (left_over s' ≤ left_over s)%nat.

Lemma parse_identifier_safe n name sp d s :
  live s → (left_over s < bound)%nat → (left_over s ≤ n)%nat →
  safe (parse_identifier env expr n name sp d) s (shrinks s).
Proof.
  intros Hl Hb Hn. unfold parse_identifier. do 3 safe_step; [safe_step; split; [done|lia]|].
  safe_step. safe_comma. destruct (from_name name); [|safe_step]. do 3 safe_step.
  apply (safe_mono _ _ (shrinks s')).
  { safe_step; [|safe_step; split; [done|lia]].
    eapply safe_mono; [apply arguments_loop_safe; [done|lia|lia]|]. unfold shrinks. naive_solver lia. }
  intros args s2 [??]. do 3 safe_step; [safe_step|].
  destruct args; repeat safe_step; split; first [done|lia].
Qed.

Lemma array_safe n sp d s :
  live s → (left_over s < bound)%nat → (left_over s ≤ n)%nat →
  safe (array env expr n sp d) s (shrinks s).
Proof.
  intros Hl Hb Hn. unfold array. do 3 safe_step.
  apply (safe_mono _ _ (shrinks s)).
  { safe_step; [|safe_step; split; [done|lia]].
    eapply safe_mono; [apply array_loop_safe; [done|lia|lia]|]. unfold shrinks. naive_solver lia. }
  intros es s2 [??]. repeat safe_step. split; [done|lia].
Qed.

Lemma object_safe n sp d s :
  live s → (left_over s < bound)%nat → (left_over s ≤ n)%nat →
  safe (object env expr n sp d) s (shrinks s).
Proof.
  intros Hl Hb Hn. unfold object. do 3 safe_step.
  apply (safe_mono _ _ (shrinks s)).
  { safe_step; [|safe_step; split; [done|lia]].
    eapply safe_mono; [apply object_loop_safe; [done|lia|lia]|]. unfold shrinks. naive_solver lia. }
  intros es s2 [??]. repeat safe_step. split; [done|lia].
Qed.

Lemma prefix_safe n d s :
  live s → (left_over s ≤ bound)%nat → (left_over s ≤ S n)%nat →
  safe (prefix env expr n d) s (λ _ s', live s' ∧ (left_over s' < left_over s)%nat).
Proof.
  intros Hl Hb Hn. unfold prefix. safe_step. apply safe_advance; [done|].
  intros [k sp] s1 Hk Hl1 Hle Hlt. cbn [tok_kind tok_span] in *.
  destruct (decide (k = TEof)) as [->|Hk']; [apply safe_throw; by eexists|].
  specialize (Hlt Hk').
  apply (safe_mono _ _ (shrinks s1)); [|unfold shrinks; naive_solver lia].
  destruct k; try done; repeat safe_step; try (split; [done|lia]).
  - apply parse_identifier_safe; [done|lia|lia].
  - destruct (Numeric.parse_unsigned_token text); [|by eexists]. done.
  - apply array_safe; [done|lia|lia].
  - apply object_safe; [done|lia|lia].
Qed.

Lemma postfix_safe target d s k :
  live s → (left_over s ≤ bound)%nat → next_kind s k → k = TDot ∨ k = TLeftBracket →
  safe (postfix env expr target d) s (λ _ s', live s' ∧ (left_over s' < left_over s)%nat).
Proof.
  intros Hl Hb Hk Hor. unfold postfix. safe_step. apply safe_advance; [done|].
  intros [k' sp] s1 Hk' Hl1 Hle Hlt. cbn [tok_kind tok_span] in *.
  rewrite <- (next_kind_inj _ _ _ Hk Hk') in *.
  destruct Hor as [-> | ->]; specialize (Hlt ltac:(done)).
  - safe_step. apply safe_advance; [done|]. intros [k2 sp2] s2 Hk2 Hl2 Hle2 _.
    cbn [tok_kind tok_span]. destruct k2; safe_step. split; [done|lia].
  - repeat safe_step. split; [done|lia].
Qed.

Lemma infix_loop_safe n lhs min d s :
  live s → (left_over s ≤ bound)%nat → (left_over s ≤ n)%nat →
  safe (infix_loop env expr n lhs min d) s (shrinks s).
Proof.
  revert lhs s. induction n as [|n IH]; intros lhs s Hl Hb Hn; [apply live_pos in Hl; lia|].
  assert (∀ lhs s', live s' → (left_over s' < left_over s)%nat →
    safe (infix_loop env expr n lhs min d) s' (shrinks s)) as Hgo.
  { intros. eapply safe_mono; [apply IH; [done|lia|lia]|]. unfold shrinks. naive_solver lia. }
  assert (safe (mret lhs : P Expr) s (shrinks s)) as Hret by (split; [done|lia]).
  cbn [infix_loop]. safe_step. apply safe_current_kind; [done|]. intros k Hk.
  destruct (is_kind TDot k || is_kind TLeftBracket k) eqn:Hpost.
  { safe_step; [done|]. safe_step. rewrite orb_true_iff, !is_kind_true in Hpost.
    eapply safe_mono; [by eapply postfix_safe|]. cbn. naive_solver. }
  destruct (is_kind TQuestion k) eqn:Hq.
  { apply is_kind_true in Hq. subst k. safe_step; [done|]. safe_step.
    apply (safe_advance_known _ _ _ Hl Hk); [done|]. intros t s1 Hl1 Hlt.
    repeat safe_step. apply Hgo; [done|lia]. }
  destruct (infix_operator k) as [[[lbp rbp] op]|] eqn:Hop; [|done]. safe_step; [done|].
  safe_step. apply (safe_advance_known _ _ _ Hl Hk); [by intros ->|]. intros t s1 Hl1 Hlt.
  repeat safe_step. apply Hgo; [done|lia].
Qed.

End totality.

Lemma expression_safe n min d s :
  live s → (left_over s < n)%nat →
  safe (expression env n min d) s (λ _ s', live s' ∧ (left_over s' < left_over s)%nat).
Proof.
  revert min d s. induction n as [|n IH]; intros min d s Hl Hn; [lia|]. cbn [expression].
  apply safe_bind. unfold check_depth. destruct (_ <? _).
  { apply safe_bind, safe_current; [done|]. intros t. apply safe_throw. by eexists. }
  apply safe_ret, safe_bind.
  eapply safe_mono; [apply (prefix_safe _ n IH); [done|lia|lia]|]. cbn. intros lhs s1 [??].
  eapply safe_mono; [apply (infix_loop_safe _ n IH); [done|lia|lia]|]. unfold shrinks. naive_solver lia.
Qed.

(** ** Completeness *)

Definition st (ts : list Token) (lit : Z) : ParserState :=
  {| upcoming := ts; literal_elements := lit |}.

Lemma bind_eq {A B} (m : P A) (f : A → P B) s a s' : m s = (Ok a, s') → (m ≫= f) s = f a s'.
Proof. unfold mbind, m_bind. by intros ->. Qed.

Lemma current_eq t ts lit : current (st (t :: ts) lit) = (Ok t, st (t :: ts) lit).
Proof. done. Qed.
Lemma current_kind_eq k sp ts lit :
  current_kind (st (MkToken k sp :: ts) lit) = (Ok k, st (MkToken k sp :: ts) lit).
Proof. done. Qed.
Lemma advance_eq k sp ts lit :
  k ≠ TEof → advance (st (MkToken k sp :: ts) lit) = (Ok (MkToken k sp), st ts lit).
Proof. intros. unfold advance. cbn. by rewrite decide_False. Qed.
Lemma expect_eq k msg sp ts lit :
  k ≠ TEof → expect env (is_kind k) msg (st (MkToken k sp :: ts) lit) = (Ok (MkToken k sp), st ts lit).
Proof.
  intros. unfold expect. rewrite (bind_eq _ _ _ _ _ (current_eq _ _ _)). cbn [tok_kind].
  rewrite (proj2 (is_kind_true k k) eq_refl). by apply advance_eq.
Qed.
Lemma charge_eq sp ts lit :
  lit + 1 ≤ max_literal_elements (parser_limits env) →
  charge_literal_element env sp (st ts lit) = (Ok tt, st ts (lit + 1)).
Proof. intros. unfold charge_literal_element. cbn. by rewrite (proj2 (Z.ltb_ge _ _)). Qed.
Lemma check_depth_eq d s :
  d ≤ max_ast_depth (parser_limits env) → check_depth env d s = (Ok tt, s).
Proof. intros. unfold check_depth. by rewrite (proj2 (Z.ltb_ge _ _)). Qed.

(** The token kind after a tree does not extend its right edge. *)
Definition closes (e : Expr) (k : TokenKind) : Prop :=
  k ≠ TLeftParen ∧
  match expr_kind e with
  | KConditional _ _ _ => stops 1 k
  | KBinary op _ _ => stops (power op + 1) k
  | KUnary _ _ => stops 18 k
  | _ => True
  end.

Lemma stops_mono m m' k : m ≤ m' → stops m k → stops m' k.
Proof.
  intros Hm (H1 & H2 & Hq & Ho). split_and!; [done|done| |].
  - intros Hk. specialize (Hq Hk). lia.
  - intros l r op Hop. apply Ho in Hop. lia.
Qed.

Lemma closes_operand m e k :
  m ≤ 18 → m ≤ level e → stops m k → k ≠ TLeftParen → closes e k.
Proof.
  intros Hm Hl Hs Hk. split; [done|]. unfold level in Hl.
  destruct (expr_kind e); try done; eapply stops_mono; [|done| |done| |done]; lia.
Qed.

Lemma closes_infix k op e : binary_token k op → power op ≤ level e → closes e k.
Proof.
  intros Hk Hl. pose proof (power_range op) as Hp.
  assert (∀ m, power op < m → stops m k) as Hs.
  { intros m Hm. unfold binary_token in Hk.
    split_and!; [by intros ->..|by intros ->|]. rewrite Hk. by intros ??? [= <- _ _]. }
  split; [by intros ->|]. unfold level in Hl. destruct (expr_kind e); try done; apply Hs; lia.
Qed.

Lemma closes_question e : 1 < level e → closes e TQuestion.
Proof.
  intros Hl. split; [done|]. unfold level in Hl. destruct (expr_kind e); try done.
  pose proof (power_range operator). split_and!; try done; intros; lia.
Qed.

Definition terminator (k : TokenKind) : Prop :=
  k ∈ [TRightParen; TRightBracket; TRightBrace; TComma; TColon; TEof].
Lemma terminator_stops k : terminator k → stops 0 k ∧ k ≠ TLeftParen.
Proof.
  unfold terminator. rewrite !elem_of_cons, elem_of_nil.
  intros [-> |[-> |[-> |[-> |[-> |[-> |[]]]]]]]; done.
Qed.

Lemma infix_loop_stop expr j e min d k sp rest lit :
  stops min k → min ≤ 18 →
  infix_loop env expr (S j) e min d (st (MkToken k sp :: rest) lit) =
  (Ok e, st (MkToken k sp :: rest) lit).
Proof.
  intros (H1 & H2 & H3 & H4) Hm. cbn [infix_loop].
  rewrite (bind_eq _ _ _ _ _ (current_kind_eq _ _ _ _)).
  rewrite (proj2 (is_kind_false TDot k)), (proj2 (is_kind_false TLeftBracket k)) by done. cbn [orb].
  destruct (is_kind TQuestion k) eqn:Hq.
  { apply is_kind_true in Hq. by rewrite (proj2 (Z.ltb_lt _ _)) by auto. }
  destruct (infix_operator k) as [[[l r] op]|] eqn:Ho; [|done].
  specialize (H4 _ _ _ eq_refl). by rewrite (proj2 (Z.ltb_lt _ _)).
Qed.

Abbreviation maxd := (max_ast_depth (parser_limits env)).
Abbreviation maxl := (max_literal_elements (parser_limits env)).
Hypothesis arguments_allowed : 2 ≤ max_function_arguments (parser_limits env).

(** Reading [ts] from the front brings the loop to the tree [e]. *)
Definition reads_tree (e : Expr) (ts : list Token) : Prop :=
  ∀ n min d k sp rest lit,
    min ≤ level e → closes e k → d - 1 + ast_depth e ≤ maxd → lit + literal_count e ≤ maxl →
    (length (ts ++ MkToken k sp :: rest) < n)%nat →
    ∃ n' j, n = S n' ∧ (S (length rest) ≤ j)%nat ∧
      expression env n min d (st (ts ++ MkToken k sp :: rest) lit) =
      infix_loop env (expression env n') j e min d (st (MkToken k sp :: rest) (lit + literal_count e)).

Lemma reads_tree_whole e ts n min d k sp rest lit :
  reads_tree e ts → min ≤ 18 → min ≤ level e → stops min k → k ≠ TLeftParen →
  d - 1 + ast_depth e ≤ maxd → lit + literal_count e ≤ maxl →
  (length (ts ++ MkToken k sp :: rest) < n)%nat →
  expression env n min d (st (ts ++ MkToken k sp :: rest) lit) =
  (Ok e, st (MkToken k sp :: rest) (lit + literal_count e)).
Proof.
  intros Hr Hm Hl Hs Hk Hd Hlit Hn.
  destruct (Hr n min d k sp rest lit) as (n' & j & -> & Hj & ->); [done|by eapply closes_operand|done..|].
  destruct j as [|j]; [lia|]. by apply infix_loop_stop.
Qed.

Lemma ast_depth_pos e : 1 ≤ ast_depth e.
Proof. rewrite ast_depth_eq. pose proof (max_Z_nonneg (ast_depth <$> children e)). lia. Qed.
Lemma literal_count_nonneg e : 0 ≤ literal_count e.
Proof.
  assert (∀ l, Forall (λ e, 0 ≤ literal_count e) l → 0 ≤ sum_Z (literal_count <$> l)) as Hsum.
  { induction 1; [done|]. rewrite fmap_cons, sum_Z_cons. lia. }
  assert (∀ e, 0 ≤ own_literals e) as Hown by (intros x; unfold own_literals; case_match; lia).
  induction e; rewrite literal_count_eq; apply Z.add_nonneg_nonneg; try apply Hown;
    apply Hsum; cbn; rewrite ?Forall_fmap; auto.
Qed.

(** A derivation starts with a token that closes nothing. *)
Definition opens (ts : list Token) : Prop :=
  ∃ k sp ts', ts = MkToken k sp :: ts' ∧ k ≠ TRightParen ∧ k ≠ TRightBracket ∧ k ≠ TRightBrace.

Lemma opens_app ts ts' : opens ts → opens (ts ++ ts').
Proof. intros (k & sp & ts0 & -> & ?). by exists k, sp, (ts0 ++ ts'). Qed.

Lemma derives_opens e ts : derives e ts → opens ts.
Proof.
  revert e ts. apply (derives_mut (λ _ ts, opens ts) (λ _ _, True) (λ _ _, True));
    auto using opens_app.
  all: intros;
    repeat match goal with
    | H : literal_token _ _ |- _ => destruct H
    | H : unary_token _ _ |- _ => destruct H
    end; by eexists _, _, _.
Qed.

Lemma elements_opens es ts : derives_elements es ts → es ≠ [] → opens ts.
Proof. destruct 1; intros; eauto using derives_opens, opens_app. done. Qed.
Lemma entries_opens es ts : derives_entries es ts → es ≠ [] → opens ts.
Proof. destruct 1 as [|?????? []|????????? []]; intros; [done|..]; by eexists _, _, _. Qed.

(** What [prefix] reads by itself. *)
Lemma reads_prefix e ts :
  (∀ n d k sp rest lit,
    closes e k → d - 1 + ast_depth e ≤ maxd → lit + literal_count e ≤ maxl →
    (length (ts ++ MkToken k sp :: rest) ≤ n)%nat →
    prefix env (expression env n) n d (st (ts ++ MkToken k sp :: rest) lit) =
    (Ok e, st (MkToken k sp :: rest) (lit + literal_count e))) →
  reads_tree e ts.
Proof.
  intros H n min d k sp rest lit Hl Hc Hd Hlit Hn. destruct n as [|n]; [lia|].
  exists n, n. split; [done|]. rewrite length_app, length_cons in Hn. split; [lia|]. cbn [expression].
  pose proof (ast_depth_pos e).
  erewrite bind_eq by (apply check_depth_eq; lia).
  erewrite bind_eq by (apply H; [done..|]; rewrite length_app, length_cons; lia). done.
Qed.

(** Symbolic execution of one parser primitive on known tokens. *)
Ltac run1 :=
  first
    [ rewrite (bind_eq _ _ _ _ _ (current_kind_eq _ _ _ _))
    | rewrite (bind_eq _ _ _ _ _ (current_eq _ _ _))
    | erewrite bind_eq by (by apply advance_eq)
    | erewrite bind_eq by (by apply expect_eq) ].
Ltac sizes := repeat (rewrite length_app in * || rewrite length_cons in * ); lia.

Lemma reads_literal k l sp : literal_token k l → reads_tree (MkExpr (KLiteral l) sp) [MkToken k sp].
Proof.
  intros Hl. apply reads_prefix. intros n d k' sp' rest lit _ _ _ _. unfold prefix.
  replace (lit + literal_count _) with lit by (rewrite literal_count_eq; cbn; lia).
  destruct Hl as [| | | |text z Hz]; cbn [app]; run1; cbn [tok_kind tok_span]; try done.
  by rewrite Hz.
Qed.

Lemma reads_variable name sp :
  reads_tree (MkExpr (KVariable name) sp) [MkToken (TIdentifier name) sp].
Proof.
  apply reads_prefix. intros n d k' sp' rest lit [Hk _] _ _ _. unfold prefix.
  replace (lit + literal_count _) with lit by (rewrite literal_count_eq; cbn; lia).
  cbn [app]. run1. cbn [tok_kind tok_span]. unfold parse_identifier. run1.
  by rewrite (proj2 (is_kind_false TLeftParen k')).
Qed.

Lemma reads_group inner ts open close :
  reads_tree inner ts →
  reads_tree (MkExpr (KGroup inner) (from_to open close))
    (MkToken TLeftParen open :: ts ++ [MkToken TRightParen close]).
Proof.
  intros Hr. apply reads_prefix. intros n d k sp rest lit _ Hd Hlit Hn. unfold prefix.
  rewrite ast_depth_eq in Hd. rewrite literal_count_eq in Hlit |- *. cbn in Hd, Hlit |- *.
  run1. cbn [tok_kind tok_span]. rewrite <- app_assoc. cbn [app].
  destruct (terminator_stops TRightParen) as [Hs ?]; [unfold terminator; set_solver|].
  pose proof (level_range inner).
  erewrite bind_eq by (eapply reads_tree_whole; [done|lia|lia|done|done|lia|lia|sizes]).
  run1. cbn. do 2 f_equal. lia.
Qed.

Lemma reads_unary k op operand ts sp :
  unary_token k op → 18 ≤ level operand → reads_tree operand ts →
  reads_tree (MkExpr (KUnary op operand) (from_to sp (expr_span operand))) (MkToken k sp :: ts).
Proof.
  intros Hk Hl Hr. apply reads_prefix. intros n d k' sp' rest lit [Hp Hs] Hd Hlit Hn. unfold prefix.
  rewrite ast_depth_eq in Hd. rewrite literal_count_eq in Hlit |- *. cbn in Hs, Hd, Hlit |- *.
  destruct Hk; run1; cbn [tok_kind tok_span];
    (erewrite bind_eq by (eapply reads_tree_whole; [done|lia|lia|done|done|lia|lia|sizes]));
    cbn; do 2 f_equal; lia.
Qed.

(** The comma-separated loops, up to their closing token. *)
Definition reads_elements (es : list Expr) (ts : list Token) : Prop :=
  ∀ n m d k sp rest lit acc,
    es ≠ [] → terminator k → k ≠ TComma → d + max_Z (ast_depth <$> es) ≤ maxd →
    (length (ts ++ MkToken k sp :: rest) < n)%nat → (length (ts ++ MkToken k sp :: rest) ≤ m)%nat →
    ((length acc + length es ≤ 2)%nat → lit + sum_Z (literal_count <$> es) ≤ maxl →
     arguments_loop env (expression env n) m acc d (st (ts ++ MkToken k sp :: rest) lit) =
     (Ok (acc ++ es), st (MkToken k sp :: rest) (lit + sum_Z (literal_count <$> es)))) ∧
    (lit + (Z.of_nat (length es) + sum_Z (literal_count <$> es)) ≤ maxl →
     array_loop env (expression env n) m acc d (st (ts ++ MkToken k sp :: rest) lit) =
     (Ok (acc ++ es), st (MkToken k sp :: rest)
        (lit + (Z.of_nat (length es) + sum_Z (literal_count <$> es))))).

Lemma current_app_eq ts k sp rest lit :
  opens ts → ∃ t, current (st (ts ++ MkToken k sp :: rest) lit) = (Ok t, st (ts ++ MkToken k sp :: rest) lit) ∧
    tok_kind t ≠ TRightParen ∧ tok_kind t ≠ TRightBracket ∧ tok_kind t ≠ TRightBrace.
Proof. intros (k' & sp' & ts' & -> & ?). eexists. by split. Qed.

Lemma sum_nonneg l : 0 ≤ sum_Z (literal_count <$> l).
Proof.
  induction l as [|e l IH]; [done|]. rewrite fmap_cons, sum_Z_cons.
  pose proof (literal_count_nonneg e). lia.
Qed.

Lemma elements_one_reads e ts : derives e ts → reads_tree e ts → reads_elements [e] ts.
Proof.
  intros Hd Hr n m d k sp rest lit acc _ Hk Hc Hdep Hn Hm. cbn in Hdep |- *.
  pose proof (ast_depth_pos e). pose proof (level_range e).
  destruct (terminator_stops _ Hk) as [Hs Hp]. destruct m as [|m]; [sizes|].
  assert (∀ lit, lit + literal_count e ≤ maxl →
    expression env n 0 (d + 1) (st (ts ++ MkToken k sp :: rest) lit) =
    (Ok e, st (MkToken k sp :: rest) (lit + literal_count e))) as He.
  { intros l Hl. eapply reads_tree_whole; [done|lia|lia|done|done|lia|lia|sizes]. }
  destruct (current_app_eq ts k sp rest lit) as (t & Ht & _); [by eapply derives_opens|].
  split; [intros Hlen Hlit|intros Hlit].
  - cbn [arguments_loop]. rewrite (bind_eq _ _ _ _ _ Ht).
    rewrite (proj2 (Z.leb_gt _ _)) by (cbn in Hlen; lia).
    rewrite (bind_eq _ _ _ _ _ (He lit ltac:(lia))). run1.
    rewrite (proj2 (is_kind_false TComma k)) by done. cbn. do 2 f_equal. lia.
  - cbn [array_loop]. rewrite (bind_eq _ _ _ _ _ Ht).
    pose proof (literal_count_nonneg e).
    erewrite bind_eq by (apply charge_eq; lia). rewrite (bind_eq _ _ _ _ _ (He (lit + 1) ltac:(lia))). run1.
    rewrite (proj2 (is_kind_false TComma k)) by done. cbn. do 2 f_equal. lia.
Qed.

Lemma elements_more_reads e es ts comma ts' :
  derives e ts → reads_tree e ts → es ≠ [] → derives_elements es ts' → reads_elements es ts' →
  reads_elements (e :: es) (ts ++ MkToken TComma comma :: ts').
Proof.
  intros Hd Hr Hne Hes Hre n m d k sp rest lit acc _ Hk Hc Hdep Hn Hm.
  rewrite fmap_cons in *. rewrite sum_Z_cons, length_cons. cbn [max_Z foldr] in Hdep.
  change (foldr Z.max 0) with max_Z in Hdep.
  pose proof (ast_depth_pos e). pose proof (level_range e). pose proof (sum_nonneg es).
  pose proof (literal_count_nonneg e).
  rewrite <- app_assoc in *. cbn [app] in *. destruct m as [|m]; [sizes|].
  set (tail := ts' ++ MkToken k sp :: rest) in *.
  destruct (terminator_stops TComma) as [Hs Hp]; [unfold terminator; set_solver|].
  assert (∀ lit, lit + literal_count e ≤ maxl →
    expression env n 0 (d + 1) (st (ts ++ MkToken TComma comma :: tail) lit) =
    (Ok e, st (MkToken TComma comma :: tail) (lit + literal_count e))) as He.
  { intros l Hl. eapply reads_tree_whole; [done|lia|lia|done|done|lia|lia|sizes]. }
  destruct (current_app_eq ts TComma comma tail lit) as (t & Ht & _); [by eapply derives_opens|].
  assert (∀ l, ∃ t, current (st tail l) = (Ok t, st tail l) ∧
    tok_kind t ≠ TRightParen ∧ tok_kind t ≠ TRightBracket ∧ tok_kind t ≠ TRightBrace) as Hcur.
  { intros l. apply current_app_eq. by eapply elements_opens. }
  assert (∀ l acc, _) as Hrest by exact (λ l acc, Hre n m d k sp rest l acc Hne Hk Hc ltac:(lia)
     ltac:(subst tail; sizes) ltac:(subst tail; sizes)).
  split; [intros Hlen Hlit|intros Hlit].
  - cbn [arguments_loop]. rewrite (bind_eq _ _ _ _ _ Ht).
    rewrite (proj2 (Z.leb_gt _ _)) by (destruct es; [done|]; cbn in Hlen; lia).
    rewrite (bind_eq _ _ _ _ _ (He lit ltac:(lia))). run1. cbn [negb is_kind].
    rewrite (proj2 (is_kind_true TComma TComma)) by done. cbn [negb]. run1.
    destruct (Hcur (lit + literal_count e)) as (t' & Ht' & Hne' & _).
    rewrite (bind_eq _ _ _ _ _ Ht'), (proj2 (is_kind_false _ _)) by done.
    destruct (Hrest (lit + literal_count e) (acc ++ [e])) as [Hargs _]. fold tail in Hargs.
    rewrite Hargs by (rewrite ?length_app; cbn; lia). rewrite <- app_assoc. cbn. do 2 f_equal. lia.
  - cbn [array_loop]. rewrite (bind_eq _ _ _ _ _ Ht).
    erewrite bind_eq by (apply charge_eq; lia).
    rewrite (bind_eq _ _ _ _ _ (He (lit + 1) ltac:(lia))). run1.
    rewrite (proj2 (is_kind_true TComma TComma)) by done. cbn [negb]. run1.
    destruct (Hcur (lit + 1 + literal_count e)) as (t' & Ht' & _ & Hne' & _).
    rewrite (bind_eq _ _ _ _ _ Ht'), (proj2 (is_kind_false _ _)) by done.
    destruct (Hrest (lit + 1 + literal_count e) (acc ++ [e])) as [_ Harr]. fold tail in Harr.
    rewrite Harr by lia. rewrite <- app_assoc. cbn [app]. do 2 f_equal. lia.
Qed.

Definition reads_entries (es : list (string * Expr)) (ts : list Token) : Prop :=
  ∀ n m d k sp rest lit acc (keys : gset string),
    es ≠ [] → terminator k → k ≠ TComma → NoDup es.*1 → (∀ key, key ∈ es.*1 → key ∉ keys) →
    d + max_Z (ast_depth <$> es.*2) ≤ maxd →
    (length (ts ++ MkToken k sp :: rest) < n)%nat → (length (ts ++ MkToken k sp :: rest) ≤ m)%nat →
    lit + (Z.of_nat (length es) + sum_Z (literal_count <$> es.*2)) ≤ maxl →
    object_loop env (expression env n) m acc keys d (st (ts ++ MkToken k sp :: rest) lit) =
    (Ok (acc ++ es), st (MkToken k sp :: rest)
       (lit + (Z.of_nat (length es) + sum_Z (literal_count <$> es.*2)))).

(** One entry of [object_loop], up to the decision about what follows. *)
Lemma object_loop_entry n m d acc keys key kk ksp colon e ts k sp rest lit :
  key_token key kk → key ∉ keys → terminator k → reads_tree e ts →
  d + ast_depth e ≤ maxd → lit + (1 + literal_count e) ≤ maxl →
  (length (ts ++ MkToken k sp :: rest) < n)%nat →
  object_loop env (expression env n) (S m) acc keys d
    (st (MkToken kk ksp :: MkToken TColon colon :: ts ++ MkToken k sp :: rest) lit) =
  (if negb (is_kind TComma k) then mret (acc ++ [(key, e)])
   else advance ;; token ← current ;
        if is_kind TRightBrace (tok_kind token) then
          throw (parse_error env (tok_span token) "trailing object entry comma")
        else object_loop env (expression env n) m (acc ++ [(key, e)]) ({[key]} ∪ keys) d)
    (st (MkToken k sp :: rest) (lit + (1 + literal_count e))).
Proof.
  intros Hkk Hkey Hk Hr Hd Hlit Hn. cbn [object_loop]. run1.
  pose proof (literal_count_nonneg e). pose proof (ast_depth_pos e). pose proof (level_range e).
  erewrite bind_eq by (apply charge_eq; lia).
  erewrite bind_eq by (apply advance_eq; by destruct Hkk). cbn [tok_kind tok_span].
  erewrite (bind_eq _ _ _ key) by by destruct Hkk.
  rewrite bool_decide_eq_false_2 by done. run1.
  destruct (terminator_stops _ Hk) as [Hs Hp].
  erewrite bind_eq by (eapply reads_tree_whole; [done|lia|lia|done|done|lia|lia|done]).
  run1. replace (lit + 1 + literal_count e) with (lit + (1 + literal_count e)) by lia. done.
Qed.

Lemma entries_one_reads key e k sp colon ts :
  key_token key k → reads_tree e ts →
  reads_entries [(key, e)] (MkToken k sp :: MkToken TColon colon :: ts).
Proof.
  intros Hkey Hr n m d k' sp' rest lit acc keys _ Hk Hc _ Hdis Hdep Hn Hm Hlit.
  cbn in Hdep, Hlit |- *. destruct m as [|m]; [sizes|]. pose proof (ast_depth_pos e).
  erewrite object_loop_entry; [|done|apply Hdis; set_solver|done|done|lia|lia|cbn in Hn; lia].
  rewrite (proj2 (is_kind_false TComma k')) by done. cbn. do 2 f_equal. lia.
Qed.

Lemma entries_more_reads key e k sp colon ts es comma ts' :
  key_token key k → reads_tree e ts → es ≠ [] → derives_entries es ts' → reads_entries es ts' →
  reads_entries ((key, e) :: es)
    (MkToken k sp :: MkToken TColon colon :: ts ++ MkToken TComma comma :: ts').
Proof.
  intros Hkey Hr Hne Hes Hre n m d k' sp' rest lit acc keys _ Hk Hc Hnd Hdis Hdep Hn Hm Hlit.
  rewrite !fmap_cons in *. rewrite sum_Z_cons, length_cons in *. cbn [fst snd] in *.
  cbn [max_Z foldr] in Hdep. change (foldr Z.max 0) with max_Z in Hdep.
  pose proof (literal_count_nonneg e). pose proof (sum_nonneg es.*2). pose proof (ast_depth_pos e).
  apply NoDup_cons in Hnd as [Hnotin Hnd].
  cbn [app] in *. rewrite <- app_assoc in *. cbn [app] in *. destruct m as [|m]; [sizes|].
  erewrite object_loop_entry;
    [|done|apply Hdis; set_solver|unfold terminator; set_solver|done|lia|lia|cbn in Hn; lia].
  rewrite (proj2 (is_kind_true TComma TComma)) by done. cbn [negb]. run1.
  destruct (current_app_eq ts' k' sp' rest (lit + (1 + literal_count e))) as (t & Ht & _ & _ & Hne');
    [by eapply entries_opens|].
  rewrite (bind_eq _ _ _ _ _ Ht), (proj2 (is_kind_false _ _)) by done.
  rewrite Hre; try done; try sizes.
  - rewrite <- app_assoc. cbn [app]. do 2 f_equal. lia.
  - intros key' Hin. pose proof (Hdis key' ltac:(set_solver)). set_solver.
Qed.

Lemma reads_array es ts open close :
  derives_elements es ts → reads_elements es ts →
  reads_tree (MkExpr (KArray es) (from_to open close))
    (MkToken TLeftBracket open :: ts ++ [MkToken TRightBracket close]).
Proof.
  intros Hes Hr. apply reads_prefix. intros n d k sp rest lit _ Hd Hlit Hn. unfold prefix.
  rewrite ast_depth_eq in Hd. rewrite literal_count_eq in Hlit |- *.
  cbn [own_literals expr_kind children] in Hd, Hlit |- *. cbn [app] in *. rewrite <- app_assoc in *.
  run1. cbn [tok_kind tok_span]. unfold array. cbn [app] in *.
  destruct es as [|e es].
  - inversion Hes; subst. cbn [app]. run1.
    rewrite (proj2 (is_kind_true TRightBracket TRightBracket)) by done. cbn [negb].
    erewrite bind_eq by done. run1. cbn. do 2 f_equal. lia.
  - destruct (elements_opens _ _ Hes) as (k0 & sp0 & ts0 & -> & Hk0); [done|]. cbn [app]. run1.
    rewrite (proj2 (is_kind_false TRightBracket k0)) by tauto. cbn [negb].
    destruct (Hr n n d TRightBracket close (MkToken k sp :: rest) lit []) as [_ Harr];
      [done|unfold terminator; set_solver|done|lia|sizes|sizes|].
    cbn [app] in Harr. rewrite (bind_eq _ _ _ _ _ (Harr Hlit)). run1. done.
Qed.

Lemma reads_object es ts open close :
  derives_entries es ts → NoDup es.*1 → reads_entries es ts →
  reads_tree (MkExpr (KObject es) (from_to open close))
    (MkToken TLeftBrace open :: ts ++ [MkToken TRightBrace close]).
Proof.
  intros Hes Hnd Hr. apply reads_prefix. intros n d k sp rest lit _ Hd Hlit Hn. unfold prefix.
  rewrite ast_depth_eq in Hd. rewrite literal_count_eq in Hlit |- *.
  cbn [own_literals expr_kind children] in Hd, Hlit |- *. rewrite length_fmap in *.
  cbn [app] in *. rewrite <- app_assoc in *.
  run1. cbn [tok_kind tok_span]. unfold object. cbn [app] in *.
  destruct es as [|e es].
  - inversion Hes; subst. cbn [app]. run1.
    rewrite (proj2 (is_kind_true TRightBrace TRightBrace)) by done. cbn [negb].
    erewrite bind_eq by done. run1. cbn. do 2 f_equal. lia.
  - destruct (entries_opens _ _ Hes) as (k0 & sp0 & ts0 & -> & Hk0); [done|]. cbn [app]. run1.
    rewrite (proj2 (is_kind_false TRightBrace k0)) by tauto. cbn [negb].
    pose proof (Hr n n d TRightBrace close (MkToken k sp :: rest) lit [] ∅) as Hobj.
    cbn [app] in Hobj. erewrite bind_eq by (apply Hobj; [done|unfold terminator; set_solver|done|done|set_solver|lia|sizes|sizes|lia]).
    run1. done.
Qed.

Lemma arity_range f : 1 ≤ arity f ≤ 2.
Proof. destruct f; cbn; lia. Qed.

Lemma reads_call name function args ts sp open close :
  from_name name = Some function → derives_elements args ts →
  Z.of_nat (length args) = arity function →
  (function = FExists → Forall (λ e, is_path_expression e = true) args) → reads_elements args ts →
  reads_tree (MkExpr (KCall function args) (from_to sp close))
    (MkToken (TIdentifier name) sp :: MkToken TLeftParen open :: ts ++ [MkToken TRightParen close]).
Proof.
  intros Hname Hargs Hlen Hpath Hr. apply reads_prefix. intros n d k sp' rest lit _ Hd Hlit Hn.
  unfold prefix. rewrite ast_depth_eq in Hd. rewrite literal_count_eq in Hlit |- *.
  cbn [own_literals expr_kind children] in Hd, Hlit |- *. cbn [app] in *. rewrite <- app_assoc in *.
  run1. cbn [tok_kind tok_span]. unfold parse_identifier. run1.
  rewrite (proj2 (is_kind_true TLeftParen TLeftParen)) by done. cbn [negb]. run1. rewrite Hname.
  pose proof (arity_range function). destruct args as [|a args]; [cbn in Hlen; lia|].
  destruct (elements_opens _ _ Hargs) as (k0 & sp0 & ts0 & -> & Hk0); [done|]. cbn [app] in *. run1.
  rewrite (proj2 (is_kind_false TRightParen k0)) by tauto. cbn [negb].
  destruct (Hr n n d TRightParen close (MkToken k sp' :: rest) lit []) as [Hal _];
    [done|unfold terminator; set_solver|done|lia|sizes|sizes|].
  cbn [app] in Hal. erewrite bind_eq by (apply Hal; [cbn in Hlen |- *; lia|lia]). run1. cbv zeta.
  rewrite (proj2 (Z.eqb_eq _ _) Hlen). cbn [negb].
  replace (bool_decide (function = FExists) && negb (is_path_expression a)) with false.
  { done. }
  case_bool_decide as Hf; [|done]. apply Hpath, Forall_cons in Hf as [-> _]. done.
Qed.

(** Extending a tree that was read: the loop takes one more turn. *)
Lemma reads_extend lhs tsl e t0 tsr :
  reads_tree lhs tsl → level e ≤ level lhs → closes lhs (tok_kind t0) →
  (∀ n j min d k sp rest lit,
    min ≤ level e → closes e k → d - 1 + ast_depth e ≤ maxd →
    lit + literal_count e ≤ maxl →
    (length (t0 :: tsr ++ MkToken k sp :: rest) < S n)%nat →
    infix_loop env (expression env n) (S j) lhs min d
      (st (t0 :: tsr ++ MkToken k sp :: rest) (lit + literal_count lhs)) =
    infix_loop env (expression env n) j e min d
      (st (MkToken k sp :: rest) (lit + literal_count e))) →
  ast_depth lhs ≤ ast_depth e → literal_count lhs ≤ literal_count e →
  reads_tree e (tsl ++ t0 :: tsr).
Proof.
  intros Hr Hlev Hcl Hstep Hdep Hcount n min d k sp rest lit Hl Hc Hd Hlit Hn.
  destruct t0 as [k0 sp0]. rewrite <- app_assoc in *. cbn [app tok_kind] in *.
  destruct (Hr n min d k0 sp0 (tsr ++ MkToken k sp :: rest) lit) as (n' & j & -> & Hj & ->);
    [lia|done|lia|lia|done|].
  destruct j as [|j]; [sizes|]. exists n', j. split; [done|]. split; [sizes|].
  apply Hstep; [done..|sizes].
Qed.

Lemma infix_loop_postfix expr j lhs min d k sp rest lit :
  k = TDot ∨ k = TLeftBracket → min ≤ 20 →
  infix_loop env expr (S j) lhs min d (st (MkToken k sp :: rest) lit) =
  (lhs ← postfix env expr lhs d ; infix_loop env expr j lhs min d) (st (MkToken k sp :: rest) lit).
Proof.
  intros Hk Hm. cbn [infix_loop]. run1.
  rewrite (proj2 (Z.ltb_ge 20 min)) by lia. by destruct Hk as [-> | ->].
Qed.

Lemma closes_tight e k : level e = 20 → k ≠ TLeftParen → closes e k.
Proof.
  intros Hl Hk. split; [done|]. unfold level in Hl. destruct (expr_kind e); try done.
  pose proof (power_range operator). lia.
Qed.

Lemma reads_member target key ts dot sp :
  level target = 20 → reads_tree target ts →
  reads_tree (MkExpr (KMember target key) (from_to (expr_span target) sp))
    (ts ++ [MkToken TDot dot; MkToken (TIdentifier key) sp]).
Proof.
  intros Hl Hr. set (e := MkExpr _ _).
  assert (ast_depth e = 1 + Z.max (ast_depth target) 0) by by (unfold e; rewrite ast_depth_eq).
  assert (literal_count e = literal_count target) by (unfold e; rewrite (literal_count_eq (MkExpr _ _)); cbn; lia).
  pose proof (ast_depth_pos target).
  apply (reads_extend target); [done|rewrite Hl; cbn; lia| |  |lia|lia].
  { by apply closes_tight. }
  intros n j min d k sp' rest lit Hm Hc Hd Hlit Hn. cbn [app].
  rewrite infix_loop_postfix by (auto; cbn in Hm; lia). unfold postfix.
  erewrite bind_eq; [|run1; cbn [tok_kind]; run1; cbn [tok_kind]; done].
  by replace (literal_count e) with (literal_count target).
Qed.

Lemma reads_index target index ts ixs open close :
  level target = 20 → reads_tree target ts → reads_tree index ixs →
  reads_tree (MkExpr (KIndex target index) (from_to (expr_span target) close))
    (ts ++ MkToken TLeftBracket open :: ixs ++ [MkToken TRightBracket close]).
Proof.
  intros Hl Hr Hi. set (e := MkExpr _ _).
  assert (ast_depth e = 1 + Z.max (ast_depth target) (Z.max (ast_depth index) 0))
    by by (unfold e; rewrite ast_depth_eq).
  assert (literal_count e = literal_count target + literal_count index)
    by (unfold e; rewrite (literal_count_eq (MkExpr _ _)); cbn; lia).
  pose proof (ast_depth_pos target). pose proof (literal_count_nonneg index). pose proof (level_range index).
  apply (reads_extend target); [done|rewrite Hl; cbn; lia| |  |lia|lia].
  { by apply closes_tight. }
  intros n j min d k sp' rest lit Hm Hc Hd Hlit Hn. rewrite <- app_assoc in *. cbn [app] in *.
  rewrite infix_loop_postfix by (auto; cbn in Hm; lia). unfold postfix.
  destruct (terminator_stops TRightBracket) as [Hs ?]; [unfold terminator; set_solver|].
  erewrite bind_eq.
  2: { run1. cbn [tok_kind].
    erewrite bind_eq by (eapply reads_tree_whole; [done|lia|lia|done|done|lia|lia|sizes]).
    run1. done. }
  do 2 f_equal. lia.
Qed.

Lemma reads_binary k op l r ls rs sp :
  binary_token k op → power op ≤ level l → power op < level r →
  mixes_nullish_and_boolean op l r = false → reads_tree l ls → reads_tree r rs →
  reads_tree (MkExpr (KBinary op l r) (from_to (expr_span l) (expr_span r))) (ls ++ MkToken k sp :: rs).
Proof.
  intros Hk Hl Hlr Hmix Hrl Hrr. set (e := MkExpr _ _).
  assert (ast_depth e = 1 + Z.max (ast_depth l) (Z.max (ast_depth r) 0))
    by by (unfold e; rewrite ast_depth_eq).
  assert (literal_count e = literal_count l + literal_count r)
    by (unfold e; rewrite (literal_count_eq (MkExpr _ _)); cbn; lia).
  pose proof (ast_depth_pos l). pose proof (literal_count_nonneg r). pose proof (power_range op).
  apply (reads_extend l); [done|done|by eapply closes_infix| |lia|lia].
  intros n j min d k' sp' rest lit Hm [Hp Hs] Hd Hlit Hn. cbn in Hm, Hs. cbn [infix_loop]. run1.
  assert (is_kind TDot k = false ∧ is_kind TLeftBracket k = false ∧ is_kind TQuestion k = false)
    as (-> & -> & ->) by (rewrite !is_kind_false; by destruct k).
  cbn [orb]. rewrite Hk. rewrite (proj2 (Z.ltb_ge _ _)) by lia.
  erewrite bind_eq by (apply advance_eq; by intros ->).
  erewrite bind_eq by (eapply reads_tree_whole; [done|lia|lia|done|done|lia|lia|sizes]).
  rewrite Hmix.
  by replace (lit + literal_count l + literal_count r) with (lit + literal_count e) by lia.
Qed.

Lemma reads_conditional c t e cs ts es question colon :
  1 < level c → reads_tree c cs → reads_tree t ts → reads_tree e es →
  reads_tree (MkExpr (KConditional c t e) (from_to (expr_span c) (expr_span e)))
    (cs ++ MkToken TQuestion question :: ts ++ MkToken TColon colon :: es).
Proof.
  intros Hl Hc Ht He. set (x := MkExpr _ _).
  assert (ast_depth x = 1 + Z.max (ast_depth c) (Z.max (ast_depth t) (Z.max (ast_depth e) 0)))
    by by (unfold x; rewrite ast_depth_eq).
  assert (literal_count x = literal_count c + literal_count t + literal_count e)
    by (unfold x; rewrite (literal_count_eq (MkExpr _ _)); cbn; lia).
  pose proof (ast_depth_pos c). pose proof (literal_count_nonneg t). pose proof (literal_count_nonneg e).
  pose proof (level_range t). pose proof (level_range e).
  apply (reads_extend c); [done|cbn; lia|by apply closes_question| |lia|lia].
  intros n j min d k' sp' rest lit Hm [Hp Hs] Hd Hlit Hn. cbn in Hm, Hs. cbn [infix_loop]. run1.
  rewrite <- app_assoc in *. cbn [app] in *.
  change (is_kind TDot TQuestion || is_kind TLeftBracket TQuestion) with false.
  change (is_kind TQuestion TQuestion) with true. cbn beta iota.
  rewrite (proj2 (Z.ltb_ge _ _)) by lia. run1.
  destruct (terminator_stops TColon) as [Hs' ?]; [unfold terminator; set_solver|].
  erewrite bind_eq by (eapply reads_tree_whole; [done|lia|lia|done|done|lia|lia|sizes]).
  run1.
  erewrite bind_eq by (eapply reads_tree_whole; [done|lia|lia|done|done|lia|lia|sizes]).
  by replace (lit + literal_count c + literal_count t + literal_count e)
    with (lit + literal_count x) by lia.
Qed.

Lemma derives_reads :
  (∀ e ts, derives e ts → reads_tree e ts) ∧
  (∀ es ts, derives_elements es ts → reads_elements es ts) ∧
  (∀ es ts, derives_entries es ts → reads_entries es ts).
Proof.
  apply derives_mutind; intros;
    eauto using reads_literal, reads_variable, reads_member, reads_index, reads_array,
      reads_object, reads_unary, reads_binary, reads_conditional, reads_call, reads_group,
      elements_one_reads, elements_more_reads, entries_one_reads, entries_more_reads;
    repeat intro; done.
Qed.

End facts.

(** ** Properties *)

(** A token sequence as the lexer returns it. *)
Definition ended (tokens : list Token) : Prop :=
  ∃ ts sp, tokens = ts ++ [MkToken TEof sp] ∧ Forall (λ t, tok_kind t ≠ TEof) ts.

Lemma spells_not_eof k text : spells k text → k ≠ TEof.
Proof. intros H Hk. subst k. by inversion H. Qed.

Lemma tokens_of_ended p s ts : tokens_of p s ts → ended ts.
Proof.
  induction 1 as [p|p a s ts _ _ IH|p k text s ts Hk _ _ _ (ts' & sp & -> & IH)].
  - by eexists [], _.
  - done.
  - eexists (_ :: ts'), sp. split; [done|]. constructor; [|done]. cbn. by eapply spells_not_eof.
Qed.

Lemma ended_split ts sp ts' t rest :
  Forall (λ t, tok_kind t ≠ TEof) ts → tok_kind t = TEof →
  ts ++ [MkToken TEof sp] = ts' ++ t :: rest → ts' = ts ∧ rest = [].
Proof.
  intros Hts Ht. revert ts'. induction Hts as [|x ts Hx Hts IH]; intros [|y ts'] H; cbn in H.
  - by injection H as _ <-.
  - injection H as _ H. by destruct ts'.
  - injection H as <- _. done.
  - injection H as <- H. apply IH in H as [-> ->]. done.
Qed.

(** Parsing a lexed token sequence always ends with a tree or a reported
    error: no recursion runs out of fuel, no token is read past the end
    marker, and no [unreachable!] is reached. *)
Lemma parse_clean source field tokens limits : ended tokens → clean (parse source field tokens limits).
Proof.
  intros (ts & sp & -> & _). unfold parse. cbv zeta.
  set (env := Build_ParserEnv _ _ _). set (n := S _). set (s := Build_ParserState _ _).
  assert (live s) as Hl by by exists ts, sp.
  assert (safe (parse_all env n) s (λ _ _, True)) as Hsafe.
  { apply safe_bind. eapply safe_mono; [apply expression_safe; [done|unfold left_over; cbn; lia]|].
    cbn. intros e s1 [Hl1 _]. apply safe_bind. unfold safe at 1, lift.
    pose proof (validate_ast_depth_spec env e) as Hv. destruct (validate_ast_depth env e); [|apply Hv].
    apply safe_bind, safe_current; [done|]. intros t.
    destruct (negb _); [by apply safe_throw; eexists|done]. }
  unfold safe in Hsafe. destruct (parse_all env n s) as [[] ?]; [done|]. by intros f [= <-].
Qed.

Definition sample_tokens : list Token :=
  match lex "a + -b.c * 2 ?? [x, {k: y}] == z ? 1 : 2" None CompilationLimits_default with
  | Ok ts => ts
  | Err _ => []
  end.

(** What the parser returns is derivable and within the limits. *)
Lemma parse_sound source field ts sp limits e :
  Forall (λ t, tok_kind t ≠ TEof) ts →
  parse source field (ts ++ [MkToken TEof sp]) limits = Ok e →
  derives e ts ∧ ast_depth e ≤ max_ast_depth limits ∧
  (0 ≤ max_literal_elements limits → literal_count e ≤ max_literal_elements limits).
Proof.
  intros Hts. unfold parse. cbv zeta.
  set (env := Build_ParserEnv _ _ _). set (n := S _). set (s := Build_ParserState _ _).
  destruct (parse_all env n s) as [r s'] eqn:H. cbn. intros ->. unfold parse_all in H.
  bind_inv H e' s1 E. apply expression_sound in E as (ts' & k & Hd & Hst & _); [|lia].
  bind_inv H u s2 E. unfold lift in E. injection E as E <-.
  pose proof (validate_ast_depth_spec env e') as Hv. rewrite E in Hv.
  bind_inv H t s2 Ec. apply current_ok in Ec as (-> & rest & Hrest).
  destruct (is_kind TEof (tok_kind t)) eqn:Hk; [|done]. injection H as -> <-.
  apply is_kind_true in Hk. destruct Hst as [Hu Hc Hlim]. rewrite Hrest in Hu. cbn in Hu, Hc.
  apply ended_split in Hu as [-> ->]; [|done..]. split_and!; [done|done|]. cbn in Hlim. lia.
Qed.

(** C15. The parser accepts exactly the grammar: it returns the tree [e] for
    a token sequence if and only if the sequence is a way of writing [e],
    with the precedence and left associativity of the operators, no mixing
    of [??] with [&&] or [||], distinct object keys and correct arities,
    and [e] is within the depth and literal limits.  In particular every
    derivable sequence is accepted and has only one tree. *)
Theorem parse_exact source field ts sp limits e :
  Forall (λ t, tok_kind t ≠ TEof) ts →
  2 ≤ max_function_arguments limits → 0 ≤ max_literal_elements limits →
  parse source field (ts ++ [MkToken TEof sp]) limits = Ok e ↔
  derives e ts ∧ ast_depth e ≤ max_ast_depth limits ∧
  literal_count e ≤ max_literal_elements limits.
Proof.
  intros Hts Hargs Hlits. split; [by intros (? & ? & ?)%parse_sound; auto|].
  intros (Hd & Hdepth & Hlit). unfold parse. cbv zeta.
  set (env := Build_ParserEnv _ _ _). set (n := S _). set (s := Build_ParserState _ _). unfold parse_all.
  destruct (derives_reads env Hargs) as [Hr _]. apply Hr in Hd.
  destruct (terminator_stops TEof) as [Hs ?]; [unfold terminator; set_solver|].
  pose proof (level_range e).
  erewrite bind_eq by (eapply (reads_tree_whole env e ts n 0 1 TEof sp [] 0); [done|lia|lia|done|done|cbn; lia|cbn; lia|subst n; lia]).
  pose proof (validate_ast_depth_spec env e) as Hv.
  destruct (validate_ast_depth env e) as [[]|] eqn:Hval; [|destruct Hv as [_ Hv]; cbn in Hv; lia].
  erewrite bind_eq by done.
  by rewrite (bind_eq _ _ _ _ _ (current_eq _ _ _)).
Qed.

Definition sample_tree : Expr :=
  match parse "" None sample_tokens CompilationLimits_default with
  | Ok e => e
  | Err _ => MkExpr (KLiteral LNull) (span_at 0)
  end.

Lemma parse_exact_witness :
  derives sample_tree (take 24 sample_tokens) ∧ ast_depth sample_tree ≤ 128 ∧
  literal_count sample_tree ≤ 4096.
Proof.
  apply (parse_exact "" None (take 24 sample_tokens) (span_at 40) CompilationLimits_default sample_tree).
  - apply (bool_decide_unpack _). vm_compute. exact I.
  - done.
  - done.
  - vm_compute. reflexivity.
Defined.
