(* ===== verification/Budget.v ===== *)
(** * Evaluation budgets and bounded traversals

    The [Budget] of [expression/evaluator.rs] and the methods of
    [Evaluator] that walk JSON values: cloning, equality, ordering and the
    inspection of results.  Every method is a computation over the budget
    ([Ev]); the budget keeps what was spent when an error is raised. *)

From S2P Require Import Prelude Float64 Json Numeric ExprSyntax.

(** The mutable fields of [Budget]. *)
Record Budget := {
  fuel_remaining : Z;
  allocation_bytes : Z;
  traversed_elements : Z;
}.

(** [Budget::new]. *)
Definition budget_new (limits : EvaluationLimits) : Budget :=
  {| fuel_remaining := fuel limits; allocation_bytes := 0; traversed_elements := 0 |}.

(** [ContextView]: a JSON object, or the named roots of an [EvaluationContext]. *)
Inductive ContextView :=
| ContextValue (value : Value)
| ContextRoots (roots : gmap string Value).

Definition context_get (context : ContextView) (root : string) : Result string (option Value) :=
  match context with
  | ContextValue (VObject object) => Ok (Map.get root object)
  | ContextValue _ => Err "expression context must be an object"
  | ContextRoots roots => Ok (roots !! root)
  end.

Inductive RuntimeValue :=
| Borrowed (value : Value)
| Owned (value : Value)
| Missing (path : string).

(** [RuntimeValue::type_name]. *)
Definition type_name (v : RuntimeValue) : string :=
  match v with
  | Missing _ => "missing"
  | Borrowed value | Owned value => json_type value
  end.

(** [RuntimeValue::as_json]. *)
Definition as_json (v : RuntimeValue) : option Value :=
  match v with
  | Borrowed value | Owned value => Some value
  | Missing _ => None
  end.

(** The fields of [Evaluator] that do not change, and the limits. *)
Record EvalEnv := {
  context : ContextView;
  limits : EvaluationLimits;
  eval_source : string;
  eval_field : option string;
}.

Abbreviation Ev := (M Budget Failure).

(** [json_string_bytes]: the length of a string as JSON text. *)
Definition json_char_bytes (c : Z) : Z :=
  if (c =? 34) || (c =? 92) || (c =? 8) || (c =? 12) || (c =? 10) || (c =? 13) || (c =? 9) then 2
  else if c <=? 31 then 6
  else len_utf8 c.
Definition json_string_bytes (value : string) : Z :=
  foldl (λ bytes c, saturating_add bytes (json_char_bytes c)) 2 (chars value).

(** [path_text_len] and [write_path_text]. *)
Fixpoint path_text_len (e : Expr) : Z :=
  match e with
  | MkExpr (KVariable root) _ => len root
  | MkExpr (KMember target key) _ => saturating_add (saturating_add (path_text_len target) 1) (len key)
  | MkExpr (KIndex target _) _ => saturating_add (path_text_len target) 3
  | MkExpr (KGroup inner) _ => path_text_len inner
  | _ => 12
  end.
Fixpoint write_path_text (e : Expr) : string :=
  match e with
  | MkExpr (KVariable root) _ => root
  | MkExpr (KMember target key) _ => write_path_text target +:+ "." +:+ key
  | MkExpr (KIndex target _) _ => write_path_text target +:+ "[?]"
  | MkExpr (KGroup inner) _ => write_path_text inner
  | _ => "<expression>"
  end.

Section budget.
Context `{Externals} (env : EvalEnv).

(** [Evaluator::error] and [Evaluator::limit_error]. *)
Definition eval_error (span : SourceSpan) (message : string) : Failure :=
  Reported (error_new Evaluate (eval_field env) (eval_source env) span message).
Definition eval_error_with (span : SourceSpan) (message correction : string) : Failure :=
  Reported (with_correction
    (error_new Evaluate (eval_field env) (eval_source env) span message) correction).
Definition eval_limit_error (span : SourceSpan) (message : string) : Failure :=
  Reported (error_new Limit (eval_field env) (eval_source env) span message).

(** [.map_err(|message| self.error(span, message))]. *)
Definition at_span {A} (span : SourceSpan) (r : Result string A) : Compiled A :=
  map_err (eval_error span) r.

(** The same, for an operation that can also panic. *)
Definition numeric_at_span {A} (span : SourceSpan) (r : Result Numeric.Fault A) : Compiled A :=
  map_err (λ f, match f with Numeric.Refused message => eval_error span message | Numeric.Panicked => Panic end) r.

(** ** Charging *)

(** [Evaluator::spend_fuel]. *)
Definition spend_fuel (amount : Z) (span : SourceSpan) (purpose : string) : Ev unit := λ b,
  if fuel_remaining b <? amount then
    (Err (eval_limit_error span ("evaluation fuel exhausted while " +:+ purpose)), b)
  else
    (Ok tt, {| fuel_remaining := fuel_remaining b - amount;
               allocation_bytes := allocation_bytes b;
               traversed_elements := traversed_elements b |}).

(** [Evaluator::allocate]. *)
Definition allocate (bytes : Z) (span : SourceSpan) : Ev unit := λ b,
  match checked_add (allocation_bytes b) bytes with
  | None => (Err (eval_limit_error span "evaluation allocation counter overflow"), b)
  | Some total =>
      if max_allocation_bytes (limits env) <? total then
        (Err (eval_limit_error span
           ("evaluation exceeds cumulative allocation limit of " +:+
            pretty (max_allocation_bytes (limits env)) +:+ " bytes")), b)
      else
        (Ok tt, {| fuel_remaining := fuel_remaining b;
                   allocation_bytes := total;
                   traversed_elements := traversed_elements b |})
  end.

(** [Evaluator::traverse_element]. *)
Definition traverse_element (span : SourceSpan) : Ev unit := λ b,
  let b := {| fuel_remaining := fuel_remaining b;
              allocation_bytes := allocation_bytes b;
              traversed_elements := traversed_elements b + 1 |} in
  if max_container_elements (limits env) <? traversed_elements b then
    (Err (eval_limit_error span "container traversal element limit exceeded"), b)
  else spend_fuel 1 span "traversing container element" b.

(** [Evaluator::check_scalar]. *)
Definition check_scalar (value : string) (span : SourceSpan) : Ev unit :=
  if max_scalar_bytes (limits env) <? len value then
    throw (eval_limit_error span
      ("scalar is " +:+ pretty (len value) +:+ " bytes; limit is " +:+
       pretty (max_scalar_bytes (limits env))))
  else mret tt.

(** [Evaluator::check_produced_string]. *)
Definition check_produced_string (bytes : Z) (span : SourceSpan) : Ev unit :=
  if max_produced_string_bytes (limits env) <? bytes then
    throw (eval_limit_error span
      ("produced string is " +:+ pretty bytes +:+ " bytes; limit is " +:+
       pretty (max_produced_string_bytes (limits env))))
  else mret tt.

(** [functions::charge_elements]. *)
Definition charge_elements (count : nat) (span : SourceSpan) : Ev unit :=
  repeat_m count (traverse_element span).

(** ** Cloning *)

(** [Evaluator::clone_bounded]. *)
Fixpoint clone_bounded (value : Value) (depth : Z) (span : SourceSpan) : Ev Value :=
  if max_traversal_depth (limits env) <? depth then
    throw (eval_limit_error span "selected value exceeds traversal depth limit")
  else
    spend_fuel 1 span "materializing selected value" ;;
    match value with
    | VNull => mret VNull
    | VBool value => mret (VBool value)
    | VNumber value => mret (VNumber value)
    | VString value =>
        check_scalar value span ;;
        spend_fuel (len value) span "materializing selected string" ;;
        allocate (len value) span ;;
        mret (VString value)
    | VArray values =>
        allocate (Z.of_nat (length values) * Z.of_N size_of_Value) span ;;
        output ← try_map (λ value,
          traverse_element span ;; clone_bounded value (depth + 1) span) values ;
        mret (VArray output)
    | VObject values =>
        allocate (saturating_mul (Z.of_nat (length values)) (Z.of_N size_of_StringValue * 2)) span ;;
        output ← fold_m (λ output '(key, value),
          traverse_element span ;;
          check_scalar key span ;;
          spend_fuel (len key) span "materializing object key" ;;
          allocate (len key) span ;;
          value ← clone_bounded value (depth + 1) span ;
          mret (Map.insert key value output)) [] values ;
        mret (VObject output)
    end.

(** ** Inspecting results *)

(** [Evaluator::add_result_bytes]: [*total] is threaded through. *)
Definition add_result_bytes (total amount : Z) (span : SourceSpan) : Ev Z :=
  let total := saturating_add total amount in
  if max_result_bytes (limits env) <? total then
    throw (eval_limit_error span "result exceeds JSON byte limit")
  else spend_fuel amount span "validating serialized result bytes" ;; mret total.

(** The bytes of the brackets and commas of a container. *)
Definition container_bytes {A} (values : list A) : Z :=
  saturating_add 2 (saturating_sub (Z.of_nat (length values)) 1).

(** [Evaluator::inspect_result]: the two counters are threaded through. *)
Fixpoint inspect_result (value : Value) (depth : Z) (span : SourceSpan) (counts : Z * Z)
    : Ev (Z * Z) :=
  let '(nodes, bytes) := counts in
  if max_result_depth (limits env) <? depth then
    throw (eval_limit_error span "result exceeds JSON depth limit")
  else
    let nodes := nodes + 1 in
    if max_result_nodes (limits env) <? nodes then
      throw (eval_limit_error span "result exceeds JSON node limit")
    else
      spend_fuel 1 span "validating result value" ;;
      match value with
      | VNull => bytes ← add_result_bytes bytes 4 span ; mret (nodes, bytes)
      | VBool value =>
          bytes ← add_result_bytes bytes (if value : bool then 4 else 5) span ; mret (nodes, bytes)
      | VNumber number =>
          bytes ← add_result_bytes bytes (len (number_to_string number)) span ; mret (nodes, bytes)
      | VString value =>
          check_scalar value span ;;
          bytes ← add_result_bytes bytes (json_string_bytes value) span ;
          mret (nodes, bytes)
      | VArray values =>
          bytes ← add_result_bytes bytes (container_bytes values) span ;
          fold_m (λ counts value,
            traverse_element span ;; inspect_result value (depth + 1) span counts)
            (nodes, bytes) values
      | VObject values =>
          bytes ← add_result_bytes bytes (container_bytes values) span ;
          fold_m (λ '(nodes, bytes) '(key, value),
            traverse_element span ;;
            check_scalar key span ;;
            bytes ← add_result_bytes bytes (saturating_add (json_string_bytes key) 1) span ;
            inspect_result value (depth + 1) span (nodes, bytes))
            (nodes, bytes) values
      end.

(** [Evaluator::inspect_result_array]. *)
Definition inspect_result_array (values : list Value) (span : SourceSpan) : Ev unit :=
  if max_result_depth (limits env) <? 1 then
    throw (eval_limit_error span "result exceeds JSON depth limit")
  else if max_result_nodes (limits env) <? 1 then
    throw (eval_limit_error span "result exceeds JSON node limit")
  else
    spend_fuel 1 span "validating result value" ;;
    bytes ← add_result_bytes 0 (container_bytes values) span ;
    fold_m (λ counts value, traverse_element span ;; inspect_result value 2 span counts)
      (1, bytes) values ;;
    mret tt.

(** [Evaluator::clone_external]. *)
Definition clone_external (value : Value) (span : SourceSpan) : Ev Value :=
  value ← clone_bounded value 1 span ;
  inspect_result value 1 span (0, 0) ;;
  mret value.

(** [Evaluator::finish]. *)
Definition finish (value : RuntimeValue) (span : SourceSpan) : Ev Value :=
  value ←
    (match value with
     | Missing path =>
         throw (eval_error_with span ("required path `" +:+ path +:+ "` is missing")
           "handle an optional path with `??` or exists(...)")
     | Borrowed value => clone_bounded value 1 span
     | Owned value => mret value
     end) ;
  inspect_result value 1 span (0, 0) ;;
  mret value.

(** [Evaluator::own]. *)
Definition own (value : RuntimeValue) (span : SourceSpan) (purpose : string) : Ev Value :=
  match value with
  | Borrowed value => clone_bounded value 1 span
  | Owned value => mret value
  | Missing path =>
      throw (eval_error span (purpose +:+ " references missing path `" +:+ path +:+ "`"))
  end.

(** ** Typed access *)

(** [Evaluator::require_bool] and [Evaluator::require_number]. *)
Definition require_bool (value : RuntimeValue) (span : SourceSpan) (purpose : string)
    : Compiled bool :=
  match as_json value with
  | Some (VBool value) => Ok value
  | _ => Err (eval_error span (purpose +:+ " requires bool, received " +:+ type_name value))
  end.
Definition require_number (value : RuntimeValue) (span : SourceSpan) (purpose : string)
    : Compiled Numeric :=
  match as_json value with
  | Some (VNumber number) => at_span span (Numeric.from_json number)
  | _ => Err (eval_error span (purpose +:+ " requires number, received " +:+ type_name value))
  end.

(** [Evaluator::array_position]. *)
Definition array_position (value : Value) (span : SourceSpan) : Compiled (option Z) :=
  match value with
  | VNumber number => at_span span (Numeric.from_json number ≫= Numeric.as_array_index)
  | _ => Err (eval_error span "array index must be a non-negative integer")
  end.

(** ** Comparison *)

(** [Value == Value] on values of different types, and on null and bool. *)
Definition scalar_eq (l r : Value) : bool :=
  match l, r with
  | VNull, VNull => true
  | VBool l, VBool r => eqb l r
  | _, _ => false
  end.

(** [Evaluator::deep_equal_json]. *)
Fixpoint deep_equal_json (lhs rhs : Value) (depth : Z) (span : SourceSpan) : Ev bool :=
  spend_fuel 1 span "comparing values" ;;
  if max_traversal_depth (limits env) <? depth then
    throw (eval_limit_error span "deep equality exceeds traversal depth limit")
  else
    match lhs, rhs with
    | VNumber l, VNumber r =>
        l ← lift (at_span span (Numeric.from_json l)) ;
        r ← lift (at_span span (Numeric.from_json r)) ;
        ordering ← lift (ok_or (Numeric.compare l r) Panic) ;
        mret (bool_decide (ordering = Eq))
    | VString l, VString r =>
        check_scalar l span ;;
        check_scalar r span ;;
        spend_fuel (saturating_add (len l) (len r)) span "comparing strings" ;;
        mret (bool_decide (l = r))
    | VArray l, VArray r =>
        if negb (length l =? length r)%nat then mret false
        else
          (fix go (l r : list Value) : Ev bool :=
             match l, r with
             | x :: l, y :: r =>
                 traverse_element span ;;
                 equal ← deep_equal_json x y (depth + 1) span ;
                 if negb equal then mret false else go l r
             | _, _ => mret true
             end) l r
    | VObject l, VObject r =>
        if negb (length l =? length r)%nat then mret false
        else
          (fix go (l : list (string * Value)) : Ev bool :=
             match l with
             | (key, x) :: l =>
                 traverse_element span ;;
                 check_scalar key span ;;
                 spend_fuel (len key) span "comparing object keys" ;;
                 match Map.get key r with
                 | None => mret false
                 | Some y =>
                     equal ← deep_equal_json x y (depth + 1) span ;
                     if negb equal then mret false else go l
                 end
             | [] => mret true
             end) l
    | _, _ => mret (scalar_eq lhs rhs)
    end.

(** [Evaluator::deep_equal]. *)
Definition deep_equal (lhs rhs : RuntimeValue) (depth : Z) (span : SourceSpan) : Ev bool :=
  let missing := eval_error span "equality cannot be applied to a missing path" in
  l ← lift (ok_or (as_json lhs) missing) ;
  r ← lift (ok_or (as_json rhs) missing) ;
  deep_equal_json l r depth span.

(** [Evaluator::order]. *)
Definition order (lhs rhs : RuntimeValue) (span : SourceSpan) : Ev comparison :=
  match as_json lhs, as_json rhs with
  | Some (VNumber l), Some (VNumber r) =>
      l ← lift (at_span span (Numeric.from_json l)) ;
      r ← lift (at_span span (Numeric.from_json r)) ;
      lift (ok_or (Numeric.compare l r) Panic)
  | Some (VString l), Some (VString r) =>
      check_scalar l span ;;
      check_scalar r span ;;
      spend_fuel (saturating_add (len l) (len r)) span "ordering strings" ;;
      mret (cmp_chars (chars l) (chars r))
  | _, _ =>
      throw (eval_error span
        ("ordering requires number/number or string/string; received " +:+
         type_name lhs +:+ "/" +:+ type_name rhs))
  end.

End budget.
