(* ===== verification/Functions.v ===== *)
(** * Built-in functions

    [expression/functions.rs]: the functions of the language on values
    that are already evaluated, and canonical JSON text. *)

From S2P Require Import Prelude Float64 Json Numeric ExprSyntax Budget.

(** [sort_by_key]: stable, by byte order of the keys. *)
Fixpoint insert_by_key {A} (key : A → string) (x : A) (l : list A) : list A :=
  match l with
  | [] => [x]
  | y :: l' =>
      match String.compare (key x) (key y) with
      | Gt => y :: insert_by_key key x l'
      | _ => x :: l
      end
  end.
Definition sort_by_key {A} (key : A → string) (l : list A) : list A :=
  foldr (insert_by_key key) [] l.

(** The size of a reference and of a pair of references. *)
Definition size_of_ref : Z := 8.
Definition size_of_ref_pair : Z := 16.

Section functions.
Context `{Externals} (env : EvalEnv).

(** [push_bounded]: the extended output. *)
Definition push_bounded (output value : string) (span : SourceSpan) : Ev string :=
  check_produced_string env (saturating_add (len output) (len value)) span ;;
  allocate env (len value) span ;;
  mret (output +:+ value).

(** [HEX[n & 0xf]]. *)
Definition hex_lower (n : Z) : Ascii.ascii :=
  let d := Z.land n 15 in ascii_of_Z (if d <? 10 then 48 + d else 87 + d).

(** The text one character of a string is written as. *)
Definition json_char (c : Z) : string :=
  if c =? 34 then backslash +:+ dquote
  else if c =? 92 then backslash +:+ backslash
  else if c =? 8 then backslash +:+ "b"
  else if c =? 12 then backslash +:+ "f"
  else if c =? 10 then backslash +:+ "n"
  else if c =? 13 then backslash +:+ "r"
  else if c =? 9 then backslash +:+ "t"
  else if c <=? 31 then
    backslash +:+ "u" +:+ String (hex_lower (Z.shiftr c 12)) (String (hex_lower (Z.shiftr c 8))
      (String (hex_lower (Z.shiftr c 4)) (String (hex_lower c) EmptyString)))
  else encode_utf8 c.

(** [push_json_string]. *)
Definition push_json_string (value : string) (span : SourceSpan) (output : string) : Ev string :=
  output ← push_bounded output dquote span ;
  output ← fold_m (λ output c, push_bounded output (json_char c) span) output (chars value) ;
  push_bounded output dquote span.

(** The loop of [canonical_json] over the sorted entries of an object; an
    entry is its key and how its value is written. *)
Definition write_entry (span : SourceSpan) (first : bool) (entry : string * (string → Ev string))
    (output : string) : Ev string :=
  output ← (if first then mret output else push_bounded output "," span) ;
  check_scalar env entry.1 span ;;
  spend_fuel env (len entry.1) span "serializing object key" ;;
  output ← push_json_string entry.1 span output ;
  output ← push_bounded output ":" span ;
  entry.2 output.
Fixpoint write_entries (span : SourceSpan) (first : bool)
    (entries : list (string * (string → Ev string))) (output : string) : Ev string :=
  match entries with
  | [] => mret output
  | entry :: entries =>
      output ← write_entry span first entry output ; write_entries span false entries output
  end.

(** [canonical_json]. *)
Fixpoint canonical_json (value : Value) (span : SourceSpan) (depth : Z) (output : string)
    : Ev string :=
  if max_traversal_depth (limits env) <? depth then
    throw (eval_limit_error env span "JSON serialization depth limit exceeded")
  else
    spend_fuel env 1 span "serializing JSON" ;;
    output ←
      (match value with
       | VNull => push_bounded output "null" span
       | VBool value => push_bounded output (if value : bool then "true" else "false") span
       | VNumber number =>
           numeric ← lift (at_span env span (Numeric.from_json number)) ;
           rendered ← lift (at_span env span (Numeric.canonical numeric)) ;
           allocate env (len rendered) span ;;
           push_bounded output rendered span
       | VString value =>
           check_scalar env value span ;;
           spend_fuel env (len value) span "serializing string" ;;
           push_json_string value span output
       | VArray values =>
           output ← push_bounded output "[" span ;
           output ←
             (fix go (first : bool) (values : list Value) (output : string) : Ev string :=
                match values with
                | [] => mret output
                | value :: values =>
                    traverse_element env span ;;
                    output ← (if first then mret output else push_bounded output "," span) ;
                    output ← canonical_json value span (depth + 1) output ;
                    go false values output
                end) true values output ;
           push_bounded output "]" span
       | VObject values =>
           output ← push_bounded output "{" span ;
           allocate env (saturating_mul (Z.of_nat (length values)) size_of_ref_pair) span ;;
           charge_elements env (length values) span ;;
           let entries :=
             (λ kv, (kv.1, canonical_json kv.2 span (depth + 1))) <$> values in
           output ← write_entries span true (sort_by_key fst entries) output ;
           push_bounded output "}" span
       end) ;
    check_produced_string env (len output) span ;;
    mret output.

(** [length]. *)
Definition length_of (value : RuntimeValue) (span : SourceSpan) : Ev RuntimeValue :=
  length ←
    (match as_json value with
     | Some (VArray values) =>
         charge_elements env (length values) span ;; mret (Z.of_nat (length values))
     | Some (VObject values) =>
         charge_elements env (length values) span ;; mret (Z.of_nat (length values))
     | Some (VString value) =>
         check_scalar env value span ;;
         spend_fuel env (len value) span "counting string length" ;;
         mret (char_count value)
     | _ =>
         throw (eval_error env span
           ("length(...) requires array, object, or string; received " +:+ type_name value))
     end) ;
  let numeric := if is_i64 length then Signed length else Unsigned length in
  Owned <$> (lift (at_span env span (Numeric.to_json numeric)) : Ev Value).

(** The loop of [contains_values] over an array. *)
Definition contains_element (values : list Value) (needle : Value) (span : SourceSpan) : Ev bool :=
  (fix go values :=
     match values with
     | [] => mret false
     | value :: values =>
         traverse_element env span ;;
         equal ← deep_equal_json env value needle 1 span ;
         if equal : bool then mret true else go values
     end) values.

(** [contains_values]. *)
Definition contains_values (container needle : RuntimeValue) (span : SourceSpan)
    : Ev RuntimeValue :=
  result ←
    (match as_json container with
     | Some (VArray values) =>
         needle ← lift (ok_or (as_json needle) (eval_error env span "array membership needle is missing")) ;
         contains_element values needle span
     | Some (VObject values) =>
         match as_json needle with
         | Some (VString key) =>
             check_scalar env key span ;;
             spend_fuel env (len key) span "checking object membership" ;;
             mret (Map.contains_key key values)
         | _ => throw (eval_error env span "object membership requires a string key")
         end
     | Some (VString haystack) =>
         match as_json needle with
         | Some (VString needle) =>
             check_scalar env haystack span ;;
             check_scalar env needle span ;;
             spend_fuel env (saturating_add (len haystack) (len needle)) span
               "checking string membership" ;;
             mret (str_contains haystack needle)
         | _ => throw (eval_error env span "string membership requires a string needle")
         end
     | _ =>
         throw (eval_error env span
           ("membership requires array, object, or string container; received " +:+
            type_name container))
     end) ;
  mret (Owned (VBool result)).

(** [keys]. *)
Definition keys (value : RuntimeValue) (span : SourceSpan) : Ev RuntimeValue :=
  match as_json value with
  | Some (VObject object) =>
      charge_elements env (length object) span ;;
      bytes ← fold_m (λ bytes key,
        check_scalar env key span ;;
        check_produced_string env (len key) span ;;
        spend_fuel env (len key) span "copying object key" ;;
        mret (saturating_add bytes (len key))) 0 (Map.keys object) ;
      allocate env (saturating_add bytes
        (saturating_mul (Z.of_nat (length object)) (saturating_add size_of_ref (Z.of_N size_of_Value)))) span ;;
      mret (Owned (VArray (VString <$> sort_by_key id (Map.keys object))))
  | _ => throw (eval_error env span "keys(...) requires object")
  end.

(** [push_case_character]. *)
Definition push_case_character (character : Z) (output : string) (span : SourceSpan) : Ev string :=
  let mapped := encode_utf8 character in
  check_produced_string env (saturating_add (len output) (len mapped)) span ;;
  allocate env (len mapped) span ;;
  mret (output +:+ mapped).

(** [case]. *)
Definition case (value : RuntimeValue) (span : SourceSpan) (upper : bool) : Ev RuntimeValue :=
  match as_json value with
  | Some (VString value) =>
      check_scalar env value span ;;
      spend_fuel env (len value) span "converting string case" ;;
      output ← fold_m (λ output character,
        fold_m (λ output mapped, push_case_character mapped output span) output
          (if upper then to_uppercase character else to_lowercase character))
        EmptyString (chars value) ;
      mret (Owned (VString output))
  | _ =>
      throw (eval_error env span
        (if upper then "upper(...) requires string" else "lower(...) requires string"))
  end.

(** [stringify_json]. *)
Definition stringify_json (value : RuntimeValue) (span : SourceSpan) : Ev RuntimeValue :=
  value ← lift (ok_or (as_json value)
    (eval_error env span "string conversion received missing path")) ;
  output ← canonical_json value span 1 EmptyString ;
  check_produced_string env (len output) span ;;
  mret (Owned (VString output)).

(** A scalar text charged as [stringify_explicit] charges it. *)
Definition produced (output : string) (span : SourceSpan) : Ev string :=
  check_produced_string env (len output) span ;;
  allocate env (len output) span ;;
  mret output.

(** [stringify_explicit]. *)
Definition stringify_explicit (value : RuntimeValue) (span : SourceSpan) : Ev RuntimeValue :=
  value ← lift (ok_or (as_json value)
    (eval_error env span "string conversion received missing path")) ;
  output ←
    (match value with
     | VString value => check_scalar env value span ;; produced value span
     | VNull => produced "null" span
     | VBool value => produced (if value : bool then "true" else "false") span
     | VNumber number =>
         output ← lift (at_span env span (Numeric.from_json number ≫= Numeric.canonical)) ;
         produced output span
     | VArray _ | VObject _ => canonical_json value span 1 EmptyString
     end) ;
  check_produced_string env (len output) span ;;
  mret (Owned (VString output)).

(** [from_json]. *)
Definition from_json (value : RuntimeValue) (span : SourceSpan) : Ev RuntimeValue :=
  match as_json value with
  | Some (VString source) =>
      if max_from_json_bytes (limits env) <? len source then
        throw (eval_limit_error env span
          ("from_json input is " +:+ pretty (len source) +:+ " bytes; limit is " +:+
           pretty (max_from_json_bytes (limits env))))
      else
        spend_fuel env (len source) span "parsing JSON" ;;
        allocate env (saturating_mul (len source) 64) span ;;
        '(parsed, rest) ← lift (map_err
          (λ error, eval_error env span ("from_json parse failed: " +:+ error))
          (json_deserialize source)) ;
        lift (map_err (λ error, eval_error env span ("from_json trailing content: " +:+ error))
          (json_end rest)) ;;
        bounded ← clone_external env parsed span ;
        mret (Owned bounded)
  | _ => throw (eval_error env span "from_json(...) requires string")
  end.

(** The size limit given to the regex compiler. *)
Definition compiled_limit (pattern : string) : Z :=
  Z.max (saturating_mul (len pattern) 64) (256 * 1024).

(** [matches_regex]. *)
Definition matches_regex (value pattern : RuntimeValue) (span : SourceSpan) : Ev RuntimeValue :=
  match as_json value with
  | Some (VString haystack) =>
      match as_json pattern with
      | Some (VString pattern) =>
          if max_regex_pattern_bytes (limits env) <? len pattern then
            throw (eval_limit_error env span "regex pattern byte limit exceeded")
          else if max_regex_haystack_bytes (limits env) <? len haystack then
            throw (eval_limit_error env span "regex haystack byte limit exceeded")
          else
            spend_fuel env (saturating_add (len pattern) (len haystack)) span "matching regex" ;;
            budget ← get ;
            let remaining :=
              saturating_sub (max_allocation_bytes (limits env)) (allocation_bytes budget) in
            let reservation := saturating_mul (compiled_limit pattern) 2 in
            if remaining <? reservation then
              throw (eval_limit_error env span "regex compilation allocation limit exceeded")
            else
              allocate env reservation span ;;
              regex ← lift (map_err
                (λ error, eval_error env span ("invalid regex pattern: " +:+ error))
                (regex_build pattern (compiled_limit pattern) (compiled_limit pattern))) ;
              mret (Owned (VBool (regex_is_match regex haystack)))
      | _ => throw (eval_error env span "matches pattern must be string")
      end
  | _ => throw (eval_error env span "matches value must be string")
  end.

(** [number]. *)
Definition number (value : RuntimeValue) (span : SourceSpan) : Ev RuntimeValue :=
  numeric ←
    (match as_json value with
     | Some (VNumber number) => lift (at_span env span (Numeric.from_json number))
     | Some (VString value) =>
         check_scalar env value span ;;
         spend_fuel env (len value) span "parsing numeric string" ;;
         lift (numeric_at_span env span (Numeric.parse_string value))
     | _ =>
         throw (eval_error env span
           ("number(...) requires number or numeric string; received " +:+ type_name value))
     end) ;
  Owned <$> (lift (at_span env span (Numeric.to_json numeric)) : Ev Value).

End functions.
