(* ===== verification/Evaluator.v ===== *)
(** * The evaluator

    [Evaluator::evaluate] of [expression/evaluator.rs] with the method of
    each kind of node, and [functions::call]. *)

From S2P Require Import Prelude Float64 Json Numeric ExprSyntax Budget Functions.

Section evaluator.
Context `{Externals} (env : EvalEnv).

(** [Evaluator::literal]. *)
Definition eval_literal (literal : Literal) (span : SourceSpan) : Ev RuntimeValue :=
  value ←
    (match literal with
     | LNull => mret VNull
     | LBool value => mret (VBool value)
     | LString value =>
         check_scalar env value span ;;
         allocate env (len value) span ;;
         mret (VString value)
     | LNumber value => lift (at_span env span (Numeric.to_json value))
     end) ;
  mret (Owned value).

(** [Evaluator::variable]. *)
Definition eval_variable (name : string) (span : SourceSpan) : Ev RuntimeValue :=
  check_scalar env name span ;;
  spend_fuel env (len name) span "looking up context root" ;;
  value ← lift (at_span env span (context_get (context env) name)) ;
  match value with
  | Some value => mret (Borrowed value)
  | None => allocate env (len name) span ;; mret (Missing name)
  end.

(** [Evaluator::extend_missing]. *)
Definition extend_missing (path separator suffix : string) (span : SourceSpan) : Ev RuntimeValue :=
  allocate env (saturating_add (len separator) (len suffix)) span ;;
  mret (Missing (path +:+ separator +:+ suffix)).

(** [Evaluator::expression_missing]. *)
Definition expression_missing (target : Expr) (separator suffix : string) (span : SourceSpan)
    : Ev RuntimeValue :=
  allocate env (saturating_add (saturating_add (path_text_len target) (len separator)) (len suffix))
    span ;;
  mret (Missing (write_path_text target +:+ separator +:+ suffix)).

(** [Evaluator::validate_unknown_target_index]. *)
Definition validate_unknown_target_index (value : Value) (span : SourceSpan) : Ev unit :=
  match value with
  | VString key =>
      check_scalar env key span ;; spend_fuel env (len key) span "validating object index"
  | VNumber _ => lift (array_position env value span) ;; mret tt
  | _ => throw (eval_error env span "dynamic index must be a string or non-negative integer")
  end.

(** [Evaluator::numeric_binary]. *)
Definition numeric_binary (operator : BinaryOperator) (lhs rhs : RuntimeValue) (span : SourceSpan)
    : Compiled RuntimeValue :=
  let mismatch _ := eval_error env span
    ("numeric operator requires numbers; received " +:+ type_name lhs +:+ " and " +:+ type_name rhs) in
  l ← map_err mismatch (require_number env lhs span "numeric operator") ;
  r ← map_err mismatch (require_number env rhs span "numeric operator") ;
  result ←
    (match operator with
     | Add => numeric_at_span env span (Numeric.add l r)
     | Subtract => numeric_at_span env span (Numeric.subtract l r)
     | Multiply => numeric_at_span env span (Numeric.multiply l r)
     | Divide => numeric_at_span env span (Numeric.divide l r)
     | Remainder => numeric_at_span env span (Numeric.remainder l r)
     | _ => Err Panic
     end) ;
  Owned <$> at_span env span (Numeric.to_json result).

(** [Evaluator::add]. *)
Definition eval_add (lhs rhs : RuntimeValue) (span : SourceSpan) : Ev RuntimeValue :=
  match as_json lhs, as_json rhs with
  | Some (VString l), Some (VString r) =>
      check_scalar env l span ;;
      check_scalar env r span ;;
      length ← lift (ok_or (checked_add (len l) (len r))
        (eval_limit_error env span "string concatenation length overflow")) ;
      spend_fuel env length span "concatenating strings" ;;
      check_produced_string env length span ;;
      allocate env length span ;;
      mret (Owned (VString (l +:+ r)))
  | _, _ => lift (numeric_binary Add lhs rhs span)
  end.

Definition ordering_holds (operator : BinaryOperator) (ordering : comparison) : Compiled bool :=
  match operator with
  | Less => Ok (bool_decide (ordering = Lt))
  | LessEqual => Ok (bool_decide (ordering ≠ Gt))
  | Greater => Ok (bool_decide (ordering = Gt))
  | GreaterEqual => Ok (bool_decide (ordering ≠ Lt))
  | _ => Err Panic
  end.

(** The strict operators of [Evaluator::binary], on evaluated operands. *)
Definition eval_strict_binary (operator : BinaryOperator) (lhs rhs : RuntimeValue)
    (span : SourceSpan) : Ev RuntimeValue :=
  match operator with
  | Add => eval_add lhs rhs span
  | Subtract | Multiply | Divide | Remainder => lift (numeric_binary operator lhs rhs span)
  | Equal | NotEqual =>
      equal ← deep_equal env lhs rhs 1 span ;
      mret (Owned (VBool (if decide (operator = Equal) then equal else negb equal)))
  | Less | LessEqual | Greater | GreaterEqual =>
      ordering ← order env lhs rhs span ;
      result ← lift (ordering_holds operator ordering) ;
      mret (Owned (VBool result))
  | In => contains_values env rhs lhs span
  | And | Or | Coalesce => throw Panic
  end.

(** [RuntimeValue::Missing(_) | Borrowed(Value::Null) | Owned(Value::Null)]. *)
Definition is_nullish (value : RuntimeValue) : bool :=
  match value with
  | Missing _ | Borrowed VNull | Owned VNull => true
  | _ => false
  end.

(** The match of [Evaluator::member] on the evaluated target. *)
Definition member_of (target_value : RuntimeValue) (target : Expr) (key : string)
    (span : SourceSpan) : Ev RuntimeValue :=
  match target_value with
  | Missing path => extend_missing path "." key span
  | Borrowed VNull | Owned VNull => expression_missing target "." key span
  | Borrowed (VObject object) =>
      match Map.get key object with
      | Some value => mret (Borrowed value)
      | None => expression_missing target "." key span
      end
  | Owned (VObject object) =>
      match Map.get key object with
      | Some value => mret (Owned value)
      | None => expression_missing target "." key span
      end
  | value =>
      throw (eval_error env span
        ("cannot access field `" +:+ key +:+ "` on " +:+ type_name value +:+ "; expected object"))
  end.

Definition nth_value (values : list Value) (position : option Z) : option Value :=
  position ← position ; values !! Z.to_nat position.

(** The object arms of [Evaluator::index]. *)
Definition object_at (object : list (string * Value)) (index_json : Value) (index_span : SourceSpan)
    : Ev (option Value) :=
  match index_json with
  | VString key =>
      check_scalar env key index_span ;;
      spend_fuel env (len key) index_span "looking up object key" ;;
      mret (Map.get key object)
  | _ => throw (eval_error env index_span "object index must evaluate to a string")
  end.

(** The match of [Evaluator::index] on the evaluated target and index. *)
Definition index_of (target_value : RuntimeValue) (index_json : Value) (target : Expr)
    (index_span span : SourceSpan) : Ev RuntimeValue :=
  let or_missing (wrap : Value → RuntimeValue) (value : option Value) :=
    match value with
    | Some value => mret (wrap value)
    | None => expression_missing target "[?]" "" span
    end in
  match target_value with
  | Missing path =>
      validate_unknown_target_index index_json index_span ;;
      extend_missing path "[?]" "" span
  | Borrowed VNull | Owned VNull =>
      validate_unknown_target_index index_json index_span ;;
      expression_missing target "[?]" "" span
  | Borrowed (VArray array) =>
      position ← lift (array_position env index_json index_span) ;
      or_missing Borrowed (nth_value array position)
  | Owned (VArray array) =>
      position ← lift (array_position env index_json index_span) ;
      (match position with
       | Some position =>
           charge_elements env
             (Z.to_nat (Z.min (Z.of_nat (length array)) (saturating_add position 1))) span
       | None => mret tt
       end) ;;
      or_missing Owned (nth_value array position)
  | Borrowed (VObject object) =>
      value ← object_at object index_json index_span ; or_missing Borrowed value
  | Owned (VObject object) =>
      value ← object_at object index_json index_span ; or_missing Owned value
  | value =>
      throw (eval_error env span
        ("cannot index " +:+ type_name value +:+ "; expected array or object"))
  end.

(** The dispatch of [functions::call] on evaluated arguments. *)
Definition apply_function (function : BuiltinFunction) (values : list RuntimeValue)
    (span : SourceSpan) : Ev RuntimeValue :=
  match function, values with
  | FLength, value :: _ => length_of env value span
  | FContains, container :: needle :: _ => contains_values env container needle span
  | FKeys, value :: _ => keys env value span
  | FUpper, value :: _ => case env value span true
  | FLower, value :: _ => case env value span false
  | FJson, value :: _ => stringify_json env value span
  | FString, value :: _ => stringify_explicit env value span
  | FFromJson, value :: _ => from_json env value span
  | FType, value :: _ =>
      let name := type_name value in
      check_produced_string env (len name) span ;;
      allocate env (len name) span ;;
      mret (Owned (VString name))
  | FMatches, value :: pattern :: _ => matches_regex env value pattern span
  | FNumber, value :: _ => number env value span
  | _, _ => throw Panic
  end.

(** [Evaluator::evaluate]. *)
Fixpoint evaluate (e : Expr) : Ev RuntimeValue :=
  let 'MkExpr kind span := e in
  spend_fuel env 1 span "evaluating expression node" ;;
  match kind with
  | KLiteral literal => eval_literal literal span
  | KVariable name => eval_variable name span
  | KMember target key =>
      spend_fuel env 1 span "traversing path segment" ;;
      check_scalar env key span ;;
      spend_fuel env (len key) span "looking up object field" ;;
      target_value ← evaluate target ;
      member_of target_value target key span
  | KIndex target index =>
      spend_fuel env 1 span "traversing dynamic index" ;;
      target_value ← evaluate target ;
      index_value ← evaluate index ;
      index_json ← lift (ok_or (as_json index_value)
        (eval_error env (expr_span index) "dynamic index expression resolved to missing")) ;
      index_of target_value index_json target (expr_span index) span
  | KArray elements =>
      allocate env (Z.of_nat (length elements) * Z.of_N size_of_Value) span ;;
      output ← try_map (λ element,
        evaluated ← evaluate element ;
        own env evaluated (expr_span element) "array element") elements ;
      mret (Owned (VArray output))
  | KObject entries =>
      allocate env (saturating_mul (Z.of_nat (length entries)) (Z.of_N size_of_StringValue * 2)) span ;;
      output ← fold_m (λ output '(key, expression),
        check_scalar env key (expr_span expression) ;;
        allocate env (len key) (expr_span expression) ;;
        evaluated ← evaluate expression ;
        value ← own env evaluated (expr_span expression) "object value" ;
        mret (Map.insert key value output)) [] entries ;
      mret (Owned (VObject output))
  | KUnary operator operand =>
      value ← evaluate operand ;
      match operator with
      | Not =>
          b ← lift (require_bool env value (expr_span operand) "operator `!`") ;
          mret (Owned (VBool (negb b)))
      | Plus | Minus =>
          number ← lift (require_number env value (expr_span operand) "unary numeric operator") ;
          result ← lift (numeric_at_span env span
            (if decide (operator = Plus) then Numeric.positive number else Numeric.negate number)) ;
          value ← lift (at_span env span (Numeric.to_json result)) ;
          mret (Owned value)
      end
  | KBinary And lhs rhs =>
      left_value ← evaluate lhs ;
      l ← lift (require_bool env left_value (expr_span lhs) "operator `&&`") ;
      if negb l then mret (Owned (VBool false))
      else
        right_value ← evaluate rhs ;
        r ← lift (require_bool env right_value (expr_span rhs) "operator `&&`") ;
        mret (Owned (VBool r))
  | KBinary Or lhs rhs =>
      left_value ← evaluate lhs ;
      l ← lift (require_bool env left_value (expr_span lhs) "operator `||`") ;
      if l : bool then mret (Owned (VBool true))
      else
        right_value ← evaluate rhs ;
        r ← lift (require_bool env right_value (expr_span rhs) "operator `||`") ;
        mret (Owned (VBool r))
  | KBinary Coalesce lhs rhs =>
      left_value ← evaluate lhs ;
      if is_nullish left_value then evaluate rhs else mret left_value
  | KBinary operator lhs rhs =>
      left_value ← evaluate lhs ;
      right_value ← evaluate rhs ;
      eval_strict_binary operator left_value right_value span
  | KConditional condition then_branch else_branch =>
      condition_value ← evaluate condition ;
      b ← lift (require_bool env condition_value (expr_span condition) "ternary condition") ;
      if b : bool then evaluate then_branch else evaluate else_branch
  | KCall FExists (argument :: _) =>
      value ← evaluate argument ;
      mret (Owned (VBool (match value with Borrowed _ | Owned _ => true | Missing _ => false end)))
  | KCall function arguments =>
      allocate env (Z.of_nat (length arguments) * Z.of_N size_of_RuntimeValue) span ;;
      values ← try_map (λ argument,
        value ← evaluate argument ;
        match value with
        | Missing path =>
            throw (eval_error env (expr_span argument)
              ("function `" +:+ function_name function +:+ "` received missing path `" +:+ path +:+ "`"))
        | _ => mret value
        end) arguments ;
      apply_function function values span
  | KGroup inner => evaluate inner
  end.

End evaluator.
