(* ===== verification/Denotation.v ===== *)
(** * What an expression means

    The meaning of an expression in a context, without budgets or limits:
    a value, the path of a missing reference, or an error.  [Refinement.v]
    shows that the evaluator computes it.  A meaning is a [RuntimeValue]
    that is never borrowed. *)

From S2P Require Import Prelude Float64 Json Numeric ExprSyntax Budget Functions Evaluator.

(** ** Values *)

(** The number a JSON number denotes. *)
Definition numeric_of (n : Number) : Numeric :=
  match n with
  | PosInt z => if z <=? i64_max then Signed z else Unsigned z
  | NegInt z => Signed z
  | Float f => Decimal (Numeric.normalize_zero f)
  end.

(** The order of two numbers.  Those of JSON values are finite, so that
    they always compare. *)
Definition number_order (l r : Number) : comparison :=
  from_option id Eq (Numeric.compare (numeric_of l) (numeric_of r)).

(** Equality of JSON values: numbers by value, objects by their entries. *)
Fixpoint value_equal (l r : Value) : bool :=
  match l, r with
  | VNull, VNull => true
  | VBool l, VBool r => eqb l r
  | VNumber l, VNumber r => bool_decide (number_order l r = Eq)
  | VString l, VString r => bool_decide (l = r)
  | VArray l, VArray r =>
      (fix go (l r : list Value) : bool :=
         match l, r with
         | [], [] => true
         | x :: l, y :: r => value_equal x y && go l r
         | _, _ => false
         end) l r
  | VObject l, VObject r =>
      (length l =? length r)%nat &&
      (fix go (l : list (string * Value)) : bool :=
         match l with
         | [] => true
         | (key, x) :: l =>
             match Map.get key r with Some y => value_equal x y | None => false end && go l
         end) l
  | _, _ => false
  end.

Fixpoint join (separator : string) (parts : list string) : string :=
  match parts with
  | [] => EmptyString
  | [part] => part
  | part :: parts => part +:+ separator +:+ join separator parts
  end.

Section text.
Context `{Externals}.

(** JSON text of a string, a number and a value. *)
Definition json_string (s : string) : string :=
  dquote +:+ foldr (λ c out, json_char c +:+ out) EmptyString (chars s) +:+ dquote.
Definition number_text (n : Number) : string :=
  match n with
  | PosInt z | NegInt z => pretty z
  | Float f => fmt_f64 (Numeric.normalize_zero f)
  end.
Fixpoint json_text (v : Value) : string :=
  match v with
  | VNull => "null"
  | VBool b => if b then "true" else "false"
  | VNumber n => number_text n
  | VString s => json_string s
  | VArray vs =>
      "[" +:+ join "," (json_text <$> vs)
          +:+ "]"
  | VObject m =>
      "{" +:+ join ","
        ((λ entry, json_string entry.1 +:+ ":" +:+ entry.2) <$>
         sort_by_key fst ((λ kv, (kv.1, json_text kv.2)) <$> m))
          +:+ "}"
  end.

(** The compact text [serde_json] writes for a value. *)
Fixpoint serialize (v : Value) : string :=
  match v with
  | VNull => "null"
  | VBool b => if b then "true" else "false"
  | VNumber n => number_to_string n
  | VString s => json_string s
  | VArray vs =>
      "[" +:+ join "," (serialize <$> vs)
          +:+ "]"
  | VObject m =>
      "{" +:+ join ","
((λ kv, json_string kv.1 +:+ ":" +:+ serialize kv.2) <$> m)
          +:+ "}"
  end.

(** Values inside a value, itself included, and their nesting. *)
Fixpoint node_count (v : Value) : Z :=
  match v with
  | VArray vs => 1 + (fix go l := match l with [] => 0 | v :: l => node_count v + go l end) vs
  | VObject m => 1 + (fix go l := match l with [] => 0 | (_, v) :: l => node_count v + go l end) m
  | _ => 1
  end.
Fixpoint value_depth (v : Value) : Z :=
  match v with
  | VArray vs => 1 + (fix go l := match l with [] => 0 | v :: l => Z.max (value_depth v) (go l) end) vs
  | VObject m =>
      1 + (fix go l := match l with [] => 0 | (_, v) :: l => Z.max (value_depth v) (go l) end) m
  | _ => 1
  end.

End text.

(** ** Expressions *)

Section denotation.
Context `{Externals} (env : EvalEnv).

Abbreviation error := (eval_error env).

Definition present (v : option Value) (path : string) : RuntimeValue :=
  match v with Some v => Owned v | None => Missing path end.

Definition number_value (span : SourceSpan) (n : Result Numeric.Fault Numeric) : Compiled RuntimeValue :=
  n ← numeric_at_span env span n ; Owned <$> at_span env span (Numeric.to_json n).

Definition member_meaning (target_value : RuntimeValue) (target : Expr) (key : string)
    (span : SourceSpan) : Compiled RuntimeValue :=
  match target_value with
  | Missing path => Ok (Missing (path +:+ "." +:+ key))
  | Borrowed VNull | Owned VNull => Ok (Missing (write_path_text target +:+ "." +:+ key))
  | Borrowed (VObject m) | Owned (VObject m) =>
      Ok (present (Map.get key m) (write_path_text target +:+ "." +:+ key))
  | v => Err (error span
           ("cannot access field `" +:+ key +:+ "` on " +:+ type_name v +:+ "; expected object"))
  end.

(** An index that fits neither an array nor an object is an error even
    when the target is missing. *)
Definition check_index (index : Value) (span : SourceSpan) : Compiled unit :=
  match index with
  | VString _ => Ok tt
  | VNumber _ => array_position env index span ;; Ok tt
  | _ => Err (error span "dynamic index must be a string or non-negative integer")
  end.

Definition index_meaning (target_value : RuntimeValue) (index : Value) (target : Expr)
    (index_span span : SourceSpan) : Compiled RuntimeValue :=
  let path := write_path_text target +:+ "[?]" in
  match target_value with
  | Missing path => check_index index index_span ;; Ok (Missing (path +:+ "[?]"))
  | Borrowed VNull | Owned VNull => check_index index index_span ;; Ok (Missing path)
  | Borrowed (VArray l) | Owned (VArray l) =>
      position ← array_position env index index_span ; Ok (present (nth_value l position) path)
  | Borrowed (VObject m) | Owned (VObject m) =>
      match index with
      | VString key => Ok (present (Map.get key m) path)
      | _ => Err (error index_span "object index must evaluate to a string")
      end
  | v => Err (error span ("cannot index " +:+ type_name v +:+ "; expected array or object"))
  end.

Definition order_meaning (l r : RuntimeValue) (span : SourceSpan) : Compiled comparison :=
  match as_json l, as_json r with
  | Some (VNumber l), Some (VNumber r) => Ok (number_order l r)
  | Some (VString l), Some (VString r) => Ok (cmp_chars (chars l) (chars r))
  | _, _ => Err (error span
      ("ordering requires number/number or string/string; received " +:+
       type_name l +:+ "/" +:+ type_name r))
  end.

Definition contains_meaning (container needle : RuntimeValue) (span : SourceSpan)
    : Compiled RuntimeValue :=
  match as_json container with
  | Some (VArray vs) =>
      needle ← ok_or (as_json needle) (error span "array membership needle is missing") ;
      Ok (Owned (VBool (existsb (λ v, value_equal v needle) vs)))
  | Some (VObject m) =>
      match as_json needle with
      | Some (VString key) => Ok (Owned (VBool (Map.contains_key key m)))
      | _ => Err (error span "object membership requires a string key")
      end
  | Some (VString haystack) =>
      match as_json needle with
      | Some (VString needle) => Ok (Owned (VBool (str_contains haystack needle)))
      | _ => Err (error span "string membership requires a string needle")
      end
  | _ => Err (error span
      ("membership requires array, object, or string container; received " +:+ type_name container))
  end.

(** Arithmetic takes two numbers. *)
Definition number_operand (v : RuntimeValue) : option Numeric :=
  match as_json v with
  | Some (VNumber n) => match Numeric.from_json n with Ok n => Some n | Err _ => None end
  | _ => None
  end.
Definition arithmetic_operation (op : BinaryOperator) : option (Numeric → Numeric → Result Numeric.Fault Numeric) :=
  match op with
  | Add => Some Numeric.add
  | Subtract => Some Numeric.subtract
  | Multiply => Some Numeric.multiply
  | Divide => Some Numeric.divide
  | Remainder => Some Numeric.remainder
  | _ => None
  end.
Definition numeric_meaning (op : BinaryOperator) (l r : RuntimeValue) (span : SourceSpan)
    : Compiled RuntimeValue :=
  match number_operand l, number_operand r with
  | Some x, Some y =>
      match arithmetic_operation op with
      | Some f => number_value span (f x y)
      | None => Err Panic
      end
  | _, _ => Err (error span
      ("numeric operator requires numbers; received " +:+ type_name l +:+ " and " +:+ type_name r))
  end.

Definition binary_meaning (op : BinaryOperator) (l r : RuntimeValue) (span : SourceSpan)
    : Compiled RuntimeValue :=
  let missing := error span "equality cannot be applied to a missing path" in
  match op with
  | Add =>
      match as_json l, as_json r with
      | Some (VString l), Some (VString r) => Ok (Owned (VString (l +:+ r)))
      | _, _ => numeric_meaning Add l r span
      end
  | Subtract | Multiply | Divide | Remainder => numeric_meaning op l r span
  | Equal =>
      l ← ok_or (as_json l) missing ; r ← ok_or (as_json r) missing ;
      Ok (Owned (VBool (value_equal l r)))
  | NotEqual =>
      l ← ok_or (as_json l) missing ; r ← ok_or (as_json r) missing ;
      Ok (Owned (VBool (negb (value_equal l r))))
  | Less => c ← order_meaning l r span ; Ok (Owned (VBool (bool_decide (c = Lt))))
  | LessEqual => c ← order_meaning l r span ; Ok (Owned (VBool (bool_decide (c ≠ Gt))))
  | Greater => c ← order_meaning l r span ; Ok (Owned (VBool (bool_decide (c = Gt))))
  | GreaterEqual => c ← order_meaning l r span ; Ok (Owned (VBool (bool_decide (c ≠ Lt))))
  | In => contains_meaning r l span
  | And | Or | Coalesce => Err Panic
  end.

(** The functions of the language on present arguments. *)
Definition function_meaning (f : BuiltinFunction) (arguments : list Value) (span : SourceSpan)
    : Compiled RuntimeValue :=
  match f, arguments with
  | FLength, v :: _ =>
      match v with
      | VArray l => number_value span (Ok (Signed (Z.of_nat (length l))))
      | VObject m => number_value span (Ok (Signed (Z.of_nat (length m))))
      | VString s => number_value span (Ok (Signed (char_count s)))
      | _ => Err (error span
          ("length(...) requires array, object, or string; received " +:+ json_type v))
      end
  | FContains, container :: needle :: _ => contains_meaning (Owned container) (Owned needle) span
  | FKeys, v :: _ =>
      match v with
      | VObject m => Ok (Owned (VArray (VString <$> sort_by_key id (Map.keys m))))
      | _ => Err (error span "keys(...) requires object")
      end
  | FUpper, v :: _ =>
      match v with
      | VString s => Ok (Owned (VString (str_of_chars (chars s ≫= to_uppercase))))
      | _ => Err (error span "upper(...) requires string")
      end
  | FLower, v :: _ =>
      match v with
      | VString s => Ok (Owned (VString (str_of_chars (chars s ≫= to_lowercase))))
      | _ => Err (error span "lower(...) requires string")
      end
  | FJson, v :: _ => Ok (Owned (VString (json_text v)))
  | FString, v :: _ => Ok (Owned (VString (match v with VString s => s | _ => json_text v end)))
  | FFromJson, v :: _ =>
      match v with
      | VString s =>
          '(parsed, rest) ← map_err (λ e, error span ("from_json parse failed: " +:+ e))
                              (json_deserialize s) ;
          map_err (λ e, error span ("from_json trailing content: " +:+ e)) (json_end rest) ;;
          Ok (Owned parsed)
      | _ => Err (error span "from_json(...) requires string")
      end
  | FType, v :: _ => Ok (Owned (VString (json_type v)))
  | FMatches, v :: pattern :: _ =>
      match v with
      | VString haystack =>
          match pattern with
          | VString pattern =>
              regex ← map_err (λ e, error span ("invalid regex pattern: " +:+ e))
                        (regex_build pattern (compiled_limit pattern) (compiled_limit pattern)) ;
              Ok (Owned (VBool (regex_is_match regex haystack)))
          | _ => Err (error span "matches pattern must be string")
          end
      | _ => Err (error span "matches value must be string")
      end
  | FNumber, v :: _ =>
      match v with
      | VNumber n => number_value span (Ok (numeric_of n))
      | VString s => number_value span (Numeric.parse_string s)
      | _ => Err (error span
          ("number(...) requires number or numeric string; received " +:+ json_type v))
      end
  | _, _ => Err Panic
  end.

(** The value of an array element or an object entry. *)
Definition stored (v : RuntimeValue) (span : SourceSpan) (purpose : string) : Compiled Value :=
  match v with
  | Borrowed v | Owned v => Ok v
  | Missing path => Err (error span (purpose +:+ " references missing path `" +:+ path +:+ "`"))
  end.

Definition result_map {A B} (f : A → Compiled B) : list A → Compiled (list B) :=
  fix go l :=
    match l with
    | [] => Ok []
    | x :: l => y ← f x ; ys ← go l ; Ok (y :: ys)
    end.

Fixpoint denote (e : Expr) : Compiled RuntimeValue :=
  let 'MkExpr kind span := e in
  match kind with
  | KLiteral LNull => Ok (Owned VNull)
  | KLiteral (LBool b) => Ok (Owned (VBool b))
  | KLiteral (LString s) => Ok (Owned (VString s))
  | KLiteral (LNumber n) => Owned <$> at_span env span (Numeric.to_json n)
  | KVariable name =>
      v ← at_span env span (context_get (context env) name) ; Ok (present v name)
  | KMember target key => v ← denote target ; member_meaning v target key span
  | KIndex target index =>
      v ← denote target ;
      i ← denote index ;
      i ← ok_or (as_json i)
            (error (expr_span index) "dynamic index expression resolved to missing") ;
      index_meaning v i target (expr_span index) span
  | KArray elements =>
      vs ← result_map (λ e, v ← denote e ; stored v (expr_span e) "array element") elements ;
      Ok (Owned (VArray vs))
  | KObject entries =>
      kvs ← result_map (λ '(key, e),
        v ← denote e ; v ← stored v (expr_span e) "object value" ; Ok (key, v)) entries ;
      Ok (Owned (VObject (foldl (λ m '(key, v), Map.insert key v m) [] kvs)))
  | KUnary Not operand =>
      v ← denote operand ;
      b ← require_bool env v (expr_span operand) "operator `!`" ;
      Ok (Owned (VBool (negb b)))
  | KUnary Plus operand =>
      v ← denote operand ;
      n ← require_number env v (expr_span operand) "unary numeric operator" ;
      number_value span (Numeric.positive n)
  | KUnary Minus operand =>
      v ← denote operand ;
      n ← require_number env v (expr_span operand) "unary numeric operator" ;
      number_value span (Numeric.negate n)
  | KBinary And lhs rhs =>
      l ← denote lhs ;
      l ← require_bool env l (expr_span lhs) "operator `&&`" ;
      if negb l then Ok (Owned (VBool false))
      else
        r ← denote rhs ;
        r ← require_bool env r (expr_span rhs) "operator `&&`" ;
        Ok (Owned (VBool r))
  | KBinary Or lhs rhs =>
      l ← denote lhs ;
      l ← require_bool env l (expr_span lhs) "operator `||`" ;
      if l : bool then Ok (Owned (VBool true))
      else
        r ← denote rhs ;
        r ← require_bool env r (expr_span rhs) "operator `||`" ;
        Ok (Owned (VBool r))
  | KBinary Coalesce lhs rhs =>
      l ← denote lhs ; if is_nullish l then denote rhs else Ok l
  | KBinary op lhs rhs =>
      l ← denote lhs ; r ← denote rhs ; binary_meaning op l r span
  | KConditional c t e =>
      b ← denote c ;
      b ← require_bool env b (expr_span c) "ternary condition" ;
      if b : bool then denote t else denote e
  | KCall FExists (argument :: _) =>
      v ← denote argument ;
      Ok (Owned (VBool (match v with Missing _ => false | _ => true end)))
  | KCall f arguments =>
      vs ← result_map (λ e,
        v ← denote e ;
        match v with
        | Borrowed v | Owned v => Ok v
        | Missing path =>
            Err (error (expr_span e)
              ("function `" +:+ function_name f +:+ "` received missing path `" +:+ path +:+ "`"))
        end) arguments ;
      function_meaning f vs span
  | KGroup inner => denote inner
  end.

Lemma numeric_meaning_exact op l r span : numeric_meaning op l r span = numeric_binary env op l r span.
Proof.
  unfold numeric_meaning, numeric_binary, number_operand, require_number, number_value, at_span.
  destruct (as_json l) as [[| |x| | |]|]; try done. destruct (Numeric.from_json x) as [x'|]; [|done]. cbn.
  destruct (as_json r) as [[| |y| | |]|]; try done. destruct (Numeric.from_json y) as [y'|]; [|done]. by destruct op.
Qed.

End denotation.
