(* ===== verification/Refinement.v ===== *)
(** * The evaluator computes the meaning of expressions

    A budgeted computation [runs] a pure one when, from any budget, it
    returns what the pure computation returns, raises the same error, or
    stops with a limit error; in every case the budget only shrinks, and
    what it returned is covered by the bytes it charged.  The relation
    composes, and every method of the evaluator is shown to satisfy it. *)

From S2P Require Import Prelude Float64 Json Numeric ExprSyntax Budget Functions Evaluator Denotation.

(** ** Budgets only shrink *)

(** The counter of traversed elements is incremented before it is compared
    with its limit, so the increment that fails is still counted:
    [overshoot] is one for a failure and nothing for a success. *)
Definition overshoot {A} (o : Compiled A) : Z := match o with Ok _ => 0 | Err _ => 1 end.

Record spent (limits : EvaluationLimits) (past : Z) (b b' : Budget) : Prop := {
  spent_fuel : fuel_remaining b' ≤ fuel_remaining b;
  spent_fuel_nonneg : 0 ≤ fuel_remaining b → 0 ≤ fuel_remaining b';
  spent_allocation : allocation_bytes b ≤ allocation_bytes b';
  spent_allocation_max :
    allocation_bytes b ≤ max_allocation_bytes limits →
    allocation_bytes b' ≤ max_allocation_bytes limits;
  spent_traversed : traversed_elements b ≤ traversed_elements b';
  spent_traversed_max :
    traversed_elements b' ≤ Z.max (traversed_elements b) (max_container_elements limits) + past;
}.

Lemma spent_refl limits past b : 0 ≤ past → spent limits past b b.
Proof. intros. split; lia. Qed.
Lemma overshoot_nonneg {A} (o : Compiled A) : 0 ≤ overshoot o.
Proof. by destruct o. Qed.
Lemma spent_trans limits past b1 b2 b3 :
  spent limits 0 b1 b2 → spent limits past b2 b3 → spent limits past b1 b3.
Proof. intros [] []. split; lia. Qed.
#[export] Hint Extern 0 (spent _ _ ?b ?b) =>
  (apply spent_refl; first [apply overshoot_nonneg | done]) : core.

(** ** Good values and their weight *)

(** Objects in key order and floats finite: what [serde_json] builds. *)
Fixpoint good (v : Value) : Prop :=
  match v with
  | VNull | VBool _ | VString _ => True
  | VNumber n => match n with Float f => F64.is_finite f = true | _ => True end
  | VArray vs => (fix go l := match l with [] => True | v :: l => good v ∧ go l end) vs
  | VObject m =>
      Map.sorted m ∧
      (fix go l := match l with [] => True | (_, v) :: l => good v ∧ go l end) m
  end.

Section weight.
Context `{Externals}.

(** Bytes of the strings and containers of a value, as they are charged. *)
Fixpoint weight (v : Value) : Z :=
  match v with
  | VNull | VBool _ | VNumber _ => 0
  | VString s => len s
  | VArray vs =>
      Z.of_nat (length vs) * Z.of_N size_of_Value +
      (fix go l := match l with [] => 0 | v :: l => weight v + go l end) vs
  | VObject m =>
      saturating_mul (Z.of_nat (length m)) (Z.of_N size_of_StringValue * 2) +
      (fix go l := match l with [] => 0 | (k, v) :: l => len k + weight v + go l end) m
  end.
Definition weights (vs : list Value) : Z := foldr (λ v, Z.add (weight v)) 0 vs.
Definition entry_weights (m : list (string * Value)) : Z :=
  foldr (λ kv, Z.add (len kv.1 + weight kv.2)) 0 m.

Lemma weight_array vs :
  weight (VArray vs) = Z.of_nat (length vs) * Z.of_N size_of_Value + weights vs.
Proof. done. Qed.
Lemma weight_object m :
  weight (VObject m) =
  saturating_mul (Z.of_nat (length m)) (Z.of_N size_of_StringValue * 2) + entry_weights m.
Proof. cbn. f_equal. unfold entry_weights. induction m as [|[k v] m IH]; cbn; [done|]. by rewrite IH. Qed.

Lemma saturating_mul_nonneg a b : 0 ≤ a → 0 ≤ b → 0 ≤ saturating_mul a b.
Proof. intros. unfold saturating_mul, usize_max. nia. Qed.
Lemma saturating_mul_mono a a' b : a ≤ a' → 0 ≤ b → saturating_mul a b ≤ saturating_mul a' b.
Proof. intros. unfold saturating_mul. nia. Qed.

Lemma weight_nonneg v : 0 ≤ weight v.
Proof.
  induction v as [| | |s|vs IH|m IH] using Value_ind; [done|done|done|apply len_nonneg|..].
  - rewrite weight_array. assert (0 ≤ weights vs); [|nia].
    induction IH; cbn; [done|]. unfold weights in *. lia.
  - rewrite weight_object.
    assert (0 ≤ entry_weights m).
    { induction IH as [|[k v] m]; cbn in *; [done|]. unfold entry_weights in *.
      pose proof (len_nonneg k). lia. }
    pose proof (saturating_mul_nonneg (Z.of_nat (length m)) (Z.of_N size_of_StringValue * 2)). lia.
Qed.

Lemma weights_elem v vs : v ∈ vs → weight v ≤ weights vs.
Proof.
  induction 1 as [v vs|v w vs _ IH]; cbn; change (foldr (λ v, Z.add (weight v)) 0 vs) with (weights vs).
  - assert (0 ≤ weights vs); [|lia]. clear. induction vs as [|x vs IH]; [done|].
    cbn. pose proof (weight_nonneg x). unfold weights in *. lia.
  - pose proof (weight_nonneg w). lia.
Qed.
Lemma entry_weights_nonneg m : 0 ≤ entry_weights m.
Proof.
  induction m as [|[k v] m IH]; [done|]. cbn. pose proof (weight_nonneg v). pose proof (len_nonneg k).
  unfold entry_weights in *. lia.
Qed.
Lemma entry_weights_elem k v m : (k, v) ∈ m → weight v ≤ entry_weights m.
Proof.
  induction m as [|[k' v'] m IH]; [by intros ?%not_elem_of_nil|].
  pose proof (entry_weights_nonneg m) as Hn. pose proof (weight_nonneg v'). pose proof (len_nonneg k').
  rewrite elem_of_cons. intros [[= <- <-]|Hin]; cbn; fold (entry_weights m); [lia|].
  apply IH in Hin. lia.
Qed.

Lemma weight_nth vs i v : vs !! i = Some v → weight v ≤ weight (VArray vs).
Proof.
  intros Hv%list_elem_of_lookup_2%weights_elem. rewrite weight_array. nia.
Qed.
Lemma weight_get k m v : Map.get k m = Some v → weight v ≤ weight (VObject m).
Proof.
  intros Hv%MapFacts.get_In%entry_weights_elem. rewrite weight_object.
  pose proof (saturating_mul_nonneg (Z.of_nat (length m)) (Z.of_N size_of_StringValue * 2)). lia.
Qed.

End weight.

Lemma good_array vs : good (VArray vs) ↔ Forall good vs.
Proof. cbn. induction vs; rewrite ?Forall_nil, ?Forall_cons; [done|]. by rewrite IHvs. Qed.
Lemma good_object m : good (VObject m) ↔ Map.sorted m ∧ Forall (λ kv, good kv.2) m.
Proof.
  cbn. f_equiv. induction m as [|[k v] m IH]; rewrite ?Forall_nil, ?Forall_cons; [done|]. by rewrite IH.
Qed.
Lemma good_get k m v : good (VObject m) → Map.get k m = Some v → good v.
Proof.
  intros [_ Hm]%good_object Hv%MapFacts.get_In. rewrite Forall_forall in Hm. by apply (Hm (k, v)).
Qed.
Lemma good_nth vs i v : good (VArray vs) → vs !! i = Some v → good v.
Proof. intros Hvs%good_array Hv. by eapply Forall_lookup_1. Qed.
Lemma good_wf v : wf_value v → good v.
Proof.
  induction v as [| | | |vs IH|m IH] using Value_ind; inversion 1; subst; try done.
  - destruct n; cbn; [done|done|]. by destruct H1.
  - apply good_array. rewrite Forall_forall in *. auto.
  - apply good_object. split; [done|]. rewrite Forall_forall in *. auto.
Qed.

(** ** Runs *)

Definition is_limit (f : Failure) : Prop := ∃ e, f = Reported e ∧ err_phase e = Limit.

Section runs.
Context `{Externals} (env : EvalEnv).

(** [R c a x]: the value [a] agrees with the pure result [x], and [c] bytes
    were charged on the way. *)
Definition runs {A B} (m : Ev A) (r : Compiled B) (R : Z → A → B → Prop) : Prop :=
  ∀ b, let '(o, b') := m b in
    spent (limits env) (overshoot o) b b' ∧
    match o with
    | Ok a => ∃ x, r = Ok x ∧ R (allocation_bytes b' - allocation_bytes b) a x
    | Err f => is_limit f ∨ r = Err f
    end.

(** A computation without a result that charges [n] bytes. *)
Definition charges (m : Ev unit) (n : Z) : Prop := runs m (Ok tt) (λ c _ _, c = n).

Lemma runs_ret {A B} (a : A) (x : B) (R : Z → A → B → Prop) : R 0 a x → runs (mret a) (Ok x) R.
Proof. intros HR b. split; [done|]. exists x. split; [done|]. by rewrite Z.sub_diag. Qed.

Lemma runs_ok_inv {A B} (m : Ev A) (x : B) R : runs m (Ok x) R → runs m (Ok x) (λ c a y, y = x ∧ R c a y).
Proof.
  intros Hm b. specialize (Hm b). destruct (m b) as [[a|e] b1]; [|done].
  destruct Hm as (Hsp & y & [= ->] & HR). split; [done|]. by exists y.
Qed.

Lemma runs_bind {A A' B B'} (m : Ev A) (r : Compiled B) R (f : A → Ev A') (g : B → Compiled B') R' :
  runs m r R → (∀ c a x, 0 ≤ c → R c a x → runs (f a) (g x) (λ c', R' (c + c'))) →
  runs (m ≫= f) (r ≫= g) R'.
Proof.
  intros Hm Hf b. specialize (Hm b). unfold mbind, m_bind, result_bind.
  destruct (m b) as [[a|e] b1]; destruct Hm as [Hsp Hm].
  - destruct Hm as (x & -> & HR). pose proof (spent_allocation _ _ _ _ Hsp) as Ha.
    assert (0 ≤ allocation_bytes b1 - allocation_bytes b) as Hc by lia.
    specialize (Hf _ _ _ Hc HR b1). destruct (f a b1) as [o b2].
    destruct Hf as [Hsp2 Hf]. split; [by eapply spent_trans; [exact Hsp|]|].
    destruct o; [|done]. destruct Hf as (y & -> & HR'). exists y. split; [done|].
    by replace (allocation_bytes b2 - allocation_bytes b) with
      (allocation_bytes b1 - allocation_bytes b + (allocation_bytes b2 - allocation_bytes b1)) by lia.
  - split; [done|]. destruct Hm as [?| ->]; [by left|by right].
Qed.

(** The pure counterpart does not depend on the intermediate value. *)
Lemma runs_bind_ok {A A' B B'} (m : Ev A) (x : B) R (f : A → Ev A') (r : Compiled B') R' :
  runs m (Ok x) R → (∀ c a, 0 ≤ c → R c a x → runs (f a) r (λ c', R' (c + c'))) →
  runs (m ≫= f) r R'.
Proof.
  intros Hm Hf. change r with ((Ok x : Compiled B) ≫= λ _, r).
  eapply runs_bind; [exact (runs_ok_inv _ _ _ Hm)|]. cbn. intros c a y Hc [-> HR]. auto.
Qed.

Lemma runs_mono {A B} (m : Ev A) (r : Compiled B) (R R' : Z → A → B → Prop) :
  runs m r R → (∀ c a x, 0 ≤ c → R c a x → R' c a x) → runs m r R'.
Proof.
  intros Hm HR b. specialize (Hm b). destruct (m b) as [[a|e] b1]; [|done].
  destruct Hm as (Hsp & x & -> & HRx). split; [done|]. exists x. split; [done|].
  apply HR; [|done]. destruct Hsp. lia.
Qed.

Lemma runs_charge {A B} (m : Ev unit) n (k : Ev A) (r : Compiled B) R :
  charges m n → runs k r (λ c, R (n + c)) → runs (m ;; k) r R.
Proof.
  intros Hm Hk. change r with ((Ok tt : Compiled unit) ≫= λ _, r).
  eapply runs_bind; [exact Hm|]. by intros c [] [] _ ->.
Qed.

Lemma runs_throw {A B} f (R : Z → A → B → Prop) : runs (throw f) (Err f) R.
Proof. intros b. split; [done|]. by right. Qed.
Lemma runs_bind_throw {A A' B} f (k : A → Ev A') (R : Z → A' → B → Prop) :
  runs (throw f ≫= k) (Err f) R.
Proof. intros b. split; [done|]. by right. Qed.
Lemma runs_limit {A B} sp msg (r : Compiled B) (R : Z → A → B → Prop) :
  runs (throw (eval_limit_error env sp msg)) r R.
Proof. intros b. split; [done|]. left. by eexists. Qed.
Lemma runs_guard {A B} (g : bool) sp msg (k : Ev A) (r : Compiled B) R :
  runs k r R → runs (if g then throw (eval_limit_error env sp msg) else k) r R.
Proof. intros. destruct g; [apply runs_limit|done]. Qed.

Lemma runs_lift {A} (r : Compiled A) : runs (lift r) r (λ c a x, c = 0 ∧ a = x).
Proof.
  intros b. unfold lift. destruct r as [a|f]; (split; [done|]); [|by right].
  exists a. rewrite Z.sub_diag. done.
Qed.

(** [lift r] followed by the same pure step. *)
Lemma runs_lift_bind {A A' B} (r : Compiled A) (f : A → Ev A') (g : A → Compiled B) R :
  (∀ a, r = Ok a → runs (f a) (g a) R) → runs (lift r ≫= f) (r ≫= g) R.
Proof.
  intros Hf b. unfold mbind, m_bind, result_bind, lift. destruct r as [a|e].
  - by apply Hf.
  - split; [done|]. by right.
Qed.

Lemma runs_get {A B} (f : Budget → Ev A) (r : Compiled B) R :
  (∀ b, runs (f b) r R) → runs (get ≫= f) r R.
Proof. intros Hf b. apply Hf. Qed.

(** ** Charges *)

Lemma charges_spend amount sp purpose : 0 ≤ amount → charges (spend_fuel env amount sp purpose) 0.
Proof.
  intros Ha b. unfold spend_fuel. destruct (Z.ltb_spec (fuel_remaining b) amount).
  - split; [done|]. left. by eexists.
  - split; [split; cbn; lia|]. eexists. split; [done|]. cbn. lia.
Qed.
Lemma charges_allocate bytes sp : 0 ≤ bytes → charges (allocate env bytes sp) bytes.
Proof.
  intros Hb b. unfold allocate, checked_add.
  destruct (_ <=? usize_max); [|split; [done|]; left; by eexists].
  destruct (Z.ltb_spec (max_allocation_bytes (limits env)) (allocation_bytes b + bytes)).
  - split; [done|]. left. by eexists.
  - split; [split; cbn; lia|]. eexists. split; [done|]. cbn. lia.
Qed.
Lemma charges_traverse sp : charges (traverse_element env sp) 0.
Proof.
  intros b. unfold traverse_element. cbn.
  destruct (Z.ltb_spec (max_container_elements (limits env)) (traversed_elements b + 1)).
  - split; [split; cbn; lia|]. left. by eexists.
  - set (b1 := Build_Budget _ _ _). pose proof (charges_spend 1 sp "traversing container element" ltac:(lia) b1) as Hs.
    destruct (spend_fuel env 1 sp _ b1) as [o b2]. destruct Hs as [Hsp Ho]. split; [|done].
    eapply spent_trans; [|exact Hsp]. split; cbn; lia.
Qed.
Lemma charges_scalar s sp : charges (check_scalar env s sp) 0.
Proof. unfold check_scalar. apply runs_guard, runs_ret. done. Qed.
Lemma charges_produced n sp : charges (check_produced_string env n sp) 0.
Proof. unfold check_produced_string. apply runs_guard, runs_ret. done. Qed.
Lemma charges_seq m m' n n' : charges m n → charges m' n' → charges (m ;; m') (n + n').
Proof. intros Hm Hm'. eapply runs_charge; [done|]. eapply runs_mono; [done|]. cbn. lia. Qed.
Lemma charges_elements n sp : charges (charge_elements env n sp) 0.
Proof.
  unfold charge_elements. induction n as [|n IH]; cbn [repeat_m]; [by apply runs_ret|].
  apply (charges_seq _ _ 0 0); [apply charges_traverse|done].
Qed.

End runs.

(** Non-negativity of an amount that is charged. *)
Ltac amount :=
  repeat match goal with
  | |- context [len ?s] =>
      lazymatch goal with
      | _ : 0 ≤ len s |- _ => fail
      | _ => pose proof (len_nonneg s)
      end
  end;
  unfold compiled_limit, saturating_add, saturating_mul, saturating_sub, usize_max, size_of_ref,
    size_of_ref_pair;
  first [lia | nia].

(** Discharges the leading charge of a computation. *)
Ltac charge :=
  eapply runs_charge;
  [ first [ apply charges_spend; amount | apply charges_allocate; amount
          | apply charges_traverse | apply charges_scalar | apply charges_produced
          | apply charges_elements ] |].

(** ** Loops *)

Definition result_fold {A B} (f : B → A → Compiled B) : B → list A → Compiled B :=
  fix go acc l :=
    match l with
    | [] => Ok acc
    | x :: l => acc ← f acc x ; go acc l
    end.

Lemma result_fold_map {A B C} (g : A → Compiled B) (h : C → B → C) acc l :
  result_fold (λ acc x, y ← g x ; Ok (h acc y)) acc l =
  (ys ← result_map g l ; Ok (foldl h acc ys)).
Proof.
  revert acc. induction l as [|x l IH]; intros acc; [done|].
  cbn [result_fold result_map]. destruct (g x); cbn [mbind result_bind]; [|done].
  fold (result_map g). fold (@result_fold A C (λ acc x, y ← g x ; Ok (h acc y))).
  rewrite IH. by destruct (result_map g l).
Qed.
Lemma result_map_ok {A} (l : list A) : result_map (λ x, Ok x) l = Ok l.
Proof. induction l as [|x l IH]; cbn in *; [done|]. by rewrite IH. Qed.
Lemma result_fold_ok {A B} (h : B → A → B) acc l :
  result_fold (λ acc x, Ok (h acc x)) acc l = Ok (foldl h acc l).
Proof. revert acc. induction l as [|x l IH]; intros acc; cbn; [done|]. apply IH. Qed.

(** Element-wise agreement, the charges added up. *)
Inductive all_run {A B} (R : Z → A → B → Prop) : Z → list A → list B → Prop :=
| all_run_nil : all_run R 0 [] []
| all_run_cons c c' a x l l' : R c a x → all_run R c' l l' → all_run R (c + c') (a :: l) (x :: l').

Section loops.
Context `{Externals} (env : EvalEnv).

Lemma runs_try_map {A B C} (f : A → Ev B) (g : A → Compiled C) R l :
  (∀ x, x ∈ l → runs env (f x) (g x) R) →
  runs env (try_map f l) (result_map g l) (all_run R).
Proof.
  induction l as [|x l IH]; intros Hf; cbn.
  - apply runs_ret. constructor.
  - eapply runs_bind; [apply Hf; left|]. intros c a y _ Hy.
    eapply runs_bind; [apply IH; intros; apply Hf; by right|]. intros c' ys xs _ Hys.
    apply runs_ret. rewrite Z.add_0_r. by constructor.
Qed.

Lemma runs_fold {A B C} (f : B → A → Ev B) (g : C → A → Compiled C) (I : Z → B → C → Prop) l acc acc' :
  (∀ c acc acc' x, x ∈ l → I c acc acc' → runs env (f acc x) (g acc' x) (λ c', I (c + c'))) →
  I 0 acc acc' → runs env (fold_m f acc l) (result_fold g acc' l) I.
Proof.
  intros Hf HI. enough (∀ c, I c acc acc' → runs env (fold_m f acc l) (result_fold g acc' l) (λ c', I (c + c'))) as Hgo.
  { eapply runs_mono; [by apply (Hgo 0)|]. done. }
  clear HI. revert acc acc' Hf. induction l as [|x l IH]; intros acc acc' Hf c HI; cbn.
  - apply runs_ret. by rewrite Z.add_0_r.
  - eapply runs_bind; [apply Hf; [left|exact HI]|]. cbn. intros c1 a1 a1' _ HI1.
    eapply runs_mono; [apply IH; [|exact HI1]|].
    + intros. apply Hf; [by right|done].
    + cbn. intros c2 ?? _. by rewrite Z.add_assoc.
Qed.

(** ** Cloning is the identity *)

Lemma all_run_weights c (l l' : list Value) :
  all_run (λ c a x, a = x ∧ weight x ≤ c) c l l' → l = l' ∧ weights l ≤ c.
Proof.
  induction 1 as [|c c' a x l l' [-> Hw] _ [-> IH]]; [done|]. split; [done|].
  cbn. fold (weights l'). lia.
Qed.

Lemma rebuild_sorted m : Map.sorted m → foldl (λ m '(k, v), Map.insert k v m) [] m = m.
Proof.
  enough (∀ m1 m2, Map.sorted (m1 ++ m2) →
    foldl (λ m '(k, v), Map.insert k v m) m1 m2 = m1 ++ m2) as Hgo by apply (Hgo []).
  intros m1 m2. revert m1. induction m2 as [|[k v] m2 IH]; intros m1 Hs; cbn; [by rewrite app_nil_r|].
  apply MapFacts.sorted_app_inv in Hs as Hs'. destruct Hs' as (_ & _ & Hlt).
  rewrite MapFacts.insert_last.
  - rewrite IH; rewrite <- app_assoc; done.
  - apply Forall_forall. intros k' Hk'. apply Hlt; [done|]. cbn. left.
Qed.

Lemma rebuild_ok m :
  Map.sorted m →
  result_fold (λ acc kv, Ok (Map.insert kv.1 kv.2 acc)) [] m = (Ok m : Compiled Map.t).
Proof.
  intros Hs. rewrite result_fold_ok. rewrite <- (rebuild_sorted m Hs) at 2. f_equal.
  generalize (@nil (string * Value)). induction m as [|[k v] m IH]; intros acc; cbn; [done|].
  apply IH. by inversion Hs.
Qed.

Lemma entry_weights_app m1 m2 : entry_weights (m1 ++ m2) = entry_weights m1 + entry_weights m2.
Proof. unfold entry_weights. induction m1; cbn; lia. Qed.

Lemma entry_weights_insert k v m :
  entry_weights (Map.insert k v m) ≤ entry_weights m + len k + weight v.
Proof.
  unfold entry_weights. induction m as [|[k' v'] m IH]; cbn; [lia|].
  destruct (String.compare k k') eqn:E; cbn; [|lia|lia].
  pose proof (len_nonneg k'). pose proof (weight_nonneg v'). lia.
Qed.
Lemma insert_length k v m : (length (Map.insert k v m) ≤ S (length m))%nat.
Proof. induction m as [|[k' v'] m IH]; cbn; [lia|]. destruct (String.compare k k'); cbn; lia. Qed.
Lemma rebuild_length (l : list (string * Value)) acc :
  (length (foldl (λ m '(k, v), Map.insert k v m) acc l) ≤ length acc + length l)%nat.
Proof.
  revert acc. induction l as [|[k v] l IH]; intros acc; cbn; [lia|].
  specialize (IH (Map.insert k v acc)). pose proof (insert_length k v acc). lia.
Qed.

Lemma clone_runs v d sp :
  good v → runs env (clone_bounded env v d sp) (Ok v) (λ c a x, a = x ∧ weight x ≤ c).
Proof.
  revert d. induction v as [| | |s|vs IH|m IH] using Value_ind; intros d Hg; cbn [clone_bounded];
    apply runs_guard; (eapply runs_charge; [apply charges_spend; lia|]).
  - by apply runs_ret.
  - by apply runs_ret.
  - by apply runs_ret.
  - charge. charge. charge. apply runs_ret. cbn. split; [done|lia].
  - apply good_array in Hg. charge.
    eapply (runs_bind_ok _ _ vs (all_run (λ c a x, a = x ∧ weight x ≤ c))).
    { rewrite <- (result_map_ok vs). apply runs_try_map. intros x Hx. charge. rewrite Forall_forall in IH, Hg. eapply runs_mono; [by apply IH; auto|].
      cbn. intros c a y _ [-> Hw]. split; [done|lia]. }
    intros c a _ [-> Hw]%all_run_weights. apply runs_ret. rewrite weight_array. split; [done|lia].
  - apply good_object in Hg as [Hs Hg]. charge.
    eapply (runs_bind_ok (B := Map.t) _ _ m (λ c a x, a = x ∧ entry_weights x ≤ c)).
    { rewrite <- (rebuild_ok m Hs). apply runs_fold; [|done].
      intros c acc acc' [k v] Hin [-> Hw]. do 4 charge. rewrite Forall_forall in IH, Hg.
      eapply runs_bind_ok; [apply (IH _ Hin); by apply (Hg _ Hin)|].
      cbn. intros c' a _ [-> Hw']. apply runs_ret. split; [done|].
      pose proof (entry_weights_insert k v acc'). lia. }
    cbn. intros c a _ [-> Hw]. apply runs_ret. split; [done|]. rewrite weight_object. lia.
Qed.

(** ** Inspecting results *)

Lemma len_encode_utf8 c : len (encode_utf8 c) = len_utf8 c.
Proof. unfold encode_utf8, len_utf8. by repeat case_match. Qed.

Lemma len_json_char c : len (json_char c) = json_char_bytes c.
Proof.
  unfold json_char, json_char_bytes.
  repeat match goal with |- context [?a =? ?b] => destruct (a =? b); [done|] end.
  destruct (c <=? 31); [done|]. apply len_encode_utf8.
Qed.
Lemma json_char_bytes_pos c : 0 < json_char_bytes c.
Proof. unfold json_char_bytes, len_utf8. repeat case_match; lia. Qed.

Lemma len_json_string s :
  len (json_string s) = 2 + foldr (λ c n, json_char_bytes c + n) 0 (chars s).
Proof.
  unfold json_string. rewrite !len_append. change (len dquote) with 1.
  assert (len (foldr (λ c out, json_char c +:+ out) EmptyString (chars s)) =
          foldr (λ c n, json_char_bytes c + n) 0 (chars s)) as ->; [|lia].
  induction (chars s) as [|c l IH]; [done|]. cbn. rewrite len_append, IH, len_json_char. done.
Qed.

Lemma json_string_bytes_len s : json_string_bytes s = Z.min (len (json_string s)) usize_max.
Proof.
  rewrite len_json_string. unfold json_string_bytes.
  enough (∀ a, 0 ≤ a ≤ usize_max →
    foldl (λ bytes c, saturating_add bytes (json_char_bytes c)) a (chars s) =
    Z.min (a + foldr (λ c n, json_char_bytes c + n) 0 (chars s)) usize_max) as Hgo.
  { apply Hgo. unfold usize_max. lia. }
  induction (chars s) as [|c l IH]; intros a Ha; cbn [foldl foldr]; [lia|].
  pose proof (json_char_bytes_pos c). unfold saturating_add.
  assert (0 ≤ foldr (λ c n, json_char_bytes c + n) 0 l).
  { clear. induction l as [|c l IH]; cbn; [done|]. pose proof (json_char_bytes_pos c). lia. }
  rewrite IH by lia. lia.
Qed.

Definition lens (l : list string) : Z := foldr (λ s, Z.add (len s)) 0 l.
Lemma len_join sep l :
  len (join sep l) = lens l + len sep * Z.max (Z.of_nat (length l) - 1) 0.
Proof.
  unfold lens. induction l as [|a [|b l] IH]; 
    [change (Z.max _ 0) with 0; rewrite Z.mul_0_r; cbn; first [done|lia]..|].
  change (join sep (a :: b :: l)) with (a +:+ sep +:+ join sep (b :: l)).
  rewrite !len_append, IH. cbn [foldr length]. lia.
Qed.

Lemma lens_nonneg l : 0 ≤ lens l.
Proof. unfold lens. induction l as [|s l IH]; cbn; [done|]. pose proof (len_nonneg s). lia. Qed.

Definition entry_text (kv : string * Value) : string :=
  json_string kv.1 +:+ ":" +:+ serialize kv.2.

Lemma len_serialize_array vs :
  len (serialize (VArray vs)) =
  2 + Z.max (Z.of_nat (length vs) - 1) 0 + lens (serialize <$> vs).
Proof.
  change (serialize (VArray vs)) with ("[" +:+ join "," (serialize <$> vs) +:+ "]").
  rewrite !len_append, len_join, length_fmap. change (len "[") with 1. change (len "]") with 1.
  change (len ",") with 1. lia.
Qed.
Lemma len_serialize_object m :
  len (serialize (VObject m)) =
  2 + Z.max (Z.of_nat (length m) - 1) 0 + lens (entry_text <$> m).
Proof.
  change (serialize (VObject m)) with ("{" +:+ join "," (entry_text <$> m) +:+ "}").
  rewrite !len_append, len_join, length_fmap. change (len "{") with 1. change (len "}") with 1.
  change (len ",") with 1. lia.
Qed.
Lemma node_count_array vs : node_count (VArray vs) = 1 + foldr (λ v, Z.add (node_count v)) 0 vs.
Proof. done. Qed.
Lemma node_count_object m :
  node_count (VObject m) = 1 + foldr (λ kv, Z.add (node_count kv.2)) 0 m.
Proof. cbn. f_equal. induction m as [|[k v] m IH]; cbn; [done|]. by rewrite IH. Qed.
Lemma value_depth_array vs : value_depth (VArray vs) = 1 + foldr (λ v, Z.max (value_depth v)) 0 vs.
Proof. done. Qed.
Lemma value_depth_object m :
  value_depth (VObject m) = 1 + foldr (λ kv, Z.max (value_depth kv.2)) 0 m.
Proof. cbn. f_equal. induction m as [|[k v] m IH]; cbn; [done|]. by rewrite IH. Qed.
Lemma node_count_pos v : 1 ≤ node_count v.
Proof.
  induction v as [| | | |vs IH|m IH] using Value_ind; try (cbn; lia).
  - rewrite node_count_array. assert (0 ≤ foldr (λ v, Z.add (node_count v)) 0 vs); [|lia].
    induction IH; cbn; lia.
  - rewrite node_count_object. assert (0 ≤ foldr (λ kv, Z.add (node_count kv.2)) 0 m); [|lia].
    induction IH; cbn in *; lia.
Qed.

(** The counters after a part of the result with [nodes] values nested
    [depth] deep and [bytes] bytes of text. *)
Definition inspected (counts : Z * Z) (level nodes depth bytes : Z) (counts' : Z * Z) : Prop :=
  counts' = (counts.1 + nodes, Z.min (counts.2 + bytes) usize_max) ∧
  level + depth - 1 ≤ max_result_depth (limits env) ∧
  counts'.1 ≤ max_result_nodes (limits env) ∧ counts'.2 ≤ max_result_bytes (limits env).

Lemma add_result_bytes_runs total amount sp :
  0 ≤ amount →
  runs env (add_result_bytes env total amount sp) (Ok tt) (λ _ a _,
    a = saturating_add total amount ∧ a ≤ max_result_bytes (limits env)).
Proof.
  intros Ha. unfold add_result_bytes. cbv zeta.
  destruct (Z.ltb_spec (max_result_bytes (limits env)) (saturating_add total amount)); [apply runs_limit|].
  charge. by apply runs_ret.
Qed.

Lemma container_bytes_eq {A} (l : list A) :
  container_bytes l = Z.min (2 + Z.max (Z.of_nat (length l) - 1) 0) usize_max.
Proof. unfold container_bytes, saturating_add, saturating_sub. done. Qed.

(** Inspecting the elements of a container after one another. *)
Lemma inspect_elements_runs {X} (step : Z * Z → X → Ev (Z * Z)) (nodes depth : X → Z) (text : X → string)
    level (l : list X) n bytes :
  (∀ x n bytes, x ∈ l → 0 ≤ bytes ≤ usize_max →
     runs env (step (n, bytes) x) (Ok tt) (λ _ a _,
       inspected (n, bytes) level (nodes x) (depth x) (len (text x)) a)) →
  0 ≤ bytes ≤ usize_max → n ≤ max_result_nodes (limits env) → bytes ≤ max_result_bytes (limits env) →
  level - 1 ≤ max_result_depth (limits env) →
  runs env (fold_m step (n, bytes) l) (Ok tt) (λ _ a _,
    inspected (n, bytes) level (foldr (λ x, Z.add (nodes x)) 0 l)
      (foldr (λ x, Z.max (depth x)) 0 l) (lens (text <$> l)) a).
Proof.
  intros Hstep Hb Hn Hbm Hl. revert n bytes Hb Hn Hbm Hstep.
  induction l as [|x l IH]; intros n bytes Hb Hn Hbm Hstep; cbn [fold_m].
  - apply runs_ret. split_and!; cbn; [f_equal; lia|lia|lia|lia].
  - eapply runs_bind_ok; [apply Hstep; [left|done]|]. intros c a _ (-> & Hd & Hn' & Hb'). cbn in Hd, Hn', Hb'.
    pose proof (len_nonneg (text x)).
    eapply runs_mono; [apply IH; [cbn; lia|done|done|]|].
    + intros. apply Hstep; [by right|done].
    + pose proof (lens_nonneg (text <$> l)).
      intros c' a ? _ (-> & Hd2 & Hn2 & Hb2). cbn in Hd2, Hn2, Hb2.
      split_and!; cbn; [f_equal; [lia|]|lia|lia|]; fold (lens (text <$> l)); lia.
Qed.

Lemma inspect_runs v level sp n bytes :
  0 ≤ bytes ≤ usize_max →
  runs env (inspect_result env v level sp (n, bytes)) (Ok tt) (λ _ a _,
    inspected (n, bytes) level (node_count v) (value_depth v) (len (serialize v)) a).
Proof.
  revert level n bytes. induction v as [|b|num|s|vs IH|m IH] using Value_ind; intros level n bytes Hb;
    cbn [inspect_result];
    (destruct (Z.ltb_spec (max_result_depth (limits env)) level) as [|Hl]; [apply runs_limit|]);
    (destruct (Z.ltb_spec (max_result_nodes (limits env)) (n + 1)) as [|Hn]; [apply runs_limit|]);
    charge.
  1-4: try charge;
    (eapply runs_bind_ok; [apply add_result_bytes_runs; first [apply len_nonneg|rewrite json_string_bytes_len; pose proof (len_nonneg (json_string s)); unfold usize_max; lia|case_match; lia|lia]|]);
    intros c a _ [-> Ha]; apply runs_ret; (split_and!; cbn; [f_equal|lia|lia|done]);
    unfold saturating_add; rewrite ?json_string_bytes_len.
  - by destruct b.
  - pose proof (len_nonneg (json_string s)). lia.
  - eapply runs_bind_ok; [apply add_result_bytes_runs; rewrite container_bytes_eq; unfold usize_max; lia|].
    intros c a _ [-> Ha]. rewrite container_bytes_eq in *. unfold saturating_add in *.
    eapply runs_mono; [apply (inspect_elements_runs _ node_count value_depth serialize (level + 1))|].
    + intros x n' bytes' Hx Hb'. charge. rewrite Forall_forall in IH.
      eapply runs_mono; [by apply IH|]. done.
    + unfold usize_max in *. lia.
    + lia.
    + lia.
    + lia.
    + pose proof (lens_nonneg (serialize <$> vs)).
      intros c' a ? _ (-> & Hd & Hn' & Hb'). cbn in Hd, Hn', Hb'.
      rewrite len_serialize_array, node_count_array, value_depth_array.
      split_and!; cbn; [f_equal; lia|lia|lia|lia].
  - eapply runs_bind_ok; [apply add_result_bytes_runs; rewrite container_bytes_eq; unfold usize_max; lia|].
    intros c a _ [-> Ha]. rewrite container_bytes_eq in *. unfold saturating_add in *.
    eapply runs_mono; [apply (inspect_elements_runs _ (λ kv, node_count kv.2) (λ kv, value_depth kv.2) entry_text (level + 1))|].
    + intros [k v] n' bytes' Hx Hb'. charge. charge. rewrite Forall_forall in IH.
      eapply runs_bind_ok; [apply add_result_bytes_runs; rewrite json_string_bytes_len; pose proof (len_nonneg (json_string k)); unfold saturating_add, usize_max; lia|].
      intros c' a _ [-> Ha']. pose proof (len_nonneg (json_string k)).
      rewrite json_string_bytes_len in *. unfold saturating_add in *.
      eapply runs_mono; [apply (IH _ Hx)|]; [cbn; unfold usize_max in *; lia|].
      pose proof (len_nonneg (serialize v)).
      cbn. intros c2 a ? _ (-> & Hd & Hn' & Hb2). cbn in *. unfold entry_text. cbn.
      split_and!; cbn; [f_equal|lia|lia|]; rewrite ?len_append; change (len ":") with 1; lia.
    + unfold usize_max in *. lia.
    + lia.
    + lia.
    + lia.
    + pose proof (lens_nonneg (entry_text <$> m)).
      intros c' a ? _ (-> & Hd & Hn' & Hb'). cbn in Hd, Hn', Hb'.
      rewrite len_serialize_object, node_count_object, value_depth_object.
      split_and!; cbn; [f_equal; lia|lia|lia|lia].
Qed.

(** ** Numbers *)

Lemma normalize_zero_finite f : F64.is_finite f = true → F64.is_finite (Numeric.normalize_zero f) = true.
Proof. unfold Numeric.normalize_zero. by case_match. Qed.
Lemma normalize_zero_idem f :
  Numeric.normalize_zero (Numeric.normalize_zero f) = Numeric.normalize_zero f.
Proof. unfold Numeric.normalize_zero. destruct (F64.eqb f F64.zero) eqn:E; [done|]. by rewrite E. Qed.

Lemma from_json_good n : good (VNumber n) → Numeric.from_json n = Ok (numeric_of n).
Proof.
  destruct n as [z|z|f]; cbn; intros Hg; unfold Numeric.from_json; cbn.
  - by destruct (z <=? i64_max).
  - done.
  - unfold Numeric.finite_decimal. by rewrite Hg.
Qed.
Lemma order_good l r :
  good (VNumber l) → good (VNumber r) →
  Numeric.compare (numeric_of l) (numeric_of r) = Some (number_order l r).
Proof.
  intros Hl Hr. unfold number_order.
  assert (∀ n, good (VNumber n) → Numeric.finite (numeric_of n)) as Hf.
  { intros [z|z|f] Hg; cbn; [by case_match|done|by apply normalize_zero_finite]. }
  destruct (Numeric.compare_finite _ _ (Hf l Hl) (Hf r Hr)) as [c ->]. done.
Qed.
Lemma canonical_good n : good (VNumber n) → Numeric.canonical (numeric_of n) = Ok (number_text n).
Proof.
  destruct n as [z|z|f]; cbn [numeric_of number_text]; intros Hg.
  - by destruct (z <=? i64_max).
  - done.
  - cbn. rewrite normalize_zero_idem. unfold Number.from_f64. by rewrite normalize_zero_finite.
Qed.
Lemma to_json_good n v : Numeric.to_json n = Ok v → good v ∧ weight v = 0.
Proof.
  destruct n as [z|z|f]; cbn; unfold Number.from_i64, Number.from_u64.
  - intros [= <-]. by case_match.
  - by intros [= <-].
  - unfold Number.from_f64. destruct (F64.is_finite _) eqn:E; intros [= <-]. done.
Qed.

(** ** Comparison *)

Lemma value_equal_length l r : length l ≠ length r → value_equal (VArray l) (VArray r) = false.
Proof.
  revert r. induction l as [|x l IH]; intros [|y r] Hl; cbn in *; try done.
  assert (length l ≠ length r) as Hl' by lia. apply IH in Hl'. cbn in Hl'. rewrite Hl'.
  apply andb_false_r.
Qed.

Lemma deep_equal_json_runs l r d sp :
  good l → good r → runs env (deep_equal_json env l r d sp) (Ok (value_equal l r)) (λ c a x, a = x).
Proof.
  revert r d. induction l as [|b|n|s|vs IH|m IH] using Value_ind; intros r d Hl Hr;
    destruct r as [|b'|n'|s'|vs'|m']; cbn [deep_equal_json];
    charge; apply runs_guard; try (by apply runs_ret).
  - rewrite !from_json_good by done. eapply runs_bind_ok; [apply (runs_lift _ (Ok _))|]. intros c a _ [-> ->].
    eapply runs_bind_ok; [apply (runs_lift _ (Ok _))|]. intros c a _ [-> ->]. rewrite order_good by done.
    eapply runs_bind_ok; [apply (runs_lift _ (Ok _))|]. intros c a _ [-> ->]. by apply runs_ret.
  - do 3 charge. by apply runs_ret.
  - destruct (Nat.eqb_spec (length vs) (length vs')) as [Hlen|Hlen]; cbn [negb].
    2: { apply runs_ret. by rewrite value_equal_length. }
    apply good_array in Hl, Hr. revert vs' Hlen Hr.
    induction vs as [|x vs IHvs]; intros [|y vs'] Hlen Hr; try done; [by apply runs_ret|].
    inversion IH as [|?? IHx IHrest]; inversion Hl as [|?? Hx Hvs]; inversion Hr as [|?? Hy Hvs']; subst.
    charge. eapply runs_bind_ok; [by apply IHx|]. intros c a _ ->. cbn [value_equal].
    destruct (value_equal x y); cbn [negb andb]; [|by apply runs_ret].
    eapply runs_mono; [apply (IHvs IHrest Hvs vs'); [cbn in Hlen; lia|done]|]. done.
  - cbn [value_equal]. destruct (Nat.eqb_spec (length m) (length m')) as [Hlen|Hlen]; cbn [negb andb].
    2: by apply runs_ret.
    apply good_object in Hl as [_ Hl]. clear Hlen.
    induction m as [|[k x] m IHm]; [by apply runs_ret|].
    inversion IH as [|?? IHx IHrest]; inversion Hl as [|?? Hx Hm]; subst. cbn in IHx, Hx.
    do 3 charge. destruct (Map.get k m') as [y|] eqn:Hget; [|by apply runs_ret].
    eapply runs_bind_ok; [apply IHx; [done|by eapply good_get]|]. intros c a _ ->.
    destruct (value_equal x y); cbn [negb andb]; [|by apply runs_ret].
    eapply runs_mono; [apply (IHm IHrest Hm)|]. done.
Qed.

(** ** Runtime values *)

(** A runtime value without its ownership. *)
Definition erase (v : RuntimeValue) : RuntimeValue :=
  match v with Borrowed v | Owned v => Owned v | Missing path => Missing path end.
Definition good_runtime (v : RuntimeValue) : Prop :=
  match v with Borrowed v | Owned v => good v | Missing _ => True end.
Definition runtime_weight (v : RuntimeValue) : Z :=
  match v with Borrowed _ => 0 | Owned v => Z.min (weight v) usize_max | Missing path => 0 end.

(** What the evaluator returns for a meaning. *)
Definition agrees (c : Z) (a x : RuntimeValue) : Prop :=
  x = erase a ∧ good_runtime a ∧ runtime_weight a ≤ c.

Lemma erase_json v : as_json (erase v) = as_json v.
Proof. by destruct v. Qed.
Lemma erase_type v : type_name (erase v) = type_name v.
Proof. by destruct v. Qed.
Lemma erase_bool v sp p : require_bool env (erase v) sp p = require_bool env v sp p.
Proof. unfold require_bool. by rewrite erase_json, erase_type. Qed.
Lemma erase_number v sp p : require_number env (erase v) sp p = require_number env v sp p.
Proof. unfold require_number. by rewrite erase_json, erase_type. Qed.
Lemma erase_nullish v : is_nullish (erase v) = is_nullish v.
Proof. by destruct v. Qed.
Lemma erase_numeric_binary op l r sp :
  numeric_binary env op (erase l) (erase r) sp = numeric_binary env op l r sp.
Proof. unfold numeric_binary. by rewrite !erase_number, !erase_type. Qed.
Lemma type_name_json v j : as_json v = Some j → type_name v = json_type j.
Proof. by destruct v; intros [= ->]. Qed.
Lemma erase_present v j : as_json v = Some j → erase v = Owned j.
Proof. by destruct v; intros [= ->]. Qed.
Lemma good_as_json v j : good_runtime v → as_json v = Some j → good j.
Proof. by destruct v; intros ? [= <-]. Qed.

Lemma agrees_mono c c' a x : c ≤ c' → agrees c a x → agrees c' a x.
Proof. intros ? (? & ? & ?). split_and!; [done|done|lia]. Qed.
Lemma agrees_owned c v : good v → weight v ≤ c → agrees c (Owned v) (Owned v).
Proof. intros. split_and!; cbn; [done|done|lia]. Qed.
Lemma agrees_bool c b : 0 ≤ c → agrees c (Owned (VBool b)) (Owned (VBool b)).
Proof. intros. by apply agrees_owned. Qed.

Lemma number_value_runs sp n :
  runs env (Owned <$> (lift (at_span env sp (Numeric.to_json n)) : Ev Value))
    (Owned <$> at_span env sp (Numeric.to_json n)) agrees.
Proof.
  intros b. unfold lift, fmap, m_fmap, result_fmap.
  destruct (Numeric.to_json n) as [v|e] eqn:E; cbn; (split; [done|]); [|by right].
  eexists. split; [done|]. apply to_json_good in E as [? Hw]. split_and!; cbn; [done|done|].
  rewrite Hw. unfold usize_max. lia.
Qed.

Lemma order_runs l r sp :
  good_runtime l → good_runtime r →
  runs env (order env l r sp) (order_meaning env (erase l) (erase r) sp) (λ c a x, a = x).
Proof.
  intros Hl Hr. unfold order, order_meaning. rewrite !erase_json, !erase_type.
  pose proof (good_as_json l) as Hgl. pose proof (good_as_json r) as Hgr.
  destruct (as_json l) as [[| |nl|sl| |]|], (as_json r) as [[| |nr|sr| |]|];
    try apply runs_throw.
  - rewrite !from_json_good by eauto. eapply runs_bind_ok; [apply (runs_lift _ (Ok _))|]. intros c a _ [-> ->].
    eapply runs_bind_ok; [apply (runs_lift _ (Ok _))|]. intros c a _ [-> ->].
    rewrite order_good by eauto. eapply runs_mono; [apply (runs_lift _ (Ok _))|]. by intros ???? [_ ->].
  - do 3 charge. by apply runs_ret.
Qed.

Lemma own_runs c0 v sp p :
  good_runtime v → runtime_weight v ≤ c0 →
  runs env (own env v sp p) (stored env (erase v) sp p)
    (λ c a x, a = x ∧ good x ∧ Z.min (weight x) usize_max ≤ c0 + c).
Proof.
  intros Hg Hw. destruct v as [v|v|path]; cbn in *.
  - eapply runs_mono; [by apply runs_ok_inv, clone_runs|]. cbn. intros c a x _ (-> & -> & ?).
    split_and!; [done|done|lia].
  - apply runs_ret. split_and!; [done|done|lia].
  - apply runs_throw.
Qed.

(** ** Canonical text *)

Lemma push_bounded_runs out t sp :
  runs env (push_bounded env out t sp) (Ok tt) (λ c a _, a = out +:+ t ∧ c = len t).
Proof. unfold push_bounded. do 2 charge. apply runs_ret. split; [done|lia]. Qed.

Lemma push_json_string_runs s sp out :
  runs env (push_json_string env s sp out) (Ok tt)
    (λ c a _, a = out +:+ json_string s ∧ c = len (json_string s)).
Proof.
  unfold push_json_string. eapply runs_bind_ok; [apply push_bounded_runs|]. intros c a _ [-> ->].
  set (body := foldr (λ c out, json_char c +:+ out) EmptyString (chars s)).
  assert (∀ out, runs env (fold_m (λ output c, push_bounded env output (json_char c) sp) out (chars s))
    (Ok tt) (λ c a _, a = out +:+ body ∧ c = len body)) as Hbody.
  { subst body. induction (chars s) as [|c l IH]; intros o; cbn [fold_m foldr].
    - apply runs_ret. by rewrite append_nil_r.
    - eapply runs_bind_ok; [apply push_bounded_runs|]. intros c' a _ [-> ->].
      eapply runs_mono; [apply IH|]. intros c2 a ? _ [-> ->]. rewrite len_append, append_assoc. done. }
  eapply runs_bind_ok; [apply Hbody|]. intros c a _ [-> ->].
  eapply runs_mono; [apply push_bounded_runs|]. intros c a ? _ [-> ->].
  unfold json_string. fold body. rewrite !len_append, !append_assoc. split; [done|lia].
Qed.

(** The texts after the first, each with its comma. *)
Definition tail_text (l : list string) : string := foldr (λ t out, "," +:+ t +:+ out) EmptyString l.
Lemma join_cons t l : join "," (t :: l) = t +:+ tail_text l.
Proof.
  revert t. induction l as [|u l IH]; intros t; [by rewrite append_nil_r|].
  change (join "," (t :: u :: l)) with (t +:+ "," +:+ join "," (u :: l)). by rewrite IH.
Qed.

(** A writer appends [t] and charges at least its length. *)
Definition writes (w : string → Ev string) (t : string) : Prop :=
  ∀ out, runs env (w out) (Ok tt) (λ c a _, a = out +:+ t ∧ len t ≤ c).

Lemma comma_runs first out sp :
  runs env (if first : bool then mret out else push_bounded env out "," sp) (Ok tt)
    (λ c a _, a = out +:+ (if first then EmptyString else ",") ∧ len (if first then EmptyString else ",") ≤ c).
Proof.
  destruct first; [apply runs_ret; by rewrite append_nil_r|].
  eapply runs_mono; [apply push_bounded_runs|]. intros c a ? _ [-> ->]. done.
Qed.

Lemma sort_by_key_Forall2 {A B} (R : A → B → Prop) (l : list (string * A)) (l' : list (string * B)) :
  Forall2 (λ x y, x.1 = y.1 ∧ R x.2 y.2) l l' →
  Forall2 (λ x y, x.1 = y.1 ∧ R x.2 y.2) (sort_by_key fst l) (sort_by_key fst l').
Proof.
  assert (∀ x y l l', x.1 = y.1 ∧ R x.2 y.2 → Forall2 (λ x y, x.1 = y.1 ∧ R x.2 y.2) l l' →
    Forall2 (λ x y, x.1 = y.1 ∧ R x.2 y.2) (insert_by_key fst x l) (insert_by_key fst y l')) as Hins.
  { clear. intros x y l l' Hxy. induction 1 as [|x' y' l l' Hxy' Hl IH]; cbn.
    { constructor; [done|constructor]. }
    destruct Hxy as [Hk Hv], Hxy' as [Hk' Hv']. rewrite Hk, Hk'.
    destruct (String.compare y.1 y'.1); (constructor; [done|]); try (constructor; [done|]); done. }
  induction 1 as [|x y l l' Hxy Hl IH]; cbn; [constructor|]. by apply Hins.
Qed.

Lemma runs_ext {A B} (m m' : Ev A) (r : Compiled B) R :
  (∀ b, m b = m' b) → runs env m' r R → runs env m r R.
Proof. intros Hm Hr b. rewrite Hm. apply Hr. Qed.

(** The loop over the elements of an array or the entries of an object:
    [head] writes one of them after its comma. *)
Lemma separated_runs {X} (write : bool → X → string → Ev string) (go : bool → list X → string → Ev string)
    l ts :
  (∀ first x rest out b,
     go first (x :: rest) out b = (out ← write first x out ; go false rest out) b) →
  (∀ first out, go first [] out = mret out) →
  Forall2 (λ x t, ∀ first, writes (write first x) ((if first then EmptyString else ",") +:+ t)) l ts →
  writes (go true l) (join "," ts).
Proof.
  intros Hcons Hnil Hw.
  assert (∀ l ts, Forall2 (λ x t, ∀ first, writes (write first x) ((if first then EmptyString else ",") +:+ t)) l ts →
    writes (go false l) (tail_text ts)) as Htail.
  { clear l ts Hw. induction 1 as [|x t l ts Hx _ IH]; intros out.
    - rewrite Hnil. apply runs_ret. by rewrite append_nil_r.
    - apply (runs_ext _ _ _ _ (Hcons _ _ _ _)). eapply runs_bind_ok; [apply Hx|]. intros c a _ [-> Hc].
      eapply runs_mono; [apply IH|]. intros c' a ? _ [-> Hc'].
      cbn [tail_text foldr]. fold (tail_text ts).
      rewrite !len_append in *. rewrite !append_assoc. split; [done|lia]. }
  intros out. destruct Hw as [|x t l ts Hx Hw].
  - rewrite Hnil. apply runs_ret. by rewrite append_nil_r.
  - apply (runs_ext _ _ _ _ (Hcons _ _ _ _)). eapply runs_bind_ok; [apply Hx|]. intros c a _ [-> Hc].
    eapply runs_mono; [by apply Htail|]. intros c' a ? _ [-> Hc'].
    rewrite join_cons. rewrite append_nil_l in *. rewrite len_append, append_assoc.
    split; [done|lia].
Qed.

Lemma produced_runs (m : Ev string) out t sp :
  runs env m (Ok tt) (λ c a _, a = out +:+ t ∧ len t ≤ c) →
  runs env (output ← m ; check_produced_string env (len output) sp ;; mret output) (Ok tt)
    (λ c a _, a = out +:+ t ∧ len t ≤ c).
Proof.
  intros Hm. eapply runs_bind_ok; [exact Hm|]. intros c a _ [-> ?]. charge. apply runs_ret.
  split; [done|lia].
Qed.

Lemma push_writes t sp : writes (λ out, push_bounded env out t sp) t.
Proof. intros out. eapply runs_mono; [apply push_bounded_runs|]. intros c a ? _ [-> ->]. done. Qed.

(** A text in brackets. *)
Lemma bracket_runs (w : string → Ev string) l r t out sp :
  writes w t →
  runs env (output ← push_bounded env out l sp ; output ← w output ; push_bounded env output r sp)
    (Ok tt) (λ c a _, a = out +:+ (l +:+ t +:+ r) ∧ len (l +:+ t +:+ r) ≤ c).
Proof.
  intros Hw. eapply runs_bind_ok; [apply push_bounded_runs|]. intros c a _ [-> ->].
  eapply runs_bind_ok; [apply Hw|]. intros c a _ [-> ?].
  eapply runs_mono; [apply push_bounded_runs|]. intros c' a ? _ [-> ->].
  rewrite !len_append, !append_assoc. split; [done|lia].
Qed.

Lemma write_entry_runs sp first k w t :
  writes w t →
  writes (write_entry env sp first (k, w))
    ((if first then EmptyString else ",") +:+ json_string k +:+ ":" +:+ t).
Proof.
  intros Hw out. unfold write_entry. cbn [fst snd].
  eapply runs_bind_ok; [apply comma_runs|]. intros c a _ [-> Hc]. do 2 charge.
  eapply runs_bind_ok; [apply push_json_string_runs|]. intros c1 a _ [-> ->].
  eapply runs_bind_ok; [apply push_bounded_runs|]. intros c2 a _ [-> ->].
  eapply runs_mono; [apply Hw|]. intros c3 a ? _ [-> ?].
  rewrite !len_append, !append_assoc. split; [done|lia].
Qed.

Lemma canonical_json_runs v sp d :
  good v → writes (canonical_json env v sp d) (json_text v).
Proof.
  revert d. induction v as [|b|n|s|vs IH|m IH] using Value_ind; intros d Hg out; cbn [canonical_json];
    apply runs_guard; charge;
    (eapply runs_mono; [apply produced_runs|intros c a ? _ [-> ?]; split; [done|lia]]).
  - apply push_writes.
  - apply push_writes.
  - rewrite from_json_good by done. eapply runs_bind_ok; [apply (runs_lift _ (Ok _))|]. intros c a _ [-> ->].
    rewrite canonical_good by done. eapply runs_bind_ok; [apply (runs_lift _ (Ok _))|]. intros c a _ [-> ->].
    charge. eapply runs_mono; [apply push_bounded_runs|]. intros c a ? _ [-> ->]. cbn.
    pose proof (len_nonneg (number_text n)). split; [done|lia].
  - do 2 charge. eapply runs_mono; [apply push_json_string_runs|]. intros c a ? _ [-> ->]. done.
  - apply good_array in Hg.
    change (json_text (VArray vs)) with ("[" +:+ join "," (json_text <$> vs) +:+ "]").
    apply bracket_runs. apply (separated_runs (λ first value output,
      traverse_element env sp ;;
      output ← (if first : bool then mret output else push_bounded env output "," sp) ;
      canonical_json env value sp (d + 1) output)).
    + intros first x rest o b. unfold mbind, m_bind.
      destruct (traverse_element env sp b) as [[] ?]; [|done].
      by destruct ((if first then mret o else push_bounded env o "," sp) b0) as [[] ?].
    + done.
    + apply Forall2_fmap_r, Forall_Forall2_diag, Forall_forall. intros x Hx first o. charge.
      eapply runs_bind_ok; [apply comma_runs|]. intros c a _ [-> Hc].
      rewrite Forall_forall in IH, Hg. eapply runs_mono; [apply (IH _ Hx _ (Hg _ Hx))|].
      intros c' a ? _ [-> ?]. rewrite len_append, append_assoc. split; [done|lia].
  - apply good_object in Hg as [_ Hg]. cbn [json_text].
    set (entries := (λ kv, (kv.1, canonical_json env kv.2 sp (d + 1))) <$> m).
    set (texts := (λ kv, (kv.1, json_text kv.2)) <$> m).
    assert (Forall2 (λ x y, x.1 = y.1 ∧ writes x.2 y.2) entries texts) as Hent.
    { subst entries texts. apply Forall2_fmap, Forall_Forall2_diag, Forall_forall.
      rewrite Forall_forall in IH, Hg. intros kv Hkv. split; [done|]. cbn. by apply IH, Hg. }
    apply sort_by_key_Forall2 in Hent. clearbody entries texts.
    eapply runs_bind_ok; [apply push_bounded_runs|]. intros c a _ [-> ->]. charge. charge.
    eapply runs_bind_ok.
    { apply (separated_runs (write_entry env sp) (write_entries env sp) (sort_by_key fst entries)
        ((λ entry, json_string entry.1 +:+ ":" +:+ entry.2) <$> sort_by_key fst texts)); [done|done|].
      apply Forall2_fmap_r. eapply Forall2_impl; [exact Hent|].
      intros [k w] [k' t] [Hk Hw] first o. cbn in Hk, Hw. subst k'. by apply write_entry_runs. }
    intros c a _ [-> Hc]. eapply runs_mono; [apply push_bounded_runs|]. intros c' a ? _ [-> ->].
    rewrite !len_append, !append_assoc. change (len "{") with 1. change (len "}") with 1.
    unfold size_of_ref_pair, saturating_mul, usize_max. split; [done|lia].
Qed.

(** ** Built-in functions *)

Lemma sort_by_key_perm {A} (key : A → string) l : sort_by_key key l ≡ₚ l.
Proof.
  assert (∀ x l, insert_by_key key x l ≡ₚ x :: l) as Hins.
  { intros x l0. induction l0 as [|y l0 IH]; cbn; [done|].
    destruct (String.compare (key x) (key y)); [done|done|]. rewrite IH. apply Permutation_swap. }
  induction l as [|x l IH]; cbn; [done|]. by rewrite Hins, IH.
Qed.

Lemma lens_perm l l' : l ≡ₚ l' → lens l = lens l'.
Proof. unfold lens. induction 1; cbn; lia. Qed.

Lemma length_runs v j sp :
  as_json v = Some j →
  runs env (length_of env v sp) (function_meaning env FLength [j] sp) agrees.
Proof.
  intros Hj. unfold length_of. rewrite Hj.
  assert (∀ (m : Ev Z) n, 0 ≤ n → runs env m (Ok tt) (λ c a _, a = n) →
    runs env (length ← m ; Owned <$> (lift (at_span env sp (Numeric.to_json
      (if is_i64 length then Signed length else Unsigned length))) : Ev Value))
      (number_value env sp (Ok (Signed n))) agrees) as Hgo.
  { intros m n Hn Hm. eapply runs_bind_ok; [exact Hm|]. cbn. intros c a Hc ->.
    assert (Numeric.to_json (if is_i64 n then Signed n else Unsigned n) = Numeric.to_json (Signed n)) as ->.
    { case_match; [done|]. cbn. unfold Number.from_i64, Number.from_u64.
      by rewrite (proj2 (Z.ltb_ge _ _)). }
    eapply runs_mono; [apply number_value_runs|]. intros c' a x _. apply agrees_mono. lia. }
  rewrite (type_name_json _ _ Hj).
  destruct j as [| | |s|l|m]; cbn [function_meaning].
  1-3: apply runs_bind_throw.
  - apply Hgo; [unfold char_count; lia|]. do 2 charge. by apply runs_ret.
  - apply Hgo; [lia|]. charge. by apply runs_ret.
  - apply Hgo; [lia|]. charge. by apply runs_ret.
Qed.

Lemma contains_element_runs vs needle sp :
  Forall good vs → good needle →
  runs env (contains_element env vs needle sp)
    (Ok (existsb (λ v, value_equal v needle) vs)) (λ c a x, a = x).
Proof.
  intros Hvs Hn. unfold contains_element. induction Hvs as [|v vs Hv Hvs IH]; [by apply runs_ret|].
  charge. eapply runs_bind_ok; [by apply deep_equal_json_runs|]. intros c a _ ->. cbn [existsb].
  destruct (value_equal v needle); [by apply runs_ret|]. eapply runs_mono; [apply IH|]. done.
Qed.

Lemma contains_runs container needle sp :
  good_runtime container → good_runtime needle →
  runs env (contains_values env container needle sp)
    (contains_meaning env (erase container) (erase needle) sp) agrees.
Proof.
  intros Hc Hn. unfold contains_values, contains_meaning. rewrite !erase_json, erase_type.
  pose proof (good_as_json container) as Hgc. pose proof (good_as_json needle) as Hgn.
  destruct (as_json container) as [[| | |s|vs|m]|];
    try apply runs_bind_throw.
  - destruct (as_json needle) as [[| | |s'| |]|]; try apply runs_bind_throw.
    eapply (runs_bind_ok _ _ (str_contains s s') (λ c a x, a = x)); [do 3 charge; by apply runs_ret|].
    intros c a ? ->. apply runs_ret, agrees_bool. lia.
  - destruct (as_json needle) as [j|]; cbn [ok_or]; [|apply runs_bind_throw].
    eapply (runs_bind_ok _ _ (existsb (λ v, value_equal v j) vs) (λ c a x, a = x)).
    { eapply runs_bind_ok; [apply (runs_lift _ (Ok _))|]. intros c a _ [-> ->].
      eapply runs_mono; [apply contains_element_runs; [by apply good_array; eauto|by eauto]|]. done. }
    intros c a ? ->. apply runs_ret, agrees_bool. lia.
  - destruct (as_json needle) as [[| | |s'| |]|]; try apply runs_bind_throw.
    eapply (runs_bind_ok _ _ (Map.contains_key s' m) (λ c a x, a = x)); [do 2 charge; by apply runs_ret|].
    intros c a ? ->. apply runs_ret, agrees_bool. lia.
Qed.


Lemma saturating_mul_cover n size :
  0 ≤ n → 0 ≤ size →
  Z.min (n * size) usize_max ≤ saturating_mul n (saturating_add size_of_ref size) ∧
  0 ≤ saturating_mul n (saturating_add size_of_ref size).
Proof.
  intros Hn Hs. unfold saturating_mul, saturating_add, size_of_ref, usize_max.
  destruct (Z.le_gt_cases (8 + size) (2 ^ 64 - 1)).
  - rewrite (Z.min_l (8 + size)) by lia. nia.
  - rewrite (Z.min_r (8 + size)) by lia. destruct (decide (n = 0)) as [->|]; [lia|]. nia.
Qed.

Lemma keys_runs v m sp :
  as_json v = Some (VObject m) →
  runs env (keys env v sp) (Ok (Owned (VArray (VString <$> sort_by_key id (Map.keys m))))) agrees.
Proof.
  intros Hj. unfold keys. rewrite Hj. charge.
  assert (∀ a, 0 ≤ a ≤ usize_max → runs env (fold_m (λ bytes key,
      check_scalar env key sp ;;
      check_produced_string env (len key) sp ;;
      spend_fuel env (len key) sp "copying object key" ;;
      mret (saturating_add bytes (len key))) a (Map.keys m)) (Ok tt)
      (λ _ n _, n = Z.min (a + lens (Map.keys m)) usize_max)) as Hbytes.
  { induction (Map.keys m) as [|k ks IH]; intros a Ha; cbn [fold_m].
    - apply runs_ret. cbn. lia.
    - eapply (runs_bind_ok _ _ tt (λ _ n _, n = saturating_add a (len k))); [do 3 charge; by apply runs_ret|].
      intros c n _ ->. pose proof (len_nonneg k). pose proof (lens_nonneg ks).
      eapply runs_mono; [apply IH; unfold saturating_add, usize_max in *; lia|].
      cbn. fold (lens ks). intros c' n ? _ ->. unfold saturating_add. lia. }
  eapply runs_bind_ok; [apply Hbytes; unfold usize_max; lia|]. intros c n Hc ->.
  pose proof (lens_nonneg (Map.keys m)) as Hl.
  charge. apply runs_ret. split_and!; [done| |].
  - apply good_array, Forall_fmap, Forall_forall. done.
  - cbn [runtime_weight]. rewrite weight_array, length_fmap, (Permutation_length (sort_by_key_perm id (Map.keys m))).
    assert (weights (VString <$> sort_by_key id (Map.keys m)) = lens (Map.keys m)) as ->.
    { rewrite <- (lens_perm _ _ (sort_by_key_perm id (Map.keys m))).
      unfold weights, lens. induction (sort_by_key id (Map.keys m)) as [|k ks IH]; cbn; [done|].
      by rewrite IH. }
    unfold Map.keys. rewrite length_fmap. fold (Map.keys m).
    pose proof (saturating_mul_cover (Z.of_nat (length m)) (Z.of_N size_of_Value)).
    unfold saturating_add in *. lia.
Qed.

Lemma push_case_runs l out sp :
  runs env (fold_m (λ output mapped, push_case_character env mapped output sp) out l) (Ok tt)
    (λ c a _, a = out +:+ str_of_chars l ∧ c = len (str_of_chars l)).
Proof.
  revert out. induction l as [|c l IH]; intros out; cbn [fold_m].
  - apply runs_ret. by rewrite append_nil_r.
  - eapply (runs_bind_ok _ _ tt (λ n a _, a = out +:+ encode_utf8 c ∧ n = len (encode_utf8 c))).
    { unfold push_case_character. do 2 charge. apply runs_ret. split; [done|lia]. }
    intros n a _ [-> ->]. eapply runs_mono; [apply IH|]. intros c' a ? _ [-> ->].
    cbn [str_of_chars foldr]. fold (str_of_chars l). rewrite len_append, append_assoc. done.
Qed.

Lemma str_of_chars_app l l' : str_of_chars (l ++ l') = str_of_chars l +:+ str_of_chars l'.
Proof. unfold str_of_chars. induction l; cbn; [done|]. by rewrite IHl, append_assoc. Qed.

Lemma case_runs v s sp upper :
  as_json v = Some (VString s) →
  runs env (case env v sp upper)
    (Ok (Owned (VString (str_of_chars (chars s ≫= if upper then to_uppercase else to_lowercase))))) agrees.
Proof.
  intros Hj. unfold case. rewrite Hj. do 2 charge.
  set (f := if upper then to_uppercase else to_lowercase).
  assert (∀ l out, runs env (fold_m (λ output character,
      fold_m (λ output mapped, push_case_character env mapped output sp) output
        (if upper then to_uppercase character else to_lowercase character)) out l) (Ok tt)
      (λ c a _, a = out +:+ str_of_chars (l ≫= f) ∧ c = len (str_of_chars (l ≫= f)))) as Hgo.
  { induction l as [|x l IH]; intros out; cbn [fold_m].
    - apply runs_ret. by rewrite append_nil_r.
    - eapply runs_bind_ok; [apply push_case_runs|]. intros c a _ [-> ->].
      eapply runs_mono; [apply IH|]. intros c a ? _ [-> ->].
      change ((x :: l) ≫= f) with (f x ++ (l ≫= f)). rewrite str_of_chars_app, len_append, append_assoc.
      by subst f; destruct upper. }
  eapply runs_bind_ok; [apply Hgo|]. intros c a _ [-> ->]. rewrite append_nil_l.
  apply runs_ret, agrees_owned; [done|]. cbn. lia.
Qed.

Lemma text_result_runs (m : Ev string) t sp :
  runs env m (Ok tt) (λ c a _, a = t ∧ len t ≤ c) →
  runs env (output ← m ; check_produced_string env (len output) sp ;; mret (Owned (VString output)))
    (Ok (Owned (VString t))) agrees.
Proof.
  intros Hm. eapply runs_bind_ok; [exact Hm|]. intros c a _ [-> Hc]. charge.
  apply runs_ret, agrees_owned; [done|]. cbn. lia.
Qed.

Lemma produced_text_runs t sp :
  runs env (produced env t sp) (Ok tt) (λ c a _, a = t ∧ len t ≤ c).
Proof. unfold produced. do 2 charge. apply runs_ret. split; [done|lia]. Qed.

Lemma stringify_json_runs v j sp :
  as_json v = Some j → good j →
  runs env (stringify_json env v sp) (Ok (Owned (VString (json_text j)))) agrees.
Proof.
  intros Hj Hg. unfold stringify_json. rewrite Hj. cbn [ok_or].
  eapply runs_bind_ok; [apply (runs_lift _ (Ok _))|]. intros c a Hc [-> ->].
  eapply runs_mono; [apply text_result_runs, canonical_json_runs; done|]. done.
Qed.

Lemma stringify_explicit_runs v j sp :
  as_json v = Some j → good j →
  runs env (stringify_explicit env v sp)
    (Ok (Owned (VString (match j with VString s => s | _ => json_text j end)))) agrees.
Proof.
  intros Hj Hg. unfold stringify_explicit. rewrite Hj. cbn [ok_or].
  eapply runs_bind_ok; [apply (runs_lift _ (Ok _))|]. intros c a Hc [-> ->].
  eapply runs_mono; [apply text_result_runs|done].
  destruct j as [|b|n|s|vs|m]; try (by apply (canonical_json_runs _ _ _ Hg)); try apply produced_text_runs.
  - rewrite from_json_good by done. cbn [mbind result_bind]. rewrite canonical_good by done.
    eapply runs_bind_ok; [apply (runs_lift _ (Ok _))|]. intros c a _ [-> ->].
    eapply runs_mono; [apply produced_text_runs|]. done.
  - charge. eapply runs_mono; [apply produced_text_runs|]. done.
Qed.

Lemma clone_external_runs v sp :
  good v → runs env (clone_external env v sp) (Ok v) (λ c a x, a = x ∧ weight x ≤ c).
Proof.
  intros Hg. unfold clone_external. eapply runs_bind_ok; [by apply clone_runs|]. intros c a _ [-> Hw].
  eapply runs_bind_ok; [apply inspect_runs; unfold usize_max; lia|]. intros c' a Hc' _.
  apply runs_ret. split; [done|lia].
Qed.

Hypothesis json_good : ∀ s v rest, json_deserialize s = Ok (v, rest) → good v.

Lemma from_json_runs v s sp :
  as_json v = Some (VString s) →
  runs env (from_json env v sp) (function_meaning env FFromJson [VString s] sp) agrees.
Proof.
  intros Hj. unfold from_json. rewrite Hj. apply runs_guard. do 2 charge. cbn [function_meaning].
  eapply runs_lift_bind. intros [parsed rest] Hp.
  destruct (json_deserialize s) as [[v' rest']|] eqn:E; [|done]. injection Hp as <- <-.
  eapply runs_lift_bind. intros [] _.
  eapply runs_bind_ok; [apply clone_external_runs; by eapply json_good|]. intros c a _ [-> Hw].
  apply runs_ret, agrees_owned; [by eapply json_good|].
  unfold saturating_mul, usize_max. pose proof (len_nonneg s). lia.
Qed.

Lemma matches_runs v p s pattern sp :
  as_json v = Some (VString s) → as_json p = Some (VString pattern) →
  runs env (matches_regex env v p sp)
    (function_meaning env FMatches [VString s; VString pattern] sp) agrees.
Proof.
  intros Hj Hp. unfold matches_regex. rewrite Hj, Hp. do 2 apply runs_guard. charge.
  apply runs_get. intros b. apply runs_guard. charge. cbn [function_meaning].
  eapply runs_lift_bind. intros regex _. apply runs_ret, agrees_bool.
  unfold compiled_limit, saturating_mul, usize_max. pose proof (len_nonneg pattern). lia.
Qed.

Lemma number_runs v j sp :
  as_json v = Some j → good j →
  runs env (number env v sp) (function_meaning env FNumber [j] sp) agrees.
Proof.
  intros Hj Hg. unfold number. rewrite Hj, (type_name_json _ _ Hj).
  destruct j as [| |n|s| |]; cbn [function_meaning]; try apply runs_bind_throw.
  - rewrite from_json_good by done. unfold number_value. eapply runs_lift_bind. intros a _.
    apply number_value_runs.
  - unfold number_value.
    eapply (runs_bind _ _ _ (λ c a x, a = x ∧ 0 ≤ c)).
    { do 2 charge. eapply runs_mono; [apply runs_lift|]. cbn. intros c a x ? [-> ->]. done. }
    intros c a x Hc [-> _]. eapply runs_mono; [apply number_value_runs|]. intros c' a y _.
    apply agrees_mono. lia.
Qed.

(** Present arguments of a call and their values. *)
Definition argument (a : RuntimeValue) (v : Value) : Prop := as_json a = Some v ∧ good v.

Lemma apply_runs f values arguments sp :
  Forall2 argument values arguments →
  runs env (apply_function env f values sp) (function_meaning env f arguments sp) agrees.
Proof.
  intros Hargs.
  destruct Hargs as [|a v values arguments [Hj Hg] Hargs]; [by destruct f; apply runs_throw|].
  destruct f; cbn [apply_function].
  - by apply length_runs.
  - destruct Hargs as [|a' v' values' arguments' [Hj' Hg'] _]; [apply runs_throw|]. cbn [function_meaning].
    rewrite <- (erase_present _ _ Hj), <- (erase_present _ _ Hj').
    apply contains_runs; unfold good_runtime; [destruct a|destruct a']; naive_solver.
  - destruct v; try (unfold keys; rewrite Hj; apply runs_throw). by apply keys_runs.
  - destruct v; try (unfold case; rewrite Hj; apply runs_throw). by apply (case_runs _ _ _ true).
  - destruct v; try (unfold case; rewrite Hj; apply runs_throw). by apply (case_runs _ _ _ false).
  - by apply stringify_json_runs.
  - destruct v; try (unfold from_json; rewrite Hj; apply runs_throw). by apply from_json_runs.
  - rewrite (type_name_json _ _ Hj). do 2 charge. apply runs_ret, agrees_owned; [done|]. cbn. lia.
  - apply runs_throw.
  - destruct Hargs as [|a' v' values' arguments' [Hj' Hg'] _]; [apply runs_throw|].
    destruct v; try (unfold matches_regex; rewrite Hj; apply runs_throw).
    destruct v'; try (unfold matches_regex; rewrite Hj, Hj'; apply runs_throw).
    by apply matches_runs.
  - by apply stringify_explicit_runs.
  - by apply number_runs.
Qed.

(** ** Nodes *)

Lemma runs_strengthen {A B} (m : Ev A) (r : Compiled B) R :
  runs env m r R → runs env m r (λ c a x, r = Ok x ∧ R c a x).
Proof.
  intros Hm b. specialize (Hm b). destruct (m b) as [[a|e] b1]; [|done].
  destruct Hm as (Hsp & x & Hx & HR). split; [done|]. by exists x.
Qed.

Lemma runs_more (m : Ev RuntimeValue) r c :
  runs env m r agrees → 0 ≤ c → runs env m r (λ c', agrees (c + c')).
Proof. intros Hm Hc. eapply runs_mono; [exact Hm|]. intros c' a x _. apply agrees_mono. lia. Qed.

Lemma path_text_len_nonneg e : 0 ≤ path_text_len e.
Proof.
  induction e; cbn; try lia; try apply len_nonneg; try done;
    unfold saturating_add, usize_max; try pose proof (len_nonneg k); lia.
Qed.

Lemma agrees_missing c path : 0 ≤ c → agrees c (Missing path) (Missing path).
Proof. done. Qed.

Lemma extend_missing_runs path separator suffix sp :
  runs env (extend_missing env path separator suffix sp)
    (Ok (Missing (path +:+ separator +:+ suffix))) agrees.
Proof.
  unfold extend_missing. charge. apply runs_ret, agrees_missing. amount.
Qed.
Lemma expression_missing_runs target separator suffix sp :
  runs env (expression_missing env target separator suffix sp)
    (Ok (Missing (write_path_text target +:+ separator +:+ suffix))) agrees.
Proof.
  unfold expression_missing. pose proof (path_text_len_nonneg target). charge.
  apply runs_ret, agrees_missing. amount.
Qed.

Lemma member_runs c a x target key sp :
  0 ≤ c → agrees c a x →
  runs env (member_of env a target key sp) (member_meaning env x target key sp)
    (λ c', agrees (c + c')).
Proof.
  intros Hc (-> & Hg & Hw).
  assert (∀ wrap m, (wrap = Borrowed ∨ wrap = Owned ∧ Z.min (weight (VObject m)) usize_max ≤ c) → good (VObject m) →
    runs env (match Map.get key m with
              | Some value => mret (wrap value)
              | None => expression_missing env target "." key sp
              end) (Ok (present (Map.get key m) (write_path_text target +:+ "." +:+ key)))
      (λ c', agrees (c + c'))) as Hobj.
  { intros wrap m Hwrap Hm. destruct (Map.get key m) as [v|] eqn:Hk; cbn [present].
    - apply runs_ret. pose proof (weight_get _ _ _ Hk). pose proof (good_get _ _ _ Hm Hk).
      rewrite Z.add_0_r. destruct Hwrap as [-> | [-> ?]]; (split_and!; [done|done|cbn in *; lia]).
    - apply runs_more; [apply expression_missing_runs|done]. }
  destruct a as [[| | | | |m]|[| | | | |m]|path]; cbn [member_of member_meaning erase];
    first [ apply runs_throw
          | apply runs_more; [apply extend_missing_runs|done]
          | apply runs_more; [apply expression_missing_runs|done]
          | idtac ].
  - apply (Hobj Borrowed); [by left|done].
  - apply (Hobj Owned); [by right|done].
Qed.

Lemma check_index_runs index sp :
  runs env (validate_unknown_target_index env index sp) (check_index env index sp) (λ _ _ _, True).
Proof.
  unfold validate_unknown_target_index, check_index.
  destruct index; try apply runs_throw.
  - eapply runs_lift_bind. intros. by apply runs_ret.
  - charge. eapply runs_mono; [apply charges_spend; amount|]. done.
Qed.

(** What the array and object arms of [index_of] do with the element. *)
Lemma selected_runs c wrap v target sp :
  0 ≤ c → (∀ w, v = Some w → good w) →
  wrap = Borrowed ∨ wrap = Owned ∧ (∀ w, v = Some w → Z.min (weight w) usize_max ≤ c) →
  runs env (match v with
            | Some value => mret (wrap value)
            | None => expression_missing env target "[?]" "" sp
            end) (Ok (present v (write_path_text target +:+ "[?]"))) (λ c', agrees (c + c')).
Proof.
  intros Hc Hv Hwrap. destruct v as [v|]; cbn [present].
  - apply runs_ret. specialize (Hv v eq_refl). rewrite Z.add_0_r.
    destruct Hwrap as [-> | [-> Hwv]]; (split_and!; [done|done|]); [done|]. by apply Hwv.
  - pose proof (expression_missing_runs target "[?]" "" sp) as Hm.
    rewrite append_nil_r in Hm. by apply runs_more.
Qed.

Lemma object_at_runs m key isp :
  runs env (object_at env m (VString key) isp) (Ok (Map.get key m)) (λ c a x, c = 0 ∧ a = x).
Proof. unfold object_at. do 2 charge. by apply runs_ret. Qed.

Lemma object_index_runs c wrap m index target isp sp :
  0 ≤ c → good (VObject m) →
  wrap = Borrowed ∨ wrap = Owned ∧ Z.min (weight (VObject m)) usize_max ≤ c →
  runs env (v ← object_at env m index isp ;
            match v with
            | Some value => mret (wrap value)
            | None => expression_missing env target "[?]" "" sp
            end)
    (match index with
     | VString key => Ok (present (Map.get key m) (write_path_text target +:+ "[?]"))
     | _ => Err (eval_error env isp "object index must evaluate to a string")
     end) (λ c', agrees (c + c')).
Proof.
  intros Hc Hm Hwrap. destruct index; try apply runs_bind_throw.
  eapply runs_bind_ok; [apply object_at_runs|]. intros ? ? _ [-> ->].
  eapply runs_mono; [apply (selected_runs c wrap)|]; [done| | |by intros; rewrite Z.add_0_l].
  - intros w. by apply good_get.
  - destruct Hwrap as [?|[? Hw]]; [by left|right]. split; [done|].
    intros w Hg%weight_get. lia.
Qed.

Lemma array_index_runs c wrap l position target sp :
  0 ≤ c → good (VArray l) →
  wrap = Borrowed ∨ wrap = Owned ∧ Z.min (weight (VArray l)) usize_max ≤ c →
  runs env (match nth_value l position with
            | Some value => mret (wrap value)
            | None => expression_missing env target "[?]" "" sp
            end)
    (Ok (present (nth_value l position) (write_path_text target +:+ "[?]"))) (λ c', agrees (c + c')).
Proof.
  intros Hc Hm Hwrap. destruct position as [p|]; cbn [nth_value mbind option_bind].
  - apply selected_runs; [done|intros w; by apply good_nth|].
    destruct Hwrap as [?|[? Hw]]; [by left|right]. split; [done|].
    intros w Hg%weight_nth. lia.
  - by apply (selected_runs c wrap None); [|done|destruct Hwrap as [?|[? _]]; [left|right]].
Qed.

Lemma index_runs c a x index target isp sp :
  0 ≤ c → agrees c a x →
  runs env (index_of env a index target isp sp) (index_meaning env x index target isp sp)
    (λ c', agrees (c + c')).
Proof.
  intros Hc (-> & Hg & Hw).
  destruct a as [[| | | |l|m]|[| | | |l|m]|p]; cbn [index_of index_meaning erase]; try apply runs_throw.
  - eapply runs_bind; [apply check_index_runs|]. intros.
    pose proof (expression_missing_runs target "[?]" "" sp) as Hm.
    rewrite append_nil_r in Hm. eapply runs_mono; [done|]. intros ????. apply agrees_mono. lia.
  - eapply runs_lift_bind. intros position _. by apply array_index_runs; auto.
  - by apply object_index_runs; auto.
  - eapply runs_bind; [apply check_index_runs|]. intros.
    pose proof (expression_missing_runs target "[?]" "" sp) as Hm.
    rewrite append_nil_r in Hm. eapply runs_mono; [done|]. intros ????. apply agrees_mono. lia.
  - eapply runs_lift_bind. intros position _. eapply (runs_charge _ _ 0).
    + destruct position; [apply charges_elements|by apply runs_ret].
    + cbn. by apply array_index_runs; auto.
  - by apply object_index_runs; auto.
  - eapply runs_bind; [apply check_index_runs|]. intros.
    pose proof (extend_missing_runs p "[?]" "" sp) as Hm.
    rewrite append_nil_r in Hm. eapply runs_mono; [done|]. intros ????. apply agrees_mono. lia.
Qed.

Lemma numeric_binary_runs op l r sp :
  runs env (lift (numeric_binary env op l r sp)) (numeric_meaning env op (erase l) (erase r) sp) agrees.
Proof.
  rewrite numeric_meaning_exact, erase_numeric_binary. eapply runs_mono; [apply runs_strengthen, runs_lift|].
  cbn. intros c a x _ (Hx & -> & <-). revert Hx. unfold numeric_binary, numeric_at_span, at_span.
  repeat (match goal with |- (?r ≫= _) = _ → _ => destruct r; cbn [mbind result_bind]; [|done] end).
  destruct (Numeric.to_json _) as [v|] eqn:E; cbn; [|done]. intros [= <-].
  apply to_json_good in E as [? Hw]. split_and!; cbn; [done|done|]. rewrite Hw. unfold usize_max. lia.
Qed.

Lemma deep_equal_runs {B} l r sp (k : bool → Ev RuntimeValue) (g : bool → Compiled B) R :
  let missing := eval_error env sp "equality cannot be applied to a missing path" in
  good_runtime l → good_runtime r →
  (∀ b c, 0 ≤ c → runs env (k b) (g b) (λ c', R (c + c'))) →
  runs env (b ← deep_equal env l r 1 sp ; k b)
    (l ← ok_or (as_json l) missing ; r ← ok_or (as_json r) missing ; g (value_equal l r)) R.
Proof.
  intros missing Hl Hr Hk. pose proof (good_as_json l) as Hgl. pose proof (good_as_json r) as Hgr.
  unfold deep_equal. destruct (as_json l) as [l'|]; [|apply runs_bind_throw].
  destruct (as_json r) as [r'|]; [|apply runs_bind_throw].
  eapply (runs_bind_ok _ _ _ (λ c a x, a = x)); [|intros c a Hc ->; by apply Hk].
  apply deep_equal_json_runs; auto.
Qed.

Lemma strict_binary_runs op l r sp :
  good_runtime l → good_runtime r →
  runs env (eval_strict_binary env op l r sp) (binary_meaning env op (erase l) (erase r) sp) agrees.
Proof.
  intros Hl Hr. destruct op; cbn [eval_strict_binary binary_meaning]; rewrite ?erase_json;
    try apply runs_throw; try apply numeric_binary_runs; try (by apply contains_runs).
  all: try (eapply runs_bind; [by apply order_runs|]; cbn; intros c a x Hc ->;
            apply runs_ret, agrees_bool; lia).
  2: apply (deep_equal_runs l r sp _ (λ b, Ok (Owned (VBool b)))); [done..|];
     intros b c Hc; apply runs_ret, agrees_bool; lia.
  2: apply (deep_equal_runs l r sp _ (λ b, Ok (Owned (VBool (negb b))))); [done..|];
     intros b c Hc; apply runs_ret, agrees_bool; lia.
  unfold eval_add.
  destruct (as_json l) as [[| | |ls| |]|], (as_json r) as [[| | |rs| |]|]; try apply numeric_binary_runs.
  do 2 charge. unfold checked_add. destruct (_ <=? usize_max); [|apply runs_limit].
  eapply runs_bind_ok; [apply (runs_lift _ (Ok _))|]. intros c a _ [-> ->].
  do 3 charge. apply runs_ret, agrees_owned; [done|]. cbn. rewrite len_append. lia.
Qed.

Lemma array_weights c (l l' : list Value) :
  all_run (λ c a x, a = x ∧ good x ∧ Z.min (weight x) usize_max ≤ c) c l l' →
  l = l' ∧ Forall good l ∧ Z.min (weights l) usize_max ≤ c ∧ 0 ≤ c.
Proof.
  induction 1 as [|c c' a x l l' (-> & Hg & Hw) _ (-> & Hgs & IH & Hc)]; [done|].
  split_and!; [done|by constructor| |].
  - pose proof (weight_nonneg x). cbn. fold (weights l'). lia.
  - pose proof (weight_nonneg x). unfold usize_max in Hw. lia.
Qed.

Definition object_invariant (c : Z) (m m' : Map.t) : Prop :=
  m = m' ∧ good (VObject m) ∧ Z.min (entry_weights m) usize_max ≤ c.

Lemma insert_Forall (P : Value → Prop) k v m :
  P v → Forall (λ kv, P kv.2) m → Forall (λ kv, P kv.2) (Map.insert k v m).
Proof.
  intros Hv Hm. induction Hm as [|[k' v'] m Hv' Hm IH]; cbn; [by repeat constructor|].
  destruct (String.compare k k'); repeat constructor; auto.
Qed.

Lemma object_insert c c' key v m :
  object_invariant c m m → good v → Z.min (weight v) usize_max ≤ c' → 0 ≤ c' → 0 ≤ c →
  object_invariant (c + (len key + c')) (Map.insert key v m) (Map.insert key v m).
Proof.
  intros (_ & [Hs Hg]%good_object & Hw) Hv Hwv Hc Hc'. split_and!; [done| |].
  - apply good_object. split; [by apply MapFacts.insert_sorted|].
    by apply insert_Forall.
  - pose proof (entry_weights_insert key v m). pose proof (len_nonneg key).
    pose proof (entry_weights_nonneg m). pose proof (weight_nonneg v). lia.
Qed.

Abbreviation meaning e := (runs env (evaluate env e) (denote env e) agrees).

Lemma element_runs e p :
  meaning e →
  runs env (v ← evaluate env e ; own env v (expr_span e) p)
    (v ← denote env e ; stored env v (expr_span e) p)
    (λ c a x, a = x ∧ good x ∧ Z.min (weight x) usize_max ≤ c).
Proof.
  intros He. eapply runs_bind; [exact He|]. intros c a x Hc (-> & Hg & Hw). by apply own_runs.
Qed.

Lemma result_map_length {A B} (f : A → Compiled B) l ys :
  result_map f l = Ok ys → length ys = length l.
Proof.
  revert ys. induction l as [|x l IH]; cbn; intros ys; [by intros [= <-]|].
  destruct (f x); cbn; [|done]. fold (result_map f).
  destruct (result_map f l) as [ys'|]; cbn; [|done]. intros [= <-]. cbn. by rewrite (IH ys').
Qed.

Lemma array_runs es sp : Forall (λ e, meaning e) es → meaning (MkExpr (KArray es) sp).
Proof.
  intros Hes. cbn [evaluate denote]. charge. charge.
  eapply runs_bind; [eapply runs_strengthen, runs_try_map|].
  - intros e He. apply element_runs. rewrite Forall_forall in Hes. by apply Hes.
  - cbn. intros c vs xs Hc [Hxs (-> & Hgood & Hw & _)%array_weights]. apply runs_ret.
    split_and!; [done|by apply good_array|].
    apply result_map_length in Hxs as Hlen.
    cbn [runtime_weight]. rewrite weight_array, Hlen. lia.
Qed.

Lemma entry_runs key e c m m' :
  0 ≤ c → meaning e → object_invariant c m m' →
  runs env (check_scalar env key (expr_span e) ;;
            allocate env (len key) (expr_span e) ;;
            evaluated ← evaluate env e ;
            value ← own env evaluated (expr_span e) "object value" ;
            mret (Map.insert key value m))
    (kv ← (v ← denote env e ; v ← stored env v (expr_span e) "object value" ; Ok (key, v)) ;
     Ok (let '(key, v) := kv in Map.insert key v m'))
    (λ c', object_invariant (c + c')).
Proof.
  intros Hc0 He HI. assert (m = m') as <- by apply HI. do 2 charge.
  replace (kv ← _ ; _) with (v ← denote env e ; v ← stored env v (expr_span e) "object value" ;
    Ok (Map.insert key v m) : Compiled Map.t).
  2: { destruct (denote env e) as [x|]; cbn; [|done]. by destruct (stored env x _ _). }
  eapply runs_bind; [exact He|]. intros c1 a x Hc1 (-> & Hg & Hw).
  eapply runs_bind; [by apply own_runs|]. intros c2 v v' Hc2 (-> & Hv & Hw2).
  apply runs_ret. rewrite Z.add_0_l, Z.add_0_r.
  by apply object_insert; [..|lia|].
Qed.

Lemma object_runs es sp :
  Forall (λ ke, meaning ke.2) es → meaning (MkExpr (KObject es) sp).
Proof.
  intros Hes. cbn [evaluate denote]. charge. charge.
  set (entry := λ '(key, e), v ← denote env e ; v ← stored env v (expr_span e) "object value" ; Ok (key, v)).
  set (insert := λ m '(key, v), Map.insert key v m).
  replace (result_map entry es ≫= _)
    with (m ← (kvs ← result_map entry es ; Ok (foldl insert [] kvs)) ; Ok (Owned (VObject m)))
    by by destruct (result_map entry es).
  rewrite <- result_fold_map. eapply runs_bind; [eapply runs_strengthen|].
  - apply (runs_fold (B := Map.t) (C := Map.t) _ _ (λ c m m', 0 ≤ c ∧ object_invariant c m m')).
    + intros c m m' [key e] He [Hc HI]. rewrite Forall_forall in Hes. specialize (Hes _ He). cbn in Hes.
      eapply runs_mono; [by apply entry_runs|]. cbn. intros c' ? ? ? ?. split; [lia|done].
    + split; [done|]. split_and!; [done|by apply good_object; split; constructor|done].
  - cbn. intros c m m' Hc [Hm (_ & -> & Hg & Hw)]. apply runs_ret.
    split_and!; [done|done|]. rewrite result_fold_map in Hm.
    assert (length m' ≤ length es)%nat as Hlen.
    { destruct (result_map entry es) as [kvs|] eqn:Hkvs; [|done]. injection Hm as <-.
      etrans; [apply rebuild_length|]. cbn. by rewrite (result_map_length _ _ _ Hkvs). }
    cbn [runtime_weight]. rewrite weight_object.
    assert (0 ≤ Z.of_N size_of_StringValue * 2) as Hsize by lia. revert Hsize.
    generalize (Z.of_N size_of_StringValue * 2). intros size Hsize.
    pose proof (saturating_mul_mono (Z.of_nat (length m')) (Z.of_nat (length es)) size ltac:(lia) Hsize).
    pose proof (saturating_mul_nonneg (Z.of_nat (length m')) size ltac:(lia) Hsize). lia.
Qed.

Lemma call_runs f es sp :
  Forall (λ e, meaning e) es →
  runs env (allocate env (Z.of_nat (length es) * Z.of_N size_of_RuntimeValue) sp ;;
            values ← try_map (λ argument,
              value ← evaluate env argument ;
              match value with
              | Missing path =>
                  throw (eval_error env (expr_span argument)
                    ("function `" +:+ function_name f +:+ "` received missing path `" +:+ path +:+ "`"))
              | _ => mret value
              end) es ;
            apply_function env f values sp)
    (vs ← result_map (λ e,
       v ← denote env e ;
       match v with
       | Borrowed v | Owned v => Ok v
       | Missing path =>
           Err (eval_error env (expr_span e)
             ("function `" +:+ function_name f +:+ "` received missing path `" +:+ path +:+ "`"))
       end) es ;
     function_meaning env f vs sp) agrees.
Proof.
  intros Hes. charge.
  eapply runs_bind; [apply (runs_try_map _ _ (λ _ a v, argument a v))|].
  - intros e He. rewrite Forall_forall in Hes. eapply runs_bind; [by apply Hes|].
    intros c a x _ (-> & Hg & _). destruct a; cbn [erase]; [by apply runs_ret..|apply runs_throw].
  - intros c vs xs Hc Hvs. assert (Forall2 argument vs xs) as Hargs.
    { clear Hc. induction Hvs; [by apply Forall2_nil|by apply Forall2_cons]. }
    eapply runs_mono; [by apply apply_runs|]. intros ????. apply agrees_mono. lia.
Qed.

Hypothesis context_good : ∀ name v, context_get (context env) name = Ok (Some v) → good v.

Lemma literal_runs l sp : meaning (MkExpr (KLiteral l) sp).
Proof.
  cbn [evaluate denote]. charge. destruct l as [|b|s|n]; unfold eval_literal.
  - by apply runs_ret, agrees_owned.
  - by apply runs_ret, agrees_bool.
  - eapply (runs_bind_ok _ _ tt (λ c v _, c = len s ∧ v = VString s)).
    + do 2 charge. apply runs_ret. split; [lia|done].
    + intros c a _ [-> ->]. apply runs_ret, agrees_owned; [done|]. cbn. lia.
  - apply number_value_runs.
Qed.

Lemma variable_runs name sp : meaning (MkExpr (KVariable name) sp).
Proof.
  cbn [evaluate denote]. charge. unfold eval_variable. do 2 charge.
  eapply runs_lift_bind. intros [v|] Hv; cbn [present].
  - apply runs_ret. split_and!; [done| |done]. cbn. apply (context_good name).
    revert Hv. unfold at_span. destruct (context_get _ name); [|done]. by intros [= ->].
  - charge. apply runs_ret, agrees_missing. amount.
Qed.

Lemma unary_runs o e sp : meaning e → meaning (MkExpr (KUnary o e) sp).
Proof.
  intros He. cbn [evaluate]. charge.
  destruct o; cbn [denote]; (eapply runs_bind; [exact He|]); intros c a x Hc (-> & _ & _).
  1: rewrite erase_bool; eapply runs_lift_bind; intros b _; apply runs_ret, agrees_bool; lia.
  all: rewrite erase_number; eapply runs_lift_bind; intros n _; unfold number_value; cbn [decide].
  all: eapply runs_lift_bind; intros n' _; apply runs_more; [apply number_value_runs|done].
Qed.

Lemma binary_runs o l r sp : meaning l → meaning r → meaning (MkExpr (KBinary o l r) sp).
Proof.
  intros Hl Hr. cbn [evaluate]. charge.
  destruct o; cbn [denote]; (eapply runs_bind; [exact Hl|]); intros c a x Hc Ha;
    destruct (Ha) as (-> & Hg & _).
  all: try (eapply runs_bind; [exact Hr|]; intros c' a' x' Hc' (-> & Hg' & _);
    eapply runs_mono; [by apply strict_binary_runs|]; intros ????; apply agrees_mono; lia).
  - rewrite erase_bool. eapply runs_lift_bind. intros [] _; cbn [negb]; [|apply runs_ret, agrees_bool; lia].
    eapply runs_bind; [exact Hr|]. intros c' a' x' Hc' (-> & _ & _). rewrite erase_bool.
    eapply runs_lift_bind. intros b _. apply runs_ret, agrees_bool. lia.
  - rewrite erase_bool. eapply runs_lift_bind. intros [] _; [apply runs_ret, agrees_bool; lia|].
    eapply runs_bind; [exact Hr|]. intros c' a' x' Hc' (-> & _ & _). rewrite erase_bool.
    eapply runs_lift_bind. intros b _. apply runs_ret, agrees_bool. lia.
  - rewrite erase_nullish. destruct (is_nullish a); [by apply runs_more|].
    apply runs_ret. by rewrite Z.add_0_r.
Qed.

Lemma exists_runs e :
  meaning e →
  runs env (value ← evaluate env e ;
            mret (Owned (VBool (match value with Borrowed _ | Owned _ => true | Missing _ => false end))))
    (v ← denote env e ; Ok (Owned (VBool (match v with Missing _ => false | _ => true end)))) agrees.
Proof.
  intros He. eapply runs_bind; [exact He|]. intros c a x Hc (-> & _ & _).
  destruct a; apply runs_ret, agrees_bool; lia.
Qed.

Theorem evaluate_runs e : meaning e.
Proof.
  induction e as [l sp|name sp|t k sp IHt|t i sp IHt IHi|es sp IHes|es sp IHes|o e sp IHe
                 |o l r sp IHl IHr|c t e sp IHc IHt IHe|f es sp IHes|e sp IHe] using Expr_ind.
  - apply literal_runs.
  - apply variable_runs.
  - cbn [evaluate denote]. do 4 charge. eapply runs_bind; [exact IHt|].
    intros c a x Hc Ha. by apply member_runs.
  - cbn [evaluate denote]. do 2 charge. eapply runs_bind; [exact IHt|]. intros c a x Hc Ha.
    eapply runs_bind; [exact IHi|]. intros c' i' x' Hc' (-> & _ & _). rewrite erase_json.
    eapply runs_lift_bind. intros j _.
    eapply runs_mono; [by apply (index_runs c)|]. intros ????. apply agrees_mono. lia.
  - by apply array_runs.
  - by apply object_runs.
  - by apply unary_runs.
  - by apply binary_runs.
  - cbn [evaluate denote]. charge. eapply runs_bind; [exact IHc|]. intros n a x Hn (-> & _ & _).
    rewrite erase_bool. eapply runs_lift_bind. intros [] _; by apply runs_more.
  - cbn [evaluate]. charge.
    destruct f; try (by apply (call_runs _ es sp)).
    destruct es as [|e es]; [by apply (call_runs _ [] sp)|]. inversion IHes; subst. by apply exists_runs.
  - cbn [evaluate denote]. charge. done.
Qed.
End loops.
