(* ===== verification/StaticTypes.v ===== *)
(** * Static result types

    [infer_static_type] of [expression/mod.rs] and the validator of
    [expression/static_types.rs], which rejects at compile time the
    operators and calls whose operand types can never be right. *)

From S2P Require Import Prelude Float64 Json Numeric ExprSyntax.

Inductive ExpressionValueType := TyNull | TyBool | TyNumber | TyString | TyArray | TyObject.

#[export] Instance ExpressionValueType_eq_dec : EqDecision ExpressionValueType.
Proof. solve_decision. Defined.

(** [ExpressionValueType::as_str]. *)
Definition type_str (t : ExpressionValueType) : string :=
  match t with
  | TyNull => "null"
  | TyBool => "bool"
  | TyNumber => "number"
  | TyString => "string"
  | TyArray => "array"
  | TyObject => "object"
  end.

(** The arms of [infer_static_type] for [Add], on the types of the operands. *)
Definition infer_add (l r : option ExpressionValueType) : option ExpressionValueType :=
  match l, r with
  | Some TyString, _ | _, Some TyString => Some TyString
  | Some TyNumber, _ | _, Some TyNumber => Some TyNumber
  | _, _ => None
  end.

(** The arms of [infer_static_type] for [Call]. *)
Definition infer_call (function : BuiltinFunction) : option ExpressionValueType :=
  match function with
  | FLength | FNumber => Some TyNumber
  | FContains | FExists | FMatches => Some TyBool
  | FKeys => Some TyArray
  | FUpper | FLower | FJson | FType | FString => Some TyString
  | FFromJson => None
  end.

(** [infer_static_type]. *)
Fixpoint infer_static_type (e : Expr) : option ExpressionValueType :=
  match expr_kind e with
  | KLiteral LNull => Some TyNull
  | KLiteral (LBool _) => Some TyBool
  | KLiteral (LString _) => Some TyString
  | KLiteral (LNumber _) => Some TyNumber
  | KArray _ => Some TyArray
  | KObject _ => Some TyObject
  | KVariable _ | KMember _ _ | KIndex _ _ => None
  | KGroup inner => infer_static_type inner
  | KUnary Not _ => Some TyBool
  | KUnary (Plus | Minus) _ => Some TyNumber
  | KBinary operator lhs rhs =>
      match operator with
      | Equal | NotEqual | Less | LessEqual | Greater | GreaterEqual | In | And | Or => Some TyBool
      | Subtract | Multiply | Divide | Remainder => Some TyNumber
      | Add => infer_add (infer_static_type lhs) (infer_static_type rhs)
      | Coalesce =>
          match infer_static_type lhs with
          | Some TyNull => infer_static_type rhs
          | Some kind => Some kind
          | None => None
          end
      end
  | KConditional _ then_branch else_branch =>
      let then_type := infer_static_type then_branch in
      if decide (then_type = infer_static_type else_branch) then then_type else None
  | KCall function _ => infer_call function
  end.

(** [unary_symbol] and [binary_symbol]. *)
Definition unary_symbol (operator : UnaryOperator) : string :=
  match operator with Not => "!" | Plus => "+" | Minus => "-" end.
Definition binary_symbol (operator : BinaryOperator) : string :=
  match operator with
  | Add => "+" | Subtract => "-" | Multiply => "*" | Divide => "/" | Remainder => "%"
  | Equal => "==" | NotEqual => "!=" | Less => "<" | LessEqual => "<=" | Greater => ">"
  | GreaterEqual => ">=" | In => "in" | And => "&&" | Or => "||" | Coalesce => "??"
  end.

Section validator.
Context (source : string) (field : option string).

(** [StaticTypeValidator::error]. *)
Definition static_error (e : Expr) (message : string) : ExpressionError :=
  error_new Parse field source (expr_span e) message.

(** [StaticTypeValidator::require]. *)
Definition require (operand : Expr) (allowed : list ExpressionValueType) (purpose expected : string)
    : Compiled unit :=
  match infer_static_type operand with
  | None => Ok tt
  | Some actual =>
      if decide (actual ∈ allowed) then Ok tt
      else Err (Reported (static_error operand
             (purpose +:+ " is statically " +:+ type_str actual +:+ "; expected " +:+ expected)))
  end.

(** [StaticTypeValidator::unary]. *)
Definition static_unary (operator : UnaryOperator) (operand : Expr) : Compiled unit :=
  match operator with
  | Not => require operand [TyBool] "operator `!` operand" "bool"
  | Plus | Minus =>
      require operand [TyNumber] ("operator `" +:+ unary_symbol operator +:+ "` operand") "number"
  end.

(** [StaticTypeValidator::require_boolean_operand]. *)
Definition require_boolean_operand (operator : BinaryOperator) (operand : Expr) (side : string)
    : Compiled unit :=
  match infer_static_type operand with
  | None => Ok tt
  | Some actual =>
      if decide (actual = TyBool) then Ok tt
      else
        symbol ← (match operator with And => Ok "&&"%string | Or => Ok "||"%string | _ => Err Panic end) ;
        let error := static_error operand
          ("operator `" +:+ symbol +:+ "` " +:+ side +:+ " operand is statically " +:+
           type_str actual +:+ "; expected bool") in
        if decide (operator = Or) then
          Err (Reported (with_correction error
            "use `??` for missing/null fallback; `||` accepts bool operands only"))
        else Err (Reported error)
  end.

(** [StaticTypeValidator::require_matching_scalar_pair]. *)
Definition require_matching_scalar_pair (lhs rhs : Expr) (purpose expected : string) : Compiled unit :=
  require lhs [TyNumber; TyString] (purpose +:+ " left operand") expected ;;
  require rhs [TyNumber; TyString] (purpose +:+ " right operand") expected ;;
  match infer_static_type lhs, infer_static_type rhs with
  | Some left_type, Some right_type =>
      if decide (left_type = right_type) then Ok tt
      else Err (Reported (static_error rhs
             (purpose +:+ " requires " +:+ expected +:+ "; operands are statically " +:+
              type_str left_type +:+ "/" +:+ type_str right_type)))
  | _, _ => Ok tt
  end.

(** [StaticTypeValidator::require_membership]. *)
Definition require_membership (needle container : Expr) (purpose : string) : Compiled unit :=
  require container [TyArray; TyObject; TyString] (purpose +:+ " container")
    "array, object, or string" ;;
  match infer_static_type container with
  | Some (TyObject | TyString) =>
      require needle [TyString] (purpose +:+ " key/needle") "string"
  | _ => Ok tt
  end.

(** [StaticTypeValidator::binary]. *)
Definition static_binary (operator : BinaryOperator) (lhs rhs : Expr) : Compiled unit :=
  let pair := "number/number or string/string" in
  match operator with
  | And | Or =>
      require_boolean_operand operator lhs "left" ;; require_boolean_operand operator rhs "right"
  | Subtract | Multiply | Divide | Remainder =>
      let purpose := "operator `" +:+ binary_symbol operator +:+ "`" in
      require lhs [TyNumber] (purpose +:+ " left operand") "number" ;;
      require rhs [TyNumber] (purpose +:+ " right operand") "number"
  | Add => require_matching_scalar_pair lhs rhs "operator `+`" pair
  | Less | LessEqual | Greater | GreaterEqual =>
      require_matching_scalar_pair lhs rhs ("operator `" +:+ binary_symbol operator +:+ "`") pair
  | In => require_membership lhs rhs "operator `in`"
  | Equal | NotEqual | Coalesce => Ok tt
  end.

(** [StaticTypeValidator::call]; indexing past the arguments panics. *)
Definition static_call (function : BuiltinFunction) (arguments : list Expr) : Compiled unit :=
  first ← ok_or (arguments !! 0%nat) Panic ;
  match function with
  | FLength =>
      require first [TyArray; TyObject; TyString] "function `length` argument"
        "array, object, or string"
  | FContains =>
      second ← ok_or (arguments !! 1%nat) Panic ;
      require_membership second first "function `contains`"
  | FKeys => require first [TyObject] "function `keys` argument" "object"
  | FUpper | FLower =>
      require first [TyString] ("function `" +:+ function_name function +:+ "` argument") "string"
  | FFromJson => require first [TyString] "function `from_json` argument" "string"
  | FMatches =>
      require first [TyString] "function `matches` value" "string" ;;
      second ← ok_or (arguments !! 1%nat) Panic ;
      require second [TyString] "function `matches` pattern" "string"
  | FNumber => require first [TyNumber; TyString] "function `number` argument" "number or string"
  | FJson | FType | FExists | FString => Ok tt
  end.

(** [StaticTypeValidator::expression]. *)
Fixpoint static_expression (e : Expr) : Compiled unit :=
  let all := fix all l :=
    match l with [] => Ok tt | e :: l => static_expression e ;; all l end in
  let all_entries := fix all (l : list (string * Expr)) :=
    match l with [] => Ok tt | (_, e) :: l => static_expression e ;; all l end in
  match expr_kind e with
  | KLiteral _ | KVariable _ => Ok tt
  | KMember target _ => static_expression target
  | KIndex target index => static_expression target ;; static_expression index
  | KArray elements => all elements
  | KObject entries => all_entries entries
  | KUnary operator operand => static_expression operand ;; static_unary operator operand
  | KBinary operator lhs rhs =>
      static_expression lhs ;; static_expression rhs ;; static_binary operator lhs rhs
  | KConditional condition then_branch else_branch =>
      static_expression condition ;;
      static_expression then_branch ;;
      static_expression else_branch ;;
      require condition [TyBool] "ternary condition" "bool"
  | KCall function arguments => all arguments ;; static_call function arguments
  | KGroup inner => static_expression inner
  end.

End validator.

(** [static_types::validate]. *)
Definition validate (root : Expr) (source : string) (field : option string) : Compiled unit :=
  static_expression source field root.
