(* ===== verification/TypeSoundness.v ===== *)
(** * Static types are right

    The type [infer_static_type] gives an expression is the type of every
    value it evaluates to, and what the static validator rejects can never
    be evaluated. *)

From S2P Require Import Prelude Float64 Json Numeric ExprSyntax Parser Budget Functions Evaluator.
From S2P Require Import Denotation Refinement StaticTypes.

Section typed.
Context `{Externals} (env : EvalEnv).

(** [r] produces only values of type [t]. *)
Definition typed (r : Compiled RuntimeValue) (t : ExpressionValueType) : Prop :=
  ∀ v, r = Ok v → type_name v = type_str t.

Lemma typed_bind {A} (r : Compiled A) f t : (∀ a, r = Ok a → typed (f a) t) → typed (r ≫= f) t.
Proof. intros Hf v. destruct r as [a|]; cbn; [by apply Hf|done]. Qed.
Lemma typed_err f t : typed (Err f) t.
Proof. done. Qed.
Lemma typed_owned j t : json_type j = type_str t → typed (Ok (Owned j)) t.
Proof. by intros Hj v [= <-]. Qed.

Lemma to_json_number sp n : typed (Owned <$> at_span env sp (Numeric.to_json n)) TyNumber.
Proof.
  unfold at_span, Numeric.to_json. destruct n; cbn; try (by apply typed_owned).
  destruct (Number.from_f64 _); cbn; [by apply typed_owned|done].
Qed.
Lemma number_value_number sp n : typed (number_value env sp n) TyNumber.
Proof. apply typed_bind. intros. apply to_json_number. Qed.
Lemma numeric_meaning_number op l r sp : typed (numeric_meaning env op l r sp) TyNumber.
Proof. rewrite numeric_meaning_exact. do 3 (apply typed_bind; intros). apply to_json_number. Qed.

Create HintDb typed.
#[local] Hint Resolve typed_err typed_owned to_json_number number_value_number numeric_meaning_number : typed.

Ltac typed_tac :=
  repeat first [ progress (auto with typed) | apply typed_bind; intros | progress cbn | case_match ].

Lemma contains_bool c n sp : typed (contains_meaning env c n sp) TyBool.
Proof. unfold contains_meaning. destruct (as_json c) as [[]|]; typed_tac. Qed.
#[local] Hint Resolve contains_bool : typed.

Lemma function_typed f vs sp t : infer_call f = Some t → typed (function_meaning env f vs sp) t.
Proof.
  intros Ht. destruct vs as [|v [|v' vs]]; destruct f; try discriminate Ht; injection Ht as <-;
    cbn [function_meaning]; auto with typed; destruct v; typed_tac.
Qed.

Lemma require_number_typed v sp p n : require_number env v sp p = Ok n → type_name v = type_str TyNumber.
Proof. unfold require_number. by destruct v as [[]|[]|]. Qed.
Lemma require_bool_typed v sp p b : require_bool env v sp p = Ok b → type_name v = type_str TyBool.
Proof. unfold require_bool. by destruct v as [[]|[]|]. Qed.

Lemma numeric_meaning_operands op l r sp v :
  numeric_meaning env op l r sp = Ok v → type_name l = type_str TyNumber ∧ type_name r = type_str TyNumber.
Proof.
  rewrite numeric_meaning_exact. unfold numeric_binary.
  destruct (require_number env l _ _) eqn:El; cbn; [|done].
  destruct (require_number env r _ _) eqn:Er; cbn; [|done]. intros _.
  split; by eapply require_number_typed.
Qed.

(** Addition takes two numbers or two strings to a value of the same type. *)
Lemma add_typed l r sp v :
  binary_meaning env Add l r sp = Ok v →
  ∃ t, (t = TyNumber ∨ t = TyString) ∧ type_name v = type_str t ∧ type_name l = type_str t ∧ type_name r = type_str t.
Proof.
  cbn [binary_meaning]. intros Hv.
  destruct (decide (type_name l = "string" ∧ type_name r = "string")%string) as [[Hl Hr]|Hn].
  - exists TyString. split; [by right|]. destruct l as [[]|[]|], r as [[]|[]|]; try done;
      injection Hv as <-; done.
  - assert (numeric_meaning env Add l r sp = Ok v) as Hb.
    { destruct l as [[]|[]|], r as [[]|[]|]; cbn in *; try done; exfalso; apply Hn; done. }
    exists TyNumber. split; [by left|]. split; [by eapply numeric_meaning_number|].
    by eapply numeric_meaning_operands.
Qed.

Lemma type_str_inj t t' : type_str t = type_str t' → t = t'.
Proof. by destruct t, t'. Qed.

Lemma binary_typed op l r sp v :
  binary_meaning env op l r sp = Ok v →
  match op with
  | Subtract | Multiply | Divide | Remainder => type_name v = type_str TyNumber
  | Add | And | Or | Coalesce => True
  | _ => type_name v = type_str TyBool
  end.
Proof.
  destruct op; cbn [binary_meaning]; try done;
    try (by apply numeric_meaning_number); try (by apply contains_bool).
  all: match goal with |- ?r = Ok _ → _ => enough (typed r TyBool) by auto end; typed_tac.
Qed.

(** The meaning of an expression has its static type. *)
Lemma denote_typed e t : infer_static_type e = Some t → typed (denote env e) t.
Proof.
  revert t.
  induction e as [l sp|name sp|tg k sp IHt|tg i sp IHt IHi|es sp IHes|es sp IHes|o e sp IHe
                 |o l r sp IHl IHr|c th e sp IHc IHt IHe|f es sp IHes|e sp IHe] using Expr_ind;
    intros t Ht; cbn [infer_static_type expr_kind denote] in *.
  - destruct l; injection Ht as <-; auto with typed.
  - done.
  - done.
  - done.
  - injection Ht as <-. apply typed_bind. auto with typed.
  - injection Ht as <-. apply typed_bind. auto with typed.
  - destruct o; injection Ht as <-; typed_tac.
  - destruct o; cbn [denote]; try (injection Ht as <-);
      try (apply typed_bind; intros ? _; apply typed_bind; intros ? _; intros v Hv; by apply binary_typed in Hv).
    + apply typed_bind. intros x Hx. apply typed_bind. intros y Hy v Hv.
      apply add_typed in Hv as (t' & Ht' & -> & Hl & Hr). f_equal.
      pose proof (λ t Ht, IHl t Ht x Hx) as IHx. pose proof (λ t Ht, IHr t Ht y Hy) as IHy.
      rewrite Hl in IHx. rewrite Hr in IHy. clear -IHx IHy Ht Ht'.
      destruct (infer_static_type l) as [tl|], (infer_static_type r) as [tr|];
        try (specialize (IHx _ eq_refl); apply type_str_inj in IHx);
        try (specialize (IHy _ eq_refl); apply type_str_inj in IHy); subst;
        destruct Ht'; subst; cbn in Ht; congruence.
    + typed_tac.
    + typed_tac.
    + apply typed_bind. intros x Hx. destruct (infer_static_type l) as [tl|]; [|done].
      pose proof (IHl _ eq_refl x Hx) as Hxt. destruct (is_nullish x) eqn:Hn.
      * assert (tl = TyNull) as ->.
        { by destruct x as [[]|[]|], tl. }
        by apply IHr.
      * destruct (decide (tl = TyNull)) as [->|Hne].
        { by destruct x as [[]|[]|]. }
        assert (t = tl) as -> by (destruct tl; congruence). by intros v [= <-].
  - destruct (decide _) as [Heq|]; [|done]. apply typed_bind. intros b _. apply typed_bind.
    intros [] _; [by apply IHt|by apply IHe; rewrite <- Heq].
  - destruct f; try (apply typed_bind; intros; by apply function_typed).
    injection Ht as <-. destruct es; typed_tac.
  - by apply IHe.
Qed.

(** ** What is rejected never evaluates *)

Context (source : string) (field : option string).

Lemma require_rejects operand allowed purpose expected f :
  require source field operand allowed purpose expected = Err f →
  (∃ err, f = Reported err ∧ err_phase err = Parse ∧ err_span err = expr_span operand) ∧
  ∀ v, denote env operand = Ok v → ∀ t, t ∈ allowed → type_name v ≠ type_str t.
Proof.
  unfold require. destruct (infer_static_type operand) as [t|] eqn:Ht; [|done].
  destruct (decide _) as [|Hn]; [done|]. intros [= <-]. split; [by eexists|].
  intros v Hv t' Ht' Heq. rewrite (denote_typed _ _ Ht _ Hv) in Heq.
  by apply type_str_inj in Heq as ->.
Qed.

Lemma order_operands l r sp c :
  order_meaning env l r sp = Ok c →
  ∃ t, (t = TyNumber ∨ t = TyString) ∧ type_name l = type_str t ∧ type_name r = type_str t.
Proof.
  unfold order_meaning. destruct l as [[]|[]|], r as [[]|[]|]; cbn; try done; intros _;
    first [by exists TyNumber; auto | by exists TyString; auto].
Qed.

Lemma contains_operands c n sp v :
  contains_meaning env c n sp = Ok v →
  ∃ t, type_name c = type_str t ∧
    (t = TyArray ∨ (t = TyObject ∨ t = TyString) ∧ type_name n = type_str TyString).
Proof.
  unfold contains_meaning. destruct c as [[]|[]|]; cbn; try done.
  all: destruct n as [[]|[]|]; cbn; try done; intros _.
  all: first [by exists TyArray; auto | by exists TyObject; auto | by exists TyString; auto].
Qed.
End typed.

(** ** Rejected expressions *)

Section rejected.
Context `{Externals} (source : string) (field : option string).

Inductive subexpr : Expr → Expr → Prop :=
| subexpr_refl e : subexpr e e
| subexpr_child s c e : c ∈ children e → subexpr s c → subexpr s e.

(** Every call has as many arguments as its function takes. *)
Definition arity_ok (e : Expr) : Prop :=
  ∀ f es sp, subexpr (MkExpr (KCall f es) sp) e → Z.of_nat (length es) = arity f.

Lemma arity_child c e : arity_ok e → c ∈ children e → arity_ok c.
Proof. intros He Hc f es sp Hs. eapply He. by eapply subexpr_child. Qed.

(** The left operand of [&&] or [||] decides, and the right one is not evaluated. *)
Definition short_circuits (env : EvalEnv) (e : Expr) (v : RuntimeValue) : Prop :=
  ∃ b l r sp w,
    e = MkExpr (KBinary (if b : bool then Or else And) l r) sp ∧
    denote env l = Ok w ∧ as_json w = Some (VBool b) ∧ v = Owned (VBool b).

Definition doomed (e : Expr) : Prop :=
  ∀ env v, denote env e = Ok v → short_circuits env e v.

Definition static_report (f : Failure) : Prop := ∃ err, f = Reported err ∧ err_phase err = Parse.

Lemma require_fails operand allowed purpose expected f :
  require source field operand allowed purpose expected = Err f →
  static_report f ∧
  ∀ env v t, denote env operand = Ok v → type_name v = type_str t → t ∉ allowed.
Proof.
  intros Hr. split.
  - apply (require_rejects {| context := ContextRoots ∅; limits := EvaluationLimits_default;
      eval_source := ""; eval_field := None |}) in Hr as [(err & ? & ? & _) _]. by exists err.
  - intros env v t Hv Ht Hin. destruct (require_rejects env _ _ _ _ _ _ _ Hr) as [_ Hr']. by apply (Hr' v Hv t Hin).
Qed.

Definition strict (op : BinaryOperator) : bool :=
  match op with And | Or | Coalesce => false | _ => true end.

Lemma strict_inv env op l r sp v :
  strict op = true → denote env (MkExpr (KBinary op l r) sp) = Ok v →
  ∃ x y, denote env l = Ok x ∧ denote env r = Ok y ∧ binary_meaning env op x y sp = Ok v.
Proof.
  intros Hop. destruct op; try done; cbn [denote];
    destruct (denote env l) as [x|]; try done; destruct (denote env r) as [y|]; try done; eauto.
Qed.

Lemma pair_rejects l r purpose expected f :
  require_matching_scalar_pair source field l r purpose expected = Err f →
  static_report f ∧
  ∀ env x y t, denote env l = Ok x → denote env r = Ok y → t = TyNumber ∨ t = TyString →
    type_name x = type_str t → type_name y ≠ type_str t.
Proof.
  unfold require_matching_scalar_pair.
  destruct (require _ _ l _ _ _) as [[]|fl] eqn:El; cbn [mbind result_bind].
  2: { intros [= <-]. apply require_fails in El as [Hf Hl]. split; [done|].
    intros env x y t Hx _ Ht Hxt. exfalso. eapply Hl; [done..|]. set_solver. }
  destruct (require _ _ r _ _ _) as [[]|fr] eqn:Er; cbn [mbind result_bind].
  2: { intros [= <-]. apply require_fails in Er as [Hf Hr]. split; [done|].
    intros env x y t _ Hy Ht _ Hyt. eapply Hr; [done..|]. set_solver. }
  destruct (infer_static_type l) as [tl|] eqn:Hl; [|done].
  destruct (infer_static_type r) as [tr|] eqn:Hr; [|done].
  destruct (decide _) as [|Hne]; [done|]. intros [= <-]. split; [by eexists|].
  intros env x y t Hx Hy _ Hxt Hyt. apply Hne.
  rewrite (denote_typed _ _ _ Hl _ Hx) in Hxt. rewrite (denote_typed _ _ _ Hr _ Hy) in Hyt.
  apply type_str_inj in Hxt, Hyt. congruence.
Qed.

Lemma membership_rejects needle container purpose f :
  require_membership source field needle container purpose = Err f →
  static_report f ∧
  ∀ env c n t, denote env container = Ok c → denote env needle = Ok n → type_name c = type_str t →
    ¬ (t = TyArray ∨ (t = TyObject ∨ t = TyString) ∧ type_name n = type_str TyString).
Proof.
  unfold require_membership.
  destruct (require _ _ container _ _ _) as [[]|fc] eqn:Ec; cbn [mbind result_bind].
  2: { intros [= <-]. apply require_fails in Ec as [Hf Hc]. split; [done|].
    intros env c n t Hv _ Ht Hor. eapply Hc; [done..|]. set_solver. }
  intros Hn. assert (∃ t, infer_static_type container = Some t ∧ (t = TyObject ∨ t = TyString) ∧
    require source field needle [TyString] (purpose +:+ " key/needle") "string" = Err f) as (t & Ht & Hor & Hr).
  { destruct (infer_static_type container) as [[]|]; try done; eauto. }
  apply require_fails in Hr as [Hf Hr]. split; [done|].
  intros env c n t' Hv Hn' Hc Hor'. rewrite (denote_typed _ _ _ Ht _ Hv) in Hc.
  apply type_str_inj in Hc as <-. destruct Hor' as [->|[_ Hns]]; [by destruct Hor|].
  eapply Hr; [done..|]. set_solver.
Qed.

Lemma boolean_rejects op operand side f :
  op = And ∨ op = Or → require_boolean_operand source field op operand side = Err f →
  static_report f ∧ ∀ env v, denote env operand = Ok v → type_name v ≠ type_str TyBool.
Proof.
  intros Hop. unfold require_boolean_operand. destruct (infer_static_type operand) as [t|] eqn:Ht; [|done].
  destruct (decide (t = TyBool)) as [|Hne]; [done|]. intros Hf. split.
  - destruct Hop as [-> | ->]; injection Hf as <-; by eexists.
  - intros env v Hv Hb. rewrite (denote_typed _ _ _ Ht _ Hv) in Hb. by apply type_str_inj in Hb.
Qed.

(** [&&] and [||] with an operand that is never a boolean. *)
Lemma boolean_doomed op l r sp f :
  op = And ∨ op = Or →
  (require_boolean_operand source field op l "left" ;; require_boolean_operand source field op r "right") = Err f →
  static_report f ∧ doomed (MkExpr (KBinary op l r) sp).
Proof.
  intros Hop. destruct (require_boolean_operand _ _ op l _) as [[]|fl] eqn:El; cbn [mbind result_bind].
  2: { intros [= <-]. apply boolean_rejects in El as [Hf Hl]; [|done]. split; [done|].
    intros env v. destruct Hop as [-> | ->]; cbn [denote];
      (destruct (denote env l) as [x|] eqn:Ex; [|done]); cbn [mbind result_bind];
      (destruct (require_bool _ _ _ _) eqn:Eb; [|done]);
      by apply require_bool_typed, (Hl env x) in Eb. }
  intros Er. apply boolean_rejects in Er as [Hf Hr]; [|done]. split; [done|].
  intros env v Hv.
  assert (∃ b w, op = (if b : bool then Or else And) ∧ denote env l = Ok w ∧ as_json w = Some (VBool b) ∧
    v = Owned (VBool b)) as (b & w & -> & ?); [|by exists b, l, r, sp, w].
  revert Hv. destruct Hop as [-> | ->]; cbn [denote];
    (destruct (denote env l) as [x|] eqn:Ex; [|done]); cbn [mbind result_bind];
    (destruct (require_bool _ x _ _) as [b|] eqn:Eb; [|done]); cbn [mbind result_bind];
    (assert (as_json x = Some (VBool b)) as Hx by (destruct x as [[]|[]|]; try done; injection Eb as ->; done));
    destruct b; cbn [negb]; try (by intros [= <-]; first [exists true, x; done | exists false, x; done]);
    (destruct (denote env r) as [y|] eqn:Ey; [|done]); cbn [mbind result_bind];
    (destruct (require_bool _ y _ _) eqn:Eb'; [|done]); by apply require_bool_typed, (Hr env y) in Eb'.
Qed.

Lemma arithmetic_rejects op l r sp p q f :
  strict op = true → (∀ env x y, binary_meaning env op x y sp = numeric_meaning env op x y sp) →
  (require source field l [TyNumber] p "number" ;; require source field r [TyNumber] q "number") = Err f →
  static_report f ∧ doomed (MkExpr (KBinary op l r) sp).
Proof.
  intros Hop Hm. destruct (require _ _ l _ _ _) as [[]|fl] eqn:El; cbn [mbind result_bind].
  2: intros [= <-]; apply require_fails in El as [Hf Hd]. 1: intros [Hf Hd]%require_fails.
  all: split; [done|]; intros env v (x & y & Hx & Hy & Hb)%strict_inv; [exfalso|done].
  all: rewrite Hm in Hb; apply numeric_meaning_operands in Hb as [Hnx Hny].
  all: eapply (Hd env _ TyNumber); [done..|left].
Qed.

Lemma scalar_pair_rejects op l r sp p q f :
  strict op = true →
  (∀ env x y v, binary_meaning env op x y sp = Ok v →
    ∃ t, (t = TyNumber ∨ t = TyString) ∧ type_name x = type_str t ∧ type_name y = type_str t) →
  require_matching_scalar_pair source field l r p q = Err f →
  static_report f ∧ doomed (MkExpr (KBinary op l r) sp).
Proof.
  intros Hop Hm [Hf Hp]%pair_rejects. split; [done|].
  intros env v (x & y & Hx & Hy & (t & Ht & Hxt & Hyt)%Hm)%strict_inv; [|done].
  exfalso. by eapply (Hp env x y t).
Qed.

Lemma ordering_operands {A} env x y sp (f : comparison → Compiled A) v :
  (order_meaning env x y sp ≫= f) = Ok v →
  ∃ t, (t = TyNumber ∨ t = TyString) ∧ type_name x = type_str t ∧ type_name y = type_str t.
Proof. destruct (order_meaning env x y sp) eqn:Ho; [|done]. intros _. by eapply order_operands. Qed.

Lemma binary_rejects op l r sp f :
  static_binary source field op l r = Err f → static_report f ∧ doomed (MkExpr (KBinary op l r) sp).
Proof.
  destruct op; cbn [static_binary]; try (by apply arithmetic_rejects); try done;
    try (apply boolean_doomed; auto); try (apply scalar_pair_rejects; [done|]; intros ????; apply ordering_operands).
  - apply scalar_pair_rejects; [done|]. intros env x y v (t & ? & _ & ?)%add_typed. eauto.
  - intros [Hf Hm]%membership_rejects. split; [done|].
    intros env v (x & y & Hx & Hy & Hb)%strict_inv; [|done]. exfalso.
    apply contains_operands in Hb as (t & Ht & Hor). by eapply Hm.
Qed.

(** ** Calls *)

Lemma result_map_inv {A B} (g : A → Compiled B) l ys :
  result_map g l = Ok ys → Forall2 (λ x y, g x = Ok y) l ys.
Proof.
  revert ys. induction l as [|x l IH]; cbn; intros ys; [by intros [= <-]|].
  destruct (g x) as [y|] eqn:Hx; cbn; [|done]. fold (result_map g).
  destruct (result_map g l) as [ys'|]; cbn; [|done]. intros [= <-]. constructor; auto.
Qed.

(** An argument and the value it is present with. *)
Definition evaluates (env : EvalEnv) (e : Expr) (j : Value) : Prop :=
  ∃ x, denote env e = Ok x ∧ type_name x = json_type j.

Lemma call_inv env f es sp v :
  f ≠ FExists → denote env (MkExpr (KCall f es) sp) = Ok v →
  ∃ vs, Forall2 (evaluates env) es vs ∧ function_meaning env f vs sp = Ok v.
Proof.
  intros Hf. destruct f; try done; cbn [denote];
    (match goal with |- (?r ≫= _) = _ → _ => destruct r as [vs|] eqn:Evs; [|done] end);
    cbn [mbind result_bind]; intros Hv; exists vs; (split; [|done]);
    (eapply Forall2_impl; [by apply result_map_inv|]);
    intros e j He; cbn in He; unfold evaluates;
    destruct (denote env e) as [[]|]; try done; injection He as <-; by eexists.
Qed.

(** A function of one argument that is defined only on some types. *)
Lemma argument_rejects fn e es sp allowed p q f :
  fn ≠ FExists →
  (∀ env j js v, function_meaning env fn (j :: js) sp = Ok v →
    ∃ t, t ∈ allowed ∧ json_type j = type_str t) →
  require source field e allowed p q = Err f →
  static_report f ∧ doomed (MkExpr (KCall fn (e :: es)) sp).
Proof.
  intros Hfn Hm [Hf Hr]%require_fails. split; [done|].
  intros env v (vs & Hvs & Hv)%call_inv; [exfalso|done]. inversion Hvs as [|? j ? js (x & Hx & Hj)]; subst.
  apply Hm in Hv as (t & Ht & Hjt). rewrite Hjt in Hj. by eapply Hr.
Qed.

Ltac allowed :=
  lazymatch goal with
  | |- ∃ t, t ∈ _ ∧ json_type (VNumber _) = _ => exists TyNumber
  | |- ∃ t, t ∈ _ ∧ json_type (VString _) = _ => exists TyString
  | |- ∃ t, t ∈ _ ∧ json_type (VArray _) = _ => exists TyArray
  | |- ∃ t, t ∈ _ ∧ json_type (VObject _) = _ => exists TyObject
  end; split; [set_solver|done].

Lemma call_rejects fn es sp f :
  Z.of_nat (length es) = arity fn → static_call source field fn es = Err f →
  static_report f ∧ doomed (MkExpr (KCall fn es) sp).
Proof.
  intros Hlen. destruct es as [|e es]; [by destruct fn|]. cbn [static_call lookup list_lookup ok_or mbind result_bind].
  destruct fn; try done.
  all: try (apply argument_rejects; [done|]; intros env [] js v; cbn [function_meaning]; try done; intros _; allowed).
  - destruct es as [|e' es]; [cbn in Hlen; lia|]. cbn. intros [Hf Hm]%membership_rejects. split; [done|].
    intros env v (vs & Hvs & Hv)%call_inv; [exfalso|done].
    inversion Hvs as [|? j ? js (x & Hx & Hj) Hvs']; subst.
    inversion Hvs' as [|? j' ? js' (y & Hy & Hj')]; subst. cbn [function_meaning] in Hv.
    apply contains_operands in Hv as (t & Ht & Hor). eapply (Hm env x y t); [done..|by rewrite Hj|].
    cbn in Hor. by rewrite Hj'.
  - destruct (require _ _ e _ _ _) as [[]|f'] eqn:Ee; cbn [mbind result_bind].
    2: { intros [= <-]. revert Ee. apply argument_rejects; [done|].
         intros env [] [|[] js] v; cbn [function_meaning]; try done; intros _; allowed. }
    destruct es as [|e' es]; [cbn in Hlen; lia|]. cbn. intros [Hf Hm]%require_fails. split; [done|].
    intros env v (vs & Hvs & Hv)%call_inv; [exfalso|done].
    inversion Hvs as [|? j ? js (x & Hx & Hj) Hvs']; subst.
    inversion Hvs' as [|? j' ? js' (y & Hy & Hj')]; subst.
    destruct j, j'; try done. eapply (Hm env y TyString); [done..|left].
Qed.

(** ** The validator *)

Lemma unary_rejects op e sp f :
  static_unary source field op e = Err f → static_report f ∧ doomed (MkExpr (KUnary op e) sp).
Proof.
  destruct op; cbn [static_unary]; intros [Hf Hr]%require_fails; (split; [done|]); intros env v; cbn [denote];
    (destruct (denote env e) as [x|] eqn:Ex; [|done]); cbn [mbind result_bind].
  1: destruct (require_bool env x _ _) eqn:Eb; [|done]; apply require_bool_typed in Eb.
  2-3: destruct (require_number env x _ _) eqn:Eb; [|done]; apply require_number_typed in Eb.
  all: exfalso; eapply (Hr env x); [done..|left].
Qed.

Lemma conditional_rejects c t e sp p q f :
  require source field c [TyBool] p q = Err f → static_report f ∧ doomed (MkExpr (KConditional c t e) sp).
Proof.
  intros [Hf Hr]%require_fails. split; [done|]. intros env v. cbn [denote].
  destruct (denote env c) as [x|] eqn:Ex; [|done]. cbn [mbind result_bind].
  destruct (require_bool env x _ _) eqn:Eb; [|done]. apply require_bool_typed in Eb.
  exfalso. eapply (Hr env x); [done..|left].
Qed.

(** What a failed validation says: a node of the expression is reported
    that can never produce a value. *)
Definition rejected (e : Expr) (f : Failure) : Prop :=
  static_report f ∧ ∃ sub, subexpr sub e ∧ doomed sub.

Lemma rejected_child c e f : c ∈ children e → rejected c f → rejected e f.
Proof. intros Hc (Hf & sub & Hs & Hd). split; [done|]. exists sub. split; [by eapply subexpr_child|done]. Qed.
Lemma rejected_here e f : static_report f ∧ doomed e → rejected e f.
Proof. intros [Hf Hd]. split; [done|]. exists e. split; [constructor|done]. Qed.

Lemma static_all_rejects es f :
  Forall (λ e, ∀ f, arity_ok e → static_expression source field e = Err f → rejected e f) es →
  Forall arity_ok es →
  (fix all l := match l with [] => Ok tt | e :: l => static_expression source field e ;; all l end) es = Err f →
  ∃ e, e ∈ es ∧ rejected e f.
Proof.
  intros Hes. induction Hes as [|e es He _ IH]; [done|]. intros Har. inversion Har; subst.
  destruct (static_expression source field e) as [[]|f'] eqn:E; cbn [mbind result_bind].
  - intros Hr. destruct IH as (e' & ? & ?); [done..|]. exists e'. split; [by right|done].
  - intros [= <-]. exists e. split; [left|by apply He].
Qed.

Lemma entries_all es :
  (fix all (l : list (string * Expr)) : Compiled unit :=
     match l with [] => Ok tt | (_, e) :: l => static_expression source field e ;; all l end) es =
  (fix all l := match l with [] => Ok tt | e :: l => static_expression source field e ;; all l end) es.*2.
Proof. induction es as [|[k e] es IH]; cbn; [done|]. by rewrite IH. Qed.

(** Validation stops at the first child it rejects. *)
Lemma child_rejects c e (k : Compiled unit) f :
  (∀ f, arity_ok c → static_expression source field c = Err f → rejected c f) →
  c ∈ children e → arity_ok e → (k = Err f → rejected e f) →
  (static_expression source field c ;; k) = Err f → rejected e f.
Proof.
  intros Hc Hin Har Hk. destruct (static_expression source field c) as [[]|f'] eqn:E; [exact Hk|].
  intros [= <-]. eapply rejected_child; [done|]. apply Hc; [|done]. by eapply arity_child.
Qed.

Lemma static_rejects e f :
  arity_ok e → static_expression source field e = Err f → rejected e f.
Proof.
  revert f.
  induction e as [l sp|name sp|t k sp IHt|t i sp IHt IHi|es sp IHes|es sp IHes|o e sp IHe
                 |o l r sp IHl IHr|c t e sp IHc IHt IHe|fn es sp IHes|e sp IHe] using Expr_ind;
    intros f Har; cbn [static_expression expr_kind]; try done.
  - intros E. eapply rejected_child; [|apply IHt; [|done]]; [by left|]. eapply arity_child; [done|by left].
  - apply child_rejects; [done|by left|done|]. intros E.
    eapply rejected_child; [|apply IHi; [|done]]; [by right; left|]. eapply arity_child; [done|by right; left].
  - intros (e & Hin & He)%static_all_rejects; [by eapply rejected_child|done|].
    apply Forall_forall. intros e He. by eapply arity_child.
  - rewrite entries_all. intros (e & Hin & He)%static_all_rejects; [by eapply rejected_child|..].
    + by apply Forall_fmap.
    + apply Forall_forall. intros e He. by eapply arity_child.
  - apply child_rejects; [done|by left|done|]. intros. by apply rejected_here, unary_rejects.
  - apply child_rejects; [done|by left|done|]. apply child_rejects; [done|by right; left|done|].
    intros. by apply rejected_here, binary_rejects.
  - apply child_rejects; [done|by left|done|]. apply child_rejects; [done|by right; left|done|].
    apply child_rejects; [done|by right; right; left|done|].
    intros E. by eapply rejected_here, conditional_rejects.
  - destruct (_ es) as [[]|f'] eqn:Ees; cbn [mbind result_bind].
    + intros. apply rejected_here, call_rejects; [|done]. eapply Har. constructor.
    + intros [= <-]. apply static_all_rejects in Ees as (e & Hin & He); [by eapply rejected_child|done|].
      apply Forall_forall. intros e He. by eapply arity_child.
  - intros E. eapply rejected_child; [|apply IHe; [|done]]; [by left|]. eapply arity_child; [done|by left].
Qed.
End rejected.
