(* ===== verification/References.v ===== *)
(** * References of an expression

    [expression/references.rs]: the paths of context roots an expression
    reads.  The [BTreeSet] of references is a list in the derived order. *)

From S2P Require Import Prelude Float64 Json Numeric ExprSyntax Parser Grammar Budget Functions Evaluator.

Inductive ReferenceSegment :=
| SKey (key : string)
| SIndex (index : Z)
| SDynamic.

Record Reference := MkReference { root : string; segments : list ReferenceSegment }.

#[export] Instance ReferenceSegment_eq_dec : EqDecision ReferenceSegment.
Proof. solve_decision. Defined.
#[export] Instance Reference_eq_dec : EqDecision Reference.
Proof. solve_decision. Defined.

(** The derived [Ord]: variants in declaration order, fields left to right. *)
Definition segment_compare (a b : ReferenceSegment) : comparison :=
  match a, b with
  | SKey a, SKey b => String.compare a b
  | SKey _, _ => Lt
  | SIndex _, SKey _ => Gt
  | SIndex a, SIndex b => Z.compare a b
  | SIndex _, SDynamic => Lt
  | SDynamic, SDynamic => Eq
  | SDynamic, _ => Gt
  end.
Fixpoint segments_compare (a b : list ReferenceSegment) : comparison :=
  match a, b with
  | [], [] => Eq
  | [], _ :: _ => Lt
  | _ :: _, [] => Gt
  | x :: a, y :: b => match segment_compare x y with Eq => segments_compare a b | c => c end
  end.
Definition reference_compare (a b : Reference) : comparison :=
  match String.compare (root a) (root b) with
  | Eq => segments_compare (segments a) (segments b)
  | c => c
  end.

(** [Reference::is_dynamic] and [Reference::static_key_path]. *)
Definition is_dynamic (r : Reference) : bool :=
  existsb (λ segment, match segment with SDynamic => true | _ => false end) (segments r).
Definition static_key_path (r : Reference) : option (list string) :=
  mapM (λ segment, match segment with SKey key => Some key | _ => None end) (segments r).

(** [ReferenceSet]: its references in increasing order. *)
Definition ReferenceSet : Type := list Reference.

(** [BTreeSet::insert]. *)
Fixpoint insert_reference (r : Reference) (set : ReferenceSet) : ReferenceSet :=
  match set with
  | [] => [r]
  | r' :: set' =>
      match reference_compare r r' with
      | Lt => r :: set
      | Eq => set
      | Gt => r' :: insert_reference r set'
      end
  end.

(** [ReferenceSet::roots]: the first occurrence of each root. *)
Fixpoint roots_from (seen : list string) (set : ReferenceSet) : list string :=
  match set with
  | [] => []
  | r :: set =>
      if decide (root r ∈ seen) then roots_from seen set
      else root r :: roots_from (root r :: seen) set
  end.
Definition roots : ReferenceSet → list string := roots_from [].

(** [ReferenceSet::contains_exact]. *)
Definition contains_exact (set : ReferenceSet) (r : string) (key_path : list string) : bool :=
  existsb (λ reference,
    bool_decide (root reference = r) &&
    bool_decide (length (segments reference) = length key_path) &&
    forallb (λ '(segment, key), match segment with SKey actual => bool_decide (actual = key) | _ => false end)
      (zip (segments reference) key_path)) set.

(** [ReferenceSet::extend]. *)
Definition extend (set other : ReferenceSet) : ReferenceSet := foldl (flip insert_reference) set other.

(** [static_index_segment]. *)
Fixpoint static_index_segment (e : Expr) : option ReferenceSegment :=
  match expr_kind e with
  | KLiteral (LString key) => Some (SKey key)
  | KLiteral (LNumber (Signed value)) => if 0 <=? value then Some (SIndex value) else None
  | KLiteral (LNumber (Unsigned value)) => Some (SIndex value)
  | KGroup inner => static_index_segment inner
  | _ => None
  end.

(** [path] with its inner [descend]: the root, the segments and the
    dynamic index expressions. *)
Fixpoint path (e : Expr) : option (string * list ReferenceSegment * list Expr) :=
  match expr_kind e with
  | KVariable root => Some (root, [], [])
  | KMember target key =>
      '(root, segments, dynamic) ← path target ; Some (root, segments ++ [SKey key], dynamic)
  | KIndex target index =>
      '(root, segments, dynamic) ← path target ;
      match static_index_segment index with
      | Some segment => Some (root, segments ++ [segment], dynamic)
      | None => Some (root, segments ++ [SDynamic], dynamic ++ [index])
      end
  | KGroup inner => path inner
  | _ => None
  end.

(** [visit]; the fuel bounds the depth of the recursion. *)
Definition visit_all (visit : Expr → ReferenceSet → Compiled ReferenceSet)
    : list Expr → ReferenceSet → Compiled ReferenceSet :=
  fix go l set := match l with [] => Ok set | e :: l => set ← visit e set ; go l set end.
Fixpoint visit (n : nat) (e : Expr) (set : ReferenceSet) : Compiled ReferenceSet :=
  match n with
  | O => Err OutOfFuel
  | S n =>
      match path e with
      | Some (root, segments, dynamic) =>
          visit_all (visit n) dynamic (insert_reference (MkReference root segments) set)
      | None => visit_all (visit n) (children e) set
      end
  end.

(** [collect]. *)
Definition collect (e : Expr) : Compiled ReferenceSet := visit (S (expr_size e)) e [].

(** ** What is collected *)

(** The variables of an expression. *)
Definition own_variable (e : Expr) : list string :=
  match expr_kind e with KVariable name => [name] | _ => [] end.
Definition variables : Expr → list string := tree_fold (λ e vs, own_variable e ++ mjoin vs).

Lemma variables_eq e : variables e = own_variable e ++ mjoin (variables <$> children e).
Proof. exact (tree_fold_eq _ e). Qed.

Lemma elem_of_variables x e :
  x ∈ variables e ↔ x ∈ own_variable e ∨ ∃ c, c ∈ children e ∧ x ∈ variables c.
Proof.
  rewrite variables_eq, elem_of_app, list_elem_of_join. f_equiv. split.
  - intros (vs & Hx & (c & -> & Hc)%list_elem_of_fmap). eauto.
  - intros (c & Hc & Hx). exists (variables c). split; [done|]. by apply list_elem_of_fmap_2.
Qed.

Lemma child_size c e : c ∈ children e → (expr_size c < expr_size e)%nat.
Proof.
  intros Hc. rewrite (expr_size_eq e). apply (list_elem_of_fmap_2 expr_size) in Hc.
  induction Hc as [? l|? ? l _ IH]; cbn in *; lia.
Qed.

Lemma segments_compare_eq a b : segments_compare a b = Eq → a = b.
Proof.
  revert b. induction a as [|x a IH]; intros [|y b]; cbn; try done.
  destruct (segment_compare x y) eqn:Hxy; try done. intros ->%IH. f_equal.
  destruct x, y; try done; cbn in Hxy; [by apply String.compare_eq_iff in Hxy as ->|by apply Z.compare_eq in Hxy as ->].
Qed.
Lemma reference_compare_eq a b : reference_compare a b = Eq → a = b.
Proof.
  destruct a as [ra sa], b as [rb sb]. unfold reference_compare. cbn.
  destruct (String.compare ra rb) eqn:Hr; try done. apply String.compare_eq_iff in Hr as ->.
  by intros ->%segments_compare_eq.
Qed.
Lemma elem_of_insert_reference x r set : x ∈ insert_reference r set ↔ x = r ∨ x ∈ set.
Proof.
  induction set as [|r' set IH]; cbn; [by rewrite list_elem_of_singleton, elem_of_nil; naive_solver|].
  destruct (reference_compare r r') eqn:Hc.
  - apply reference_compare_eq in Hc as ->. rewrite elem_of_cons. naive_solver.
  - by rewrite elem_of_cons.
  - rewrite !elem_of_cons, IH. naive_solver.
Qed.

Lemma static_index_variables e s : static_index_segment e = Some s → variables e = [].
Proof.
  revert s. induction e as [[| | |[]]| | | | | | | | | |] using Expr_ind; intros seg Hs; try done.
  rewrite variables_eq. cbn. cbn in Hs. by rewrite (IHe _ Hs).
Qed.

Lemma path_inv e r segs dyn :
  path e = Some (r, segs, dyn) →
  (∀ x, x ∈ variables e ↔ x = r ∨ ∃ d, d ∈ dyn ∧ x ∈ variables d) ∧
  ∀ d, d ∈ dyn → (expr_size d < expr_size e)%nat.
Proof.
  revert segs dyn.
  induction e as [l sp|name sp|t k sp IHt|t i sp IHt IHi|es sp IHes|es sp IHes|o e sp IHe
                 |o l r' sp IHl IHr|c t e sp IHc IHt IHe|fn es sp IHes|e sp IHe] using Expr_ind;
    intros segs dyn; cbn [path expr_kind]; try done.
  - intros [= <- <- <-]. split; [|by intros ? ?%elem_of_nil]. intros x.
    rewrite variables_eq. cbn. rewrite list_elem_of_singleton.
    split; [by left|]. by intros [?|(d & []%elem_of_nil & _)].
  - destruct (path t) as [[[rt st] dt]|]; [|done]. intros [= -> <- ->].
    destruct (IHt _ _ eq_refl) as [Hv Hs]. split.
    + intros x. rewrite variables_eq. cbn. rewrite app_nil_r. apply Hv.
    + intros d Hd. specialize (Hs d Hd). rewrite (expr_size_eq (MkExpr _ _)). cbn. lia.
  - destruct (path t) as [[[rt st] dt]|]; [|done]. cbn [mbind option_bind].
    destruct (static_index_segment i) as [si|] eqn:Hi; intros [= -> <- <-];
      destruct (IHt _ _ eq_refl) as [Hv Hs]; split.
    + intros x. rewrite variables_eq. cbn. rewrite (static_index_variables _ _ Hi), app_nil_r. apply Hv.
    + intros d Hd. specialize (Hs d Hd). rewrite (expr_size_eq (MkExpr _ _)). cbn. lia.
    + intros x. rewrite variables_eq. cbn. rewrite app_nil_r, elem_of_app, Hv.
      setoid_rewrite elem_of_app. setoid_rewrite list_elem_of_singleton. naive_solver.
    + intros d [Hd| ->%list_elem_of_singleton]%elem_of_app; [specialize (Hs d Hd)|];
        rewrite (expr_size_eq (MkExpr _ _)); cbn; lia.
  - intros Hp. destruct (IHe _ _ Hp) as [Hv Hs]. split.
    + intros x. rewrite variables_eq. cbn. rewrite app_nil_r. apply Hv.
    + intros d Hd. specialize (Hs d Hd). rewrite (expr_size_eq (MkExpr _ _)). cbn. lia.
Qed.

(** The roots of a set are those of its references. *)
Lemma elem_of_roots x set : x ∈ roots set ↔ ∃ r, r ∈ set ∧ root r = x.
Proof.
  assert (∀ seen, x ∈ roots_from seen set ↔ x ∉ seen ∧ ∃ r, r ∈ set ∧ root r = x) as Hgo.
  { induction set as [|r set IH]; intros seen; cbn.
    - rewrite elem_of_nil. split; [done|]. by intros (_ & r & []%elem_of_nil & _).
    - setoid_rewrite elem_of_cons. destruct (decide (root r ∈ seen)); rewrite ?elem_of_cons, IH; clear IH.
      + naive_solver.
      + rewrite not_elem_of_cons. destruct (decide (x = root r)); naive_solver. }
  unfold roots. rewrite Hgo. split; [by intros [_ ?]|]. split; [by intros ?%elem_of_nil|done].
Qed.

Definition collects (r : Compiled ReferenceSet) (set : ReferenceSet) (names : string → Prop) : Prop :=
  ∃ set', r = Ok set' ∧ ∀ x, x ∈ roots set' ↔ x ∈ roots set ∨ names x.

Lemma visit_all_collects (v : Expr → ReferenceSet → Compiled ReferenceSet) l set :
  (∀ e set, e ∈ l → collects (v e set) set (λ x, x ∈ variables e)) →
  collects (visit_all v l set) set (λ x, ∃ e, e ∈ l ∧ x ∈ variables e).
Proof.
  revert set. induction l as [|e l IH]; intros set Hv; cbn.
  { exists set. split; [done|]. intros x. split; [by left|]. by intros [?|(e & []%elem_of_nil & _)]. }
  destruct (Hv e set) as (set1 & -> & H1); [by left|]. cbn. fold (visit_all v).
  destruct (IH set1) as (set2 & -> & H2); [intros; apply Hv; by right|].
  exists set2. split; [done|]. intros x. rewrite H2, H1. setoid_rewrite elem_of_cons. clear. naive_solver.
Qed.

Lemma visit_collects n e set :
  (expr_size e < n)%nat → collects (visit n e set) set (λ x, x ∈ variables e).
Proof.
  revert e set. induction n as [|n IH]; intros e set Hn; [lia|]. cbn [visit].
  destruct (path e) as [[[r segs] dyn]|] eqn:Hp.
  - apply path_inv in Hp as [Hvars Hsize].
    destruct (visit_all_collects (visit n) dyn (insert_reference (MkReference r segs) set))
      as (set' & -> & Hset).
    { intros d set1 Hd. apply IH. specialize (Hsize d Hd). lia. }
    exists set'. split; [done|]. intros x. rewrite Hset, Hvars, !elem_of_roots.
    setoid_rewrite elem_of_insert_reference. naive_solver.
  - destruct (visit_all_collects (visit n) (children e) set) as (set' & -> & Hset).
    { intros d set1 Hd. apply IH. pose proof (child_size _ _ Hd). lia. }
    exists set'. split; [done|]. intros x. rewrite Hset, elem_of_variables.
    assert (own_variable e = []) as -> by (destruct e as [[] ?]; done).
    rewrite elem_of_nil. naive_solver.
Qed.

(** Collection succeeds and finds every variable, and nothing else. *)
Lemma collect_variables e :
  ∃ set, collect e = Ok set ∧ ∀ x, x ∈ roots set ↔ x ∈ variables e.
Proof.
  destruct (visit_collects (S (expr_size e)) e []) as (set & Hset & Hx); [lia|].
  exists set. split; [done|]. intros x. rewrite Hx. cbn. rewrite elem_of_nil. naive_solver.
Qed.

(** ** Evaluation reads only what is collected *)

Definition with_context (env : EvalEnv) (c : ContextView) : EvalEnv :=
  {| context := c; limits := limits env; eval_source := eval_source env; eval_field := eval_field env |}.

Section reads.
Context `{Externals} (env : EvalEnv) (c c' : ContextView).

Abbreviation before := (evaluate (with_context env c)).
Abbreviation after := (evaluate (with_context env c')).

Lemma try_map_ext {S E A B} (f g : A → M S E B) l : Forall (λ x, f x = g x) l → try_map f l = try_map g l.
Proof. induction 1 as [|x l Hx _ IH]; cbn; [done|]. rewrite Hx. by fold (try_map f) (try_map g); rewrite IH. Qed.
Lemma fold_m_ext {S E A B} (f g : B → A → M S E B) l :
  Forall (λ x, (λ acc, f acc x) = (λ acc, g acc x)) l →
  (λ acc, fold_m f acc l) = (λ acc, fold_m g acc l).
Proof.
  induction 1 as [|x l Hx _ IH]; [done|].
  exact (f_equal2 (λ (h k : B → M S E B) acc, h acc ≫= k) Hx IH).
Qed.

Lemma fold_m_ext_at {S E A B} (f g : B → A → M S E B) acc l :
  Forall (λ x, (λ acc, f acc x) = (λ acc, g acc x)) l → fold_m f acc l = fold_m g acc l.
Proof. intros Hl. exact (f_equal (λ k, k acc) (fold_m_ext f g l Hl)). Qed.

Lemma child_reads (P : string → Prop) e :
  (∀ x, x ∈ variables e → P x) → ∀ d, d ∈ children e → ∀ x, x ∈ variables d → P x.
Proof. intros Hx d Hd x Hxd. apply Hx, elem_of_variables. eauto. Qed.

Lemma evaluate_reads e :
  (∀ x, x ∈ variables e → context_get c x = context_get c' x) → before e = after e.
Proof.
  induction e as [l sp|name sp|t k sp IHt|t i sp IHt IHi|es sp IHes|es sp IHes|o e sp IHe
                 |o l r sp IHl IHr|cd t e sp IHc IHt IHe|fn es sp IHes|e sp IHe] using Expr_ind;
    intros Hx; pose proof (child_reads _ _ Hx) as Hc; cbn [children expr_kind] in Hc.
  - done.
  - cbn [evaluate]. unfold eval_variable. cbn [context with_context].
    rewrite (Hx name); [done|]. by left.
  - cbn [evaluate]. rewrite IHt by (apply Hc; by left). reflexivity.
  - cbn [evaluate]. rewrite IHt by (apply Hc; by left). rewrite IHi by (apply Hc; by right; left). reflexivity.
  - cbn [evaluate]. erewrite try_map_ext; [reflexivity|]. apply Forall_forall. intros e He.
    rewrite Forall_forall in IHes. rewrite (IHes e He); [done|]. by apply Hc.
  - cbn [evaluate]. assert (∀ e, e ∈ es.*2 → before e = after e) as Hes.
    { intros e He. apply list_elem_of_fmap in He as ([k d] & -> & He).
      rewrite Forall_forall in IHes. apply (IHes _ He), Hc. by apply (list_elem_of_fmap_2 snd) in He. }
    erewrite fold_m_ext_at; [reflexivity|]. apply Forall_forall. intros [k e] He. cbn.
    rewrite (Hes e); [done|]. by apply (list_elem_of_fmap_2 snd) in He.
  - cbn [evaluate]. rewrite IHe by (apply Hc; by left). reflexivity.
  - cbn [evaluate]. rewrite IHl by (apply Hc; by left). rewrite IHr by (apply Hc; by right; left). reflexivity.
  - cbn [evaluate]. rewrite IHc by (apply Hc; by left). rewrite IHt by (apply Hc; by right; left).
    rewrite IHe by (apply Hc; by right; right; left). reflexivity.
  - assert (∀ e, e ∈ es → before e = after e) as Hes.
    { intros e He. rewrite Forall_forall in IHes. apply (IHes e He). by apply Hc. }
    destruct (decide (fn = FExists)) as [->|Hne].
    { destruct es as [|e es]; [done|]. cbn [evaluate]. rewrite (Hes e) by (by left). reflexivity. }
    destruct fn; try (by destruct Hne); cbn [evaluate];
      (erewrite try_map_ext; [reflexivity|]); apply Forall_forall; intros e He; cbn;
      by rewrite (Hes e He).
  - cbn [evaluate]. rewrite IHe by (apply Hc; by left). reflexivity.
Qed.
End reads.
