(* ===== verification/Compile.v ===== *)
(** * Compiling expressions, templates and conditions

    The [compile_*] functions of [expression/mod.rs] and the template
    scanner of [expression/template.rs]. *)

From S2P Require Import Prelude Float64 Json Numeric ExprSyntax Lexer Parser Grammar Budget.
From S2P Require Import Functions Evaluator StaticTypes References.

Record CompiledExpression := {
  ce_source : string;
  ce_field : option string;
  ce_root : Expr;
  ce_references : ReferenceSet;
}.

(** [CompiledExpression::static_result_type]. *)
Definition static_result_type (e : CompiledExpression) : option ExpressionValueType :=
  infer_static_type (ce_root e).

Inductive TemplatePart :=
| PartLiteral (text : string)
| PartExpression (e : CompiledExpression).

Record CompiledTemplate := {
  ct_source : string;
  ct_field : option string;
  ct_parts : list TemplatePart;
  ct_whole_expression : bool;
  ct_references : ReferenceSet;
}.

(** [CompiledTemplate::new]. *)
Definition template_new (source : string) (field : option string) (parts : list TemplatePart)
    (whole_expression : bool) : CompiledTemplate :=
  {| ct_source := source; ct_field := field; ct_parts := parts;
     ct_whole_expression := whole_expression;
     ct_references := foldl (λ references part,
       match part with
       | PartExpression e => extend references (ce_references e)
       | PartLiteral _ => references
       end) [] parts |}.

(** ** Expressions *)

(** [compile_expression_arc]. *)
Definition compile_expression_arc (source : string) (field : option string) (limits : CompilationLimits)
    : Compiled CompiledExpression :=
  tokens ← lex source field limits ;
  root ← parse source field tokens limits ;
  validate root source field ;;
  references ← collect root ;
  Ok {| ce_source := source; ce_field := field; ce_root := root; ce_references := references |}.

(** [compile_expression] and [compile_expression_for]. *)
Definition compile_expression (source : string) (limits : CompilationLimits) :=
  compile_expression_arc source None limits.
Definition compile_expression_for (source field : string) (limits : CompilationLimits) :=
  compile_expression_arc source (Some field) limits.

(** ** Templates *)

Section template.
Context (source : string) (field : option string).

Definition template_error (phase : ErrorPhase) (span : SourceSpan) (message : string) : Failure :=
  Reported (error_new phase field source span message).

(** [scan_error]. *)
Definition scan_error (offset : Z) (message : string) : Failure :=
  template_error Scan (Span offset (offset + 1)) message.

Definition closer (byte : Z) : option Z :=
  if byte =? 123 then Some 125 else if byte =? 91 then Some 93 else if byte =? 40 then Some 41 else None.
Definition is_closer (byte : Z) : bool := (byte =? 125) || (byte =? 93) || (byte =? 41).
Definition byte_text (byte : Z) : string := String (ascii_of_Z byte) EmptyString.

(** The loop of [find_expression_end]; the head of [stack] is its top, and
    [quote] carries the open quote and whether the next byte is escaped. *)
Fixpoint end_loop (fuel : nat) (start : Z) (stack : list Z) (quote : option (Z * bool)) (c : Cursor)
    : Compiled Cursor :=
  match first_byte (rest c) with
  | None =>
      Err (template_error Scan (Span (saturating_sub start 2) (source_len c))
        (match quote with
         | Some _ => "unterminated quoted string in template expression"
         | None => "unmatched `${` in template"
         end))
  | Some byte =>
      match fuel with
      | O => Err OutOfFuel
      | S fuel =>
          let next := skip (utf8_width byte) c in
          match quote with
          | Some (active_quote, escaped) =>
              let quote :=
                if escaped : bool then Some (active_quote, false)
                else if byte =? 92 then Some (active_quote, true)
                else if byte =? active_quote then None
                else quote in
              end_loop fuel start stack quote next
          | None =>
              if (byte =? 39) || (byte =? 34) then end_loop fuel start stack (Some (byte, false)) next
              else match closer byte with
              | Some expected => end_loop fuel start (expected :: stack) None next
              | None =>
                  if is_closer byte then
                    match stack with
                    | [] => Err (scan_error (pos c) "unexpected closing delimiter")
                    | expected :: stack =>
                        if negb (byte =? expected) then
                          Err (scan_error (pos c)
                            ("mismatched closing delimiter `" +:+ byte_text byte +:+ "`; expected `" +:+
                             byte_text expected +:+ "`"))
                        else match stack with
                        | [] => Ok c
                        | _ => end_loop fuel start stack None next
                        end
                    end
                  else end_loop fuel start stack None next
              end
          end
      end
  end.

(** [find_expression_end]: the cursor at the closing brace. *)
Definition find_expression_end (c : Cursor) : Compiled Cursor :=
  end_loop (String.length (rest c)) (pos c) [125] None c.

(** [push_literal]. *)
Definition push_literal (parts : list TemplatePart) (literal : string) : list TemplatePart :=
  if is_empty literal then parts else parts ++ [PartLiteral literal].

(** The loop of [template::compile]. *)
Fixpoint compile_loop (fuel : nat) (limits : CompilationLimits) (parts : list TemplatePart)
    (literal : string) (expressions : Z) (c : Cursor) : Compiled (list TemplatePart) :=
  match first_byte (rest c) with
  | None => Ok (push_literal parts literal)
  | Some byte =>
      match fuel with
      | O => Err OutOfFuel
      | S fuel =>
          if starts_with "{input:" (rest c) then
            Err (Reported (with_correction
              (error_new Parse field source (Span (pos c) (pos c + 7))
                "removed `{input:...}` interpolation is not valid in rye-expr/1")
              "write `${inputs.name}` and use `??` for an explicit fallback"))
          else if starts_with "$${" (rest c) then
            compile_loop fuel limits parts (literal +:+ "${") expressions (skip 3 c)
          else if starts_with "${" (rest c) then
            let parts := push_literal parts literal in
            let expressions := expressions + 1 in
            if max_expressions_per_template limits <? expressions then
              Err (template_error Limit (Span (pos c) (pos c + 2))
                ("template exceeds expression limit of " +:+
                 pretty (max_expressions_per_template limits)))
            else
              let start := skip 2 c in
              close ← find_expression_end start ;
              let expression_source := slice start close in
              if is_empty (trim expression_source) then
                Err (Reported (error_new Parse field expression_source
                  (Span 0 (len expression_source)) "template expression cannot be empty"))
              else
                expression ← compile_expression_arc expression_source field limits ;
                compile_loop fuel limits (parts ++ [PartExpression expression]) EmptyString expressions
                  (skip 1 close)
          else
            let width := utf8_width byte in
            compile_loop fuel limits parts (literal +:+ take_bytes width (rest c)) expressions
              (skip width c)
      end
  end.

(** [template::compile]. *)
Definition compile (limits : CompilationLimits) : Compiled CompiledTemplate :=
  if max_template_bytes limits <? len source then
    Err (template_error Limit (Span 0 (len source))
      ("template source is " +:+ pretty (len source) +:+ " bytes; limit is " +:+
       pretty (max_template_bytes limits)))
  else
    parts ← compile_loop (String.length source) limits [] EmptyString 0 (At 0 source) ;
    let parts := match parts with [] => [PartLiteral EmptyString] | _ => parts end in
    let whole_expression := match parts with [PartExpression _] => true | _ => false end in
    Ok (template_new source field parts whole_expression).

End template.

(** [compile_template] and [compile_template_for]. *)
Definition compile_template (source : string) (limits : CompilationLimits) :=
  compile source None limits.
Definition compile_template_for (source field : string) (limits : CompilationLimits) :=
  compile source (Some field) limits.

(** ** Conditions *)

(** [require_boolean_condition]. *)
Definition require_boolean_condition (e : CompiledExpression) : Compiled CompiledExpression :=
  match static_result_type e with
  | Some kind =>
      if decide (kind ≠ TyBool) then
        Err (Reported (error_new Parse (ce_field e) (ce_source e) (expr_span (ce_root e))
          ("condition expression is statically " +:+ type_str kind +:+ "; expected bool")))
      else Ok e
  | None => Ok e
  end.

(** [compile_condition_for]. *)
Definition compile_condition_for (source field : string) (limits : CompilationLimits)
    : Compiled CompiledExpression :=
  let source := trim source in
  if is_empty source then
    Err (Reported (error_new Parse (Some field) source (span_at 0) "condition expression cannot be empty"))
  else if starts_with "${" source then
    template ← compile_template_for source field limits ;
    if ct_whole_expression template then
      match ct_parts template with
      | PartExpression e :: _ => require_boolean_condition e
      | _ => Err Panic
      end
    else
      Err (Reported (error_new Parse (ct_field template) (ct_source template)
        (Span 0 (len (ct_source template)))
        "condition wrapper must contain exactly one whole expression"))
  else
    e ← compile_expression_for source field limits ;
    require_boolean_condition e.
