(* ===== verification/CompileCorrect.v ===== *)
(** * What compilation accepts

    Compilation always ends with a result or a reported error; the scanner
    of templates finds the end of an expression by its balanced text; and a
    template is read as literal text and expressions that cover its source. *)

From Stdlib Require Import Ascii.
From S2P Require Import Prelude Float64 Json Numeric ExprSyntax Lexer Parser Grammar Budget.
From S2P Require Import Functions Evaluator Denotation Refinement StaticTypes TypeSoundness.
From S2P Require Import References Compile.

(** ** Arities *)

Definition own_arity (e : Expr) : Prop :=
  match expr_kind e with KCall f es => Z.of_nat (length es) = arity f | _ => True end.

Lemma arity_node e : own_arity e → (∀ c, c ∈ children e → arity_ok c) → arity_ok e.
Proof.
  intros He Hc f es sp Hs. inversion Hs as [|? c ? Hin Hs']; subst; [done|]. by eapply Hc.
Qed.

Lemma derives_arity :
  (∀ e ts, derives e ts → arity_ok e) ∧
  (∀ es ts, derives_elements es ts → Forall arity_ok es) ∧
  (∀ es ts, derives_entries es ts → Forall arity_ok es.*2).
Proof.
  apply derives_mutind; intros; rewrite ?fmap_cons; try (by constructor);
    apply arity_node; try done; cbn [children expr_kind]; rewrite ?Forall_forall in *; intros c' Hc; set_solver.
Qed.

Lemma lex_ended source field limits tokens : lex source field limits = Ok tokens → ended tokens.
Proof.
  unfold lex. case_match; [done|]. intros (new & -> & Hn & _)%run_sound. by eapply tokens_of_ended.
Qed.

Lemma parse_arity source field tokens limits e :
  ended tokens → parse source field tokens limits = Ok e → arity_ok e.
Proof.
  intros (ts & sp & -> & Hts) (Hd & _)%parse_sound; [|done]. by eapply derives_arity.
Qed.

(** ** Expressions *)

Section static.
Context (source : string) (field : option string).

Lemma require_clean operand allowed p q : clean (require source field operand allowed p q).
Proof. unfold require. repeat case_match; first [done|apply clean_reported]. Qed.
Lemma pair_clean l r p q : clean (require_matching_scalar_pair source field l r p q).
Proof.
  apply clean_bind; [apply require_clean|intros _ _]. apply clean_bind; [apply require_clean|intros _ _].
  repeat case_match; first [done|apply clean_reported].
Qed.
Lemma membership_clean l r p : clean (require_membership source field l r p).
Proof.
  apply clean_bind; [apply require_clean|intros _ _]. repeat case_match; first [done|apply require_clean].
Qed.
Lemma boolean_clean op e side : op = And ∨ op = Or → clean (require_boolean_operand source field op e side).
Proof.
  intros Hop. unfold require_boolean_operand. case_match; [|done]. case_match; [done|].
  destruct Hop as [-> | ->]; apply clean_reported.
Qed.
Lemma static_binary_clean op l r : clean (static_binary source field op l r).
Proof.
  destruct op; cbn [static_binary]; first
    [ apply pair_clean | apply membership_clean | done
    | apply clean_bind; [apply require_clean|intros; apply require_clean]
    | apply clean_bind; [|intros]; apply boolean_clean; auto ].
Qed.
Lemma static_call_clean f es : Z.of_nat (length es) = arity f → clean (static_call source field f es).
Proof.
  intros Hlen. destruct es as [|e es]; [by destruct f|]. cbn.
  destruct f; try apply require_clean; try done.
  - destruct es; [cbn in Hlen; lia|]. apply membership_clean.
  - apply clean_bind; [apply require_clean|intros _ _]. destruct es; [cbn in Hlen; lia|]. apply require_clean.
Qed.

Lemma static_all_clean es :
  Forall (λ e, arity_ok e → clean (static_expression source field e)) es → Forall arity_ok es →
  clean ((fix all l := match l with [] => Ok tt | e :: l => static_expression source field e ;; all l end) es).
Proof.
  induction 1 as [|e es He _ IH]; intros Har; [done|]. inversion Har; subst.
  apply clean_bind; [by apply He|]. intros _ _. by apply IH.
Qed.

Lemma static_clean e : arity_ok e → clean (static_expression source field e).
Proof.
  induction e as [l sp|name sp|t k sp IHt|t i sp IHt IHi|es sp IHes|es sp IHes|o e sp IHe
                 |o l r sp IHl IHr|c t e sp IHc IHt IHe|fn es sp IHes|e sp IHe] using Expr_ind;
    intros Har; pose proof (λ c, arity_child c _ Har) as Hc; cbn [children expr_kind static_expression] in *.
  - done.
  - done.
  - apply IHt, Hc. by left.
  - apply clean_bind; [apply IHt, Hc; by left|]. intros _ _. apply IHi, Hc. by right; left.
  - apply static_all_clean; [done|]. by apply Forall_forall.
  - rewrite entries_all. apply static_all_clean; [by apply Forall_fmap|]. by apply Forall_forall.
  - apply clean_bind; [apply IHe, Hc; by left|]. intros _ _. destruct o; apply require_clean.
  - apply clean_bind; [apply IHl, Hc; by left|]. intros _ _.
    apply clean_bind; [apply IHr, Hc; by right; left|]. intros _ _. apply static_binary_clean.
  - apply clean_bind; [apply IHc, Hc; by left|]. intros _ _.
    apply clean_bind; [apply IHt, Hc; by right; left|]. intros _ _.
    apply clean_bind; [apply IHe, Hc; by right; right; left|]. intros _ _. apply require_clean.
  - apply clean_bind; [apply static_all_clean; [done|by apply Forall_forall]|]. intros _ _.
    apply static_call_clean. eapply Har. constructor.
  - apply IHe, Hc. by left.
Qed.
End static.

(** Where a compiled expression comes from. *)
Record compiled (source : string) (field : option string) (limits : CompilationLimits)
    (e : CompiledExpression) : Prop := {
  compiled_source : ce_source e = source;
  compiled_field : ce_field e = field;
  compiled_parsed : ∃ tokens,
    lex source field limits = Ok tokens ∧ parse source field tokens limits = Ok (ce_root e);
  compiled_arity : arity_ok (ce_root e);
  compiled_validated : validate (ce_root e) source field = Ok tt;
  compiled_references : collect (ce_root e) = Ok (ce_references e);
}.

Lemma compile_expression_inv source field limits e :
  compile_expression_arc source field limits = Ok e → compiled source field limits e.
Proof.
  unfold compile_expression_arc.
  destruct (lex source field limits) as [tokens|] eqn:El; cbn [mbind result_bind]; [|done].
  destruct (parse source field tokens limits) as [root|] eqn:Ep; cbn [mbind result_bind]; [|done].
  destruct (validate root source field) as [[]|] eqn:Ev; cbn [mbind result_bind]; [|done].
  destruct (collect root) as [refs|] eqn:Ec; cbn [mbind result_bind]; [|done].
  intros [= <-]. split; try done; [by exists tokens|]. cbn.
  eapply parse_arity; [by eapply lex_ended|done].
Qed.

Lemma compile_expression_clean source field limits : clean (compile_expression_arc source field limits).
Proof.
  unfold compile_expression_arc. apply clean_bind; [apply lex_clean|]. intros tokens Hl%lex_ended.
  apply clean_bind; [by apply parse_clean|]. intros root Hp.
  apply clean_bind; [apply static_clean; by eapply parse_arity|]. intros _ _.
  destruct (collect_variables root) as (set & -> & _). done.
Qed.

(** ** The end of an embedded expression *)

(** One character: its first byte is [b]. *)
Definition one_char (p : string) (b : Z) : Prop := first_byte p = Some b ∧ String.length p = utf8_width b.

(** The rest of a quoted text, with the closing quote. *)
Inductive quoted (q : Z) : string → Prop :=
| quoted_close p : one_char p q → q ≠ 92 → quoted q p
| quoted_char p b s : one_char p b → b ≠ q → b ≠ 92 → quoted q s → quoted q (p +:+ s)
| quoted_escape bs p b s : one_char bs 92 → one_char p b → quoted q s → quoted q (bs +:+ p +:+ s).

Definition is_quote (b : Z) : bool := (b =? 39) || (b =? 34).

(** Text whose brackets match outside quoted strings. *)
Inductive balanced : string → Prop :=
| balanced_nil : balanced EmptyString
| balanced_char p b s :
    one_char p b → is_quote b = false → closer b = None → is_closer b = false →
    balanced s → balanced (p +:+ s)
| balanced_quote p q t s :
    one_char p q → is_quote q = true → quoted q t → balanced s → balanced (p +:+ t +:+ s)
| balanced_group p o t x k s :
    one_char p o → closer o = Some k → balanced t → one_char x k → balanced s →
    balanced (p +:+ t +:+ x +:+ s).

(** Text that closes every bracket of the stack but the last, which comes next. *)
Inductive closes : list Z → string → Prop :=
| closes_last k t : balanced t → closes [k] t
| closes_more k stack t x s :
    balanced t → one_char x k → closes stack s → closes (k :: stack) (t +:+ x +:+ s).

Lemma closes_char stack p b s :
  one_char p b → is_quote b = false → closer b = None → is_closer b = false →
  closes stack s → closes stack (p +:+ s).
Proof.
  intros Hp Hq Hc Hk Hs. destruct Hs as [k t Ht|k stack t x s Ht Hx Hs].
  - by eapply closes_last, balanced_char.
  - rewrite <- append_assoc. eapply closes_more; [by eapply balanced_char|done..].
Qed.
Lemma closes_quote stack p q t s :
  one_char p q → is_quote q = true → quoted q t → closes stack s → closes stack (p +:+ t +:+ s).
Proof.
  intros Hp Hq Ht Hs. destruct Hs as [k u Hu|k stack u x s Hu Hx Hs].
  - by eapply closes_last, balanced_quote.
  - rewrite <- (append_assoc t), <- (append_assoc p). eapply closes_more; [|done..]. by eapply balanced_quote.
Qed.
Lemma closes_group stack p o k t :
  one_char p o → closer o = Some k → stack ≠ [] → closes (k :: stack) t → closes stack (p +:+ t).
Proof.
  intros Hp Ho Hne Ht. inversion Ht as [|? ? t1 x t2 Ht1 Hx Ht2]; subst; [done|].
  destruct Ht2 as [k' u Hu|k' stack u x' s Hu Hx' Hs].
  - by eapply closes_last, balanced_group.
  - replace (p +:+ t1 +:+ x +:+ u +:+ x' +:+ s) with ((p +:+ t1 +:+ x +:+ u) +:+ x' +:+ s)
      by by rewrite !append_assoc.
    eapply closes_more; [|done..]. by eapply balanced_group.
Qed.

Definition completes (q : option (Z * bool)) (stack : list Z) (t : string) : Prop :=
  match q with
  | None => closes stack t
  | Some (q, false) => ∃ t1 t2, t = t1 +:+ t2 ∧ quoted q t1 ∧ closes stack t2
  | Some (q, true) =>
      ∃ p b t1 t2, t = p +:+ t1 +:+ t2 ∧ one_char p b ∧ quoted q t1 ∧ closes stack t2
  end.
Definition quote_ok (q : option (Z * bool)) : Prop :=
  match q with Some (q, _) => is_quote q = true | None => True end.

Lemma take_bytes_or_end n s : String.length (take_bytes n s) = n ∨ drop_bytes n s = EmptyString.
Proof.
  revert s. induction n as [|n IH]; intros [|a s]; cbn; auto. destruct (IH s); [left; lia|by right].
Qed.

Lemma drop_char_shorter u b :
  first_byte u = Some b → (String.length (drop_bytes (utf8_width b) u) < String.length u)%nat.
Proof.
  intros Hb. pose proof (take_drop_bytes (utf8_width b) u) as Ht. apply (f_equal String.length) in Ht.
  rewrite append_length in Ht. assert (1 ≤ String.length (take_bytes (utf8_width b) u))%nat; [|lia].
  destruct u as [|a u]; [done|]. unfold utf8_width. repeat case_match; cbn; lia.
Qed.

Section end_loop.
Context (source : string) (field : option string).

Lemma end_loop_empty n start stack q c c' :
  rest c = EmptyString → end_loop source field n start stack q c ≠ Ok c'.
Proof. intros Hc. destruct n; cbn [end_loop]; by rewrite Hc. Qed.

(** The character at the cursor, when the scan goes on to succeed after it. *)
Lemma end_loop_char n start stack q c b c' :
  first_byte (rest c) = Some b →
  end_loop source field n start stack q (skip (utf8_width b) c) = Ok c' →
  reads c (take_bytes (utf8_width b) (rest c)) (skip (utf8_width b) c) ∧
  one_char (take_bytes (utf8_width b) (rest c)) b.
Proof.
  intros Hb Hok. split; [apply reads_skip|]. split.
  - destruct (rest c) as [|a s]; [done|]. injection Hb as <-.
    unfold utf8_width. repeat case_match; done.
  - destruct (take_bytes_or_end (utf8_width b) (rest c)) as [|He]; [done|].
    by apply end_loop_empty in Hok.
Qed.

(** The scan reads the character [p] and then, by induction, the text [t]. *)
Ltac scan_on IH Hb :=
  let Hok := fresh in
  intros Hok; destruct (end_loop_char _ _ _ _ _ _ _ Hb Hok) as [Hr Hp];
  set (p := take_bytes _ _) in *; clearbody p;
  apply IH in Hok as (t & Hr' & Ht & Hl); [|done|by repeat case_match].

Lemma end_loop_sound n start stack q c c' :
  stack ≠ [] → quote_ok q → end_loop source field n start stack q c = Ok c' →
  ∃ t, reads c t c' ∧ completes q stack t ∧ first_byte (rest c') = last stack.
Proof.
  revert stack q c. induction n as [|n IH]; intros stack q c Hne Hq; cbn [end_loop];
    destruct (first_byte (rest c)) as [b|] eqn:Hb; try done.
  destruct q as [[q escaped]|].
  - scan_on IH Hb.
    exists (p +:+ t). split_and!; [by eapply reads_trans| |done].
    destruct escaped; cbn [completes] in *.
    + destruct Ht as (t1 & t2 & -> & ? & ?). by exists p, b, t1, t2.
    + destruct (Z.eqb_spec b 92) as [->|Hb92]; cbn [completes] in Ht.
      * destruct Ht as (p' & b' & t1 & t2 & -> & ? & ? & ?).
        exists (p +:+ p' +:+ t1), t2. split_and!; [by rewrite !append_assoc| |done]. by econstructor.
      * destruct (Z.eqb_spec b q) as [->|Hbq]; cbn [completes] in Ht.
        -- exists p, t. split_and!; [done| |done]. by apply quoted_close.
        -- destruct Ht as (t1 & t2 & -> & ? & ?). exists (p +:+ t1), t2.
           split_and!; [by rewrite append_assoc| |done]. by eapply quoted_char.
  - fold (is_quote b). destruct (is_quote b) eqn:Hbq.
    { scan_on IH Hb. destruct Ht as (t1 & t2 & -> & ? & ?).
      exists (p +:+ t1 +:+ t2). split_and!; [by eapply reads_trans| |done]. by eapply closes_quote. }
    destruct (closer b) as [k|] eqn:Hk.
    { scan_on IH Hb.
      exists (p +:+ t). split_and!; [by eapply reads_trans|by eapply closes_group|].
      rewrite Hl. by destruct stack. }
    destruct (is_closer b) eqn:Hcl.
    + destruct stack as [|k stack]; [done|]. destruct (Z.eqb_spec b k) as [->|]; cbn [negb]; [|done].
      destruct stack as [|k' stack].
      { intros [= <-]. exists EmptyString. split_and!; [apply reads_refl|by constructor; constructor|done]. }
      scan_on IH Hb.
      exists (p +:+ t). split_and!; [by eapply reads_trans| |done].
      rewrite <- (append_nil_l (p +:+ t)). by constructor; [constructor|..].
    + scan_on IH Hb.
      exists (p +:+ t). split_and!; [by eapply reads_trans|by eapply closes_char|done].
Qed.

(** ** Balanced text is skipped *)

(** The scan reaches the second state from the first one, with enough fuel left. *)
Definition moves start stack q c stack' q' c' : Prop :=
  ∀ n, (String.length (rest c) ≤ n)%nat → ∃ n', (String.length (rest c') ≤ n')%nat ∧
    end_loop source field n start stack q c = end_loop source field n' start stack' q' c'.

Lemma moves_refl start stack q c : moves start stack q c stack q c.
Proof. intros n Hn. by exists n. Qed.
Lemma moves_trans start s1 q1 c1 s2 q2 c2 s3 q3 c3 :
  moves start s1 q1 c1 s2 q2 c2 → moves start s2 q2 c2 s3 q3 c3 → moves start s1 q1 c1 s3 q3 c3.
Proof.
  intros H12 H23 n (n2 & Hn2 & ->)%H12. destruct (H23 n2 Hn2) as (n3 & Hn3 & ->). by exists n3.
Qed.

(** What one character does to the state of the scan. *)
Definition step_quote (b : Z) (q : option (Z * bool)) : option (Z * bool) :=
  match q with
  | Some (active, escaped) =>
      if escaped : bool then Some (active, false) else if b =? 92 then Some (active, true)
      else if b =? active then None else q
  | None => if is_quote b then Some (b, false) else None
  end.
Definition step_stack (b : Z) (q : option (Z * bool)) (stack : list Z) : option (list Z) :=
  match q with
  | Some _ => Some stack
  | None =>
      if is_quote b then Some stack
      else match closer b with
      | Some k => Some (k :: stack)
      | None =>
          if is_closer b then
            match stack with k :: (_ :: _) as stack => if b =? k then Some stack else None | _ => None end
          else Some stack
      end
  end.

Lemma char_reads c p b s :
  one_char p b → rest c = p +:+ s → reads c p (skip (utf8_width b) c) ∧ rest (skip (utf8_width b) c) = s.
Proof.
  intros [Hb Hl] Hc. cbn. rewrite Hc, <- Hl, drop_bytes_append. split; [|done].
  split; cbn; rewrite ?Hc, ?drop_bytes_append, ?take_bytes_append; done.
Qed.

Lemma moves_char start stack stack' q c p b s :
  one_char p b → rest c = p +:+ s → step_stack b q stack = Some stack' →
  moves start stack q c stack' (step_quote b q) (skip (utf8_width b) c).
Proof.
  intros Hp Hc Hs n Hn. destruct (char_reads _ _ _ _ Hp Hc) as [_ Hrest]. destruct Hp as [Hb Hl].
  assert (first_byte (rest c) = Some b) as Hfirst by (rewrite Hc; by destruct p).
  assert (String.length p ≠ 0)%nat as Hp0 by by destruct p.
  rewrite Hc, append_length in Hn. destruct n as [|n]; [lia|].
  exists n. split; [rewrite Hrest; lia|]. cbn [end_loop]. rewrite Hfirst. fold (is_quote b).
  destruct q as [[q escaped]|]; cbn in Hs |- *; [by injection Hs as ->|].
  destruct (is_quote b); [by injection Hs as ->|]. destruct (closer b); [by injection Hs as ->|].
  destruct (is_closer b); [|by injection Hs as ->].
  destruct stack as [|k [|k' stack]]; try done. destruct (b =? k); [|done]. by injection Hs as <-.
Qed.

Lemma reads_split c p b s c' :
  one_char p b → reads c (p +:+ s) c' →
  rest c = p +:+ s +:+ rest c' ∧ reads (skip (utf8_width b) c) s c'.
Proof.
  intros Hp [Hr Hpos]. rewrite append_assoc in Hr. split; [done|].
  destruct (char_reads _ _ _ _ Hp Hr) as [[_ Hp1] Hr1]. split; [done|].
  rewrite Hpos, len_append, Hp1. lia.
Qed.

Lemma reads_append c t t' c' : reads c (t +:+ t') c' → ∃ c1, reads c t c1 ∧ reads c1 t' c'.
Proof.
  intros [Hr Hp]. exists (At (pos c + len t) (t' +:+ rest c')). split; split; cbn; [|done|done|].
  - by rewrite Hr, append_assoc.
  - rewrite Hp, len_append. lia.
Qed.
Lemma reads_nil c c' : reads c EmptyString c' → c' = c.
Proof.
  intros [Hr Hp]. destruct c, c'. cbn in *. rewrite append_nil_l in Hr. subst. f_equal. unfold len. cbn. lia.
Qed.

Lemma moves_quoted start stack q t c c' :
  is_quote q = true → quoted q t → reads c t c' →
  moves start stack (Some (q, false)) c stack None c'.
Proof.
  intros Hq Ht. revert c. induction Ht as [p Hp Hne|p b s Hp Hbq Hb92 Ht IH|bs p b s Hbs Hp Ht IH]; intros c Hr.
  - rewrite <- (append_nil_r p) in Hr. apply (reads_split _ _ _ _ _ Hp) in Hr as [Hc ->%reads_nil].
    eapply moves_trans; [by eapply moves_char|]. cbn [step_quote].
    rewrite (proj2 (Z.eqb_neq q 92) Hne), Z.eqb_refl. apply moves_refl.
  - apply (reads_split _ _ _ _ _ Hp) in Hr as [Hc Hr].
    eapply moves_trans; [by eapply moves_char|]. cbn [step_quote].
    rewrite (proj2 (Z.eqb_neq b 92) Hb92), (proj2 (Z.eqb_neq b q) Hbq). by apply IH.
  - apply (reads_split _ _ _ _ _ Hbs) in Hr as [Hc Hr]. apply (reads_split _ _ _ _ _ Hp) in Hr as [Hc' Hr].
    eapply moves_trans; [by eapply (moves_char _ _ _ _ _ bs 92)|]. change (step_quote 92 _) with (Some (q, true)).
    eapply moves_trans; [by eapply (moves_char _ _ _ _ _ p b)|]. by apply IH.
Qed.

Lemma moves_balanced start stack t c c' :
  stack ≠ [] → balanced t → reads c t c' → moves start stack None c stack None c'.
Proof.
  intros Hne Ht. revert stack c c' Hne.
  induction Ht as [|p b s Hp Hq Hk Hc Ht IH|p q t s Hp Hq Hqt Ht IH|p o t x k s Hp Ho Ht IHt Hx Hs IHs];
    intros stack c c' Hne Hr.
  - apply reads_nil in Hr as ->. apply moves_refl.
  - apply (reads_split _ _ _ _ _ Hp) in Hr as [Hrest Hr].
    eapply moves_trans; [eapply moves_char; [done..|]; cbn [step_stack]; by rewrite Hq, Hk, Hc|].
    cbn [step_quote]. rewrite Hq. by apply IH.
  - apply (reads_split _ _ _ _ _ Hp) in Hr as [Hrest Hr]. apply reads_append in Hr as (c1 & Hr1 & Hr2).
    eapply moves_trans; [eapply moves_char; [done..|]; cbn [step_stack]; by rewrite Hq|].
    cbn [step_quote]. rewrite Hq. eapply moves_trans; [by eapply moves_quoted|]. by apply IH.
  - apply (reads_split _ _ _ _ _ Hp) in Hr as [Hrest Hr]. apply reads_append in Hr as (c1 & Hr1 & Hr2).
    apply (reads_split _ _ _ _ _ Hx) in Hr2 as [Hrest2 Hr2].
    assert (is_quote o = false ∧ is_quote k = false ∧ closer k = None ∧ is_closer k = true) as (Hqo & Hqk & Hck & Hkk).
    { unfold closer in Ho. unfold is_quote.
      destruct (Z.eqb_spec o 123) as [->|]; [by injection Ho as <-|].
      destruct (Z.eqb_spec o 91) as [->|]; [by injection Ho as <-|].
      destruct (Z.eqb_spec o 40) as [->|]; [by injection Ho as <-|done]. }
    eapply moves_trans; [eapply (moves_char _ _ _ _ _ p o); [done..|]; cbn [step_stack]; by rewrite Hqo, Ho|].
    cbn [step_quote]. rewrite Hqo. eapply moves_trans; [by apply IHt|].
    eapply moves_trans; [eapply (moves_char _ _ _ _ _ x k); [done..|]; cbn [step_stack]; rewrite Hqk, Hck, Hkk|].
    { destruct stack as [|k' stack]; [done|]. by rewrite Z.eqb_refl. }
    cbn [step_quote]. rewrite Hqk. by apply IHs.
Qed.

(** The scanner finds the brace that ends an expression exactly when the
    text before it is balanced. *)
Lemma find_expression_end_spec c c' :
  find_expression_end source field c = Ok c' ↔
  ∃ t, reads c t c' ∧ balanced t ∧ first_byte (rest c') = Some 125.
Proof.
  unfold find_expression_end. split.
  - intros (t & Hr & Ht & Hl)%end_loop_sound; [|done|done]. exists t. split_and!; [done| |done].
    cbn in Ht. by inversion Ht as [|? ? ? ? ? ? ? Hc]; subst; [|inversion Hc].
  - intros (t & Hr & Ht & Hb).
    destruct (moves_balanced (pos c) [125] t c c' ltac:(done) Ht Hr (String.length (rest c))) as (n' & Hn' & ->); [lia|].
    destruct n' as [|n']; [destruct (rest c'); [done|cbn in Hn'; lia]|]. cbn [end_loop]. by rewrite Hb.
Qed.

Lemma end_loop_clean n start stack q c :
  (String.length (rest c) ≤ n)%nat → clean (end_loop source field n start stack q c).
Proof.
  revert stack q c. induction n as [|n IH]; intros stack q c Hn; cbn [end_loop];
    destruct (rest c) as [|a s] eqn:Hc; cbn [first_byte]; try apply clean_reported; [cbn in Hn; lia|].
  set (b := byte_of a).
  assert (String.length (rest (skip (utf8_width b) c)) ≤ n)%nat as Hlt.
  { cbn [skip rest]. rewrite Hc. pose proof (drop_char_shorter (String a s) b eq_refl). lia. }
  clearbody b. repeat (case_match; try first [apply clean_reported | by apply IH]); done.
Qed.
End end_loop.

(** ** Templates *)

Inductive piece :=
| Text (s : string)
| Embedded (e : CompiledExpression).

Fixpoint merge (literal : string) (pieces : list piece) : list TemplatePart :=
  match pieces with
  | [] => push_literal [] literal
  | Text s :: pieces => merge (literal +:+ s) pieces
  | Embedded e :: pieces => push_literal [] literal ++ PartExpression e :: merge EmptyString pieces
  end.
Definition embedded_count (pieces : list piece) : Z :=
  foldr (λ p, Z.add (match p with Embedded _ => 1 | Text _ => 0 end)) 0 pieces.

Lemma embedded_count_nonneg pieces : 0 ≤ embedded_count pieces.
Proof. unfold embedded_count. induction pieces as [|[] pieces IH]; cbn [foldr]; lia. Qed.
Lemma push_literal_app parts literal : push_literal parts literal = parts ++ push_literal [] literal.
Proof. unfold push_literal. destruct (is_empty literal); [by rewrite app_nil_r|done]. Qed.

Section templates.
Context (source : string) (field : option string) (limits : CompilationLimits).

(** How template text is read: [$${] is a literal dollar and brace, [${...}]
    with balanced text inside is an expression, and every other character
    stands for itself; the old interpolation syntax is not allowed. *)
Inductive spelled : string → list piece → Prop :=
| spelled_end : spelled EmptyString []
| spelled_escape s ps : spelled s ps → spelled ("$${" +:+ s) (Text "${" :: ps)
| spelled_expression t s e ps :
    balanced t → is_empty (trim t) = false → compile_expression_arc t field limits = Ok e →
    spelled s ps → spelled ("${" +:+ t +:+ "}" +:+ s) (Embedded e :: ps)
| spelled_char u b ps :
    first_byte u = Some b →
    starts_with "{input:" u = false → starts_with "$${" u = false → starts_with "${" u = false →
    spelled (drop_bytes (utf8_width b) u) ps → spelled u (Text (take_bytes (utf8_width b) u) :: ps).

Lemma starts_with_split p s : starts_with p s = true ↔ ∃ s', s = p +:+ s'.
Proof.
  revert s. induction p as [|a p IH]; intros s; cbn.
  - split; [by exists s|done].
  - destruct s as [|b s]; [split; [done|by intros [? ?]]|].
    destruct (decide (a = b)) as [->|Hne].
    + rewrite IH. split; intros [s' Hs]; exists s'; [by rewrite append_cons, Hs|].
      rewrite append_cons in Hs. by injection Hs.
    + split; [done|]. intros [s' Hs]. rewrite append_cons in Hs. by injection Hs.
Qed.

Lemma skip_starts p c s : rest c = p +:+ s → reads c p (skip (String.length p) c) ∧ rest (skip (String.length p) c) = s.
Proof.
  intros Hc. cbn. rewrite Hc, drop_bytes_append. split; [|done].
  split; cbn; rewrite ?Hc, ?drop_bytes_append, ?take_bytes_append; done.
Qed.

Abbreviation loop := (compile_loop source field).

Lemma compile_loop_sound n parts literal k c parts' :
  loop n limits parts literal k c = Ok parts' →
  ∃ ps, spelled (rest c) ps ∧ parts' = parts ++ merge literal ps ∧
    (embedded_count ps = 0 ∨ k + embedded_count ps ≤ max_expressions_per_template limits).
Proof.
  revert parts literal k c. induction n as [|n IH]; intros parts literal k c; cbn [compile_loop];
    destruct (first_byte (rest c)) as [b|] eqn:Hb; try done;
    try (intros [= <-]; exists []; destruct (rest c); [|done]; split_and!;
         [constructor|apply push_literal_app|by left]).
  destruct (starts_with "{input:" (rest c)) eqn:Hin; [done|].
  destruct (starts_with "$${" (rest c)) eqn:Hesc.
  { apply starts_with_split in Hesc as [s Hs]. destruct (skip_starts _ _ _ Hs) as [_ Hrest].
    intros (ps & Hps & -> & Hk)%IH. exists (Text "${" :: ps). split_and!; [|done|done].
    rewrite Hs. apply spelled_escape. change (String.length "$${") with 3%nat in Hrest. by rewrite Hrest in Hps. }
  destruct (starts_with "${" (rest c)) eqn:Hopen.
  - apply starts_with_split in Hopen as [s Hs]. destruct (skip_starts _ _ _ Hs) as [_ Hrest].
    change (String.length "${") with 2%nat in Hrest.
    destruct (Z.ltb_spec (max_expressions_per_template limits) (k + 1)); [done|].
    destruct (find_expression_end source field (skip 2 c)) as [close|] eqn:Hend; [|done]. cbn [mbind result_bind].
    apply find_expression_end_spec in Hend as (t & Hr & Ht & Hclose). rewrite (reads_slice _ _ _ Hr).
    destruct (is_empty (trim t)) eqn:Htrim; [done|].
    destruct (compile_expression_arc t field limits) as [e|] eqn:He; [|done]. cbn [mbind result_bind].
    intros (ps & Hps & -> & Hk)%IH. exists (Embedded e :: ps). split_and!.
    + rewrite Hs. destruct Hr as [Hr _]. rewrite Hrest in Hr. rewrite Hr.
      destruct (rest close) as [|a s'] eqn:Hrc; [done|]. injection Hclose as Ha%byte_eq. subst a.
      change (String (ascii_of_Z 125) s') with ("}" +:+ s'). apply spelled_expression; [done..|].
      cbn in Hps. by rewrite Hrc in Hps.
    + rewrite push_literal_app, <- !app_assoc. done.
    + right. change (embedded_count (Embedded e :: ps)) with (1 + embedded_count ps).
      pose proof (embedded_count_nonneg ps). destruct Hk; lia.
  - intros (ps & Hps & -> & Hk)%IH. exists (Text (take_bytes (utf8_width b) (rest c)) :: ps).
    split_and!; [by apply spelled_char|done|done].
Qed.

Lemma compile_loop_complete ps n parts literal k c :
  spelled (rest c) ps → (String.length (rest c) ≤ n)%nat →
  (embedded_count ps = 0 ∨ k + embedded_count ps ≤ max_expressions_per_template limits) →
  loop n limits parts literal k c = Ok (parts ++ merge literal ps).
Proof.
  intros Hs. remember (rest c) as u eqn:Hu. revert n parts literal k c Hu.
  induction Hs as [|s ps Hs IH|t s e ps Ht Htrim He Hs IH|u b ps Hb Hin Hesc Hopen Hs IH];
    intros n parts literal k c Hu Hn Hk.
  - destruct n; cbn [compile_loop]; rewrite <- Hu; cbn [first_byte]; by rewrite push_literal_app.
  - destruct (skip_starts _ _ _ (eq_sym Hu)) as [_ Hrest].
    change ("$${" +:+ s) with (String "$"%char (String "$"%char (String "{"%char s))) in *.
    destruct n as [|n]; [cbn in Hn; lia|]. cbn [compile_loop]. rewrite <- Hu.
    apply IH; [done|cbn in Hn; lia|done].
  - destruct (skip_starts _ _ _ (eq_sym Hu)) as [_ Hrest].
    change ("${" +:+ t +:+ "}" +:+ s) with (String "$"%char (String "{"%char (t +:+ "}" +:+ s))) in *.
    destruct n as [|n]; [cbn in Hn; lia|]. cbn [compile_loop]. rewrite <- Hu.
    cbn [first_byte]. change (starts_with "{input:" _) with false.
    change (starts_with "$${" _) with false. change (starts_with "${" _) with true.
    change (embedded_count (Embedded e :: ps)) with (1 + embedded_count ps) in Hk.
    pose proof (embedded_count_nonneg ps) as Hps. cbv zeta.
    destruct (Z.ltb_spec (max_expressions_per_template limits) (k + 1)) as [|_]; [destruct Hk; lia|].
    set (close := At (pos (skip 2 c) + len t) ("}" +:+ s)).
    assert (reads (skip 2 c) t close) as Hr by done.
    assert (find_expression_end source field (skip 2 c) = Ok close) as ->.
    { apply find_expression_end_spec. by exists t. }
    cbn [mbind result_bind]. rewrite (reads_slice _ _ _ Hr), Htrim, He. cbn [mbind result_bind].
    rewrite IH, push_literal_app, <- !app_assoc; [done|done| |destruct Hk; lia].
    cbn in Hn. rewrite !append_length in Hn. cbn in Hn. lia.
  - destruct n as [|n]; [destruct u; [done|cbn in Hn; lia]|]. cbn [compile_loop]. rewrite <- Hu, Hb, Hin, Hesc, Hopen.
    apply IH; [by rewrite Hu| |done]. pose proof (drop_char_shorter _ _ Hb). lia.
Qed.

(** What [compile] makes of the pieces of a source. *)
Definition template_of (pieces : list piece) : CompiledTemplate :=
  let parts := match merge EmptyString pieces with [] => [PartLiteral EmptyString] | parts => parts end in
  template_new source field parts (match parts with [PartExpression _] => true | _ => false end).

Lemma compile_spec t :
  0 ≤ max_expressions_per_template limits →
  compile source field limits = Ok t ↔
  ∃ pieces, len source ≤ max_template_bytes limits ∧ spelled source pieces ∧
    embedded_count pieces ≤ max_expressions_per_template limits ∧ t = template_of pieces.
Proof.
  intros Hmax. unfold compile. destruct (Z.ltb_spec (max_template_bytes limits) (len source)) as [Hlt|Hle].
  { split; [done|]. intros (ps & Hle & _). lia. }
  split.
  - destruct (loop _ _ _ _ _ _) as [parts|] eqn:E; [|done]. cbn [mbind result_bind]. intros [= <-].
    apply compile_loop_sound in E as (ps & Hps & -> & Hk). exists ps. split_and!; [done|done|destruct Hk; lia|].
    unfold template_of. cbn. by destruct (merge EmptyString ps).
  - intros (ps & _ & Hps & Hk & ->).
    rewrite (compile_loop_complete ps); [|done|done|right; lia].
    unfold template_of. cbn. by destruct (merge EmptyString ps).
Qed.

Lemma reads_shorter c t c' : reads c t c' → (String.length (rest c') ≤ String.length (rest c))%nat.
Proof. intros [-> _]. rewrite append_length. lia. Qed.

Lemma compile_loop_clean n parts literal k c :
  (String.length (rest c) ≤ n)%nat → clean (loop n limits parts literal k c).
Proof.
  revert parts literal k c. induction n as [|n IH]; intros parts literal k c Hn; cbn [compile_loop];
    destruct (first_byte (rest c)) as [b|] eqn:Hb; try done;
    [destruct (rest c); [done|cbn in Hn; lia]|].
  assert (∀ m, (1 ≤ m)%nat → String.length (rest (skip m c)) ≤ n)%nat as Hskip.
  { intros m Hm. cbn. destruct (rest c) as [|a s]; [done|]. destruct m as [|m]; [lia|]. cbn in Hn |- *.
    pose proof (take_drop_bytes m s) as Ht. apply (f_equal String.length) in Ht. rewrite append_length in Ht. lia. }
  case_match; [apply clean_reported|]. case_match; [apply IH, Hskip; lia|]. case_match.
  - case_match; [apply clean_reported|]. apply clean_bind; [by apply end_loop_clean|].
    intros close (t & Hr & _)%find_expression_end_spec. case_match; [apply clean_reported|].
    apply clean_bind; [apply compile_expression_clean|]. intros e _. apply IH.
    pose proof (reads_shorter _ _ _ Hr). specialize (Hskip 2%nat ltac:(lia)).
    pose proof (reads_shorter _ _ _ (reads_skip 1 close)). lia.
  - apply IH, Hskip. unfold utf8_width. repeat case_match; lia.
Qed.

Lemma compile_clean : clean (compile source field limits).
Proof.
  unfold compile. case_match; [apply clean_reported|].
  apply clean_bind; [by apply compile_loop_clean|]. done.
Qed.
End templates.

(** The expressions of a compiled template have correct arities. *)
Definition part_arity (part : TemplatePart) : Prop :=
  match part with PartLiteral _ => True | PartExpression e => arity_ok (ce_root e) end.

Lemma push_literal_arity literal : Forall part_arity (push_literal [] literal).
Proof. unfold push_literal. destruct (is_empty literal); by repeat constructor. Qed.

Lemma spelled_arity field limits s ps :
  spelled field limits s ps → ∀ literal, Forall part_arity (merge literal ps).
Proof.
  induction 1 as [|s ps _ IH|t s e ps _ _ He _ IH|u b ps _ _ _ _ _ IH]; intros literal; cbn [merge];
    [apply push_literal_arity|apply IH| |apply IH].
  apply Forall_app. split; [apply push_literal_arity|]. constructor; [|apply IH].
  by apply compile_expression_inv in He as [].
Qed.

Lemma compile_arity source field limits t :
  compile source field limits = Ok t → Forall part_arity (ct_parts t).
Proof.
  unfold compile. case_match; [done|]. destruct (compile_loop _ _ _ _ _ _ _ _) as [parts|] eqn:E; [|done].
  cbn. intros [= <-]. cbn. apply compile_loop_sound in E as (ps & Hps & -> & _).
  apply spelled_arity with (literal := EmptyString) in Hps. cbn in *.
  destruct (merge EmptyString ps); [by repeat constructor|done].
Qed.

Lemma require_boolean_clean e : clean (require_boolean_condition e).
Proof. unfold require_boolean_condition. repeat case_match; first [done|apply clean_reported]. Qed.

Lemma template_whole source field limits t :
  compile source field limits = Ok t → ct_whole_expression t = true → ∃ e, ct_parts t = [PartExpression e].
Proof.
  unfold compile. case_match; [done|]. destruct (compile_loop _ _ _ _ _ _ _ _) as [parts|]; [|done].
  cbn. intros [= <-]. cbn. destruct parts as [|[|e] [|? ?]]; try done. eauto.
Qed.

Lemma compile_condition_clean source field limits : clean (compile_condition_for source field limits).
Proof.
  unfold compile_condition_for. case_match; [apply clean_reported|]. case_match.
  - apply clean_bind; [apply compile_clean|]. intros t Ht. case_match; [|apply clean_reported].
    destruct (template_whole _ _ _ _ Ht) as [e ->]; [done|]. apply require_boolean_clean.
  - apply clean_bind; [apply compile_expression_clean|]. intros. apply require_boolean_clean.
Qed.
