(* ===== verification/Session.v ===== *)
(** * Evaluation sessions

    [EvaluationContext], [EvaluationSession] and the entry points of
    [expression/mod.rs].  A session is its context and limits together with
    the budget every operation threads. *)

From S2P Require Import Prelude Float64 Json Numeric ExprSyntax Budget Functions Evaluator.
From S2P Require Import StaticTypes References Compile.

(** [EvaluationContext::new], [insert] and [get]. *)
Definition context_new : gmap string Value := ∅.
Definition context_insert (roots : gmap string Value) (name : string) (value : Value)
    : option Value * gmap string Value :=
  (roots !! name, <[name := value]> roots).
Definition with_root (roots : gmap string Value) (name : string) (value : Value) : gmap string Value :=
  (context_insert roots name value).2.

(** The parts of [EvaluationSession] that do not change. *)
Record Session := {
  session_context : ContextView;
  session_limits : EvaluationLimits;
}.

(** [EvaluationSession::new] and [with_context]; the budget starts as [budget_new]. *)
Definition session_new (value : Value) (limits : EvaluationLimits) : Session :=
  {| session_context := ContextValue value; session_limits := limits |}.
Definition session_with_context (roots : gmap string Value) (limits : EvaluationLimits) : Session :=
  {| session_context := ContextRoots roots; session_limits := limits |}.

Section session.
Context `{Externals} (session : Session).

(** [EvaluationSession::evaluator]. *)
Definition evaluator (source : string) (field : option string) : EvalEnv :=
  {| context := session_context session; limits := session_limits session;
     eval_source := source; eval_field := field |}.

(** [EvaluationSession::evaluate]. *)
Definition session_evaluate (e : CompiledExpression) : Ev Value :=
  let env := evaluator (ce_source e) (ce_field e) in
  value ← evaluate env (ce_root e) ;
  finish env value (expr_span (ce_root e)).

(** [EvaluationSession::evaluate_bool]. *)
Definition session_evaluate_bool (e : CompiledExpression) : Ev bool :=
  value ← session_evaluate e ;
  match value with
  | VBool b => mret b
  | _ =>
      throw (Reported (error_new Evaluate (ce_field e) (ce_source e) (expr_span (ce_root e))
        ("condition expression must produce bool, received " +:+ json_type value)))
  end.

(** [append_embedded]: [output] with the rendering of the value appended. *)
Definition append_embedded (env : EvalEnv) (value : RuntimeValue) (span : SourceSpan) (output : string)
    : Ev string :=
  value ← lift (ok_or (as_json value) (eval_error env span "embedded expression resolved to missing")) ;
  let append rendered :=
    check_produced_string env (saturating_add (len output) (len rendered)) span ;;
    allocate env (len rendered) span ;;
    mret (output +:+ rendered) in
  match value with
  | VNull => mret output
  | VBool true => append "true"
  | VBool false => append "false"
  | VNumber number =>
      rendered ← lift (at_span env span (Numeric.from_json number ≫= Numeric.canonical)) ;
      check_produced_string env (saturating_add (len output) (len rendered)) span ;;
      allocate env (saturating_mul (len rendered) 2) span ;;
      mret (output +:+ rendered)
  | VString value => check_scalar env value span ;; append value
  | VArray _ | VObject _ =>
      throw (eval_error_with env span "embedded arrays and objects require json(...) or string(...)"
        "wrap the expression with json(...) for deterministic text")
  end.

(** One part of [EvaluationSession::render_template]. *)
Definition render_part (t : CompiledTemplate) (output : string) (part : TemplatePart) : Ev string :=
  match part with
  | PartLiteral literal =>
      let env := evaluator (ct_source t) (ct_field t) in
      check_produced_string env (saturating_add (len output) (len literal)) (span_at 0) ;;
      allocate env (len literal) (span_at 0) ;;
      mret (output +:+ literal)
  | PartExpression e =>
      let env := evaluator (ce_source e) (ce_field e) in
      value ← evaluate env (ce_root e) ;
      append_embedded env value (expr_span (ce_root e)) output
  end.

(** [EvaluationSession::render_template]. *)
Definition render_template (t : CompiledTemplate) : Ev Value :=
  if ct_whole_expression t then
    match ct_parts t with
    | PartExpression e :: _ => session_evaluate e
    | _ => throw Panic
    end
  else
    output ← fold_m (render_part t) EmptyString (ct_parts t) ;
    let env := evaluator (ct_source t) (ct_field t) in
    let span := Span 0 (len (ct_source t)) in
    check_produced_string env (len output) span ;;
    finish env (Owned (VString output)) span.

(** The evaluator of an operation on integration-owned data. *)
Definition integration (source field : string) : EvalEnv := evaluator source (Some field).
Definition whole (source : string) : SourceSpan := Span 0 (len source).

(** [EvaluationSession::clone_value]. *)
Definition clone_value (value : Value) (field : string) : Ev Value :=
  let source := "<literal JSON>" in clone_external (integration source field) value (whole source).

(** [EvaluationSession::clone_string]. *)
Definition clone_string (value field : string) : Ev string :=
  let source := "<literal text>" in
  let env := integration source field in
  check_scalar env value (whole source) ;;
  check_produced_string env (len value) (whole source) ;;
  spend_fuel env (len value) (whole source) "cloning integration text" ;;
  allocate env (len value) (whole source) ;;
  mret value.

(** [EvaluationSession::stringify_json]. *)
Definition session_stringify_json (value : Value) (field : string) : Ev string :=
  let source := "<assembled JSON>" in
  let env := integration source field in
  output ← canonical_json env value (whole source) 1 EmptyString ;
  check_produced_string env (len output) (whole source) ;;
  mret output.

(** [EvaluationSession::validate_value] and [validate_array]. *)
Definition validate_value (value : Value) (field : string) : Ev unit :=
  let source := "<runtime JSON>" in
  inspect_result (integration source field) value 1 (whole source) (0, 0) ;; mret tt.
Definition validate_array (values : list Value) (field : string) : Ev unit :=
  let source := "<runtime JSON array>" in
  inspect_result_array (integration source field) values (whole source).

(** [EvaluationSession::assemble_string]. *)
Definition assemble_string (parts : list string) (field : string) : Ev string :=
  let source := "<assembled text>" in
  let env := integration source field in
  bytes ← lift (ok_or
    (foldl (λ total part, total ← total ; checked_add total (len part)) (Some 0) parts)
    (eval_limit_error env (whole source) "produced string byte count overflow")) ;
  check_produced_string env bytes (whole source) ;;
  spend_fuel env bytes (whole source) "assembling integration text" ;;
  allocate env bytes (whole source) ;;
  mret (foldl String.append EmptyString parts).

(** [EvaluationSession::charge_allocation] and [charge_container_elements]. *)
Definition charge_allocation (bytes : Z) (field : string) : Ev unit :=
  let source := "<literal JSON>" in allocate (integration source field) bytes (whole source).
Definition charge_container_elements (elements : nat) (field : string) : Ev unit :=
  let source := "<literal JSON>" in
  repeat_m elements (traverse_element (integration source field) (whole source)).

(** [EvaluationSession::check_result_shape]. *)
Definition check_result_shape (depth nodes bytes : Z) (field : string) : Ev unit :=
  let source := "<assembled JSON>" in
  let env := integration source field in
  if max_result_depth (limits env) <? depth then
    throw (eval_limit_error env (whole source) "result exceeds JSON depth limit")
  else if max_result_nodes (limits env) <? nodes then
    throw (eval_limit_error env (whole source) "result exceeds JSON node limit")
  else if max_result_bytes (limits env) <? bytes then
    throw (eval_limit_error env (whole source) "result exceeds JSON byte limit")
  else mret tt.

(** [EvaluationSession::charge_result_shape]. *)
Definition charge_result_shape (depth nodes bytes : Z) (field : string) : Ev unit :=
  let source := "<assembled JSON>" in
  check_result_shape depth nodes bytes field ;;
  spend_fuel (integration source field) (saturating_add nodes bytes) (whole source)
    "validating assembled result value".

End session.

(** The functions [evaluate], [evaluate_bool], [render_template] and
    [compile_and_render]: one operation of a fresh session. *)
Section entry_points.
Context `{Externals} (value : Value) (limits : EvaluationLimits).

Definition fresh {A} (operation : Session → Ev A) : Compiled A :=
  fst (operation (session_new value limits) (budget_new limits)).
Definition evaluate_expression (e : CompiledExpression) : Compiled Value :=
  fresh (λ session, session_evaluate session e).
Definition evaluate_bool (e : CompiledExpression) : Compiled bool :=
  fresh (λ session, session_evaluate_bool session e).
Definition render (t : CompiledTemplate) : Compiled Value :=
  fresh (λ session, render_template session t).
Definition compile_and_render (source : string) (compilation_limits : CompilationLimits) : Compiled Value :=
  template ← compile_template source compilation_limits ; render template.

End entry_points.
