(* ===== verification/SessionCorrect.v ===== *)
(** * Sessions compute meanings within their limits

    Evaluating a compiled expression in a session returns its meaning, the
    error of its meaning or a limit error, whatever the budget; the budget
    only shrinks; and a result that is returned is within the limits. *)

From S2P Require Import Prelude Float64 Json Numeric ExprSyntax Lexer Parser Grammar Budget.
From S2P Require Import Functions Evaluator Denotation Refinement StaticTypes TypeSoundness.
From S2P Require Import References Compile CompileCorrect Session.

(** What the evaluator relies on: [serde_json] reads only finite numbers
    and keeps object keys in order. *)
Class ReaderLaws `{Externals} : Prop :=
  reader_good : ∀ s v rest, json_deserialize s = Ok (v, rest) → good v.

Definition good_context (c : ContextView) : Prop :=
  ∀ name v, context_get c name = Ok (Some v) → good v.

(** ** Meanings are panic-free *)

Section clean.
Context `{Externals} (env : EvalEnv).

Lemma clean_at_span {A} sp (r : Result string A) : clean (at_span env sp r).
Proof. destruct r; [done|]. apply clean_reported. Qed.
Lemma clean_numeric {A} sp (r : Result Numeric.Fault A) :
  Numeric.panic_free r → clean (numeric_at_span env sp r).
Proof. destruct r as [|[]]; [done| |done]. intros _. apply clean_reported. Qed.
Lemma clean_mismatch {A E} sp m (r : Result E A) : clean (map_err (λ _, eval_error env sp m) r).
Proof. exact (clean_map_err _ r). Qed.
Lemma clean_ok_or_error {A} (o : option A) sp m : clean (ok_or o (eval_error env sp m)).
Proof. apply clean_ok_or. Qed.

Create HintDb clean.
#[local] Hint Resolve clean_ok_or_error clean_ok clean_reported clean_fmap clean_at_span clean_map_err clean_ok_or : clean.
#[local] Hint Unfold eval_error eval_error_with : clean.

Ltac clean_tac :=
  repeat first [ progress intros | progress (eauto with clean) | apply clean_bind; [|intros] | apply clean_reported
               | apply clean_ok | case_match ].

Lemma require_bool_clean v sp p : clean (require_bool env v sp p).
Proof. unfold require_bool. clean_tac. Qed.
Lemma require_number_clean v sp p : clean (require_number env v sp p).
Proof. unfold require_number. clean_tac. Qed.
#[local] Hint Resolve require_bool_clean require_number_clean : clean.

Definition arithmetic (op : BinaryOperator) : bool :=
  match op with Add | Subtract | Multiply | Divide | Remainder => true | _ => false end.
Lemma numeric_meaning_clean op l r sp : arithmetic op = true → clean (numeric_meaning env op l r sp).
Proof.
  intros Hop. rewrite numeric_meaning_exact. unfold numeric_binary.
  apply clean_bind; [apply clean_mismatch|intros].
  apply clean_bind; [apply clean_mismatch|intros].
  apply clean_bind; [|intros; apply clean_fmap, clean_at_span].
  destruct op; try done; apply clean_numeric, Numeric.operators_panic_free; exact a0.
Qed.
#[local] Hint Resolve numeric_meaning_clean : clean.

Lemma order_clean l r sp : clean (order_meaning env l r sp).
Proof. unfold order_meaning. clean_tac. Qed.
Lemma contains_clean l r sp : clean (contains_meaning env l r sp).
Proof. unfold contains_meaning. clean_tac. Qed.
#[local] Hint Resolve order_clean contains_clean : clean.

Lemma binary_clean op l r sp : strict op = true → clean (binary_meaning env op l r sp).
Proof. intros Hop. destruct op; try done; cbn [binary_meaning]; clean_tac. Qed.

Lemma number_value_clean sp n : Numeric.panic_free n → clean (number_value env sp n).
Proof. intros Hn. unfold number_value. apply clean_bind; [by apply clean_numeric|]. clean_tac. Qed.
Lemma positive_clean n : Numeric.panic_free (Numeric.positive n).
Proof. by apply (Numeric.operators_panic_free n n). Qed.
Lemma negate_clean n : Numeric.panic_free (Numeric.negate n).
Proof. by apply (Numeric.operators_panic_free n n). Qed.
#[local] Hint Resolve number_value_clean Numeric.parse_string_panic_free positive_clean negate_clean : clean.
#[local] Hint Extern 0 (Numeric.panic_free (Ok _)) => done : clean.

Lemma function_clean f vs sp :
  f ≠ FExists → Z.of_nat (length vs) = arity f → clean (function_meaning env f vs sp).
Proof.
  intros Hf Hlen. destruct vs as [|v vs]; [by destruct f|].
  destruct f; try done; cbn [function_meaning]; try (by clean_tac).
Qed.

Lemma stored_clean v sp p : clean (stored env v sp p).
Proof. unfold stored. clean_tac. Qed.
Lemma member_clean v t k sp : clean (member_meaning env v t k sp).
Proof. unfold member_meaning. clean_tac. Qed.
Lemma check_index_clean i sp : clean (check_index env i sp).
Proof. unfold check_index, array_position. clean_tac. Qed.
Lemma index_clean v i t isp sp : clean (index_meaning env v i t isp sp).
Proof.
  pose proof (check_index_clean i isp). unfold index_meaning, array_position. clean_tac.
Qed.
#[local] Hint Resolve stored_clean member_clean index_clean : clean.

Lemma result_map_clean {A B} (f : A → Compiled B) l : (∀ x, x ∈ l → clean (f x)) → clean (result_map f l).
Proof.
  induction l as [|x l IH]; intros Hf; cbn; [done|].
  apply clean_bind; [apply Hf; by left|]. intros y _. fold (result_map f).
  apply clean_bind; [apply IH; intros; apply Hf; by right|done].
Qed.

(** The meaning of an expression with correct arities is a value or a
    reported error. *)
Lemma denote_clean e : arity_ok e → clean (denote env e).
Proof.
  induction e as [l sp|name sp|t k sp IHt|t i sp IHt IHi|es sp IHes|es sp IHes|o e sp IHe
                 |o l r sp IHl IHr|c t e sp IHc IHt IHe|fn es sp IHes|e sp IHe] using Expr_ind;
    intros Har; pose proof (λ c, arity_child c _ Har) as Hc; cbn [children expr_kind] in Hc;
    rewrite ?Forall_forall in *.
  - destruct l; cbn [denote]; clean_tac.
  - cbn [denote]. clean_tac.
  - cbn [denote]. apply clean_bind; [apply IHt, Hc; by left|]. auto with clean.
  - cbn [denote]. apply clean_bind; [apply IHt, Hc; by left|]. intros.
    apply clean_bind; [apply IHi, Hc; by right; left|]. clean_tac.
  - cbn [denote]. apply clean_bind; [|done]. apply result_map_clean. intros e He.
    apply clean_bind; [by apply IHes, Hc|]. auto with clean.
  - cbn [denote]. apply clean_bind; [|done]. apply result_map_clean. intros [k e] He.
    apply clean_bind; [apply (IHes _ He), Hc; by apply (list_elem_of_fmap_2 snd) in He|]. clean_tac.
  - destruct o; cbn [denote]; (apply clean_bind; [apply IHe, Hc; by left|]); clean_tac.
  - assert (clean (denote env l)) by (apply IHl, Hc; by left).
    assert (clean (denote env r)) by (apply IHr, Hc; by right; left).
    destruct o; cbn [denote]; (apply clean_bind; [done|]); intros;
      try (apply clean_bind; [done|]; intros; by apply binary_clean); clean_tac.
  - assert (clean (denote env t)) by (apply IHt, Hc; by right; left).
    assert (clean (denote env e)) by (apply IHe, Hc; by right; right; left).
    cbn [denote]. apply clean_bind; [apply IHc, Hc; by left|]. clean_tac.
  - pose proof (Har fn es sp ltac:(constructor)) as Hlen.
    assert (∀ e, e ∈ es → clean (denote env e)) as Hes by (intros; by apply IHes, Hc).
    destruct (decide (fn = FExists)) as [->|Hne].
    { destruct es as [|e es]; [done|]. cbn [denote]. apply clean_bind; [|done]. apply Hes. by left. }
    assert (∀ vs, length vs = length es → clean (function_meaning env fn vs sp)) as Hfn.
    { intros vs Hvs. apply function_clean; [done|by rewrite Hvs]. }
    destruct fn; try (by destruct Hne); cbn [denote];
      (apply clean_bind; [|by intros vs Hvs%result_map_length; apply Hfn]);
      apply result_map_clean; intros e He; (apply clean_bind; [by apply Hes|]);
      by intros [] _; [..|apply clean_reported].
  - cbn [denote]. apply IHe, Hc. by left.
Qed.
End clean.

(** ** What sessions compute *)

Section session.
Context `{Externals} `{!ReaderLaws} (session : Session).
Context (Hcontext : good_context (session_context session)).

Definition result_meaning (env : EvalEnv) (v : RuntimeValue) (span : SourceSpan) : Compiled Value :=
  match v with
  | Missing path =>
      Err (eval_error_with env span ("required path `" +:+ path +:+ "` is missing")
        "handle an optional path with `??` or exists(...)")
  | Borrowed v | Owned v => Ok v
  end.

(** The meaning of a compiled expression in the session's context. *)
Definition expression_meaning (e : CompiledExpression) : Compiled Value :=
  let env := evaluator session (ce_source e) (ce_field e) in
  v ← denote env (ce_root e) ; result_meaning env v (expr_span (ce_root e)).

Definition within (limits : EvaluationLimits) (v : Value) : Prop :=
  value_depth v ≤ max_result_depth limits ∧ node_count v ≤ max_result_nodes limits ∧
  Z.min (len (serialize v)) usize_max ≤ max_result_bytes limits.

(** A returned value: the meaning, within the limits and paid for. *)
Definition delivered (limits : EvaluationLimits) (c : Z) (v x : Value) : Prop :=
  v = x ∧ good v ∧ within limits v ∧ Z.min (weight v) usize_max ≤ c.

Lemma delivered_mono limits c c' v x : c ≤ c' → delivered limits c v x → delivered limits c' v x.
Proof. intros ? (? & ? & ? & ?). split_and!; [done..|lia]. Qed.

Lemma inspected_within env v sp :
  runs env (inspect_result env v 1 sp (0, 0)) (Ok tt) (λ _ _ _, within (limits env) v).
Proof.
  eapply runs_mono; [apply inspect_runs; unfold usize_max; lia|].
  cbn. intros c a _ _ (-> & Hd & Hn & Hb). cbn in Hn, Hb. split_and!; lia.
Qed.

Lemma finish_runs env c0 a sp :
  good_runtime a → runtime_weight a ≤ c0 →
  runs env (finish env a sp) (result_meaning env (erase a) sp) (λ c, delivered (limits env) (c0 + c)).
Proof.
  intros Hg Hw. unfold finish. destruct a as [v|v|path]; cbn [erase result_meaning].
  - eapply runs_bind_ok; [by apply clone_runs|]. intros c a Hc [-> Hwc].
    eapply runs_bind_ok; [apply inspected_within|]. intros c' ? Hc' Hin.
    apply runs_ret. split_and!; [done|done|done|]. cbn in Hw. lia.
  - eapply (runs_bind_ok _ _ v (λ c a x, c = 0 ∧ a = x)); [by apply runs_ret|]. intros c a Hc [-> ->].
    eapply runs_bind_ok; [apply inspected_within|]. intros c' ? Hc' Hin.
    apply runs_ret. split_and!; [done|done|done|]. cbn in Hw. lia.
  - apply runs_bind_throw.
Qed.

Lemma evaluator_runs source field e :
  runs (evaluator session source field) (evaluate (evaluator session source field) e)
    (denote (evaluator session source field) e) agrees.
Proof. by apply evaluate_runs. Qed.

Lemma session_evaluate_runs e :
  runs (evaluator session (ce_source e) (ce_field e)) (session_evaluate session e) (expression_meaning e)
    (delivered (session_limits session)).
Proof.
  eapply runs_bind; [apply evaluator_runs|]. intros c a x Hc (-> & Hg & Hw). by apply finish_runs.
Qed.

(** ** Templates *)

(** The text of a value inside a template. *)
Definition embedded_text (env : EvalEnv) (v : RuntimeValue) (span : SourceSpan) : Compiled string :=
  match v with
  | Missing _ => Err (eval_error env span "embedded expression resolved to missing")
  | Borrowed v | Owned v =>
      match v with
      | VNull => Ok EmptyString
      | VBool b => Ok (if b then "true" else "false")%string
      | VNumber n => Ok (number_text n)
      | VString s => Ok s
      | VArray _ | VObject _ =>
          Err (eval_error_with env span "embedded arrays and objects require json(...) or string(...)"
            "wrap the expression with json(...) for deterministic text")
      end
  end.

Definition part_meaning (part : TemplatePart) : Compiled string :=
  match part with
  | PartLiteral text => Ok text
  | PartExpression e =>
      let env := evaluator session (ce_source e) (ce_field e) in
      v ← denote env (ce_root e) ; embedded_text env v (expr_span (ce_root e))
  end.

(** The meaning of a template: of its only expression, or the texts of its
    parts put together. *)
Definition template_meaning (t : CompiledTemplate) : Compiled Value :=
  if ct_whole_expression t then
    match ct_parts t with PartExpression e :: _ => expression_meaning e | _ => Err Panic end
  else
    texts ← result_map part_meaning (ct_parts t) ; Ok (VString (foldl String.append EmptyString texts)).

Lemma append_runs env text span output :
  runs env (check_produced_string env (saturating_add (len output) (len text)) span ;;
            allocate env (len text) span ;; mret (output +:+ text))
    (Ok text) (λ c a x, a = output +:+ x ∧ len x ≤ c).
Proof. do 2 charge. apply runs_ret. split; [done|lia]. Qed.

Lemma append_embedded_runs env a span output :
  good_runtime a →
  runs env (append_embedded env a span output) (embedded_text env (erase a) span)
    (λ c o x, o = output +:+ x ∧ Z.min (len x) usize_max ≤ c).
Proof.
  intros Hg. unfold append_embedded. pose proof (good_as_json a) as Hga.
  destruct (as_json a) as [v|] eqn:Ha.
  2: { destruct a; try done. apply runs_bind_throw. }
  specialize (Hga v Hg eq_refl). rewrite (erase_present _ _ Ha). cbn [embedded_text].
  eapply runs_bind_ok; [apply (runs_lift _ (Ok _))|]. intros c ? _ [-> ->].
  destruct v as [|[]|n|s|vs|m]; try apply runs_throw;
    try (eapply runs_mono; [apply append_runs|]; intros ? ? ? ? [-> ?]; split; [done|lia]).
  - apply runs_ret. split; [by rewrite append_nil_r|done].
  - rewrite (from_json_good _ Hga). cbn [mbind result_bind]. rewrite (canonical_good _ Hga).
    eapply runs_bind_ok; [apply (runs_lift _ (Ok _))|]. intros c ? _ [-> ->].
    do 2 charge. apply runs_ret. split; [done|]. pose proof (len_nonneg (number_text n)).
    unfold saturating_mul. lia.
  - charge. eapply runs_mono; [apply append_runs|]. intros ? ? ? ? [-> ?]. split; [done|lia].
Qed.

(** Charges do not depend on the source text that errors quote. *)
Lemma runs_evaluator {A B} source field source' field' (m : Ev A) (r : Compiled B) R :
  runs (evaluator session source field) m r R → runs (evaluator session source' field') m r R.
Proof. exact id. Qed.

Lemma runs_pure_map {A B C} env (m : Ev A) (r : Compiled B) R (f : B → C) :
  runs env m r R → runs env m (x ← r ; Ok (f x)) (λ c a y, ∃ x, y = f x ∧ R c a x).
Proof.
  intros Hm b. specialize (Hm b). destruct (m b) as [[a|e] b']; destruct Hm as [Hsp Hm]; (split; [done|]).
  - destruct Hm as (x & -> & HR). eexists. split; [done|]. eauto.
  - destruct Hm as [?| ->]; [by left|by right].
Qed.

Definition accumulated (c : Z) (o x : string) : Prop := o = x ∧ 0 ≤ c ∧ Z.min (len x) usize_max ≤ c.

Lemma render_part_runs t c part output output' :
  accumulated c output output' →
  runs (evaluator session (ct_source t) (ct_field t)) (render_part session t output part)
    (text ← part_meaning part ; Ok (output' +:+ text)) (λ c', accumulated (c + c')).
Proof.
  intros (-> & Hc & Hw). destruct part as [text|e]; cbn [render_part part_meaning].
  - do 2 charge. apply runs_ret. split_and!; [done|amount|].
    rewrite len_append. pose proof (len_nonneg text). pose proof (len_nonneg output'). lia.
  - apply (runs_evaluator (ce_source e) (ce_field e)).
    replace (text ← _ ; _) with
      (v ← denote (evaluator session (ce_source e) (ce_field e)) (ce_root e) ;
       text ← embedded_text (evaluator session (ce_source e) (ce_field e)) v (expr_span (ce_root e)) ;
       Ok (output' +:+ text)) by by destruct (denote _ (ce_root e)).
    eapply runs_bind; [apply evaluator_runs|]. intros c1 a x Hc1 (-> & Hg & _).
    eapply runs_mono; [by eapply runs_pure_map, append_embedded_runs|].
    cbn. intros c2 o y Hc2 (x & -> & -> & Hx). unfold accumulated. rewrite len_append.
    pose proof (len_nonneg x). pose proof (len_nonneg output'). split_and!; [done|lia|lia].
Qed.

Lemma render_template_runs t :
  runs (evaluator session (ct_source t) (ct_field t)) (render_template session t) (template_meaning t)
    (delivered (session_limits session)).
Proof.
  unfold render_template, template_meaning. destruct (ct_whole_expression t).
  { destruct (ct_parts t) as [|[|e] ?]; try apply runs_throw. apply session_evaluate_runs. }
  replace (texts ← _ ; _) with
    (text ← (texts ← result_map part_meaning (ct_parts t) ; Ok (foldl String.append EmptyString texts)) ;
     Ok (VString text)) by by destruct (result_map _ _).
  rewrite <- result_fold_map. eapply runs_bind.
  - apply (runs_fold _ _ _ accumulated); [|done].
    intros c acc acc' part _ HI. by apply render_part_runs.
  - intros c o x _ (-> & Hc & Hw). charge.
    eapply runs_mono; [by apply (finish_runs _ c (Owned (VString x)))|].
    intros c' v y _. apply delivered_mono. lia.
Qed.

(** ** Operations on integration-owned data *)

Abbreviation env_of := (evaluator session EmptyString None).

Lemma evaluate_bool_runs e :
  runs env_of (session_evaluate_bool session e)
    (v ← expression_meaning e ;
     match v with
     | VBool b => Ok b
     | _ => Err (Reported (error_new Evaluate (ce_field e) (ce_source e) (expr_span (ce_root e))
              ("condition expression must produce bool, received " +:+ json_type v)))
     end) (λ _ b b', b = b').
Proof.
  eapply runs_bind; [apply session_evaluate_runs|]. intros c v x Hc (-> & _).
  destruct x; first [apply runs_throw | by apply runs_ret].
Qed.

Lemma clone_value_runs v field :
  good v → runs env_of (clone_value session v field) (Ok v)
    (λ c a x, a = x ∧ within (session_limits session) x ∧ weight x ≤ c).
Proof.
  intros Hg. eapply runs_bind_ok; [by apply (clone_runs (integration session _ field))|]. intros c a _ [-> Hw].
  eapply runs_bind_ok; [apply (inspected_within (integration session _ field))|]. intros c' a Hc' Hin.
  apply runs_ret. split_and!; [done|done|lia].
Qed.

Lemma clone_string_runs s field :
  runs env_of (clone_string session s field) (Ok s) (λ c a x, a = x ∧ len x ≤ c).
Proof.
  apply (runs_evaluator "<literal text>" (Some field)). unfold clone_string.
  do 4 charge. apply runs_ret. split; [done|lia].
Qed.

Lemma stringify_runs v field :
  good v → runs env_of (session_stringify_json session v field) (Ok (json_text v)) (λ _ a x, a = x).
Proof.
  intros Hg. apply (runs_evaluator "<assembled JSON>" (Some field)).
  eapply runs_bind_ok; [by apply (canonical_json_runs _ v (whole "<assembled JSON>") 1 Hg EmptyString)|].
  cbn. intros c a _ [-> _]. charge. apply runs_ret. by rewrite append_nil_l.
Qed.

Lemma validate_value_runs v field :
  runs env_of (validate_value session v field) (Ok tt) (λ _ _ _, within (session_limits session) v).
Proof.
  eapply runs_bind_ok; [apply (inspected_within (integration session _ field))|]. intros c a Hc Hin.
  by apply runs_ret.
Qed.

Lemma validate_array_runs vs field :
  runs env_of (validate_array session vs field) (Ok tt)
    (λ _ _ _, within (session_limits session) (VArray vs)).
Proof.
  apply (runs_evaluator "<runtime JSON array>" (Some field)). unfold validate_array, inspect_result_array.
  set (env := integration session _ field). change (evaluator session _ (Some field)) with env.
  destruct (Z.ltb_spec (max_result_depth (limits env)) 1); [apply runs_limit|].
  destruct (Z.ltb_spec (max_result_nodes (limits env)) 1); [apply runs_limit|]. charge.
  eapply runs_bind_ok; [apply add_result_bytes_runs; rewrite container_bytes_eq; unfold usize_max; lia|].
  intros c a _ [-> Ha]. rewrite container_bytes_eq in *. unfold saturating_add in *.
  eapply runs_bind_ok; [apply (inspect_elements_runs _ _ node_count value_depth serialize 2)|].
  - intros x n bytes _ Hb. charge. by apply inspect_runs.
  - unfold usize_max. lia.
  - lia.
  - lia.
  - lia.
  - pose proof (lens_nonneg (serialize <$> vs)).
    intros c' a _ (-> & Hd & Hn & Hb). cbn in Hd, Hn, Hb. apply runs_ret.
    unfold within. rewrite len_serialize_array, node_count_array, value_depth_array.
    change (limits env) with (session_limits session) in *. split_and!; lia.
Qed.

Lemma total_length parts n :
  foldl (λ total part, total ← total ; checked_add total (len part)) (Some n) parts = None ∨
  foldl (λ total part, total ← total ; checked_add total (len part)) (Some n) parts =
    Some (n + lens parts).
Proof.
  revert n. induction parts as [|p parts IH]; intros n; cbn [foldl].
  - right. f_equal. cbn. lia.
  - cbn [mbind option_bind]. unfold checked_add at 2 4. case_match.
    + destruct (IH (n + len p)) as [?| ->]; [by left|]. right. f_equal. cbn. fold (lens parts). lia.
    + left. clear IH. by induction parts.
Qed.

Lemma assemble_runs parts field :
  runs env_of (assemble_string session parts field) (Ok (foldl String.append EmptyString parts))
    (λ c a x, a = x).
Proof.
  apply (runs_evaluator "<assembled text>" (Some field)). unfold assemble_string.
  pose proof (lens_nonneg parts). destruct (total_length parts 0) as [-> | ->]; [apply runs_limit|].
  eapply runs_bind_ok; [apply (runs_lift _ (Ok _))|]. intros c a _ [-> ->]. do 3 charge. by apply runs_ret.
Qed.

Lemma check_shape_runs depth nodes bytes field :
  runs env_of (check_result_shape session depth nodes bytes field) (Ok tt)
    (λ _ _ _, depth ≤ max_result_depth (session_limits session) ∧
      nodes ≤ max_result_nodes (session_limits session) ∧ bytes ≤ max_result_bytes (session_limits session)).
Proof.
  apply (runs_evaluator "<assembled JSON>" (Some field)). unfold check_result_shape.
  set (env := integration session _ field). change (evaluator session _ (Some field)) with env.
  destruct (Z.ltb_spec (max_result_depth (limits env)) depth); [apply runs_limit|].
  destruct (Z.ltb_spec (max_result_nodes (limits env)) nodes); [apply runs_limit|].
  destruct (Z.ltb_spec (max_result_bytes (limits env)) bytes); [apply runs_limit|].
  apply runs_ret. split_and!; done.
Qed.

Lemma charge_shape_runs depth nodes bytes field :
  0 ≤ nodes → 0 ≤ bytes →
  runs env_of (charge_result_shape session depth nodes bytes field) (Ok tt) (λ _ _ _, True).
Proof.
  intros Hn Hb. eapply runs_bind_ok; [apply check_shape_runs|]. intros _ _ _ _.
  eapply runs_mono; [apply (charges_spend (integration session _ field)); amount|done].
Qed.

(** ** Meanings of compiled code *)

Lemma expression_meaning_clean e : arity_ok (ce_root e) → clean (expression_meaning e).
Proof.
  intros Har. apply clean_bind; [by apply denote_clean|]. intros [] _; [done|done|apply clean_reported].
Qed.

Lemma part_meaning_clean part : part_arity part → clean (part_meaning part).
Proof.
  destruct part as [|e]; [done|]. intros Har. apply clean_bind; [by apply denote_clean|].
  intros [[]|[]|] _; first [done|apply clean_reported].
Qed.

Lemma template_meaning_clean source field limits t :
  compile source field limits = Ok t → clean (template_meaning t).
Proof.
  intros Ht. pose proof (compile_arity _ _ _ _ Ht) as Har. unfold template_meaning.
  destruct (ct_whole_expression t) eqn:Hw.
  - destruct (template_whole _ _ _ _ Ht Hw) as [e He]. rewrite He in Har |- *.
    inversion Har; subst. by apply expression_meaning_clean.
  - apply clean_bind; [|done]. apply result_map_clean. intros part Hin. apply part_meaning_clean.
    rewrite Forall_forall in Har. by apply Har.
Qed.

(** A budgeted computation of a clean meaning is clean. *)
Lemma runs_clean {A B} env (m : Ev A) (r : Compiled B) R b : runs env m r R → clean r → clean (fst (m b)).
Proof.
  intros Hm Hr. specialize (Hm b). destruct (m b) as [[a|f] b']; [done|]. intros f' [= <-].
  destruct Hm as [_ [(e & -> & _)|Hf]]; [by eexists|]. by apply Hr.
Qed.
End session.
