(* ===== verification/Metering.v ===== *)
(** * What an evaluation costs

    Every computation of the evaluator has one outcome and one cost: it
    delivers the outcome exactly when the limits and the remaining budget
    cover the cost, and stops with a limit error otherwise.  Neither the
    outcome nor the cost depends on the limits. *)

From S2P Require Import Prelude Float64 Json Numeric ExprSyntax Budget Functions Evaluator.
From S2P Require Import Denotation Refinement Compile Session.

(** ** Costs *)

(** A cost has an amount for each limit: sums for fuel, container elements
    and allocation, maxima for the others. *)
Abbreviation Cost := EvaluationLimits.

Definition flat (depth scalar pattern haystack json rdepth rnodes rbytes produced : Z) : Cost := {|
  fuel := 0; max_traversal_depth := depth; max_container_elements := 0;
  max_scalar_bytes := scalar; max_regex_pattern_bytes := pattern;
  max_regex_haystack_bytes := haystack; max_from_json_bytes := json;
  max_result_depth := rdepth; max_result_nodes := rnodes; max_result_bytes := rbytes;
  max_produced_string_bytes := produced; max_allocation_bytes := 0
|}.
Definition spent_only (fuel elements bytes : Z) : Cost := {|
  fuel := fuel; max_traversal_depth := 0; max_container_elements := elements;
  max_scalar_bytes := 0; max_regex_pattern_bytes := 0;
  max_regex_haystack_bytes := 0; max_from_json_bytes := 0;
  max_result_depth := 0; max_result_nodes := 0; max_result_bytes := 0;
  max_produced_string_bytes := 0; max_allocation_bytes := bytes
|}.

(** The cost of two computations one after the other. *)
Definition together (c d : Cost) : Cost := {|
  fuel := fuel c + fuel d;
  max_traversal_depth := Z.max (max_traversal_depth c) (max_traversal_depth d);
  max_container_elements := max_container_elements c + max_container_elements d;
  max_scalar_bytes := Z.max (max_scalar_bytes c) (max_scalar_bytes d);
  max_regex_pattern_bytes := Z.max (max_regex_pattern_bytes c) (max_regex_pattern_bytes d);
  max_regex_haystack_bytes := Z.max (max_regex_haystack_bytes c) (max_regex_haystack_bytes d);
  max_from_json_bytes := Z.max (max_from_json_bytes c) (max_from_json_bytes d);
  max_result_depth := Z.max (max_result_depth c) (max_result_depth d);
  max_result_nodes := Z.max (max_result_nodes c) (max_result_nodes d);
  max_result_bytes := Z.max (max_result_bytes c) (max_result_bytes d);
  max_produced_string_bytes := Z.max (max_produced_string_bytes c) (max_produced_string_bytes d);
  max_allocation_bytes := max_allocation_bytes c + max_allocation_bytes d
|}.

(** Every limit that is not a sum is at least what the cost asks for. *)
Definition covers (l : EvaluationLimits) (c : Cost) : Prop :=
  max_traversal_depth c ≤ max_traversal_depth l ∧
  max_scalar_bytes c ≤ max_scalar_bytes l ∧
  max_regex_pattern_bytes c ≤ max_regex_pattern_bytes l ∧
  max_regex_haystack_bytes c ≤ max_regex_haystack_bytes l ∧
  max_from_json_bytes c ≤ max_from_json_bytes l ∧
  max_result_depth c ≤ max_result_depth l ∧
  max_result_nodes c ≤ max_result_nodes l ∧
  max_result_bytes c ≤ max_result_bytes l ∧
  max_produced_string_bytes c ≤ max_produced_string_bytes l.

(** What is spent: the amounts of the sums are not negative. *)
Definition nonneg (c : Cost) : Prop :=
  0 ≤ fuel c ∧ 0 ≤ max_container_elements c ∧ 0 ≤ max_allocation_bytes c.

(** The cost is covered by the limits and by what is left of the budget. *)
Definition affordable (c : Cost) (l : EvaluationLimits) (b : Budget) : Prop :=
  fuel c ≤ fuel_remaining b ∧
  traversed_elements b + max_container_elements c ≤ max_container_elements l ∧
  allocation_bytes b + max_allocation_bytes c ≤ Z.min (max_allocation_bytes l) usize_max ∧
  covers l c.
#[global] Instance affordable_dec c l b : Decision (affordable c l b).
Proof. unfold affordable, covers. apply _. Defined.

Definition charge (c : Cost) (b : Budget) : Budget := {|
  fuel_remaining := fuel_remaining b - fuel c;
  allocation_bytes := allocation_bytes b + max_allocation_bytes c;
  traversed_elements := traversed_elements b + max_container_elements c;
|}.

(** The limits are machine integers and nothing was overspent. *)
Definition in_budget (l : EvaluationLimits) (b : Budget) : Prop :=
  0 ≤ allocation_bytes b ∧ affordable (spent_only 0 0 0) l b.

Lemma charge_nothing c b :
  fuel c = 0 → max_container_elements c = 0 → max_allocation_bytes c = 0 → charge c b = b.
Proof. intros H1 H2 H3. destruct b. unfold charge. cbn. f_equal; lia. Qed.
Lemma charge_charge c d b : charge d (charge c b) = charge (together c d) b.
Proof. unfold charge. cbn. f_equal; lia. Qed.
Lemma covers_together l c d : covers l (together c d) ↔ covers l c ∧ covers l d.
Proof. unfold covers, together. cbn. rewrite !Z.max_lub_iff. tauto. Qed.
Lemma affordable_together c d l b :
  nonneg d → affordable (together c d) l b ↔ affordable c l b ∧ affordable d l (charge c b).
Proof.
  intros (? & ? & ?). unfold affordable. rewrite covers_together. unfold charge, together. cbn. intuition lia.
Qed.
Lemma in_budget_charge c l b : nonneg c → in_budget l b → affordable c l b → in_budget l (charge c b).
Proof. intros (? & ? & ?) [? (? & ? & ? & ?)] (? & ? & ? & ?). unfold in_budget, affordable. cbn in *. intuition lia. Qed.

(** ** Metered computations *)

Definition unlimited {A} (r : Compiled A) : Prop := ∀ f, r = Err f → ¬ is_limit f.
Definition stopped {A} (r : Compiled A) : Prop := ∃ f, r = Err f ∧ is_limit f.

(** [m], as a function of the limits, has the outcome [o] and the cost [c]. *)
Definition costs {A} (m : EvaluationLimits → Ev A) (o : Compiled A) (c : Cost) : Prop :=
  ∀ l b, in_budget l b →
    (affordable c l b → m l b = (o, charge c b)) ∧ (¬ affordable c l b → stopped (fst (m l b))).
Definition metered {A} (m : EvaluationLimits → Ev A) : Prop :=
  ∃ o c, unlimited o ∧ nonneg c ∧ costs m o c.

Lemma spent_nonneg f e a : 0 ≤ f → 0 ≤ e → 0 ≤ a → nonneg (spent_only f e a).
Proof. done. Qed.
Lemma flat_nonneg a1 a2 a3 a4 a5 a6 a7 a8 a9 : nonneg (flat a1 a2 a3 a4 a5 a6 a7 a8 a9).
Proof. done. Qed.

Lemma metered_lift {A} (r : EvaluationLimits → Compiled A) r0 :
  (∀ l, r l = r0) → unlimited r0 → metered (λ l, lift (r l)).
Proof.
  intros Hr Hu. exists r0, (spent_only 0 0 0). split_and!; [done|by apply spent_nonneg|].
  intros l b [_ Hb]. split; [|done]. intros _. unfold lift. by rewrite Hr, charge_nothing.
Qed.
Lemma metered_ret {A} (a : A) : metered (λ _, mret a).
Proof. by apply (metered_lift (λ _, Ok a) (Ok a)). Qed.
Lemma metered_throw {A} (f : EvaluationLimits → Failure) f0 :
  (∀ l, f l = f0) → ¬ is_limit f0 → metered (A := A) (λ l, throw (f l)).
Proof.
  intros Hf Hl. apply (metered_lift (λ l, Err (f l)) (Err f0)); [intros l; by rewrite Hf|].
  by intros ? [= <-].
Qed.

Lemma metered_bind {A B} (m : EvaluationLimits → Ev A) (k : EvaluationLimits → A → Ev B) :
  metered m → (∀ a, metered (λ l, k l a)) → metered (λ l, mbind (k l) (m l)).
Proof.
  intros (o & c & Ho & Hc & Hm) Hk. destruct o as [a|f].
  - destruct (Hk a) as (o & d & Ho' & Hd & Hka). exists o, (together c d). split_and!; [done|..].
    { destruct Hc as (? & ? & ?), Hd as (? & ? & ?). repeat split; cbn; lia. }
    intros l b Hb. destruct (Hm l b Hb) as [Hm1 Hm2]. rewrite affordable_together by done.
    unfold mbind, m_bind. destruct (decide (affordable c l b)) as [Hac|Hac].
    + rewrite (Hm1 Hac). destruct (Hka l (charge c b)) as [H1 H2]; [by apply in_budget_charge|].
      rewrite <- charge_charge. split; [by intros [_ ?]; apply H1|]. intros Hn. apply H2. tauto.
    + split; [tauto|]. intros _. destruct (Hm2 Hac) as (f & Hf & Hl).
      destruct (m l b) as [r b']. cbn in Hf. subst r. by exists f.
  - exists (Err f), c. split_and!; [by intros ? [= <-]; apply Ho|done|].
    intros l b Hb. destruct (Hm l b Hb) as [Hm1 Hm2]. unfold mbind, m_bind. split.
    + intros Hac. by rewrite (Hm1 Hac).
    + intros Hac. destruct (Hm2 Hac) as (f' & Hf & Hl).
      destruct (m l b) as [r b']. cbn in Hf. subst r. by exists f'.
Qed.

(** The same computation, except where both stop at a limit. *)
Lemma metered_same {A} (m m' : EvaluationLimits → Ev A) :
  metered m →
  (∀ l b, in_budget l b → m' l b = m l b ∨ stopped (fst (m l b)) ∧ stopped (fst (m' l b))) →
  metered m'.
Proof.
  intros (o & c & Ho & Hc & Hm) Hs. exists o, c. split_and!; [done..|]. intros l b Hb.
  destruct (Hm l b Hb) as [H1 H2]. destruct (Hs l b Hb) as [->|[Hl Hl']]; [done|]. split; [|done].
  intros Ha. rewrite (H1 Ha) in Hl. destruct Hl as (f & Hf & Hl). by destruct (Ho f).
Qed.
(** A computation that stops at a limit whatever the limits are. *)
Lemma metered_never {A} (m : EvaluationLimits → Ev A) : (∀ l b, stopped (fst (m l b))) → metered m.
Proof.
  intros Hm. exists (Err Panic), (spent_only 0 0 (usize_max + 1)).
  split_and!; [by intros ? [= <-] (? & ? & ?)|by apply spent_nonneg|].
  intros l b [Hb _]. split; [|done]. intros (_ & _ & Ha & _). cbn in Ha. lia.
Qed.
(** A check of one limit. *)
Lemma metered_guard {A} (field : EvaluationLimits → Z) need amount err (m : EvaluationLimits → Ev A) :
  (∀ b, charge need b = b) → nonneg need →
  (∀ l b, in_budget l b → affordable need l b ↔ amount ≤ field l) →
  (∀ l, is_limit (err l)) → metered m →
  metered (λ l, if field l <? amount then throw (err l) else m l).
Proof.
  intros Hch Hn Ha He Hm.
  assert (metered (λ l, if field l <? amount then throw (err l) else mret tt)) as Hg.
  { exists (Ok tt), need. split_and!; [done..|]. intros l b Hb. rewrite (Ha l b Hb). split.
    - intros Hle. rewrite (proj2 (Z.ltb_ge _ _) Hle), Hch. done.
    - intros Hlt. rewrite (proj2 (Z.ltb_lt _ _)) by lia. cbn. exists (err l). split; [done|apply He]. }
  refine (metered_same _ _ (metered_bind _ (λ l _, m l) Hg (λ _, Hm)) _).
  intros l b _. left. by destruct (field l <? amount).
Qed.

Definition at_limits (env : EvalEnv) (l : EvaluationLimits) : EvalEnv := {|
  context := context env; limits := l; eval_source := eval_source env; eval_field := eval_field env
|}.

Section primitives.
Context `{Externals} (env : EvalEnv).

Lemma limit_error_limit env' sp msg : is_limit (eval_limit_error env' sp msg).
Proof. by eexists. Qed.

Ltac limit_guard need :=
  apply (metered_guard _ need);
    [by intros; apply charge_nothing|done
    |intros l b [_ (?&?&?&?)]; unfold affordable, covers in *; cbn in *; lia
    |intros; apply limit_error_limit|].

Lemma metered_traversal {A} depth sp msg (m : EvaluationLimits → Ev A) : metered m →
  metered (λ l, if max_traversal_depth (limits (at_limits env l)) <? depth
                then throw (eval_limit_error (at_limits env l) sp msg) else m l).
Proof. intros Hm. limit_guard (flat (Z.max 0 depth) 0 0 0 0 0 0 0 0). done. Qed.
Lemma metered_result_depth {A} depth sp msg (m : EvaluationLimits → Ev A) : metered m →
  metered (λ l, if max_result_depth (limits (at_limits env l)) <? depth
                then throw (eval_limit_error (at_limits env l) sp msg) else m l).
Proof. intros Hm. limit_guard (flat 0 0 0 0 0 (Z.max 0 depth) 0 0 0). done. Qed.
Lemma metered_result_nodes {A} nodes sp msg (m : EvaluationLimits → Ev A) : metered m →
  metered (λ l, if max_result_nodes (limits (at_limits env l)) <? nodes
                then throw (eval_limit_error (at_limits env l) sp msg) else m l).
Proof. intros Hm. limit_guard (flat 0 0 0 0 0 0 (Z.max 0 nodes) 0 0). done. Qed.
Lemma metered_result_bytes {A} bytes sp msg (m : EvaluationLimits → Ev A) : metered m →
  metered (λ l, if max_result_bytes (limits (at_limits env l)) <? bytes
                then throw (eval_limit_error (at_limits env l) sp msg) else m l).
Proof. intros Hm. limit_guard (flat 0 0 0 0 0 0 0 (Z.max 0 bytes) 0). done. Qed.
Lemma metered_pattern {A} bytes sp msg (m : EvaluationLimits → Ev A) : metered m →
  metered (λ l, if max_regex_pattern_bytes (limits (at_limits env l)) <? bytes
                then throw (eval_limit_error (at_limits env l) sp msg) else m l).
Proof. intros Hm. limit_guard (flat 0 0 (Z.max 0 bytes) 0 0 0 0 0 0). done. Qed.
Lemma metered_haystack {A} bytes sp msg (m : EvaluationLimits → Ev A) : metered m →
  metered (λ l, if max_regex_haystack_bytes (limits (at_limits env l)) <? bytes
                then throw (eval_limit_error (at_limits env l) sp msg) else m l).
Proof. intros Hm. limit_guard (flat 0 0 0 (Z.max 0 bytes) 0 0 0 0 0). done. Qed.
Lemma metered_json_bytes {A} bytes sp (msg : EvaluationLimits → string) (m : EvaluationLimits → Ev A) :
  metered m →
  metered (λ l, if max_from_json_bytes (limits (at_limits env l)) <? bytes
                then throw (eval_limit_error (at_limits env l) sp (msg l)) else m l).
Proof. intros Hm. limit_guard (flat 0 0 0 0 (Z.max 0 bytes) 0 0 0 0). done. Qed.

Lemma metered_check_scalar s sp : metered (λ l, check_scalar (at_limits env l) s sp).
Proof. unfold check_scalar. limit_guard (flat 0 (Z.max 0 (len s)) 0 0 0 0 0 0 0). apply metered_ret. Qed.
Lemma metered_check_produced n sp : metered (λ l, check_produced_string (at_limits env l) n sp).
Proof. unfold check_produced_string. limit_guard (flat 0 0 0 0 0 0 0 0 (Z.max 0 n)). apply metered_ret. Qed.

Lemma metered_fuel n sp msg : 0 ≤ n → metered (λ l, spend_fuel (at_limits env l) n sp msg).
Proof.
  intros Hn. exists (Ok tt), (spent_only n 0 0). split_and!; [done|by apply spent_nonneg|].
  intros l b [Hb (?&?&?&?)]. unfold affordable, spend_fuel, charge. cbn in *. split.
  - intros [? _]. rewrite (proj2 (Z.ltb_ge _ _)) by lia. do 2 f_equal; lia.
  - intros Hna. rewrite (proj2 (Z.ltb_lt _ _)) by (apply Z.nle_gt; intros ?; apply Hna; split_and!; try done; lia).
    eexists; split; [done|apply limit_error_limit].
Qed.
Lemma metered_allocate n sp : 0 ≤ n → metered (λ l, allocate (at_limits env l) n sp).
Proof.
  intros Hn. exists (Ok tt), (spent_only 0 0 n). split_and!; [done|by apply spent_nonneg|].
  intros l b [Hb (?&?&?&?)]. unfold affordable, allocate, charge, checked_add. cbn in *.
  destruct (Z.leb_spec (allocation_bytes b + n) usize_max); split.
  - intros (? & ? & ? & _). rewrite (proj2 (Z.ltb_ge _ _)) by lia. do 2 f_equal; lia.
  - intros Hna. rewrite (proj2 (Z.ltb_lt _ _)) by (apply Z.nle_gt; intros ?; apply Hna; split_and!; try done; lia).
    eexists; split; [done|apply limit_error_limit].
  - intros (? & ? & ? & _). lia.
  - intros _. eexists; split; [done|apply limit_error_limit].
Qed.
Lemma metered_traverse sp : metered (λ l, traverse_element (at_limits env l) sp).
Proof.
  exists (Ok tt), (spent_only 1 1 0). split_and!; [done|by apply spent_nonneg|].
  intros l b [Hb (?&?&?&?)]. unfold affordable, traverse_element, spend_fuel, charge. cbn in *. split.
  - intros (? & ? & ? & _). rewrite !(proj2 (Z.ltb_ge _ _)) by lia. do 2 f_equal; lia.
  - intros Hna. case_match; [eexists; split; [done|apply limit_error_limit]|]. cbn.
    rewrite (proj2 (Z.ltb_lt _ _)) by (apply Z.nle_gt; intros ?; apply Hna; split_and!; try done; lia).
    eexists; split; [done|apply limit_error_limit].
Qed.
End primitives.

(** ** Loops and pure steps *)

Lemma metered_try_map {A B} (f : EvaluationLimits → A → Ev B) xs :
  (∀ x, x ∈ xs → metered (λ l, f l x)) → metered (λ l, try_map (f l) xs).
Proof.
  induction xs as [|x xs IH]; intros Hf; cbn [try_map]; [apply metered_ret|].
  apply (metered_bind (λ l, f l x)); [apply Hf; by left|]. intros y.
  apply (metered_bind (λ l, try_map (f l) xs)); [apply IH; intros; apply Hf; by right|].
  intros ys. apply metered_ret.
Qed.
Lemma metered_fold {A B} (f : EvaluationLimits → B → A → Ev B) xs acc :
  (∀ acc x, x ∈ xs → metered (λ l, f l acc x)) → metered (λ l, fold_m (f l) acc xs).
Proof.
  revert acc. induction xs as [|x xs IH]; intros acc Hf; cbn [fold_m]; [apply metered_ret|].
  apply (metered_bind (λ l, f l acc x)); [apply Hf; by left|]. intros acc'.
  apply IH. intros; apply Hf; by right.
Qed.
Lemma metered_repeat (m : EvaluationLimits → Ev unit) n : metered m → metered (λ l, repeat_m n (m l)).
Proof.
  intros Hm. induction n as [|n IH]; cbn [repeat_m]; [apply metered_ret|].
  by apply (metered_bind m).
Qed.
Lemma metered_fmap {A B} (f : A → B) (r : EvaluationLimits → Compiled A) r0 :
  (∀ l, r l = r0) → unlimited r0 → metered (λ l, f <$> (lift (r l) : Ev A)).
Proof.
  intros Hr Hu. apply (metered_same (λ l, lift (f <$> r l))).
  - apply (metered_lift _ (f <$> r0)); [intros l; by rewrite Hr|].
    destruct r0; [done|]. intros ? [= <-]. by apply Hu.
  - intros l b _. left. by destruct (r l).
Qed.

Section unlimited.
Context `{Externals} (env : EvalEnv).

Lemma unlimited_ok {A} (a : A) : unlimited (Ok a).
Proof. done. Qed.
Lemma unlimited_error_value sp msg : ¬ is_limit (eval_error env sp msg).
Proof. by intros (? & [= <-] & ?). Qed.
Lemma unlimited_error_with sp msg fix_ : ¬ is_limit (eval_error_with env sp msg fix_).
Proof. by intros (? & [= <-] & ?). Qed.
Lemma unlimited_panic : ¬ is_limit Panic.
Proof. by intros (? & ? & ?). Qed.
Lemma unlimited_err {A} f : ¬ is_limit f → unlimited (A := A) (Err f).
Proof. by intros ? ? [= <-]. Qed.
Lemma unlimited_map_err {A E} (r : Result E A) (f : E → Failure) :
  (∀ e, ¬ is_limit (f e)) → unlimited (map_err f r).
Proof. destruct r; [done|]. intros Hf ? [= <-]. apply Hf. Qed.
Lemma unlimited_at_span {A} sp (r : Result string A) : unlimited (at_span env sp r).
Proof. apply unlimited_map_err. intros. apply unlimited_error_value. Qed.
Lemma unlimited_numeric {A} sp (r : Result Numeric.Fault A) : unlimited (numeric_at_span env sp r).
Proof. apply unlimited_map_err. intros []; [apply unlimited_error_value|apply unlimited_panic]. Qed.
Lemma unlimited_ok_or {A} (o : option A) f : ¬ is_limit f → unlimited (ok_or o f).
Proof. destruct o; [done|]. by intros ? ? [= <-]. Qed.
Lemma unlimited_bind {A B} (r : Compiled A) (k : A → Compiled B) :
  unlimited r → (∀ a, unlimited (k a)) → unlimited (r ≫= k).
Proof. destruct r as [a|f]; intros Hr Hk; [apply Hk|]. intros ? [= <-]. by apply Hr. Qed.
Lemma unlimited_fmap {A B} (g : A → B) (r : Compiled A) : unlimited r → unlimited (g <$> r).
Proof. destruct r; [done|]. intros Hr ? [= <-]. by apply Hr. Qed.

Lemma metered_error {A} sp msg : metered (A := A) (λ l, throw (eval_error (at_limits env l) sp msg)).
Proof. apply (metered_throw _ (eval_error env sp msg)); [done|apply unlimited_error_value]. Qed.
Lemma metered_error_with {A} sp msg fix_ :
  metered (A := A) (λ l, throw (eval_error_with (at_limits env l) sp msg fix_)).
Proof. apply (metered_throw _ (eval_error_with env sp msg fix_)); [done|apply unlimited_error_with]. Qed.
Lemma metered_at_span {A} sp (r : Result string A) : metered (λ l, lift (at_span (at_limits env l) sp r)).
Proof. apply (metered_lift _ (at_span env sp r)); [done|apply unlimited_at_span]. Qed.
Lemma metered_numeric {A} sp (r : Result Numeric.Fault A) :
  metered (λ l, lift (numeric_at_span (at_limits env l) sp r)).
Proof. apply (metered_lift _ (numeric_at_span env sp r)); [done|apply unlimited_numeric]. Qed.
Lemma metered_unwrap {A} (o : option A) : metered (λ _, lift (ok_or o Panic)).
Proof. apply (metered_lift _ (ok_or o Panic)); [done|]. apply unlimited_ok_or, unlimited_panic. Qed.
Lemma metered_ok_or {A} (o : option A) sp msg :
  metered (λ l, lift (ok_or o (eval_error (at_limits env l) sp msg))).
Proof.
  apply (metered_lift _ (ok_or o (eval_error env sp msg))); [done|].
  apply unlimited_ok_or, unlimited_error_value.
Qed.
Lemma metered_map_err {A E} (r : Result E A) sp (msg : E → string) :
  metered (λ l, lift (map_err (λ e, eval_error (at_limits env l) sp (msg e)) r)).
Proof.
  apply (metered_lift _ (map_err (λ e, eval_error env sp (msg e)) r)); [done|].
  apply unlimited_map_err. intros. apply unlimited_error_value.
Qed.
Lemma metered_fmap_at_span {A B} (f : A → B) sp (r : Result string A) :
  metered (λ l, f <$> (lift (at_span (at_limits env l) sp r) : Ev A)).
Proof. apply (metered_fmap _ _ (at_span env sp r)); [done|apply unlimited_at_span]. Qed.
Lemma unlimited_bool v sp p : unlimited (require_bool env v sp p).
Proof. unfold require_bool. repeat case_match; try done; apply unlimited_err, unlimited_error_value. Qed.
Lemma unlimited_number v sp p : unlimited (require_number env v sp p).
Proof.
  unfold require_number. repeat case_match; try (apply unlimited_err, unlimited_error_value).
  apply unlimited_at_span.
Qed.
Lemma metered_bool v sp p : metered (λ l, lift (require_bool (at_limits env l) v sp p)).
Proof. by apply (metered_lift _ (require_bool env v sp p)); [|apply unlimited_bool]. Qed.
Lemma metered_number v sp p : metered (λ l, lift (require_number (at_limits env l) v sp p)).
Proof. by apply (metered_lift _ (require_number env v sp p)); [|apply unlimited_number]. Qed.
Lemma metered_position v sp : metered (λ l, lift (array_position (at_limits env l) v sp)).
Proof.
  apply (metered_lift _ (array_position env v sp)); [done|]. unfold array_position.
  case_match; try (apply unlimited_err, unlimited_error_value). apply unlimited_at_span.
Qed.
Lemma metered_numeric_binary op v w sp : metered (λ l, lift (numeric_binary (at_limits env l) op v w sp)).
Proof.
  apply (metered_lift _ (numeric_binary env op v w sp)); [done|]. unfold numeric_binary.
  apply unlimited_bind; [by apply unlimited_map_err; intros; apply unlimited_error_value|intros x].
  apply unlimited_bind; [by apply unlimited_map_err; intros; apply unlimited_error_value|intros y].
  apply unlimited_bind; [|intros; apply unlimited_fmap, unlimited_at_span].
  destruct op; try apply unlimited_numeric; apply unlimited_err, unlimited_panic.
Qed.
End unlimited.

Create HintDb metered.
#[export] Hint Resolve metered_ret metered_check_scalar metered_check_produced metered_traverse : metered.
#[export] Hint Resolve metered_error metered_error_with metered_at_span metered_numeric metered_unwrap metered_ok_or metered_map_err
  metered_fmap_at_span metered_bool metered_number metered_position metered_numeric_binary : metered.

(** Non-negative amounts. *)
Lemma saturating_nonneg a b : 0 ≤ a → 0 ≤ b → 0 ≤ saturating_add a b.
Proof. unfold saturating_add, usize_max. lia. Qed.
Ltac amount_tac :=
  first [ apply len_nonneg | lia | unfold size_of_ref_pair, size_of_ref; lia | apply Z.mul_nonneg_nonneg; lia
        | apply saturating_nonneg; amount_tac | apply saturating_mul_nonneg; amount_tac ].

Ltac meter_step :=
  first
    [ solve [eauto with metered nocore]
    | match goal with
      | IH : ∀ x, x ∈ ?xs → _, Hx : _ ∈ ?xs |- _ => solve [apply (IH _ Hx)]
      end
    | apply metered_fuel; amount_tac
    | apply metered_allocate; amount_tac
    | apply metered_traversal
    | apply metered_result_depth
    | apply metered_result_nodes
    | apply metered_result_bytes
    | apply metered_try_map; intros
    | apply metered_fold; intros
    | apply metered_repeat
    | refine (metered_bind (λ l, _) (λ l _, _) _ _); [|intros]
    | case_match ].
Ltac meter := repeat (cbv zeta beta; meter_step).

Section traversals.
Context `{Externals} (env : EvalEnv).

Lemma metered_charge_elements n sp : metered (λ l, charge_elements (at_limits env l) n sp).
Proof. unfold charge_elements. meter. Qed.

Lemma metered_clone v d sp : metered (λ l, clone_bounded (at_limits env l) v d sp).
Proof.
  revert d. induction v as [| | |s|vs IH|m IH] using Value_ind; intros d; cbn [clone_bounded];
    rewrite ?Forall_forall in *; meter.
Qed.
Lemma metered_add_bytes t n sp : 0 ≤ n → metered (λ l, add_result_bytes (at_limits env l) t n sp).
Proof. intros Hn. unfold add_result_bytes. meter. Qed.
Lemma json_string_bytes_nonneg s : 0 ≤ json_string_bytes s.
Proof.
  unfold json_string_bytes. assert (0 ≤ 2) as Hb by lia. revert Hb. generalize 2.
  induction (chars s) as [|c cs IH]; intros z Hz; cbn; [done|]. apply IH. apply saturating_nonneg; [done|].
  unfold json_char_bytes, len_utf8. repeat case_match; lia.
Qed.
Lemma container_bytes_nonneg {A} (xs : list A) : 0 ≤ container_bytes xs.
Proof. unfold container_bytes, saturating_add, saturating_sub, usize_max. lia. Qed.

Ltac bytes_tac :=
  first [ apply json_string_bytes_nonneg | apply container_bytes_nonneg | amount_tac
        | apply saturating_nonneg; bytes_tac ].

Lemma metered_inspect v d sp counts : metered (λ l, inspect_result (at_limits env l) v d sp counts).
Proof.
  revert d counts. induction v as [|[]| |s|vs IH|m IH] using Value_ind; intros d [nodes bytes];
    cbn [inspect_result]; rewrite ?Forall_forall in *;
    repeat (cbv zeta beta; first [apply metered_add_bytes; bytes_tac | meter_step]).
Qed.
Lemma metered_inspect_array vs sp : metered (λ l, inspect_result_array (at_limits env l) vs sp).
Proof.
  unfold inspect_result_array.
  repeat (cbv zeta beta;
    first [apply metered_add_bytes; bytes_tac | apply metered_inspect | meter_step]).
Qed.
#[local] Hint Resolve metered_clone metered_inspect : metered.
Lemma metered_clone_external v sp : metered (λ l, clone_external (at_limits env l) v sp).
Proof. unfold clone_external. meter. Qed.
Lemma metered_finish v sp : metered (λ l, finish (at_limits env l) v sp).
Proof. unfold finish. meter. Qed.
Lemma metered_own v sp p : metered (λ l, own (at_limits env l) v sp p).
Proof. unfold own. meter. Qed.

Lemma metered_equal_json v w d sp : metered (λ l, deep_equal_json (at_limits env l) v w d sp).
Proof.
  revert w d. induction v as [| | |s|vs IH|m IH] using Value_ind; intros w d; cbn [deep_equal_json];
    rewrite ?Forall_forall in *; try by meter.
  - destruct w as [| | | |ws|]; try by meter. meter. clear H0. revert ws. induction vs as [|v vs IHvs]; intros ws; [meter|].
    pose proof (IH v ltac:(by left)). specialize (IHvs ltac:(intros x Hx; apply IH; by right)).
    destruct ws as [|w ws]; meter.
  - destruct w as [| | | | |m2]; try by meter. meter. clear H0. induction m as [|[k v] m IHm]; [by meter|].
    pose proof (IH (k, v) ltac:(by left)). specialize (IHm ltac:(intros x Hx; apply IH; by right)). meter.
Qed.
#[local] Hint Resolve metered_equal_json : metered.
Lemma metered_equal v w d sp : metered (λ l, deep_equal (at_limits env l) v w d sp).
Proof. unfold deep_equal. meter. Qed.
Lemma metered_order v w sp : metered (λ l, order (at_limits env l) v w sp).
Proof. unfold order. meter. Qed.
End traversals.
#[export] Hint Resolve metered_charge_elements metered_clone metered_inspect metered_inspect_array
  metered_clone_external metered_finish metered_own metered_equal_json metered_equal metered_order : metered.

(** ** Built-in functions *)

Section functions.
Context `{Externals} (env : EvalEnv).

Lemma metered_push out s sp : metered (λ l, push_bounded (at_limits env l) out s sp).
Proof. unfold push_bounded. meter. Qed.
#[local] Hint Resolve metered_push : metered.
Lemma metered_push_string s sp out : metered (λ l, push_json_string (at_limits env l) s sp out).
Proof. unfold push_json_string. meter. Qed.
#[local] Hint Resolve metered_push_string : metered.

Lemma metered_entries {X} (write : EvaluationLimits → X → string → Ev string) (key : X → string) xs first sp out :
  (∀ x out, x ∈ xs → metered (λ l, write l x out)) →
  metered (λ l, write_entries (at_limits env l) sp first ((λ x, (key x, write l x)) <$> xs) out).
Proof.
  revert first out. induction xs as [|x xs IH]; intros first out Hw; cbn; [by meter|].
  pose proof (λ out, Hw x out ltac:(by left)). unfold write_entry. cbn [fst snd].
  specialize (λ f o, IH f o ltac:(intros; apply Hw; by right)). meter.
Qed.
Lemma sort_fmap {X Y} (kx : X → string) (ky : Y → string) (f : X → Y) xs :
  (∀ x, ky (f x) = kx x) → sort_by_key ky (f <$> xs) = f <$> sort_by_key kx xs.
Proof.
  intros Hk. induction xs as [|x xs IH]; cbn; [done|]. fold (sort_by_key ky (f <$> xs)). rewrite IH.
  fold (sort_by_key kx xs). generalize (sort_by_key kx xs). intros ys.
  induction ys as [|y ys IHys]; cbn; [done|]. rewrite !Hk. by case_match; cbn; rewrite ?IHys.
Qed.
Lemma metered_sorted_entries {X} (write : EvaluationLimits → X → string → Ev string) (key : X → string) xs first sp out :
  (∀ x out, x ∈ xs → metered (λ l, write l x out)) →
  metered (λ l, write_entries (at_limits env l) sp first
    (sort_by_key fst ((λ x, (key x, write l x)) <$> xs)) out).
Proof.
  intros Hw. eapply metered_same; [apply (metered_entries write key (sort_by_key key xs) first sp out)|].
  - intros x o Hx. apply Hw. by rewrite (sort_by_key_perm key xs) in Hx.
  - intros l b _. left. by rewrite (sort_fmap key).
Qed.

Lemma metered_array_loop {X} (write : EvaluationLimits → X → string → Ev string) xs first sp out :
  (∀ x out, x ∈ xs → metered (λ l, write l x out)) →
  metered (λ l,
    (fix go (first : bool) (values : list X) (output : string) : Ev string :=
       match values with
       | [] => mret output
       | value :: values =>
           traverse_element (at_limits env l) sp ;;
           output ← (if first then mret output else push_bounded (at_limits env l) output "," sp) ;
           output ← write l value output ;
           go false values output
       end) first xs out).
Proof.
  revert first out. induction xs as [|x xs IH]; intros first out Hw; [by meter|].
  pose proof (λ out, Hw x out ltac:(by left)). specialize (λ f o, IH f o ltac:(intros; apply Hw; by right)).
  meter.
Qed.

Lemma metered_canonical v sp d out : metered (λ l, canonical_json (at_limits env l) v sp d out).
Proof.
  revert d out. induction v as [|[]|n|s|vs IH|m IH] using Value_ind; intros d out; cbn [canonical_json];
    rewrite ?Forall_forall in *; try by meter.
  - meter. apply (metered_array_loop (λ l v, canonical_json (at_limits env l) v sp (d + 1))).
    intros x o Hx. by apply IH.
  - meter. apply (metered_sorted_entries (λ l (kv : string * Value), canonical_json (at_limits env l) kv.2 sp (d + 1)) fst).
    intros x o Hx. by apply IH.
Qed.
#[local] Hint Resolve metered_canonical : metered.

Lemma metered_length v sp : metered (λ l, length_of (at_limits env l) v sp).
Proof. unfold length_of. meter. Qed.
Lemma metered_element vs w sp : metered (λ l, contains_element (at_limits env l) vs w sp).
Proof. unfold contains_element. induction vs as [|v vs IH]; meter. Qed.
#[local] Hint Resolve metered_element : metered.
Lemma metered_contains v w sp : metered (λ l, contains_values (at_limits env l) v w sp).
Proof. unfold contains_values. meter. Qed.
(** A continuation needs to be metered only for the values that the first
    computation can return. *)
Lemma metered_bind_when {A B} (P : A → Prop) (m : EvaluationLimits → Ev A) (k : EvaluationLimits → A → Ev B)
    (dec : ∀ a, Decision (P a)) :
  metered m → (∀ l b a, fst (m l b) = Ok a → P a) → (∀ a, P a → metered (λ l, k l a)) →
  metered (λ l, mbind (k l) (m l)).
Proof.
  intros Hm Hp Hk.
  eapply (metered_same (λ l, mbind (λ a, if dec a then k l a else throw Panic) (m l))).
  - apply metered_bind; [done|]. intros a. destruct (dec a); [by apply Hk|].
    apply (metered_throw _ Panic); [done|apply unlimited_panic].
  - intros l b _. left. unfold mbind, m_bind. specialize (Hp l b). destruct (m l b) as [[a|f] b']; [|done].
    destruct (dec a) as [|Hn]; [done|]. by destruct Hn; apply Hp.
Qed.
Lemma fold_nonneg {X} (f : Z → X → Ev Z) xs acc b n :
  (∀ acc x b n, 0 ≤ acc → fst (f acc x b) = Ok n → 0 ≤ n) →
  0 ≤ acc → fst (fold_m f acc xs b) = Ok n → 0 ≤ n.
Proof.
  intros Hf. revert acc b. induction xs as [|x xs IH]; intros acc b Hacc; cbn; [by intros [= <-]|].
  unfold mbind, m_bind. destruct (f acc x b) as [[acc'|] b'] eqn:He; [|done].
  apply IH. eapply Hf; [done|by rewrite He].
Qed.
Lemma metered_keys v sp : metered (λ l, keys (at_limits env l) v sp).
Proof.
  unfold keys. destruct (as_json v) as [[]|]; try by meter.
  refine (metered_bind (λ l, _) (λ l _, _) _ _); [meter|intros _].
  refine (metered_bind_when (λ n, 0 ≤ n) (λ l, _) (λ l bytes, _) _ _ _ _); [meter| |by intros; meter].
  intros l b n. apply fold_nonneg; [|done]. intros acc x b1 n1 Hacc.
  unfold check_scalar, check_produced_string, spend_fuel, mbind, m_bind.
  repeat case_match; simplify_eq; cbn in *; try done; intros; simplify_eq.
  apply saturating_nonneg; [done|apply len_nonneg].
Qed.
Lemma metered_case v sp up : metered (λ l, case (at_limits env l) v sp up).
Proof. unfold case, push_case_character. meter. Qed.
Lemma metered_stringify v sp : metered (λ l, stringify_json (at_limits env l) v sp).
Proof. unfold stringify_json. meter. Qed.
Lemma metered_explicit v sp : metered (λ l, stringify_explicit (at_limits env l) v sp).
Proof. unfold stringify_explicit, produced. meter. Qed.
Lemma metered_number_of v sp : metered (λ l, number (at_limits env l) v sp).
Proof. unfold number. meter. Qed.
Lemma metered_from_json v sp : metered (λ l, from_json (at_limits env l) v sp).
Proof.
  unfold from_json. destruct (as_json v) as [[]|]; try by meter. apply metered_json_bytes. meter.
Qed.

Lemma compiled_limit_pos pattern : 0 < compiled_limit pattern.
Proof. unfold compiled_limit. lia. Qed.
(** The check of the regex reservation is implied by its allocation. *)
Lemma metered_reserve {A} n sp sp' msg (m : EvaluationLimits → Ev A) :
  0 ≤ n → metered m →
  metered (λ l, budget ← get ;
    if saturating_sub (max_allocation_bytes (limits (at_limits env l))) (allocation_bytes budget) <? n
    then throw (eval_limit_error (at_limits env l) sp msg)
    else allocate (at_limits env l) n sp' ;; m l).
Proof.
  intros Hn Hm. apply (metered_same (λ l, allocate (at_limits env l) n sp' ;; m l)).
  - apply (metered_bind (λ l, allocate (at_limits env l) n sp')); [by apply metered_allocate|done].
  - intros l b [Hb (_ & _ & Ha & _)]. cbn in Ha. unfold mbind, m_bind, get. cbn [limits at_limits].
    unfold saturating_sub. destruct (Z.ltb_spec (Z.max (max_allocation_bytes l - allocation_bytes b) 0) n);
      [right|by left].
    split; [|eexists; split; [done|apply limit_error_limit]].
    unfold allocate, checked_add. repeat case_match; simplify_eq; cbn in *;
      try (eexists; split; [done|apply limit_error_limit]); lia.
Qed.
Lemma metered_matches v p sp : metered (λ l, matches_regex (at_limits env l) v p sp).
Proof.
  unfold matches_regex. destruct (as_json v) as [[| | |haystack| |]|]; try by meter.
  destruct (as_json p) as [[| | |pattern| |]|]; try by meter.
  apply metered_pattern, metered_haystack.
  refine (metered_bind (λ l, _) (λ l _, _) _ _); [meter|intros _]. apply metered_reserve; [|by meter].
  pose proof (compiled_limit_pos pattern). amount_tac.
Qed.
End functions.
#[export] Hint Resolve metered_push metered_canonical metered_length metered_contains metered_keys metered_case
  metered_stringify metered_explicit metered_number_of metered_from_json metered_matches : metered.

(** ** Expressions *)

Section expressions.
Context `{Externals} (env : EvalEnv).

Lemma metered_literal x sp : metered (λ l, eval_literal (at_limits env l) x sp).
Proof. unfold eval_literal. meter. Qed.
Lemma metered_variable x sp : metered (λ l, eval_variable (at_limits env l) x sp).
Proof.
  unfold eval_variable. cbn [at_limits context]. meter.
Qed.
Lemma metered_extend p s x sp : metered (λ l, extend_missing (at_limits env l) p s x sp).
Proof. unfold extend_missing. meter. Qed.
Lemma metered_missing e s x sp : metered (λ l, expression_missing (at_limits env l) e s x sp).
Proof.
  unfold expression_missing. pose proof (path_text_len_nonneg e).
  refine (metered_bind (λ l, _) (λ l _, _) _ _); [|by meter]. apply metered_allocate.
  repeat apply saturating_nonneg; try done; apply len_nonneg.
Qed.
#[local] Hint Resolve metered_extend metered_missing : metered.
Lemma metered_unknown_index v sp : metered (λ l, validate_unknown_target_index (at_limits env l) v sp).
Proof. unfold validate_unknown_target_index. meter. Qed.
#[local] Hint Resolve metered_unknown_index : metered.
Lemma metered_add v w sp : metered (λ l, eval_add (at_limits env l) v w sp).
Proof.
  unfold eval_add. destruct (as_json v) as [[| | |s| |]|]; try by meter.
  destruct (as_json w) as [[| | |t| |]|]; try by meter.
  refine (metered_bind (λ l, _) (λ l _, _) _ _); [meter|intros _].
  refine (metered_bind (λ l, _) (λ l _, _) _ _); [meter|intros _].
  unfold checked_add. case_match; cbn [ok_or].
  - pose proof (len_nonneg s). pose proof (len_nonneg t).
    refine (metered_bind_when (λ n, 0 ≤ n) (λ l, _) (λ l n, _) _ _ _ _);
      [apply (metered_lift _ (Ok (len s + len t))); done|intros ? ? ? [= <-]; lia|by intros; meter].
  - apply metered_never. intros l b. eexists; split; [done|apply limit_error_limit].
Qed.
#[local] Hint Resolve metered_add : metered.
Lemma metered_strict op v w sp : metered (λ l, eval_strict_binary (at_limits env l) op v w sp).
Proof.
  destruct op; cbn [eval_strict_binary]; try by meter.
  all: apply (metered_throw _ Panic); [done|apply unlimited_panic].
Qed.
Lemma metered_member v t k sp : metered (λ l, member_of (at_limits env l) v t k sp).
Proof. unfold member_of. meter. Qed.
Lemma metered_object_at m i sp : metered (λ l, object_at (at_limits env l) m i sp).
Proof. unfold object_at. meter. Qed.
#[local] Hint Resolve metered_object_at : metered.
Lemma metered_index v i t isp sp : metered (λ l, index_of (at_limits env l) v i t isp sp).
Proof. unfold index_of. meter. Qed.
Lemma metered_apply f vs sp : metered (λ l, apply_function (at_limits env l) f vs sp).
Proof.
  unfold apply_function. destruct f; meter.
  all: apply (metered_throw _ Panic); [done|apply unlimited_panic].
Qed.
#[local] Hint Resolve metered_literal metered_variable metered_strict metered_member metered_index metered_apply : metered.

Lemma metered_evaluate e : metered (λ l, evaluate (at_limits env l) e).
Proof.
  induction e as [l sp|name sp|t k sp IHt|t i sp IHt IHi|es sp IHes|es sp IHes|o e sp IHe
                 |o l r sp IHl IHr|c t e sp IHc IHt IHe|fn es sp IHes|e sp IHe] using Expr_ind;
    cbn [evaluate]; rewrite ?Forall_forall in *; try by meter.
  destruct fn, es as [|e es]; try by meter.
  all: pose proof (IHes e ltac:(by left)); meter.
Qed.
End expressions.
#[export] Hint Resolve metered_evaluate : metered.

(** ** Sessions *)

(** The session with other limits. *)
Definition with_limits (session : Session) (l : EvaluationLimits) : Session :=
  {| session_context := session_context session; session_limits := l |}.

Section sessions.
Context `{Externals} (session : Session).

Lemma metered_session_evaluate e : metered (λ l, session_evaluate (with_limits session l) e).
Proof.
  unfold session_evaluate.
  refine (metered_bind (λ l, _) (λ l _, _)
    (metered_evaluate (evaluator session (ce_source e) (ce_field e)) (ce_root e)) _).
  intros v. apply (metered_finish (evaluator session (ce_source e) (ce_field e))).
Qed.

Lemma metered_embedded env v sp out : metered (λ l, append_embedded (at_limits env l) v sp out).
Proof. unfold append_embedded. meter. Qed.
Lemma metered_render t : metered (λ l, render_template (with_limits session l) t).
Proof.
  unfold render_template. destruct (ct_whole_expression t).
  - repeat case_match; try (by apply (metered_throw _ Panic); [|apply unlimited_panic]).
    apply metered_session_evaluate.
  - refine (metered_bind (λ l, _) (λ l _, _) _ _).
    + apply metered_fold. intros out [lit|e] _; cbn [render_part].
      * refine (metered_bind (λ l, _) (λ l _, _)
          (metered_check_produced (evaluator session (ct_source t) (ct_field t)) _ _) _). intros _.
        refine (metered_bind (λ l, _) (λ l _, _)
          (metered_allocate (evaluator session (ct_source t) (ct_field t)) _ _ (len_nonneg lit)) _).
        intros _. apply metered_ret.
      * refine (metered_bind (λ l, _) (λ l _, _)
          (metered_evaluate (evaluator session (ce_source e) (ce_field e)) (ce_root e)) _).
        intros v. apply (metered_embedded (evaluator session (ce_source e) (ce_field e))).
    + intros out. refine (metered_bind (λ l, _) (λ l _, _)
        (metered_check_produced (evaluator session (ct_source t) (ct_field t)) _ _) _). intros _.
      apply (metered_finish (evaluator session (ct_source t) (ct_field t))).
Qed.
End sessions.
