(* ===== verification/Samples.v ===== *)
(** * A concrete environment

    Stand-ins for the third-party functions and a small context, on which
    the theorems are instantiated. *)

From S2P Require Import Prelude Float64 Json Numeric ExprSyntax Lexer Parser Grammar Budget.
From S2P Require Import Functions Evaluator StaticTypes References Compile Session.

Definition ascii_upper (c : Z) : list Z := if (97 <=? c) && (c <=? 122) then [c - 32] else [c].
Definition ascii_lower (c : Z) : list Z := if (65 <=? c) && (c <=? 90) then [c + 32] else [c].

(** Patterns are plain substrings and only [null] can be read as JSON. *)
#[export] Instance sample_externals : Externals := {|
  fmt_f64 := λ f, if F64.is_finite f then "0.5" else "inf";
  json_deserialize := λ s,
    if starts_with "null" s then Ok (VNull, drop_bytes 4 s) else Err "expected value"%string;
  json_end := λ s, if is_empty s then Ok tt else Err "trailing characters"%string;
  Regex := string;
  regex_build := λ pattern _ _, Ok pattern;
  regex_is_match := λ pattern text, str_contains text pattern;
  to_uppercase := ascii_upper;
  to_lowercase := ascii_lower;
  size_of_Value := 32;
  size_of_StringValue := 56;
  size_of_RuntimeValue := 40;
|}.

(** [{"inputs": {"name": "ada", "n": 2}, "list": [1, 2]}], in key order. *)
Definition sample_context : Value :=
  VObject [("inputs", VObject [("n", VNumber (PosInt 2)); ("name", VString "ada")]);
           ("list", VArray [VNumber (PosInt 1); VNumber (PosInt 2)])]%string.
Definition sample_session : Session := session_new sample_context EvaluationLimits_default.
Definition sample_budget : Budget := budget_new EvaluationLimits_default.

Definition empty_expression : CompiledExpression :=
  {| ce_source := ""; ce_field := None; ce_root := MkExpr (KLiteral LNull) (span_at 0); ce_references := [] |}.
Definition compiled_or_empty (r : Compiled CompiledExpression) : CompiledExpression :=
  match r with Ok e => e | Err _ => empty_expression end.

Definition sample_text : string := "inputs.n + list[0] > 2 && contains(list, 2) ? upper(inputs.name) : 'none'".
Definition sample_expression : CompiledExpression :=
  compiled_or_empty (compile_expression sample_text CompilationLimits_default).

Definition sample_template_text : string := "Hello ${inputs.name}, $${ and ${inputs.n * 21}!".
Definition sample_template : CompiledTemplate :=
  match compile_template sample_template_text CompilationLimits_default with
  | Ok t => t
  | Err _ => template_new "" None [] false
  end.

(** Values of the samples, evaluated. *)
Lemma sample_expression_value :
  fst (session_evaluate sample_session sample_expression sample_budget) = Ok (VString "ADA").
Proof. vm_compute. reflexivity. Qed.
Lemma sample_template_value :
  fst (render_template sample_session sample_template sample_budget) = Ok (VString "Hello ada, ${ and 42!").
Proof. vm_compute. reflexivity. Qed.
