(* ===== verification/Guarantees.v ===== *)
(** * What a session guarantees

    The end-to-end properties of compiling and evaluating expressions and
    templates, from the component theorems. *)

From S2P Require Import Prelude Float64 Json Numeric ExprSyntax Lexer Parser Grammar Budget.
From S2P Require Import Functions Evaluator Denotation Refinement StaticTypes TypeSoundness.
From S2P Require Import References Compile CompileCorrect Session SessionCorrect Metering Samples.

(** ** Samples satisfy the hypotheses *)

#[local] Instance sample_reader : ReaderLaws.
Proof.
  intros s v rest. unfold json_deserialize, sample_externals.
  destruct (starts_with "null" s); [|done]. by intros [= <- <-].
Qed.

Lemma sample_good_context : good_context (session_context sample_session).
Proof.
  intros name v Hv. cbn in Hv. repeat case_match; simplify_eq; repeat constructor.
Qed.

(** ** Evaluation *)

(** C1. Evaluating a compiled expression in a session, with whatever budget is
    left, returns the meaning of the expression, and then the value is within
    the result limits of the session, its nesting, its number of values and
    the length of its JSON text, and its bytes were charged; or it fails with
    the error its meaning fails with, or stops with a limit error. *)
Theorem session_evaluate_refines `{Externals} `{!ReaderLaws} session e b :
  good_context (session_context session) →
  match session_evaluate session e b with
  | (Ok v, b') =>
      expression_meaning session e = Ok v ∧ within (session_limits session) v ∧
      Z.min (weight v) usize_max ≤ allocation_bytes b' - allocation_bytes b
  | (Err f, _) => is_limit f ∨ expression_meaning session e = Err f
  end.
Proof.
  intros Hc. pose proof (session_evaluate_runs session Hc e b) as Hr.
  destruct (session_evaluate session e b) as [[v|f] b']; destruct Hr as [_ Hr]; [|done].
  by destruct Hr as (x & -> & -> & _ & ? & ?).
Qed.

Definition sample_outcome : Result Failure Value * Budget :=
  session_evaluate sample_session sample_expression sample_budget.

Lemma session_evaluate_refines_witness :
  match session_evaluate sample_session sample_expression sample_budget with
  | (Ok v, b') =>
      expression_meaning sample_session sample_expression = Ok v ∧ within EvaluationLimits_default v ∧
      Z.min (weight v) usize_max ≤ allocation_bytes b' - allocation_bytes sample_budget
  | (Err f, _) => is_limit f ∨ expression_meaning sample_session sample_expression = Err f
  end ∧ fst sample_outcome = Ok (VString "ADA").
Proof.
  split.
  - apply (session_evaluate_refines sample_session sample_expression sample_budget).
    exact sample_good_context.
  - exact sample_expression_value.
Defined.

(** C2. Rendering a template returns the value of its only expression, or
    the texts of its literals and embedded expressions put together in
    order; or it fails with the error of the first part that fails, or with
    a limit error. *)
Theorem render_template_refines `{Externals} `{!ReaderLaws} session t b :
  good_context (session_context session) →
  match fst (render_template session t b) with
  | Ok v => template_meaning session t = Ok v
  | Err f => is_limit f ∨ template_meaning session t = Err f
  end.
Proof.
  intros Hc. pose proof (render_template_runs session Hc t b) as Hr.
  destruct (render_template session t b) as [[v|f] b']; destruct Hr as [_ Hr]; [|done].
  by destruct Hr as (x & -> & -> & _).
Qed.

Lemma render_template_refines_witness :
  match fst (render_template sample_session sample_template sample_budget) with
  | Ok v => template_meaning sample_session sample_template = Ok v
  | Err f => is_limit f ∨ template_meaning sample_session sample_template = Err f
  end ∧
  fst (render_template sample_session sample_template sample_budget) = Ok (VString "Hello ada, ${ and 42!").
Proof.
  split.
  - apply (render_template_refines sample_session sample_template sample_budget).
    exact sample_good_context.
  - exact sample_template_value.
Defined.

(** C20. The result does not depend on the limits: two sessions over the same
    context that both return a value return the same one, and an error that
    is not a limit error is the error of any other session that is not
    stopped by its limits. *)
Theorem limits_do_not_change_results `{Externals} `{!ReaderLaws} session l l' e b b' :
  good_context (session_context session) →
  match fst (session_evaluate (with_limits session l) e b),
        fst (session_evaluate (with_limits session l') e b') with
  | Ok v, Ok v' => v = v'
  | Ok _, Err f | Err f, Ok _ => is_limit f
  | Err f, Err f' => is_limit f ∨ is_limit f' ∨ f = f'
  end.
Proof.
  intros Hc.
  pose proof (session_evaluate_runs (with_limits session l) Hc e b) as Hr.
  pose proof (session_evaluate_runs (with_limits session l') Hc e b') as Hr'.
  change (expression_meaning (with_limits session l) e) with (expression_meaning (with_limits session l') e) in Hr.
  destruct (session_evaluate (with_limits session l) e b) as [[v|f] ?]; destruct Hr as [_ Hr];
    destruct (session_evaluate (with_limits session l') e b') as [[v'|f'] ?]; destruct Hr' as [_ Hr'];
    try destruct Hr as (x & Hx & -> & _); try destruct Hr' as (x' & Hx' & -> & _); cbn; naive_solver congruence.
Qed.

Lemma limits_do_not_change_results_witness :
  match fst (session_evaluate (with_limits sample_session EvaluationLimits_default) sample_expression sample_budget),
        fst (session_evaluate (with_limits sample_session EvaluationLimits_default) sample_expression
          (snd sample_outcome)) with
  | Ok v, Ok v' => v = v'
  | Ok _, Err f | Err f, Ok _ => is_limit f
  | Err f, Err f' => is_limit f ∨ is_limit f' ∨ f = f'
  end.
Proof.
  apply (limits_do_not_change_results sample_session EvaluationLimits_default EvaluationLimits_default
    sample_expression sample_budget (snd sample_outcome)).
  exact sample_good_context.
Defined.

(** ** What it takes to finish *)

(** A metered operation that returns its meaning, an error of its meaning or
    a limit error delivers its meaning exactly when it can afford its cost. *)
Lemma metered_meaning {A} (m : EvaluationLimits → Ev A) (meaning : Compiled A) :
  metered m →
  (∀ l b, match fst (m l b) with
          | Ok v => meaning = Ok v
          | Err f => is_limit f ∨ meaning = Err f
          end) →
  ∃ c, nonneg c ∧ costs m meaning c.
Proof.
  intros (o & c & Ho & Hc & Hm) Hr. exists c. split; [done|]. intros l b Hb.
  destruct (Hm l b Hb) as [H1 H2]. split; [|done]. intros Ha. specialize (Hr l b). rewrite (H1 Ha) in Hr |- *.
  destruct o as [v|f]; cbn in Hr; [by rewrite Hr|]. destruct Hr as [Hl| ->]; [by destruct (Ho f)|done].
Qed.

(** C27. Evaluation delivers its meaning as soon as it is given enough: every
    expression has a cost, the fuel, elements and bytes it spends and the
    sizes it needs, which depends neither on the limits nor on the budget.
    When the limits and what is left of the budget cover the cost, the
    session returns the meaning of the expression, value or error, and has
    spent exactly the cost; when they do not, it stops with a limit error. *)
Theorem evaluation_cost_exact `{Externals} `{!ReaderLaws} session e :
  good_context (session_context session) →
  ∃ c, nonneg c ∧ ∀ l b, in_budget l b →
    (affordable c l b →
     session_evaluate (with_limits session l) e b = (expression_meaning session e, charge c b)) ∧
    (¬ affordable c l b → stopped (fst (session_evaluate (with_limits session l) e b))).
Proof.
  intros Hc. apply (metered_meaning _ _ (metered_session_evaluate session e)). intros l b.
  pose proof (session_evaluate_runs (with_limits session l) Hc e b) as Hr.
  destruct (session_evaluate (with_limits session l) e b) as [[v|f] b']; destruct Hr as [_ Hr]; [|done].
  by destruct Hr as (x & Hx & -> & _).
Qed.

Lemma sample_in_budget : in_budget EvaluationLimits_default sample_budget.
Proof. unfold in_budget, affordable, covers. cbn. unfold usize_max. lia. Qed.

Lemma evaluation_cost_exact_witness :
  ∃ c, nonneg c ∧
    (affordable c EvaluationLimits_default sample_budget →
     session_evaluate sample_session sample_expression sample_budget =
     (expression_meaning sample_session sample_expression, charge c sample_budget)) ∧
    (¬ affordable c EvaluationLimits_default sample_budget →
     stopped (fst (session_evaluate sample_session sample_expression sample_budget))).
Proof.
  destruct (evaluation_cost_exact sample_session sample_expression sample_good_context) as (c & Hc & He).
  exists c. split; [exact Hc|]. exact (He EvaluationLimits_default sample_budget sample_in_budget).
Defined.

(** C28. Rendering delivers its meaning as soon as it is given enough: every
    template has a cost of its own, and the session renders what the
    template means, value or error, and has spent exactly the cost, when the
    limits and the remaining budget cover it; it stops with a limit error
    when they do not. *)
Theorem rendering_cost_exact `{Externals} `{!ReaderLaws} session t :
  good_context (session_context session) →
  ∃ c, nonneg c ∧ ∀ l b, in_budget l b →
    (affordable c l b →
     render_template (with_limits session l) t b = (template_meaning session t, charge c b)) ∧
    (¬ affordable c l b → stopped (fst (render_template (with_limits session l) t b))).
Proof.
  intros Hc. apply (metered_meaning _ _ (metered_render session t)). intros l b.
  pose proof (render_template_runs (with_limits session l) Hc t b) as Hr.
  destruct (render_template (with_limits session l) t b) as [[v|f] b']; destruct Hr as [_ Hr]; [|done].
  by destruct Hr as (x & Hx & -> & _).
Qed.

Lemma rendering_cost_exact_witness :
  ∃ c, nonneg c ∧
    (affordable c EvaluationLimits_default sample_budget →
     render_template sample_session sample_template sample_budget =
     (template_meaning sample_session sample_template, charge c sample_budget)) ∧
    (¬ affordable c EvaluationLimits_default sample_budget →
     stopped (fst (render_template sample_session sample_template sample_budget))).
Proof.
  destruct (rendering_cost_exact sample_session sample_template sample_good_context) as (c & Hc & He).
  exists c. split; [exact Hc|]. exact (He EvaluationLimits_default sample_budget sample_in_budget).
Defined.

(** ** Budgets over a whole session *)

(** The operations of a session. *)
Inductive session_op :=
| OpEvaluate (e : CompiledExpression)
| OpEvaluateBool (e : CompiledExpression)
| OpRender (t : CompiledTemplate)
| OpCloneValue (v : Value) (field : string)
| OpCloneString (s field : string)
| OpStringify (v : Value) (field : string)
| OpValidate (v : Value) (field : string)
| OpValidateArray (vs : list Value) (field : string)
| OpAssemble (parts : list string) (field : string)
| OpChargeAllocation (bytes : Z) (field : string)
| OpChargeElements (n : nat) (field : string)
| OpCheckShape (depth nodes bytes : Z) (field : string)
| OpChargeShape (depth nodes bytes : Z) (field : string).

(** Whether an operation succeeds, and the budget it leaves in either case. *)
Definition settled {A} (r : Compiled A * Budget) : bool * Budget :=
  (match fst r with Ok _ => true | Err _ => false end, snd r).

Definition run_op `{Externals} (session : Session) (b : Budget) (op : session_op) : bool * Budget :=
  match op with
  | OpEvaluate e => settled (session_evaluate session e b)
  | OpEvaluateBool e => settled (session_evaluate_bool session e b)
  | OpRender t => settled (render_template session t b)
  | OpCloneValue v field => settled (clone_value session v field b)
  | OpCloneString s field => settled (clone_string session s field b)
  | OpStringify v field => settled (session_stringify_json session v field b)
  | OpValidate v field => settled (validate_value session v field b)
  | OpValidateArray vs field => settled (validate_array session vs field b)
  | OpAssemble parts field => settled (assemble_string session parts field b)
  | OpChargeAllocation bytes field => settled (charge_allocation session bytes field b)
  | OpChargeElements n field => settled (charge_container_elements session n field b)
  | OpCheckShape depth nodes bytes field => settled (check_result_shape session depth nodes bytes field b)
  | OpChargeShape depth nodes bytes field => settled (charge_result_shape session depth nodes bytes field b)
  end.
Definition after_op `{Externals} (session : Session) (b : Budget) (op : session_op) : Budget :=
  snd (run_op session b op).

(** One for a failure: the increment of the element counter that failed. *)
Definition failures (succeeded : bool) : Z := if succeeded then 0 else 1.

(** Values as [serde_json] builds them, and amounts that are unsigned. *)
Definition good_op (op : session_op) : Prop :=
  match op with
  | OpCloneValue v _ | OpStringify v _ => good v
  | OpChargeAllocation bytes _ => 0 ≤ bytes
  | OpChargeShape _ nodes bytes _ => 0 ≤ nodes ∧ 0 ≤ bytes
  | _ => True
  end.

Section ops.
Context `{Externals} `{!ReaderLaws} (session : Session).
Context (Hcontext : good_context (session_context session)).

Lemma runs_spent {A B} source field (m : Ev A) (r : Compiled B) R b :
  runs (evaluator session source field) m r R →
  spent (session_limits session) (failures (fst (settled (m b)))) b (snd (settled (m b))).
Proof. intros Hm. specialize (Hm b). destruct (m b) as [[] ?]; apply Hm. Qed.

Lemma run_op_spent b op :
  good_op op → spent (session_limits session) (failures (fst (run_op session b op))) b (after_op session b op).
Proof.
  unfold after_op. destruct op; cbn [good_op run_op]; intros Hgood.
  - eapply runs_spent, (session_evaluate_runs session Hcontext).
  - eapply runs_spent, (evaluate_bool_runs session Hcontext).
  - eapply runs_spent, (render_template_runs session Hcontext).
  - by eapply runs_spent, (clone_value_runs session).
  - eapply runs_spent, (clone_string_runs session).
  - by eapply runs_spent, (stringify_runs session).
  - eapply runs_spent, (validate_value_runs session).
  - eapply runs_spent, (validate_array_runs session).
  - eapply runs_spent, (assemble_runs session).
  - by eapply runs_spent, (charges_allocate (integration session _ field)).
  - eapply runs_spent, (charges_elements (integration session _ field)).
  - eapply runs_spent, (check_shape_runs session).
  - destruct Hgood. by eapply runs_spent, (charge_shape_runs session).
Qed.

Lemma run_ops_spent ops b :
  Forall good_op ops →
  spent (session_limits session) (Z.of_nat (length ops)) b (foldl (after_op session) b ops).
Proof.
  intros Hops. revert b. induction Hops as [|op ops Hop _ IH]; intros b; cbn [foldl length]; [by apply spent_refl|].
  destruct (run_op_spent b op Hop), (IH (after_op session b op)).
  split; destruct (fst (run_op session b op)); cbn [failures] in *; lia.
Qed.
End ops.

(** C19. However the operations of a session are interleaved, and whether they
    succeed or fail, the fuel that is left lies between zero and what it
    started with, the allocation charged never exceeds its limit, and no
    operation gives fuel, allocation or traversed elements back.  An
    operation that succeeds leaves the counter of traversed elements within
    its limit, or where it was; the code increments it before it compares,
    so an operation that fails may leave it one past, and it is never past
    its limit by more than the number of operations. *)
Theorem session_budget_invariant `{Externals} `{!ReaderLaws} session ops op :
  good_context (session_context session) → Forall good_op ops → good_op op →
  0 ≤ fuel (session_limits session) → 0 ≤ max_allocation_bytes (session_limits session) →
  0 ≤ max_container_elements (session_limits session) →
  let b := foldl (after_op session) (budget_new (session_limits session)) ops in
  let '(succeeded, b') := run_op session b op in
  0 ≤ fuel_remaining b' ≤ fuel_remaining b ∧ fuel_remaining b ≤ fuel (session_limits session) ∧
  0 ≤ allocation_bytes b ≤ allocation_bytes b' ∧
  allocation_bytes b' ≤ max_allocation_bytes (session_limits session) ∧
  0 ≤ traversed_elements b ≤ traversed_elements b' ∧
  traversed_elements b' ≤
    Z.max (traversed_elements b) (max_container_elements (session_limits session)) + failures succeeded ∧
  traversed_elements b ≤ max_container_elements (session_limits session) + Z.of_nat (length ops).
Proof.
  intros Hc Hops Hop Hfuel Halloc Helements b.
  destruct (run_ops_spent session Hc ops (budget_new (session_limits session)) Hops).
  destruct (run_op_spent session Hc b op Hop). unfold after_op in *.
  destruct (run_op session b op) as [succeeded b']. fold (after_op session) in *. subst b. cbn in *. lia.
Qed.

Lemma session_budget_invariant_witness :
  let b := foldl (after_op sample_session) (budget_new EvaluationLimits_default)
             [OpEvaluate sample_expression; OpRender sample_template] in
  let '(succeeded, b') := run_op sample_session b (OpCloneString "x" "field") in
  0 ≤ fuel_remaining b' ≤ fuel_remaining b ∧ fuel_remaining b ≤ fuel EvaluationLimits_default ∧
  0 ≤ allocation_bytes b ≤ allocation_bytes b' ∧
  allocation_bytes b' ≤ max_allocation_bytes EvaluationLimits_default ∧
  0 ≤ traversed_elements b ≤ traversed_elements b' ∧
  traversed_elements b' ≤
    Z.max (traversed_elements b) (max_container_elements EvaluationLimits_default) + failures succeeded ∧
  traversed_elements b ≤ max_container_elements EvaluationLimits_default + 2.
Proof.
  apply (session_budget_invariant sample_session [OpEvaluate sample_expression; OpRender sample_template]
    (OpCloneString "x" "field")); [exact sample_good_context|repeat constructor|exact I|done|done|done].
Defined.

(** ** Operations on integration-owned data *)

Lemma runs_result `{Externals} {A B} env (m : Ev A) (r : Compiled B) R b a :
  runs env m r R → fst (m b) = Ok a → ∃ c x, r = Ok x ∧ R c a x.
Proof.
  intros Hm. specialize (Hm b). destruct (m b) as [[a'|f] b']; [|done]. intros [= ->].
  destruct Hm as (_ & x & ? & ?). eauto.
Qed.

(** The operations for data owned by integrations compute what they are
    named after whenever they succeed: a clone is the value itself and
    within the result limits, JSON text is the canonical text, validation
    succeeds only on values within the limits, an array is validated as one
    value, and assembled text is the concatenation of its parts. *)
Theorem integration_operations_exact `{Externals} session v vs s parts field b :
  good v →
  (∀ v', fst (clone_value session v field b) = Ok v' → v' = v ∧ within (session_limits session) v) ∧
  (∀ s', fst (clone_string session s field b) = Ok s' → s' = s) ∧
  (∀ text, fst (session_stringify_json session v field b) = Ok text → text = json_text v) ∧
  (fst (validate_value session v field b) = Ok tt → within (session_limits session) v) ∧
  (fst (validate_array session vs field b) = Ok tt → within (session_limits session) (VArray vs)) ∧
  (∀ text, fst (assemble_string session parts field b) = Ok text →
    text = foldl String.append EmptyString parts).
Proof.
  intros Hg. split_and!.
  - intros v' Hv. by destruct (runs_result _ _ _ _ _ _ (clone_value_runs session v field Hg) Hv)
      as (c & x & [= <-] & -> & ? & _).
  - intros s' Hs. by destruct (runs_result _ _ _ _ _ _ (clone_string_runs session s field) Hs)
      as (c & x & [= <-] & -> & _).
  - intros text Ht. by destruct (runs_result _ _ _ _ _ _ (stringify_runs session v field Hg) Ht)
      as (c & x & [= <-] & ->).
  - intros Hv. by destruct (runs_result _ _ _ _ _ _ (validate_value_runs session v field) Hv)
      as (c & x & _ & ?).
  - intros Hv. by destruct (runs_result _ _ _ _ _ _ (validate_array_runs session vs field) Hv)
      as (c & x & _ & ?).
  - intros text Ht. by destruct (runs_result _ _ _ _ _ _ (assemble_runs session parts field) Ht)
      as (c & x & [= <-] & ->).
Qed.

Lemma integration_operations_exact_witness :
  (∀ v', fst (clone_value sample_session sample_context "f" sample_budget) = Ok v' →
    v' = sample_context ∧ within EvaluationLimits_default sample_context) ∧
  fst (clone_value sample_session sample_context "f" sample_budget) = Ok sample_context.
Proof.
  split; [|vm_compute; reflexivity].
  apply (integration_operations_exact sample_session sample_context [] "" [] "f" sample_budget).
  repeat constructor.
Defined.

(** ** Compiled code does not panic *)

(** C25. Compiling an expression, a template or a condition always ends with a
    result or a reported error: no loop of the lexer, the parser, the static
    validator, the reference collector or the template scanner runs out of
    the model's fuel, no argument, token or part is read out of bounds, and
    no [unreachable!] is reached. *)
Theorem compile_total source field name limits :
  clean (compile_expression_arc source field limits) ∧
  clean (compile source field limits) ∧
  clean (compile_condition_for source name limits).
Proof.
  split_and!; [apply compile_expression_clean|apply compile_clean|apply compile_condition_clean].
Qed.

(** C26. An expression that was compiled never panics when it is evaluated,
    and a compiled template never panics when it is rendered: the outcome is
    a value or a reported error. *)
Theorem compiled_never_panics `{Externals} `{!ReaderLaws} session source source' field limits e t b :
  good_context (session_context session) →
  compile_expression_arc source field limits = Ok e → compile source' field limits = Ok t →
  clean (fst (session_evaluate session e b)) ∧ clean (fst (render_template session t b)).
Proof.
  intros Hc He Ht. split.
  - eapply runs_clean; [by apply session_evaluate_runs|]. apply expression_meaning_clean.
    by apply compile_expression_inv in He as [].
  - eapply runs_clean; [by apply render_template_runs|]. by eapply template_meaning_clean.
Qed.

Lemma compiled_never_panics_witness :
  clean (fst (session_evaluate sample_session sample_expression sample_budget)) ∧
  clean (fst (render_template sample_session sample_template sample_budget)).
Proof.
  apply (compiled_never_panics sample_session sample_text sample_template_text None
    CompilationLimits_default).
  - exact sample_good_context.
  - vm_compute. reflexivity.
  - vm_compute. reflexivity.
Defined.

(** ** Static types *)

(** C22. The static type of an expression is the type of every value a session
    returns for it, in any context and with any budget. *)
Theorem static_type_sound `{Externals} `{!ReaderLaws} session e b v t :
  good_context (session_context session) →
  static_result_type e = Some t → fst (session_evaluate session e b) = Ok v →
  json_type v = type_str t.
Proof.
  intros Hc Ht Hv.
  destruct (runs_result _ _ _ _ _ _ (session_evaluate_runs session Hc e) Hv) as (c & x & Hx & -> & _).
  unfold expression_meaning in Hx. destruct (denote _ (ce_root e)) as [w|] eqn:Hw; [|done].
  pose proof (denote_typed _ _ _ Ht w Hw) as Hwt. destruct w; [..|done]; by injection Hx as ->.
Qed.

Lemma static_type_sound_witness :
  json_type (VBool true) = type_str TyBool ∧
  static_result_type (compiled_or_empty (compile_expression "1 < 2" CompilationLimits_default)) = Some TyBool.
Proof.
  split; [|vm_compute; reflexivity].
  apply (static_type_sound sample_session
    (compiled_or_empty (compile_expression "1 < 2" CompilationLimits_default)) sample_budget).
  - exact sample_good_context.
  - vm_compute. reflexivity.
  - vm_compute. reflexivity.
Defined.




(** A condition that compiles is not statically anything but a boolean,
    and when its static type is known it always evaluates to a boolean:
    [evaluate_bool] agrees with [evaluate] and never complains about the
    type of the result. *)
Theorem condition_boolean `{Externals} `{!ReaderLaws} session source field limits e b v :
  good_context (session_context session) →
  compile_condition_for source field limits = Ok e →
  (static_result_type e = None ∨ static_result_type e = Some TyBool) ∧
  (fst (session_evaluate session e b) = Ok v → static_result_type e = Some TyBool →
   ∃ t, v = VBool t ∧ fst (session_evaluate_bool session e b) = Ok t).
Proof.
  intros Hc He. split.
  - assert (∃ e0, require_boolean_condition e0 = Ok e) as [e0 Hreq].
    { unfold compile_condition_for in He. case_match; [done|]. case_match.
      - destruct (compile_template_for _ _ _) as [t|]; [|done]. cbn in He.
        repeat case_match; simplify_eq/=; eauto.
      - destruct (compile_expression_for _ _ _); [|done]. eauto. }
    unfold require_boolean_condition in Hreq. repeat case_match; simplify_eq/=; auto.
    right. assert (e1 = TyBool) as -> by by apply dec_stable. done.
  - intros Hv Ht. destruct (runs_result _ _ _ _ _ _ (session_evaluate_runs session Hc e) Hv) as (c & x & Hx & -> & _).
    unfold expression_meaning in Hx. destruct (denote _ (ce_root e)) as [w|] eqn:Hw; [|done].
    pose proof (denote_typed _ _ _ Ht w Hw) as Hwt.
    assert (∃ t, x = VBool t) as [t ->].
    { destruct w as [w|w|]; [..|done]; injection Hx as ->; destruct x; try done; eauto. }
    exists t. split; [done|]. unfold session_evaluate_bool, mbind, m_bind.
    destruct (session_evaluate session e b) as [o b']. cbn in Hv. by rewrite Hv.
Qed.

Definition sample_condition_text : string := " ${ inputs.n == 2 } ".
Definition sample_condition : CompiledExpression :=
  compiled_or_empty (compile_condition_for sample_condition_text "when" CompilationLimits_default).

Lemma condition_boolean_witness :
  static_result_type sample_condition = Some TyBool ∧
  ∃ t, VBool true = VBool t ∧ fst (session_evaluate_bool sample_session sample_condition sample_budget) = Ok t.
Proof.
  split; [vm_compute; reflexivity|].
  apply (condition_boolean sample_session sample_condition_text "when" CompilationLimits_default
    sample_condition sample_budget).
  - exact sample_good_context.
  - vm_compute. reflexivity.
  - vm_compute. reflexivity.
  - vm_compute. reflexivity.
Defined.

(** ** References *)

(** C24. The references collected when an expression is compiled are exactly
    the roots it mentions, and evaluation reads nothing else: in two contexts
    that agree on those roots a session gives the same outcome, value or
    error, and leaves the same budget. *)
Theorem references_complete `{Externals} source field limits e c c' l b :
  compile_expression_arc source field limits = Ok e →
  (∀ x, x ∈ roots (ce_references e) ↔ x ∈ variables (ce_root e)) ∧
  ((∀ x, x ∈ roots (ce_references e) → context_get c x = context_get c' x) →
   session_evaluate {| session_context := c; session_limits := l |} e b =
   session_evaluate {| session_context := c'; session_limits := l |} e b).
Proof.
  intros He. apply compile_expression_inv in He as [_ _ _ _ _ Hrefs].
  destruct (collect_variables (ce_root e)) as (set & Hset & Hroots). rewrite Hrefs in Hset.
  injection Hset as <-. split; [done|]. intros Hc.
  set (env := {| context := c; limits := l; eval_source := ce_source e; eval_field := ce_field e |}).
  assert (evaluate env (ce_root e) = evaluate (with_context env c') (ce_root e)) as Heval.
  { apply (evaluate_reads env c c'). intros x Hx. by apply Hc, Hroots. }
  unfold session_evaluate, evaluator. cbn [session_context session_limits]. fold env.
  change {| context := c'; limits := l; eval_source := ce_source e; eval_field := ce_field e |}
    with (with_context env c'). unfold mbind, m_bind. rewrite Heval. reflexivity.
Qed.

Definition sample_reference_expression : CompiledExpression :=
  compiled_or_empty (compile_expression "inputs[list[0]].name ?? inputs.n" CompilationLimits_default).

(** The same roots and one more, as an [EvaluationContext]. *)
Definition sample_roots : gmap string Value :=
  with_root (with_root (with_root context_new
    "inputs" (VObject [("n", VNumber (PosInt 2)); ("name", VString "ada")]%string))
    "list" (VArray [VNumber (PosInt 1); VNumber (PosInt 2)])) "other" VNull.

Lemma references_complete_witness :
  roots (ce_references sample_reference_expression) = ["inputs"; "list"]%string ∧
  session_evaluate sample_session sample_reference_expression sample_budget =
  session_evaluate (session_with_context sample_roots EvaluationLimits_default)
    sample_reference_expression sample_budget.
Proof.
  split; [vm_compute; reflexivity|].
  apply (references_complete "inputs[list[0]].name ?? inputs.n" None CompilationLimits_default
    sample_reference_expression (ContextValue sample_context) (ContextRoots sample_roots)).
  - vm_compute. reflexivity.
  - change (roots (ce_references sample_reference_expression)) with ["inputs"; "list"]%string.
    intros x [-> |[-> |[]%elem_of_nil]%elem_of_cons]%elem_of_cons; reflexivity.
Defined.

(** ** Templates *)

(** The scanner ends an embedded expression exactly at the first closing
    brace before which the text is balanced: brackets match, and brackets
    inside quoted strings, escapes included, do not count. *)
Theorem expression_end_exact source field c c' :
  find_expression_end source field c = Ok c' ↔
  ∃ t, reads c t c' ∧ balanced t ∧ first_byte (rest c') = Some 125.
Proof. apply find_expression_end_spec. Qed.

(** C21. A template compiles to exactly the pieces its source spells: [$${] is
    a literal [${], [${...}] is the compiled expression of the balanced text
    inside, every other character is literal text; the old interpolation
    syntax is rejected, adjacent literals are merged, and the template is a
    whole expression exactly when nothing surrounds its only expression. *)
Theorem template_exact source field limits t :
  0 ≤ max_expressions_per_template limits →
  compile source field limits = Ok t ↔
  ∃ pieces, len source ≤ max_template_bytes limits ∧ spelled field limits source pieces ∧
    embedded_count pieces ≤ max_expressions_per_template limits ∧ t = template_of source field pieces.
Proof. apply compile_spec. Qed.

Lemma template_exact_witness :
  ∃ pieces, len sample_template_text ≤ max_template_bytes CompilationLimits_default ∧
    spelled None CompilationLimits_default sample_template_text pieces ∧
    embedded_count pieces ≤ max_expressions_per_template CompilationLimits_default ∧
    sample_template = template_of sample_template_text None pieces.
Proof.
  apply (template_exact sample_template_text None CompilationLimits_default sample_template).
  - done.
  - vm_compute. reflexivity.
Defined.
