(* ===== verification/RuntimeJson.v ===== *)
(** * Incremental validation of runtime JSON

    [expression/runtime_json.rs]: the validators that measure an object
    whose entries are replaced over time and an array that grows, one value
    at a time, without measuring again what they already measured. *)

From S2P Require Import Prelude Float64 Json Numeric ExprSyntax Budget.

(** [for x in l { acc = f(acc, x)?; }] without other state. *)
Definition try_fold {E A B} (f : B → A → Result E B) : B → list A → Result E B :=
  fix go acc l :=
    match l with
    | [] => Ok acc
    | x :: l => acc ← f acc x ; go acc l
    end.

Record RuntimeJsonValueShape := Shape {
  shape_depth : Z;
  shape_nodes : Z;
  shape_bytes : Z;
}.

(** [RuntimeJsonValueShape::empty]. *)
Definition shape_empty : RuntimeJsonValueShape := Shape 0 0 0.

(** [BTreeMap::last_key_value], the key only. *)
Definition last_key (m : gmap Z Z) : option Z :=
  foldr (λ k last, match last with Some j => Some (Z.max k j) | None => Some k end) None
    (elements (dom m)).

(** [decrement_count]. *)
Definition decrement_count (counts : gmap Z Z) (key : Z) : gmap Z Z :=
  match counts !! key with
  | Some count => if 1 <? count then <[key := count - 1]> counts else delete key counts
  | None => counts
  end.

Record RuntimeJsonObjectBudget := {
  ob_limits : EvaluationLimits;
  ob_field : string;
  entries : gmap string RuntimeJsonValueShape;
  depth_counts : gmap Z Z;
  ob_nodes : Z;
  ob_bytes : Z;
}.

(** [RuntimeJsonObjectBudget::limit_error]. *)
Definition object_limit_error (field message : string) : Failure :=
  let source := "<runtime JSON object>" in
  Reported (error_new Limit (Some field) source (Span 0 (len source)) message).

(** [RuntimeJsonObjectBudget::check_shape]. *)
Definition check_shape (limits : EvaluationLimits) (field : string) (depth nodes bytes : Z) : Compiled unit :=
  if max_result_depth limits <? depth then
    Err (object_limit_error field "result exceeds JSON depth limit")
  else if max_result_nodes limits <? nodes then
    Err (object_limit_error field "result exceeds JSON node limit")
  else if max_result_bytes limits <? bytes then
    Err (object_limit_error field "result exceeds JSON byte limit")
  else Ok tt.

Section measure.
Context `{Externals} (limits : EvaluationLimits) (field : string).

(** [RuntimeJsonObjectBudget::measure_value_at]: the shape is threaded through. *)
Fixpoint measure_value_at (value : Value) (depth : Z) (shape : RuntimeJsonValueShape)
    : Compiled RuntimeJsonValueShape :=
  if max_result_depth limits <? depth then
    Err (object_limit_error field "result exceeds JSON depth limit")
  else
    let deepest := Z.max (shape_depth shape) depth in
    let nodes := saturating_add (shape_nodes shape) 1 in
    if max_result_nodes limits <? nodes then
      Err (object_limit_error field "result exceeds JSON node limit")
    else
      let with_bytes n := Shape deepest nodes (saturating_add (shape_bytes shape) n) in
      shape ←
        (match value with
         | VNull => Ok (with_bytes 4)
         | VBool value => Ok (with_bytes (if value : bool then 4 else 5))
         | VNumber value => Ok (with_bytes (len (number_to_string value)))
         | VString value =>
             if max_scalar_bytes limits <? len value then
               Err (object_limit_error field "string exceeds scalar byte limit")
             else Ok (with_bytes (json_string_bytes value))
         | VArray values =>
             if max_container_elements limits <? Z.of_nat (length values) then
               Err (object_limit_error field "container traversal element limit exceeded")
             else
               try_fold (λ shape value, measure_value_at value (saturating_add depth 1) shape)
                 (with_bytes (container_bytes values)) values
         | VObject values =>
             if max_container_elements limits <? Z.of_nat (length values) then
               Err (object_limit_error field "container traversal element limit exceeded")
             else
               try_fold (λ shape '(key, value),
                 if max_scalar_bytes limits <? len key then
                   Err (object_limit_error field "object key exceeds scalar byte limit")
                 else
                   let bytes := saturating_add (saturating_add (shape_bytes shape)
                     (json_string_bytes key)) 1 in
                   measure_value_at value (saturating_add depth 1)
                     (Shape (shape_depth shape) (shape_nodes shape) bytes))
                 (with_bytes (container_bytes values)) values
         end) ;
      if max_result_bytes limits <? shape_bytes shape then
        Err (object_limit_error field "result exceeds JSON byte limit")
      else Ok shape.

(** [RuntimeJsonObjectBudget::measure_value]. *)
Definition measure_value (value : Value) : Compiled RuntimeJsonValueShape :=
  measure_value_at value 1 shape_empty.

End measure.

(** [RuntimeJsonObjectBudget::prospective_deepest_child]. *)
Definition prospective_deepest_child (counts : gmap Z Z) (previous : option RuntimeJsonValueShape)
    (replacement : RuntimeJsonValueShape) : Z :=
  let current := default 0 (last_key counts) in
  if current <=? shape_depth replacement then shape_depth replacement
  else
    match previous with
    | None => current
    | Some previous =>
        if negb (shape_depth previous =? current) || (1 <? default 0 (counts !! current)) then current
        else
          match last_key (filter (λ kv, kv.1 < current) counts) with
          | Some depth => Z.max depth (shape_depth replacement)
          | None => shape_depth replacement
          end
    end.

Section object_budget.
Context `{Externals}.

Abbreviation Ob := (M RuntimeJsonObjectBudget Failure).

(** [RuntimeJsonObjectBudget::replace]. *)
Definition replace (key : string) (value : Value) : Ob unit :=
  self ← get ;
  let error := object_limit_error (ob_field self) in
  shape ← lift (measure_value (ob_limits self) (ob_field self) value) ;
  let previous := entries self !! key in
  let is_new := match previous with None => true | Some _ => false end in
  if max_scalar_bytes (ob_limits self) <? len key then
    throw (error "object key exceeds scalar byte limit")
  else if is_new && (max_container_elements (ob_limits self) <=? Z.of_nat (size (entries self))) then
    throw (error "container traversal element limit exceeded")
  else
    let previous_nodes := match previous with Some entry => shape_nodes entry | None => 0 end in
    nodes ← lift (ok_or
      (nodes ← checked_sub (ob_nodes self) previous_nodes ; checked_add nodes (shape_nodes shape))
      (error "result JSON node counter overflow")) ;
    let key_bytes := saturating_add (json_string_bytes key) 1 in
    let previous_bytes :=
      match previous with Some entry => saturating_add key_bytes (shape_bytes entry) | None => 0 end in
    bytes ← lift (ok_or
      (bytes ← checked_sub (ob_bytes self) previous_bytes ;
       bytes ← checked_add bytes key_bytes ;
       bytes ← checked_add bytes (shape_bytes shape) ;
       checked_add bytes (if is_new && negb (Nat.eqb (size (entries self)) 0) then 1 else 0))
      (error "result JSON byte counter overflow")) ;
    let deepest_child := prospective_deepest_child (depth_counts self) previous shape in
    let depth := Z.max (saturating_add deepest_child 1) 1 in
    lift (check_shape (ob_limits self) (ob_field self) depth nodes bytes) ;;
    let counts :=
      match previous with
      | Some previous => decrement_count (depth_counts self) (shape_depth previous)
      | None => depth_counts self
      end in
    put {|
      ob_limits := ob_limits self; ob_field := ob_field self;
      entries := <[key := shape]> (entries self);
      depth_counts := <[shape_depth shape := default 0 (counts !! shape_depth shape) + 1]> counts;
      ob_nodes := nodes; ob_bytes := bytes
    |}.

(** [RuntimeJsonObjectBudget::apply]. *)
Definition apply (value : Map.t) : Ob unit :=
  for_each (λ '(key, value), replace key value) value.

(** [RuntimeJsonObjectBudget::with_limits] and [from_object]. *)
Definition object_with_limits (value : Map.t) (field : string) (limits : EvaluationLimits)
    : Compiled RuntimeJsonObjectBudget :=
  let budget := {| ob_limits := limits; ob_field := field; entries := ∅; depth_counts := ∅;
                   ob_nodes := 1; ob_bytes := 2 |} in
  check_shape limits field 1 1 2 ;;
  let '(result, budget) := for_each (λ '(key, value), replace key value) value budget in
  result ;; Ok budget.
Definition from_object (value : Map.t) (field : string) : Compiled RuntimeJsonObjectBudget :=
  object_with_limits value field EvaluationLimits_default.

End object_budget.

Record RuntimeJsonArrayBudget := {
  ab_limits : EvaluationLimits;
  ab_field : string;
  ab_elements : Z;
  ab_nodes : Z;
  ab_bytes : Z;
}.

(** [RuntimeJsonArrayBudget::with_limits] and [new]. *)
Definition array_with_limits (field : string) (limits : EvaluationLimits) : RuntimeJsonArrayBudget :=
  {| ab_limits := limits; ab_field := field; ab_elements := 0; ab_nodes := 1; ab_bytes := 2 |}.
Definition array_new (field : string) : RuntimeJsonArrayBudget :=
  array_with_limits field EvaluationLimits_default.

(** [RuntimeJsonArrayBudget::limit_error]. *)
Definition array_limit_error (field source : string) (span : SourceSpan) (message : string) : Failure :=
  Reported (error_new Limit (Some field) source span message).

Section array_budget.
Context `{Externals}.

(** [RuntimeJsonArrayBudget::append]. *)
Definition append (value : Value) : M RuntimeJsonArrayBudget Failure unit :=
  self ← get ;
  let source := "<runtime JSON array>" in
  let span := Span 0 (len source) in
  let error := array_limit_error (ab_field self) source span in
  if max_result_depth (ab_limits self) <? 1 then throw (error "result exceeds JSON depth limit")
  else if max_container_elements (ab_limits self) <=? ab_elements self then
    throw (error "container traversal element limit exceeded")
  else
    let nodes := ab_nodes self in
    match checked_add (ab_bytes self) (if ab_elements self =? 0 then 0 else 1) with
    | None => throw (error "result JSON byte counter overflow")
    | Some bytes =>
        let env := {| context := ContextRoots ∅; limits := ab_limits self;
                      eval_source := source; eval_field := Some (ab_field self) |} in
        '(nodes, bytes) ←
          lift (fst (inspect_result env value 2 span (nodes, bytes) (budget_new (ab_limits self)))) ;
        put {| ab_limits := ab_limits self; ab_field := ab_field self;
               ab_elements := ab_elements self + 1; ab_nodes := nodes; ab_bytes := bytes |}
    end.

End array_budget.
