(* ===== verification/RuntimeJsonCorrect.v ===== *)
(** * Incremental validation measures the whole value

    The object validator accepts a replacement exactly when measuring the
    whole object again would accept it, and its counters are the measures of
    the object; the array validator accepts only arrays within the limits. *)

From S2P Require Import Prelude Float64 Json Numeric ExprSyntax Budget Denotation Refinement.
From S2P Require Import SessionCorrect Samples RuntimeJson.

(** ** Measuring one value *)

Section measured.
Context `{Externals} (l : EvaluationLimits) (field : string).

(** The limits are below the largest machine integer, so that a counter
    that saturates is over its limit. *)
Definition below_max : Prop :=
  max_result_depth l < usize_max ∧ max_result_nodes l < usize_max ∧ max_result_bytes l < usize_max.

(** Every string and key is within the scalar limit and every container
    within the element limit. *)
Fixpoint small (v : Value) : Prop :=
  match v with
  | VNull | VBool _ | VNumber _ => True
  | VString s => len s ≤ max_scalar_bytes l
  | VArray vs =>
      Z.of_nat (length vs) ≤ max_container_elements l ∧
      (fix go vs := match vs with [] => True | v :: vs => small v ∧ go vs end) vs
  | VObject m =>
      Z.of_nat (length m) ≤ max_container_elements l ∧
      (fix go m := match m with [] => True | (k, v) :: m => (len k ≤ max_scalar_bytes l ∧ small v) ∧ go m end) m
  end.
Definition small_entry (kv : string * Value) : Prop := len kv.1 ≤ max_scalar_bytes l ∧ small kv.2.

Lemma small_array vs :
  small (VArray vs) ↔ Z.of_nat (length vs) ≤ max_container_elements l ∧ ∀ v, v ∈ vs → small v.
Proof.
  cbn. apply and_iff_compat_l. induction vs as [|v vs IH]; [split; [intros _ ? []%not_elem_of_nil|done]|].
  rewrite IH. setoid_rewrite elem_of_cons. naive_solver.
Qed.
Lemma small_object m :
  small (VObject m) ↔ Z.of_nat (length m) ≤ max_container_elements l ∧ ∀ kv, kv ∈ m → small_entry kv.
Proof.
  cbn. apply and_iff_compat_l. induction m as [|[k v] m IH]; [split; [intros _ ? []%not_elem_of_nil|done]|].
  rewrite IH. setoid_rewrite elem_of_cons. unfold small_entry. naive_solver.
Qed.

(** The shape after a value measured at depth [d]. *)
Definition grow (d : Z) (s : RuntimeJsonValueShape) (depth nodes bytes : Z) : RuntimeJsonValueShape :=
  Shape (Z.max (shape_depth s) (d + depth - 1)) (shape_nodes s + nodes)
    (Z.min (shape_bytes s + bytes) usize_max).

(** [r] is the shape [s] grown, and fails exactly when a limit is passed. *)
Definition measures (r : Compiled RuntimeJsonValueShape) (d : Z) (s : RuntimeJsonValueShape)
    (depth nodes bytes : Z) (ok : Prop) : Prop :=
  let fits := d + depth - 1 ≤ max_result_depth l ∧ shape_nodes s + nodes ≤ max_result_nodes l ∧ ok in
  match r with
  | Ok s' => s' = grow d s depth nodes bytes ∧ fits
  | Err f => is_limit f ∧ ¬ (fits ∧ shape_bytes s + bytes ≤ max_result_bytes l)
  end.

Definition shape_ok (s : RuntimeJsonValueShape) : Prop :=
  0 ≤ shape_nodes s ∧ 0 ≤ shape_bytes s ≤ usize_max.

Lemma grow_ok d s depth nodes bytes :
  0 ≤ nodes → 0 ≤ bytes → shape_ok s → shape_ok (grow d s depth nodes bytes).
Proof. intros ?? [? ?]. unfold shape_ok. cbn. unfold usize_max in *. lia. Qed.

(** A loop over the parts of a container at depth [d]. *)
Lemma try_fold_measures {X} (step : RuntimeJsonValueShape → X → Compiled RuntimeJsonValueShape)
    (depth nodes bytes : X → Z) (ok : X → Prop) d xs s :
  (∀ x, x ∈ xs → 0 ≤ nodes x ∧ 0 ≤ bytes x) →
  (∀ x s, x ∈ xs → shape_ok s → measures (step s x) (d + 1) s (depth x) (nodes x) (bytes x) (ok x)) →
  shape_ok s → d ≤ shape_depth s → shape_nodes s ≤ max_result_nodes l → d ≤ max_result_depth l →
  measures (try_fold step s xs) d s (1 + foldr (λ x, Z.max (depth x)) 0 xs)
    (foldr (λ x, Z.add (nodes x)) 0 xs) (foldr (λ x, Z.add (bytes x)) 0 xs) (∀ x, x ∈ xs → ok x).
Proof.
  intros Hpos Hstep. revert s. induction xs as [|x xs IH]; intros s Hs Hd Hn Hdl.
  { cbn. split; [|split_and!; [lia|lia|by intros ? ?%not_elem_of_nil]].
    destruct s; unfold grow; cbn in *. destruct Hs as [_ Hs]. cbn in Hs. f_equal; lia. }
  assert (0 ≤ foldr (λ x, Z.add (bytes x)) 0 xs ∧ 0 ≤ foldr (λ x, Z.add (nodes x)) 0 xs
          ∧ 0 ≤ foldr (λ x, Z.max (depth x)) 0 xs) as (Hb0 & Hn0 & Hd0).
  { clear -Hpos. induction xs as [|y xs IHxs]; cbn; [done|].
    destruct (Hpos y ltac:(by right; left)) as [? ?].
    destruct IHxs as (? & ? & ?); [intros z [->|Hz]%elem_of_cons; apply Hpos; [by left|by right; right]|].
    lia. }
  destruct (Hpos x ltac:(by left)) as [Hnx Hbx].
  cbn [try_fold foldr]. pose proof (Hstep x s ltac:(by left) Hs) as Hx.
  destruct (step s x) as [s'|f]; cbn in Hx |- *.
  - destruct Hx as [-> (Hd' & Hn' & Hok)].
    specialize (IH ltac:(intros; apply Hpos; by right) ltac:(intros; apply Hstep; [by right|done]) (grow (d + 1) s (depth x) (nodes x) (bytes x))).
    specialize (IH ltac:(by apply grow_ok) ltac:(cbn; lia) ltac:(cbn; lia) Hdl).
    unfold measures in *. cbv zeta in *.
    destruct (try_fold step _ xs) as [s'|f].
    + destruct IH as [-> (? & ? & ?)]. cbn in *. split; [unfold grow; cbn; f_equal; lia|].
      split_and!; [lia|lia|]. intros y [->|Hy]%elem_of_cons; auto.
    + destruct IH as [? Hno]. split; [done|]. intros [(? & ? & Hall) ?]. apply Hno. cbn.
      split_and!; [lia|lia|intros; apply Hall; by right|lia].
  - destruct Hx as [? Hno]. split; [done|]. intros [(? & ? & Hall) ?]. apply Hno.
    split_and!; [lia|lia|apply Hall; by left|lia].
Qed.

(** The checks before and after the parts of a value. *)
Lemma measures_final r d s depth nodes bytes ok :
  below_max → 0 ≤ bytes → shape_ok s → measures r d s depth nodes bytes ok →
  let r' := s' ← r ; if max_result_bytes l <? shape_bytes s' then
      Err (object_limit_error field "result exceeds JSON byte limit") else Ok s' in
  measures r' d s depth nodes bytes (ok ∧ shape_bytes s + bytes ≤ max_result_bytes l).
Proof.
  intros (_ & _ & Hmax) Hb [_ Hs] Hr. cbv zeta. unfold measures in *. cbv zeta in *.
  destruct r as [s'|f]; cbn in *; [|split; [tauto|]; tauto]. destruct Hr as [-> Hfit]. cbn.
  destruct (Z.ltb_spec (max_result_bytes l) (Z.min (shape_bytes s + bytes) usize_max)).
  - split; [by eexists|]. lia.
  - split; [done|]. split_and!; [tauto..|lia].
Qed.
Lemma measures_leaf s d m n (ok : Prop) :
  below_max → shape_ok s → d ≤ max_result_depth l → shape_nodes s + 1 ≤ max_result_nodes l → 0 ≤ n →
  0 ≤ m → Z.min m usize_max = Z.min n usize_max → ok →
  measures (Ok (Shape (Z.max (shape_depth s) d) (saturating_add (shape_nodes s) 1)
    (saturating_add (shape_bytes s) m))) d s 1 1 n ok.
Proof.
  intros (_ & Hmax & _) [? ?] ????? Hok. split; [|split_and!; [lia|lia|done]].
  unfold grow, saturating_add in *. f_equal; lia.
Qed.

Lemma depths_nonneg {X} (f : X → Z) xs : 0 ≤ foldr (λ x, Z.max (f x)) 0 xs.
Proof. induction xs; cbn; lia. Qed.
Lemma depth_pos v : 1 ≤ value_depth v.
Proof.
  destruct v as [| | | |vs|m]; try done.
  - rewrite value_depth_array. pose proof (depths_nonneg value_depth vs). lia.
  - rewrite value_depth_object. pose proof (depths_nonneg (λ kv, value_depth kv.2) m). lia.
Qed.
Lemma measures_guards r d s v ok :
  below_max → shape_ok s →
  (d ≤ max_result_depth l → shape_nodes s + 1 ≤ max_result_nodes l →
   measures r d s (value_depth v) (node_count v) (len (serialize v)) ok) →
  measures (if max_result_depth l <? d then Err (object_limit_error field "result exceeds JSON depth limit")
            else if max_result_nodes l <? saturating_add (shape_nodes s) 1
            then Err (object_limit_error field "result exceeds JSON node limit") else r)
    d s (value_depth v) (node_count v) (len (serialize v)) ok.
Proof.
  intros (_ & Hmax & _) [Hn _] Hr. pose proof (depth_pos v). pose proof (node_count_pos v).
  destruct (Z.ltb_spec (max_result_depth l) d); [split; [by eexists|]; lia|].
  unfold saturating_add. destruct (Z.ltb_spec (max_result_nodes l) (Z.min (shape_nodes s + 1) usize_max));
    [split; [by eexists|]; lia|].
  apply Hr; lia.
Qed.
(** A container whose loop starts with the brackets and commas counted. *)
Lemma measures_container {X} r d s (xs : list X) depth nodes bytes (ok : Prop) :
  below_max → shape_ok s → 0 ≤ bytes → d ≤ max_result_depth l → shape_nodes s + 1 ≤ max_result_nodes l →
  (let s' := Shape (Z.max (shape_depth s) d) (saturating_add (shape_nodes s) 1)
    (saturating_add (shape_bytes s) (container_bytes xs)) in
   shape_ok s' → d ≤ shape_depth s' → shape_nodes s' ≤ max_result_nodes l →
   measures r d s' (1 + depth) nodes bytes ok) → 0 ≤ depth →
  measures (if max_container_elements l <? Z.of_nat (length xs)
            then Err (object_limit_error field "container traversal element limit exceeded") else r)
    d s (1 + depth) (1 + nodes) (2 + Z.max (Z.of_nat (length xs) - 1) 0 + bytes)
    (Z.of_nat (length xs) ≤ max_container_elements l ∧ ok).
Proof.
  intros (_ & Hmax & _) [Hn Hs] Hb Hd Hnn Hr Hdep.
  destruct (Z.ltb_spec (max_container_elements l) (Z.of_nat (length xs))); [split; [by eexists|]; lia|].
  cbv zeta in Hr. rewrite container_bytes_eq in Hr. unfold saturating_add in Hr.
  specialize (Hr ltac:(unfold shape_ok; cbn; unfold usize_max in *; lia) ltac:(cbn; lia) ltac:(cbn; lia)).
  unfold measures in *. cbv zeta in *. destruct r as [s'|f]; cbn in *.
  - destruct Hr as [-> (? & ? & ?)]. split; [unfold grow; cbn; f_equal; lia|]. split_and!; [lia|lia|done|done].
  - destruct Hr as [? Hno]. split; [done|]. intros [(? & ? & ? & ?) ?]. apply Hno. split_and!; [lia|lia|done|lia].
Qed.

Lemma sum_list_nonneg {X} (f : X → Z) xs : (∀ x, 0 ≤ f x) → 0 ≤ foldr (λ x, Z.add (f x)) 0 xs.
Proof. intros Hf. induction xs as [|x xs IH]; cbn; [done|]. specialize (Hf x). lia. Qed.
Lemma lens_fmap {X} (f : X → string) xs : lens (f <$> xs) = foldr (λ x, Z.add (len (f x))) 0 xs.
Proof. induction xs as [|x xs IH]; cbn; [done|]. unfold lens in *. by rewrite IH. Qed.
Lemma measures_ok_iff r d s depth nodes bytes (ok ok' : Prop) :
  (ok ↔ ok') → measures r d s depth nodes bytes ok → measures r d s depth nodes bytes ok'.
Proof. intros Hok. unfold measures. cbv zeta. destruct r; tauto. Qed.

Lemma measures_drop r d s depth nodes bytes (ok : Prop) :
  measures r d s depth nodes bytes (ok ∧ shape_bytes s + bytes ≤ max_result_bytes l) →
  measures r d s depth nodes bytes ok.
Proof. unfold measures. cbv zeta. destruct r; tauto. Qed.

Lemma len_entry_text k v : len (entry_text (k, v)) = len (json_string k) + 1 + len (serialize v).
Proof. unfold entry_text. cbn [fst snd]. rewrite !len_append. change (len ":") with 1. lia. Qed.

(** An entry of an object: its key, then its value. *)
Lemma measures_entry (r : RuntimeJsonValueShape → Compiled RuntimeJsonValueShape) d s k v :
  shape_ok s →
  (∀ s, shape_ok s → measures (r s) d s (value_depth v) (node_count v) (len (serialize v)) (small v)) →
  measures
    (if max_scalar_bytes l <? len k then Err (object_limit_error field "object key exceeds scalar byte limit")
     else r (Shape (shape_depth s) (shape_nodes s)
       (saturating_add (saturating_add (shape_bytes s) (json_string_bytes k)) 1)))
    d s (value_depth v) (node_count v) (len (entry_text (k, v))) (small_entry (k, v)).
Proof.
  intros Hs Hr. unfold small_entry. cbn [fst snd].
  destruct (Z.ltb_spec (max_scalar_bytes l) (len k)); [split; [by eexists|]; lia|].
  pose proof (len_nonneg (json_string k)). rewrite len_entry_text, json_string_bytes_len.
  unfold saturating_add.
  specialize (Hr (Shape (shape_depth s) (shape_nodes s)
    (Z.min (Z.min (shape_bytes s + Z.min (len (json_string k)) usize_max) usize_max + 1) usize_max))).
  destruct Hs as [? ?]. specialize (Hr ltac:(unfold shape_ok; cbn; unfold usize_max in *; lia)).
  pose proof (len_nonneg (serialize v)).
  unfold measures in *. cbv zeta in *. destruct (r _) as [s'|f]; cbn in *.
  - destruct Hr as [-> (? & ? & ?)]. split; [unfold grow; cbn; f_equal; lia|]. done.
  - destruct Hr as [? Hno]. split; [done|]. intros [(? & ? & ? & ?) ?]. apply Hno. split_and!; try done; lia.
Qed.

Lemma measure_at v d s :
  below_max → shape_ok s → 0 ≤ d →
  measures (measure_value_at l field v d s) d s (value_depth v) (node_count v) (len (serialize v))
    (small v ∧ shape_bytes s + len (serialize v) ≤ max_result_bytes l).
Proof.
  intros Hmax. pose proof Hmax as (Hmd & Hmn & Hmb).
  revert d s. induction v as [|b|num|str|vs IH|m IH] using Value_ind; intros d s Hs Hd; cbn [measure_value_at];
    (apply measures_guards; [done|done|]; intros Hdl Hnl);
    (apply measures_final; [done|apply len_nonneg|done|]).
  - by apply measures_leaf.
  - by destruct b; apply measures_leaf.
  - apply measures_leaf; try done; apply len_nonneg.
  - destruct (Z.ltb_spec (max_scalar_bytes l) (len str)).
    + split; [by eexists|]. cbn [small]. lia.
    + pose proof (len_nonneg (json_string str)). rewrite json_string_bytes_len.
      apply (measures_leaf s d _ (len (json_string str))); try done; unfold usize_max; lia.
  - rewrite Forall_forall in IH. rewrite value_depth_array, node_count_array, len_serialize_array, lens_fmap.
    eapply measures_ok_iff; [symmetry; apply small_array|].
    apply measures_container; try done; [by apply sum_list_nonneg; intros; apply len_nonneg| |apply depths_nonneg].
    cbv zeta. intros Hs' Hd' Hn'.
    apply (try_fold_measures _ value_depth node_count (λ v, len (serialize v)) small); try done.
    + intros x _. pose proof (node_count_pos x). pose proof (len_nonneg (serialize x)). lia.
    + intros x s0 Hx Hs0. unfold saturating_add. rewrite Z.min_l by lia. apply measures_drop, IH; [done..|lia].
  - rewrite Forall_forall in IH. rewrite value_depth_object, node_count_object, len_serialize_object, lens_fmap.
    eapply measures_ok_iff; [symmetry; apply small_object|].
    apply measures_container; try done; [by apply sum_list_nonneg; intros; apply len_nonneg| |apply depths_nonneg].
    cbv zeta. intros Hs' Hd' Hn'.
    apply (try_fold_measures _ (λ kv, value_depth kv.2) (λ kv, node_count kv.2) (λ kv, len (entry_text kv))
      small_entry); try done.
    + intros x _. pose proof (node_count_pos x.2). pose proof (len_nonneg (entry_text x)). lia.
    + intros [k v] s0 Hx Hs0. apply measures_entry; try done. intros s1 Hs1.
      unfold saturating_add. rewrite Z.min_l by lia. apply measures_drop, (IH (k, v)); [done..|lia].
Qed.
End measured.

(** ** The object validator *)

(** Insertion into a sorted object replaces the entry of the key, or adds one. *)
Lemma insert_split k v m :
  Map.sorted m →
  (∃ w m1 m2, Map.get k m = Some w ∧ m = m1 ++ (k, w) :: m2 ∧ Map.insert k v m = m1 ++ (k, v) :: m2) ∨
  (∃ m1 m2, Map.get k m = None ∧ m = m1 ++ m2 ∧ Map.insert k v m = m1 ++ (k, v) :: m2).
Proof.
  induction m as [|[k0 v0] m IH]; intros Hs; [right; by exists [], []|].
  inversion Hs as [|?? Hs' Hall]; subst. cbn [Map.insert Map.get].
  destruct (String.compare k k0) eqn:Hc.
  - apply String.compare_eq_iff in Hc as ->. left. exists v0, [], m. by rewrite decide_True.
  - right. exists [], ((k0, v0) :: m). rewrite decide_False by (intros ->; by rewrite string_compare_refl in Hc).
    split_and!; [|done..]. apply MapFacts.get_None. intros Hin.
    rewrite Forall_forall in Hall. specialize (Hall k Hin). cbn in Hall.
    rewrite String.compare_antisym, Hc in Hall. done.
  - rewrite decide_False by (intros ->; by rewrite string_compare_refl in Hc).
    destruct (IH Hs') as [(w & m1 & m2 & -> & -> & ->)|(m1 & m2 & -> & -> & ->)].
    + left. by exists w, ((k0, v0) :: m1), m2.
    + right. by exists ((k0, v0) :: m1), m2.
Qed.

Section tracked.
Context `{Externals}.

(** The shape of a value measured on its own. *)
Definition shape_of (v : Value) : RuntimeJsonValueShape :=
  Shape (value_depth v) (node_count v) (len (serialize v)).

(** What measuring a whole value accepts. *)
Definition admissible (l : EvaluationLimits) (v : Value) : Prop :=
  value_depth v ≤ max_result_depth l ∧ node_count v ≤ max_result_nodes l ∧
  len (serialize v) ≤ max_result_bytes l ∧ small l v.

Lemma measure_value_exact l field v :
  below_max l →
  match measure_value l field v with
  | Ok s => s = shape_of v ∧ admissible l v
  | Err f => is_limit f ∧ ¬ admissible l v
  end.
Proof.
  intros Hmax. pose proof (measure_at l field v 1 shape_empty Hmax) as Hm.
  specialize (Hm ltac:(unfold shape_ok; cbn; unfold usize_max; lia) ltac:(lia)).
  unfold measure_value, measures in *. cbv zeta in Hm. destruct (measure_value_at l field v 1 shape_empty) as [s|f].
  - destruct Hm as [-> (Hd & Hn & Hs & Hb)]. cbn in *. destruct Hmax as (_ & _ & Hmax).
    pose proof (depth_pos v). split; [unfold grow, shape_of; cbn; f_equal; lia|].
    split_and!; [lia|lia|lia|done].
  - destruct Hm as [? Hno]. split; [done|]. intros (? & ? & ? & ?). apply Hno. cbn. split_and!; try done; lia.
Qed.

(** How many entries have depth [d]. *)
Fixpoint count_depth (d : Z) (m : Map.t) : Z :=
  match m with
  | [] => 0
  | (_, v) :: m => (if decide (value_depth v = d) then 1 else 0) + count_depth d m
  end.
Definition deepest (m : Map.t) : Z := foldr (λ kv, Z.max (value_depth kv.2)) 0 m.

Definition counted (counts : gmap Z Z) (m : Map.t) : Prop :=
  ∀ d, counts !! d = if decide (count_depth d m = 0) then None else Some (count_depth d m).

(** The budget is the measure of the object [m], and [m] is within the limits. *)
Record tracks (b : RuntimeJsonObjectBudget) (m : Map.t) : Prop := {
  tracks_sorted : Map.sorted m;
  tracks_entries k : entries b !! k = shape_of <$> Map.get k m;
  tracks_size : size (entries b) = length m;
  tracks_counts : counted (depth_counts b) m;
  tracks_nodes : ob_nodes b = node_count (VObject m);
  tracks_bytes : ob_bytes b = len (serialize (VObject m));
  tracks_admissible : admissible (ob_limits b) (VObject m);
}.

Lemma count_nonneg d m : 0 ≤ count_depth d m.
Proof. induction m as [|[k v] m IH]; cbn; [done|]. case_decide; lia. Qed.
Lemma count_app d m m' : count_depth d (m ++ m') = count_depth d m + count_depth d m'.
Proof. induction m as [|[k v] m IH]; cbn; [done|]. rewrite IH. lia. Qed.
Lemma count_here k w m1 m2 :
  count_depth (value_depth w) (m1 ++ (k, w) :: m2) =
  count_depth (value_depth w) m1 + 1 + count_depth (value_depth w) m2.
Proof. rewrite count_app. cbn [count_depth]. rewrite decide_True by done. lia. Qed.
Lemma count_pos d m : 0 < count_depth d m ↔ ∃ kv, kv ∈ m ∧ value_depth kv.2 = d.
Proof.
  induction m as [|[k v] m IH]; cbn; [split; [lia|intros (? & []%not_elem_of_nil & _)]|].
  pose proof (count_nonneg d m). case_decide.
  - split; [intros _; exists (k, v); split; [by left|done]|lia].
  - rewrite Z.add_0_l, IH. setoid_rewrite elem_of_cons. split; [naive_solver|].
    intros (? & [->|?] & ?); naive_solver.
Qed.
Lemma deepest_app m m' : deepest (m ++ m') = Z.max (deepest m) (deepest m').
Proof.
  unfold deepest. induction m as [|kv m IH]; cbn; [|rewrite IH; lia].
  pose proof (depths_nonneg (λ kv, value_depth kv.2) m'). lia.
Qed.
Lemma deepest_nonneg m : 0 ≤ deepest m.
Proof. apply depths_nonneg. Qed.
Lemma deepest_bound m d : 0 ≤ d → deepest m ≤ d ↔ ∀ kv, kv ∈ m → value_depth kv.2 ≤ d.
Proof.
  intros Hd. induction m as [|kv m IH]; cbn; [split; [intros _ ? []%not_elem_of_nil|done]|].
  fold (deepest m). setoid_rewrite elem_of_cons. rewrite Z.max_lub_iff, IH. naive_solver.
Qed.
Lemma deepest_attained m : m ≠ [] → ∃ kv, kv ∈ m ∧ value_depth kv.2 = deepest m.
Proof.
  induction m as [|kv [|kv' m] IH]; intros Hm; [done|..].
  - exists kv. split; [by left|]. cbn. pose proof (depth_pos kv.2). lia.
  - destruct IH as (kw & Hin & Hd); [done|]. change (deepest (kv :: kv' :: m)) with
      (Z.max (value_depth kv.2) (deepest (kv' :: m))).
    destruct (Z.le_ge_cases (value_depth kv.2) (deepest (kv' :: m))).
    + exists kw. split; [by right|lia].
    + exists kv. split; [by left|lia].
Qed.

Lemma last_key_spec (c : gmap Z Z) :
  match last_key c with
  | Some k => is_Some (c !! k) ∧ ∀ j, is_Some (c !! j) → j ≤ k
  | None => ∀ j, c !! j = None
  end.
Proof.
  unfold last_key.
  assert (∀ j, j ∈ elements (dom c) ↔ is_Some (c !! j)) as Hdom by (intros; by rewrite elem_of_elements, elem_of_dom).
  assert (∀ ks : list Z,
    match foldr (λ k last, match last with Some j => Some (Z.max k j) | None => Some k end) None ks with
    | Some k => k ∈ ks ∧ ∀ j, j ∈ ks → j ≤ k
    | None => ks = []
    end) as Hmax.
  { induction ks as [|k ks IH]; cbn; [done|]. case_match.
    - destruct IH as [Hin Hle]. split.
      + rewrite elem_of_cons. destruct (Z.max_spec k z) as [[_ ->]|[_ ->]]; auto.
      + intros j [->|Hj]%elem_of_cons; [lia|]. specialize (Hle j Hj). lia.
    - subst ks. split; [by left|]. intros j [->|[]%not_elem_of_nil]%elem_of_cons. done. }
  specialize (Hmax (elements (dom c))). case_match.
  - setoid_rewrite Hdom in Hmax. done.
  - intros j. apply eq_None_not_Some. rewrite <- Hdom, Hmax. apply not_elem_of_nil.
Qed.

Lemma counted_lookup c m d : counted c m → is_Some (c !! d) ↔ ∃ kv, kv ∈ m ∧ value_depth kv.2 = d.
Proof.
  intros Hc. rewrite (Hc d), <- count_pos. pose proof (count_nonneg d m).
  case_decide; split; intros Hx; try lia; [by destruct Hx|eauto].
Qed.
Lemma counted_last c m : counted c m → default 0 (last_key c) = deepest m.
Proof.
  intros Hc. pose proof (last_key_spec c) as Hk. destruct (last_key c) as [k|]; cbn.
  - destruct Hk as [(kv & Hin & <-)%(counted_lookup c m k Hc) Hle].
    pose proof (depth_pos kv.2).
    apply Z.le_antisymm; [apply (proj1 (deepest_bound m _ (deepest_nonneg m)) ltac:(lia) kv Hin)|].
    apply deepest_bound; [lia|]. intros kw Hkw. apply Hle, (counted_lookup c m _ Hc). eauto.
  - destruct m as [|kv m]; [done|]. assert (is_Some (c !! value_depth kv.2)) as [x Hx].
    { apply (counted_lookup _ _ _ Hc). exists kv. split; [by left|done]. }
    by rewrite Hk in Hx.
Qed.
(** The deepest entry below the depth [d] of one entry, when no other reaches it. *)
Lemma counted_below c k w m1 m2 d :
  counted c (m1 ++ (k, w) :: m2) → value_depth w = d → deepest (m1 ++ m2) < d →
  default 0 (last_key (filter (λ kv, kv.1 < d) c)) = deepest (m1 ++ m2).
Proof.
  intros Hc Hw Hlt. pose proof (last_key_spec (filter (λ kv, kv.1 < d) c)) as Hk.
  assert (∀ j, is_Some (filter (λ kv, kv.1 < d) c !! j) ↔ ∃ kv, kv ∈ m1 ++ m2 ∧ value_depth kv.2 = j) as Hj.
  { intros j. split.
    - intros [x [Hx Hlt']%map_lookup_filter_Some]. cbn in Hlt'.
      destruct (proj1 (counted_lookup c _ j Hc) ltac:(eauto)) as (kv & Hin & Hd).
      exists kv. split; [|done]. apply elem_of_app in Hin as [?|[->|?]%elem_of_cons];
        [apply elem_of_app; auto|cbn in Hd; lia|apply elem_of_app; auto].
    - intros (kv & Hin & Hd). destruct (proj2 (counted_lookup c _ j Hc)) as [x Hx].
      { exists kv. split; [|done]. apply elem_of_app in Hin as [?|?]; apply elem_of_app; [auto|right; by right]. }
      exists x. apply map_lookup_filter_Some. split; [done|]. cbn.
      pose proof (proj1 (deepest_bound _ _ (deepest_nonneg _)) (Z.le_refl _) kv Hin). lia. }
  destruct (last_key _) as [j|]; cbn.
  - destruct Hk as [Hin Hle]. apply Hj in Hin as (kv & Hin & <-). pose proof (depth_pos kv.2).
    apply Z.le_antisymm; [apply (proj1 (deepest_bound _ _ (deepest_nonneg _)) (Z.le_refl _) kv Hin)|].
    apply deepest_bound; [lia|]. intros kw Hkw. apply Hle, Hj. eauto.
  - destruct (m1 ++ m2) as [|kv m] eqn:Hm; [done|]. destruct (proj2 (Hj (value_depth kv.2))) as [x Hx].
    { exists kv. split; [by left|done]. }
    by rewrite Hk in Hx.
Qed.

Lemma prospective_exact c m k v :
  Map.sorted m → counted c m →
  prospective_deepest_child c (shape_of <$> Map.get k m) (shape_of v) = deepest (Map.insert k v m).
Proof.
  intros Hs Hc. unfold prospective_deepest_child. rewrite (counted_last c m Hc). cbn [shape_depth shape_of].
  destruct (insert_split k v m Hs) as [(w & m1 & m2 & -> & -> & ->)|(m1 & m2 & -> & -> & ->)];
    cbn [fmap option_fmap option_map]; rewrite !deepest_app in *;
    change (deepest ((k, v) :: m2)) with (Z.max (value_depth v) (deepest m2)).
  - change (deepest ((k, w) :: m2)) with (Z.max (value_depth w) (deepest m2)).
    destruct (Z.leb_spec (Z.max (deepest m1) (Z.max (value_depth w) (deepest m2))) (value_depth v)); [lia|].
    cbn [shape_depth shape_of].
    destruct (Z.eqb_spec (value_depth w) (Z.max (deepest m1) (Z.max (value_depth w) (deepest m2)))) as [Hw|];
      cbn [negb orb]; [|lia].
    rewrite <- Hw, (Hc (value_depth w)), count_here.
    pose proof (count_nonneg (value_depth w) m1). pose proof (count_nonneg (value_depth w) m2).
    rewrite decide_False by lia. cbn [default from_option]. unfold id.
    destruct (Z.ltb_spec 1 (count_depth (value_depth w) m1 + 1 + count_depth (value_depth w) m2)) as [Hgt|Hle].
    + destruct (proj1 (count_pos (value_depth w) (m1 ++ m2))) as (kv & Hin & Hd); [rewrite count_app; lia|].
      pose proof (proj1 (deepest_bound _ _ (deepest_nonneg _)) (Z.le_refl _) kv Hin).
      rewrite deepest_app in *. lia.
    + assert (deepest (m1 ++ m2) < value_depth w) as Hlt.
      { apply Z.nle_gt. intros Hge. rewrite deepest_app in Hge.
        destruct (deepest_attained (m1 ++ m2)) as (kv & Hin & Hd).
        { intros [-> ->]%app_eq_nil. cbn in Hge. pose proof (depth_pos w). lia. }
        rewrite deepest_app in Hd.
        assert (0 < count_depth (value_depth w) (m1 ++ m2)); [|rewrite count_app in *; lia].
        apply count_pos. exists kv. split; [done|lia]. }
      pose proof (counted_below c k w m1 m2 (value_depth w) Hc eq_refl Hlt) as Hb.
      rewrite deepest_app in *. pose proof (deepest_nonneg m1). pose proof (depth_pos v).
      destruct (last_key _); cbn in Hb; lia.
  - case_match; lia.
Qed.

Lemma count_cons_app d k v m1 m2 :
  count_depth d (m1 ++ (k, v) :: m2) =
  (if decide (value_depth v = d) then 1 else 0) + count_depth d (m1 ++ m2).
Proof. rewrite !count_app. cbn [count_depth]. lia. Qed.
Lemma decrement_counted c k w m1 m2 :
  counted c (m1 ++ (k, w) :: m2) → counted (decrement_count c (value_depth w)) (m1 ++ m2).
Proof.
  intros Hc d. unfold decrement_count. rewrite (Hc (value_depth w)), count_cons_app, (decide_True (P := value_depth w = value_depth w)) by done.
  pose proof (count_nonneg (value_depth w) (m1 ++ m2)). rewrite decide_False by lia.
  destruct (Z.ltb_spec 1 (1 + count_depth (value_depth w) (m1 ++ m2))).
  - destruct (decide (value_depth w = d)) as [<-|Hne].
    + rewrite lookup_insert_eq, decide_False by lia. f_equal. lia.
    + rewrite lookup_insert_ne, (Hc d), count_cons_app, (decide_False (P := value_depth w = d)) by done. done.
  - destruct (decide (value_depth w = d)) as [<-|Hne].
    + rewrite lookup_delete_eq, decide_True by lia. done.
    + rewrite lookup_delete_ne, (Hc d), count_cons_app, (decide_False (P := value_depth w = d)) by done. done.
Qed.
Lemma increment_counted c k v m1 m2 :
  counted c (m1 ++ m2) →
  counted (<[value_depth v := default 0 (c !! value_depth v) + 1]> c) (m1 ++ (k, v) :: m2).
Proof.
  intros Hc d. rewrite count_cons_app. destruct (decide (value_depth v = d)) as [<-|Hne].
  - pose proof (count_nonneg (value_depth v) (m1 ++ m2)). rewrite lookup_insert_eq, decide_False by lia.
    rewrite (Hc (value_depth v)). f_equal. case_decide; cbn; unfold id; lia.
  - rewrite lookup_insert_ne by done. apply Hc.
Qed.

(** The measures of an object around one entry. *)
Lemma nodes_around k v m1 m2 :
  node_count (VObject (m1 ++ (k, v) :: m2)) = node_count v + node_count (VObject (m1 ++ m2)).
Proof.
  rewrite !node_count_object. induction m1 as [|kv m1 IH]; cbn; lia.
Qed.
Lemma lens_app xs ys : lens (xs ++ ys) = lens xs + lens ys.
Proof. induction xs; cbn; unfold lens in *; lia. Qed.
Lemma bytes_around k v m1 m2 :
  len (serialize (VObject (m1 ++ (k, v) :: m2))) =
  len (serialize (VObject (m1 ++ m2))) + len (json_string k) + 1 + len (serialize v) +
  (if decide (m1 ++ m2 = []) then 0 else 1).
Proof.
  rewrite !len_serialize_object, !fmap_app, !lens_app. cbn [fmap list_fmap].
  change (lens (entry_text (k, v) :: ?xs)) with (len (entry_text (k, v)) + lens xs).
  rewrite len_entry_text, !length_app. cbn [length].
  case_decide as Hm; [apply app_eq_nil in Hm as [-> ->]; cbn; lia|].
  assert (0 < length m1 + length m2)%nat; [|lia].
  destruct m1, m2; cbn in *; [done|lia..].
Qed.
Lemma small_around l k v m1 m2 :
  small l (VObject (m1 ++ (k, v) :: m2)) ↔
  small_entry l (k, v) ∧ Z.of_nat (length (m1 ++ m2)) + 1 ≤ max_container_elements l ∧
  ∀ kv, kv ∈ m1 ++ m2 → small_entry l kv.
Proof.
  rewrite small_object. setoid_rewrite elem_of_app. setoid_rewrite elem_of_cons. rewrite !length_app. cbn [length].
  split.
  - intros [Hl Hs]. split_and!; [auto|lia|intros ? []; auto].
  - intros (? & ? & Hs). split; [lia|]. intros ? [?|[->|?]]; auto.
Qed.
Lemma admissible_entry l k v m1 m2 :
  admissible l (VObject (m1 ++ (k, v) :: m2)) → admissible l v ∧ len k ≤ max_scalar_bytes l.
Proof.
  unfold admissible. rewrite nodes_around, bytes_around, small_around, value_depth_object.
  change (foldr _ 0 (m1 ++ (k, v) :: m2)) with (deepest (m1 ++ (k, v) :: m2)). rewrite deepest_app.
  change (deepest ((k, v) :: m2)) with (Z.max (value_depth v) (deepest m2)).
  pose proof (node_count_pos (VObject (m1 ++ m2))). pose proof (len_nonneg (serialize (VObject (m1 ++ m2)))).
  pose proof (len_nonneg (json_string k)).
  intros (? & ? & ? & [? ?] & _). case_decide; split_and!; try done; try lia.
Qed.

(** The checked sums of [replace]. *)
Lemma checked_sum total prev a b c :
  0 ≤ prev ≤ total → 0 ≤ a → 0 ≤ b → 0 ≤ c →
  (x ← checked_sub total prev ; y ← checked_add x a ; z ← checked_add y b ; checked_add z c) =
  if total - prev + a + b + c <=? usize_max then Some (total - prev + a + b + c) else None.
Proof.
  intros. unfold checked_sub, checked_add. rewrite (proj2 (Z.leb_le prev total)) by lia. cbn.
  destruct (Z.leb_spec (total - prev + a) usize_max); cbn; [|by rewrite (proj2 (Z.leb_gt _ _)) by lia].
  destruct (Z.leb_spec (total - prev + a + b) usize_max); cbn; [done|by rewrite (proj2 (Z.leb_gt _ _)) by lia].
Qed.
Lemma checked_sum1 total prev a :
  0 ≤ prev ≤ total → 0 ≤ a →
  (x ← checked_sub total prev ; checked_add x a) =
  if total - prev + a <=? usize_max then Some (total - prev + a) else None.
Proof.
  intros. unfold checked_sub, checked_add. rewrite (proj2 (Z.leb_le prev total)) by lia. done.
Qed.

Lemma check_shape_exact l field d n b :
  match check_shape l field d n b with
  | Ok _ => d ≤ max_result_depth l ∧ n ≤ max_result_nodes l ∧ b ≤ max_result_bytes l
  | Err f => is_limit f ∧ ¬ (d ≤ max_result_depth l ∧ n ≤ max_result_nodes l ∧ b ≤ max_result_bytes l)
  end.
Proof.
  unfold check_shape. destruct (Z.ltb_spec (max_result_depth l) d); [split; [by eexists|lia]|].
  destruct (Z.ltb_spec (max_result_nodes l) n); [split; [by eexists|lia]|].
  destruct (Z.ltb_spec (max_result_bytes l) b); [split; [by eexists|lia]|]. done.
Qed.

(** The budget after a replacement that passed every check. *)
Definition replaced (b : RuntimeJsonObjectBudget) (k : string) (v : Value)
    (counts : gmap Z Z) (m : Map.t) : RuntimeJsonObjectBudget :=
  {| ob_limits := ob_limits b; ob_field := ob_field b; entries := <[k := shape_of v]> (entries b);
     depth_counts := <[value_depth v := default 0 (counts !! value_depth v) + 1]> counts;
     ob_nodes := node_count (VObject m); ob_bytes := len (serialize (VObject m)) |}.

Lemma tracks_replaced b m k v counts m1 m2 :
  tracks b m → Map.insert k v m = m1 ++ (k, v) :: m2 → counted counts (m1 ++ m2) →
  size (<[k := shape_of v]> (entries b)) = S (length (m1 ++ m2)) →
  admissible (ob_limits b) (VObject (m1 ++ (k, v) :: m2)) →
  tracks (replaced b k v counts (m1 ++ (k, v) :: m2)) (m1 ++ (k, v) :: m2).
Proof.
  intros [Hs He Hsz Hc Hn Hb Ha] Hi Hcount Hsize Hadm. split; cbn [entries depth_counts ob_nodes ob_bytes ob_limits replaced]; try done.
  - rewrite <- Hi. by apply MapFacts.insert_sorted.
  - intros k'. rewrite <- Hi, MapFacts.get_insert by done. case_decide as Hk.
    + subst k'. by rewrite lookup_insert_eq.
    + rewrite lookup_insert_ne by done. apply He.
  - rewrite Hsize, !length_app. cbn. lia.
  - by apply increment_counted.
Qed.

(** The last steps of [replace], with the counters of the candidate computed. *)
Lemma commit_exact b m k v counts m1 m2 nodes bytes :
  below_max (ob_limits b) → tracks b m → Map.insert k v m = m1 ++ (k, v) :: m2 → counted counts (m1 ++ m2) →
  size (<[k := shape_of v]> (entries b)) = S (length (m1 ++ m2)) →
  small (ob_limits b) (VObject (m1 ++ (k, v) :: m2)) →
  nodes = node_count (VObject (m1 ++ (k, v) :: m2)) →
  (bytes = len (serialize (VObject (m1 ++ (k, v) :: m2))) ∨
   usize_max < bytes ∧ usize_max < len (serialize (VObject (m1 ++ (k, v) :: m2)))) →
  match
    match
      ok_or (if nodes <=? usize_max then Some nodes else None)
        (object_limit_error (ob_field b) "result JSON node counter overflow")
    with
    | Ok nodes =>
        match
          ok_or (if bytes <=? usize_max then Some bytes else None)
            (object_limit_error (ob_field b) "result JSON byte counter overflow")
        with
        | Ok bytes =>
            match
              check_shape (ob_limits b) (ob_field b)
                (Z.max (saturating_add (deepest (m1 ++ (k, v) :: m2)) 1) 1) nodes bytes
            with
            | Ok _ =>
                put {| ob_limits := ob_limits b; ob_field := ob_field b;
                       entries := <[k := shape_of v]> (entries b);
                       depth_counts := <[shape_depth (shape_of v) :=
                         default 0 (counts !! shape_depth (shape_of v)) + 1]> counts;
                       ob_nodes := nodes; ob_bytes := bytes |} b
            | Err f => (Err f, b)
            end
        | Err f => (Err f, b)
        end
    | Err f => (Err f, b)
    end
  with
  | (Ok _, b') =>
      tracks b' (m1 ++ (k, v) :: m2) ∧ ob_limits b' = ob_limits b ∧ ob_field b' = ob_field b
  | (Err f, b') => is_limit f ∧ b' = b ∧ ¬ admissible (ob_limits b) (VObject (m1 ++ (k, v) :: m2))
  end.
Proof.
  intros (Hmd & Hmn & Hmb) Ht Hi Hcount Hsize Hsmall -> Hbytes.
  assert (value_depth (VObject (m1 ++ (k, v) :: m2)) = 1 + deepest (m1 ++ (k, v) :: m2)) as Hdep
    by apply value_depth_object.
  pose proof (deepest_nonneg (m1 ++ (k, v) :: m2)).
  set (cand := m1 ++ (k, v) :: m2) in *. unfold admissible.
  destruct (Z.leb_spec (node_count (VObject cand)) usize_max); cbn [ok_or]; [|split_and!; [by eexists|done|lia]].
  destruct (Z.leb_spec bytes usize_max); cbn [ok_or]; [|split_and!; [by eexists|done|lia]].
  assert (bytes = len (serialize (VObject cand))) as -> by lia. clear Hbytes.
  pose proof (check_shape_exact (ob_limits b) (ob_field b) (Z.max (saturating_add (deepest cand) 1) 1)
    (node_count (VObject cand)) (len (serialize (VObject cand)))) as Hck.
  unfold saturating_add in *. destruct (check_shape _ _ _ _ _) as [|f]; cbv beta iota in Hck.
  - unfold put. split_and!; [|done..]. apply (tracks_replaced b m); try done. fold cand. unfold admissible.
    split_and!; [lia..|done].
  - destruct Hck as [? Hno]. split_and!; [done|done|]. intros (? & ? & ? & _). apply Hno. lia.
Qed.

Lemma replace_exact b m k v :
  below_max (ob_limits b) → tracks b m →
  match replace k v b with
  | (Ok _, b') => tracks b' (Map.insert k v m) ∧ ob_limits b' = ob_limits b ∧ ob_field b' = ob_field b
  | (Err f, b') => is_limit f ∧ b' = b ∧ ¬ admissible (ob_limits b) (VObject (Map.insert k v m))
  end.
Proof.
  intros Hmax Ht. pose proof Ht as [Hs He Hsz Hc Hn Hb Ha].
  unfold replace. unfold mbind at 1 2, m_bind, get, lift. cbv beta zeta iota.
  pose proof (measure_value_exact (ob_limits b) (ob_field b) v Hmax) as Hmv.
  pose proof (prospective_exact (depth_counts b) m k v Hs Hc) as Hdeep.
  assert (∃ m1 m2, Map.insert k v m = m1 ++ (k, v) :: m2) as (m1 & m2 & Hcand).
  { destruct (insert_split k v m Hs) as [(? & ? & ? & _ & _ & ?)|(? & ? & _ & _ & ?)]; eauto. }
  assert (∀ f, is_limit f → ¬ admissible (ob_limits b) (VObject (Map.insert k v m)) →
    is_limit f ∧ b = b ∧ ¬ admissible (ob_limits b) (VObject (Map.insert k v m))) as Hfail by done.
  destruct (measure_value _ _ _) as [s|f].
  2:{ apply Hfail; [tauto|]. rewrite Hcand. intros [? _]%admissible_entry. tauto. }
  destruct Hmv as [-> Hav].
  destruct (Z.ltb_spec (max_scalar_bytes (ob_limits b)) (len k)).
  { apply Hfail; [by eexists|]. rewrite Hcand. intros [_ ?]%admissible_entry. lia. }
  clear Hcand m1 m2. rewrite (He k), Hdeep. pose proof (len_nonneg (json_string k)).
  pose proof (node_count_pos v). pose proof (len_nonneg (serialize v)).
  assert (saturating_add (json_string_bytes k) 1 = Z.min (len (json_string k) + 1) usize_max) as ->
    by (rewrite json_string_bytes_len; unfold saturating_add; lia).
  destruct Ha as (Hda & Hna & Hba & Hsa), Hmax as (Hmd & Hmn & Hmb). pose proof Hdeep as Hdeep'.
  destruct (insert_split k v m Hs) as [(w & m1 & m2 & Hg & Hm & Hi)|(m1 & m2 & Hg & Hm & Hi)];
    rewrite Hi in *; rewrite Hg in *; cbn [fmap option_fmap option_map andb] in *; cbv beta iota zeta.
  all: subst m; pose proof (node_count_pos (VObject (m1 ++ m2)));
    pose proof (len_nonneg (serialize (VObject (m1 ++ m2)))); rewrite Hn, Hb.
  - pose proof (node_count_pos w). pose proof (len_nonneg (serialize w)).
    rewrite nodes_around, bytes_around in *.
    set (comma := if decide (m1 ++ m2 = []) then 0 else 1) in *.
    assert (0 ≤ comma) by (unfold comma; case_decide; lia).
    cbn [shape_nodes shape_bytes shape_of]. rewrite (Z.min_l (len (json_string k) + 1)) by lia.
    assert (saturating_add (len (json_string k) + 1) (len (serialize w)) =
      len (json_string k) + 1 + len (serialize w)) as -> by (unfold saturating_add; lia).
    rewrite checked_sum1, checked_sum by lia. unfold mbind, m_bind.
    apply (commit_exact b (m1 ++ (k, w) :: m2)); rewrite ?nodes_around, ?bytes_around; fold comma; try done; try lia.
    + by apply (decrement_counted _ k w).
    + rewrite map_size_insert_Some by (rewrite He, Hg; done). rewrite Hsz, !length_app. cbn. lia.
    + rewrite small_around in Hsa. apply small_around. unfold admissible, small_entry in *. naive_solver.
  - rewrite Hsz. destruct (Z.leb_spec (max_container_elements (ob_limits b)) (Z.of_nat (length (m1 ++ m2)))).
    { apply Hfail; [by eexists|]. intros (_ & _ & _ & (_ & ? & _)%small_around). lia. }
    assert ((if negb (length (m1 ++ m2) =? 0)%nat then 1 else 0) = if decide (m1 ++ m2 = []) then 0 else 1) as ->
      by (destruct (m1 ++ m2); done).
    set (comma := if decide (m1 ++ m2 = []) then 0 else 1) in *.
    assert (0 ≤ comma) by (unfold comma; case_decide; lia).
    cbn [shape_nodes shape_bytes shape_of]. rewrite checked_sum1, checked_sum by (unfold usize_max; lia).
    unfold mbind, m_bind.
    apply (commit_exact b (m1 ++ m2)); rewrite ?nodes_around, ?bytes_around; fold comma; try done; try lia.
    + rewrite map_size_insert_None by (rewrite He, Hg; done). by rewrite Hsz.
    + apply small_around. rewrite small_object in Hsa. unfold admissible, small_entry in *.
      split_and!; [tauto..|lia|tauto].
    + pose proof (len_serialize_object (m1 ++ m2)). pose proof (lens_nonneg (entry_text <$> (m1 ++ m2))). lia.
Qed.

(** Applying an assignment map: the entries up to the first that fails. *)
Definition assign (value m : Map.t) : Map.t := foldl (λ m kv, Map.insert kv.1 kv.2 m) m value.

Lemma apply_exact value b m :
  below_max (ob_limits b) → tracks b m →
  match apply value b with
  | (Ok _, b') => tracks b' (assign value m) ∧ ob_limits b' = ob_limits b ∧ ob_field b' = ob_field b
  | (Err f, b') => is_limit f ∧ ∃ done k v rest, value = done ++ (k, v) :: rest ∧
      tracks b' (assign done m) ∧ ¬ admissible (ob_limits b) (VObject (assign (done ++ [(k, v)]) m))
  end.
Proof.
  revert b m. induction value as [|[k v] value IH]; intros b m Hmax Ht; [done|].
  unfold apply in *. cbn [for_each]. unfold mbind, m_bind.
  pose proof (replace_exact b m k v Hmax Ht) as Hr. destruct (replace k v b) as [[[]|f] b'].
  - destruct Hr as (Ht' & Hl & Hf). specialize (IH b' (Map.insert k v m)). rewrite Hl in IH.
    specialize (IH Hmax Ht'). destruct (for_each _ value b') as [[[]|f] b''].
    + destruct IH as (? & ? & ?). split_and!; [done|done|congruence].
    + destruct IH as (? & pre & k' & v' & rest & -> & ? & ?). split; [done|].
      by exists ((k, v) :: pre), k', v', rest.
  - destruct Hr as (? & -> & ?). split; [done|]. by exists [], k, v, value.
Qed.

(** The empty object, when the limits allow it. *)
Lemma tracks_empty l field :
  1 ≤ max_result_depth l → 1 ≤ max_result_nodes l → 2 ≤ max_result_bytes l → 0 ≤ max_container_elements l →
  tracks {| ob_limits := l; ob_field := field; entries := ∅; depth_counts := ∅; ob_nodes := 1; ob_bytes := 2 |} [].
Proof.
  intros. split; cbn; try done. constructor.
Qed.
Lemma assign_sorted value : Map.sorted value → assign value [] = value.
Proof.
  intros Hs. unfold assign. rewrite <- (app_nil_l value) at 2.
  assert (Map.sorted ([] ++ value)) as Hs' by done. clear Hs. revert Hs'. generalize (@nil (string * Value)).
  induction value as [|[k v] value IH]; intros m Hs; cbn [foldl]; [by rewrite app_nil_r|].
  destruct (MapFacts.sorted_app_inv _ _ Hs) as (_ & _ & Hlt). cbn [fst snd].
  rewrite MapFacts.insert_last.
  - rewrite IH; rewrite <- app_assoc; done.
  - apply Forall_forall. intros k' Hk'. apply Hlt; [done|by left].
Qed.
Lemma admissible_prefix l m m' : admissible l (VObject (m ++ m')) → admissible l (VObject m).
Proof.
  unfold admissible. rewrite !value_depth_object, !node_count_object, !len_serialize_object, !small_object.
  change (foldr _ 0 (m ++ m')) with (deepest (m ++ m')) at 1. change (foldr _ 0 m) with (deepest m) at 1.
  rewrite deepest_app, fmap_app, lens_app, length_app.
  assert (foldr (λ kv, Z.add (node_count kv.2)) 0 (m ++ m') =
    foldr (λ kv, Z.add (node_count kv.2)) 0 m + foldr (λ kv, Z.add (node_count kv.2)) 0 m') as ->.
  { induction m; cbn; lia. }
  pose proof (lens_nonneg (entry_text <$> m')). pose proof (deepest_nonneg m').
  pose proof (sum_list_nonneg (λ kv : string * Value, node_count kv.2) m') as Hn.
  specialize (Hn ltac:(intros x; pose proof (node_count_pos x.2); lia)).
  intros (? & ? & ? & ? & Hs). split_and!; try lia. intros kv Hkv. apply Hs, elem_of_app. auto.
Qed.
Lemma object_with_limits_exact base field l :
  below_max l → 0 ≤ max_container_elements l → Map.sorted base →
  match object_with_limits base field l with
  | Ok b => tracks b base ∧ ob_limits b = l ∧ ob_field b = field
  | Err f => is_limit f ∧ ¬ admissible l (VObject base)
  end.
Proof.
  intros Hmax He Hs. unfold object_with_limits. pose proof (check_shape_exact l field 1 1 2) as Hck.
  destruct (check_shape l field 1 1 2) as [|f]; cbn [mbind result_bind]; cbv beta iota zeta in *.
  - pose proof (tracks_empty l field ltac:(lia) ltac:(lia) ltac:(lia) He) as Ht.
    pose proof (apply_exact base _ [] (Hmax : below_max (ob_limits (Build_RuntimeJsonObjectBudget l field ∅ ∅ 1 2))) Ht) as Ha.
    unfold apply in Ha. destruct (for_each _ base _) as [[[]|f] b]; cbn in *.
    + by rewrite assign_sorted in Ha.
    + destruct Ha as (? & pre & k & v & rest & -> & _ & Hno). split; [done|]. intros Hadm. apply Hno.
      rewrite (app_assoc pre [(k, v)] rest : pre ++ (k, v) :: rest = _) in Hs, Hadm.
      destruct (MapFacts.sorted_app_inv _ _ Hs) as (Hs' & _ & _).
      rewrite assign_sorted by done. by eapply admissible_prefix.
  - destruct Hck as [? Hno]. split; [done|]. intros (Hd & Hn & Hb & _).
    pose proof (depth_pos (VObject base)). pose proof (node_count_pos (VObject base)).
    pose proof (len_serialize_object base). pose proof (lens_nonneg (entry_text <$> base)). lia.
Qed.

(** ** Against measuring the whole object again *)

Definition is_ok {A} (r : Compiled A) : bool := match r with Ok _ => true | Err _ => false end.
(** The reference: keep a replacement when the whole candidate measures. *)
Definition remeasured (l : EvaluationLimits) (field : string) (m : Map.t) (kv : string * Value) : Map.t :=
  let candidate := Map.insert kv.1 kv.2 m in
  if is_ok (measure_value l field (VObject candidate)) then candidate else m.

Lemma measured_ok l field v : below_max l → is_ok (measure_value l field v) = true ↔ admissible l v.
Proof.
  intros Hmax. pose proof (measure_value_exact l field v Hmax). destruct (measure_value l field v); cbn; [tauto|].
  split; [done|tauto].
Qed.
Lemma replace_remeasured b m kv :
  below_max (ob_limits b) → tracks b m →
  tracks (snd (replace kv.1 kv.2 b)) (remeasured (ob_limits b) (ob_field b) m kv) ∧
  ob_limits (snd (replace kv.1 kv.2 b)) = ob_limits b ∧ ob_field (snd (replace kv.1 kv.2 b)) = ob_field b ∧
  is_ok (fst (replace kv.1 kv.2 b)) =
  is_ok (measure_value (ob_limits b) (ob_field b) (VObject (Map.insert kv.1 kv.2 m))).
Proof.
  intros Hmax Ht. pose proof (replace_exact b m kv.1 kv.2 Hmax Ht) as Hr. unfold remeasured.
  pose proof (measured_ok (ob_limits b) (ob_field b) (VObject (Map.insert kv.1 kv.2 m)) Hmax) as Hm.
  destruct (replace kv.1 kv.2 b) as [[[]|f] b']; cbn [fst snd].
  - destruct Hr as (Ht' & Hl & Hf). cbv zeta. rewrite (proj2 Hm); [done|]. rewrite <- Hl. by apply tracks_admissible.
  - destruct Hr as (_ & -> & Hno). destruct (is_ok (measure_value _ _ _)); [|done]. by destruct Hno; apply Hm.
Qed.
Lemma replaces_remeasured ops b m :
  below_max (ob_limits b) → tracks b m →
  tracks (foldl (λ b kv, snd (replace kv.1 kv.2 b)) b ops)
    (foldl (remeasured (ob_limits b) (ob_field b)) m ops) ∧
  ob_limits (foldl (λ b kv, snd (replace kv.1 kv.2 b)) b ops) = ob_limits b ∧
  ob_field (foldl (λ b kv, snd (replace kv.1 kv.2 b)) b ops) = ob_field b.
Proof.
  revert b m. induction ops as [|kv ops IH]; intros b m Hmax Ht; [done|]. cbn [foldl].
  destruct (replace_remeasured b m kv Hmax Ht) as (Ht' & Hl & Hf & _).
  destruct (IH _ _ ltac:(by rewrite Hl) Ht') as (? & ? & ?). rewrite Hl, Hf in *. done.
Qed.
End tracked.

(** ** The array validator *)

Section arrays.
Context `{Externals}.

(** The budget is the measure of the array [vs], and a non-empty [vs] is
    within the limits. *)
Record array_tracks (b : RuntimeJsonArrayBudget) (vs : list Value) : Prop := {
  array_elements : ab_elements b = Z.of_nat (length vs);
  array_nodes : ab_nodes b = node_count (VArray vs);
  array_bytes : ab_bytes b = len (serialize (VArray vs));
  array_within : vs ≠ [] →
    within (ab_limits b) (VArray vs) ∧ Z.of_nat (length vs) ≤ max_container_elements (ab_limits b);
}.

Lemma sums_snoc {X} (f : X → Z) xs x :
  foldr (λ x, Z.add (f x)) 0 (xs ++ [x]) = foldr (λ x, Z.add (f x)) 0 xs + f x.
Proof. induction xs; cbn; lia. Qed.
Lemma depths_snoc {X} (f : X → Z) xs x :
  0 ≤ f x → foldr (λ x, Z.max (f x)) 0 (xs ++ [x]) = Z.max (foldr (λ x, Z.max (f x)) 0 xs) (f x).
Proof. intros Hx. induction xs; cbn; lia. Qed.
Lemma array_bytes_snoc vs v :
  len (serialize (VArray (vs ++ [v]))) =
  len (serialize (VArray vs)) + (if decide (vs = []) then 0 else 1) + len (serialize v).
Proof.
  rewrite !len_serialize_array, !lens_fmap, sums_snoc, length_app. cbn [length].
  case_decide; [subst; cbn; lia|]. destruct vs; cbn in *; [done|]. lia.
Qed.

Lemma append_exact b vs v :
  below_max (ab_limits b) → array_tracks b vs →
  match append v b with
  | (Ok _, b') => array_tracks b' (vs ++ [v]) ∧ ab_limits b' = ab_limits b
  | (Err f, b') => is_limit f ∧ b' = b
  end.
Proof.
  intros (Hmd & Hmn & Hmb) [Hel Hn Hb Hw]. unfold append, mbind, m_bind, get, lift. cbv beta iota zeta.
  destruct (Z.ltb_spec (max_result_depth (ab_limits b)) 1); [split; [by eexists|done]|].
  destruct (Z.leb_spec (max_container_elements (ab_limits b)) (ab_elements b)); [split; [by eexists|done]|].
  assert ((if ab_elements b =? 0 then 0 else 1) = if decide (vs = []) then 0 else 1) as ->
    by (rewrite Hel; destruct vs; done).
  set (comma := if decide (vs = []) then 0 else 1).
  unfold checked_add. destruct (Z.leb_spec (ab_bytes b + comma) usize_max) as [Hle|]; [|split; [by eexists|done]].
  assert (0 ≤ comma) by (unfold comma; case_decide; lia). pose proof (len_nonneg (serialize (VArray vs))).
  set (env := Build_EvalEnv _ _ _ _).
  pose proof (inspect_runs env v 2 (Span 0 (len "<runtime JSON array>")) (ab_nodes b) (ab_bytes b + comma)
    ltac:(lia) (budget_new (ab_limits b))) as Hr. unfold runs in Hr.
  destruct (inspect_result env v 2 _ _ (budget_new (ab_limits b))) as [[[n' b']|f] bud]; cbn [fst].
  - destruct Hr as [_ (x & _ & Hi & Hd & Hnn & Hbb)]. cbn in Hi, Hd, Hnn, Hbb. simplify_eq.
    unfold put. split; [|done]. pose proof (len_nonneg (serialize v)).
    assert (value_depth (VArray vs) ≤ max_result_depth (ab_limits b)) as Hdv.
    { destruct (decide (vs = [])) as [->|Hne]; [done|]. by destruct (Hw Hne) as [(? & _) _]. }
    pose proof (depth_pos v). rewrite value_depth_array in Hdv.
    split; cbn [ab_elements ab_nodes ab_bytes ab_limits].
    + rewrite length_app. cbn. lia.
    + rewrite Hn, !node_count_array, sums_snoc. lia.
    + rewrite array_bytes_snoc. fold comma. lia.
    + intros _. unfold within. rewrite value_depth_array, depths_snoc, array_bytes_snoc, node_count_array, sums_snoc by lia.
      rewrite node_count_array in Hn. fold comma. rewrite length_app. cbn [length]. split_and!; lia.
  - destruct Hr as [_ [?|?]]; done.
Qed.

(** The values accepted by a sequence of appends, with the budget. *)
Definition append_next (st : RuntimeJsonArrayBudget * list Value) (v : Value) : RuntimeJsonArrayBudget * list Value :=
  match append v st.1 with
  | (Ok _, b') => (b', st.2 ++ [v])
  | (Err _, b') => (b', st.2)
  end.

Lemma appends_exact values st :
  below_max (ab_limits st.1) → array_tracks st.1 st.2 →
  let st' := foldl append_next st values in
  array_tracks st'.1 st'.2 ∧ ab_limits st'.1 = ab_limits st.1.
Proof.
  revert st. induction values as [|v values IH]; intros [b vs] Hmax Ht; [done|]. cbn [foldl].
  change (append_next (b, vs) v) with
    (match append v b with (Ok _, b') => (b', vs ++ [v]) | (Err _, b') => (b', vs) end).
  cbn [fst snd] in *. pose proof (append_exact b vs v Hmax Ht) as Ha.
  destruct (append v b) as [[[]|f] b'].
  - destruct Ha as [Ht' Hl]. destruct (IH (b', vs ++ [v])) as [? ?]; [cbn; by rewrite Hl|done|].
    split; [done|by etrans].
  - destruct Ha as [_ ->]. by apply (IH (b, vs)).
Qed.
End arrays.

(** ** Properties *)

(** C29. The object validator is as good as measuring the whole object after
    every replacement: whatever was replaced before, accepted or not, its
    counters are the measures of the object that results, and the next
    replacement is accepted exactly when the whole candidate object, measured
    from scratch, is within the limits. *)
Theorem object_budget_exact `{Externals} base field l b ops k v :
  below_max l → 0 ≤ max_container_elements l → Map.sorted base →
  object_with_limits base field l = Ok b →
  let b' := foldl (λ b kv, snd (replace kv.1 kv.2 b)) b ops in
  let m' := foldl (remeasured l field) base ops in
  ob_nodes b' = node_count (VObject m') ∧ ob_bytes b' = len (serialize (VObject m')) ∧
  is_ok (fst (replace k v b')) = is_ok (measure_value l field (VObject (Map.insert k v m'))).
Proof.
  intros Hmax He Hs Hb. pose proof (object_with_limits_exact base field l Hmax He Hs) as Hx. rewrite Hb in Hx.
  destruct Hx as (Ht & <- & <-). destruct (replaces_remeasured ops b base Hmax Ht) as (Ht' & Hl & Hf).
  cbv zeta. split_and!; [apply Ht'|apply Ht'|].
  destruct (replace_remeasured _ _ (k, v) ltac:(by rewrite Hl) Ht') as (_ & _ & _ & Heq).
  by rewrite Hl, Hf in Heq.
Qed.

Definition sample_object : Map.t := [("a", VArray [VNull; VBool true]); ("b", VString "x")]%string.
Definition sample_object_limits : EvaluationLimits :=
  {| fuel := 100; max_traversal_depth := 8; max_container_elements := 3; max_scalar_bytes := 8;
     max_regex_pattern_bytes := 8; max_regex_haystack_bytes := 8; max_from_json_bytes := 8;
     max_result_depth := 3; max_result_nodes := 6; max_result_bytes := 40;
     max_produced_string_bytes := 8; max_allocation_bytes := 8 |}.
Definition sample_object_budget : RuntimeJsonObjectBudget :=
  match object_with_limits sample_object "state" sample_object_limits with
  | Ok b => b
  | Err _ => {| ob_limits := sample_object_limits; ob_field := ""; entries := ∅; depth_counts := ∅;
                ob_nodes := 0; ob_bytes := 0 |}
  end.
Definition sample_ops : list (string * Value) :=
  [("a", VNull); ("c", VArray [VArray [VArray []]]); ("c", VArray [VArray []])]%string.

Lemma object_budget_exact_witness :
  let b' := foldl (λ b kv, snd (replace kv.1 kv.2 b)) sample_object_budget sample_ops in
  let m' := foldl (remeasured sample_object_limits "state") sample_object sample_ops in
  (ob_nodes b' = node_count (VObject m') ∧ ob_bytes b' = len (serialize (VObject m')) ∧
   is_ok (fst (replace "d" (VString "y") b')) =
   is_ok (measure_value sample_object_limits "state" (VObject (Map.insert "d" (VString "y") m')))) ∧
  m' = [("a", VNull); ("b", VString "x"); ("c", VArray [VArray []])]%string.
Proof.
  cbv zeta. split.
  - apply (object_budget_exact sample_object "state" sample_object_limits sample_object_budget sample_ops "d" (VString "y")).
    + unfold below_max, usize_max. cbn. lia.
    + cbn. lia.
    + repeat constructor.
    + vm_compute. reflexivity.
  - vm_compute. reflexivity.
Defined.

(** C30. An array grown one value at a time stays within the limits as a
    whole: after any sequence of appends, the counters are the measures of
    the array of the accepted values, whose depth, values and text are
    within the limits, and a rejected value changes nothing. *)
Theorem array_budget_exact `{Externals} field l values b vs v :
  below_max l →
  foldl append_next (array_with_limits field l, []) values = (b, vs) →
  ab_nodes b = node_count (VArray vs) ∧ ab_bytes b = len (serialize (VArray vs)) ∧
  (vs ≠ [] → within l (VArray vs) ∧ Z.of_nat (length vs) ≤ max_container_elements l) ∧
  (∀ f b', append v b = (Err f, b') → is_limit f ∧ b' = b).
Proof.
  intros Hmax Hf. destruct (appends_exact values (array_with_limits field l, [])) as [Ht Hl]; [done|by split|].
  rewrite Hf in Ht, Hl. cbn in Hl. subst l. pose proof Ht as [_ ? ? ?]. split_and!; try done.
  intros f b' Ha. pose proof (append_exact b vs v Hmax Ht) as Hx. by rewrite Ha in Hx.
Qed.

Lemma array_budget_exact_witness :
  let st := foldl append_next (array_with_limits "results" sample_object_limits, [])
    [VNull; VArray [VArray [VNull]]; VString "abc"] in
  (ab_nodes st.1 = node_count (VArray st.2) ∧ ab_bytes st.1 = len (serialize (VArray st.2)) ∧
   (st.2 ≠ [] → within sample_object_limits (VArray st.2) ∧
                Z.of_nat (length st.2) ≤ max_container_elements sample_object_limits) ∧
   (∀ f b', append VNull st.1 = (Err f, b') → is_limit f ∧ b' = st.1)) ∧
  st.2 = [VNull; VString "abc"].
Proof.
  cbv zeta. split.
  - apply (array_budget_exact "results" sample_object_limits [VNull; VArray [VArray [VNull]]; VString "abc"]).
    + unfold below_max, usize_max. cbn. lia.
    + vm_compute. reflexivity.
  - vm_compute. reflexivity.
Defined.
