(* ===== verification/Authorizer.v ===== *)
(** * Capability authorization

    [authorizer.rs]: capability strings, required patterns, policies and
    the check of a caller's scopes against a policy. *)

From S2P Require Import Prelude.

Record Capability := {
  cap_verb : string;
  cap_kind : string;
  cap_subject : string;
}.

Inductive CapabilityParseError := InvalidFormat (s : string).

(** [Capability::parse]. *)
Definition capability_parse (s : string) : Result CapabilityParseError Capability :=
  match splitn 46 4 s with
  | [root; verb; kind; subject] =>
      if decide (root = "ryeos") then
        Ok {| cap_verb := verb; cap_kind := kind; cap_subject := subject |}
      else Err (InvalidFormat s)
  | _ => Err (InvalidFormat s)
  end.

(** [Capability::to_wire] and [canonical_cap]. *)
Definition canonical_cap (kind ref_path verb : string) : string :=
  "ryeos." +:+ verb +:+ "." +:+ kind +:+ "." +:+ ref_path.
Definition to_wire (cap : Capability) : string :=
  "ryeos." +:+ cap_verb cap +:+ "." +:+ cap_kind cap +:+ "." +:+ cap_subject cap.

(** The regular-expression engine, [Regex::new] and [Regex::is_match]. *)
Class RegexEngine := {
  CompiledRegex : Type;
  regex_new : string → Result string CompiledRegex;
  is_match : CompiledRegex → string → bool;
}.

(** The characters [cap_matches] puts a backslash before. *)
Definition is_meta (c : Z) : bool :=
  (c =? 46) || (c =? 43) || (c =? 40) || (c =? 41) || (c =? 91) || (c =? 93) || (c =? 123) ||
  (c =? 125) || (c =? 94) || (c =? 36) || (c =? 124) || (c =? 92).

(** The regular expression one character of a grant becomes. *)
Definition cap_piece (ch : Z) : string :=
  if ch =? 42 then ".*"
  else if ch =? 63 then "."
  else if is_meta ch then backslash +:+ encode_utf8 ch
  else encode_utf8 ch.
Definition cap_regex (granted : string) : string :=
  foldl (λ regex_str ch, regex_str +:+ cap_piece ch) "^" (chars granted) +:+ "$".

Section authorizer.
Context `{RegexEngine}.

(** [cap_matches]. *)
Definition cap_matches (granted required : string) : bool :=
  if decide (granted = required) then true
  else
    match regex_new (cap_regex granted) with
    | Ok re => is_match re required
    | Err _ => false
    end.

Inductive RequiredPattern :=
| AllRye
| VerbWildcard (verb : string)
| SubjectWildcard (verb kind : string)
| Full (verb kind subject : string)
| Other (req : string).

(** [RequiredPattern::parse]. *)
Definition pattern_parse (s : string) : RequiredPattern :=
  if decide (s = "*") then Other s
  else if negb (starts_with "ryeos." s) then Other s
  else
    match splitn 46 4 s with
    | [_; rest] => if decide (rest = "*") then AllRye else Other s
    | [_; verb; kind] =>
        if decide (kind = "*") then VerbWildcard verb else Full verb kind "*"
    | [_; verb; kind; subject] =>
        if decide (subject = "*") then SubjectWildcard verb kind else Full verb kind subject
    | _ => Other s
    end.

(** [RequiredPattern::matches]. *)
Definition pattern_matches (pattern : RequiredPattern) (granted : string) : bool :=
  if decide (granted = "*") then true
  else
    match pattern with
    | AllRye => starts_with "ryeos." granted
    | VerbWildcard verb =>
        match capability_parse granted with
        | Ok cap => bool_decide (cap_verb cap = verb)
        | Err _ => false
        end || cap_matches granted ("ryeos." +:+ verb +:+ ".*")
    | SubjectWildcard verb kind =>
        match capability_parse granted with
        | Ok cap => bool_decide (cap_verb cap = verb) && bool_decide (cap_kind cap = kind)
        | Err _ => false
        end || cap_matches granted ("ryeos." +:+ verb +:+ "." +:+ kind +:+ ".*")
    | Full verb kind subject =>
        match capability_parse granted with
        | Ok cap =>
            bool_decide (cap_verb cap = verb) && bool_decide (cap_kind cap = kind) &&
            cap_matches subject (cap_subject cap)
        | Err _ => false
        end || cap_matches granted ("ryeos." +:+ verb +:+ "." +:+ kind +:+ "." +:+ subject)
    | Other req => cap_matches granted req
    end.

Record CapabilityClause := { any_of : list string }.
Inductive AuthorizationPolicy :=
| Public
| Protected (all_of : list CapabilityClause).

(** [AuthorizationPolicy::require] and [require_all]. *)
Definition policy_require (cap : string) : AuthorizationPolicy := Protected [{| any_of := [cap] |}].
Definition policy_require_all (caps : list string) : AuthorizationPolicy :=
  Protected ((λ cap, {| any_of := [cap] |}) <$> caps).

Inductive AuthorizationError := Unauthorized (needed : string).

(** [[String]::join(", ")]. *)
Fixpoint join_comma (l : list string) : string :=
  match l with
  | [] => EmptyString
  | [x] => x
  | x :: l => x +:+ ", " +:+ join_comma l
  end.

(** [Authorizer::check_single]. *)
Definition check_single (scopes : list string) (required : string) : bool :=
  let pattern := pattern_parse required in existsb (pattern_matches pattern) scopes.

(** [Authorizer::authorize]. *)
Definition authorize (principal_scopes : list string) (policy : AuthorizationPolicy)
    : Result AuthorizationError unit :=
  match policy with
  | Public => Ok tt
  | Protected all_of =>
      (fix go clauses :=
         match clauses with
         | [] => Ok tt
         | clause :: clauses =>
             if existsb (check_single principal_scopes) (any_of clause) then go clauses
             else Err (Unauthorized (join_comma (any_of clause)))
         end) all_of
  end.

End authorizer.
