(* ===== verification/AuthorizerCorrect.v ===== *)
(** * Grants and what they authorize

    A scope authorizes a concrete capability exactly when it matches it as
    a pattern in which [*] stands for any text and [?] for any character;
    the patterns a policy may require never widen a concrete requirement. *)

From S2P Require Import Prelude Authorizer.

(** ** Patterns *)

(** [glob g r]: the characters [r] match the pattern [g]. *)
Inductive glob : list Z → list Z → Prop :=
| glob_nil : glob [] []
| glob_skip g r : glob g r → glob (42 :: g) r
| glob_take g c r : glob (42 :: g) r → glob (42 :: g) (c :: r)
| glob_any g c r : glob g r → glob (63 :: g) (c :: r)
| glob_char g c r : c ≠ 42 → c ≠ 63 → glob g r → glob (c :: g) (c :: r).

(** The pieces of the regular expressions [cap_matches] builds. *)
Inductive piece := AnyText | AnyChar | Char (c : Z).
Definition piece_text (p : piece) : string :=
  match p with
  | AnyText => ".*"
  | AnyChar => "."
  | Char c => if is_meta c then backslash +:+ encode_utf8 c else encode_utf8 c
  end.
(** [.] is any character but a line feed. *)
Definition dot (c : Z) : bool := negb (c =? 10).
Fixpoint pieces_match (ps : list piece) (cs : list Z) : bool :=
  match ps with
  | [] => match cs with [] => true | _ => false end
  | Char c :: ps => match cs with c' :: cs => (c =? c') && pieces_match ps cs | [] => false end
  | AnyChar :: ps => match cs with c' :: cs => dot c' && pieces_match ps cs | [] => false end
  | AnyText :: ps =>
      (fix go cs :=
         pieces_match ps cs || match cs with c' :: cs => dot c' && go cs | [] => false end) cs
  end.
(** Characters are scalar values and wildcards are not written as characters. *)
Definition plain (p : piece) : Prop :=
  match p with Char c => c ≠ 42 ∧ c ≠ 63 ∧ 0 ≤ c < 2 ^ 21 | _ => True end.
Definition anchored (ps : list piece) : string :=
  "^" +:+ foldr (λ p s, piece_text p +:+ s) EmptyString ps +:+ "$".

(** What [cap_matches] relies on: an anchored sequence of characters,
    escaped characters, [.] and [.*] matches character by character. *)
Class RegexLaws `{RegexEngine} : Prop :=
  regex_pieces : ∀ ps re s,
    Forall plain ps → regex_new (anchored ps) = Ok re → is_match re s = pieces_match ps (chars s).

Definition piece_of (ch : Z) : piece :=
  if ch =? 42 then AnyText else if ch =? 63 then AnyChar else Char ch.

Lemma piece_of_text ch : piece_text (piece_of ch) = cap_piece ch.
Proof. unfold piece_of, cap_piece. by destruct (ch =? 42), (ch =? 63). Qed.
Lemma bits_lor n a b : 0 ≤ n → 0 ≤ a < 2 ^ n → 0 ≤ b < 2 ^ n → 0 ≤ Z.lor a b < 2 ^ n.
Proof.
  intros Hn [Ha Ha'] [Hb Hb']. split; [by apply Z.lor_nonneg|].
  destruct (Z.eq_dec (Z.lor a b) 0) as [->|Hz]; [lia|].
  assert (0 ≤ Z.lor a b) by (by apply Z.lor_nonneg).
  apply Z.log2_lt_pow2; [lia|]. rewrite Z.log2_lor by done.
  destruct (Z.eq_dec a 0) as [->|], (Z.eq_dec b 0) as [->|]; [done|..];
    apply Z.max_lub_lt; try (apply Z.log2_lt_pow2; lia); change (Z.log2 0) with 0;
    destruct (Z.eq_dec n 0); subst; lia.
Qed.
Lemma bits_shift n k a : 0 ≤ k → 0 ≤ a < 2 ^ n → 0 ≤ n → 0 ≤ Z.shiftl a k < 2 ^ (n + k).
Proof.
  intros Hk Ha Hn. rewrite Z.shiftl_mul_pow2, Z.pow_add_r by lia.
  assert (0 < 2 ^ k) by (apply Z.pow_pos_nonneg; lia). nia.
Qed.
Lemma bits_mask n a : 0 ≤ n → 0 ≤ Z.land a (Z.ones n) < 2 ^ n.
Proof. intros Hn. rewrite Z.land_ones by done. apply Z.mod_pos_bound, Z.pow_pos_nonneg; lia. Qed.
Lemma bits_weaken n m a : 0 ≤ n ≤ m → 0 ≤ a < 2 ^ n → 0 ≤ a < 2 ^ m.
Proof. intros [??] ?. assert (2 ^ n ≤ 2 ^ m) by (apply Z.pow_le_mono_r; lia). lia. Qed.
Lemma chars_range c s : c ∈ chars s → 0 ≤ c < 2 ^ 21.
Proof.
  induction s as [s IH] using (well_founded_induction (Wf_nat.well_founded_ltof _ String.length)).
  unfold Wf_nat.ltof in IH. destruct s as [|a0 s0]; [by intros ?%not_elem_of_nil|].
  cbn [chars]. pose proof (byte_of_range a0).
  destruct (byte_of a0 <? 128); [intros [->|?]%elem_of_cons; [lia|apply (IH s0); [cbn; lia|done]]|].
  destruct s0 as [|a1 s1]; [by intros ?%not_elem_of_nil|].
  pose proof (bits_mask 6 (byte_of a1) ltac:(lia)) as H1. change (Z.ones 6) with 63 in H1.
  destruct (byte_of a0 <? 224).
  { intros [->|?]%elem_of_cons; [|apply (IH s1); [cbn; lia|done]].
    apply (bits_weaken 11); [lia|]. apply bits_lor; [lia|..|by apply (bits_weaken 6)].
    apply (bits_shift 5); [lia| |lia]. apply (bits_mask 5). lia. }
  destruct s1 as [|a2 s2]; [by intros ?%not_elem_of_nil|].
  pose proof (bits_mask 6 (byte_of a2) ltac:(lia)) as H2. change (Z.ones 6) with 63 in H2.
  destruct (byte_of a0 <? 240).
  { intros [->|?]%elem_of_cons; [|apply (IH s2); [cbn; lia|done]].
    apply (bits_weaken 16); [lia|]. apply bits_lor; [lia|apply (bits_shift 4); [lia|apply (bits_mask 4); lia|lia]|].
    apply bits_lor; [lia|apply (bits_weaken 12); [lia|by apply (bits_shift 6)]|by apply (bits_weaken 6)]. }
  destruct s2 as [|a3 s3]; [by intros ?%not_elem_of_nil|].
  pose proof (bits_mask 6 (byte_of a3) ltac:(lia)) as H3. change (Z.ones 6) with 63 in H3.
  intros [->|?]%elem_of_cons; [|apply (IH s3); [cbn; lia|done]].
  apply bits_lor; [lia|apply (bits_shift 3); [lia|apply (bits_mask 3); lia|lia]|].
  apply bits_lor; [lia|apply (bits_weaken 18); [lia|by apply (bits_shift 6)]|].
  apply bits_lor; [lia|apply (bits_weaken 12); [lia|by apply (bits_shift 6)]|by apply (bits_weaken 6)].
Qed.
Lemma pieces_plain s : Forall plain (piece_of <$> chars s).
Proof.
  apply Forall_fmap, Forall_forall. intros c Hc%chars_range. unfold compose, piece_of.
  destruct (Z.eqb_spec c 42); [done|]. by destruct (Z.eqb_spec c 63).
Qed.
Lemma cap_regex_pieces granted : cap_regex granted = anchored (piece_of <$> chars granted).
Proof.
  unfold cap_regex, anchored. rewrite <- append_assoc. f_equal. generalize "^"%string.
  induction (chars granted) as [|c cs IH]; intros acc; cbn; [by rewrite append_nil_r|].
  by rewrite IH, piece_of_text, append_assoc.
Qed.

Lemma pieces_star ps cs :
  pieces_match (AnyText :: ps) cs =
  pieces_match ps cs || match cs with c :: cs => dot c && pieces_match (AnyText :: ps) cs | [] => false end.
Proof. by destruct cs. Qed.

Lemma glob_star g r : glob (42 :: g) r ↔ ∃ r1 r2, r = r1 ++ r2 ∧ glob g r2.
Proof.
  split.
  - remember (42 :: g) as g' eqn:Hg. induction 1; simplify_eq.
    + by exists [], r.
    + destruct IHglob as (r1 & r2 & -> & ?); [done|]. by exists (c :: r1), r2.
  - intros (r1 & r2 & -> & Hg). induction r1; cbn; by constructor.
Qed.

Lemma pieces_sound g r : pieces_match (piece_of <$> g) r = true → glob g r.
Proof.
  revert r. induction g as [|c g IH]; intros r; [destruct r; [constructor|done]|].
  cbn [fmap list_fmap]. unfold piece_of at 1.
  destruct (Z.eqb_spec c 42) as [->|]; [|destruct (Z.eqb_spec c 63) as [->|]].
  - induction r as [|x r IHr]; rewrite pieces_star; intros [Hm|Hm]%orb_prop; try done.
    + by apply glob_skip, IH.
    + by apply glob_skip, IH.
    + apply andb_prop in Hm as [_ Hm]. apply glob_take. auto.
  - destruct r as [|x r]; [done|]. cbn. intros [_ Hm]%andb_prop. by apply glob_any, IH.
  - destruct r as [|x r]; [done|]. cbn. intros [<-%Z.eqb_eq Hm]%andb_prop. by apply glob_char, IH.
Qed.
Lemma pieces_complete g r : 10 ∉ r → glob g r → pieces_match (piece_of <$> g) r = true.
Proof.
  intros Hnl Hg. assert (∀ c, c ∈ r → dot c = true) as Hdot.
  { intros c Hc. unfold dot. destruct (Z.eqb_spec c 10); [by subst|done]. }
  clear Hnl. induction Hg as [|g r ? IH|g c r ? IH|g c r ? IH|g c r ? ? ? IH]; [done|..]; cbn [fmap list_fmap] in *.
  - change (piece_of 42) with AnyText. rewrite pieces_star, IH by done. done.
  - change (piece_of 42) with AnyText in *. rewrite pieces_star, (Hdot c), IH; [by rewrite orb_true_r|..|by left].
    intros; apply Hdot; by right.
  - change (piece_of 63) with AnyChar. cbn. rewrite (Hdot c), IH; [done|..|by left]. intros; apply Hdot; by right.
  - unfold piece_of at 1. rewrite !(proj2 (Z.eqb_neq _ _)) by done. cbn.
    rewrite Z.eqb_refl, IH; [done|]. intros; apply Hdot; by right.
Qed.
Lemma glob_refl g : glob g g.
Proof.
  induction g as [|c g IH]; [constructor|]. destruct (decide (c = 42)) as [->|]; [by apply glob_take, glob_skip|].
  destruct (decide (c = 63)) as [->|]; by constructor.
Qed.
(** A pattern without wildcards is matched by itself only. *)
Lemma glob_literal g r : 42 ∉ g → 63 ∉ g → glob g r → r = g.
Proof.
  intros H42 H63 Hg. induction Hg; rewrite ?not_elem_of_cons in *; naive_solver.
Qed.

Section matching.
Context `{RegexEngine} `{!RegexLaws}.

Lemma cap_matches_sound g r : cap_matches g r = true → glob (chars g) (chars r).
Proof.
  unfold cap_matches. case_decide; [intros _; subst; apply glob_refl|].
  destruct (regex_new (cap_regex g)) as [re|] eqn:Hre; [|done]. rewrite cap_regex_pieces in Hre.
  rewrite (regex_pieces (piece_of <$> chars g) re r); [apply pieces_sound|apply pieces_plain|done].
Qed.
Lemma cap_matches_complete g r re :
  regex_new (cap_regex g) = Ok re → 10 ∉ chars r → glob (chars g) (chars r) → cap_matches g r = true.
Proof.
  intros Hre Hnl Hg. unfold cap_matches. case_decide; [done|]. rewrite Hre. rewrite cap_regex_pieces in Hre.
  rewrite (regex_pieces (piece_of <$> chars g) re r); [by apply pieces_complete|apply pieces_plain|done].
Qed.
End matching.

(** ** Capability strings *)

Lemma split_dot_spec a b : free_of 46 a = true → split_once 46 (a +:+ "." +:+ b) = (a, Some b).
Proof. by apply split_once_spec. Qed.
Lemma split_dot_inv s a b : split_once 46 s = (a, Some b) → s = a +:+ "." +:+ b.
Proof. intros (c & Hc & ->)%split_once_inv. by apply byte_eq in Hc as ->. Qed.

Definition dot_free : string → bool := free_of 46.

Lemma splitn_canonical verb kind subject :
  dot_free verb = true → dot_free kind = true →
  splitn 46 4 (canonical_cap kind subject verb) = ["ryeos"%string; verb; kind; subject].
Proof.
  intros Hv Hk. unfold canonical_cap. cbn [splitn].
  change ("ryeos." +:+ verb +:+ "." +:+ kind +:+ "." +:+ subject) with
    ("ryeos" +:+ "." +:+ verb +:+ "." +:+ kind +:+ "." +:+ subject).
  by rewrite !split_dot_spec.
Qed.

Lemma capability_parse_wire cap :
  dot_free (cap_verb cap) = true → dot_free (cap_kind cap) = true → capability_parse (to_wire cap) = Ok cap.
Proof.
  intros Hv Hk. unfold capability_parse.
  change (to_wire cap) with (canonical_cap (cap_kind cap) (cap_subject cap) (cap_verb cap)).
  rewrite splitn_canonical by done. by destruct cap.
Qed.
Lemma capability_parse_inv cap s :
  capability_parse s = Ok cap →
  to_wire cap = s ∧ dot_free (cap_verb cap) = true ∧ dot_free (cap_kind cap) = true.
Proof.
  unfold capability_parse. cbn [splitn].
  destruct (split_once 46 s) as [root [s1|]] eqn:H0; [|done].
  destruct (split_once 46 s1) as [verb [s2|]] eqn:H1; [|done].
  destruct (split_once 46 s2) as [kind [s3|]] eqn:H2; [|done].
  case_decide; [|done]. intros [= <-]. subst root. cbn [cap_verb cap_kind cap_subject to_wire].
  apply split_once_free in H1 as Hv. apply split_once_free in H2 as Hk.
  apply split_dot_inv in H0 as ->, H1 as ->, H2 as ->. done.
Qed.

(** Capability strings round trip: what [to_wire] writes is read back by
    [parse], when verb and kind contain no dot, and a string that [parse]
    accepts is written back unchanged. *)
Theorem capability_roundtrip cap s :
  (dot_free (cap_verb cap) = true → dot_free (cap_kind cap) = true →
   capability_parse (to_wire cap) = Ok cap) ∧
  (capability_parse s = Ok cap →
   to_wire cap = s ∧ dot_free (cap_verb cap) = true ∧ dot_free (cap_kind cap) = true).
Proof. split; [apply capability_parse_wire|apply capability_parse_inv]. Qed.

Lemma capability_roundtrip_witness :
  capability_parse (to_wire {| cap_verb := "execute"; cap_kind := "service"; cap_subject := "a.b/c" |}) =
  Ok {| cap_verb := "execute"; cap_kind := "service"; cap_subject := "a.b/c" |}.
Proof.
  apply (proj1 (capability_roundtrip
    {| cap_verb := "execute"; cap_kind := "service"; cap_subject := "a.b/c" |} "")); vm_compute; reflexivity.
Defined.

(** ** Concrete requirements *)

(** The bytes of a string end with its last character: no character is cut. *)
Fixpoint complete (s : string) : bool :=
  match s with
  | EmptyString => true
  | String a0 s0 =>
      if byte_of a0 <? 128 then complete s0
      else
        match s0 with
        | EmptyString => false
        | String a1 s1 =>
            if byte_of a0 <? 224 then complete s1
            else
              match s1 with
              | EmptyString => false
              | String a2 s2 =>
                  if byte_of a0 <? 240 then complete s2
                  else match s2 with EmptyString => false | String a3 s3 => complete s3 end
              end
        end
  end.
Lemma chars_append a b : complete a = true → chars (a +:+ b) = chars a ++ chars b.
Proof.
  induction a as [a IH] using (well_founded_induction (Wf_nat.well_founded_ltof _ String.length)).
  unfold Wf_nat.ltof in IH. intros Ha.
  destruct a as [|a0 s0]; [done|]. rewrite append_cons. cbn [complete chars] in *.
  destruct (byte_of a0 <? 128); [cbn; f_equal; apply IH; [cbn; lia|done]|].
  destruct s0 as [|a1 s1]; [done|]. rewrite append_cons.
  destruct (byte_of a0 <? 224); [cbn; f_equal; apply IH; [cbn; lia|done]|].
  destruct s1 as [|a2 s2]; [done|]. rewrite append_cons.
  destruct (byte_of a0 <? 240); [cbn; f_equal; apply IH; [cbn; lia|done]|].
  destruct s2 as [|a3 s3]; [done|]. rewrite append_cons. cbn; f_equal; apply IH; [cbn; lia|done].
Qed.
Lemma complete_append a b : complete a = true → complete b = true → complete (a +:+ b) = true.
Proof.
  induction a as [a IH] using (well_founded_induction (Wf_nat.well_founded_ltof _ String.length)).
  unfold Wf_nat.ltof in IH. intros Ha Hb.
  destruct a as [|a0 s0]; [done|]. rewrite append_cons. cbn [complete] in *.
  destruct (byte_of a0 <? 128); [apply IH; [cbn; lia|done..]|].
  destruct s0 as [|a1 s1]; [done|]. rewrite append_cons.
  destruct (byte_of a0 <? 224); [apply IH; [cbn; lia|done..]|].
  destruct s1 as [|a2 s2]; [done|]. rewrite append_cons.
  destruct (byte_of a0 <? 240); [apply IH; [cbn; lia|done..]|].
  destruct s2 as [|a3 s3]; [done|]. rewrite append_cons. apply IH; [cbn; lia|done..].
Qed.

(** A capability a policy can require without wildcards. *)
Record concrete (s verb kind subject : string) : Prop := {
  concrete_eq : s = canonical_cap kind subject verb;
  concrete_verb : dot_free verb = true ∧ complete verb = true;
  concrete_kind : dot_free kind = true ∧ complete kind = true;
  concrete_chars : 42 ∉ chars s ∧ 63 ∉ chars s ∧ 10 ∉ chars s;
}.

Section concrete.
Context `{RegexEngine} `{!RegexLaws}.

Lemma canonical_chars kind subject verb :
  complete verb = true → complete kind = true →
  chars (canonical_cap kind subject verb) =
  chars ("ryeos." +:+ verb +:+ "." +:+ kind +:+ ".") ++ chars subject.
Proof.
  intros Hv Hk. rewrite <- chars_append; [by rewrite !append_assoc|].
  apply complete_append; [done|]. apply complete_append; [done|]. apply complete_append; [done|].
  by apply complete_append.
Qed.
Lemma concrete_pattern s verb kind subject :
  concrete s verb kind subject → pattern_parse s = Full verb kind subject.
Proof.
  intros [-> [Hv Hcv] [Hk Hck] (Hstar & _)]. unfold pattern_parse.
  rewrite decide_False by (intros Hs; by apply (f_equal (λ s, starts_with "ryeos." s)) in Hs).
  change (starts_with "ryeos." (canonical_cap kind subject verb)) with true. cbn [negb].
  rewrite splitn_canonical by done. apply decide_False. intros ->. apply Hstar.
  rewrite canonical_chars by done. apply elem_of_app. right. by left.
Qed.
Lemma concrete_sound s verb kind subject g :
  concrete s verb kind subject → pattern_matches (pattern_parse s) g = true → glob (chars g) (chars s).
Proof.
  intros Hc. rewrite (concrete_pattern _ _ _ _ Hc). unfold pattern_matches.
  destruct Hc as [-> [Hv Hcv] [Hk Hck] (H42 & H63 & _)]. case_decide.
  { intros _. subst g. apply glob_star. eexists _, []. split; [symmetry; apply app_nil_r|constructor]. }
  intros [Hp|Hm]%orb_prop; [|by apply cap_matches_sound].
  destruct (capability_parse g) as [cap|] eqn:Hcap; [|done].
  apply andb_prop in Hp as [[Hverb%bool_decide_eq_true Hkind%bool_decide_eq_true]%andb_prop Hm].
  apply capability_parse_inv in Hcap as (<- & _ & _). apply cap_matches_sound in Hm.
  change (to_wire cap) with (canonical_cap (cap_kind cap) (cap_subject cap) (cap_verb cap)).
  rewrite Hverb, Hkind. rewrite canonical_chars, not_elem_of_app in H42, H63 by done.
  apply glob_literal in Hm; [|tauto..]. rewrite !canonical_chars, Hm by done. apply glob_refl.
Qed.
Lemma concrete_complete s verb kind subject g re :
  concrete s verb kind subject → regex_new (cap_regex g) = Ok re → glob (chars g) (chars s) →
  pattern_matches (pattern_parse s) g = true.
Proof.
  intros Hc Hre Hg. rewrite (concrete_pattern _ _ _ _ Hc). unfold pattern_matches.
  destruct Hc as [-> _ _ (_ & _ & Hnl)]. case_decide; [done|]. apply orb_true_intro. right.
  by apply (cap_matches_complete _ _ re).
Qed.

Lemma check_single_spec scopes s :
  check_single scopes s = true ↔ ∃ g, g ∈ scopes ∧ pattern_matches (pattern_parse s) g = true.
Proof. unfold check_single. rewrite existsb_exists. by setoid_rewrite <- list_elem_of_In. Qed.
Lemma authorize_spec scopes clauses :
  authorize scopes (Protected clauses) = Ok tt ↔
  ∀ clause, clause ∈ clauses → ∃ s, s ∈ any_of clause ∧ check_single scopes s = true.
Proof.
  cbn [authorize]. induction clauses as [|clause clauses IH]; [split; [intros _ ? []%not_elem_of_nil|done]|].
  setoid_rewrite elem_of_cons. destruct (existsb (check_single scopes) (any_of clause)) eqn:He.
  - rewrite IH. apply existsb_exists in He as (s & Hs%list_elem_of_In & ?). split; [|naive_solver].
    intros Hall ? [->|?]; [eauto|auto].
  - split; [done|]. intros Hall. destruct (Hall clause) as (s & Hs & Hck); [by left|].
    assert (existsb (check_single scopes) (any_of clause) = true); [|congruence].
    apply existsb_exists. exists s. by rewrite <- list_elem_of_In.
Qed.
End concrete.

(** ** A regular-expression engine for the samples

    It compiles anchored ASCII expressions made of the pieces, and refuses
    everything else. *)

Fixpoint sample_pieces (s : string) : option (list piece) :=
  match s with
  | EmptyString => None
  | String a s =>
      let b := byte_of a in
      if b =? 36 then if is_empty s then Some [] else None
      else if b =? 46 then
        match s with
        | String a' s' =>
            if byte_of a' =? 42 then cons AnyText <$> sample_pieces s' else cons AnyChar <$> sample_pieces s
        | EmptyString => None
        end
      else if b =? 92 then
        match s with
        | String a' s' => cons (Char (byte_of a')) <$> sample_pieces s'
        | EmptyString => None
        end
      else if b <? 128 then cons (Char b) <$> sample_pieces s
      else None
  end.
#[local] Instance sample_engine : RegexEngine := {|
  CompiledRegex := list piece;
  regex_new := λ s,
    match s with
    | String a s =>
        if byte_of a =? 94 then ok_or (sample_pieces s) "unsupported"%string else Err "not anchored"%string
    | EmptyString => Err "not anchored"%string
    end;
  is_match := λ ps s, pieces_match ps (chars s);
|}.

Lemma byte_of_ascii z : 0 ≤ z < 256 → byte_of (ascii_of_Z z) = z.
Proof.
  intros Hz. unfold byte_of, ascii_of_Z. rewrite Ascii.N_ascii_embedding by lia. lia.
Qed.
Lemma lor_above a b : 0 ≤ a → 0 ≤ b → a ≤ Z.lor a b.
Proof.
  intros Ha Hb. apply Z.ldiff_le; [by apply Z.lor_nonneg|]. apply Z.bits_inj'. intros n _.
  rewrite Z.ldiff_spec, Z.lor_spec, Z.bits_0. by destruct (Z.testbit a n), (Z.testbit b n).
Qed.
(** The encoding of a character starts with its byte, or with one above ASCII. *)
Lemma encode_first c :
  0 ≤ c < 2 ^ 21 → ∃ a s, encode_utf8 c = String a s ∧
    (c < 128 ∧ byte_of a = c ∧ s = EmptyString ∨ 128 ≤ c ∧ 128 ≤ byte_of a).
Proof.
  intros Hc. unfold encode_utf8.
  assert (∀ m k, 0 ≤ k → 128 ≤ m < 2 ^ 8 → c < 2 ^ (8 + k) →
    128 ≤ byte_of (ascii_of_Z (Z.lor m (Z.shiftr c k)))) as Hlead.
  { intros m k Hk Hm Hck. rewrite Z.shiftr_div_pow2 by done.
    assert (0 < 2 ^ k) by (apply Z.pow_pos_nonneg; lia).
    assert (0 ≤ c / 2 ^ k < 2 ^ 8) as Hq.
    { split; [apply Z.div_pos; lia|]. apply Z.div_lt_upper_bound; [lia|].
      rewrite Z.pow_add_r in Hck by lia. lia. }
    rewrite byte_of_ascii by (apply (bits_lor 8); lia). pose proof (lor_above m (c / 2 ^ k)). lia. }
  destruct (Z.ltb_spec c 128); [eexists _, _; split; [done|left]; rewrite byte_of_ascii by lia; auto|].
  destruct (Z.ltb_spec c 2048); [eexists _, _; split; [done|right; split; [done|apply Hlead; lia]]|].
  destruct (Z.ltb_spec c 65536); [eexists _, _; split; [done|right; split; [done|apply Hlead; lia]]|].
  eexists _, _; split; [done|right; split; [done|apply Hlead; lia]].
Qed.

Lemma is_meta_ascii c : is_meta c = true → 0 ≤ c < 128.
Proof. unfold is_meta. rewrite !orb_true_iff, !Z.eqb_eq. lia. Qed.
(** No expression of the pieces starts with a star. *)
Lemma pieces_head ps : Forall plain ps →
  ∃ a s, foldr (λ p s, piece_text p +:+ s) EmptyString ps +:+ "$" = String a s ∧ byte_of a ≠ 42.
Proof.
  intros [|p qs Hp _]; [by eexists _, _|]. cbn [foldr]. rewrite append_assoc. destruct p as [| |c].
  1,2: by eexists _, _.
  destruct Hp as (H42 & _ & Hr). cbn [piece_text]. case_match; [by eexists _, _|].
  destruct (encode_first c Hr) as (a & s & -> & Ha). rewrite append_cons. eexists _, _. split; [done|lia].
Qed.
Lemma sample_pieces_sound ps re :
  Forall plain ps →
  sample_pieces (foldr (λ p s, piece_text p +:+ s) EmptyString ps +:+ "$") = Some re → re = ps.
Proof.
  intros Hps. revert re. induction Hps as [|p ps Hp Hps IH]; intros re; cbn [foldr]; [by intros [= <-]|].
  rewrite append_assoc. destruct (pieces_head ps Hps) as (a & s & Hrest & Ha). rewrite Hrest in *.
  assert (∀ q, cons q <$> sample_pieces (String a s) = Some re → re = q :: ps) as Hcons.
  { intros q Hq. destruct (sample_pieces (String a s)) as [qs|]; cbn in Hq; [|done].
    simplify_eq. f_equal. by apply IH. }
  destruct p as [| |c]; cbn [piece_text].
  - apply (Hcons AnyText).
  - change ("." +:+ String a s) with (String (ascii_of_Z 46) (String a s)). cbn -[sample_pieces].
    unfold sample_pieces at 1. change (byte_of (ascii_of_Z 46)) with 46. cbn -[sample_pieces].
    rewrite (proj2 (Z.eqb_neq _ _) Ha). apply (Hcons AnyChar).
  - destruct Hp as (_ & _ & Hr). destruct (encode_first c Hr) as (a' & s' & Henc & Hc). case_match eqn:Hm.
    + apply is_meta_ascii in Hm. destruct Hc as [(_ & Hb & ->)|]; [|lia]. rewrite Henc.
      intros Hx. apply (Hcons (Char c)). rewrite <- Hb. exact Hx.
    + rewrite Henc. destruct Hc as [(Hlt & Hb & ->)|[? Hb]].
      * rewrite append_cons, append_nil_l. unfold is_meta in Hm. rewrite !orb_false_iff in Hm.
        cbn -[sample_pieces]. unfold sample_pieces at 1. fold sample_pieces. rewrite Hb.
        destruct Hm as (((((((((((Hm1 & _) & _) & _) & _) & _) & _) & _) & _) & Hm2) & _) & Hm3).
        rewrite Hm1, Hm2, Hm3. rewrite (proj2 (Z.ltb_lt _ _) Hlt). apply Hcons.
      * rewrite append_cons. unfold sample_pieces at 1.
        rewrite !(proj2 (Z.eqb_neq _ _)) by lia. rewrite (proj2 (Z.ltb_ge _ _)) by lia. done.
Qed.
#[local] Instance sample_engine_laws : RegexLaws.
Proof.
  intros ps re s Hps. unfold anchored.
  change ("^" +:+ ?t) with (String (ascii_of_Z 94) t). cbn [regex_new is_match sample_engine].
  change (byte_of (ascii_of_Z 94) =? 94) with true.
  destruct (sample_pieces _) as [qs|] eqn:Hq; [|done]. intros [= <-]. by rewrite (sample_pieces_sound ps qs).
Qed.

(** ** Properties *)

(** C31. A caller is authorized exactly by what their scopes say, when a
    protected policy requires concrete capabilities: [authorize] succeeds
    only if in every clause some capability is matched, character by
    character, by one of the scopes read as a pattern of [*] and [?], and it
    does succeed then, provided the regular expressions made of the scopes
    compile.  No other rule of the authorizer, wildcards on the required
    side included, grants a concrete capability.  Without scopes only the
    policy without clauses passes; the documentation of [authorize] says
    that empty scopes fail on every protected policy. *)
Theorem authorization_exact `{RegexEngine} `{!RegexLaws} scopes clauses :
  (∀ clause s, clause ∈ clauses → s ∈ any_of clause → ∃ verb kind subject, concrete s verb kind subject) →
  let granted := ∀ clause, clause ∈ clauses →
    ∃ s g, s ∈ any_of clause ∧ g ∈ scopes ∧ glob (chars g) (chars s) in
  (authorize scopes (Protected clauses) = Ok tt → granted) ∧
  ((∀ g, g ∈ scopes → ∃ re, regex_new (cap_regex g) = Ok re) → granted →
   authorize scopes (Protected clauses) = Ok tt) ∧
  (authorize [] (Protected clauses) = Ok tt ↔ clauses = []).
Proof.
  intros Hconc granted. rewrite !authorize_spec. setoid_rewrite check_single_spec. split_and!.
  - intros Hall clause Hin. destruct (Hall clause Hin) as (s & Hs & g & Hg & Hm).
    exists s, g. split_and!; [done|done|].
    destruct (Hconc clause s Hin Hs) as (verb & kind & subject & Hc). by eapply concrete_sound.
  - intros Hre Hall clause Hin. destruct (Hall clause Hin) as (s & g & Hs & Hg & Hm).
    exists s. split; [done|]. exists g. split; [done|].
    destruct (Hconc clause s Hin Hs) as (verb & kind & subject & Hc).
    destruct (Hre g Hg) as [re Hr]. by eapply concrete_complete.
  - split; [|by intros -> ? ?%not_elem_of_nil]. destruct clauses as [|clause clauses]; [done|].
    intros Hall. destruct (Hall clause) as (s & _ & g & []%not_elem_of_nil & _). by left.
Qed.

Definition sample_scopes : list string := ["node.maintenance"; "ryeos.execute.service.bundle/*"]%string.
Definition sample_required : string := "ryeos.execute.service.bundle/install".

Lemma sample_concrete : concrete sample_required "execute" "service" "bundle/install".
Proof. split; [done|done|done|]. split_and!; apply (bool_decide_unpack _); vm_compute; exact I. Qed.

Lemma authorization_exact_witness :
  authorize sample_scopes (policy_require sample_required) = Ok tt ∧
  (∃ s g, s ∈ [sample_required] ∧ g ∈ sample_scopes ∧ glob (chars g) (chars s)) ∧
  authorize [] (policy_require sample_required) ≠ Ok tt.
Proof.
  destruct (authorization_exact sample_scopes [{| any_of := [sample_required] |}]) as (Honly & Hdoes & Hnone).
  { intros clause s ->%list_elem_of_singleton ->%list_elem_of_singleton.
    exists "execute"%string, "service"%string, "bundle/install"%string. exact sample_concrete. }
  assert (authorize sample_scopes (policy_require sample_required) = Ok tt) as Hok by (vm_compute; reflexivity).
  pose proof (Honly Hok) as Hgranted. split_and!.
  - apply Hdoes; [|exact Hgranted].
    intros g [->|[->|[]%not_elem_of_nil]%elem_of_cons]%elem_of_cons; eexists; vm_compute; reflexivity.
  - apply (Hgranted {| any_of := [sample_required] |}). by left.
  - intros Hempty%Hnone. discriminate.
Defined.

(** Adding scopes never revokes an authorization, and a failure names
    the capabilities of the first clause that no scope satisfies. *)
Theorem authorize_monotone `{RegexEngine} scopes extra policy :
  (authorize scopes policy = Ok tt → authorize (scopes ++ extra) policy = Ok tt) ∧
  (∀ needed, authorize scopes policy = Err (Unauthorized needed) →
    ∃ before clause after, policy = Protected (before ++ clause :: after) ∧
      needed = join_comma (any_of clause) ∧ authorize scopes (Protected before) = Ok tt ∧
      ∀ s, s ∈ any_of clause → check_single scopes s = false).
Proof.
  split.
  - destruct policy as [|clauses]; [done|]. rewrite !authorize_spec. setoid_rewrite check_single_spec.
    intros Hall clause Hin. destruct (Hall clause Hin) as (s & Hs & g & Hg & Hm).
    exists s. split; [done|]. exists g. split; [|done]. apply elem_of_app. by left.
  - intros needed. destruct policy as [|clauses]; [done|]. cbn [authorize].
    induction clauses as [|clause clauses IH]; [done|].
    destruct (existsb (check_single scopes) (any_of clause)) eqn:He.
    + intros (before & c & after & [= ->] & -> & Hb & Hc)%IH. exists (clause :: before), c, after.
      split_and!; [done|done| |done]. cbn [authorize]. by rewrite He.
    + intros [= <-]. exists [], clause, clauses. split_and!; [done..|]. intros s Hs.
      destruct (check_single scopes s) eqn:Hck; [|done].
      assert (existsb (check_single scopes) (any_of clause) = true); [|congruence].
      apply existsb_exists. exists s. by rewrite <- list_elem_of_In.
Qed.

Lemma authorize_monotone_witness :
  authorize (sample_scopes ++ ["x"%string]) (policy_require sample_required) = Ok tt.
Proof.
  apply (proj1 (authorize_monotone sample_scopes ["x"%string] (policy_require sample_required))).
  vm_compute. reflexivity.
Defined.

