(* ===== verification/CanonicalRef.v ===== *)
(** * Canonical item references

    [ryeos-engine/src/canonical_ref.rs]: the references [kind:bare_id] with
    an optional suffix that name every item of the system, their parser and
    their printer. *)

From Stdlib Require Import Ascii.
From S2P Require Import Prelude.

Inductive RefSuffix :=
| Capability (signature fingerprint constraints_hash : string)
| Signed (content_hash signature : string)
| Temporal (at_ : string).

Record CanonicalRef := {
  kind : string;
  bare_id : string;
  suffix : option RefSuffix;
}.

(** The errors of [EngineError] the parser reports. *)
Inductive RefError :=
| MalformedRef (input reason : string)
| BareRefRejected (input : string)
| InvalidSuffix (input reason : string).
Definition ref_error_display (e : RefError) : string :=
  match e with
  | MalformedRef input reason => "malformed ref `" +:+ input +:+ "`: " +:+ reason
  | BareRefRejected input => "bare ref rejected (canonical refs required): `" +:+ input +:+ "`"
  | InvalidSuffix input reason => "invalid suffix on ref `" +:+ input +:+ "`: " +:+ reason
  end.

(** [char::is_alphanumeric], a table of the Unicode standard. *)
Class UnicodeTables := { is_alphanumeric : Z → bool }.

(** [if bad { return Err(error) }]. *)
Definition refuse {E} (bad : bool) (error : E) : Result E unit := if bad then Err error else Ok tt.

(** [parse_suffix]. *)
Definition parse_suffix (full_input suffix_str : string) : Result RefError RefSuffix :=
  if starts_with "cap:" suffix_str then
    match splitn 58 3 (drop_bytes 4 suffix_str) with
    | [signature; fingerprint; constraints_hash] =>
        if is_empty signature || is_empty fingerprint || is_empty constraints_hash then
          Err (InvalidSuffix full_input
                 "cap suffix requires cap:<signature>:<fingerprint>:<constraints_hash>")
        else Ok (Capability signature fingerprint constraints_hash)
    | _ => Err (InvalidSuffix full_input
                  "cap suffix requires cap:<signature>:<fingerprint>:<constraints_hash>")
    end
  else if starts_with "sig:" suffix_str then
    match splitn 58 2 (drop_bytes 4 suffix_str) with
    | [content_hash; signature] =>
        if is_empty content_hash || is_empty signature then
          Err (InvalidSuffix full_input "sig suffix requires sig:<content_hash>:<signature>")
        else Ok (Signed content_hash signature)
    | _ => Err (InvalidSuffix full_input "sig suffix requires sig:<content_hash>:<signature>")
    end
  else if starts_with "t:" suffix_str then
    let rest := drop_bytes 2 suffix_str in
    if is_empty rest then Err (InvalidSuffix full_input "t suffix requires t:<timestamp>")
    else Ok (Temporal rest)
  else Err (InvalidSuffix full_input ("unknown suffix type: " +:+ suffix_str)).

(** The characters of a kind and of a bare id. *)
Definition kind_char (b : Z) : bool :=
  ((97 <=? b) && (b <=? 122)) || is_ascii_digit b || (b =? 95) || (b =? 45).
Definition bare_char `{UnicodeTables} (c : Z) : bool :=
  is_alphanumeric c || (c =? 47) || (c =? 45) || (c =? 95) || (c =? 46).

(** The loop over the segments of a bare id. *)
Fixpoint check_segments (input : string) (segments : list string) : Result RefError unit :=
  match segments with
  | [] => Ok tt
  | segment :: segments =>
      refuse (is_empty segment)
        (MalformedRef input "bare_id contains empty segment (double slash)") ;;
      refuse (bool_decide (segment = ".."))
        (MalformedRef input "bare_id contains '..' path traversal segment") ;;
      refuse (bool_decide (segment = "."))
        (MalformedRef input "bare_id contains '.' segment") ;;
      check_segments input segments
  end.

(** [str::ends_with] of a character. *)
Fixpoint ends_with_byte (b : Z) (s : string) : bool :=
  match s with
  | EmptyString => false
  | String a EmptyString => byte_of a =? b
  | String _ s => ends_with_byte b s
  end.

(** The checks of [CanonicalRef::parse] on a bare id. *)
Definition check_bare_id `{UnicodeTables} (input bare : string) : Result RefError unit :=
  refuse (is_empty bare) (MalformedRef input "empty bare_id") ;;
  refuse (negb (forallb bare_char (chars bare)))
    (MalformedRef input ("bare_id contains invalid characters: " +:+ bare)) ;;
  refuse (head_is (λ b, b =? 47) bare)
    (MalformedRef input "bare_id must not start with '/' (absolute path)") ;;
  refuse (ends_with_byte 47 bare) (MalformedRef input "bare_id must not end with '/'") ;;
  check_segments input (split 47 bare).

(** [CanonicalRef::parse]. *)
Definition canonical_ref_parse `{UnicodeTables} (input : string) : Result RefError CanonicalRef :=
  if is_empty input then Err (MalformedRef input "empty ref string")
  else
    match split_once 58 input with
    | (_, None) => Err (BareRefRejected input)
    | (kind_str, Some remainder) =>
        refuse (is_empty kind_str) (MalformedRef input "empty kind prefix") ;;
        refuse (negb (forallb kind_char (chars kind_str)))
          (MalformedRef input ("kind contains invalid characters: " +:+ kind_str)) ;;
        refuse (is_empty remainder) (MalformedRef input "empty bare_id after kind") ;;
        '(bare, suffix) ← match split_once 64 remainder with
                          | (bare, Some suffix_str) =>
                              suffix ← parse_suffix input suffix_str ; Ok (bare, Some suffix)
                          | (bare, None) => Ok (bare, None)
                          end ;
        check_bare_id input bare ;;
        Ok {| kind := kind_str; bare_id := bare; suffix := suffix |}
    end.

(** [Display for CanonicalRef]. *)
Definition suffix_display (s : RefSuffix) : string :=
  match s with
  | Capability signature fingerprint constraints_hash =>
      "@cap:" +:+ signature +:+ ":" +:+ fingerprint +:+ ":" +:+ constraints_hash
  | Signed content_hash signature => "@sig:" +:+ content_hash +:+ ":" +:+ signature
  | Temporal at_ => "@t:" +:+ at_
  end.
Definition canonical_ref_display (r : CanonicalRef) : string :=
  kind r +:+ ":" +:+ bare_id r +:+
  match suffix r with Some s => suffix_display s | None => EmptyString end.

(** ** What a reference is

    The grammar of the documentation, without the parser: a kind of
    lowercase letters, digits, [_] and [-]; a relative path of plain
    segments; parts of a suffix that are present and separable. *)

Definition plain_segment (segment : string) : Prop :=
  segment ≠ EmptyString ∧ segment ≠ ".." ∧ segment ≠ ".".
Definition well_formed_suffix (s : RefSuffix) : Prop :=
  match s with
  | Capability signature fingerprint constraints_hash =>
      signature ≠ EmptyString ∧ fingerprint ≠ EmptyString ∧ constraints_hash ≠ EmptyString ∧
      free_of 58 signature = true ∧ free_of 58 fingerprint = true
  | Signed content_hash signature =>
      content_hash ≠ EmptyString ∧ signature ≠ EmptyString ∧ free_of 58 content_hash = true
  | Temporal at_ => at_ ≠ EmptyString
  end.
Record well_formed_ref `{UnicodeTables} (r : CanonicalRef) : Prop := {
  ref_kind : kind r ≠ EmptyString ∧ forallb kind_char (chars (kind r)) = true;
  ref_kind_colon : free_of 58 (kind r) = true;
  ref_bare : forallb bare_char (chars (bare_id r)) = true;
  ref_bare_at : free_of 64 (bare_id r) = true;
  ref_segments : Forall plain_segment (split 47 (bare_id r));
  ref_suffix : match suffix r with Some s => well_formed_suffix s | None => True end;
}.

(** ** The parser accepts exactly the references *)

Lemma refuse_ok {E} bad (e : E) : refuse bad e = Ok tt ↔ bad = false.
Proof. by destruct bad. Qed.
Lemma refuse_bind {E A} bad (e : E) (m : Result E A) a :
  (refuse bad e ;; m) = Ok a ↔ bad = false ∧ m = Ok a.
Proof. destruct bad; cbn; naive_solver. Qed.
Lemma is_empty_spec s : is_empty s = false ↔ s ≠ EmptyString.
Proof. by destruct s. Qed.
Lemma starts_with_append p s : starts_with p (p +:+ s) = true.
Proof. induction p; rewrite ?append_cons; cbn; [done|]. by rewrite decide_True. Qed.
Lemma starts_with_inv p s : starts_with p s = true → s = p +:+ drop_bytes (String.length p) s.
Proof.
  revert s. induction p as [|a p IH]; intros [|b s]; cbn; try done.
  case_decide as Hab; [|done]. intros Hs. subst b. rewrite append_cons. f_equal. auto.
Qed.

Lemma splitn_2 b s x y :
  splitn b 2 s = [x; y] ↔ ∃ c, byte_of c = b ∧ s = x +:+ String c y ∧ free_of b x = true.
Proof.
  cbn [splitn]. split.
  - destruct (split_once b s) as [p [r|]] eqn:Hs; [|done]. intros [= <- <-].
    apply split_once_free in Hs as Hf. apply split_once_inv in Hs as (c & Hc & ->). by exists c.
  - intros (c & Hc & -> & Hx). by rewrite (split_once_spec b c).
Qed.
Lemma splitn_3 b s x y z :
  splitn b 3 s = [x; y; z] ↔
  ∃ c d, byte_of c = b ∧ byte_of d = b ∧ s = x +:+ String c (y +:+ String d z) ∧
         free_of b x = true ∧ free_of b y = true.
Proof.
  change (splitn b 3 s) with (match split_once b s with
    | (part, Some rest) => part :: splitn b 2 rest | (part, None) => [part] end). split.
  - destruct (split_once b s) as [p [r|]] eqn:Hs; [|done].
    intros [= <- (d & Hd & -> & Hy)%splitn_2].
    apply split_once_free in Hs as Hf. apply split_once_inv in Hs as (c & Hc & ->). by exists c, d.
  - intros (c & d & Hc & Hd & -> & Hx & Hy). rewrite (split_once_spec b c) by done. f_equal.
    apply splitn_2. by exists d.
Qed.

Lemma colon c : byte_of c = 58 → c = ":"%char.
Proof. apply byte_eq. Qed.

Lemma parse_suffix_exact input s x :
  parse_suffix input s = Ok x ↔ "@" +:+ s = suffix_display x ∧ well_formed_suffix x.
Proof.
  unfold parse_suffix. split.
  - destruct (starts_with "cap:" s) eqn:Hp.
    { apply starts_with_inv in Hp. cbn [String.length] in Hp. revert Hp.
      generalize (drop_bytes 4 s) as t. intros t ->.
      destruct (splitn 58 3 t) as [|? [|? [|? [|? ?]]]] eqn:Hn; try done.
      apply splitn_3 in Hn as (c & d & ->%colon & ->%colon & -> & H1 & H2).
      destruct (_ || _) eqn:He; [done|]. intros [= <-].
      rewrite !orb_false_iff, !is_empty_spec in He. naive_solver. }
    clear Hp. destruct (starts_with "sig:" s) eqn:Hp.
    { apply starts_with_inv in Hp. cbn [String.length] in Hp. revert Hp.
      generalize (drop_bytes 4 s) as t. intros t ->.
      destruct (splitn 58 2 t) as [|? [|? [|? ?]]] eqn:Hn; try done.
      apply splitn_2 in Hn as (c & ->%colon & -> & H1).
      destruct (_ || _) eqn:He; [done|]. intros [= <-].
      rewrite !orb_false_iff, !is_empty_spec in He. naive_solver. }
    clear Hp. destruct (starts_with "t:" s) eqn:Hp; [|done].
    apply starts_with_inv in Hp. cbn [String.length] in Hp. revert Hp.
    generalize (drop_bytes 2 s) as t. intros t ->.
    destruct (is_empty t) eqn:He; [done|]. intros [= <-]. apply is_empty_spec in He. done.
  - intros [Hs Hw]. destruct x as [a b c|a b|a]; cbn in Hs, Hw.
    + assert (s = "cap:" +:+ (a +:+ ":" +:+ b +:+ ":" +:+ c)) as -> by (by injection Hs).
      rewrite starts_with_append. change (drop_bytes 4 ("cap:" +:+ ?t)) with t.
      destruct Hw as (Ha & Hb & Hc & Hfa & Hfb).
      rewrite (proj2 (splitn_3 58 _ a b c)) by (by exists ":"%char, ":"%char).
      by rewrite !(proj2 (is_empty_spec _)).
    + assert (s = "sig:" +:+ (a +:+ ":" +:+ b)) as -> by (by injection Hs).
      destruct (starts_with "cap:" _) eqn:Hp; [done|].
      rewrite starts_with_append. change (drop_bytes 4 ("sig:" +:+ ?t)) with t.
      destruct Hw as (Ha & Hb & Hfa).
      rewrite (proj2 (splitn_2 58 _ a b)) by (by exists ":"%char).
      by rewrite !(proj2 (is_empty_spec _)).
    + assert (s = "t:" +:+ a) as -> by (by injection Hs).
      destruct (starts_with "cap:" _) eqn:Hp; [done|]. destruct (starts_with "sig:" _) eqn:Hq; [done|].
      rewrite starts_with_append. change (drop_bytes 2 ("t:" +:+ ?t)) with t.
      by rewrite (proj2 (is_empty_spec _)).
Qed.

Lemma check_segments_exact input l : check_segments input l = Ok tt ↔ Forall plain_segment l.
Proof.
  induction l as [|s l IH]; cbn [check_segments]; [done|].
  rewrite !refuse_bind, IH, is_empty_spec, !bool_decide_eq_false, Forall_cons.
  unfold plain_segment. naive_solver.
Qed.
Lemma split_nonempty b s : split b s ≠ [].
Proof. destruct s as [|a s]; cbn; [done|]. destruct (byte_of a =? b); [done|]. by destruct (split b s). Qed.
Lemma split_head b s : head_is (λ z, z =? b) s = true → EmptyString ∈ split b s.
Proof. destruct s as [|a s]; [done|]. unfold head_is. cbn. intros ->. apply elem_of_cons. by left. Qed.
Lemma split_last b s : ends_with_byte b s = true → EmptyString ∈ tail (split b s).
Proof.
  induction s as [|a [|c s] IH]; [done| |].
  - cbn. intros ->. cbn. by apply list_elem_of_singleton.
  - intros He. specialize (IH He). revert IH. generalize (String c s) as t. intros t IH. cbn [split].
    destruct (byte_of a =? b); cbn; [destruct (split b t); [done|by right]|].
    by destruct (split b t).
Qed.
Lemma plain_nonempty l : Forall plain_segment l → EmptyString ∉ l.
Proof. intros Hl Hin. by destruct (proj1 (Forall_forall _ _) Hl _ Hin) as [? _]. Qed.

Section exact.
Context `{UnicodeTables}.

Lemma check_bare_exact input bare :
  check_bare_id input bare = Ok tt ↔
  forallb bare_char (chars bare) = true ∧ Forall plain_segment (split 47 bare).
Proof.
  unfold check_bare_id. rewrite !refuse_bind, check_segments_exact, negb_false_iff.
  split; [naive_solver|]. intros [Hc Hs]. pose proof (plain_nonempty _ Hs) as Hne. split_and!; [|done| | |done].
  - apply is_empty_spec. intros ->. apply Hne. by apply list_elem_of_singleton.
  - apply not_true_is_false. intros Hh. by apply Hne, split_head.
  - apply not_true_is_false. intros Hh%split_last. apply Hne. destruct (split 47 bare); [done|by right].
Qed.

Lemma parse_tail_exact input remainder bare suffix :
  match split_once 64 remainder with
  | (bare, Some suffix_str) => suffix ← parse_suffix input suffix_str ; Ok (bare, Some suffix)
  | (bare, None) => Ok (bare, None)
  end = Ok (bare, suffix) ↔
  remainder = bare +:+ match suffix with Some s => suffix_display s | None => EmptyString end ∧
  free_of 64 bare = true ∧ match suffix with Some s => well_formed_suffix s | None => True end.
Proof.
  split.
  - destruct (split_once 64 remainder) as [p [r|]] eqn:Hs.
    + apply split_once_free in Hs as Hf. apply split_once_inv in Hs as (c & ->%byte_eq & ->).
      destruct (parse_suffix input r) as [x|] eqn:Hp; [|done]. intros [= <- <-].
      apply parse_suffix_exact in Hp as [<- Hw]. done.
    + apply split_once_none in Hs as [-> Hf]. intros [= <- <-]. by rewrite append_nil_r.
  - intros (-> & Hf & Hw). destruct suffix as [x|].
    + assert (∃ t, suffix_display x = String "@" t) as [t Ht] by (destruct x; by eexists).
      rewrite Ht, (split_once_spec 64) by done. cbn.
      by rewrite (proj2 (parse_suffix_exact input t x)).
    + by rewrite append_nil_r, (split_once_whole 64).
Qed.

(** C37. The reference parser accepts exactly the canonical references: a
    text is read as [r] if and only if it is what [r] is printed as and [r]
    has a kind, a relative path of plain segments (none empty, [.] or [..])
    and a complete suffix.  So parsing and printing are inverse to each
    other, and no accepted reference leaves the directory of its kind. *)
Theorem canonical_ref_exact input r :
  canonical_ref_parse input = Ok r ↔ input = canonical_ref_display r ∧ well_formed_ref r.
Proof.
  unfold canonical_ref_parse, canonical_ref_display. split.
  - destruct (is_empty input) eqn:Hi; [done|].
    destruct (split_once 58 input) as [k [rest|]] eqn:Hs; [|done].
    rewrite !refuse_bind, !is_empty_spec, negb_false_iff. intros (Hk & Hc & _ & Hp).
    apply split_once_free in Hs as Hf. apply split_once_inv in Hs as (c & ->%byte_eq & ->).
    destruct (match split_once 64 rest with (b, Some t) => _ | (b, None) => _ end)
      as [[bare sfx]|e] eqn:Ht; cbn in Hp; [|done].
    apply parse_tail_exact in Ht as (-> & Hat & Hw).
    destruct (check_bare_id _ bare) as [[]|] eqn:Hb; [|done]. injection Hp as <-.
    apply check_bare_exact in Hb as [Hb Hseg]. done.
  - intros [-> Hw]. destruct r as [k bare sfx]. destruct Hw as [[Hk Hc] Hcol Hb Hat Hseg Hsfx]. cbn in *.
    rewrite (proj2 (is_empty_spec _)) by (by destruct k).
    change (":" +:+ ?t) with (String ":"%char t). rewrite (split_once_spec 58) by done.
    rewrite !refuse_bind, !is_empty_spec, negb_false_iff. split_and!; [done..| |].
    + intros He. apply (plain_nonempty _ Hseg). destruct bare; [by apply list_elem_of_singleton|done].
    + rewrite (proj2 (parse_tail_exact _ _ bare sfx)) by done. cbn.
      by rewrite (proj2 (check_bare_exact _ _)).
Qed.

End exact.
