(* ===== verification/Schedule.v ===== *)
(** * Schedules: boundaries, plans and policies

    The pure part of the scheduler ([ryeos-scheduler]): reading schedule
    expressions and computing fire times ([crontab.rs]), the planner shared
    by timer, diagnostics and recovery ([planning.rs]), the misfire and
    overlap policies a schedule names ([misfire.rs], [overlap.rs]), and the
    identities of fires ([types.rs], [ryeos-state/src/gc/retention.rs]).

    Times are [i64] milliseconds.  An [i64] operation that overflows is the
    fault [Panicked]: it panics in a build with overflow checks and wraps
    around in one without, and nothing is claimed about what follows it. *)

From S2P Require Import Prelude.

(** ** Errors

    An [anyhow::Error] is the chain of its messages, outermost first;
    [Killed] is the end of the process at a durable write, and [Diverged] a
    loop of the model that ran out of its fuel. *)

Inductive Fault :=
| Error (chain : list string)
| Panicked
| Killed
| Diverged.

Definition Sch : Type → Type := Result Fault.

Definition bail {A} (message : string) : Sch A := Err (Error [message]).
(** [if bad { bail!(message) }]. *)
Definition reject (bad : bool) (message : string) : Sch unit :=
  if bad then bail message else Ok tt.
(** [Context::with_context] on a [Result] and on an [Option]. *)
Definition with_context {A} (message : string) (r : Sch A) : Sch A :=
  match r with
  | Err (Error chain) => Err (Error (message :: chain))
  | _ => r
  end.
Definition some_or {A} (o : option A) (message : string) : Sch A :=
  match o with Some a => Ok a | None => bail message end.
(** A library error that is wrapped by a context. *)
Definition of_library {A} (r : Result string A) : Sch A := map_err (λ e, Error [e]) r.

(** ** [i64] arithmetic and the readers of integers *)

Definition checked (z : Z) : Sch Z := if is_i64 z then Ok z else Err Panicked.
Definition i64_add (a b : Z) : Sch Z := checked (a + b).
Definition i64_sub (a b : Z) : Sch Z := checked (a - b).
Definition i64_mul (a b : Z) : Sch Z := checked (a * b).
Definition i64_clamp (z : Z) : Z := Z.max i64_min (Z.min i64_max z).

(** The digit loop of [str::parse] on an integer type whose values satisfy
    [fits]; [sign] is 1 or -1. *)
Fixpoint accumulate (fits : Z → bool) (sign : Z) (overflow : string) (acc : Z) (s : string)
  : Result string Z :=
  match s with
  | EmptyString => Ok acc
  | String a r =>
      if is_ascii_digit (byte_of a) then
        if fits (acc * 10) then
          let v := acc * 10 + sign * (byte_of a - 48) in
          if fits v then accumulate fits sign overflow v r else Err overflow
        else Err overflow
      else Err "invalid digit found in string"
  end.

Definition parse_int (signed : bool) (fits : Z → bool) (s : string) : Result string Z :=
  match s with
  | EmptyString => Err "cannot parse integer from empty string"
  | String a r =>
      let plus := byte_of a =? 43 in
      let minus := byte_of a =? 45 in
      if (plus || minus) && is_empty r then Err "invalid digit found in string"
      else if plus then accumulate fits 1 "number too large to fit in target type" 0 r
      else if signed && minus then
        accumulate fits (-1) "number too small to fit in target type" 0 r
      else accumulate fits 1 "number too large to fit in target type" 0 s
  end.
Definition parse_i64 : string → Result string Z := parse_int true is_i64.
Definition parse_u64 : string → Result string Z := parse_int false is_u64.

(** [Result::ok]. *)
Definition ok {E A} (r : Result E A) : option A :=
  match r with Ok a => Some a | Err _ => None end.

(** ** What the scheduler uses of [cron], [chrono] and [chrono-tz] *)

Class Calendar := {
  CronSchedule : Type;
  Tz : Type;
  Instant : Type;
  (** [cron::Schedule::from_str]. *)
  cron_from_str : string → Result string CronSchedule;
  (** [str::parse::<chrono_tz::Tz>]. *)
  tz_parse : string → Result string Tz;
  (** [DateTime::from_timestamp_millis] and [Utc::now]. *)
  from_timestamp_millis : Z → option Instant;
  utc_now : Instant;
  (** The n-th occurrence of [schedule.after(&instant.with_timezone(&tz))],
      as a timestamp. *)
  cron_after : CronSchedule → Tz → Instant → nat → option Z;
  (** [DateTime::parse_from_rfc3339], as a timestamp. *)
  parse_from_rfc3339 : string → option Z;
}.

Section crontab.
Context `{Calendar}.

(** [crontab.rs: next_cron_fire]. *)
Definition next_cron_fire (expression timezone : string) (after_ms : Z) : Sch (option Z) :=
  schedule ← with_context ("invalid cron expression: " +:+ expression)
               (of_library (cron_from_str expression)) ;
  let after := default utc_now (from_timestamp_millis after_ms) in
  tz ← with_context ("invalid IANA timezone: " +:+ timezone) (of_library (tz_parse timezone)) ;
  Ok (cron_after schedule tz after 0).

(** [crontab.rs: find_most_recent_cron], the loop; [fuel] is what is left of
    its 10,000 iterations. *)
Definition MAX_ITERATIONS : nat := N.to_nat 10000.
Fixpoint walk (occurrence : nat → option Z) (end_ms : Z) (fuel i : nat) (most_recent : option Z)
  : option Z :=
  match fuel with
  | O => most_recent
  | S fuel =>
      match occurrence i with
      | None => most_recent
      | Some ms => if end_ms <? ms then most_recent else walk occurrence end_ms fuel (S i) (Some ms)
      end
  end.
Definition find_most_recent_cron (expression timezone : string) (start_ms end_ms : Z) : option Z :=
  schedule ← ok (cron_from_str expression) ;
  tz ← ok (tz_parse timezone) ;
  start ← from_timestamp_millis start_ms ;
  walk (cron_after schedule tz start) end_ms MAX_ITERATIONS 0 None.

(** [crontab.rs: next_interval_fire]. *)
Definition next_interval_fire (expression : string) (now_ms : Z) (last_fire_at : option Z)
  : Sch (option Z) :=
  interval_secs ← with_context
    ("invalid interval expression (must be integer seconds): " +:+ expression)
    (of_library (parse_i64 expression)) ;
  if interval_secs <=? 0 then bail ("interval must be positive, got: " +:+ pretty interval_secs)
  else
    interval_ms ← i64_mul interval_secs 1000 ;
    match last_fire_at with
    | Some last =>
        next ← i64_add last interval_ms ;
        if next <? now_ms then
          elapsed ← i64_sub now_ms last ;
          let intervals_elapsed := Z.quot elapsed interval_ms in
          k ← i64_add intervals_elapsed 1 ;
          span ← i64_mul k interval_ms ;
          at_ ← i64_add last span ;
          Ok (Some at_)
        else Ok (Some next)
    | None => at_ ← i64_add now_ms interval_ms ; Ok (Some at_)
    end.

(** [crontab.rs: parse_iso_ts]. *)
Definition parse_iso_ts (expression : string) : option Z :=
  match parse_from_rfc3339 expression with
  | Some ts => Some ts
  | None => parse_from_rfc3339 (expression +:+ "Z")
  end.

(** [crontab.rs: next_at_fire]. *)
Definition next_at_fire (expression : string) (now_ms : Z) : Sch (option Z) :=
  match parse_iso_ts expression with
  | Some target => Ok (if now_ms <? target then Some target else None)
  | None => bail ("invalid at expression (must be ISO 8601 timestamp): " +:+ expression)
  end.

(** [crontab.rs: compute_next_fire]. *)
Definition compute_next_fire (schedule_type expression timezone : string) (after_ms : Z)
    (last_fire_at : option Z) : Sch (option Z) :=
  if decide (schedule_type = "cron") then next_cron_fire expression timezone after_ms
  else if decide (schedule_type = "interval") then
    next_interval_fire expression after_ms last_fire_at
  else if decide (schedule_type = "at") then next_at_fire expression after_ms
  else bail ("unknown schedule_type: " +:+ schedule_type).

(** [crontab.rs: compute_scheduled_at]. *)
Definition compute_scheduled_at (schedule_type expression timezone : string) (now_ms : Z)
    (last_fire_at registration_time : option Z) : Sch (option Z) :=
  if decide (schedule_type = "cron") then
    let after := default 0 (union last_fire_at registration_time) in
    Ok (find_most_recent_cron expression timezone after now_ms)
  else if decide (schedule_type = "interval") then
    match parse_i64 expression with
    | Ok interval_secs =>
        if interval_secs <=? 0 then Ok None
        else
          interval_ms ← i64_mul interval_secs 1000 ;
          match last_fire_at with
          | Some last => at_ ← i64_add last interval_ms ; Ok (Some at_)
          | None => Ok None
          end
    | Err _ => Ok None
    end
  else if decide (schedule_type = "at") then Ok (parse_iso_ts expression)
  else Ok None.

(** [crontab.rs: validate_expression], [is_at_past], [validate_timezone]. *)
Definition validate_expression (schedule_type expression : string) : Sch unit :=
  if decide (schedule_type = "cron") then
    _ ← with_context ("invalid cron expression: " +:+ expression)
          (of_library (cron_from_str expression)) ;
    Ok tt
  else if decide (schedule_type = "interval") then
    secs ← with_context ("interval must be integer seconds: " +:+ expression)
             (of_library (parse_i64 expression)) ;
    reject (secs <=? 0) ("interval must be positive, got: " +:+ pretty secs)
  else if decide (schedule_type = "at") then
    match parse_iso_ts expression with
    | None => bail ("invalid at expression (must be ISO 8601 timestamp): " +:+ expression)
    | Some _ => Ok tt
    end
  else bail ("unknown schedule_type: " +:+ schedule_type).
Definition is_at_past (expression : string) (now_ms : Z) : bool :=
  match parse_iso_ts expression with Some ts => ts <=? now_ms | None => true end.
Definition validate_timezone (tz : string) : Sch unit :=
  _ ← with_context ("invalid IANA timezone: " +:+ tz) (of_library (tz_parse tz)) ;
  Ok tt.

End crontab.

(** ** Records of [types.rs] *)

Record ScheduleSpecRecord := {
  schedule_id : string;
  item_ref : string;
  ref_bindings : list (string * string);
  params : string;
  schedule_type : string;
  expression : string;
  timezone : string;
  misfire_policy : string;
  overlap_policy : string;
  lateness_grace_secs : Z;
  enabled : bool;
  project_root : option string;
  signer_fingerprint : string;
  spec_hash : string;
  registered_at : Z;
  requester_fingerprint : string;
  capabilities : list string;
}.

Record ScheduleCursorRecord := {
  c_schedule_id : string;
  c_spec_hash : string;
  c_last_scheduled_at : option Z;
  c_next_fire_at : option Z;
  c_last_evaluated_at : option Z;
  c_updated_at : Z;
}.

Record PendingFire := {
  p_fire_id : string;
  p_scheduled_at : Z;
  p_reason : string;
}.

(** [types.rs: fire_id]. *)
Definition fire_id (schedule_id : string) (scheduled_at_ms : Z) : string :=
  schedule_id +:+ "@" +:+ pretty scheduled_at_ms.

(** [sha2::Sha256::digest], 32 bytes. *)
Class Sha256 := {
  sha256 : string → list Z;
  sha256_length : ∀ s, length (sha256 s) = 32%nat;
  sha256_bytes : ∀ s, Forall (λ b, 0 ≤ b < 256) (sha256 s);
}.

(** [format!("{:x}")] of a digest, [lillux::cas::sha256_hex]. *)
Definition hex_digit (n : Z) : Ascii.ascii := ascii_of_Z (if n <? 10 then 48 + n else 87 + n).
Definition sha256_hex `{Sha256} (data : string) : string :=
  foldr (λ b s, String (hex_digit (Z.shiftr b 4)) (String (hex_digit (Z.land b 15)) s))
    EmptyString (sha256 data).

(** [&s[from..to]]. *)
Definition slice (from to : nat) (s : string) : string := take_bytes (to - from) (drop_bytes from s).

(** [types.rs: thread_id_from_fire]. *)
Definition thread_id_from_fire `{Sha256} (fire_id : string) : string :=
  let hash := sha256_hex fire_id in
  "T-" +:+ slice 0 8 hash +:+ "-" +:+ slice 8 12 hash +:+ "-" +:+ slice 12 16 hash +:+ "-" +:+
  slice 16 20 hash +:+ "-" +:+ slice 20 32 hash.

(** ** Fire records, [ryeos-state/src/gc/retention.rs] *)

Record FireRecord := {
  f_fire_id : string;
  f_schedule_id : string;
  f_scheduled_at : Z;
  f_fired_at : option Z;
  f_completed_at : option Z;
  f_thread_id : option string;
  f_status : string;
  f_trigger_reason : string;
  f_outcome : option string;
  f_signer_fingerprint : string;
}.
#[export] Instance FireRecord_eq_dec : EqDecision FireRecord.
Proof. solve_decision. Defined.

(** [lillux::cas::valid_hash] and [types.rs: is_canonical_hash]. *)
Definition valid_hash (s : string) : bool := (len s =? 64) && all_bytes is_ascii_hexdigit s.
Definition is_ascii_uppercase (b : Z) : bool := (65 <=? b) && (b <=? 90).
Definition is_ascii_lowercase (b : Z) : bool := (97 <=? b) && (b <=? 122).
Definition is_canonical_hash (value : string) : bool :=
  valid_hash value && all_bytes (λ b, negb (is_ascii_uppercase b)) value.

(** [retention.rs: validate_schedule_id]. *)
Definition is_slug (b : Z) : bool := is_ascii_lowercase b || is_ascii_digit b.
Fixpoint last_byte (s : string) : option Z :=
  match s with
  | EmptyString => None
  | String a EmptyString => Some (byte_of a)
  | String _ s => last_byte s
  end.
Definition validate_schedule_id (id : string) : Sch unit :=
  reject (is_empty id || (128 <? len id)) "schedule_id must contain 1..=128 bytes" ;;
  reject (negb (head_is is_slug id) ||
          negb (match last_byte id with Some b => is_slug b | None => false end))
    "schedule_id must begin and end with a lowercase ASCII letter or digit" ;;
  reject (negb (all_bytes (λ b, is_slug b || (b =? 45) || (b =? 95) || (b =? 46)) id))
    "schedule_id may contain only lowercase ASCII letters, digits, '-', '_', and '.'".

(** [retention.rs: require_non_empty]. *)
Definition require_non_empty (value field : string) : Sch unit :=
  reject (is_empty (trim value)) (field +:+ " must not be empty").

(** [retention.rs: is_terminal_fire_status]. *)
Definition is_terminal_fire_status (status : string) : bool :=
  bool_decide (status = "completed") || bool_decide (status = "failed") ||
  bool_decide (status = "cancelled") || bool_decide (status = "skipped").

Section fire_record.
Context `{Sha256}.

(** The outcomes [FireRecord::validate] admits for a terminal status. *)
Definition valid_outcome (status trigger_reason outcome : string) : bool :=
  if decide (status = "completed") then
    bool_decide (outcome = "success") || bool_decide (outcome = "result_failed")
  else if decide (status = "cancelled") then bool_decide (outcome = "thread_cancelled")
  else if decide (status = "skipped") then bool_decide (outcome = trigger_reason)
  else if decide (status = "failed") then
    negb (bool_decide (outcome = "success") || bool_decide (outcome = "result_failed") ||
          bool_decide (outcome = "thread_cancelled"))
  else false.

(** The part of [FireRecord::validate] on terminal statuses. *)
Definition validate_terminal (r : FireRecord) (fired_at : Z) : Sch unit :=
  completed_at ← some_or (f_completed_at r) "terminal scheduler fire must have completed_at" ;
  reject (completed_at <? fired_at) "scheduler fire completed_at precedes fired_at" ;;
  outcome ← some_or (f_outcome r) "terminal scheduler fire must have outcome" ;
  require_non_empty outcome "scheduler fire outcome" ;;
  let skipped := bool_decide (f_status r = "skipped") in
  let threaded := bool_decide (is_Some (f_thread_id r)) in
  reject (skipped && threaded) "skipped scheduler fire must not have a thread_id" ;;
  reject (negb skipped && negb threaded)
    "non-skipped terminal scheduler fire must retain thread_id" ;;
  reject (negb (valid_outcome (f_status r) (f_trigger_reason r) outcome))
    ("scheduler fire status " +:+ f_status r +:+ " has incompatible outcome " +:+ outcome).

(** [FireRecord::validate]. *)
Definition validate (r : FireRecord) : Sch unit :=
  validate_schedule_id (f_schedule_id r) ;;
  reject (f_scheduled_at r <? 0) "scheduler fire scheduled_at must not be negative" ;;
  let expected_fire_id := fire_id (f_schedule_id r) (f_scheduled_at r) in
  reject (negb (bool_decide (f_fire_id r = expected_fire_id)))
    ("scheduler fire identity " +:+ f_fire_id r +:+ " does not match canonical " +:+
     expected_fire_id) ;;
  fired_at ← some_or (f_fired_at r) "scheduler fire fired_at must be present" ;
  reject (fired_at <? f_scheduled_at r) "scheduler fire fired_at precedes scheduled_at" ;;
  require_non_empty (f_trigger_reason r) "scheduler fire trigger_reason" ;;
  reject (negb (is_canonical_hash (f_signer_fingerprint r)))
    "scheduler fire signer_fingerprint must be lowercase SHA-256 hex" ;;
  match f_thread_id r with
  | Some thread_id =>
      reject (negb (bool_decide (thread_id = thread_id_from_fire (f_fire_id r))))
        ("scheduler fire " +:+ f_fire_id r +:+ " thread_id is not deterministic")
  | None => Ok tt
  end ;;
  if decide (f_status r = "dispatched") then
    reject (bool_decide (is_Some (f_completed_at r)) || bool_decide (is_Some (f_outcome r)))
      "dispatched scheduler fire must not have completed_at or outcome" ;;
    reject (bool_decide (f_thread_id r = None))
      "dispatched scheduler fire must have its deterministic thread_id"
  else if is_terminal_fire_status (f_status r) then validate_terminal r fired_at
  else bail ("invalid scheduler fire status: " +:+ f_status r).

(** [FireRecord::validate_transition_from]. *)
Definition validate_transition_from (r previous : FireRecord) : Sch unit :=
  validate previous ;;
  validate r ;;
  reject (negb (bool_decide (f_fire_id r = f_fire_id previous)) ||
          negb (bool_decide (f_schedule_id r = f_schedule_id previous)) ||
          negb (bool_decide (f_scheduled_at r = f_scheduled_at previous)) ||
          negb (bool_decide (f_trigger_reason r = f_trigger_reason previous)) ||
          negb (bool_decide (f_signer_fingerprint r = f_signer_fingerprint previous)))
    "scheduler fire transition changes immutable identity or authority" ;;
  if decide (r = previous) then Ok tt
  else
    reject (negb (bool_decide (f_status previous = "dispatched")))
      ("terminal scheduler fire " +:+ f_fire_id r +:+ " cannot transition from " +:+
       f_status previous +:+ " to " +:+ f_status r) ;;
    reject (negb (bool_decide (f_fired_at r = f_fired_at previous)) ||
            negb (bool_decide (f_thread_id r = f_thread_id previous)))
      "scheduler fire transition changes immutable dispatch timestamp or thread identity".

End fire_record.

(** ** The planner, [planning.rs] *)

Record SchedulePlan := {
  last_scheduled_at : option Z;
  last_fire_at : option Z;
  current_due_at : option Z;
  current_due_within_grace : option bool;
  misfire_horizon_exclusive : option Z;
  next_fire_at : option Z;
  decision : string;
  decision_reason : string;
}.

(** [interval_ms]. *)
Definition interval_ms (spec : ScheduleSpecRecord) : Sch (option Z) :=
  match parse_i64 (expression spec) with
  | Ok secs => if secs <=? 0 then Ok None else ms ← i64_mul secs 1000 ; Ok (Some ms)
  | Err _ => Ok None
  end.

(** [within_lateness_grace]. *)
Definition within_lateness_grace (spec : ScheduleSpecRecord) (scheduled_at now_ms : Z) : bool :=
  let grace_ms := i64_clamp (lateness_grace_secs spec * 1000) in
  now_ms <=? i64_clamp (scheduled_at + grace_ms).

(** [compute_current_interval_due]. *)
Definition compute_current_interval_due (spec : ScheduleSpecRecord) (last : option Z) (now_ms : Z)
  : Sch (option Z) :=
  interval ← interval_ms spec ;
  match interval with
  | None => Ok None
  | Some interval_ms =>
      let anchor := default (registered_at spec) last in
      first_due ← i64_add anchor interval_ms ;
      if now_ms <? first_due then Ok None
      else
        elapsed ← i64_sub now_ms first_due ;
        let intervals_elapsed := Z.quot elapsed interval_ms in
        span ← i64_mul intervals_elapsed interval_ms ;
        due ← i64_add first_due span ;
        Ok (Some due)
  end.

(** [compute_next_interval_fire]. *)
Definition compute_next_interval_fire (spec : ScheduleSpecRecord) (last : option Z) (now_ms : Z)
    (current_due : option Z) : Sch (option Z) :=
  interval ← interval_ms spec ;
  match interval with
  | None => Ok None
  | Some interval_ms =>
      first_fire ← i64_add (registered_at spec) interval_ms ;
      if bool_decide (last = None) && (now_ms <? first_fire) then Ok (Some first_fire)
      else
        let anchor := default first_fire (union current_due last) in
        next ← i64_add anchor interval_ms ;
        if next <=? now_ms then
          elapsed ← i64_sub now_ms anchor ;
          let intervals_elapsed := Z.quot elapsed interval_ms in
          k ← i64_add intervals_elapsed 1 ;
          span ← i64_mul k interval_ms ;
          next ← i64_add anchor span ;
          Ok (Some next)
        else Ok (Some next)
  end.

Section planning.
Context `{Calendar}.

(** A one-shot target that no fire has recorded yet. *)
Definition unrecorded_target (spec : ScheduleSpecRecord) (last : option Z) : option Z :=
  target ← parse_iso_ts (expression spec) ;
  let already_recorded := match last with Some last => target <=? last | None => false end in
  if already_recorded then None else Some target.

(** [compute_current_due_at]. *)
Definition compute_current_due_at (spec : ScheduleSpecRecord) (last : option Z) (now_ms : Z)
  : Sch (option Z) :=
  if decide (schedule_type spec = "at") then
    Ok (target ← unrecorded_target spec last ; if target <=? now_ms then Some target else None)
  else if decide (schedule_type spec = "interval") then
    compute_current_interval_due spec last now_ms
  else
    at_ ← compute_scheduled_at (schedule_type spec) (expression spec) (timezone spec) now_ms last
            (Some (registered_at spec)) ;
    match at_ with
    | Some at_ => Ok (if at_ <=? now_ms then Some at_ else None)
    | None => Ok None
    end.

(** [compute_next_planned_fire]. *)
Definition compute_next_planned_fire (spec : ScheduleSpecRecord) (last : option Z) (now_ms : Z)
    (current_due : option Z) : Sch (option Z) :=
  if decide (schedule_type spec = "interval") then
    compute_next_interval_fire spec last now_ms current_due
  else if decide (schedule_type spec = "cron") then
    match compute_next_fire (schedule_type spec) (expression spec) (timezone spec) now_ms None with
    | Ok next => Ok next
    | Err (Error _) => Ok None
    | Err fault => Err fault
    end
  else if decide (schedule_type spec = "at") then
    Ok (target ← unrecorded_target spec last ; if now_ms <? target then Some target else None)
  else Ok None.

(** The decision of [plan_schedule_from_boundaries]; its guard [next > now_ms]
    chooses between two arms that are the same. *)
Definition plan_decision (spec : ScheduleSpecRecord) (due : option Z) (within : option bool)
    (next : option Z) : string * string :=
  match due, within, next with
  | Some _, Some true, _ => ("due_within_grace", "current due boundary is within lateness grace")
  | Some _, Some false, _ =>
      ("late_misfire_evaluation", "current due boundary is beyond lateness grace")
  | None, _, Some _ => ("waiting_for_next_boundary", "next fire is in the future")
  | None, _, None =>
      if decide (schedule_type spec = "at") then
        ("exhausted", "one-shot schedule has no future fire")
      else ("invalid_or_exhausted", "schedule expression produced no current or future fire")
  | Some _, None, _ => ("waiting_for_next_boundary", "next fire is in the future")
  end.

(** [plan_schedule_from_boundaries]. *)
Definition plan_schedule_from_boundaries (spec : ScheduleSpecRecord) (last fired : option Z)
    (now_ms : Z) : Sch SchedulePlan :=
  if negb (enabled spec) then
    Ok {| last_scheduled_at := last; last_fire_at := fired; current_due_at := None;
          current_due_within_grace := None; misfire_horizon_exclusive := None;
          next_fire_at := None; decision := "disabled";
          decision_reason := "schedule is disabled" |}
  else
    due ← compute_current_due_at spec last now_ms ;
    next ← compute_next_planned_fire spec last now_ms due ;
    let within := (λ due, within_lateness_grace spec due now_ms) <$> due in
    let horizon :=
      (λ due, if within_lateness_grace spec due now_ms then due else now_ms) <$> due in
    let '(d, reason) := plan_decision spec due within next in
    Ok {| last_scheduled_at := last; last_fire_at := fired; current_due_at := due;
          current_due_within_grace := within; misfire_horizon_exclusive := horizon;
          next_fire_at := next; decision := d; decision_reason := reason |}.

(** [plan_schedule] and [plan_schedule_from_cursor]. *)
Definition plan_schedule (spec : ScheduleSpecRecord) (last_fire : option FireRecord) (now_ms : Z)
  : Sch SchedulePlan :=
  plan_schedule_from_boundaries spec (f_scheduled_at <$> last_fire)
    (last_fire ≫= f_fired_at) now_ms.
Definition plan_schedule_from_cursor (spec : ScheduleSpecRecord) (last : option Z) (now_ms : Z)
  : Sch SchedulePlan :=
  plan_schedule_from_boundaries spec last None now_ms.

End planning.

(** ** Policies *)

Inductive MisfirePolicy :=
| Skip
| FireOnceNow
| CatchUpBounded (max : Z)
| CatchUpWithinSecs (seconds : Z).

(** [misfire.rs: parse_misfire_policy]; [usize] and [u64] have one range. *)
Definition parse_misfire_policy (raw : string) : Sch MisfirePolicy :=
  let invalid := "invalid misfire_policy: " +:+ raw in
  if decide (raw = "skip") then Ok Skip
  else if decide (raw = "fire_once_now") then Ok FireOnceNow
  else if starts_with "catch_up_bounded:" raw then
    count ← map_err (λ _, Error [invalid]) (parse_u64 (drop_bytes 17 raw)) ;
    Ok (CatchUpBounded count)
  else if starts_with "catch_up_within_secs:" raw then
    seconds ← map_err (λ _, Error [invalid]) (parse_u64 (drop_bytes 21 raw)) ;
    reject (Z.quot i64_max 1000 <? seconds) ("misfire_policy window is too large: " +:+ raw) ;;
    Ok (CatchUpWithinSecs seconds)
  else bail invalid.
Definition resolve_misfire_policy (spec : ScheduleSpecRecord) : Sch MisfirePolicy :=
  parse_misfire_policy (misfire_policy spec).

Inductive OverlapPolicy := OverlapAllow | OverlapSkip | CancelPrevious.

(** [overlap.rs: parse_overlap_policy]. *)
Definition parse_overlap_policy (raw : string) : Sch OverlapPolicy :=
  if decide (raw = "allow") then Ok OverlapAllow
  else if decide (raw = "cancel_previous") then Ok CancelPrevious
  else if decide (raw = "skip") then Ok OverlapSkip
  else bail ("invalid overlap_policy: " +:+ raw).
Definition resolve_overlap_policy (spec : ScheduleSpecRecord) : Sch OverlapPolicy :=
  parse_overlap_policy (overlap_policy spec).

(** ** Outcomes of threads, [result_outcome.rs] *)

Inductive ThreadResultOutcome := Success | ResultFailed (reason : option string).

Definition completed_fire_outcome (result : option ThreadResultOutcome) : string :=
  match result with Some (ResultFailed _) => "result_failed" | _ => "success" end.

(** [ThreadStatus::from_str_lossy] followed by [is_terminal]. *)
Definition thread_status_is_terminal (status : string) : bool :=
  bool_decide (status ∈ ["completed"; "failed"; "cancelled"; "killed"; "timed_out"; "continued"]).

Definition fire_status_for_thread_status (thread_status : string) : string :=
  if decide (thread_status = "completed") then "completed"
  else if decide (thread_status = "cancelled") then "cancelled"
  else "failed".

Definition fire_outcome_for_terminal (thread_status : string) (result : option ThreadResultOutcome)
    (fallback_outcome_code : option string) : string :=
  if decide (thread_status = "completed") then completed_fire_outcome result
  else if decide (thread_status = "cancelled") then "thread_cancelled"
  else if decide (thread_status = "killed") then default "thread_killed" fallback_outcome_code
  else if decide (thread_status = "timed_out") then
    default "thread_timed_out" fallback_outcome_code
  else if decide (thread_status = "continued") then
    default "thread_continued" fallback_outcome_code
  else default "thread_failed" fallback_outcome_code.
