(* ===== verification/SchedulerDb.v ===== *)
(** * The scheduler's store: fire rows, outbox and journals

    [db.rs] and the durable half of [projection.rs] of [ryeos-scheduler].
    Every change of a fire row puts the complete row into an outbox in the
    same transaction; a drainer appends the snapshots to the journal file of
    their schedule before it removes them from the outbox; the fire table
    can be rebuilt from the journals. *)

From S2P Require Import Prelude Float64 Json Schedule.

(** ** State *)

Record OutboxRow := {
  o_fire_id : string;
  o_schedule_id : string;
  o_snapshot_json : string;
}.

(** The tables of [scheduler.sqlite3]; the outbox in the order of its
    sequence numbers. *)
Record Db := {
  specs : gmap string ScheduleSpecRecord;
  fires : gmap string FireRecord;
  cursors : gmap string ScheduleCursorRecord;
  projection_state : gmap string Z;
  outbox : list OutboxRow;
}.

(** The work a detached dispatch task still has to do. *)
Record DispatchTask := {
  t_fire_id : string;
  t_thread_id : string;
  t_spec : ScheduleSpecRecord;
  t_scheduled_at : Z;
  t_trigger_reason : string;
  t_dispatched_at : Z;
}.

(** When the process will be killed: at the durable write that follows
    [writes_left] more of them, an append to a journal being cut after
    [torn_bytes] bytes. *)
Record Kill := { writes_left : nat; torn_bytes : nat }.

(** The store, the bytes of the journal files by schedule, every task that
    was ever spawned, the cancellations that were submitted, the number of
    observations (clock readings, thread inspections) made so far, and the
    end that awaits the process, if any. *)
Record World := {
  db : Db;
  journals : gmap string string;
  spawned : list DispatchTask;
  cancelled : list string;
  observations : nat;
  kill : option Kill;
}.

Definition Op : Type → Type := M World Fault.

Definition with_db (f : Db → Db) (w : World) : World :=
  {| db := f (db w); journals := journals w; spawned := spawned w; cancelled := cancelled w;
     observations := observations w; kill := kill w |}.
Definition set_fires (f : gmap string FireRecord → gmap string FireRecord) (d : Db) : Db :=
  {| specs := specs d; fires := f (fires d); cursors := cursors d;
     projection_state := projection_state d; outbox := outbox d |}.
Definition set_cursors (f : gmap string ScheduleCursorRecord → gmap string ScheduleCursorRecord)
    (d : Db) : Db :=
  {| specs := specs d; fires := fires d; cursors := f (cursors d);
     projection_state := projection_state d; outbox := outbox d |}.
Definition set_outbox (f : list OutboxRow → list OutboxRow) (d : Db) : Db :=
  {| specs := specs d; fires := fires d; cursors := cursors d;
     projection_state := projection_state d; outbox := f (outbox d) |}.
Definition set_projection (f : gmap string Z → gmap string Z) (d : Db) : Db :=
  {| specs := specs d; fires := fires d; cursors := cursors d;
     projection_state := f (projection_state d); outbox := outbox d |}.
Definition set_journals (f : gmap string string → gmap string string) (w : World) : World :=
  {| db := db w; journals := f (journals w); spawned := spawned w; cancelled := cancelled w;
     observations := observations w; kill := kill w |}.
Definition observe (w : World) : World :=
  {| db := db w; journals := journals w; spawned := spawned w; cancelled := cancelled w;
     observations := S (observations w); kill := kill w |}.
Definition set_kill (k : option Kill) (w : World) : World :=
  {| db := db w; journals := journals w; spawned := spawned w; cancelled := cancelled w;
     observations := observations w; kill := k |}.

Definition read {A} (f : World → A) : Op A := λ w, (Ok (f w), w).
Definition modify (f : World → World) : Op unit := λ w, (Ok tt, f w).
(** An answer of the environment, which may change with every observation. *)
Definition observe_with {A} (answer : nat → A) : Op A :=
  λ w, (Ok (answer (observations w)), observe w).
Definition op_context {A} (message : string) (m : Op A) : Op A :=
  λ w, let '(r, w') := m w in (with_context message r, w').

(** The moment before a durable write, at which the process may be killed. *)
Definition checkpoint : Op unit :=
  λ w, match kill w with
       | None => (Ok tt, w)
       | Some k => match writes_left k with
                   | O => (Err Killed, w)
                   | S n => (Ok tt, set_kill (Some {| writes_left := n; torn_bytes := torn_bytes k |}) w)
                   end
       end.

(** [conn.transaction()] up to [tx.commit()], and a statement that is
    executed on its own: the tables are restored when the transaction is
    dropped on an error or the process is killed before it is committed. *)
Definition transaction {A} (m : Op A) : Op A :=
  λ w, match (a ← m ; checkpoint ;; mret a) w with
       | (Ok a, w') => (Ok a, w')
       | (Err e, w') => (Err e, with_db (λ _, db w) w')
       end.

(** ** What the store uses of its environment *)

(** [lillux::time::timestamp_millis], by the number of the observation. *)
Class Clock := { clock : nat → Z }.
Definition timestamp_millis `{Clock} : Op Z := observe_with clock.

(** [serde_json] and [lillux::cas::canonical_json] on fire records. *)
Class FireCodec := {
  fire_to_string : FireRecord → string;
  fire_canonical_json : FireRecord → string;
  fire_from_str : string → Result string FireRecord;
}.

(** The order in which SQLite returns rows that no [ORDER BY] orders. *)
Class RowOrder := {
  scan : ∀ {A}, list A → list A;
  scan_permutation : ∀ {A} (rows : list A), scan rows ≡ₚ rows;
}.

(** ** Queries *)

Definition rows (w : World) : list FireRecord := snd <$> map_to_list (fires (db w)).

(** [get_fire], [get_fire_conn]. *)
Definition get_fire (fid : string) : Op (option FireRecord) := read (λ w, fires (db w) !! fid).
(** [get_spec], [get_spec_conn], [get_cursor]. *)
Definition get_spec (id : string) : Op (option ScheduleSpecRecord) := read (λ w, specs (db w) !! id).
Definition get_cursor (id : string) : Op (option ScheduleCursorRecord) :=
  read (λ w, cursors (db w) !! id).

(** [ORDER BY scheduled_at DESC, fire_id DESC LIMIT 1]. *)
Definition row_before (a b : FireRecord) : bool :=
  (f_scheduled_at a <? f_scheduled_at b) ||
  ((f_scheduled_at a =? f_scheduled_at b) &&
   match String.compare (f_fire_id a) (f_fire_id b) with Lt => true | _ => false end).
Definition latest_row (l : list FireRecord) : option FireRecord :=
  foldr (λ r best, match best with
                   | Some b => Some (if row_before b r then r else b)
                   | None => Some r
                   end) None l.

(** [get_last_fire], [get_last_fire_conn]. *)
Definition last_fire_of (w : World) (id : string) : option FireRecord :=
  latest_row (filter (λ r, f_schedule_id r = id) (rows w)).
Definition get_last_fire (id : string) : Op (option FireRecord) := read (λ w, last_fire_of w id).
(** [get_inflight_for_schedule]. *)
Definition get_inflight_for_schedule (id : string) : Op (option FireRecord) :=
  read (λ w, latest_row (filter (λ r, f_schedule_id r = id ∧ f_status r = "dispatched") (rows w))).
(** [get_inflight_fires]. *)
Definition get_inflight_fires `{RowOrder} : Op (list FireRecord) :=
  read (λ w, scan (filter (λ r, f_status r = "dispatched") (rows w))).
(** [find_stale_dispatched_fires]. *)
Definition find_stale_dispatched_fires `{RowOrder} `{Clock} (threshold_secs : Z)
  : Op (list FireRecord) :=
  now ← timestamp_millis ;
  window ← lift (i64_mul threshold_secs 1000) ;
  cutoff ← lift (i64_sub now window) ;
  let stale r := match f_fired_at r with Some t => t <? cutoff | None => false end in
  read (λ w, scan (filter (λ r, f_status r = "dispatched" ∧ stale r = true) (rows w))).

(** [fire_projection_is_current], [require_current_fire_projection_conn]. *)
Definition projection_is_current (d : Db) : bool :=
  bool_decide (size (projection_state d) = 1%nat) &&
  bool_decide (projection_state d !! "fires" = Some 1).
Definition fire_projection_is_current : Op bool := read (λ w, projection_is_current (db w)).
Definition require_current_fire_projection : Op unit :=
  current ← fire_projection_is_current ;
  lift (reject (negb current) "scheduler fire projection is incomplete; mutation refused").

Section store.
Context `{Calendar} `{Sha256} `{Clock} `{FireCodec}.

(** ** Mutations of fire rows *)

(** [upsert_fire_conn]. *)
Definition upsert_fire_conn (rec : FireRecord) : Op unit :=
  modify (with_db (set_fires <[f_fire_id rec := rec]>)).

(** [enqueue_current_fire_snapshot_conn]. *)
Definition enqueue_current_fire_snapshot_conn (fid : string) : Op FireRecord :=
  row ← get_fire fid ;
  fire ← lift (some_or row ("fire row missing after mutation: " +:+ fid)) ;
  lift (validate fire) ;;
  modify (with_db (set_outbox (λ l, l ++
    [{| o_fire_id := f_fire_id fire; o_schedule_id := f_schedule_id fire;
        o_snapshot_json := fire_to_string fire |}]))) ;;
  mret fire.

(** The cursor a plan gives a schedule. *)
Definition cursor_of (spec : ScheduleSpecRecord) (plan : SchedulePlan) (now : Z)
  : ScheduleCursorRecord :=
  {| c_schedule_id := schedule_id spec; c_spec_hash := spec_hash spec;
     c_last_scheduled_at := last_scheduled_at plan; c_next_fire_at := next_fire_at plan;
     c_last_evaluated_at := Some now; c_updated_at := now |}.

(** [refresh_cursor_for_schedule_conn]. *)
Definition refresh_cursor_for_schedule_conn (id : string) (now : Z) : Op unit :=
  spec ← get_spec id ;
  match spec with
  | None => modify (with_db (set_cursors (delete id)))
  | Some spec =>
      last_fire ← get_last_fire id ;
      plan ← lift (plan_schedule spec last_fire now) ;
      modify (with_db (set_cursors <[schedule_id spec := cursor_of spec plan now]>))
  end.

(** [SchedulerDb::upsert_fire]. *)
Definition upsert_fire (rec : FireRecord) : Op unit :=
  lift (validate rec) ;;
  transaction (
    require_current_fire_projection ;;
    previous ← get_fire (f_fire_id rec) ;
    match previous with
    | Some previous => lift (validate_transition_from rec previous)
    | None => mret tt
    end ;;
    upsert_fire_conn rec ;;
    _ ← enqueue_current_fire_snapshot_conn (f_fire_id rec) ;
    now ← timestamp_millis ;
    refresh_cursor_for_schedule_conn (f_schedule_id rec) now).

(** [SchedulerDb::claim_fire]: [INSERT OR IGNORE]. *)
Definition claim_fire (rec : FireRecord) : Op bool :=
  lift (validate rec) ;;
  transaction (
    require_current_fire_projection ;;
    existing ← get_fire (f_fire_id rec) ;
    match existing with
    | Some _ => mret false
    | None =>
        upsert_fire_conn rec ;;
        _ ← enqueue_current_fire_snapshot_conn (f_fire_id rec) ;
        now ← timestamp_millis ;
        refresh_cursor_for_schedule_conn (f_schedule_id rec) now ;;
        mret true
    end).

(** [SchedulerDb::reclaim_fire]. *)
Definition reclaim_fire (fid : string) : Op bool :=
  require_current_fire_projection ;;
  record ← get_fire fid ;
  match record with
  | None => mret false
  | Some record =>
      lift (validate record) ;;
      mret (bool_decide (f_status record = "dispatched"))
  end.

(** [SchedulerDb::project_fire_from_journal]. *)
Definition project_fire_from_journal (rec : FireRecord) : Op unit :=
  lift (validate rec) ;;
  transaction (upsert_fire_conn rec).

(** ** The outbox and the journals *)

(** The bytes up to the last line feed, [rposition] and [set_len]. *)
Fixpoint upto_last_newline (s : string) : string :=
  match s with
  | EmptyString => EmptyString
  | String a r =>
      match upto_last_newline r with
      | EmptyString => if byte_of a =? 10 then String a EmptyString else EmptyString
      | t => String a t
      end
  end.
Definition newline : string := String (ascii_of_Z 10) EmptyString.

(** [FireRecord::canonical_json_line]. *)
Definition canonical_json_line (r : FireRecord) : Sch string :=
  validate r ;; Ok (fire_canonical_json r).

(** [append_fire_jsonl_entry_with_lock] on the bytes of the file, which is
    created when it is absent: a final line that a crash left without its
    line feed is removed first. *)
Definition journal (w : World) (id : string) : string := default EmptyString (journals w !! id).
Definition write_journal (id bytes : string) : Op unit := modify (set_journals <[id := bytes]>).
Definition repair_tail (bytes : string) : string :=
  match last_byte bytes with
  | Some b => if b =? 10 then bytes else upto_last_newline bytes
  | None => bytes
  end.
(** [write_all]: a process that is killed here has written a part of the
    text. *)
Definition append_text (id text : string) : Op unit :=
  λ w, match checkpoint w with
       | (Ok _, w') => write_journal id (journal w id +:+ text) w'
       | (Err e, w') =>
           (Err e, set_journals
              <[id := journal w id +:+ take_bytes (from_option torn_bytes O (kill w)) text]> w')
       end.
Definition append_fire_jsonl_entry (id : string) (entry : FireRecord) : Op unit :=
  bytes ← read (λ w, journal w id) ;
  write_journal id bytes ;;
  (if decide (repair_tail bytes = bytes) then mret tt
   else checkpoint ;; write_journal id (repair_tail bytes)) ;;
  line ← lift (canonical_json_line entry) ;
  append_text id (line +:+ newline).

(** [append_fire_jsonl_entry_in_directory]. *)
Definition append_fire_jsonl_entry_in_directory (expected_schedule_id : string) (entry : FireRecord)
  : Op unit :=
  lift (validate_schedule_id expected_schedule_id) ;;
  lift (reject (negb (bool_decide (f_schedule_id entry = expected_schedule_id)))
    ("scheduler fire " +:+ f_fire_id entry +:+ " belongs to " +:+ f_schedule_id entry +:+
     ", not " +:+ expected_schedule_id)) ;;
  append_fire_jsonl_entry expected_schedule_id entry.

(** The body of [drain_fire_outbox_in_directory] for its next row, up to the
    append, and the acknowledgement that follows it.  The messages leave out
    the sequence number of the row. *)
Definition publish (row : OutboxRow) : Op unit :=
  lift (with_context "invalid schedule id in fire outbox" (validate_schedule_id (o_schedule_id row))) ;;
  snapshot ← lift (with_context "decode scheduler fire outbox"
                     (of_library (fire_from_str (o_snapshot_json row)))) ;
  lift (with_context "validate scheduler fire outbox" (validate snapshot)) ;;
  lift (reject (negb (bool_decide (f_fire_id snapshot = o_fire_id row)) ||
                negb (bool_decide (f_schedule_id snapshot = o_schedule_id row)))
          "scheduler fire outbox identity mismatch") ;;
  op_context "sync scheduler fire outbox"
    (append_fire_jsonl_entry_in_directory (o_schedule_id row) snapshot).
Definition acknowledge : Op unit := transaction (modify (with_db (set_outbox tail))).

(** [drain_fire_outbox]: one iteration per row; [fuel] bounds them. *)
Fixpoint drain_loop (fuel : nat) (drained : Z) : Op Z :=
  rows ← read (λ w, outbox (db w)) ;
  match rows with
  | [] => mret drained
  | row :: _ =>
      match fuel with
      | O => throw Diverged
      | S fuel => publish row ;; acknowledge ;; drain_loop fuel (drained + 1)
      end
  end.
Definition drain_fire_outbox : Op Z :=
  pending ← read (λ w, length (outbox (db w))) ;
  drain_loop pending 0.

(** [projection.rs: persist_fire_snapshot], [claim_fire_snapshot],
    [reclaim_fire_snapshot]. *)
Definition persist_fire_snapshot (rec : FireRecord) : Op unit :=
  upsert_fire rec ;; _ ← drain_fire_outbox ; mret tt.
Definition claim_fire_snapshot (rec : FireRecord) : Op bool :=
  claimed ← claim_fire rec ; _ ← drain_fire_outbox ; mret claimed.
Definition reclaim_fire_snapshot (fid : string) : Op bool := reclaim_fire fid.

(** ** Rebuilding the fire table from the journals *)

(** [BufRead::lines]: lines end with a line feed, which a carriage return
    may precede; the last line may lack it. *)
Fixpoint lines (s : string) : list string :=
  match s with
  | EmptyString => []
  | String a r =>
      if byte_of a =? 10 then EmptyString :: lines r
      else if (byte_of a =? 13) && match r with String b _ => byte_of b =? 10 | EmptyString => false end
      then lines r
      else match lines r with [] => [String a EmptyString] | x :: l => String a x :: l end
  end.

(** One line of [rebuild_fire_projection_with_lock]; the messages leave out
    the path and the line number. *)
Definition replay_line (expected_schedule : string) (latest : gmap string FireRecord) (line : string)
  : Sch (gmap string FireRecord) :=
  reject (is_empty line) "fire journal has an empty line" ;;
  rec ← with_context "decode fire snapshot" (of_library (fire_from_str line)) ;
  canonical ← canonical_json_line rec ;
  reject (negb (bool_decide (canonical = line))) "fire journal line is not canonical JSON" ;;
  reject (negb (bool_decide (f_schedule_id rec = expected_schedule)))
    ("fire " +:+ f_fire_id rec +:+ " belongs to schedule " +:+ f_schedule_id rec +:+
     " but is stored under " +:+ expected_schedule) ;;
  match latest !! f_fire_id rec with
  | Some previous => with_context "illegal fire transition" (validate_transition_from rec previous)
  | None => Ok tt
  end ;;
  Ok (<[f_fire_id rec := rec]> latest).

Fixpoint replay_lines (expected_schedule : string) (latest : gmap string FireRecord)
    (l : list string) : Sch (gmap string FireRecord) :=
  match l with
  | [] => Ok latest
  | line :: l => latest ← replay_line expected_schedule latest line ;
                 replay_lines expected_schedule latest l
  end.

(** [rebuild_fire_projection_with_lock] on one journal. *)
Definition rebuild_fire_projection (expected_schedule bytes : string) : Op unit :=
  latest ← lift (replay_lines expected_schedule ∅ (lines bytes)) ;
  for_each (λ rec, op_context ("project rebuilt scheduler fire " +:+ f_fire_id rec)
                     (project_fire_from_journal rec))
    (snd <$> map_to_list latest).

(** [begin_fire_projection_rebuild], [finish_fire_projection_rebuild]. *)
Definition begin_fire_projection_rebuild : Op unit :=
  transaction (
    pending ← read (λ w, length (outbox (db w))) ;
    lift (reject (negb (bool_decide (pending = 0%nat)))
      ("cannot rebuild scheduler fire projection with " +:+ pretty (Z.of_nat pending) +:+
       " undrained journal snapshot(s)")) ;;
    modify (with_db (λ d, set_projection (λ _, {["fires" := 0]})
                            (set_fires (λ _, ∅) (set_cursors (λ _, ∅) d))))).
(** [UPDATE scheduler_projection_state SET rebuild_complete = 1], which must
    change one row. *)
Definition publish_projection (message : string) : Op unit :=
  state ← read (λ w, projection_state (db w)) ;
  lift (reject (negb (bool_decide (state !! "fires" = Some 0))) message) ;;
  modify (with_db (set_projection <["fires" := 1]>)).
Definition finish_fire_projection_rebuild : Op unit :=
  transaction (publish_projection
    "scheduler fire projection rebuild marker is missing or already published").

(** [projection.rs: rebuild_fires_from_dir]: the directory holds one journal
    per schedule. *)
Definition rebuild_fires_from_dir : Op unit :=
  begin_fire_projection_rebuild ;;
  files ← read (λ w, map_to_list (journals w)) ;
  for_each (λ '(id, bytes), lift (validate_schedule_id id) ;; rebuild_fire_projection id bytes)
    files ;;
  finish_fire_projection_rebuild.

(** ** Cursors of specifications *)

Definition upsert_cursor (rec : ScheduleCursorRecord) : Op unit :=
  transaction (modify (with_db (set_cursors <[c_schedule_id rec := rec]>))).

(** [reconcile_cursors_for_specs]: the cursors and last fires are read before
    the loop. *)
Definition reconcile_cursors_for_specs (l : list ScheduleSpecRecord) (now : Z) : Op Z :=
  before ← get ;
  fold_m (λ repaired spec,
    let last_fire := last_fire_of before (schedule_id spec) in
    let projected_last := f_scheduled_at <$> last_fire in
    let current :=
      match cursors (db before) !! schedule_id spec with
      | Some cursor => bool_decide (c_spec_hash cursor = spec_hash spec) &&
                       bool_decide (c_last_scheduled_at cursor = projected_last)
      | None => false
      end in
    if current then mret repaired
    else
      plan ← lift (plan_schedule spec last_fire now) ;
      upsert_cursor (cursor_of spec plan now) ;;
      mret (repaired + 1)) 0 l.
(** [rebuild_cursors_for_specs]. *)
Definition rebuild_cursors_for_specs (l : list ScheduleSpecRecord) (now : Z) : Op unit :=
  before ← get ;
  for_each (λ spec,
    plan ← lift (plan_schedule spec (last_fire_of before (schedule_id spec)) now) ;
    upsert_cursor (cursor_of spec plan now)) l.

End store.
