(* ===== verification/ScheduleSpec.v ===== *)
(** * Schedule sources and specifications

    The rest of [types.rs] of [ryeos-scheduler]: the signed schedule source,
    its validation and its projection to a specification record, and the
    validation of records that enter the store. *)

From S2P Require Import Prelude Float64 Json CanonicalRef Schedule SchedulerDb.

(** [serde_json::from_str] and [serde_json::to_string] on values. *)
Class JsonText := {
  json_read : string → Result string Value;
  json_write : Value → string;
}.

(** ** Paths, [std::path] on Unix *)

Inductive Component := RootDir | CurDir | ParentDir | Normal (name : string).
#[export] Instance Component_eq_dec : EqDecision Component.
Proof. solve_decision. Defined.

Definition body_component (part : string) : option Component :=
  if decide (part = EmptyString ∨ part = ".") then None
  else if decide (part = "..") then Some ParentDir
  else Some (Normal part).
(** [Path::components]. *)
Definition components (path : string) : list Component :=
  match split 47 path with
  | first :: rest =>
      if decide (first = EmptyString) then
        (if decide (rest = []) then [] else [RootDir]) ++ omap body_component rest
      else if decide (first = ".") then CurDir :: omap body_component rest
      else omap body_component (first :: rest)
  | [] => []
  end.
Definition is_absolute (path : string) : bool := head_is (λ b, b =? 47) path.

(** [Component::as_os_str]. *)
Definition component_str (c : Component) : string :=
  match c with RootDir => "/" | CurDir => "." | ParentDir => ".." | Normal name => name end.
(** [PathBuf::push] of a component. *)
Definition path_push (buf : string) (c : Component) : string :=
  match c with
  | RootDir => "/"
  | _ => if is_empty buf || ends_with_byte 47 buf then buf +:+ component_str c
         else buf +:+ "/" +:+ component_str c
  end.

(** [Path::extension]: the last component is a name, and the part after its
    last dot, which is not its first byte. *)
Definition name_extension (name : string) : option string :=
  match reverse (split 46 name) with
  | ext :: before => if decide (before = [] ∨ before = [EmptyString]) then None else Some ext
  | [] => None
  end.
Definition path_extension (path : string) : option string :=
  match last (components path) with Some (Normal name) => name_extension name | _ => None end.

(** ** Sources *)

Inductive ScheduleManagedBy :=
| ProjectAiSync (project_root project_key source_snapshot_hash source_path source_body_hash : string)
| NodeMaintenanceDeclaration (source : string).

Record ScheduleSourceRecord := {
  s_spec_version : Z;
  s_schedule_id : string;
  s_item_ref : string;
  s_ref_bindings : list (string * string);
  s_schedule_type : string;
  s_expression : string;
  s_params : Value;
  s_timezone : string;
  s_misfire_policy : string;
  s_overlap_policy : string;
  s_lateness_grace_secs : Z;
  s_enabled : bool;
  s_project_root : option string;
  s_registered_at : Z;
  s_requester_fingerprint : string;
  s_capabilities : list string;
  s_managed_by : option ScheduleManagedBy;
}.

Definition NODE_MAINTENANCE_SCHEDULE_SOURCE : string := "maintenance/schedules.yaml".

Definition is_object (v : Value) : bool := match v with VObject _ => true | _ => false end.

(** [types.rs: require_non_empty]. *)
Definition require_schedule_field (value field : string) : Sch unit :=
  reject (is_empty (trim value)) ("schedule " +:+ field +:+ " must be non-empty").

(** A reference that has to be canonical, as an [anyhow] error. *)
Definition parse_ref `{UnicodeTables} (input : string) : Sch CanonicalRef :=
  map_err (λ e, Error [ref_error_display e]) (canonical_ref_parse input).

(** The name rule of [validate_schedule_ref_bindings]. *)
Definition snake_segment (segment : string) : bool := all_bytes is_slug segment.
Definition valid_binding_name (name : string) : bool :=
  negb (is_empty name) && (len name <=? 64) &&
  match split 95 name with
  | first :: rest =>
      head_is is_ascii_lowercase first && snake_segment first &&
      forallb (λ segment, negb (is_empty segment) && snake_segment segment) rest
  | [] => false
  end.

Section validation.
Context `{Calendar} `{UnicodeTables} `{JsonText}.

Fixpoint validate_bindings (l : list (string * string)) : Sch unit :=
  match l with
  | [] => Ok tt
  | (name, raw_ref) :: l =>
      reject (negb (valid_binding_name name))
        "schedule ref binding names must be lower snake case and at most 64 bytes" ;;
      reject (2048 <? len raw_ref)
        ("schedule ref binding '" +:+ name +:+ "' exceeds 2048 UTF-8 bytes") ;;
      canonical ← with_context
        ("schedule ref binding '" +:+ name +:+ "' is not a canonical ref") (parse_ref raw_ref) ;
      reject (negb (bool_decide (canonical_ref_display canonical = raw_ref)))
        ("schedule ref binding '" +:+ name +:+ "' is not in canonical form") ;;
      validate_bindings l
  end.
(** [validate_schedule_ref_bindings]. *)
Definition validate_schedule_ref_bindings (l : list (string * string)) : Sch unit :=
  reject (32 <? Z.of_nat (length l)) "schedule ref_bindings exceeds the limit of 32" ;;
  validate_bindings l.

(** [validate_canonical_absolute_path]. *)
Definition normal_or_root (c : Component) : bool :=
  match c with RootDir | Normal _ => true | _ => false end.
Definition validate_canonical_absolute_path (value field : string) : Sch unit :=
  require_schedule_field value field ;;
  reject (negb (is_absolute value)) ("schedule " +:+ field +:+ " must be an absolute path") ;;
  reject (negb (forallb normal_or_root (components value)))
    ("schedule " +:+ field +:+ " must be lexically normalized") ;;
  reject (negb (bool_decide (foldl path_push EmptyString (components value) = value)))
    ("schedule " +:+ field +:+ " must be lexically normalized UTF-8").

(** [validate_canonical_source_path]. *)
Definition is_normal (c : Component) : bool := match c with Normal _ => true | _ => false end.
Definition join_slash (l : list string) : string :=
  match l with
  | [] => EmptyString
  | x :: l => x +:+ foldr (λ y s, "/" +:+ y +:+ s) EmptyString l
  end.
Definition validate_canonical_source_path (value : string) : Sch unit :=
  require_schedule_field value "managed_by.source_path" ;;
  reject (str_contains value backslash)
    "schedule managed_by.source_path must use '/' separators" ;;
  reject (is_absolute value || negb (forallb is_normal (components value)) ||
          negb (bool_decide (take 3 (components value) =
                             [Normal ".ai"; Normal "config"; Normal "schedules"])) ||
          negb (bool_decide (path_extension value = Some "yaml")))
    "schedule managed_by.source_path must be a contained canonical .ai/config/schedules/*.yaml path" ;;
  reject (negb (bool_decide (join_slash (component_str <$> components value) = value)))
    "schedule managed_by.source_path must be lexically normalized UTF-8".

(** [validate_managed_by]. *)
Definition require_hash (value field : string) : Sch unit :=
  reject (negb (is_canonical_hash value))
    ("schedule " +:+ field +:+ " must be lowercase SHA-256 hex").
Definition validate_managed_by (managed_by : ScheduleManagedBy) (schedule_project_root : option string)
  : Sch unit :=
  match managed_by with
  | ProjectAiSync project_root project_key source_snapshot_hash source_path source_body_hash =>
      validate_canonical_absolute_path project_root "managed_by.project_root" ;;
      reject (negb (bool_decide (schedule_project_root = Some project_root)))
        "project-managed schedule project_root must exactly match managed_by.project_root" ;;
      require_hash project_key "managed_by.project_key" ;;
      require_hash source_snapshot_hash "managed_by.source_snapshot_hash" ;;
      require_hash source_body_hash "managed_by.source_body_hash" ;;
      validate_canonical_source_path source_path
  | NodeMaintenanceDeclaration source =>
      reject (negb (bool_decide (source = NODE_MAINTENANCE_SCHEDULE_SOURCE)))
        ("node-maintenance schedule source must be " +:+ NODE_MAINTENANCE_SCHEDULE_SOURCE) ;;
      reject (bool_decide (is_Some schedule_project_root))
        "node-maintenance schedule must not declare project_root"
  end.

Fixpoint require_all_non_empty (l : list string) (field : string) : Sch unit :=
  match l with
  | [] => Ok tt
  | x :: l => require_schedule_field x field ;; require_all_non_empty l field
  end.

(** [ScheduleSourceRecord::validate]. *)
Definition validate_source (r : ScheduleSourceRecord) (expected_id : option string) : Sch unit :=
  reject (negb (s_spec_version r =? 1))
    ("schedule " +:+ s_schedule_id r +:+ " declares unsupported spec_version " +:+
     pretty (s_spec_version r)) ;;
  validate_schedule_id (s_schedule_id r) ;;
  match expected_id with
  | Some expected_id =>
      reject (negb (bool_decide (s_schedule_id r = expected_id)))
        ("schedule record declares schedule_id '" +:+ s_schedule_id r +:+ "' but filename is '" +:+
         expected_id +:+ "'")
  | None => Ok tt
  end ;;
  _ ← with_context ("invalid scheduled item_ref: " +:+ s_item_ref r) (parse_ref (s_item_ref r)) ;
  validate_schedule_ref_bindings (s_ref_bindings r) ;;
  validate_expression (s_schedule_type r) (s_expression r) ;;
  validate_timezone (s_timezone r) ;;
  _ ← parse_misfire_policy (s_misfire_policy r) ;
  _ ← parse_overlap_policy (s_overlap_policy r) ;
  reject (s_lateness_grace_secs r <=? 0)
    ("lateness_grace_secs must be positive, got " +:+ pretty (s_lateness_grace_secs r)) ;;
  reject (negb (is_object (s_params r))) "schedule params must be a mapping" ;;
  reject (s_registered_at r <? 0) "schedule registered_at must not be negative" ;;
  require_schedule_field (s_requester_fingerprint r) "execution.requester_fingerprint" ;;
  reject (bool_decide (s_capabilities r = []))
    "schedule execution.capabilities must not be empty" ;;
  require_all_non_empty (s_capabilities r) "execution.capabilities entry" ;;
  match s_project_root r with
  | Some project_root => validate_canonical_absolute_path project_root "project_root"
  | None => Ok tt
  end ;;
  match s_managed_by r with
  | Some managed_by => validate_managed_by managed_by (s_project_root r)
  | None => Ok tt
  end.

(** [validate_schedule_spec_record]. *)
Definition validate_schedule_spec_record (r : ScheduleSpecRecord) : Sch unit :=
  validate_schedule_id (schedule_id r) ;;
  _ ← with_context ("invalid scheduled item_ref: " +:+ item_ref r) (parse_ref (item_ref r)) ;
  validate_schedule_ref_bindings (ref_bindings r) ;;
  validate_expression (schedule_type r) (expression r) ;;
  validate_timezone (timezone r) ;;
  _ ← parse_misfire_policy (misfire_policy r) ;
  _ ← parse_overlap_policy (overlap_policy r) ;
  reject (lateness_grace_secs r <=? 0)
    ("lateness_grace_secs must be positive, got " +:+ pretty (lateness_grace_secs r)) ;;
  params ← with_context "schedule params must be valid JSON" (of_library (json_read (params r))) ;
  reject (negb (is_object params)) "schedule params must be a JSON object" ;;
  reject (registered_at r <? 0) "schedule registered_at must not be negative" ;;
  reject (negb (is_canonical_hash (signer_fingerprint r)))
    "schedule signer_fingerprint must be lowercase SHA-256 hex" ;;
  reject (negb (is_canonical_hash (spec_hash r)))
    "schedule spec_hash must be lowercase SHA-256 hex" ;;
  reject (is_empty (trim (requester_fingerprint r)))
    "schedule requester_fingerprint must not be empty" ;;
  reject (bool_decide (capabilities r = []) || existsb (λ c, is_empty (trim c)) (capabilities r))
    "schedule capabilities must contain only non-empty strings" ;;
  match project_root r with
  | Some project_root => validate_canonical_absolute_path project_root "project_root"
  | None => Ok tt
  end.

(** [ScheduleSourceRecord::to_spec_record]. *)
Definition to_spec_record (s : ScheduleSourceRecord) (signer hash : string) : Sch ScheduleSpecRecord :=
  validate_source s None ;;
  reject (negb (is_canonical_hash signer))
    "schedule signer_fingerprint must be lowercase SHA-256 hex" ;;
  reject (negb (is_canonical_hash hash)) "schedule spec_hash must be lowercase SHA-256 hex" ;;
  let record :=
    {| schedule_id := s_schedule_id s; item_ref := s_item_ref s; ref_bindings := s_ref_bindings s;
       params := json_write (s_params s); schedule_type := s_schedule_type s;
       expression := s_expression s; timezone := s_timezone s;
       misfire_policy := s_misfire_policy s; overlap_policy := s_overlap_policy s;
       lateness_grace_secs := s_lateness_grace_secs s; enabled := s_enabled s;
       project_root := s_project_root s; signer_fingerprint := signer; spec_hash := hash;
       registered_at := s_registered_at s; requester_fingerprint := s_requester_fingerprint s;
       capabilities := s_capabilities s |} in
  validate_schedule_spec_record record ;;
  Ok record.

(** ** The specification table *)

Definition set_specs (f : gmap string ScheduleSpecRecord → gmap string ScheduleSpecRecord) (d : Db)
  : Db :=
  {| specs := f (specs d); fires := fires d; cursors := cursors d;
     projection_state := projection_state d; outbox := outbox d |}.

(** [SchedulerDb::upsert_spec]. *)
Definition upsert_spec (r : ScheduleSpecRecord) : Op unit :=
  lift (validate_schedule_spec_record r) ;;
  transaction (modify (with_db (set_specs <[schedule_id r := r]>))).

(** [SchedulerDb::replace_specs]: all records are checked before the
    transaction; it returns how many specifications it removed. *)
Fixpoint check_replacement (ids : gset string) (l : list ScheduleSpecRecord) : Sch unit :=
  match l with
  | [] => Ok tt
  | r :: l =>
      validate_schedule_spec_record r ;;
      reject (bool_decide (schedule_id r ∈ ids))
        ("duplicate schedule_id in replacement set: " +:+ schedule_id r) ;;
      check_replacement ({[schedule_id r]} ∪ ids) l
  end.
Definition replace_specs (l : list ScheduleSpecRecord) : Op Z :=
  lift (check_replacement ∅ l) ;;
  let desired : gset string := list_to_set (schedule_id <$> l) in
  transaction (
    modify (with_db (set_specs (λ m, foldl (λ m r, <[schedule_id r := r]> m) m l))) ;;
    modify (with_db (set_cursors (filter (λ e, e.1 ∈ desired)))) ;;
    removed ← read (λ w, size (filter (λ e : string * ScheduleSpecRecord, e.1 ∉ desired) (specs (db w)))) ;
    modify (with_db (set_specs (filter (λ e, e.1 ∈ desired)))) ;;
    mret (Z.of_nat removed)).

(** [SchedulerDb::delete_spec]. *)
Definition delete_spec (id : string) : Op bool :=
  transaction (modify (with_db (set_cursors (delete id)))) ;;
  transaction (
    present ← read (λ w, bool_decide (is_Some (specs (db w) !! id))) ;
    modify (with_db (set_specs (delete id))) ;;
    mret present).

End validation.

(** [SchedulerDb::load_enabled_specs], [list_specs(false, None)]. *)
Definition load_enabled_specs `{RowOrder} : Op (list ScheduleSpecRecord) :=
  read (λ w, scan (filter (λ r, enabled r = true) (snd <$> map_to_list (specs (db w))))).
Definition list_specs `{RowOrder} : Op (list ScheduleSpecRecord) :=
  read (λ w, scan (snd <$> map_to_list (specs (db w)))).
