(* ===== verification/Scheduler.v ===== *)
(** * The scheduler: misfires, overlap, dispatch, repair and recovery

    [misfire.rs], [overlap.rs], [timer.rs] and [reconcile.rs] of
    [ryeos-scheduler] as operations on the store of SchedulerDb.v.  A
    detached dispatch is a task in the list of spawned tasks; running it is
    an operation of its own, so that it can happen at any later time. *)

From S2P Require Import Prelude Float64 Json CanonicalRef Schedule SchedulerDb ScheduleSpec.

(** ** What the scheduler asks of the daemon, [trait SchedulerContext]

    An answer may differ at every observation. *)
Class SchedulerContext := {
  thread_status : nat → string → Result (list string) (option string);
  thread_result_outcome : nat → string → Result (list string) (option ThreadResultOutcome);
  submit_cancel_result : nat → string → Result (list string) unit;
  recovery_execution_released : nat → bool;
  dispatch_scheduled_item : nat → DispatchTask → Result (list string) unit;
}.

(** An answer of the daemon is observed. *)
Definition ask {A} (answer : nat → Result (list string) A) : Op A :=
  result ← observe_with answer ; lift (map_err Error result).

Section scheduler.
Context `{Calendar} `{Sha256} `{Clock} `{FireCodec} `{RowOrder} `{SchedulerContext}.

Definition get_thread_status (thread_id : string) : Op (option string) :=
  ask (λ n, thread_status n thread_id).
Definition get_thread_result_outcome (thread_id : string) : Op (option ThreadResultOutcome) :=
  ask (λ n, thread_result_outcome n thread_id).
Definition submit_cancel (thread_id : string) : Op unit :=
  ask (λ n, submit_cancel_result n thread_id) ;;
  modify (λ w, {| db := db w; journals := journals w; spawned := spawned w;
                  cancelled := cancelled w ++ [thread_id]; observations := observations w;
                  kill := kill w |}).

(** A fire that was skipped, [record_skip] of [misfire.rs] and [timer.rs]. *)
Definition skip_record (fid : string) (spec : ScheduleSpecRecord) (scheduled_at now : Z)
    (reason : string) : FireRecord :=
  {| f_fire_id := fid; f_schedule_id := schedule_id spec; f_scheduled_at := scheduled_at;
     f_fired_at := Some now; f_completed_at := Some now; f_thread_id := None;
     f_status := "skipped"; f_trigger_reason := reason; f_outcome := Some reason;
     f_signer_fingerprint := signer_fingerprint spec |}.
Definition record_skip (message fid : string) (spec : ScheduleSpecRecord) (scheduled_at : Z)
    (reason : string) : Op unit :=
  now ← timestamp_millis ;
  op_context (message +:+ fid)
    (persist_fire_snapshot (skip_record fid spec scheduled_at now reason)).

(** ** Misfires, [misfire.rs] *)

Definition MISFIRE_SCAN_BATCH : nat := N.to_nat 10000.

(** The loop of [detect_misfires_before]; [fuel] is what is left of the scan
    batch. *)
Fixpoint detect_loop (spec : ScheduleSpecRecord) (horizon_exclusive : Z) (fuel : nat) (cursor : Z)
  : Op (list Z) :=
  match fuel with
  | O => mret []
  | S fuel =>
      next ← lift (compute_next_fire (schedule_type spec) (expression spec) (timezone spec) cursor
                     (Some cursor)) ;
      match next with
      | Some scheduled_at =>
          if scheduled_at <? horizon_exclusive then
            let fid := fire_id (schedule_id spec) scheduled_at in
            existing ← get_fire fid ;
            match existing with
            | Some existing =>
                lift (with_context ("invalid indexed scheduler fire " +:+ fid) (validate existing)) ;;
                detect_loop spec horizon_exclusive fuel scheduled_at
            | None =>
                missed ← detect_loop spec horizon_exclusive fuel scheduled_at ;
                mret (scheduled_at :: missed)
            end
          else mret []
      | None => mret []
      end
  end.
(** [detect_misfires_before]. *)
Definition detect_misfires_before (spec : ScheduleSpecRecord) (anchor horizon_exclusive : Z)
  : Op (list Z) :=
  if horizon_exclusive <=? anchor then mret []
  else detect_loop spec horizon_exclusive MISFIRE_SCAN_BATCH anchor.

(** The anchor of [evaluate_misfires_before]. *)
Definition misfire_anchor (spec : ScheduleSpecRecord) : Op Z :=
  cursor ← get_cursor (schedule_id spec) ;
  let from_last_fire :=
    fire ← get_last_fire (schedule_id spec) ;
    match fire with
    | Some fire =>
        lift (with_context ("invalid indexed last fire for " +:+ schedule_id spec)
                (validate fire)) ;;
        mret (Z.max (f_scheduled_at fire) (registered_at spec))
    | None => mret (registered_at spec)
    end in
  match cursor with
  | Some cursor =>
      if decide (c_spec_hash cursor = spec_hash spec) then
        mret (Z.max (default (registered_at spec) (c_last_scheduled_at cursor)) (registered_at spec))
      else from_last_fire
  | None => from_last_fire
  end.

Definition pending_fire (spec : ScheduleSpecRecord) (reason : string) (scheduled_at : Z) : PendingFire :=
  {| p_fire_id := fire_id (schedule_id spec) scheduled_at; p_scheduled_at := scheduled_at;
     p_reason := reason |}.
Definition skip_misfires (spec : ScheduleSpecRecord) (reason : string) (l : list Z) : Op unit :=
  for_each (λ scheduled_at,
    record_skip "persist skipped misfire " (fire_id (schedule_id spec) scheduled_at) spec
      scheduled_at reason) l.

(** The policies of [evaluate_misfires_before] on a non-empty list of missed
    fires; [&missed[max..]] panics when [max] exceeds its length. *)
Definition apply_policy (spec : ScheduleSpecRecord) (policy : MisfirePolicy) (missed : list Z)
    (evaluation_now : Z) : Op (list PendingFire) :=
  match policy with
  | Skip => skip_misfires spec "misfire_skip" missed ;; mret []
  | FireOnceNow =>
      skip_misfires spec "misfire_skipped_collapse" (take (length missed - 1) missed) ;;
      match last missed with
      | Some at_ => mret [pending_fire spec "misfire_fire_once" at_]
      | None => throw Panicked
      end
  | CatchUpBounded max =>
      if Z.of_nat (length missed) <? max then throw Panicked
      else
        let to_fire := take (Z.to_nat max) missed in
        skip_misfires spec "misfire_skipped_bounded" (drop (Z.to_nat max) missed) ;;
        mret (pending_fire spec "misfire_catch_up" <$> to_fire)
  | CatchUpWithinSecs window_secs =>
      window_ms ← lift (i64_mul window_secs 1000) ;
      cutoff ← lift (i64_sub evaluation_now window_ms) ;
      let to_fire := filter (λ at_, cutoff ≤ at_) missed in
      skip_misfires spec "misfire_skipped_window" (filter (λ at_, at_ < cutoff) missed) ;;
      mret (pending_fire spec "misfire_catch_up" <$> to_fire)
  end.

(** [evaluate_misfires_before]. *)
Definition evaluate_misfires_before (spec : ScheduleSpecRecord) (horizon_exclusive evaluation_now : Z)
  : Op (list PendingFire) :=
  anchor ← misfire_anchor spec ;
  if horizon_exclusive <=? anchor then mret []
  else
    missed ← op_context ("detect misfires for " +:+ schedule_id spec)
               (detect_misfires_before spec anchor horizon_exclusive) ;
    if decide (missed = []) then mret []
    else
      policy ← lift (with_context
        ("invalid authored misfire policy for schedule " +:+ schedule_id spec)
        (resolve_misfire_policy spec)) ;
      apply_policy spec policy missed evaluation_now.

(** ** Overlap, [overlap.rs] *)

(** [check_overlap]. *)
Definition check_overlap (spec : ScheduleSpecRecord) : Op bool :=
  policy ← lift (resolve_overlap_policy spec) ;
  last_fire ← get_inflight_for_schedule (schedule_id spec) ;
  match last_fire with
  | None => mret true
  | Some last_fire =>
      lift (validate last_fire) ;;
      previous_thread_id ← lift (some_or (f_thread_id last_fire)
        "validated dispatched fire lost its deterministic thread id") ;
      match policy with
      | OverlapAllow => mret true
      | OverlapSkip =>
          status ← get_thread_status previous_thread_id ;
          match status with
          | Some status => mret (thread_status_is_terminal status)
          | None => mret false
          end
      | CancelPrevious =>
          status ← get_thread_status previous_thread_id ;
          match status with
          | Some status =>
              if thread_status_is_terminal status then mret true
              else submit_cancel previous_thread_id ;; mret true
          | None => mret false
          end
      end
  end.

(** ** Dispatch, [timer.rs] *)

Inductive FireDispatchOutcome :=
| Enqueued
| AlreadyClaimed
| AlreadyClassified
| ClassifiedFailure.

(** The snapshot of a dispatched fire, and of one that failed. *)
Definition dispatched_record (fid : string) (spec : ScheduleSpecRecord) (scheduled_at dispatched_at : Z)
    (trigger_reason : string) : FireRecord :=
  {| f_fire_id := fid; f_schedule_id := schedule_id spec; f_scheduled_at := scheduled_at;
     f_fired_at := Some dispatched_at; f_completed_at := None;
     f_thread_id := Some (thread_id_from_fire fid); f_status := "dispatched";
     f_trigger_reason := trigger_reason; f_outcome := None;
     f_signer_fingerprint := signer_fingerprint spec |}.
Definition failed_record (fid : string) (spec : ScheduleSpecRecord)
    (scheduled_at fired_at completed_at : Z) (trigger_reason outcome : string) : FireRecord :=
  {| f_fire_id := fid; f_schedule_id := schedule_id spec; f_scheduled_at := scheduled_at;
     f_fired_at := Some fired_at; f_completed_at := Some completed_at;
     f_thread_id := Some (thread_id_from_fire fid); f_status := "failed";
     f_trigger_reason := trigger_reason; f_outcome := Some outcome;
     f_signer_fingerprint := signer_fingerprint spec |}.

(** [tokio::spawn] of the detached dispatch. *)
Definition spawn (task : DispatchTask) : Op unit :=
  modify (λ w, {| db := db w; journals := journals w; spawned := spawned w ++ [task];
                  cancelled := cancelled w; observations := observations w; kill := kill w |}).

(** [dispatch_fire]. *)
Definition dispatch_fire (fid : string) (spec : ScheduleSpecRecord) (scheduled_at : Z)
    (trigger_reason : string) (skip_claim : bool) : Op FireDispatchOutcome :=
  if decide (capabilities spec = []) then
    now ← timestamp_millis ;
    op_context ("persist empty-capability failure for fire " +:+ fid)
      (persist_fire_snapshot
         (failed_record fid spec scheduled_at now now trigger_reason "dispatch_skipped")) ;;
    mret ClassifiedFailure
  else
    let thread_id := thread_id_from_fire fid in
    recovery_record ←
      (if skip_claim then
         row ← get_fire fid ;
         record ← lift (some_or row ("recovery fire " +:+ fid +:+ " disappeared")) ;
         mret (Some record)
       else mret None : Op (option FireRecord)) ;
    lift (reject match recovery_record ≫= f_thread_id with
                 | Some persisted => negb (bool_decide (persisted = thread_id))
                 | None => false
                 end ("recovery fire " +:+ fid +:+ " has non-deterministic thread identity")) ;;
    dispatched_at ← match recovery_record ≫= f_fired_at with
                    | Some fired_at => mret fired_at
                    | None => timestamp_millis
                    end ;
    let trigger_reason := match recovery_record with
                          | Some record => f_trigger_reason record
                          | None => trigger_reason
                          end in
    let rec := dispatched_record fid spec scheduled_at dispatched_at trigger_reason in
    claimed ← (if skip_claim then lift (validate rec) ;; mret true else claim_fire_snapshot rec : Op bool) ;
    if claimed : bool then
      spawn {| t_fire_id := fid; t_thread_id := thread_id; t_spec := spec;
               t_scheduled_at := scheduled_at; t_trigger_reason := trigger_reason;
               t_dispatched_at := dispatched_at |} ;;
      mret Enqueued
    else mret AlreadyClaimed.

(** The detached task: a failed dispatch is recorded, and a failure to record
    it only logged. *)
Definition ignore_errors (m : Op unit) : Op unit :=
  λ w, match m w with
       | (Err (Error _), w') => (Ok tt, w')
       | r => r
       end.
Definition run_task (task : DispatchTask) : Op unit :=
  released ← observe_with recovery_execution_released ;
  if negb released then mret tt
  else
    result ← observe_with (λ n, dispatch_scheduled_item n task) ;
    match result with
    | Ok _ => mret tt
    | Err _ =>
        completed_at ← timestamp_millis ;
        ignore_errors (persist_fire_snapshot
          (failed_record (t_fire_id task) (t_spec task) (t_scheduled_at task)
             (t_dispatched_at task) completed_at (t_trigger_reason task) "dispatch_failed"))
    end.

(** [Vec::sort_by_key] on the scheduled time, which is stable. *)
Fixpoint insert_fire (x : PendingFire) (l : list PendingFire) : list PendingFire :=
  match l with
  | [] => [x]
  | y :: l' => if p_scheduled_at x <=? p_scheduled_at y then x :: l else y :: insert_fire x l'
  end.
Definition sort_fires (l : list PendingFire) : list PendingFire := foldr insert_fire [] l.

(** The last loop of [process_spec]: an overlap skips this fire and ends the
    batch. *)
Fixpoint process_fires (spec : ScheduleSpecRecord) (l : list PendingFire) : Op unit :=
  match l with
  | [] => mret tt
  | pending :: l =>
      overlap_ok ← check_overlap spec ;
      if overlap_ok : bool then
        _ ← op_context ("admit scheduler fire " +:+ p_fire_id pending)
              (dispatch_fire (p_fire_id pending) spec (p_scheduled_at pending) (p_reason pending)
                 false) ;
        process_fires spec l
      else
        record_skip "persist skipped scheduler fire " (p_fire_id pending) spec
          (p_scheduled_at pending) "overlap_policy_skip"
  end.

(** [get_last_fire] followed by the validation of what it returns. *)
Definition valid_last_fire (message : string) (spec : ScheduleSpecRecord) : Op (option FireRecord) :=
  last_fire ← get_last_fire (schedule_id spec) ;
  match last_fire with
  | Some fire => lift (with_context (message +:+ schedule_id spec) (validate fire))
  | None => mret tt
  end ;;
  mret last_fire.

(** [process_spec]. *)
Definition process_spec (spec : ScheduleSpecRecord) : Op unit :=
  now ← timestamp_millis ;
  last_fire ← valid_last_fire "invalid dispatch boundary for " spec ;
  plan ← lift (plan_schedule spec last_fire now) ;
  match current_due_at plan with
  | None => mret tt
  | Some scheduled_at =>
      let current_within_grace := default false (current_due_within_grace plan) in
      let misfire_horizon := default now (misfire_horizon_exclusive plan) in
      misfire_fires ← evaluate_misfires_before spec misfire_horizon now ;
      let all_fires :=
        misfire_fires ++ (if current_within_grace then [pending_fire spec "normal" scheduled_at]
                          else []) in
      process_fires spec (sort_fires all_fires)
  end.

(** [spec_is_due] and [compute_soonest_fire]. *)
Definition spec_is_due (spec : ScheduleSpecRecord) (now : Z) : Op bool :=
  last_fire ← valid_last_fire "invalid last fire for schedule " spec ;
  plan ← lift (plan_schedule spec last_fire now) ;
  mret (bool_decide (is_Some (current_due_at plan))).
Definition compute_soonest_fire (l : list ScheduleSpecRecord) (now : Z) : Op (option Z) :=
  fold_m (λ soonest spec,
    last_fire ← valid_last_fire "invalid last fire for schedule " spec ;
    plan ← lift (plan_schedule spec last_fire now) ;
    mret match union (current_due_at plan) (next_fire_at plan) with
         | Some candidate => Some match soonest with
                                  | Some current => Z.min current candidate
                                  | None => candidate
                                  end
         | None => soonest
         end) None l.

(** ** Repair, [repair_stale_fires] *)

Definition terminal_update (fire : FireRecord) (status outcome : string) (fired_at : option Z)
    (completed_at : Z) : FireRecord :=
  {| f_fire_id := f_fire_id fire; f_schedule_id := f_schedule_id fire;
     f_scheduled_at := f_scheduled_at fire; f_fired_at := fired_at;
     f_completed_at := Some completed_at; f_thread_id := f_thread_id fire; f_status := status;
     f_trigger_reason := f_trigger_reason fire; f_outcome := Some outcome;
     f_signer_fingerprint := f_signer_fingerprint fire |}.
Definition repair_fire (fire : FireRecord) : Op unit :=
  lift (with_context ("invalid stale scheduler fire " +:+ f_fire_id fire) (validate fire)) ;;
  match f_thread_id fire with
  | None => mret tt
  | Some thread_id =>
      status ← op_context ("inspect thread " +:+ thread_id +:+ " for stale scheduler fire")
                 (get_thread_status thread_id) ;
      match status with
      | Some status =>
          if thread_status_is_terminal status then
            let fire_status := fire_status_for_thread_status status in
            result_outcome ←
              (if decide (fire_status = "completed") then
                 op_context ("inspect completed thread result for scheduler fire " +:+ f_fire_id fire)
                   (get_thread_result_outcome thread_id)
               else mret None) ;
            let outcome := fire_outcome_for_terminal status result_outcome None in
            now ← timestamp_millis ;
            op_context ("finalize stale scheduler fire " +:+ f_fire_id fire)
              (persist_fire_snapshot
                 (terminal_update fire fire_status outcome (f_fired_at fire) now))
          else mret tt
      | None =>
          now ← timestamp_millis ;
          op_context ("classify lost thread for scheduler fire " +:+ f_fire_id fire)
            (persist_fire_snapshot
               (terminal_update fire "failed" "thread_lost" (f_fired_at fire) now))
      end
  end.
Definition repair_stale_fires : Op unit :=
  stale ← find_stale_dispatched_fires 30 ;
  for_each repair_fire stale.

(** ** Recovery, [reconcile.rs] *)

Inductive ResumeIntentKind := ReclaimExisting | DispatchNew.
Record ResumeIntent := {
  i_fire_id : string;
  i_spec : ScheduleSpecRecord;
  i_scheduled_at : Z;
  i_trigger_reason : string;
  i_kind : ResumeIntentKind;
}.

(** [update_fire_terminal]. *)
Definition update_fire_terminal (fire : FireRecord) (thread_id : option string)
    (status outcome : string) : Op unit :=
  now ← timestamp_millis ;
  lift (reject match thread_id with
               | Some thread_id => negb (bool_decide (f_thread_id fire = Some thread_id))
               | None => false
               end "terminal fire update changed deterministic thread identity") ;;
  fired_at ← lift (some_or (f_fired_at fire) "dispatched fire has no fired_at") ;
  persist_fire_snapshot (terminal_update fire status outcome (Some fired_at) (Z.max now fired_at)).

(** One fire of [recover_inflight_fires]; an error on the result of a
    completed thread is only logged. *)
Definition redispatch_or (fire : FireRecord) (reason : string) (otherwise : Op unit)
  : Op (list ResumeIntent) :=
  spec ← get_spec (f_schedule_id fire) ;
  match spec with
  | Some spec =>
      if enabled spec then
        mret [{| i_fire_id := f_fire_id fire; i_spec := spec;
                 i_scheduled_at := f_scheduled_at fire; i_trigger_reason := reason;
                 i_kind := ReclaimExisting |}]
      else otherwise ;; mret []
  | None => otherwise ;; mret []
  end.
Definition recover_fire (fire : FireRecord) : Op (list ResumeIntent) :=
  match f_thread_id fire with
  | Some thread_id =>
      status ← get_thread_status thread_id ;
      match status with
      | Some status =>
          if thread_status_is_terminal status then
            result_outcome ←
              (if decide (status = "completed") then
                 λ w, match get_thread_result_outcome thread_id w with
                      | (Err (Error _), w') => (Ok None, w')
                      | r => r
                      end
               else mret None) ;
            update_fire_terminal fire (Some thread_id) (fire_status_for_thread_status status)
              (fire_outcome_for_terminal status result_outcome None) ;;
            mret []
          else mret []
      | None =>
          redispatch_or fire "recovery_thread_lost"
            (update_fire_terminal fire None "failed" "thread_lost")
      end
  | None =>
      redispatch_or fire "recovery"
        (update_fire_terminal fire None "skipped" "recovery_schedule_removed")
  end.
Definition recover_inflight_fires : Op (list ResumeIntent) :=
  inflight ← get_inflight_fires ;
  intents ← try_map recover_fire inflight ;
  mret (concat intents).

(** [dispatch_recovery_fire_inner]. *)
Definition dispatch_recovery_fire (intent : ResumeIntent) : Op FireDispatchOutcome :=
  match i_kind intent with
  | DispatchNew =>
      dispatch_fire (i_fire_id intent) (i_spec intent) (i_scheduled_at intent)
        (i_trigger_reason intent) false
  | ReclaimExisting =>
      can_reclaim ← reclaim_fire_snapshot (i_fire_id intent) ;
      if can_reclaim : bool then
        dispatch_fire (i_fire_id intent) (i_spec intent) (i_scheduled_at intent)
          (i_trigger_reason intent) true
      else
        record ← get_fire (i_fire_id intent) ;
        if match record with Some r => is_terminal_fire_status (f_status r) | None => false end then
          mret AlreadyClassified
        else
          throw (Error ["recovered fire " +:+ i_fire_id intent +:+
                        " could neither be reclaimed nor shown terminal"])
  end.

(** The misfire step of [reconcile] for one schedule. *)
Definition reconcile_spec (now : Z) (spec : ScheduleSpecRecord) : Op (list ResumeIntent) :=
  row ← get_cursor (schedule_id spec) ;
  cursor ← lift (some_or row ("scheduler cursor missing after startup reconciliation for " +:+
                              schedule_id spec)) ;
  lift (reject (negb (bool_decide (c_spec_hash cursor = spec_hash spec)))
          ("scheduler cursor/spec mismatch after startup reconciliation for " +:+
           schedule_id spec)) ;;
  plan ← lift (plan_schedule_from_cursor spec (c_last_scheduled_at cursor) now) ;
  pending ← evaluate_misfires_before spec (default now (misfire_horizon_exclusive plan)) now ;
  mret ((λ p, {| i_fire_id := p_fire_id p; i_spec := spec; i_scheduled_at := p_scheduled_at p;
                 i_trigger_reason := p_reason p; i_kind := DispatchNew |}) <$> pending).

(** [reconcile]; [synchronize] stands for the loading of the signed schedule
    sources into the specification table. *)
Definition reconcile (synchronize : Op unit) : Op (list ResumeIntent) :=
  _ ← drain_fire_outbox ;
  synchronize ;;
  all ← list_specs ;
  now ← timestamp_millis ;
  current ← fire_projection_is_current ;
  (if current : bool then _ ← reconcile_cursors_for_specs all now ; mret tt
   else rebuild_fires_from_dir ;; rebuild_cursors_for_specs all now) ;;
  inflight ← recover_inflight_fires ;
  live ← load_enabled_specs ;
  now ← timestamp_millis ;
  misfires ← try_map (reconcile_spec now) live ;
  mret (inflight ++ concat misfires).

(** ** One cycle of [timer::run]

    What the loop does between two sleeps.  It returns the time of the last
    repair and how long to sleep, in milliseconds. *)
Section cycle.
Context `{UnicodeTables} `{JsonText}.

Definition load_specs : Op (list ScheduleSpecRecord) :=
  l ← load_enabled_specs ;
  for_each (λ spec, lift (with_context
    ("scheduler projection contains invalid spec " +:+ schedule_id spec)
    (validate_schedule_spec_record spec))) l ;;
  mret l.

Definition timer_cycle (last_repair : Z) : Op (Z * Z) :=
  current ← fire_projection_is_current ;
  lift (reject (negb current)
          "scheduler fire projection became incomplete after daemon readiness") ;;
  loaded ← load_specs ;
  now ← timestamp_millis ;
  since ← lift (i64_sub now last_repair) ;
  last_repair ← (if 30000 <=? since then repair_stale_fires ;; mret now else mret last_repair) ;
  due ← try_map (λ spec, is_due ← spec_is_due spec now ; mret (is_due, spec)) loaded ;
  for_each process_spec (snd <$> filter (λ x : bool * _, x.1 = true) due) ;;
  loaded ← load_specs ;
  now ← timestamp_millis ;
  next_fire ← compute_soonest_fire loaded now ;
  sleep ← match next_fire with
          | Some at_ => if now <? at_ then lift (i64_sub at_ now) else mret 1000
          | None => mret 1000
          end ;
  mret (last_repair, sleep).

End cycle.
End scheduler.
