(* ===== verification/Retention.v ===== *)
(** * Retention of fire histories

    [ryeos-state/src/gc/retention.rs]: the sweep that bounds the journals by
    age and count; the retention transactions of [db.rs]; and their
    composition in the maintenance run ([ryeos-api/src/maintenance.rs]) and
    in the deregistration of a schedule
    ([ryeos-api/src/handlers/scheduler_deregister.rs]). *)

From S2P Require Import Prelude Float64 Json CanonicalRef Schedule SchedulerDb ScheduleSpec Scheduler.

(** ** Ordered sets *)

(** [BTreeSet::insert] on the elements in order, and [BTreeSet::contains]. *)
Fixpoint btree_insert {A} (cmp : A → A → comparison) (x : A) (l : list A) : list A :=
  match l with
  | [] => [x]
  | y :: l' => match cmp x y with
               | Lt => x :: l
               | Eq => l
               | Gt => y :: btree_insert cmp x l'
               end
  end.
Definition btree_contains {A} (cmp : A → A → comparison) (x : A) (l : list A) : bool :=
  existsb (λ y, match cmp x y with Eq => true | _ => false end) l.
(** The order of pairs. *)
Definition then_cmp (a b : comparison) : comparison := match a with Eq => b | _ => a end.

(** ** Policies and targets *)

Record FireRetentionPolicy := {
  cutoff_ms : option Z;
  max_count : option Z;
}.
Record FireRetentionTarget := {
  rt_schedule_id : string;
  rt_fire_id : string;
}.
#[export] Instance FireRetentionTarget_eq_dec : EqDecision FireRetentionTarget.
Proof. solve_decision. Defined.
Definition target_cmp (a b : FireRetentionTarget) : comparison :=
  then_cmp (String.compare (rt_schedule_id a) (rt_schedule_id b))
           (String.compare (rt_fire_id a) (rt_fire_id b)).

(** The counters of [GcResult] the sweep adds to. *)
Record GcResult := {
  deleted_fire_records : Z;
  freed_bytes : Z;
}.

(** [millis_days_ago] at the time [now]. *)
Definition millis_days_ago (now days : Z) : Z :=
  let age_ms := Z.min (Z.min (days * 86400000) u64_max) i64_max in
  i64_clamp (now - age_ms).
(** [FireRetentionPolicy::from_bounds]. *)
Definition from_bounds `{Clock} (max_age_days max_count : option Z) : Op (option FireRetentionPolicy) :=
  match max_age_days, max_count with
  | None, None => mret None
  | Some days, _ =>
      now ← timestamp_millis ;
      mret (Some {| cutoff_ms := Some (millis_days_ago now days); max_count := max_count |})
  | None, _ => mret (Some {| cutoff_ms := None; max_count := max_count |})
  end.

(** [FireRecord::latest_timestamp]. *)
Definition latest_timestamp (r : FireRecord) : Z :=
  default 0 (foldr (λ o best, match o, best with
                              | Some t, Some b => Some (Z.max t b)
                              | Some t, None => Some t
                              | None, _ => best
                              end) None
               [f_completed_at r; f_fired_at r; Some (f_scheduled_at r)]).

(** ** The sweep of one journal, [sweep_one_fires_file] *)

(** The lines of one fire. *)
Record Group := {
  g_latest : FireRecord;
  g_newest_ts : Z;
  g_order : nat;
  g_line_count : Z;
}.
Record Sweep := {
  groups : list Group;
  index : gmap string nat;
  journal_lines : list (string * string);
}.

Section sweep.
Context `{Calendar} `{Sha256} `{Clock} `{FireCodec} `{RowOrder}.

(** One line; the messages leave out the path and the line number. *)
Definition sweep_line (expected_schedule_id : string) (st : Sweep) (line : string) : Sch Sweep :=
  reject (is_empty line) "fire journal contains an empty line" ;;
  record ← with_context "decode fire snapshot" (of_library (fire_from_str line)) ;
  validate record ;;
  reject (negb (bool_decide (f_schedule_id record = expected_schedule_id)))
    ("fire " +:+ f_fire_id record +:+ " belongs to schedule " +:+ f_schedule_id record +:+
     " but is stored under " +:+ expected_schedule_id) ;;
  canonical ← canonical_json_line record ;
  reject (negb (bool_decide (canonical = line))) "fire journal line is not canonical JSON" ;;
  let fid := f_fire_id record in
  let journal_lines := journal_lines st ++ [(fid, line)] in
  match index st !! fid with
  | Some gi =>
      match groups st !! gi with
      | Some g =>
          validate_transition_from record (g_latest g) ;;
          let g := {| g_latest := record; g_newest_ts := latest_timestamp record;
                      g_order := g_order g; g_line_count := g_line_count g + 1 |} in
          Ok {| groups := <[gi := g]> (groups st); index := index st; journal_lines := journal_lines |}
      | None => Err Panicked
      end
  | None =>
      let order := length (groups st) in
      let g := {| g_latest := record; g_newest_ts := latest_timestamp record; g_order := order;
                  g_line_count := 1 |} in
      Ok {| groups := groups st ++ [g]; index := <[fid := order]> (index st);
            journal_lines := journal_lines |}
  end.
Fixpoint sweep_lines (expected_schedule_id : string) (st : Sweep) (l : list string) : Sch Sweep :=
  match l with
  | [] => Ok st
  | line :: l => st ← sweep_line expected_schedule_id st line ; sweep_lines expected_schedule_id st l
  end.

(** [Iterator::max_by] on the scheduled time and the identity: the last of
    the greatest elements. *)
Definition group_cmp (a b : Group) : comparison :=
  then_cmp (Z.compare (f_scheduled_at (g_latest a)) (f_scheduled_at (g_latest b)))
           (String.compare (f_fire_id (g_latest a)) (f_fire_id (g_latest b))).
Definition watermark (l : list Group) : option Group :=
  match l with
  | [] => None
  | g :: l => Some (foldl (λ best g, match group_cmp best g with Gt => best | _ => g end) g l)
  end.

Definition terminal (g : Group) : bool := is_terminal_fire_status (f_status (g_latest g)).

(** The groups that are older than the cutoff. *)
Definition aged (policy : FireRetentionPolicy) (watermark_order : option nat) (g : Group) : bool :=
  terminal g && negb (bool_decide (Some (g_order g) = watermark_order)) &&
  match cutoff_ms policy with Some cutoff => g_newest_ts g <? cutoff | None => false end.

(** [sort_by] on the newest time and the identity, which is stable. *)
Definition age_cmp (a b : Group) : comparison :=
  then_cmp (Z.compare (g_newest_ts a) (g_newest_ts b))
           (String.compare (f_fire_id (g_latest a)) (f_fire_id (g_latest b))).
Fixpoint insert_group (g : Group) (l : list Group) : list Group :=
  match l with
  | [] => [g]
  | h :: l' => match age_cmp g h with Gt => h :: insert_group g l' | _ => g :: l end
  end.
Definition sort_groups (l : list Group) : list Group := foldr insert_group [] l.

(** The orders of the groups that are dropped. *)
Definition drop_orders (policy : FireRetentionPolicy) (l : list Group) : gset nat :=
  let watermark_order := g_order <$> watermark l in
  let drops : gset nat := list_to_set (g_order <$> filter (λ g, aged policy watermark_order g = true) l) in
  let kept g := terminal g && negb (bool_decide (g_order g ∈ drops)) in
  let terminal_count := Z.of_nat (length (filter (λ g, kept g = true) l)) in
  match max_count policy with
  | Some bound =>
      if bound <? terminal_count then
        let terminal_refs :=
          sort_groups (filter (λ g, kept g && negb (bool_decide (Some (g_order g) = watermark_order)) = true) l) in
        drops ∪ list_to_set (g_order <$> take (Z.to_nat (terminal_count - bound)) terminal_refs)
      else drops
  | None => drops
  end.

(** The journal without the lines of the dropped fires. *)
Definition rebuilt (dropped : gset string) (l : list (string * string)) : string :=
  foldr (λ e s, if decide (e.1 ∈ dropped) then s else e.2 +:+ newline +:+ s) EmptyString l.

Definition target_of (g : Group) : FireRetentionTarget :=
  {| rt_schedule_id := f_schedule_id (g_latest g); rt_fire_id := f_fire_id (g_latest g) |}.

(** [sweep_one_fires_file]: the replacement of the journal is atomic. *)
Definition sweep_one_fires_file (id : string) (policy : FireRetentionPolicy) (dry_run : bool)
    (result : GcResult) : Op (GcResult * list FireRetentionTarget) :=
  raw ← read (λ w, journal w id) ;
  lift (reject match last_byte raw with Some b => negb (b =? 10) | None => false end
    "fire journal has a crash-truncated final line; scheduler append recovery must repair it before retention") ;;
  st ← lift (sweep_lines id {| groups := []; index := ∅; journal_lines := [] |} (lines raw)) ;
  let drops := drop_orders policy (groups st) in
  if decide (drops = ∅) then mret (result, [])
  else
    let dropped := filter (λ g, g_order g ∈ drops) (groups st) in
    let selected := target_of <$> dropped in
    let dropped_lines := foldr (λ g n, g_line_count g + n) 0 dropped in
    let text := rebuilt (list_to_set (rt_fire_id <$> selected)) (journal_lines st) in
    (if dry_run then mret tt else checkpoint ;; write_journal id text) ;;
    mret ({| deleted_fire_records := deleted_fire_records result + dropped_lines;
             freed_bytes := freed_bytes result + saturating_sub (len raw) (len text) |}, selected).

(** [sweep_fire_jsonl_in_directory]: the schedules in the order of their
    names. *)
Fixpoint add_targets (selected targets : list FireRetentionTarget) : Sch (list FireRetentionTarget) :=
  match selected with
  | [] => Ok targets
  | t :: selected =>
      reject (btree_contains target_cmp t targets)
        ("duplicate schedule-fire retention target " +:+ rt_fire_id t +:+ " for " +:+ rt_schedule_id t) ;;
      add_targets selected (btree_insert target_cmp t targets)
  end.
Definition sweep_fire_jsonl (policy : option FireRetentionPolicy) (dry_run : bool) (result : GcResult)
  : Op (GcResult * list FireRetentionTarget) :=
  match policy with
  | None => mret (result, [])
  | Some policy =>
      names ← read (λ w, foldr (btree_insert String.compare) [] (fst <$> map_to_list (journals w))) ;
      fold_m (λ '(result, targets) id,
        lift (validate_schedule_id id) ;;
        swept ← sweep_one_fires_file id policy dry_run result ;
        targets ← lift (add_targets swept.2 targets) ;
        mret (swept.1, targets)) (result, []) names
  end.

(** ** The transactions of the store *)

(** [SchedulerDb::pending_fire_outbox]. *)
Definition pending_fire_outbox : Op Z := read (λ w, Z.of_nat (length (outbox (db w)))).

(** [SchedulerDb::begin_fire_retention]. *)
Definition begin_fire_retention : Op unit :=
  transaction (
    current ← fire_projection_is_current ;
    lift (reject (negb current) "cannot begin retention on an incomplete scheduler fire projection") ;;
    pending ← pending_fire_outbox ;
    lift (reject (negb (pending =? 0))
      ("cannot retain scheduler fire journals with " +:+ pretty pending +:+ " undrained snapshot(s)")) ;;
    state ← read (λ w, projection_state (db w)) ;
    lift (reject (negb (bool_decide (state !! "fires" = Some 1)))
      "scheduler fire projection marker changed before retention") ;;
    modify (with_db (set_projection <["fires" := 0]>))).

(** [validate_fire_retention_targets_conn]; it returns the schedules of the
    targets in order. *)
Fixpoint validate_targets (seen : list FireRetentionTarget) (affected : list string)
    (l : list FireRetentionTarget) : Op (list string) :=
  match l with
  | [] => mret affected
  | target :: l =>
      lift (reject (btree_contains target_cmp target seen)
        ("duplicate scheduler fire retention target " +:+ rt_fire_id target +:+ " for " +:+
         rt_schedule_id target)) ;;
      row ← get_fire (rt_fire_id target) ;
      fire ← lift (some_or row ("retained journal selected missing scheduler fire " +:+ rt_fire_id target)) ;
      lift (with_context ("validate scheduler fire retention target " +:+ rt_fire_id target) (validate fire)) ;;
      lift (reject (negb (bool_decide (f_schedule_id fire = rt_schedule_id target)))
        ("scheduler fire retention identity mismatch for " +:+ rt_fire_id target +:+ ": journal=" +:+
         rt_schedule_id target +:+ ", projection=" +:+ f_schedule_id fire)) ;;
      lift (reject (negb (is_terminal_fire_status (f_status fire)))
        ("scheduler fire retention target " +:+ f_fire_id fire +:+ " is no longer terminal (" +:+
         f_status fire +:+ ")")) ;;
      last ← get_last_fire (rt_schedule_id target) ;
      lift (reject (bool_decide (f_fire_id <$> last = Some (rt_fire_id target)))
        ("scheduler fire retention refused cursor watermark " +:+ rt_fire_id target)) ;;
      validate_targets (target :: seen) (btree_insert String.compare (rt_schedule_id target) affected) l
  end.
Definition validate_fire_retention_targets (l : list FireRetentionTarget) : Op (list string) :=
  validate_targets [] [] l.

(** [SchedulerDb::verify_fire_retention_targets]. *)
Definition verify_fire_retention_targets (l : list FireRetentionTarget) : Op unit :=
  current ← fire_projection_is_current ;
  lift (reject (negb current) "cannot verify retention against an incomplete scheduler fire projection") ;;
  pending ← pending_fire_outbox ;
  lift (reject (negb (pending =? 0))
    ("cannot verify scheduler fire retention with " +:+ pretty pending +:+ " undrained snapshot(s)")) ;;
  _ ← validate_fire_retention_targets l ;
  mret tt.

(** [DELETE FROM schedule_fires WHERE fire_id = ?1 AND schedule_id = ?2],
    which must delete one row. *)
Definition delete_target (target : FireRetentionTarget) : Op unit :=
  row ← get_fire (rt_fire_id target) ;
  lift (reject (negb (bool_decide (f_schedule_id <$> row = Some (rt_schedule_id target))))
    ("scheduler fire changed during retention: " +:+ rt_fire_id target)) ;;
  modify (with_db (set_fires (delete (rt_fire_id target)))).

(** [SchedulerDb::finish_fire_retention]. *)
Definition finish_fire_retention (l : list FireRetentionTarget) : Op Z :=
  transaction (
    current ← fire_projection_is_current ;
    lift (reject current "scheduler fire retention marker was not invalidated") ;;
    affected_schedules ← validate_fire_retention_targets l ;
    for_each delete_target l ;;
    now ← timestamp_millis ;
    for_each (λ id, op_context ("refresh cursor after retaining " +:+ id)
                      (refresh_cursor_for_schedule_conn id now)) affected_schedules ;;
    publish_projection "scheduler fire retention marker disappeared before publication" ;;
    mret (Z.of_nat (length l))).

(** [SchedulerDb::finish_schedule_fire_purge]. *)
Definition finish_schedule_fire_purge (id : string) : Op Z :=
  transaction (
    current ← fire_projection_is_current ;
    lift (reject current "scheduler fire purge marker was not invalidated") ;;
    deleted ← read (λ w, size (filter (λ e : string * FireRecord, f_schedule_id e.2 = id) (fires (db w)))) ;
    modify (with_db (set_fires (filter (λ e, f_schedule_id e.2 ≠ id)))) ;;
    now ← timestamp_millis ;
    refresh_cursor_for_schedule_conn id now ;;
    publish_projection "scheduler fire purge marker disappeared before publication" ;;
    mret (Z.of_nat deleted)).

(** ** Repair

    [rebuild_fires_from_runtime_directory] replays the journals of a pinned
    directory as [rebuild_fires_from_dir] does. *)
Definition rebuild_fires_from_runtime_directory : Op unit := rebuild_fires_from_dir.
Definition repair_projection (rebuild : Op unit) : Op unit :=
  rebuild ;;
  all ← list_specs ;
  now ← timestamp_millis ;
  rebuild_cursors_for_specs all now.

(** [format!("{error:#}")]. *)
Fixpoint alternate (chain : list string) : string :=
  match chain with
  | [] => EmptyString
  | [message] => message
  | message :: chain => message +:+ ": " +:+ alternate chain
  end.
(** [match attempt { Err(error) => repair, then the error }]. *)
Definition or_repair {A} (attempt : Op A) (repair : Op unit) (failed : string) : Op A :=
  λ w, match attempt w with
       | (Err (Error chain), w') =>
           match repair w' with
           | (Ok _, w'') => (Err (Error chain), w'')
           | (Err (Error chain'), w'') =>
               (Err (Error [alternate chain +:+ failed +:+ alternate chain']), w'')
           | (Err e, w'') => (Err e, w'')
           end
       | r => r
       end.

End sweep.

(** What the maintenance run and the handler ask of the rest of the daemon:
    the purge of caches and traces that precedes the sweep, whether the
    caller owns a schedule, and the signed file of its source, of which
    [verify_source] returns the content hash when there is one. *)
Class RetentionContext := {
  purge_caches : nat → Result (list string) unit;
  require_owner : nat → string → Result (list string) unit;
  verify_source : nat → string → Result (list string) (option string);
  remove_source : nat → string → Result (list string) unit;
}.

Section maintenance.
Context `{Calendar} `{Sha256} `{Clock} `{FireCodec} `{RowOrder} `{RetentionContext}.
Context `{UnicodeTables} `{JsonText}.

(** The retention part of [run_gc_and_log]; it returns the number of rows
    removed from the projection. *)
Definition retain_fires (fire_retention : option FireRetentionPolicy) (dry_run : bool) : Op Z :=
  let started := bool_decide (is_Some fire_retention) && negb dry_run in
  match fire_retention with
  | Some _ =>
      if dry_run then
        pending ← pending_fire_outbox ;
        lift (reject (negb (pending =? 0))
          ("scheduler fire retention dry-run requires an empty outbox; " +:+ pretty pending +:+
           " durable snapshot(s) still need publication"))
      else _ ← op_context "drain scheduler fire outbox before retention" drain_fire_outbox ; mret tt
  | None => mret tt
  end ;;
  (if started then
     op_context "invalidate scheduler fire projection before journal retention" begin_fire_retention
   else mret tt) ;;
  let attempt :=
    swept ← op_context "runtime-state purge failed"
      (ask purge_caches ;;
       sweep_fire_jsonl fire_retention dry_run {| deleted_fire_records := 0; freed_bytes := 0 |}) ;
    let targets := swept.2 in
    if started then
      op_context "publish exact scheduler fire retention projection" (finish_fire_retention targets)
    else if bool_decide (is_Some fire_retention) && dry_run then
      op_context "verify exact scheduler fire retention projection for dry-run"
        (verify_fire_retention_targets targets) ;;
      mret (Z.of_nat (length targets))
    else mret (Z.of_nat (length targets)) in
  if started then
    or_repair attempt (repair_projection rebuild_fires_from_runtime_directory)
      "; scheduler retention repair also failed: "
  else attempt.

(** [HandlerError::Internal(e.to_string())]: only the outermost message. *)
Definition internal {A} (m : Op A) : Op A :=
  λ w, match m w with
       | (Err (Error chain), w') => (Err (Error (take 1 chain)), w')
       | r => r
       end.
(** [scheduler_deregister.rs: handle]: the source is verified, the schedule
    disabled, its history purged on request, the source removed and the
    specification deleted.  The runtime gate is held throughout; the reload
    signal to the timer is not modelled. *)
Definition purge_history (id : string) : Op unit :=
  _ ← internal drain_fire_outbox ;
  internal begin_fire_retention ;;
  internal (or_repair
    (checkpoint ;; modify (set_journals (delete id)) ;; _ ← finish_schedule_fire_purge id ; mret tt)
    (repair_projection rebuild_fires_from_dir)
    "; scheduler fire projection repair failed: ").
Definition disabled (spec : ScheduleSpecRecord) : ScheduleSpecRecord :=
  {| schedule_id := schedule_id spec; item_ref := item_ref spec; ref_bindings := ref_bindings spec;
     params := params spec; schedule_type := schedule_type spec; expression := expression spec;
     timezone := timezone spec; misfire_policy := misfire_policy spec;
     overlap_policy := overlap_policy spec; lateness_grace_secs := lateness_grace_secs spec;
     enabled := false; project_root := project_root spec; signer_fingerprint := signer_fingerprint spec;
     spec_hash := spec_hash spec; registered_at := registered_at spec;
     requester_fingerprint := requester_fingerprint spec; capabilities := capabilities spec |}.
Definition deregister (id : string) (purge : bool) : Op unit :=
  internal (lift (validate_schedule_id id)) ;;
  row ← get_spec id ;
  spec ← lift (some_or row "not found") ;
  ask (λ n, require_owner n (requester_fingerprint spec)) ;;
  source ← internal (ask (λ n, verify_source n id)) ;
  lift (reject match source with
               | Some hash => negb (bool_decide (hash = spec_hash spec))
               | None => false
               end "schedule source changed since it was projected") ;;
  internal (upsert_spec (disabled spec)) ;;
  (if purge then purge_history id else mret tt) ;;
  match source with
  | Some _ => internal (ask (λ n, remove_source n id))
  | None => mret tt
  end ;;
  _ ← internal (delete_spec id) ;
  mret tt.

End maintenance.
