(* ===== verification/SchedulerDbCorrect.v ===== *)
(** * The scheduler's store is durable

    Every operation on the store, wherever it stops, is a sequence of a few
    steps: nothing happens to fires, outbox and journals; an admissible
    snapshot is recorded; the head of the outbox is written to its journal,
    completely or, when the process dies, in part.  Invariants are shown for
    the steps and so hold for every operation. *)

From S2P Require Import Prelude Float64 Json Schedule SchedulerDb.

(** ** Operations and the relations they keep *)

Definition keeps {A} (R : World → World → Prop) (m : Op A) : Prop := ∀ w, R w (m w).2.

Create HintDb keeps.

Section keeps.
Context (R : World → World → Prop) `{!PreOrder R}.

Lemma keeps_ret {A} (a : A) : keeps R (mret a).
Proof. intros w. reflexivity. Qed.
Lemma keeps_throw {A} e : keeps R (throw (A := A) e).
Proof. intros w. reflexivity. Qed.
Lemma keeps_lift {A} (r : Sch A) : keeps R (lift r).
Proof. intros w. reflexivity. Qed.
Lemma keeps_read {A} (f : World → A) : keeps R (read f).
Proof. intros w. reflexivity. Qed.
Lemma keeps_get : keeps R get.
Proof. intros w. reflexivity. Qed.
Lemma keeps_bind {A B} (m : Op A) (f : A → Op B) :
  keeps R m → (∀ a, keeps R (f a)) → keeps R (m ≫= f).
Proof.
  intros Hm Hf w. specialize (Hm w). unfold mbind, m_bind. destruct (m w) as [[a|e] w']; [|done].
  cbn in *. transitivity w'; [done|apply Hf].
Qed.
Lemma keeps_context {A} message (m : Op A) : keeps R m → keeps R (op_context message m).
Proof. intros Hm w. specialize (Hm w). unfold op_context. by destruct (m w). Qed.
Lemma keeps_for_each {A} (f : A → Op unit) l : (∀ x, keeps R (f x)) → keeps R (for_each f l).
Proof. intros Hf. induction l; cbn; [apply keeps_ret|]. by apply keeps_bind. Qed.
Lemma keeps_try_map {A B} (f : A → Op B) l : (∀ x, keeps R (f x)) → keeps R (try_map f l).
Proof.
  intros Hf. induction l; cbn; [apply keeps_ret|].
  apply keeps_bind; [done|intros b]. apply keeps_bind; [done|intros bs]. apply keeps_ret.
Qed.
Lemma keeps_fold {A B} (f : B → A → Op B) l acc :
  (∀ acc x, keeps R (f acc x)) → keeps R (fold_m f acc l).
Proof. intros Hf. revert acc. induction l; intros acc; cbn; [apply keeps_ret|]. by apply keeps_bind. Qed.

End keeps.
#[export] Hint Extern 0 (PreOrder _) => typeclasses eauto : keeps.
#[export] Hint Resolve keeps_ret keeps_throw keeps_lift keeps_read keeps_get : keeps.
Ltac keep :=
  repeat first
    [ solve [eauto with keeps]
    | apply keeps_bind; [try typeclasses eauto| |intros ?]
    | apply keeps_context
    | apply keeps_for_each; [try typeclasses eauto|intros ?]
    | apply keeps_try_map; [try typeclasses eauto|intros ?]
    | apply keeps_fold; [try typeclasses eauto|intros ? ?]
    | case_match ].

Lemma keeps_mono {A} (R S : World → World → Prop) (m : Op A) :
  (∀ w w', R w w' → S w w') → keeps R m → keeps S m.
Proof. intros HRS Hm w. apply HRS, Hm. Qed.

(** Results of sequences. *)
Lemma bind_inv {A B} (m : Op A) (f : A → Op B) w b w' :
  (m ≫= f) w = (Ok b, w') → ∃ a w1, m w = (Ok a, w1) ∧ f a w1 = (Ok b, w').
Proof. unfold mbind, m_bind. destruct (m w) as [[a|] w1]; [|done]. by exists a, w1. Qed.
Lemma bind_run {A B} (m : Op A) (f : A → Op B) w a w' : m w = (Ok a, w') → (m ≫= f) w = f a w'.
Proof. intros Hm. unfold mbind, m_bind. by rewrite Hm. Qed.
Lemma bind_err {A B} (m : Op A) (f : A → Op B) w e w' : m w = (Err e, w') → (m ≫= f) w = (Err e, w').
Proof. intros Hm. unfold mbind, m_bind. by rewrite Hm. Qed.
Lemma bind_assoc {A B C} (m : Op A) (f : A → Op B) (g : B → Op C) w :
  ((m ≫= f) ≫= g) w = (m ≫= (λ a, f a ≫= g)) w.
Proof. unfold mbind, m_bind. by destruct (m w) as [[] ?]. Qed.
Lemma bind_ext {A B} (m : Op A) (f g : A → Op B) w :
  (∀ a w, f a w = g a w) → (m ≫= f) w = (m ≫= g) w.
Proof. intros Hfg. unfold mbind, m_bind. destruct (m w) as [[] ?]; auto. Qed.

(** ** Operations that complete unless the process is killed *)

Inductive completes {A} (R : World → World → Prop) (o : Op A) (w : World) (post : A → World → Prop) : Prop :=
| completed a w' :
    o w = (Ok a, w') → R w w' → (kill w = None → kill w' = None) → post a w' → completes R o w post
| interrupted w' : o w = (Err Killed, w') → R w w' → is_Some (kill w) → completes R o w post.

Section completes.
Context (R : World → World → Prop) `{!PreOrder R}.

Lemma completes_ret {A} (a : A) w (post : A → World → Prop) : post a w → completes R (mret a) w post.
Proof. intros Hp. by eapply completed. Qed.
Lemma completes_bind {A B} (o : Op A) (f : A → Op B) w mid post :
  completes R o w mid → (∀ a w1, R w w1 → mid a w1 → completes R (f a) w1 post) → completes R (o ≫= f) w post.
Proof.
  intros [a w1 Ho HR Hk Hm|w1 Ho HR Hk] Hf.
  - destruct (Hf a w1 HR Hm) as [b w2 Hb HR2 Hk2 Hp|w2 Hb HR2 Hk2].
    + eapply completed; [by rewrite (bind_run _ _ _ _ _ Ho)|by etransitivity|auto|done].
    + eapply interrupted; [by rewrite (bind_run _ _ _ _ _ Ho)|by etransitivity|].
      destruct (kill w); [done|]. rewrite Hk in Hk2 by done. by destruct Hk2.
  - by eapply interrupted; [rewrite (bind_err _ _ _ _ _ Ho)|..].
Qed.
Lemma completes_mono {A} (o : Op A) w (mid post : A → World → Prop) :
  completes R o w mid → (∀ a w', mid a w' → post a w') → completes R o w post.
Proof. intros [a w' Ho HR Hk Hm|w' Ho HR Hk] Hmp; [eapply completed|eapply interrupted]; eauto. Qed.
Lemma completes_context {A} message (o : Op A) w post :
  completes R o w post → completes R (op_context message o) w post.
Proof.
  intros [a w' Ho HR Hk Hm|w' Ho HR Hk]; [eapply completed|eapply interrupted]; try done;
    unfold op_context; by rewrite Ho.
Qed.

End completes.

(** ** Steps *)

(** Fires, outbox, journals and the projection marker are what they were. *)
Record quiet (w w' : World) : Prop := {
  quiet_fires : fires (db w') = fires (db w);
  quiet_outbox : outbox (db w') = outbox (db w);
  quiet_journals : journals w' = journals w;
  quiet_projection : projection_state (db w') = projection_state (db w);
}.
#[export] Instance quiet_preorder : PreOrder quiet.
Proof.
  split; [by constructor|]. intros w1 w2 w3 [] []. constructor; congruence.
Qed.

Section steps.
Context `{Calendar} `{Sha256} `{Clock} `{FireCodec}.

Definition outbox_row (r : FireRecord) : OutboxRow :=
  {| o_fire_id := f_fire_id r; o_schedule_id := f_schedule_id r;
     o_snapshot_json := fire_to_string r |}.

(** A snapshot the store may record: valid, and a legal successor of the row
    it replaces. *)
Record admissible (w : World) (r : FireRecord) : Prop := {
  admissible_valid : validate r = Ok tt;
  admissible_next : ∀ p, fires (db w) !! f_fire_id r = Some p → validate_transition_from r p = Ok tt;
  admissible_current : projection_is_current (db w) = true;
}.

(** The journal of a schedule receives [text], the beginning of a line,
    after its torn line was removed; a process that is killed early has
    only opened the file. *)
Record receives (w w' : World) (id text : string) : Prop := {
  receives_text : ∃ base, journals w' = <[id := base +:+ text]> (journals w) ∧
    (base = repair_tail (journal w id) ∨ base = journal w id ∧ text = EmptyString);
  receives_fires : fires (db w') = fires (db w);
  receives_projection : projection_state (db w') = projection_state (db w);
}.
Inductive step (w w' : World) : Prop :=
| step_quiet : quiet w w' → step w w'
| step_record r :
    admissible w r →
    fires (db w') = <[f_fire_id r := r]> (fires (db w)) →
    outbox (db w') = outbox (db w) ++ [outbox_row r] →
    journals w' = journals w →
    projection_state (db w') = projection_state (db w) →
    step w w'
| step_write row rest s text more :
    outbox (db w) = row :: rest →
    fire_from_str (o_snapshot_json row) = Ok s →
    validate s = Ok tt →
    f_schedule_id s = o_schedule_id row →
    fire_canonical_json s +:+ newline = text +:+ more →
    receives w w' (o_schedule_id row) text →
    outbox (db w') = outbox (db w) ∨ (more = EmptyString ∧ outbox (db w') = rest) →
    step w w'.
Definition steps : World → World → Prop := rtc step.
#[export] Instance steps_preorder : PreOrder steps.
Proof. apply _. Qed.

Lemma quiet_steps w w' : quiet w w' → steps w w'.
Proof. intros Hq. by apply rtc_once, step_quiet. Qed.
Lemma keeps_quiet_steps {A} (m : Op A) : keeps quiet m → keeps steps m.
Proof. apply keeps_mono, quiet_steps. Qed.

(** ** The operations of the store are sequences of steps *)

Lemma observe_quiet w : quiet w (observe w).
Proof. by constructor. Qed.
Lemma keeps_observe {A} (f : nat → A) : keeps quiet (observe_with f).
Proof. intros w. apply observe_quiet. Qed.
Lemma keeps_timestamp : keeps quiet timestamp_millis.
Proof. apply keeps_observe. Qed.
Lemma keeps_cursors f : keeps quiet (modify (with_db (set_cursors f))).
Proof. intros w. by constructor. Qed.
#[local] Hint Resolve keeps_observe keeps_timestamp keeps_cursors : keeps.

Lemma keeps_refresh id now : keeps quiet (refresh_cursor_for_schedule_conn id now).
Proof. unfold refresh_cursor_for_schedule_conn, get_spec, get_last_fire. keep. Qed.
#[local] Hint Resolve keeps_refresh : keeps.

(** Results of the primitive operations. *)
Lemma lift_inv {A} (r : Sch A) (w : World) a w' : lift r w = (Ok a, w') → r = Ok a ∧ w' = w.
Proof. by intros [= -> ->]. Qed.
Lemma reject_inv bad message a : reject bad message = Ok a → bad = false.
Proof. by destruct bad. Qed.

(** *** Killing the process and transactions *)

(** A checkpoint lets the process live or kills it. *)
Lemma checkpoint_cases w :
  (∃ k, checkpoint w = (Ok tt, set_kill k w) ∧ (kill w = None → k = None)) ∨
  (checkpoint w = (Err Killed, w) ∧ is_Some (kill w)).
Proof.
  unfold checkpoint. destruct (kill w) as [[[|n] b]|] eqn:Hk.
  - right. by eauto.
  - left. by eexists.
  - left. exists None. split; [|done]. f_equal. destruct w. cbn in Hk. by subst.
Qed.
Lemma set_kill_quiet k w : quiet w (set_kill k w).
Proof. by constructor. Qed.
Lemma keeps_checkpoint : keeps quiet checkpoint.
Proof. intros w. destruct (checkpoint_cases w) as [(k & -> & _)|[-> _]]; by constructor. Qed.

(** A transaction commits what its body did, or leaves the tables alone. *)
Lemma transaction_cases {A} (m : Op A) w :
  (∃ a w1 k, m w = (Ok a, w1) ∧ transaction m w = (Ok a, set_kill k w1) ∧ (kill w1 = None → k = None)) ∨
  (∃ e w1, transaction m w = (Err e, with_db (λ _, db w) w1) ∧ w1 = (m w).2 ∧
           ((m w).1 = Err e ∨ e = Killed ∧ is_Some (kill w1))).
Proof.
  unfold transaction, mbind, m_bind. destruct (m w) as [[a|e] w1].
  - destruct (checkpoint_cases w1) as [(k & -> & Hk)|[-> Hk]].
    + left. by exists a, w1, k.
    + right. exists Killed, w1. auto.
  - right. exists e, w1. auto.
Qed.
Lemma transaction_inv {A} (m : Op A) w a w' :
  transaction m w = (Ok a, w') → ∃ w1 k, m w = (Ok a, w1) ∧ w' = set_kill k w1.
Proof.
  destruct (transaction_cases m w) as [(a1 & w1 & k & Hm & -> & _)|(e & w1 & -> & _)]; [|done].
  intros [= <- <-]. by eauto.
Qed.
Lemma transaction_run {A} (m : Op A) w a w' :
  m w = (Ok a, w') → kill w' = None → transaction m w = (Ok a, w').
Proof.
  intros Hm Hk. unfold transaction. rewrite (bind_run _ _ _ _ _ Hm). unfold checkpoint, mbind, m_bind.
  by rewrite Hk.
Qed.
Lemma keeps_transaction_quiet {A} (m : Op A) : keeps quiet m → keeps quiet (transaction m).
Proof.
  intros Hm w. specialize (Hm w). destruct (transaction_cases m w) as [(a & w1 & k & Hw & -> & _)|(e & w1 & -> & -> & _)].
  - rewrite Hw in Hm. etransitivity; [exact Hm|]. apply set_kill_quiet.
  - destruct Hm. by constructor.
Qed.
#[local] Hint Resolve keeps_checkpoint keeps_transaction_quiet : keeps.

Definition same_files (w w' : World) : Prop := journals w' = journals w.
#[export] Instance same_files_preorder : PreOrder same_files.
Proof. split; [done|]. unfold same_files. intros ???. congruence. Qed.
Lemma quiet_files {A} (m : Op A) : keeps quiet m → keeps same_files m.
Proof. apply keeps_mono. by intros ? ? []. Qed.
Lemma keeps_files_db f : keeps same_files (modify (with_db f)).
Proof. done. Qed.
#[local] Hint Resolve keeps_files_db : keeps.

(** A transaction is atomic. *)
Lemma transaction_steps {A} (m : Op A) :
  keeps same_files m → (∀ w a w', m w = (Ok a, w') → steps w w') → keeps steps (transaction m).
Proof.
  intros Hf Hok w. specialize (Hf w).
  destruct (transaction_cases m w) as [(a & w1 & k & Hm & -> & _)|(e & w1 & -> & -> & _)].
  - etransitivity; [by apply (Hok w a)|]. apply quiet_steps, set_kill_quiet.
  - apply quiet_steps. by constructor.
Qed.

(** Inserting a row, queueing its snapshot and refreshing the cursor. *)
Definition record_row (rec : FireRecord) : Op unit :=
  upsert_fire_conn rec ;;
  _ ← enqueue_current_fire_snapshot_conn (f_fire_id rec) ;
  now ← timestamp_millis ;
  refresh_cursor_for_schedule_conn (f_schedule_id rec) now.

Lemma record_row_step rec w w' : admissible w rec → record_row rec w = (Ok tt, w') → step w w'.
Proof.
  intros Hadm Hrun.
  apply bind_inv in Hrun as ([] & w1 & [= <-] & Hrun).
  apply bind_inv in Hrun as (fire & w1 & Henq & Hrest).
  apply bind_inv in Henq as (row & w2 & [= <- <-] & Henq). cbn in Henq. rewrite lookup_insert_eq in Henq.
  apply bind_inv in Henq as (fire' & w2 & [= <- <-] & Henq).
  apply bind_inv in Henq as ([] & w2 & [_ ->]%lift_inv & Henq).
  apply bind_inv in Henq as ([] & w2 & [= <-] & [= <- <-]).
  assert (keeps quiet (now ← timestamp_millis ; refresh_cursor_for_schedule_conn (f_schedule_id rec) now))
    as Hq by keep.
  match type of Hrest with ?m ?v = _ => specialize (Hq v) end. rewrite Hrest in Hq. destruct Hq as [Hf Ho Hj Hp].
  by apply (step_record w w' rec).
Qed.

Lemma keeps_files_record rec : keeps same_files (record_row rec).
Proof.
  unfold record_row, upsert_fire_conn, enqueue_current_fire_snapshot_conn, get_fire. keep.
  apply quiet_files, keeps_timestamp.
Qed.
#[local] Hint Resolve keeps_files_record : keeps.

Lemma upsert_fire_steps rec : keeps steps (upsert_fire rec).
Proof.
  intros w. unfold upsert_fire. unfold mbind at 1, m_bind at 1, lift at 1.
  destruct (validate rec) as [[]|] eqn:Hv; [|reflexivity].
  apply transaction_steps; [unfold require_current_fire_projection, fire_projection_is_current, get_fire; keep; apply keeps_files_record|].
  clear w. intros w [] w' Hrun.
  apply bind_inv in Hrun as ([] & w1 & Hcur & Hrun).
  apply bind_inv in Hcur as (c & w2 & [= <- <-] & [Hcur%reject_inv ->]%lift_inv).
  apply bind_inv in Hrun as (prev & w2 & [= <- <-] & Hrun).
  apply bind_inv in Hrun as ([] & w2 & Hprev & Hrun). apply negb_false_iff in Hcur.
  apply rtc_once, (record_row_step rec); [|destruct (fires (db w) !! f_fire_id rec);
    [by apply lift_inv in Hprev as [_ ->]|by injection Hprev as <-]].
  constructor; [done| |done]. intros p Hp. rewrite Hp in Hprev. by apply lift_inv in Hprev as [? _].
Qed.

Lemma claim_row rec w :
  (upsert_fire_conn rec ;;
   _ ← enqueue_current_fire_snapshot_conn (f_fire_id rec) ;
   now ← timestamp_millis ;
   refresh_cursor_for_schedule_conn (f_schedule_id rec) now ;;
   mret true) w = (record_row rec ;; mret true) w.
Proof.
  unfold record_row. rewrite bind_assoc. apply bind_ext. intros _ w1.
  rewrite bind_assoc. apply bind_ext. intros _ w2. by rewrite bind_assoc.
Qed.

Lemma claim_fire_steps rec : keeps steps (claim_fire rec).
Proof.
  intros w. unfold claim_fire. unfold mbind at 1, m_bind at 1, lift at 1.
  destruct (validate rec) as [[]|] eqn:Hv; [|reflexivity].
  apply transaction_steps.
  { unfold require_current_fire_projection, fire_projection_is_current, get_fire.
    apply keeps_bind; [apply _|keep|intros _]. apply keeps_bind; [apply _|keep|intros [p|]]; [keep|].
    intros v. rewrite claim_row. revert v. change (keeps same_files (record_row rec ;; mret true)). keep. }
  clear w. intros w b w' Hrun.
  apply bind_inv in Hrun as ([] & w1 & Hcur & Hrun).
  apply bind_inv in Hcur as (c & w2 & [= <- <-] & [Hcur%reject_inv ->]%lift_inv).
  apply bind_inv in Hrun as (prev & w2 & [= <- <-] & Hrun). apply negb_false_iff in Hcur.
  destruct (fires (db w) !! f_fire_id rec) eqn:Hp; [by injection Hrun as <- <-|].
  rewrite claim_row in Hrun. apply bind_inv in Hrun as ([] & w2 & Hrow & [= <- <-]).
  apply rtc_once, (record_row_step rec); [|done]. constructor; [done| |done]. by rewrite Hp.
Qed.

(** Publishing the head of the outbox appends its line, or a part of it when
    the process is killed, or changes nothing. *)
Definition appended (w : World) (id text : string) : World :=
  set_journals <[id := repair_tail (journal w id) +:+ text]> w.
Lemma append_text_cases id text w :
  (∃ k, append_text id text w = (Ok tt, set_kill k (set_journals <[id := journal w id +:+ text]> w)) ∧
        (kill w = None → k = None)) ∨
  (∃ part more, text = part +:+ more ∧ is_Some (kill w) ∧
     append_text id text w = (Err Killed, set_journals <[id := journal w id +:+ part]> w)).
Proof.
  unfold append_text. destruct (checkpoint_cases w) as [(k & -> & Hk)|[-> Hk]].
  - left. exists k. done.
  - right. eexists _, _. split; [symmetry; apply take_drop_bytes|done].
Qed.
Lemma set_journals_twice id x y w :
  set_journals <[id := y]> (set_journals <[id := x]> w) = set_journals <[id := y]> w.
Proof. unfold set_journals. cbn. by rewrite insert_insert_eq. Qed.
Lemma journal_set id x w : journal (set_journals <[id := x]> w) id = x.
Proof. unfold journal. cbn. by rewrite lookup_insert_eq. Qed.

Lemma append_run id s w :
  validate s = Ok tt →
  let line := fire_canonical_json s +:+ newline in
  (∃ k, append_fire_jsonl_entry id s w = (Ok tt, set_kill k (appended w id line)) ∧ (kill w = None → k = None)) ∨
  (∃ base part more w1, append_fire_jsonl_entry id s w = (Err Killed, w1) ∧ is_Some (kill w) ∧
     line = part +:+ more ∧ (base = repair_tail (journal w id) ∨ base = journal w id ∧ part = EmptyString) ∧
     db w1 = db w ∧ spawned w1 = spawned w ∧ journals w1 = <[id := base +:+ part]> (journals w)).
Proof.
  intros Hv line. unfold append_fire_jsonl_entry. rewrite (bind_run _ _ w (journal w id) w) by done.
  rewrite (bind_run _ _ w tt (set_journals <[id := journal w id]> w)) by done.
  set (w0 := set_journals <[id := journal w id]> w).
  assert (∀ k, let v := set_kill k (set_journals <[id := repair_tail (journal w id)]> w) in
     (kill w = None → k = None) → (is_Some k → is_Some (kill w)) →
     let m := line ← lift (canonical_json_line s) ; append_text id (line +:+ newline) in
     (∃ k, m v = (Ok tt, set_kill k (appended w id line)) ∧ (kill w = None → k = None)) ∨
     (∃ part more w1, m v = (Err Killed, w1) ∧ is_Some (kill w) ∧ line = part +:+ more ∧
        db w1 = db w ∧ spawned w1 = spawned w ∧
        journals w1 = <[id := repair_tail (journal w id) +:+ part]> (journals w))) as Hrest.
  { intros k v Hk Hk' m. unfold m, canonical_json_line.
    rewrite (bind_run _ _ v (fire_canonical_json s) v) by (unfold lift; by rewrite Hv). fold line.
    assert (journal v id = repair_tail (journal w id)) as Hj by (unfold v, journal; cbn; by rewrite lookup_insert_eq).
    destruct (append_text_cases id line v) as [(k' & -> & Hk2)|(part & more & Hl & Hs & ->)].
    - left. exists k'. rewrite Hj. split; [|cbn in Hk2; auto]. unfold appended, v, set_kill, set_journals. cbn.
      by rewrite insert_insert_eq.
    - right. exists part, more. eexists. split; [done|]. rewrite Hj. cbn in Hs. split_and!; [by auto|done..|].
      cbn. by rewrite insert_insert_eq. }
  destruct (decide (repair_tail (journal w id) = journal w id)) as [He|He].
  - rewrite (bind_run _ _ w0 tt w0) by done. specialize (Hrest (kill w)).
    replace (set_kill (kill w) (set_journals <[id := repair_tail (journal w id)]> w)) with w0 in Hrest
      by (by rewrite He).
    destruct (Hrest (λ H, H) (λ H, H)) as [?|(part & more & w1 & ?)]; [by left|].
    right. exists (repair_tail (journal w id)), part, more, w1. naive_solver.
  - destruct (checkpoint_cases w0) as [(k & Hc & Hk)|[Hc Hk]].
    + rewrite (bind_run _ _ w0 tt (set_kill k (set_journals <[id := repair_tail (journal w id)]> w))).
      2: { rewrite (bind_run _ _ _ _ _ Hc). unfold write_journal, modify, w0, set_kill, set_journals. cbn.
           by rewrite insert_insert_eq. }
      destruct (Hrest k) as [?|(part & more & w1 & ?)]; [done| |by left|].
      { intros Hs. cbn in Hk. destruct (kill w); [done|]. rewrite Hk in Hs by done. by destruct Hs. }
      right. exists (repair_tail (journal w id)), part, more, w1. naive_solver.
    + right. exists (journal w id), EmptyString, line, w0. rewrite (bind_err _ _ w0 Killed w0).
      2: { by rewrite (bind_err _ _ _ _ _ Hc). }
      rewrite append_nil_l, append_nil_r. by split_and!; auto.
Qed.
Lemma publish_run row w :
  (∃ e, publish row w = (Err e, w)) ∨
  ∃ s, fire_from_str (o_snapshot_json row) = Ok s ∧ validate s = Ok tt ∧
       f_schedule_id s = o_schedule_id row ∧ f_fire_id s = o_fire_id row ∧
       let line := fire_canonical_json s +:+ newline in
       (∃ k, publish row w = (Ok tt, set_kill k (appended w (o_schedule_id row) line)) ∧
             (kill w = None → k = None)) ∨
       (∃ part more w1, publish row w = (Err Killed, w1) ∧ is_Some (kill w) ∧ line = part +:+ more ∧
          receives w w1 (o_schedule_id row) part ∧ outbox (db w1) = outbox (db w) ∧ spawned w1 = spawned w).
Proof.
  unfold publish, append_fire_jsonl_entry_in_directory.
  unfold mbind, m_bind, lift, op_context.
  destruct (validate_schedule_id (o_schedule_id row)) as [[]|[]] eqn:Hid; cbn; [|by eauto..].
  destruct (fire_from_str (o_snapshot_json row)) as [s|] eqn:Hs; cbn; [|by eauto].
  destruct (validate s) as [[]|[]] eqn:Hv; cbn; [|by eauto..].
  destruct (bool_decide (f_fire_id s = o_fire_id row)) eqn:Hf; cbn; [|by eauto].
  destruct (bool_decide (f_schedule_id s = o_schedule_id row)) eqn:Hg; cbn; [|by eauto].
  right. exists s. apply bool_decide_eq_true in Hf, Hg. split_and!; [done..|].
  destruct (append_run (o_schedule_id row) s w Hv) as [(k & -> & Hk)|(base & part & more & w1 & -> & Hk & Hl & Hb & Hdb & Hsp & Hj)].
  - left. by exists k.
  - right. exists part, more, w1. split_and!; try done; [|by rewrite Hdb].
    constructor; [by exists base|by rewrite Hdb..].
Qed.

Lemma acknowledge_cases w :
  (∃ k, acknowledge w = (Ok tt, set_kill k (with_db (set_outbox List.tl) w)) ∧ (kill w = None → k = None)) ∨
  (∃ w1, acknowledge w = (Err Killed, w1) ∧ is_Some (kill w) ∧ quiet w w1 ∧ spawned w1 = spawned w).
Proof.
  unfold acknowledge. destruct (transaction_cases (modify (with_db (set_outbox List.tl))) w)
    as [(a & w1 & k & [= <- <-] & -> & Hk)|(e & w1 & -> & -> & [He|[-> Hk]])]; [|done|].
  - left. by exists k.
  - right. eexists. split; [done|]. by cbn in Hk |- *.
Qed.

Lemma drain_loop_steps fuel n : keeps steps (drain_loop fuel n).
Proof.
  revert n. induction fuel as [|fuel IH]; intros n w.
  - unfold drain_loop, read, mbind, m_bind. cbn. destruct (outbox (db w)); reflexivity.
  - cbn [drain_loop]. rewrite (bind_run _ _ w (outbox (db w)) w) by done.
    destruct (outbox (db w)) as [|row rest] eqn:Ho; [reflexivity|].
    destruct (publish_run row w) as [[e Hp]|(s & Hs & Hv & Hid & _ & [(k & Hp & _)|(part & more & w1 & Hp & _ & Hl & Hr & Hout & _)])].
    { by rewrite (bind_err _ _ _ _ _ Hp). }
    2: { rewrite (bind_err _ _ _ _ _ Hp). apply rtc_once. by apply (step_write _ _ row rest s part more); auto. }
    rewrite (bind_run _ _ _ _ _ Hp). set (line := fire_canonical_json s +:+ newline) in *.
    set (w1 := set_kill k (appended w (o_schedule_id row) line)).
    assert (∀ w2, fires (db w2) = fires (db w) → projection_state (db w2) = projection_state (db w) →
      journals w2 = journals w1 → outbox (db w2) = row :: rest ∨ outbox (db w2) = rest → step w w2) as Hstep.
    { intros w2 Hf Hpr Hj Hout. apply (step_write _ _ row rest s line EmptyString); try done.
      - by rewrite append_nil_r.
      - constructor; [|done..]. exists (repair_tail (journal w (o_schedule_id row))). split; [done|by left].
      - rewrite Ho. naive_solver. }
    destruct (acknowledge_cases w1) as [(k' & Ha & _)|(w2 & Ha & _ & Hq & _)].
    + rewrite (bind_run _ _ _ _ _ Ha). etransitivity; [|apply (IH (n + 1))]. apply rtc_once, Hstep; try done.
      right. cbn. by rewrite Ho.
    + rewrite (bind_err _ _ _ _ _ Ha). destruct Hq as [Hf Hout Hj Hpr]. apply rtc_once, Hstep; [done..|]. left. exact (eq_trans Hout Ho).
Qed.
Lemma drain_steps : keeps steps drain_fire_outbox.
Proof. unfold drain_fire_outbox. apply keeps_bind; [apply _|keep|intros k]. apply drain_loop_steps. Qed.
(** It touches the journals and the outbox only. *)
Lemma drain_field {X} (f : World → X) :
  (∀ g w, f (set_journals g w) = f w) → (∀ k w, f (set_kill k w) = f w) → (∀ g w, f (with_db (set_outbox g) w) = f w) →
  keeps (λ w w', f w' = f w) drain_fire_outbox.
Proof.
  intros Hj Hk Ho.
  assert (PreOrder (λ w w' : World, f w' = f w)) by (split; [done|intros ? ? ?; congruence]).
  assert (∀ id bytes, keeps (λ w w', f w' = f w) (write_journal id bytes)) by (intros id bytes w; apply Hj).
  assert (keeps (λ w w', f w' = f w) checkpoint).
  { intros w. destruct (checkpoint_cases w) as [(k & -> & _)|[-> _]]; [apply Hk|done]. }
  assert (∀ id text, keeps (λ w w', f w' = f w) (append_text id text)).
  { intros id text w. destruct (append_text_cases id text w) as [(k & -> & _)|(part & more & _ & _ & ->)]; cbn; by rewrite ?Hk, Hj. }
  assert (keeps (λ w w', f w' = f w) acknowledge).
  { intros w. unfold acknowledge. destruct (transaction_cases (modify (with_db (set_outbox List.tl))) w)
      as [(a & w1 & k & [= <- <-] & -> & _)|(e & w1 & -> & -> & _)]; cbn; [by rewrite Hk, Ho|by destruct w]. }
  unfold drain_fire_outbox. keep. generalize 0. induction a as [|n IH]; intros k; cbn [drain_loop];
    unfold publish, append_fire_jsonl_entry_in_directory, append_fire_jsonl_entry; keep.
Qed.
#[local] Hint Resolve upsert_fire_steps claim_fire_steps drain_steps : keeps.
Lemma persist_steps rec : keeps steps (persist_fire_snapshot rec).
Proof. unfold persist_fire_snapshot. keep. Qed.
Lemma claim_snapshot_steps rec : keeps steps (claim_fire_snapshot rec).
Proof. unfold claim_fire_snapshot. keep. Qed.
Lemma reclaim_steps fid : keeps steps (reclaim_fire_snapshot fid).
Proof.
  unfold reclaim_fire_snapshot, reclaim_fire, require_current_fire_projection, fire_projection_is_current, get_fire.
  keep.
Qed.
Lemma keeps_upsert_cursor c : keeps quiet (upsert_cursor c).
Proof. unfold upsert_cursor. keep. Qed.
#[local] Hint Resolve keeps_upsert_cursor : keeps.
Lemma reconcile_cursors_quiet l now : keeps quiet (reconcile_cursors_for_specs l now).
Proof. unfold reconcile_cursors_for_specs. keep. Qed.
Lemma rebuild_cursors_quiet l now : keeps quiet (rebuild_cursors_for_specs l now).
Proof. unfold rebuild_cursors_for_specs. keep. Qed.

(** ** Life of a fire

    A row is final, or it is a dispatched row that keeps its identity. *)

Record row_next (p r : FireRecord) : Prop := {
  next_identity : f_fire_id r = f_fire_id p ∧ f_schedule_id r = f_schedule_id p ∧
                  f_scheduled_at r = f_scheduled_at p ∧ f_trigger_reason r = f_trigger_reason p ∧
                  f_signer_fingerprint r = f_signer_fingerprint p ∧ f_fired_at r = f_fired_at p ∧
                  f_thread_id r = f_thread_id p;
  next_final : f_status p ≠ "dispatched" → r = p;
}.
#[export] Instance row_next_preorder : PreOrder row_next.
Proof.
  split; [by constructor|]. intros p q r [Hid1 Hf1] [Hid2 Hf2]. constructor; [naive_solver congruence|].
  intros Hp. specialize (Hf1 Hp). subst q. auto.
Qed.

Lemma result_bind_inv {A B} (m : Sch A) (f : A → Sch B) b :
  (m ≫= f) = Ok b → ∃ a, m = Ok a ∧ f a = Ok b.
Proof. destruct m as [a|]; [|done]. by exists a. Qed.

Lemma transition_inv r p :
  validate_transition_from r p = Ok tt → validate p = Ok tt ∧ validate r = Ok tt ∧ row_next p r.
Proof.
  unfold validate_transition_from. intros Hr.
  apply result_bind_inv in Hr as ([] & Hvp & Hr). apply result_bind_inv in Hr as ([] & Hvr & Hr).
  apply result_bind_inv in Hr as ([] & Hid%reject_inv & Hr). split_and!; [done..|].
  rewrite !orb_false_iff, !negb_false_iff, !bool_decide_eq_true in Hid.
  destruct Hid as [[[[H1' H2'] H3] H4] H5].
  case_decide as Heq; [by subst|].
  apply result_bind_inv in Hr as ([] & Hst%reject_inv & Hr%reject_inv).
  rewrite negb_false_iff, bool_decide_eq_true in Hst.
  rewrite orb_false_iff, !negb_false_iff, !bool_decide_eq_true in Hr.
  constructor; [naive_solver|congruence].
Qed.

(** Rows are stored under their identity and are valid. *)
Definition valid_rows (w : World) : Prop :=
  map_Forall (λ fid r, f_fire_id r = fid ∧ validate r = Ok tt) (fires (db w)).

(** Rows stay, and each is replaced by legal successors only. *)
Definition evolve (m m' : gmap string FireRecord) : Prop :=
  ∀ fid p, m !! fid = Some p → ∃ r, m' !! fid = Some r ∧ row_next p r.
#[export] Instance evolve_preorder : PreOrder evolve.
Proof.
  split; [intros m fid p Hp; by exists p|]. intros m1 m2 m3 H12 H23 fid p Hp.
  destruct (H12 _ _ Hp) as (q & Hq & Hpq). destruct (H23 _ _ Hq) as (r & Hr & Hqr).
  exists r. split; [done|]. by transitivity q.
Qed.
Lemma evolve_insert m r :
  (∀ p, m !! f_fire_id r = Some p → validate_transition_from r p = Ok tt) → evolve m (<[f_fire_id r := r]> m).
Proof.
  intros Hn fid p Hp. destruct (decide (fid = f_fire_id r)) as [->|Hne].
  - rewrite lookup_insert_eq. exists r. split; [done|]. by destruct (transition_inv r p (Hn p Hp)) as (_ & _ & ?).
  - rewrite lookup_insert_ne by done. by exists p.
Qed.
Definition evolves (w w' : World) : Prop := evolve (fires (db w)) (fires (db w')).

Lemma step_evolves w w' : step w w' → evolves w w'.
Proof.
  unfold evolves. intros [[Hf _ _ _]|r Hadm Hf _ _ _|row rest s text more _ _ _ _ _ [_ Hf _] _]; rewrite Hf; [done| |done].
  apply evolve_insert, Hadm.
Qed.
Lemma step_valid w w' : step w w' → valid_rows w → valid_rows w'.
Proof.
  unfold valid_rows. intros [[Hf _ _ _]|r Hadm Hf _ _ _|row rest s text more _ _ _ _ _ [_ Hf _] _] Hv; rewrite Hf; try done.
  apply map_Forall_insert_2; [|done]. split; [done|]. apply Hadm.
Qed.
Lemma steps_evolve w w' : steps w w' → evolves w w'.
Proof. unfold evolves. induction 1; [reflexivity|]. etransitivity; [by apply step_evolves|done]. Qed.
Lemma steps_valid w w' : steps w w' → valid_rows w → valid_rows w'.
Proof. induction 1; eauto using step_valid. Qed.

End steps.
#[export] Hint Resolve keeps_observe keeps_timestamp keeps_cursors keeps_refresh : keeps.
#[export] Hint Resolve keeps_checkpoint keeps_transaction_quiet : keeps.
#[export] Hint Resolve upsert_fire_steps claim_fire_steps drain_steps persist_steps : keeps.
#[export] Hint Resolve claim_snapshot_steps reclaim_steps keeps_upsert_cursor : keeps.

(** ** Text of a journal *)

(** What [serde_json] and the canonical writer do with fire records: both
    spellings are read back, and a canonical line is one line of text. *)
Class FireCodecLaws `{FireCodec} : Prop := {
  read_string r : fire_from_str (fire_to_string r) = Ok r;
  read_canonical r : fire_from_str (fire_canonical_json r) = Ok r;
  canonical_nonempty r : fire_canonical_json r ≠ EmptyString;
  canonical_line r : free_of 10 (fire_canonical_json r) = true;
  canonical_no_return r : free_of 13 (fire_canonical_json r) = true;
}.

Fixpoint render_lines (l : list string) : string :=
  match l with [] => EmptyString | x :: l => x +:+ newline +:+ render_lines l end.

Lemma free_of_app b x y : free_of b (x +:+ y) = free_of b x && free_of b y.
Proof.
  unfold free_of. induction x as [|a x IH]; rewrite ?append_cons, ?append_nil_l; cbn; [done|].
  by rewrite IH, andb_assoc.
Qed.
Lemma render_lines_app l k : render_lines (l ++ k) = render_lines l +:+ render_lines k.
Proof. induction l as [|x l IH]; cbn [render_lines app]; [done|]. by rewrite IH, !append_assoc. Qed.

Lemma upto_free s : free_of 10 s = true → upto_last_newline s = EmptyString.
Proof.
  induction s as [|a s IH]; cbn; [done|]. rewrite andb_true_iff, negb_true_iff. intros [Ha Hs].
  by rewrite (IH Hs), Ha.
Qed.
Lemma upto_newline x t : free_of 10 t = true → upto_last_newline (x +:+ newline +:+ t) = x +:+ newline.
Proof.
  intros Ht. induction x as [|a x IH].
  - change (upto_last_newline (EmptyString +:+ newline +:+ t)) with
      (match upto_last_newline t with EmptyString => newline | y => String (ascii_of_Z 10) y end).
    by rewrite upto_free.
  - rewrite !append_cons. cbn [upto_last_newline]. rewrite IH. by destruct x.
Qed.
Lemma last_byte_app x y : y ≠ EmptyString → last_byte (x +:+ y) = last_byte y.
Proof.
  intros Hy. induction x as [|a x IH]; rewrite ?append_cons, ?append_nil_l; [done|]. cbn.
  destruct (x +:+ y) eqn:He; [|done]. destruct x; [|done]. by rewrite append_nil_l in He.
Qed.
Lemma last_byte_free b s : free_of b s = true → last_byte s ≠ Some b.
Proof.
  induction s as [|a s IH]; [done|]. cbn. rewrite andb_true_iff, negb_true_iff. intros [Ha Hs].
  destruct s; [|auto]. intros [= Heq]. lia.
Qed.

Lemma render_lines_end l : l = [] ∨ ∃ x, render_lines l = x +:+ newline.
Proof.
  destruct l as [|y l _] using rev_ind; [by left|]. right. exists (render_lines l +:+ y).
  rewrite render_lines_app. cbn [render_lines]. by rewrite append_nil_r, append_assoc.
Qed.
(** A torn last line is removed, nothing else. *)
Lemma repair_torn l t : free_of 10 t = true → repair_tail (render_lines l +:+ t) = render_lines l.
Proof.
  intros Ht. unfold repair_tail. destruct (decide (t = EmptyString)) as [->|Hne].
  { rewrite append_nil_r. destruct (render_lines_end l) as [->|[x ->]]; [done|].
    by rewrite last_byte_app. }
  rewrite last_byte_app by done. pose proof (last_byte_free 10 t Ht) as Hl.
  destruct (last_byte t) as [b|] eqn:Hb.
  - destruct (Z.eqb_spec b 10) as [->|]; [done|].
    destruct (render_lines_end l) as [->|[x ->]]; cbn [render_lines].
    + rewrite append_nil_l. by apply upto_free.
    + rewrite append_assoc. by apply upto_newline.
  - exfalso. clear -Hb Hne. induction t as [|a t IH]; [done|]. cbn in Hb. destruct t; [done|]. by apply IH.
Qed.

Lemma lines_line x s : free_of 10 x = true → free_of 13 x = true → lines (x +:+ newline +:+ s) = x :: lines s.
Proof.
  induction x as [|a x IH]; intros Hx Hr; [done|]. rewrite append_cons. cbn in *.
  apply andb_prop in Hx as [Ha%negb_true_iff Hx]. apply andb_prop in Hr as [Hr%negb_true_iff Hxr].
  by rewrite Ha, Hr, IH.
Qed.
Lemma lines_render l :
  Forall (λ x, free_of 10 x = true ∧ free_of 13 x = true) l → lines (render_lines l) = l.
Proof. induction 1 as [|x l [Hx Hr] _ IH]; [done|]. cbn [render_lines]. by rewrite lines_line, IH. Qed.

(** ** Durability *)

Section durability.
Context `{Calendar} `{Sha256} `{Clock} `{FireCodec} `{!FireCodecLaws}.

(** Replaying snapshots, last one wins, every one a legal successor. *)
Definition legal_next (m : gmap string FireRecord) (r : FireRecord) : Prop :=
  validate r = Ok tt ∧ ∀ p, m !! f_fire_id r = Some p → validate_transition_from r p = Ok tt.
Inductive replays : gmap string FireRecord → list FireRecord → gmap string FireRecord → Prop :=
| replays_nil m : replays m [] m
| replays_cons m r l m' :
    legal_next m r → replays (<[f_fire_id r := r]> m) l m' → replays m (r :: l) m'.

Definition of_schedule (id : string) (l : list FireRecord) : list FireRecord :=
  filter (λ r, f_schedule_id r = id) l.
Definition journal_text (id : string) (l : list FireRecord) : string :=
  render_lines (fire_canonical_json <$> of_schedule id l).

(** What a crash left of the line of the next snapshot. *)
Definition torn_line (pending : list FireRecord) (tail id : string) : string :=
  match pending with
  | h :: _ => if decide (f_schedule_id h = id) then tail else EmptyString
  | [] => EmptyString
  end.

(** The logical fire table [m]: the journals hold what was published, the
    outbox what is pending, and replaying both gives [m], which is the fire
    table while that is current; while it is not, nothing is pending. *)
Record holds (w : World) (m : gmap string FireRecord) (published pending : list FireRecord) (tail : string)
  : Prop := {
  holds_outbox : outbox (db w) = outbox_row <$> pending;
  holds_replay : replays ∅ (published ++ pending) m;
  holds_journal id : journal w id = journal_text id published +:+ torn_line pending tail id;
  holds_tail : free_of 10 tail = true;
  holds_ids id : is_Some (journals w !! id) → validate_schedule_id id = Ok tt;
  holds_current : projection_is_current (db w) = true → fires (db w) = m;
  holds_stale : projection_is_current (db w) = false → pending = [];
}.
Definition table (w : World) (m : gmap string FireRecord) : Prop :=
  ∃ published pending tail, holds w m published pending tail.

Lemma replays_app m l k m' : replays m (l ++ k) m' ↔ ∃ m1, replays m l m1 ∧ replays m1 k m'.
Proof.
  revert m. induction l as [|r l IH]; intros m; cbn.
  - split; [intros Hr; by exists m; split; [constructor|]|]. by intros (m1 & Hm & ?); inversion Hm; subst.
  - split.
    + intros Hr. inversion_clear Hr as [|? ? ? ? Hl Hm]. apply IH in Hm as (m1 & Hm & Hk).
      exists m1. split; [by constructor|done].
    + intros (m1 & Hm & Hk). inversion_clear Hm as [|? ? ? ? Hl Hm']. constructor; [done|]. apply IH. by exists m1.
Qed.
Lemma replays_snoc m l r m' :
  replays m l m' → legal_next m' r → replays m (l ++ [r]) (<[f_fire_id r := r]> m').
Proof. intros Hl Hr. apply replays_app. exists m'. split; [done|]. apply replays_cons; [done|constructor]. Qed.

Lemma transition_refl r : validate r = Ok tt → validate_transition_from r r = Ok tt.
Proof.
  intros Hv. unfold validate_transition_from. rewrite Hv. cbn.
  repeat match goal with |- context [bool_decide (?x = ?x)] => rewrite (bool_decide_true (x = x) eq_refl) end.
  cbn. by destruct (decide (r = r)).
Qed.
(** Publishing a snapshot twice is harmless. *)
Lemma replays_again m l h k m' :
  replays m (l ++ h :: k) m' → replays m ((l ++ [h]) ++ h :: k) m'.
Proof.
  rewrite <- app_assoc. intros (m1 & Hl & Hk)%replays_app. apply replays_app. exists m1. split; [done|].
  inversion_clear Hk as [|? ? ? ? [Hv Hn] Hk']. cbn. apply replays_cons; [done|]. apply replays_cons.
  - split; [done|]. intros p. rewrite lookup_insert_eq. intros [= <-]. by apply transition_refl.
  - by rewrite insert_insert_eq.
Qed.
Lemma replays_valid m l m' : replays m l m' → Forall (λ r, validate r = Ok tt) l.
Proof. induction 1 as [|m r l m' [Hv _] _ IH]; by constructor. Qed.

Lemma of_schedule_snoc id l r :
  of_schedule id (l ++ [r]) = of_schedule id l ++ (if decide (f_schedule_id r = id) then [r] else []).
Proof. unfold of_schedule. rewrite filter_app, filter_cons, filter_nil. done. Qed.
Lemma journal_text_snoc id l r :
  journal_text id (l ++ [r]) =
  journal_text id l +:+ (if decide (f_schedule_id r = id) then fire_canonical_json r +:+ newline else EmptyString).
Proof.
  unfold journal_text. rewrite of_schedule_snoc, fmap_app, render_lines_app. f_equal.
  case_decide; cbn; by rewrite ?append_nil_r.
Qed.

Lemma validate_schedule r : validate r = Ok tt → validate_schedule_id (f_schedule_id r) = Ok tt.
Proof. unfold validate. by intros ([] & ? & _)%result_bind_inv. Qed.

Lemma prefix_line x text more :
  free_of 10 x = true → x +:+ newline = text +:+ more → more ≠ EmptyString → free_of 10 text = true.
Proof.
  revert text. induction x as [|a x IH]; intros [|b text] Hx He Hm; try done.
  - exfalso. rewrite append_nil_l, append_cons in He. injection He as <- He.
    by destruct text; [rewrite append_nil_l in He; subst|].
  - rewrite !append_cons in He. injection He as <- He. cbn in *. apply andb_prop in Hx as [-> Hx].
    by apply (IH text).
Qed.

Lemma journal_insert w w' id text :
  journals w' = <[id := text]> (journals w) →
  ∀ id', journal w' id' = if decide (id = id') then text else journal w id'.
Proof.
  intros Hj id'. unfold journal. rewrite Hj. case_decide as Hid; [subst; by rewrite lookup_insert_eq|].
  by rewrite lookup_insert_ne.
Qed.

Lemma same_current w w' :
  projection_state (db w') = projection_state (db w) → projection_is_current (db w') = projection_is_current (db w).
Proof. unfold projection_is_current. by intros ->. Qed.
(** Nothing the table depends on changed. *)
Lemma holds_quiet w w' m published pending tail :
  quiet w w' → holds w m published pending tail → holds w' m published pending tail.
Proof.
  intros [Hf Ho Hj Hp] []. constructor; unfold journal in *; rewrite ?(same_current w w' Hp), ?Hf, ?Ho, ?Hj; auto.
Qed.

Lemma record_holds w w' r m published pending tail :
  admissible w r → fires (db w') = <[f_fire_id r := r]> (fires (db w)) →
  outbox (db w') = outbox (db w) ++ [outbox_row r] → journals w' = journals w →
  projection_state (db w') = projection_state (db w) → holds w m published pending tail →
  holds w' (<[f_fire_id r := r]> m) published (pending ++ [r]) (match pending with [] => EmptyString | _ => tail end) ∧
  evolve m (<[f_fire_id r := r]> m).
Proof.
  intros [Hv Hn Hc] Hf Ho Hj Hp [Hdo Hdr Hdj Hdt Hdi Hdc Hds]. rewrite (Hdc Hc) in *. split; [|by apply evolve_insert].
  constructor.
  - by rewrite Ho, Hdo, fmap_app.
  - rewrite app_assoc. by apply replays_snoc.
  - intros id. unfold journal in *. rewrite Hj, Hdj. destruct pending; [|done]. cbn. by case_decide.
  - by destruct pending.
  - intros id. rewrite Hj. apply Hdi.
  - by rewrite Hf.
  - rewrite (same_current w w' Hp). congruence.
Qed.

(** A line of the next snapshot, or its beginning, reaches the journal. *)
Lemma write_holds w w' h text more m published pending tail :
  holds w m published (h :: pending) tail → fire_canonical_json h +:+ newline = text +:+ more →
  receives w w' (f_schedule_id h) text →
  outbox (db w') = outbox (db w) ∨ (more = EmptyString ∧ outbox (db w') = outbox_row <$> pending) →
  ∃ published' tail', holds w' m published' (h :: pending) tail' ∨
                      (more = EmptyString ∧ holds w' m published' pending tail').
Proof.
  intros [Hdo Hdr Hdj Hdt Hdi Hdc Hds] Ht [(base & Hj & Hbase) Hf Hp] Ho.
  pose proof (journal_insert _ _ _ _ Hj) as Hj'. pose proof (same_current w w' Hp) as Hcur.
  assert (validate h = Ok tt) as Hv.
  { apply replays_valid, Forall_app in Hdr as [_ Hall]. by inversion Hall. }
  assert (∀ id, is_Some (journals w' !! id) → validate_schedule_id id = Ok tt) as Hids.
  { intros id. rewrite Hj. intros [<-|[_ Hl]]%lookup_insert_is_Some; [by apply validate_schedule|by apply Hdi]. }
  assert (repair_tail (journal w (f_schedule_id h)) = journal_text (f_schedule_id h) published) as Hrep.
  { rewrite Hdj. cbn. rewrite decide_True by done. by apply repair_torn. }
  destruct (projection_is_current (db w)) eqn:Hc; [|by discriminate (Hds eq_refl)].
  specialize (Hdc eq_refl).
  destruct Hbase as [->|[-> ->]].
  2: { (* the file was only opened *)
    exists published, tail. left. constructor; try done.
    - destruct Ho as [->|[-> _]]; [done|]. rewrite append_nil_r in Ht. by destruct (fire_canonical_json h).
    - intros id. rewrite Hj', append_nil_r. case_decide as Heq; [|done]. subst id. apply Hdj.
    - by rewrite Hf.
    - by rewrite Hcur. }
  destruct (decide (more = EmptyString)) as [->|Hmore].
  - rewrite append_nil_r in Ht. subst text.
    assert (∀ id, journal w' id = journal_text id (published ++ [h])) as Hjw.
    { intros id. rewrite Hj', journal_text_snoc. case_decide as Heq; [subst id; by rewrite Hrep|].
      rewrite Hdj. cbn. by rewrite decide_False. }
    exists (published ++ [h]), EmptyString. destruct Ho as [Ho|[_ Ho]].
    + left. constructor; try done; [by rewrite Ho, Hdo|by apply replays_again| |by rewrite Hf|by rewrite Hcur].
      intros id. rewrite Hjw. cbn. case_decide; by rewrite append_nil_r.
    + right. split; [done|]. constructor; try done; [by rewrite <- app_assoc| |by rewrite Hf|by rewrite Hcur].
      intros id. rewrite Hjw. destruct pending; cbn; [|case_decide]; by rewrite append_nil_r.
  - destruct Ho as [Ho|[? _]]; [|done].
    exists published, text. left.
    constructor; try done; [by rewrite Ho, Hdo| |by eapply prefix_line; [apply canonical_line|..]|by rewrite Hf|by rewrite Hcur].
    intros id. rewrite Hj'. cbn. case_decide as Heq; [subst id; by rewrite Hrep|].
    rewrite Hdj. cbn. by rewrite decide_False.
Qed.

Lemma step_holds w w' m published pending tail :
  step w w' → holds w m published pending tail →
  ∃ m' published' pending' tail', holds w' m' published' pending' tail' ∧ evolve m m'.
Proof.
  intros Hstep Hd. destruct Hstep as [Hq|r Hadm Hf Ho Hj Hp|row rest s text more Hrow Hs Hv Hid Ht Hrec Ho].
  - exists m, published, pending, tail. split; [by eapply holds_quiet|done].
  - destruct (record_holds w w' r m published pending tail) as [? ?]; try done. by eexists _, _, _, _.
  - pose proof (holds_outbox _ _ _ _ _ Hd) as Hdo.
    destruct pending as [|h pending]; rewrite Hdo in Hrow; [done|]. injection Hrow as <- <-.
    cbn in Hs. rewrite read_string in Hs. injection Hs as <-.
    destruct (write_holds w w' h text more m published pending tail) as (pub & tl & [Hh|[_ Hh]]); try done;
      by eexists _, _, _, _.
Qed.

(** Operations that keep a logical table, each related to the one before. *)
Definition advances (Q : gmap string FireRecord → gmap string FireRecord → Prop) (w w' : World) : Prop :=
  ∀ m, table w m → ∃ m', table w' m' ∧ Q m m'.
#[export] Instance advances_preorder Q : PreOrder Q → PreOrder (advances Q).
Proof.
  intros HQ. split; [intros w m Hm; by exists m|]. intros w1 w2 w3 H12 H23 m Hm.
  destruct (H12 m Hm) as (m1 & Hm1 & HQ1). destruct (H23 m1 Hm1) as (m2 & Hm2 & HQ2).
  exists m2. split; [done|]. by transitivity m1.
Qed.
Lemma steps_advance w w' : steps w w' → advances evolve w w'.
Proof.
  induction 1 as [w|w w1 w2 Hst _ IH]; [reflexivity|]. transitivity w1; [|done].
  intros m (pub & pend & tl & Hd). destruct (step_holds _ _ _ _ _ _ Hst Hd) as (m' & pub' & pend' & tl' & Hd' & He).
  exists m'. split; [by eexists _, _, _|done].
Qed.
Lemma keeps_steps_advance {A} (o : Op A) : keeps steps o → keeps (advances evolve) o.
Proof. apply keeps_mono, steps_advance. Qed.

(** *** Draining empties the outbox *)

Lemma set_kill_none w : kill w = None → set_kill None w = w.
Proof. destruct w. cbn. by intros ->. Qed.
Lemma publish_pending h w :
  validate h = Ok tt → kill w = None →
  publish (outbox_row h) w = (Ok tt, appended w (f_schedule_id h) (fire_canonical_json h +:+ newline)).
Proof.
  intros Hv Hk. destruct (publish_run (outbox_row h) w) as [[e Hp]|(s & Hs & _ & _ & _ & [(k & Hp & Hk')|(? & ? & ? & _ & [? ?] & _)])];
    [| |congruence].
  - exfalso. revert Hp. unfold publish, append_fire_jsonl_entry_in_directory, lift, op_context, mbind, m_bind. cbn.
    rewrite (validate_schedule h Hv), read_string. cbn. rewrite Hv. cbn.
    rewrite !bool_decide_true by done. cbn.
    destruct (append_run (f_schedule_id h) h w Hv) as [(k & -> & _)|(? & ? & ? & ? & _ & [? ?] & _)]; [done|congruence].
  - cbn in Hs. rewrite read_string in Hs. injection Hs as <-. rewrite Hp, (Hk' Hk). f_equal.
    by rewrite set_kill_none.
Qed.

#[local] Instance outbox_row_inj : Inj (=) (=) outbox_row.
Proof.
  intros x y Hxy%(f_equal o_snapshot_json). apply (f_equal fire_from_str) in Hxy. cbn in Hxy.
  rewrite !read_string in Hxy. by injection Hxy.
Qed.
Lemma drain_loop_total w m published pending tail n :
  holds w m published pending tail → kill w = None →
  ∃ w' published', drain_loop (length pending) n w = (Ok (n + Z.of_nat (length pending)), w') ∧
    holds w' m published' [] EmptyString ∧ kill w' = None ∧ fires (db w') = fires (db w) ∧
    projection_state (db w') = projection_state (db w).
Proof.
  revert w published tail n. induction pending as [|h pending IH]; intros w published tail n Hd Hk.
  - exists w, published. rewrite Z.add_0_r. unfold drain_loop, read, mbind, m_bind. cbn.
    rewrite (holds_outbox _ _ _ _ _ Hd). split_and!; try done. destruct Hd. by constructor.
  - assert (validate h = Ok tt) as Hv.
    { pose proof (replays_valid _ _ _ (holds_replay _ _ _ _ _ Hd)) as Hall.
      apply Forall_app in Hall as [_ Hall]. by inversion Hall. }
    set (line := fire_canonical_json h +:+ newline).
    set (w1 := with_db (set_outbox List.tl) (appended w (f_schedule_id h) line)).
    assert (outbox (db w1) = outbox_row <$> pending) as Hout by (cbn; by rewrite (holds_outbox _ _ _ _ _ Hd)).
    destruct (write_holds w w1 h line EmptyString m published pending tail) as (pub & tl & [Hh|[_ Hh]]);
      [done|by rewrite append_nil_r| |by right| |].
    { constructor; [|done..]. exists (repair_tail (journal w (f_schedule_id h))). split; [done|by left]. }
    { exfalso. pose proof (holds_outbox _ _ _ _ _ Hh) as Ho. rewrite Hout in Ho.
      apply (f_equal length) in Ho. rewrite !length_fmap in Ho. cbn in Ho. lia. }
    destruct (IH w1 pub tl (n + 1) Hh Hk) as (w' & pub' & Hrun & Hh' & Hk' & Hf & Hp).
    exists w', pub'. split_and!; [|done..]. cbn [length drain_loop].
    rewrite (bind_run _ _ w (outbox (db w)) w) by done.
    rewrite (holds_outbox _ _ _ _ _ Hd). cbn [fmap list_fmap].
    rewrite (bind_run _ _ _ _ _ (publish_pending h w Hv Hk)).
    rewrite (bind_run _ _ _ tt w1) by (apply transaction_run; done). rewrite Hrun.
    do 2 f_equal. lia.
Qed.
(** Draining the outbox succeeds and empties it. *)
Lemma drain_total w m published pending tail :
  holds w m published pending tail → kill w = None →
  ∃ w' published', drain_fire_outbox w = (Ok (Z.of_nat (length pending)), w') ∧
    holds w' m published' [] EmptyString ∧ kill w' = None ∧ fires (db w') = fires (db w) ∧
    projection_state (db w') = projection_state (db w).
Proof.
  intros Hd Hk. unfold drain_fire_outbox. rewrite (bind_run _ _ w (length pending) w).
  - destruct (drain_loop_total w m published pending tail 0 Hd Hk) as (w' & pub & Hrun & ?). exists w', pub. done.
  - unfold read. by rewrite (holds_outbox _ _ _ _ _ Hd), length_fmap.
Qed.

(** *** Rebuilding restores the fire table *)

Lemma replay_line_exact id m r :
  f_schedule_id r = id → legal_next m r →
  replay_line id m (fire_canonical_json r) = Ok (<[f_fire_id r := r]> m).
Proof.
  intros Hid [Hv Hn]. unfold replay_line, canonical_json_line.
  destruct (is_empty (fire_canonical_json r)) eqn:He.
  { destruct (fire_canonical_json r) eqn:Hc; [by apply canonical_nonempty in Hc|done]. }
  rewrite read_canonical. cbn. rewrite Hv. cbn. rewrite !bool_decide_true by done. cbn.
  destruct (m !! f_fire_id r) as [p|] eqn:Hp; [by rewrite (Hn p)|done].
Qed.
Lemma replay_lines_exact id m l m' :
  Forall (λ r, f_schedule_id r = id) l → replays m l m' →
  replay_lines id m (fire_canonical_json <$> l) = Ok m'.
Proof.
  intros Hl Hr. induction Hr as [m|m r l m' Hn _ IH]; [done|]. apply Forall_cons in Hl as [Hid Hl].
  cbn. rewrite replay_line_exact by done. by apply IH.
Qed.

(** The rows of one schedule. *)
Definition rows_of (id : string) (m : gmap string FireRecord) : gmap string FireRecord :=
  filter (λ e : string * FireRecord, f_schedule_id e.2 = id) m.
Lemma replays_schedule id m l m' :
  replays m l m' → replays (rows_of id m) (of_schedule id l) (rows_of id m').
Proof.
  induction 1 as [m|m r l m' [Hv Hn] _ IH]; [constructor|].
  unfold of_schedule. rewrite filter_cons. case_decide as Hid.
  - constructor.
    + split; [done|]. intros p [Hp _]%map_lookup_filter_Some. by apply Hn.
    + unfold rows_of in IH. by rewrite map_filter_insert_True in IH.
  - unfold rows_of in IH. rewrite map_filter_insert_False in IH by done.
    rewrite map_filter_delete_not in IH; [done|]. intros p Hp. cbn.
    destruct (transition_inv _ _ (Hn p Hp)) as (_ & _ & [(_ & Hs & _) _]). congruence.
Qed.
Lemma replays_keyed m l m' :
  replays m l m' → map_Forall (λ k r, f_fire_id r = k ∧ validate r = Ok tt) m →
  map_Forall (λ k r, f_fire_id r = k ∧ validate r = Ok tt) m'.
Proof.
  induction 1 as [|m r l m' [Hv Hn] _ IH]; intros Hm; [done|]. apply IH.
  apply map_Forall_insert_2; [done|done].
Qed.

Definition put_rows (m : gmap string FireRecord) (l : list FireRecord) : gmap string FireRecord :=
  foldl (λ m r, <[f_fire_id r := r]> m) m l.

(** Journals, outbox and projection marker are what they were. *)
Record held (w w' : World) : Prop := {
  held_journals : journals w' = journals w;
  held_outbox : outbox (db w') = outbox (db w);
  held_projection : projection_state (db w') = projection_state (db w);
}.
#[export] Instance held_preorder : PreOrder held.
Proof. split; [by constructor|]. intros w1 w2 w3 [] []. constructor; congruence. Qed.
Lemma completes_fires f w :
  completes held (transaction (modify (with_db (set_fires f)))) w (λ _ w', fires (db w') = f (fires (db w))).
Proof.
  destruct (transaction_cases (modify (with_db (set_fires f))) w) as [(a & w1 & k & [= <- <-] & Ht & Hk)|(e & w1 & Ht & -> & [He|[-> Hk]])].
  - eapply completed; [exact Ht|by constructor|done|done].
  - done.
  - eapply interrupted; [exact Ht|by constructor|done].
Qed.
Lemma project_rows l w :
  Forall (λ r, validate r = Ok tt) l →
  completes held (for_each (λ rec, op_context ("project rebuilt scheduler fire " +:+ f_fire_id rec)
                     (project_fire_from_journal rec)) l) w
    (λ _ w', fires (db w') = put_rows (fires (db w)) l).
Proof.
  intros Hl. revert w. induction Hl as [|r l Hv _ IH]; intros w; cbn [for_each]; [by apply completes_ret; [apply _|]|].
  eapply completes_bind; [apply _| |intros [] w1 _ Hf].
  - apply completes_context. unfold project_fire_from_journal.
    eapply completes_bind; [apply _|by apply (completed _ _ _ (λ _ w', w' = w) tt w); [unfold lift; rewrite Hv|..]|].
    intros [] w1 _ ->. apply completes_fires.
  - eapply completes_mono; [apply IH|]. cbn. intros [] w2 ->. by rewrite Hf.
Qed.
Lemma put_rows_union l m :
  NoDup (f_fire_id <$> l) → put_rows m l = list_to_map ((λ r, (f_fire_id r, r)) <$> l) ∪ m.
Proof.
  revert m. induction l as [|r l IH]; intros m Hnd; cbn; [by rewrite map_empty_union|].
  apply NoDup_cons in Hnd as [Hr Hnd]. unfold put_rows in IH. rewrite IH by done.
  rewrite <- insert_union_l, <- insert_union_r; [done|].
  apply not_elem_of_list_to_map. by rewrite <- list_fmap_compose.
Qed.
Lemma put_all_rows (latest m : gmap string FireRecord) :
  map_Forall (λ k r, f_fire_id r = k ∧ validate r = Ok tt) latest →
  put_rows m (snd <$> map_to_list latest) = latest ∪ m ∧
  Forall (λ r, validate r = Ok tt) (snd <$> map_to_list latest).
Proof.
  intros Hk.
  assert (∀ k r, (k, r) ∈ map_to_list latest → f_fire_id r = k ∧ validate r = Ok tt) as Hin.
  { intros k r Hkr%elem_of_map_to_list. by apply Hk. }
  assert ((λ r, (f_fire_id r, r)) <$> (snd <$> map_to_list latest) = map_to_list latest) as Hself.
  { rewrite <- list_fmap_compose. rewrite <- (list_fmap_id (map_to_list latest)) at 2.
    apply list_fmap_ext. intros i [k r] Hi%list_elem_of_lookup_2. cbn. by destruct (Hin _ _ Hi) as [-> _]. }
  split.
  - rewrite put_rows_union, Hself, list_to_map_to_list; [done|].
    rewrite <- list_fmap_compose.
    replace (f_fire_id ∘ snd <$> map_to_list latest) with ((map_to_list latest).*1); [apply NoDup_fst_map_to_list|].
    apply list_fmap_ext. intros i [k r] Hi%list_elem_of_lookup_2. cbn. by destruct (Hin _ _ Hi) as [-> _].
  - apply Forall_fmap, Forall_forall. intros [k r] Hkr. by apply (Hin k r).
Qed.

Lemma rebuild_journal_exact w l F id :
  replays ∅ l F →
  completes held (rebuild_fire_projection id (journal_text id l)) w
    (λ _ w', fires (db w') = rows_of id F ∪ fires (db w)).
Proof.
  intros Hr. unfold rebuild_fire_projection, journal_text.
  rewrite lines_render by (apply Forall_fmap, Forall_true; intros r; split; [apply canonical_line|apply canonical_no_return]).
  apply (replays_schedule id) in Hr. unfold rows_of at 1 in Hr. rewrite map_filter_empty in Hr.
  pose proof (replays_keyed _ _ _ Hr (map_Forall_empty _)) as Hk.
  destruct (put_all_rows (rows_of id F) (fires (db w)) Hk) as [Hput Hall].
  assert (replay_lines id ∅ (fire_canonical_json <$> of_schedule id l) = Ok (rows_of id F)) as Hrl.
  { apply replay_lines_exact; [|done]. apply Forall_forall. intros r Hin.
    by apply list_elem_of_filter in Hin as [? _]. }
  eapply completes_bind; [apply _|apply (completed _ _ _ (λ latest w', latest = rows_of id F ∧ w' = w) (rows_of id F) w);
    [by unfold lift; rewrite Hrl|done..]|].
  intros latest w1 _ [-> ->]. eapply completes_mono; [by apply project_rows|]. cbn. intros [] w2 ->. done.
Qed.

Lemma rebuild_files F files w :
  fires (db w) ⊆ F →
  (∀ id bytes, (id, bytes) ∈ files → validate_schedule_id id = Ok tt ∧
     ∃ l, replays ∅ l F ∧ bytes = journal_text id l) →
  completes held
    (for_each (λ '(id, bytes), lift (validate_schedule_id id) ;; rebuild_fire_projection id bytes) files) w
    (λ _ w', fires (db w') ⊆ F ∧ fires (db w) ⊆ fires (db w') ∧
             ∀ id bytes, (id, bytes) ∈ files → rows_of id F ⊆ fires (db w')).
Proof.
  revert w. induction files as [|[id bytes] files IH]; intros w Hsub Hfiles; cbn [for_each].
  - apply completes_ret; [apply _|]. split_and!; [done..|by intros ? ? ?%not_elem_of_nil].
  - destruct (Hfiles id bytes) as (Hid & l & Hr & ->); [by left|].
    eapply (completes_bind _ _ _ _ (λ _ w', fires (db w') = rows_of id F ∪ fires (db w))).
    { eapply completes_bind; [apply _|by apply (completed _ _ _ (λ _ w', w' = w) tt w); [unfold lift; rewrite Hid|..]|].
      intros [] w1 _ ->. by apply rebuild_journal_exact. }
    intros [] w1 _ Hf1. eapply completes_mono; [apply IH|].
    { rewrite Hf1. apply map_union_least; [apply map_filter_subseteq|done]. }
    { intros. apply Hfiles. by right. }
    cbn. intros [] w2 (HF & Hw1 & Hrows). split_and!; [done| |].
    + etrans; [|exact Hw1]. rewrite Hf1. apply map_subseteq_spec. intros k r Hk.
      pose proof (lookup_weaken _ _ _ _ Hk Hsub) as HF'. apply lookup_union_Some_raw.
      destruct (rows_of id F !! k) as [r'|] eqn:Hr'; [|by right]. left.
      apply map_lookup_filter_Some in Hr' as [HF'' _]. congruence.
    + intros id' bytes' [[= -> ->]|Hin]%elem_of_cons; [|by eapply Hrows].
      etrans; [|exact Hw1]. rewrite Hf1. apply map_union_subseteq_l.
Qed.

(** Every row of a replay has a journal. *)
Lemma journal_of_row w m published k r :
  (∀ id, journal w id = journal_text id published) → replays ∅ published m → m !! k = Some r →
  is_Some (journals w !! f_schedule_id r).
Proof.
  intros Hj Hr Hk. specialize (Hj (f_schedule_id r)). unfold journal, journal_text in Hj.
  destruct (journals w !! f_schedule_id r) as [b|]; [by eexists|]. exfalso. cbn in Hj.
  apply (replays_schedule (f_schedule_id r)) in Hr. unfold rows_of at 1 in Hr. rewrite map_filter_empty in Hr.
  destruct (of_schedule (f_schedule_id r) published) as [|x l] eqn:Hl.
  - assert (rows_of (f_schedule_id r) m = ∅) as Hm by (by inversion Hr).
    assert (rows_of (f_schedule_id r) m !! k = Some r) as Hin by (by apply map_lookup_filter_Some).
    by rewrite Hm in Hin.
  - cbn in Hj. destruct (fire_canonical_json x) eqn:Hc; [by apply canonical_nonempty in Hc|done].
Qed.

(** The table is held by the journals alone. *)
Definition retired (w : World) (m : gmap string FireRecord) (published : list FireRecord) : Prop :=
  outbox (db w) = [] ∧ replays ∅ published m ∧ (∀ id, journal w id = journal_text id published) ∧
  ∀ id, is_Some (journals w !! id) → validate_schedule_id id = Ok tt.
Lemma retired_held w w' m published : held w w' → retired w m published → retired w' m published.
Proof. intros [Hj Ho _] (Hro & Hr & Hrj & Hri). unfold retired, journal in *. by rewrite Ho, Hj. Qed.
Lemma retired_holds w m published :
  retired w m published → (projection_is_current (db w) = true → fires (db w) = m) →
  holds w m published [] EmptyString.
Proof.
  intros (Ho & Hr & Hj & Hi) Hf. constructor; try done; [by rewrite app_nil_r|].
  intros id. cbn. by rewrite append_nil_r.
Qed.
Lemma holds_retired w m published tail : holds w m published [] tail → retired w m published.
Proof.
  intros [Ho Hr Hj _ Hi _ _]. rewrite app_nil_r in Hr. split_and!; [done..| |done].
  intros id. rewrite Hj. cbn. by rewrite append_nil_r.
Qed.

(** Replaying every journal into an empty table gives the table. *)
Lemma replay_all w m published :
  retired w m published → fires (db w) = ∅ →
  completes held
    (for_each (λ '(id, bytes), lift (validate_schedule_id id) ;; rebuild_fire_projection id bytes)
       (map_to_list (journals w))) w (λ _ w', fires (db w') = m).
Proof.
  intros (Ho & Hr & Hj & Hi) Hf.
  eapply completes_mono; [apply (rebuild_files m)|].
  - rewrite Hf. apply map_empty_subseteq.
  - intros id bytes Hin%elem_of_map_to_list. split; [apply Hi; by eexists|]. exists published. split; [done|].
    specialize (Hj id). unfold journal in Hj. by rewrite Hin in Hj.
  - cbn. intros [] w' (HF & _ & Hrows). apply (anti_symm (⊆)); [done|]. apply map_subseteq_spec. intros k r Hk.
    destruct (journal_of_row w m published k r Hj Hr Hk) as [bytes Hb].
    eapply lookup_weaken; [|eapply (Hrows (f_schedule_id r) bytes); by apply elem_of_map_to_list].
    by apply map_lookup_filter_Some.
Qed.

Lemma stale_marker d : projection_state d = {["fires" := 0]} → projection_is_current d = false.
Proof. unfold projection_is_current. intros ->. vm_compute. reflexivity. Qed.
Lemma current_marker d : projection_state d = <["fires" := 1]> {["fires" := 0]} → projection_is_current d = true.
Proof. unfold projection_is_current. intros ->. vm_compute. reflexivity. Qed.
Definition invalidated (w : World) : World :=
  with_db (λ d, set_projection (λ _, {["fires" := 0]}) (set_fires (λ _, ∅) (set_cursors (λ _, ∅) d))) w.
Lemma begin_rebuild_cases w :
  (∃ k, begin_fire_projection_rebuild w = (Ok tt, set_kill k (invalidated w)) ∧ outbox (db w) = [] ∧
        (kill w = None → k = None)) ∨
  (∃ e w', begin_fire_projection_rebuild w = (Err e, w') ∧ quiet w w' ∧ (outbox (db w) = [] → is_Some (kill w))).
Proof.
  unfold begin_fire_projection_rebuild. match goal with |- context [transaction ?m w] => set (o := m) end.
  assert (o w = if decide (outbox (db w) = []) then (Ok tt, invalidated w) else ((o w).1, w)) as Ho.
  { unfold o, read, lift, modify, mbind, m_bind. cbn. destruct (outbox (db w)) as [|x l]; cbn; [done|].
    by case_decide. }
  assert (∀ x l, outbox (db w) = x :: l → ∃ e, (o w).1 = Err e) as He.
  { intros x l Hx. unfold o, read, lift, modify, mbind, m_bind. rewrite Hx. cbn. by eexists. }
  destruct (transaction_cases o w) as [(a & w1 & k & Hw & Ht & Hk)|(e & w1 & Ht & -> & Hw)].
  - left. destruct (outbox (db w)) as [|x l] eqn:Hout.
    + rewrite decide_True in Ho by done. rewrite Ho in Hw. injection Hw as <- <-. exists k. done.
    + destruct (He x l eq_refl) as [e Hx]. by rewrite Hw in Hx.
  - right. eexists _, _. split; [exact Ht|]. destruct (outbox (db w)) as [|x l] eqn:Hout.
    + rewrite decide_True in Ho by done. rewrite Ho in Hw |- *. cbn in Hw. destruct Hw as [|[_ Hk]]; [done|].
      split; [by constructor|done].
    + rewrite decide_False in Ho by done. rewrite Ho. cbn. split; [by constructor|done].
Qed.

(** A rebuild, wherever it stops, keeps the logical table; when nothing is
    pending and the process lives it succeeds, and the fire table is the
    logical table. *)
Lemma rebuild_holds w m published pending tail :
  holds w m published pending tail →
  holds (rebuild_fires_from_dir w).2 m published pending tail ∧
  ((rebuild_fires_from_dir w).1 = Ok tt →
     projection_is_current (db (rebuild_fires_from_dir w).2) = true ∧ outbox (db (rebuild_fires_from_dir w).2) = []) ∧
  (pending = [] → kill w = None →
     (rebuild_fires_from_dir w).1 = Ok tt ∧ kill (rebuild_fires_from_dir w).2 = None).
Proof.
  intros Hd. unfold rebuild_fires_from_dir.
  destruct (begin_rebuild_cases w) as [(k & Hb & Ho & Hk)|(e & w' & Hb & Hq & He)].
  2: { rewrite (bind_err _ _ _ _ _ Hb). cbn. split_and!; [by eapply holds_quiet|done|].
       intros -> Hkw. rewrite (holds_outbox _ _ _ _ _ Hd) in He. destruct He; [done|congruence]. }
  rewrite (bind_run _ _ _ _ _ Hb). set (w0 := set_kill k (invalidated w)).
  assert (pending = []) as -> by (rewrite (holds_outbox _ _ _ _ _ Hd) in Ho; by destruct pending).
  assert (retired w0 m published) as Hr0 by (by apply holds_retired in Hd).
  assert (∀ w', projection_state (db w') = {["fires" := 0]} → retired w' m published → holds w' m published [] tail) as Hstale.
  { intros w' Hp Hr. destruct (retired_holds w' m published Hr) as []; [|constructor; auto; apply Hd].
    by rewrite stale_marker. }
  rewrite (bind_run _ _ w0 (map_to_list (journals w0)) w0) by done.
  destruct (replay_all w0 m published Hr0 eq_refl) as [[] w1 Hrun Hh Hk1 Hf|w1 Hrun Hh Hk1].
  2: { rewrite (bind_err _ _ _ _ _ Hrun). cbn. split_and!; [|done|].
       - apply Hstale; [by rewrite (held_projection _ _ Hh)|by eapply retired_held].
       - intros _ Hkw. destruct Hk1 as [? Hk1]. cbn in Hk1. by rewrite (Hk Hkw) in Hk1. }
  rewrite (bind_run _ _ _ _ _ Hrun). pose proof (retired_held _ _ _ _ Hh Hr0) as Hr1.
  assert (projection_state (db w1) = {["fires" := 0]}) as Hp1 by (by rewrite (held_projection _ _ Hh)).
  unfold finish_fire_projection_rebuild.
  assert (∀ message, publish_projection message w1 = (Ok tt, with_db (set_projection <["fires" := 1]>) w1)) as Hpub.
  { intros message. unfold publish_projection, read, lift, modify, mbind, m_bind. by rewrite Hp1. }
  match goal with |- context [transaction ?o w1] =>
    destruct (transaction_cases o w1) as [(a & w2 & k2 & Hw & -> & Hk2)|(e & w2 & -> & -> & Hw)] end.
  - rewrite Hpub in Hw. injection Hw as <- <-. cbn. split_and!.
    + destruct (retired_holds (set_kill k2 (with_db (set_projection <["fires" := 1]>) w1)) m published) as [];
        [done|done|constructor; auto; apply Hd].
    + intros _. split; [|apply Hr1]. apply current_marker. cbn. by rewrite Hp1.
    + intros _ Hkw. auto.
  - rewrite Hpub in Hw |- *. cbn in Hw |- *. destruct Hw as [|[_ Hkw]]; [done|]. split_and!; [|done|].
    + by apply Hstale.
    + intros _ Hkw'. destruct Hkw as [? Hkw]. rewrite Hk1 in Hkw by auto. done.
Qed.
Lemma rebuild_advances : keeps (advances evolve) rebuild_fires_from_dir.
Proof.
  intros w m (pub & pend & tl & Hd). exists m. split; [|reflexivity]. eexists _, _, _. by apply rebuild_holds.
Qed.

End durability.
