(* ===== verification/RetentionCorrect.v ===== *)
(** * Retention drops exactly what its policy says

    The sweep of a journal drops the terminal fires the policy retires,
    never the newest fire of a schedule nor one in flight; the projection
    accepts its selection; and wherever a retention run stops, the journals
    still hold the table. *)

From S2P Require Import Prelude Float64 Json CanonicalRef Schedule SchedulerDb ScheduleSpec Scheduler.
From S2P Require Import Retention SchedulerDbCorrect.

(** ** Orders *)

Lemma string_compare_eq x y : String.compare x y = Eq ↔ x = y.
Proof. split; [apply String.compare_eq_iff|intros ->; apply string_compare_refl]. Qed.
Lemma then_cmp_eq a b : then_cmp a b = Eq ↔ a = Eq ∧ b = Eq.
Proof. destruct a; naive_solver. Qed.
Lemma target_cmp_eq x y : target_cmp x y = Eq ↔ x = y.
Proof.
  unfold target_cmp. rewrite then_cmp_eq, !string_compare_eq. destruct x, y; cbn. naive_solver.
Qed.

(** Times with identities to break ties. *)
Definition rank_cmp (a b : Z * string) : comparison :=
  then_cmp (Z.compare a.1 b.1) (String.compare a.2 b.2).
Lemma rank_eq a b : rank_cmp a b = Eq ↔ a = b.
Proof.
  unfold rank_cmp. rewrite then_cmp_eq, string_compare_eq, Z.compare_eq_iff. destruct a, b; cbn. naive_solver.
Qed.
Lemma rank_antisym a b : rank_cmp b a = CompOpp (rank_cmp a b).
Proof.
  unfold rank_cmp. rewrite Z.compare_antisym, String.compare_antisym. by destruct (a.1 ?= b.1).
Qed.
Lemma rank_trans a b c : rank_cmp a b = Lt → rank_cmp b c = Lt → rank_cmp a c = Lt.
Proof.
  unfold rank_cmp. destruct (Z.compare_spec a.1 b.1), (Z.compare_spec b.1 c.1), (Z.compare_spec a.1 c.1); cbn;
    try done; try lia; eauto using string_compare_trans.
Qed.
Lemma rank_lt_irrefl a : rank_cmp a a ≠ Lt.
Proof. by rewrite (proj2 (rank_eq a a) eq_refl). Qed.

Lemma filter_none {A} (P : A → Prop) `{∀ x, Decision (P x)} (l : list A) : Forall (λ x, ¬ P x) l → filter P l = [].
Proof. induction 1 as [|x l Hx _ IH]; [done|]. by rewrite filter_cons, decide_False. Qed.
Lemma filter_ext_elem {A} (P Q : A → Prop) `{∀ x, Decision (P x)} `{∀ x, Decision (Q x)} (l : list A) :
  (∀ x, x ∈ l → P x ↔ Q x) → filter P l = filter Q l.
Proof.
  induction l as [|x l IH]; intros HPQ; [done|]. rewrite !filter_cons, IH by (intros; apply HPQ; by right).
  specialize (HPQ x). do 2 case_decide; set_solver.
Qed.
Lemma NoDup_fmap_filter {A B} (f : A → B) (P : A → Prop) `{∀ x, Decision (P x)} (l : list A) :
  NoDup (f <$> l) → NoDup (f <$> filter P l).
Proof.
  induction l as [|x l IH]; intros Hnd; [done|]. cbn in Hnd. apply NoDup_cons in Hnd as [Hx Hnd].
  rewrite filter_cons. case_decide; [|by apply IH]. cbn. apply NoDup_cons. split; [|by apply IH].
  intros (y & Hy & [_ Hin]%list_elem_of_filter)%list_elem_of_fmap. apply Hx, list_elem_of_fmap. by exists y.
Qed.

(** The position of an element of a sorted list counts the elements below. *)
Lemma sorted_position {A} (f : A → Z * string) (l : list A) i x :
  StronglySorted (λ a b, rank_cmp (f a) (f b) = Lt) l → l !! i = Some x →
  length (filter (λ y, rank_cmp (f y) (f x) = Lt) l) = i.
Proof.
  intros Hs. revert i. induction Hs as [|a l Hs IH Ha]; intros i Hi; [done|]. rewrite filter_cons.
  destruct i as [|i]; cbn in Hi.
  - injection Hi as ->. rewrite decide_False by apply rank_lt_irrefl. rewrite filter_none; [done|]. eapply Forall_impl; [exact Ha|]. cbn. intros y Hy. by rewrite rank_antisym, Hy.
  - rewrite decide_True; [cbn; f_equal; by apply IH|].
    rewrite Forall_forall in Ha. apply Ha. by eapply list_elem_of_lookup_2.
Qed.

(** ** Ordered sets *)

Section btree.
Context {A} (cmp : A → A → comparison) (cmp_eq : ∀ x y, cmp x y = Eq ↔ x = y).

Lemma elem_of_btree_insert x y l : y ∈ btree_insert cmp x l ↔ y = x ∨ y ∈ l.
Proof.
  induction l as [|z l IH]; cbn; [by rewrite elem_of_cons|]. destruct (cmp x z) eqn:Hc.
  - apply cmp_eq in Hc as ->. rewrite elem_of_cons. naive_solver.
  - by rewrite elem_of_cons.
  - rewrite !elem_of_cons, IH. naive_solver.
Qed.
Lemma elem_of_btree l y : y ∈ foldr (btree_insert cmp) [] l ↔ y ∈ l.
Proof. induction l as [|z l IH]; cbn; [done|]. by rewrite elem_of_btree_insert, IH, elem_of_cons. Qed.
Lemma btree_contains_spec x l : btree_contains cmp x l = true ↔ x ∈ l.
Proof.
  unfold btree_contains. rewrite existsb_exists. setoid_rewrite <- list_elem_of_In. split.
  - intros (y & Hy & Hc). destruct (cmp x y) eqn:He; try done. by apply cmp_eq in He as ->.
  - intros Hx. exists x. split; [done|]. by rewrite (proj2 (cmp_eq x x) eq_refl).
Qed.
Lemma btree_insert_new x l : x ∉ l → btree_insert cmp x l ≡ₚ x :: l.
Proof.
  induction l as [|z l IH]; cbn; [done|]. rewrite not_elem_of_cons. intros [Hz Hl]. destruct (cmp x z) eqn:Hc; [|done|].
  - by apply cmp_eq in Hc.
  - rewrite IH by done. apply Permutation_swap.
Qed.
Lemma btree_perm l : NoDup l → foldr (btree_insert cmp) [] l ≡ₚ l.
Proof.
  induction 1 as [|x l Hx _ IH]; cbn; [done|]. rewrite btree_insert_new by (by rewrite elem_of_btree). by rewrite IH.
Qed.

End btree.

(** ** Sorting the groups *)

Definition group_age (g : Group) : Z * string := (g_newest_ts g, f_fire_id (g_latest g)).
Definition group_rank (g : Group) : Z * string := (f_scheduled_at (g_latest g), f_fire_id (g_latest g)).
Definition group_id (g : Group) : string := f_fire_id (g_latest g).

Lemma insert_group_perm g l : insert_group g l ≡ₚ g :: l.
Proof.
  induction l as [|h l IH]; cbn; [done|]. destruct (age_cmp g h); [done..|]. rewrite IH. apply Permutation_swap.
Qed.
Lemma sort_groups_perm l : sort_groups l ≡ₚ l.
Proof. induction l as [|g l IH]; [done|]. cbn. by rewrite insert_group_perm, IH. Qed.
Lemma insert_group_sorted g l :
  Forall (λ h, group_age h ≠ group_age g) l →
  StronglySorted (λ a b, rank_cmp (group_age a) (group_age b) = Lt) l →
  StronglySorted (λ a b, rank_cmp (group_age a) (group_age b) = Lt) (insert_group g l).
Proof.
  intros Hne Hs. induction Hs as [|h l Hs IH Hh]; cbn; [repeat constructor|].
  apply Forall_cons in Hne as [Hgh Hne]. change (age_cmp g h) with (rank_cmp (group_age g) (group_age h)).
  destruct (rank_cmp (group_age g) (group_age h)) eqn:Hc.
  - by apply rank_eq in Hc.
  - constructor; [by constructor|]. constructor; [done|]. eapply Forall_impl; [exact Hh|]. cbn. intros x. by apply rank_trans.
  - constructor; [by apply IH|]. rewrite insert_group_perm. constructor; [|done]. by rewrite rank_antisym, Hc.
Qed.
Lemma sort_groups_sorted l :
  NoDup (group_id <$> l) → StronglySorted (λ a b, rank_cmp (group_age a) (group_age b) = Lt) (sort_groups l).
Proof.
  induction l as [|g l IH]; intros Hnd; [constructor|]. cbn. apply NoDup_cons in Hnd as [Hg Hnd].
  apply insert_group_sorted; [|by apply IH]. rewrite sort_groups_perm. apply Forall_forall. intros h Hh [= _ Hid].
  apply Hg, list_elem_of_fmap. by exists h.
Qed.
(** The [k] oldest groups are those with fewer than [k] groups below. *)
Lemma elem_of_oldest k l g :
  NoDup (group_id <$> l) →
  g ∈ take k (sort_groups l) ↔
  g ∈ l ∧ (length (filter (λ h, rank_cmp (group_age h) (group_age g) = Lt) l) < k)%nat.
Proof.
  intros Hnd. pose proof (sort_groups_sorted l Hnd) as Hs.
  assert (∀ x, length (filter (λ h, rank_cmp (group_age h) (group_age x) = Lt) (sort_groups l)) =
               length (filter (λ h, rank_cmp (group_age h) (group_age x) = Lt) l)) as Hlen.
  { intros x. by rewrite sort_groups_perm. }
  rewrite <- (sort_groups_perm l) at 2. rewrite <- Hlen. clear Hlen. split.
  - intros (i & Hi)%list_elem_of_lookup_1. apply lookup_take_Some in Hi as [Hi Hk].
    split; [by eapply list_elem_of_lookup_2|]. by rewrite (sorted_position group_age _ i g).
  - intros [(i & Hi)%list_elem_of_lookup_1 Hk]. rewrite (sorted_position group_age _ i g) in Hk by done.
    apply (list_elem_of_lookup_2 _ i). by apply lookup_take_Some.
Qed.

(** The watermark is the greatest group. *)
Lemma watermark_spec l g :
  NoDup (group_id <$> l) → watermark l = Some g →
  g ∈ l ∧ ∀ h, h ∈ l → h = g ∨ rank_cmp (group_rank h) (group_rank g) = Lt.
Proof.
  destruct l as [|b l]; [done|]. intros Hnd [= <-].
  assert (∀ l best, NoDup (group_id <$> best :: l) →
    let g := foldl (λ best g, match group_cmp best g with Gt => best | _ => g end) best l in
    g ∈ best :: l ∧ ∀ h, h ∈ best :: l → h = g ∨ rank_cmp (group_rank h) (group_rank g) = Lt) as Hfold; [|by apply Hfold].
  clear. induction l as [|x l IH]; intros best Hnd; cbn.
  - split; [by left|]. intros h [->|?%not_elem_of_nil]%elem_of_cons; [by left|done].
  - change (group_cmp best x) with (rank_cmp (group_rank best) (group_rank x)). cbn in Hnd.
    apply NoDup_cons in Hnd as [Hb Hnd]. rewrite not_elem_of_cons in Hb. destruct Hb as [Hbx Hb].
    destruct (rank_cmp (group_rank best) (group_rank x)) eqn:Hc.
    + apply rank_eq in Hc. by injection Hc.
    + destruct (IH x) as [Hin Hmax]; [done|]. cbn in Hin, Hmax. split; [by right|].
      intros h [->|Hh]%elem_of_cons; [|by apply Hmax]. right.
      destruct (Hmax x) as [<-|Hx]; [by left|done|]. by eapply rank_trans.
    + destruct (IH best) as [Hin Hmax]; [apply NoDup_cons; split; [done|by apply NoDup_cons in Hnd as [_ ?]]|].
      cbn in Hin, Hmax. split; [set_solver|].
      intros h Hh. rewrite !elem_of_cons in Hh. destruct Hh as [->|[->|Hh]]; [apply Hmax; by left| |apply Hmax; by right].
      right. assert (rank_cmp (group_rank x) (group_rank best) = Lt) as Hxb by (by rewrite rank_antisym, Hc).
      destruct (Hmax best) as [<-|Hx]; [by left|done|]. by eapply rank_trans.
Qed.

(** ** What a policy retires *)

Definition row_rank (r : FireRecord) : Z * string := (f_scheduled_at r, f_fire_id r).
Definition row_age (r : FireRecord) : Z * string := (latest_timestamp r, f_fire_id r).
Definition settled (r : FireRecord) : Prop := is_terminal_fire_status (f_status r) = true.

(** The rest is about the rows [R] of one schedule.  The newest row is kept
    whatever the policy. *)
Definition newest (R : gmap string FireRecord) (r : FireRecord) : Prop :=
  map_Forall (λ _ r', r' = r ∨ rank_cmp (row_rank r') (row_rank r) = Lt) R.
Definition outdated (policy : FireRetentionPolicy) (R : gmap string FireRecord) (r : FireRecord) : Prop :=
  settled r ∧ ¬ newest R r ∧
  match cutoff_ms policy with Some cutoff => latest_timestamp r < cutoff | None => False end.
#[export] Instance outdated_dec policy R r : Decision (outdated policy R r).
Proof. unfold outdated, settled, newest. destruct (cutoff_ms policy); apply _. Defined.
(** The terminal rows that are young enough, and of those, the ones a row is
    younger than. *)
Definition survivors (policy : FireRetentionPolicy) (R : gmap string FireRecord) : list FireRecord :=
  filter (λ r, settled r ∧ ¬ outdated policy R r) (snd <$> map_to_list R).
Definition elders (policy : FireRetentionPolicy) (R : gmap string FireRecord) (r : FireRecord) : list FireRecord :=
  filter (λ r', ¬ newest R r' ∧ rank_cmp (row_age r') (row_age r) = Lt) (survivors policy R).
Definition surplus (policy : FireRetentionPolicy) (R : gmap string FireRecord) (r : FireRecord) : Prop :=
  settled r ∧ ¬ newest R r ∧ ¬ outdated policy R r ∧
  match max_count policy with
  | Some bound => bound + Z.of_nat (length (elders policy R r)) < Z.of_nat (length (survivors policy R))
  | None => False
  end.
#[export] Instance surplus_dec policy R r : Decision (surplus policy R r).
Proof. unfold surplus. destruct (max_count policy); apply _. Defined.
Definition expired (policy : FireRetentionPolicy) (R : gmap string FireRecord) (r : FireRecord) : Prop :=
  outdated policy R r ∨ surplus policy R r.
#[export] Instance expired_dec policy R r : Decision (expired policy R r).
Proof. unfold expired. apply _. Defined.

(** Groups that stand for the rows of a table. *)
Definition keyed (R : gmap string FireRecord) : Prop := map_Forall (λ k r, f_fire_id r = k) R.
Record grouped (R : gmap string FireRecord) (l : list Group) : Prop := {
  grouped_order i g : l !! i = Some g → g_order g = i;
  grouped_row g : g ∈ l → R !! group_id g = Some (g_latest g);
  grouped_time g : g ∈ l → g_newest_ts g = latest_timestamp (g_latest g);
  grouped_cover fid r : R !! fid = Some r → ∃ g, g ∈ l ∧ g_latest g = r;
  grouped_ids : NoDup (group_id <$> l);
}.

Section grouped.
Context (R : gmap string FireRecord) (l : list Group) (HR : keyed R) (Hl : grouped R l).

Lemma order_inj g h : g ∈ l → h ∈ l → g_order g = g_order h → g = h.
Proof.
  intros (i & Hi)%list_elem_of_lookup_1 (j & Hj)%list_elem_of_lookup_1 Ho.
  rewrite (grouped_order _ _ Hl i g Hi), (grouped_order _ _ Hl j h Hj) in Ho. congruence.
Qed.
Lemma latest_inj g h : g ∈ l → h ∈ l → g_latest g = g_latest h → g = h.
Proof.
  intros (i & Hi)%list_elem_of_lookup_1 (j & Hj)%list_elem_of_lookup_1 Hgh.
  pose proof (grouped_ids _ _ Hl) as Hnd.
  assert (i = j) as ->; [|congruence].
  eapply (NoDup_lookup (group_id <$> l) i j (group_id g)); [done|by rewrite list_lookup_fmap, Hi|].
  rewrite list_lookup_fmap, Hj. cbn. unfold group_id. by rewrite Hgh.
Qed.
Lemma elem_of_orders (P : Group → Prop) `{∀ g, Decision (P g)} g :
  g ∈ l → g_order g ∈ (list_to_set (g_order <$> filter P l) : gset nat) ↔ P g.
Proof.
  intros Hg. rewrite elem_of_list_to_set, list_elem_of_fmap. split.
  - intros (h & Ho & [HP Hh]%list_elem_of_filter). by rewrite (order_inj g h).
  - intros HP. exists g. split; [done|]. by apply list_elem_of_filter.
Qed.
Lemma latest_perm : g_latest <$> l ≡ₚ snd <$> map_to_list R.
Proof.
  apply NoDup_Permutation.
  - eapply (NoDup_fmap_1 f_fire_id). rewrite <- list_fmap_compose. apply Hl.
  - eapply (NoDup_fmap_1 f_fire_id). rewrite <- list_fmap_compose.
    replace (f_fire_id ∘ snd <$> map_to_list R) with ((map_to_list R).*1); [apply NoDup_fst_map_to_list|].
    apply list_fmap_ext. intros i [k r] Hi%list_elem_of_lookup_2%elem_of_map_to_list. cbn. by rewrite (HR k r Hi).
  - intros r. rewrite !list_elem_of_fmap. split.
    + intros (g & -> & Hg). exists (group_id g, g_latest g). split; [done|].
      apply elem_of_map_to_list. by apply (grouped_row _ _ Hl).
    + intros ([k r'] & -> & Hk%elem_of_map_to_list). destruct (grouped_cover _ _ Hl k r' Hk) as (g & Hg & <-). by exists g.
Qed.
Lemma filter_latest (P : FireRecord → Prop) `{∀ r, Decision (P r)} :
  length (filter (λ g, P (g_latest g)) l) = length (filter P (snd <$> map_to_list R)).
Proof.
  rewrite <- latest_perm. clear Hl. induction l as [|g k IH]; [done|].
  rewrite fmap_cons, !filter_cons. case_decide; cbn; lia.
Qed.

Lemma watermark_newest g : g ∈ l → Some (g_order g) = g_order <$> watermark l ↔ newest R (g_latest g).
Proof.
  intros Hg. destruct (watermark l) as [w|] eqn:Hw.
  2: { destruct l; [by apply not_elem_of_nil in Hg|done]. }
  destruct (watermark_spec l w (grouped_ids _ _ Hl) Hw) as [Hwl Hmax]. cbn. split.
  - intros [= Ho]. rewrite (order_inj g w Hg Hwl Ho). intros k r Hr.
    destruct (grouped_cover _ _ Hl k r Hr) as (h & Hh & <-). destruct (Hmax h Hh) as [->|?]; auto.
  - intros Hn. f_equal. destruct (Hmax g Hg) as [->|Hlt]; [done|].
    destruct (Hn _ _ (grouped_row _ _ Hl w Hwl)) as [Heq|Hgt]; [by rewrite (latest_inj w g Hwl Hg Heq)|].
    change (row_rank (g_latest ?x)) with (group_rank x) in Hgt. rewrite rank_antisym, Hlt in Hgt. done.
Qed.
Lemma aged_outdated policy g :
  g ∈ l → aged policy (g_order <$> watermark l) g = true ↔ outdated policy R (g_latest g).
Proof.
  intros Hg. unfold aged, outdated, settled, terminal. rewrite !andb_true_iff, negb_true_iff, bool_decide_eq_false.
  rewrite (watermark_newest g Hg), (grouped_time _ _ Hl g Hg). destruct (cutoff_ms policy); [rewrite Z.ltb_lt|]; naive_solver.
Qed.

(** The orders the sweep drops are those of the expired rows. *)
Lemma drop_orders_expired policy g :
  g ∈ l → g_order g ∈ drop_orders policy l ↔ expired policy R (g_latest g).
Proof.
  intros Hg. unfold drop_orders, expired, surplus. cbv zeta.
  set (wm := g_order <$> watermark l).
  set (drops := list_to_set (g_order <$> filter (λ g, aged policy wm g = true) l) : gset nat).
  assert (∀ h, h ∈ l → h.(g_order) ∈ drops ↔ outdated policy R (g_latest h)) as Hdrops.
  { intros h Hh. unfold drops. rewrite elem_of_orders by done. by apply aged_outdated. }
  assert (∀ h, h ∈ l → terminal h && negb (bool_decide (g_order h ∈ drops)) = true ↔ settled (g_latest h) ∧ ¬ outdated policy R (g_latest h)) as Hkept.
  { intros h Hh. unfold settled, terminal. rewrite andb_true_iff, negb_true_iff, bool_decide_eq_false. by rewrite Hdrops. }
  assert (length (filter (λ h, terminal h && negb (bool_decide (g_order h ∈ drops)) = true) l) = length (survivors policy R)) as Hcount.
  { unfold survivors. rewrite <- filter_latest. f_equal. by apply filter_ext_elem. }
  destruct (max_count policy) as [bound|]; [|rewrite Hdrops by done; naive_solver].
  rewrite Hcount. destruct (Z.ltb_spec bound (Z.of_nat (length (survivors policy R)))) as [Hlt|Hge].
  2: { rewrite Hdrops by done. split; [by left|]. intros [?|(_ & _ & _ & ?)]; [done|lia]. }
  set (refs := filter (λ h, terminal h && negb (bool_decide (g_order h ∈ drops)) && negb (bool_decide (Some (g_order h) = wm)) = true) l).
  assert (∀ h, h ∈ l → terminal h && negb (bool_decide (g_order h ∈ drops)) && negb (bool_decide (Some (g_order h) = wm)) = true ↔
    ¬ newest R (g_latest h) ∧ settled (g_latest h) ∧ ¬ outdated policy R (g_latest h)) as Hrefs.
  { intros h Hh. rewrite andb_true_iff, negb_true_iff, bool_decide_eq_false, Hkept by done.
    unfold wm. rewrite watermark_newest by done. naive_solver. }
  rewrite elem_of_union, Hdrops by done.
  assert (g_order g ∈ (list_to_set (g_order <$> take (Z.to_nat (Z.of_nat (length (survivors policy R)) - bound)) (sort_groups refs)) : gset nat) ↔
    g ∈ take (Z.to_nat (Z.of_nat (length (survivors policy R)) - bound)) (sort_groups refs)) as ->.
  { rewrite elem_of_list_to_set, list_elem_of_fmap. split; [|by eauto]. intros (h & Ho & Hh).
    rewrite (order_inj g h); [done..| |done]. apply list_elem_of_lookup_1 in Hh as (i & [Hi _]%lookup_take_Some).
    apply list_elem_of_lookup_2 in Hi. rewrite sort_groups_perm in Hi. by apply list_elem_of_filter in Hi as [_ ?]. }
  rewrite elem_of_oldest.
  2: { apply NoDup_fmap_filter, Hl. }
  assert (length (filter (λ h, rank_cmp (group_age h) (group_age g) = Lt) refs) = length (elders policy R (g_latest g))) as ->.
  { unfold refs, elders, survivors. rewrite !list_filter_filter, <- filter_latest. f_equal. apply filter_ext_elem.
    intros h Hh. rewrite Hrefs by done. unfold group_age, row_age. rewrite !(grouped_time _ _ Hl) by done. naive_solver. }
  unfold refs. rewrite list_elem_of_filter, Hrefs by done.
  split; [intros [?|[[? _] ?]]|intros [?|(? & ? & ? & ?)]]; [by left| |by left|]; right; split_and?; try naive_solver lia.
Qed.

End grouped.

(** ** Reading a journal *)

Section retention.
Context `{Calendar} `{Sha256} `{Clock} `{FireCodec} `{!FireCodecLaws} `{RowOrder}.

(** What the sweep knows after some snapshots. *)
Record swept (st : Sweep) (m : gmap string FireRecord) (l : list FireRecord) : Prop := {
  swept_lines : journal_lines st = (λ r, (f_fire_id r, fire_canonical_json r)) <$> l;
  swept_groups : grouped m (groups st);
  swept_index fid i : index st !! fid = Some i ↔ ∃ g, groups st !! i = Some g ∧ group_id g = fid;
  swept_keyed : keyed m;
}.
Definition group_of (r : FireRecord) (order : nat) (count : Z) : Group :=
  {| g_latest := r; g_newest_ts := latest_timestamp r; g_order := order; g_line_count := count |}.

Lemma swept_new st m l r :
  swept st m l → m !! f_fire_id r = None →
  swept {| groups := groups st ++ [group_of r (length (groups st)) 1];
           index := <[f_fire_id r := length (groups st)]> (index st);
           journal_lines := journal_lines st ++ [(f_fire_id r, fire_canonical_json r)] |}
    (<[f_fire_id r := r]> m) (l ++ [r]).
Proof.
  intros [Hlines [Ho Hr Ht Hc Hn] Hi Hk] Hnew.
  assert (∀ g, g ∈ groups st → group_id g ≠ f_fire_id r) as Hfresh.
  { intros g Hg He. specialize (Hr g Hg). rewrite He in Hr. congruence. }
  constructor; cbn.
  - by rewrite Hlines, fmap_app.
  - constructor.
    + intros i g [[_ Hg]|[-> <-]]%lookup_snoc_Some; [by apply Ho|done].
    + intros g [Hg|Hg]%elem_of_app; [|apply list_elem_of_singleton in Hg as ->; by rewrite lookup_insert_eq].
      rewrite lookup_insert_ne by (symmetry; by apply Hfresh). by apply Hr.
    + intros g [Hg|Hg]%elem_of_app; [by apply Ht|by apply list_elem_of_singleton in Hg as ->].
    + intros fid r' [[<- <-]|[Hne Hr']]%lookup_insert_Some.
      * eexists. split; [apply elem_of_app; right; by apply list_elem_of_singleton|done].
      * destruct (Hc fid r' Hr') as (g & Hg & <-). exists g. split; [apply elem_of_app; by left|done].
    + rewrite fmap_app. apply NoDup_app. split_and!; [done| |apply NoDup_singleton].
      intros x (g & -> & Hg)%list_elem_of_fmap Hx%list_elem_of_singleton. by apply (Hfresh g).
  - intros fid i. destruct (decide (fid = f_fire_id r)) as [->|Hne].
    + rewrite lookup_insert_eq. split.
      * intros [= <-]. eexists. split; [by rewrite lookup_app_r, Nat.sub_diag|done].
      * intros (g & [[_ Hg]|[-> _]]%lookup_snoc_Some & Hid); [|done].
        by destruct (Hfresh g (list_elem_of_lookup_2 _ _ _ Hg)).
    + rewrite lookup_insert_ne, Hi by done. split; intros (g & Hg & Hid); exists g; (split; [|done]).
      * by apply lookup_app_l_Some.
      * apply lookup_snoc_Some in Hg as [[_ ?]|[-> <-]]; [done|]. by cbn in Hid.
  - intros k r' [[<- <-]|[_ ?]]%lookup_insert_Some; [done|by apply Hk].
Qed.

Lemma swept_again st m l r p i g :
  swept st m l → m !! f_fire_id r = Some p → index st !! f_fire_id r = Some i → groups st !! i = Some g →
  g_latest g = p ∧
  swept {| groups := <[i := group_of r (g_order g) (g_line_count g + 1)]> (groups st); index := index st;
           journal_lines := journal_lines st ++ [(f_fire_id r, fire_canonical_json r)] |}
    (<[f_fire_id r := r]> m) (l ++ [r]).
Proof.
  intros [Hlines [Ho Hr Ht Hc Hn] Hi Hk] Hp Hidx Hg.
  assert (group_id g = f_fire_id r) as Hid.
  { apply Hi in Hidx as (g' & Hg' & <-). congruence. }
  assert (g_latest g = p) as Hgp.
  { pose proof (Hr g (list_elem_of_lookup_2 _ _ _ Hg)) as Hl. rewrite Hid in Hl. congruence. }
  assert (i < length (groups st))%nat as Hlt by (by eapply lookup_lt_Some).
  assert (∀ h, h ∈ <[i := group_of r (g_order g) (g_line_count g + 1)]> (groups st) →
    h = group_of r (g_order g) (g_line_count g + 1) ∨ (h ∈ groups st ∧ group_id h ≠ f_fire_id r)) as Hmem.
  { intros h (j & [(-> & <- & _)|[Hne Hh]]%list_lookup_insert_Some)%list_elem_of_lookup_1; [by left|].
    right. split; [by eapply list_elem_of_lookup_2|]. intros He.
    assert (index st !! f_fire_id r = Some j) as Hj by (apply Hi; by exists h). congruence. }
  assert (group_id <$> <[i := group_of r (g_order g) (g_line_count g + 1)]> (groups st) = group_id <$> groups st) as Hids.
  { rewrite list_fmap_insert. apply list_insert_id. rewrite list_lookup_fmap, Hg. exact (f_equal Some Hid). }
  split; [done|]. constructor; cbn.
  - by rewrite Hlines, fmap_app.
  - constructor; [| | | |by rewrite Hids].
    + intros j h [(-> & <- & _)|[_ Hh]]%list_lookup_insert_Some; [cbn; by apply Ho|by apply Ho].
    + intros h [->|[Hh Hne]]%Hmem; [by rewrite lookup_insert_eq|]. rewrite lookup_insert_ne by done. by apply Hr.
    + by intros h [->|[Hh _]]%Hmem; [|apply Ht].
    + intros fid r' [[<- <-]|[Hne Hr']]%lookup_insert_Some.
      * eexists. split; [eapply (list_elem_of_lookup_2 _ i); by apply list_lookup_insert_eq|done].
      * destruct (Hc fid r' Hr') as (h & (j & Hj)%list_elem_of_lookup_1 & <-). exists h. split; [|done].
        apply (list_elem_of_lookup_2 _ j). rewrite list_lookup_insert_ne; [done|]. intros <-.
        rewrite Hg in Hj. injection Hj as ->. apply Hk in Hr'. unfold group_id in Hid. congruence.
  - intros fid j. rewrite Hi. split; intros (h & Hh & Hhid).
    + destruct (decide (i = j)) as [<-|Hne].
      * rewrite list_lookup_insert_eq by done. eexists. split; [done|]. cbn. rewrite Hg in Hh. injection Hh as ->. exact (eq_trans (eq_sym Hid) Hhid).
      * rewrite list_lookup_insert_ne by done. by exists h.
    + apply list_lookup_insert_Some in Hh as [(-> & <- & _)|[_ Hh]]; [|by exists h]. exists g. split; [done|].
      exact (eq_trans Hid Hhid).
  - intros k r' [[<- <-]|[_ ?]]%lookup_insert_Some; [done|by apply Hk].
Qed.

Lemma sweep_line_exact id st m l r :
  swept st m l → f_schedule_id r = id → legal_next m r →
  ∃ st', sweep_line id st (fire_canonical_json r) = Ok st' ∧ swept st' (<[f_fire_id r := r]> m) (l ++ [r]).
Proof.
  intros Hst Hid [Hv Hn]. unfold sweep_line, canonical_json_line.
  destruct (is_empty (fire_canonical_json r)) eqn:He.
  { destruct (fire_canonical_json r) eqn:Hc; [by apply canonical_nonempty in Hc|done]. }
  rewrite read_canonical. cbn. rewrite Hv. cbn. rewrite !bool_decide_true by done. cbn.
  destruct (index st !! f_fire_id r) as [i|] eqn:Hidx.
  - destruct (proj1 (swept_index _ _ _ Hst _ _) Hidx) as (g & Hg & Hgid). rewrite Hg.
    pose proof (grouped_row _ _ (swept_groups _ _ _ Hst) g (list_elem_of_lookup_2 _ _ _ Hg)) as Hrow.
    rewrite Hgid in Hrow. destruct (swept_again st m l r _ i g Hst Hrow Hidx Hg) as [_ Hsw].
    rewrite (Hn _ Hrow). cbn. by eexists.
  - destruct (m !! f_fire_id r) as [p|] eqn:Hp.
    + exfalso. destruct (grouped_cover _ _ (swept_groups _ _ _ Hst) _ _ Hp) as (g & (i & Hi)%list_elem_of_lookup_1 & <-).
      assert (index st !! f_fire_id r = Some i) as Hix; [|congruence].
      apply (swept_index _ _ _ Hst). exists g. split; [done|]. by apply (swept_keyed _ _ _ Hst) in Hp.
    + eexists. split; [done|]. by apply swept_new.
Qed.
Lemma sweep_lines_exact id st m l k m' :
  swept st m l → Forall (λ r, f_schedule_id r = id) k → replays m k m' →
  ∃ st', sweep_lines id st (fire_canonical_json <$> k) = Ok st' ∧ swept st' m' (l ++ k).
Proof.
  intros Hst Hk Hr. revert st l Hst Hk. induction Hr as [m|m r k m' Hn _ IH]; intros st l Hst Hk.
  - exists st. by rewrite app_nil_r.
  - apply Forall_cons in Hk as [Hid Hk]. destruct (sweep_line_exact id st m l r Hst Hid Hn) as (st1 & Hline & Hst1).
    destruct (IH st1 (l ++ [r]) Hst1 Hk) as (st2 & Hlines & Hst2). exists st2. split; [|by rewrite <- app_assoc in Hst2].
    cbn. rewrite Hline. exact Hlines.
Qed.
Lemma swept_empty : swept {| groups := []; index := ∅; journal_lines := [] |} ∅ [].
Proof.
  constructor; cbn; [done| | |by intros ? ? ?].
  - constructor; try done; try by intros g ?%not_elem_of_nil. constructor.
  - intros fid i. rewrite lookup_empty. split; [done|]. by intros (g & ? & _).
Qed.

(** ** Retiring fires *)

Definition target_row (r : FireRecord) : FireRetentionTarget :=
  {| rt_schedule_id := f_schedule_id r; rt_fire_id := f_fire_id r |}.
Definition retire (targets : list FireRetentionTarget) (m : gmap string FireRecord) : gmap string FireRecord :=
  filter (λ e, target_row e.2 ∉ targets) m.
Definition retire_snapshots (targets : list FireRetentionTarget) (l : list FireRecord) : list FireRecord :=
  filter (λ r, target_row r ∉ targets) l.

(** Dropping every snapshot of some fires drops their rows. *)
Lemma replays_filter (P : FireRecord → Prop) `{∀ r, Decision (P r)} m l m' :
  (∀ r p, validate_transition_from r p = Ok tt → P r ↔ P p) → replays m l m' →
  replays (filter (λ e, P e.2) m) (filter P l) (filter (λ e, P e.2) m').
Proof.
  intros HP. induction 1 as [m|m r l m' [Hv Hn] _ IH]; [constructor|].
  rewrite filter_cons. case_decide as Hr.
  - constructor.
    + split; [done|]. intros p [Hp _]%map_lookup_filter_Some. by apply Hn.
    + by rewrite map_filter_insert_True in IH.
  - rewrite map_filter_insert_False in IH by done.
    rewrite map_filter_delete_not in IH; [done|]. intros p Hp. cbn. by rewrite <- (HP r p) by auto.
Qed.
Lemma replays_retire targets m l m' :
  replays m l m' → replays (retire targets m) (retire_snapshots targets l) (retire targets m').
Proof.
  intros Hr. eapply (replays_filter (λ r, target_row r ∉ targets)) in Hr; [exact Hr|]. intros r p (_ & _ & [Hid _])%transition_inv. unfold target_row. naive_solver congruence.
Qed.
Lemma retire_ext T T' m : (∀ t, t ∈ T ↔ t ∈ T') → retire T m = retire T' m.
Proof. intros HT. apply map_filter_ext. intros k r _. cbn. by rewrite HT. Qed.
Lemma retire_nil m : retire [] m = m.
Proof. apply map_filter_id. intros k r _. cbn. apply not_elem_of_nil. Qed.
Lemma retire_retire T T' m : retire T (retire T' m) = retire (T ++ T') m.
Proof.
  unfold retire. rewrite map_filter_filter. apply map_filter_ext. intros k r _. cbn. rewrite not_elem_of_app. naive_solver.
Qed.
Lemma of_schedule_retire id T l :
  of_schedule id (retire_snapshots T l) = retire_snapshots T (of_schedule id l).
Proof. unfold of_schedule, retire_snapshots. rewrite !list_filter_filter. apply list_filter_iff. naive_solver. Qed.
Lemma retire_other id T l :
  (∀ t, t ∈ T → rt_schedule_id t ≠ id) → of_schedule id (retire_snapshots T l) = of_schedule id l.
Proof.
  intros HT. unfold of_schedule, retire_snapshots. rewrite list_filter_filter. apply list_filter_iff. intros r.
  split; [naive_solver|]. intros Hr. split; [done|]. intros Hin. by apply HT in Hin.
Qed.
Lemma rows_of_retire id T m : (∀ t, t ∈ T → rt_schedule_id t ≠ id) → rows_of id (retire T m) = rows_of id m.
Proof.
  intros HT. unfold rows_of, retire. rewrite map_filter_filter. apply map_filter_ext. intros k r _. cbn.
  split; [naive_solver|]. intros Hr. split; [done|]. intros Hin. by apply HT in Hin.
Qed.

Lemma rebuilt_exact id T l :
  Forall (λ r, f_schedule_id r = id) l → (∀ t, t ∈ T → rt_schedule_id t = id) →
  rebuilt (list_to_set (rt_fire_id <$> T)) ((λ r, (f_fire_id r, fire_canonical_json r)) <$> l) =
  render_lines (fire_canonical_json <$> retire_snapshots T l).
Proof.
  intros Hl HT. induction Hl as [|r l Hr _ IH]; [done|].
  unfold retire_snapshots. rewrite fmap_cons, filter_cons. unfold rebuilt in *. cbn [foldr]. rewrite IH. cbn [fst snd].
  assert (f_fire_id r ∈ (list_to_set (rt_fire_id <$> T) : gset string) ↔ target_row r ∈ T) as Hin.
  { rewrite elem_of_list_to_set, list_elem_of_fmap. split.
    - intros (t & Hid & Ht). rewrite <- Hr in HT. specialize (HT t Ht). destruct t as [s f]. cbn in *. by subst.
    - intros Ht. by exists (target_row r). }
  do 2 case_decide; tauto.
Qed.

(** ** Sweeping the journals *)

(** The journals still hold a table, which lost at most settled rows; the
    database is untouched. *)
Definition shrinks (m m' : gmap string FireRecord) : Prop :=
  ∀ k r, m !! k = Some r → m' !! k = Some r ∨ settled r.
#[export] Instance shrinks_preorder : PreOrder shrinks.
Proof. split; [intros m k r; auto|]. intros m1 m2 m3 H12 H23 k r Hk. destruct (H12 k r Hk); [by apply H23|auto]. Qed.
Record sweeps (w w' : World) : Prop := {
  sweeps_db : db w' = db w;
  sweeps_names id : is_Some (journals w !! id) → is_Some (journals w' !! id);
  sweeps_table m published : retired w m published → ∃ m' published', retired w' m' published' ∧ shrinks m m';
}.
#[export] Instance sweeps_preorder : PreOrder sweeps.
Proof.
  split; [intros w; split; [done..|]; intros m pub Hr; by exists m, pub|].
  intros w1 w2 w3 [Hdb Hn Ht] [Hdb' Hn' Ht']. split; [congruence|auto|]. intros m pub Hr.
  destruct (Ht m pub Hr) as (m1 & pub1 & Hr1 & Hs1). destruct (Ht' m1 pub1 Hr1) as (m2 & pub2 & Hr2 & Hs2).
  exists m2, pub2. split; [done|]. by transitivity m1.
Qed.

Lemma completes_read {A} R `{!PreOrder R} (f : World → A) w : completes R (read f) w (λ a w', a = f w ∧ w' = w).
Proof. by eapply completed. Qed.
Lemma completes_lift {A} R `{!PreOrder R} (x : Sch A) a w :
  x = Ok a → completes R (lift x) w (λ b w', b = a ∧ w' = w).
Proof. intros ->. by eapply completed. Qed.

Definition expired_target (policy : FireRetentionPolicy) (m : gmap string FireRecord) (t : FireRetentionTarget) : Prop :=
  ∃ r, m !! rt_fire_id t = Some r ∧ f_schedule_id r = rt_schedule_id t ∧
       expired policy (rows_of (rt_schedule_id t) m) r.
Lemma expired_settled policy R r : expired policy R r → settled r ∧ ¬ newest R r.
Proof. by intros [[? [? _]]|[? [? _]]]. Qed.

(** The journal after the sweep holds the rows that are kept. *)
Lemma rewrite_retired w m published id T k :
  retired w m published → (∀ t, t ∈ T → rt_schedule_id t = id) → is_Some (journals w !! id) →
  retired (set_journals <[id := render_lines (fire_canonical_json <$> retire_snapshots T (of_schedule id published))]>
             (set_kill k w)) (retire T m) (retire_snapshots T published).
Proof.
  intros (Ho & Hr & Hj & Hi) HT Hid. split_and!; [done| | |].
  - apply (replays_retire T) in Hr. unfold retire at 1 in Hr. by rewrite map_filter_empty in Hr.
  - intros id'. unfold journal in *. cbn. destruct (decide (id' = id)) as [->|Hne].
    + rewrite lookup_insert_eq. cbn. unfold journal_text. by rewrite of_schedule_retire.
    + rewrite lookup_insert_ne, Hj by done. unfold journal_text. rewrite retire_other; [done|].
      intros t Ht. by rewrite (HT t Ht).
  - intros id'. cbn. destruct (decide (id' = id)) as [->|Hne]; [intros _; by apply Hi|].
    rewrite lookup_insert_ne by done. apply Hi.
Qed.
Lemma retire_shrinks T m :
  keyed m → (∀ t r, t ∈ T → m !! rt_fire_id t = Some r → f_schedule_id r = rt_schedule_id t → settled r) →
  shrinks m (retire T m).
Proof.
  intros Hk HT k r Hr. destruct (decide (target_row r ∈ T)) as [Ht|Ht]; [|left; by apply map_lookup_filter_Some].
  right. apply (HT _ _ Ht); [|done]. cbn. by rewrite (Hk k r Hr).
Qed.
Lemma retired_keyed w m published : retired w m published → keyed m.
Proof.
  intros (_ & Hr & _). intros k r Hk. by apply (replays_keyed _ _ _ Hr (map_Forall_empty _)) in Hk as [? _].
Qed.

(** The journals determine the table. *)
Lemma replays_fun m l m1 m2 : replays m l m1 → replays m l m2 → m1 = m2.
Proof. induction 1; inversion 1; subst; auto. Qed.
Lemma retired_rows w m1 m2 l1 l2 : retired w m1 l1 → retired w m2 l2 → m1 ⊆ m2.
Proof.
  intros (_ & Hr1 & Hj1 & _) (_ & Hr2 & Hj2 & _). apply map_subseteq_spec. intros k r Hk.
  set (id := f_schedule_id r). assert (rows_of id m1 = rows_of id m2) as Hrows.
  { assert (of_schedule id l1 = of_schedule id l2) as Hl.
    { assert (lines (journal_text id l1) = lines (journal_text id l2)) as Ht by congruence. revert Ht. unfold journal_text.
      rewrite !lines_render by (apply Forall_fmap, Forall_true; intros x; split; [apply canonical_line|apply canonical_no_return]).
      apply list_fmap_eq_inj. intros x y Hxy. assert (fire_from_str (fire_canonical_json x) = fire_from_str (fire_canonical_json y)) as Hf by (by f_equal).
      rewrite !read_canonical in Hf. congruence. }
    apply (replays_schedule id) in Hr1, Hr2. rewrite Hl in Hr1. eapply replays_fun; [exact Hr1|exact Hr2]. }
  assert (rows_of id m1 !! k = Some r) as Hk1 by (by apply map_lookup_filter_Some).
  rewrite Hrows in Hk1. by apply map_lookup_filter_Some in Hk1 as [? _].
Qed.
Lemma retired_unique w m1 l2 m2 l1 : retired w m1 l1 → retired w m2 l2 → m1 = m2.
Proof. intros H1' H2'. apply (anti_symm (⊆)); by eapply retired_rows. Qed.

Lemma journal_complete id l :
  match last_byte (journal_text id l) with Some b => negb (b =? 10) | None => false end = false.
Proof.
  unfold journal_text. destruct (render_lines_end (fire_canonical_json <$> of_schedule id l)) as [->|[x ->]]; [done|].
  by rewrite last_byte_app.
Qed.
Lemma sweep_journal id m l :
  replays ∅ l m →
  ∃ st, sweep_lines id {| groups := []; index := ∅; journal_lines := [] |} (lines (journal_text id l)) = Ok st ∧
        swept st (rows_of id m) (of_schedule id l).
Proof.
  intros Hr%(replays_schedule id). unfold rows_of at 1 in Hr. rewrite map_filter_empty in Hr.
  unfold journal_text.
  rewrite lines_render by (apply Forall_fmap, Forall_true; intros r; split; [apply canonical_line|apply canonical_no_return]).
  apply (sweep_lines_exact id _ ∅ []); [apply swept_empty| |done].
  apply Forall_forall. intros r Hin. by apply list_elem_of_filter in Hin as [? _].
Qed.

Definition selection (policy : FireRetentionPolicy) (l : list Group) : list FireRetentionTarget :=
  target_of <$> filter (λ g, g_order g ∈ drop_orders policy l) l.
Lemma selection_exact policy id m l t :
  keyed m → grouped (rows_of id m) l →
  t ∈ selection policy l ↔ rt_schedule_id t = id ∧ expired_target policy m t.
Proof.
  intros Hm Hl. assert (keyed (rows_of id m)) as HR by (intros k r [Hr _]%map_lookup_filter_Some; by apply Hm).
  unfold selection. rewrite list_elem_of_fmap. split.
  - intros (g & -> & [Hd Hg]%list_elem_of_filter). rewrite (drop_orders_expired _ _ HR Hl) in Hd by done.
    pose proof (grouped_row _ _ Hl g Hg) as [Hrow Hid]%map_lookup_filter_Some. cbn in Hid |- *.
    split; [done|]. exists (g_latest g). cbn. by rewrite Hid.
  - intros (<- & r & Hr & Hid & Hexp).
    destruct (grouped_cover _ _ Hl (rt_fire_id t) r) as (g & Hg & <-); [by apply map_lookup_filter_Some|].
    exists g. split; [|apply list_elem_of_filter; split; [by apply (drop_orders_expired _ _ HR Hl)|done]].
    apply Hm in Hr. destruct t as [s f]. unfold target_of. cbn in *. by subst.
Qed.
Lemma selection_nodup policy R l : grouped R l → NoDup (selection policy l).
Proof.
  intros Hl. apply (NoDup_fmap_1 rt_fire_id). unfold selection. rewrite <- list_fmap_compose.
  apply NoDup_fmap_filter, Hl.
Qed.

Lemma sweep_one_exact id policy dry_run result w m published :
  retired w m published → is_Some (journals w !! id) →
  completes sweeps (sweep_one_fires_file id policy dry_run result) w (λ out w',
    NoDup out.2 ∧ (∀ t, t ∈ out.2 ↔ rt_schedule_id t = id ∧ expired_target policy m t) ∧
    if dry_run then w' = w else ∃ published', retired w' (retire out.2 m) published').
Proof.
  intros Hw Hid. pose proof Hw as (_ & Hr & Hj & _). pose proof (retired_keyed _ _ _ Hw) as Hk.
  destruct (sweep_journal id m published Hr) as (st & Hst & Hsw).
  pose proof (swept_groups _ _ _ Hsw) as Hg. pose proof (selection_nodup policy _ _ Hg) as Hnd.
  pose proof (λ t, selection_exact policy id m (groups st) t Hk Hg) as Hsel.
  unfold sweep_one_fires_file.
  eapply completes_bind; [apply _|apply completes_read, _|]. intros raw w1 _ [-> ->]. rewrite Hj, journal_complete.
  eapply completes_bind; [apply _|by apply completes_lift; [apply _|]|]. intros _ w1 _ [_ ->].
  eapply completes_bind; [apply _|apply completes_lift, Hst; apply _|]. intros _ w1 _ [-> ->].
  cbv zeta. change (target_of <$> filter _ (groups st)) with (selection policy (groups st)).
  set (T := selection policy (groups st)) in *.
  case_decide as Hdrops.
  { assert (T = []) as HT by (unfold T, selection; rewrite Hdrops, filter_none; [done|apply Forall_true; set_solver]).
    rewrite HT in *. apply completes_ret; [apply _|]. cbn [snd]. split_and!; [done..|].
    destruct dry_run; [done|]. rewrite retire_nil. by exists published. }
  rewrite (swept_lines _ _ _ Hsw), (rebuilt_exact id T) by
    ((apply Forall_forall; intros r Hin; by apply list_elem_of_filter in Hin as [? _]) || naive_solver).
  eapply (completes_bind _ _ _ _ (λ _ w', if dry_run then w' = w else ∃ published', retired w' (retire T m) published')).
  2: { intros [] w1 _ Hw1. apply completes_ret; [apply _|]. by split_and!. }
  destruct dry_run; [by apply completes_ret; [apply _|]|].
  destruct (checkpoint_cases w) as [(k & Hc & Hkill)|[Hc Hkill]].
  2: { eapply interrupted; [by rewrite (bind_err _ _ _ _ _ Hc)|reflexivity|done]. }
  eapply completed; [by rewrite (bind_run _ _ _ _ _ Hc)| |done|].
  - split; [done|intros id'; cbn; rewrite lookup_insert_is_Some; destruct (decide (id = id')); auto|].
    intros m1 pub1 Hw1. rewrite <- (retired_unique w m pub1 m1 published) by done. eexists _, _.
    split; [apply rewrite_retired; naive_solver|]. apply retire_shrinks; [done|]. intros t r Ht Hrow Hsched.
    apply Hsel in Ht as (_ & r' & Hr' & _ & [? _]%expired_settled). congruence.
  - eexists. apply rewrite_retired; naive_solver.
Qed.

(** The schedules one after the other. *)
Lemma add_targets_exact selected targets :
  NoDup (selected ++ targets) →
  ∃ all, add_targets selected targets = Ok all ∧ all ≡ₚ selected ++ targets.
Proof.
  revert targets. induction selected as [|t selected IH]; intros targets Hnd; [by exists targets|].
  cbn in Hnd |- *. apply NoDup_cons in Hnd as [Ht Hnd]. rewrite not_elem_of_app in Ht. destruct Ht as [Hts Ht].
  destruct (btree_contains target_cmp t targets) eqn:Hc.
  { by apply (btree_contains_spec _ target_cmp_eq) in Hc. }
  pose proof (btree_insert_new _ target_cmp_eq t targets Ht) as Hins.
  destruct (IH (btree_insert target_cmp t targets)) as (all & Hall & Hp).
  { rewrite Hins, <- Permutation_middle. apply NoDup_cons. by rewrite not_elem_of_app. }
  exists all. split; [done|]. by rewrite Hp, Hins, <- Permutation_middle.
Qed.

Section sweep.
Context (policy : FireRetentionPolicy) (dry_run : bool) (m : gmap string FireRecord).

(** What the sweep has selected and done when it has visited some schedules. *)
Record swept_to (visited : string → Prop) (targets : list FireRetentionTarget) (w0 w : World) : Prop := {
  swept_nodup : NoDup targets;
  swept_targets t : t ∈ targets ↔ visited (rt_schedule_id t) ∧ expired_target policy m t;
  swept_world : if dry_run then w = w0 else ∃ published, retired w (retire targets m) published;
}.

Lemma expired_target_rows m' t :
  rows_of (rt_schedule_id t) m' = rows_of (rt_schedule_id t) m →
  expired_target policy m' t ↔ expired_target policy m t.
Proof.
  intros Hrows. unfold expired_target. rewrite Hrows.
  assert (∀ k r, m' !! k = Some r ∧ f_schedule_id r = rt_schedule_id t ↔
                 m !! k = Some r ∧ f_schedule_id r = rt_schedule_id t) as Hk.
  { intros k r. assert (rows_of (rt_schedule_id t) m' !! k = Some r ↔ rows_of (rt_schedule_id t) m !! k = Some r) as Hkr
      by (by rewrite Hrows). unfold rows_of in Hkr. by rewrite !map_lookup_filter_Some in Hkr. }
  split; intros (r & Hr & Hs & Hx); exists r; destruct (Hk (rt_fire_id t) r); tauto.
Qed.

Lemma sweep_next (visited : string → Prop) targets w0 w id result published :
  retired w0 m published → swept_to visited targets w0 w → ¬ visited id → is_Some (journals w !! id) →
  completes sweeps
    (lift (validate_schedule_id id) ;; swept ← sweep_one_fires_file id policy dry_run result ;
     targets ← lift (add_targets swept.2 targets) ; mret (swept.1, targets)) w
    (λ out w', swept_to (λ x, x = id ∨ visited x) out.2 w0 w').
Proof.
  intros Hw0 [Hnd Ht Hw] Hid Hj.
  assert (∀ t, t ∈ targets → rt_schedule_id t ≠ id) as Hother by (intros t [Hv _]%Ht <-; done).
  set (now := if dry_run then m else retire targets m).
  assert (∃ published, retired w now published) as [pub Hr] by (unfold now; destruct dry_run; subst; eauto).
  assert (rows_of id now = rows_of id m) as Hrows by (unfold now; destruct dry_run; [done|by apply rows_of_retire]).
  eapply completes_bind; [apply _|apply completes_lift; [apply _|by apply Hr]|]. intros _ w1 _ [_ ->].
  eapply completes_bind; [apply _|by apply (sweep_one_exact id policy dry_run result w now pub)|].
  intros [result' sel] w1 _ (Hnds & Hsel & Hw1). cbn [fst snd] in *.
  assert (∀ t, t ∈ sel ↔ rt_schedule_id t = id ∧ expired_target policy m t) as Hsel'.
  { intros t. rewrite Hsel. split; intros [<- Hx]; (split; [done|]); by apply (expired_target_rows now). }
  destruct (add_targets_exact sel targets) as (all & Hadd & Hperm).
  { apply NoDup_app. split_and!; [done| |done]. intros t [Hs _]%Hsel Hin. by apply (Hother t). }
  eapply completes_bind; [apply _|apply completes_lift; [apply _|exact Hadd]|]. intros _ w2 _ [-> ->].
  apply completes_ret; [apply _|]. split; cbn [snd].
  - rewrite Hperm. apply NoDup_app. split_and!; [done| |done]. intros t [Hs _]%Hsel Hin. by apply (Hother t).
  - intros t. rewrite Hperm, elem_of_app, Hsel', Ht. naive_solver.
  - unfold now in Hw1. destruct dry_run; [congruence|]. destruct Hw1 as [pub' Hw1]. exists pub'.
    rewrite retire_retire in Hw1. erewrite retire_ext; [exact Hw1|]. intros t. by rewrite Hperm.
Qed.

Lemma sweep_schedules names (visited : string → Prop) targets w0 w result published :
  retired w0 m published → swept_to visited targets w0 w → NoDup names →
  (∀ id, id ∈ names → ¬ visited id ∧ is_Some (journals w !! id)) →
  completes sweeps
    (fold_m (λ '(result, targets) id,
        lift (validate_schedule_id id) ;;
        swept ← sweep_one_fires_file id policy dry_run result ;
        targets ← lift (add_targets swept.2 targets) ;
        mret (swept.1, targets)) (result, targets) names) w
    (λ out w', swept_to (λ x, x ∈ names ∨ visited x) out.2 w0 w').
Proof.
  intros Hw0 Hst Hnd. revert visited targets w result Hst. induction Hnd as [|id names Hid _ IH];
    intros visited targets w result Hst Hnames; cbn [fold_m].
  - apply completes_ret; [apply _|]. destruct Hst as [? Ht ?]. split; [done| |done]. intros t. rewrite Ht.
    assert (rt_schedule_id t ∉ []) by apply not_elem_of_nil. tauto.
  - destruct (Hnames id) as [Hv Hj]; [by left|].
    eapply completes_bind; [apply _|by eapply sweep_next|]. intros [result' targets'] w1 Hsw Hst1. cbn [snd] in Hst1.
    eapply completes_mono; [apply (IH _ _ _ _ Hst1)|].
    + intros x Hx. destruct (Hnames x) as [Hvx Hjx]; [by right|]. split; [intros [->|?]; done|].
      by apply (sweeps_names _ _ Hsw).
    + cbn. intros out w2 [? Ht ?]. split; [done| |done]. intros t. rewrite Ht, elem_of_cons. tauto.
Qed.

(** The sweep selects the expired fires and, unless it is a dry run, leaves
    journals that hold the others. *)
Lemma sweep_exact w published result :
  retired w m published →
  completes sweeps (sweep_fire_jsonl (Some policy) dry_run result) w
    (λ out w', NoDup out.2 ∧ (∀ t, t ∈ out.2 ↔ expired_target policy m t) ∧
               if dry_run then w' = w else ∃ published', retired w' (retire out.2 m) published').
Proof.
  intros Hw. unfold sweep_fire_jsonl.
  eapply completes_bind; [apply _|apply completes_read, _|]. intros names w1 _ [-> ->].
  set (keys := fst <$> map_to_list (journals w)).
  assert (∀ id, id ∈ foldr (btree_insert String.compare) [] keys ↔ is_Some (journals w !! id)) as Hkeys.
  { intros id. rewrite (elem_of_btree _ string_compare_eq). unfold keys. rewrite list_elem_of_fmap. split.
    - intros ([k b] & -> & Hin%elem_of_map_to_list). by eexists.
    - intros [b Hb]. exists (id, b). split; [done|]. by apply elem_of_map_to_list. }
  eapply completes_mono; [eapply (sweep_schedules _ (λ _, False))|].
  - done.
  - split; [constructor|intros t; rewrite elem_of_nil; naive_solver|].
    destruct dry_run; [done|]. exists published. by rewrite retire_nil.
  - rewrite btree_perm by (apply string_compare_eq || apply NoDup_fst_map_to_list). apply NoDup_fst_map_to_list.
  - intros id Hid. split; [by intros []|by apply Hkeys].
  - cbn. intros out w' [Hnd Ht Hw']. split_and!; [done| |done]. intros t. rewrite Ht. split; [naive_solver|].
    intros Hx. split; [|done]. left. apply Hkeys. destruct Hx as (r & Hr & <- & _).
    destruct Hw as (_ & Hrep & Hj & _). by eapply journal_of_row.
Qed.
End sweep.

(** ** Retiring the rows *)

(** What the store requires of a target. *)
Definition removable (m : gmap string FireRecord) (t : FireRetentionTarget) : Prop :=
  ∃ r, m !! rt_fire_id t = Some r ∧ target_row r = t ∧ validate r = Ok tt ∧ settled r ∧
       ¬ newest (rows_of (rt_schedule_id t) m) r.

Lemma expired_removable policy m t :
  map_Forall (λ k r, f_fire_id r = k ∧ validate r = Ok tt) m → expired_target policy m t → removable m t.
Proof.
  intros Hm (r & Hr & Hs & [? ?]%expired_settled). destruct (Hm _ _ Hr) as [Hid Hv]. exists r.
  split_and!; [done| |done..]. destruct t. unfold target_row. cbn in *. by subst.
Qed.

(** The row a query orders first is the newest one. *)
Lemma row_before_rank a b : row_before a b = true ↔ rank_cmp (row_rank a) (row_rank b) = Lt.
Proof.
  unfold row_before, rank_cmp, row_rank. cbn. destruct (Z.compare_spec (f_scheduled_at a) (f_scheduled_at b)) as [Heq|Hlt|Hgt]; cbn.
  - rewrite Heq, Z.ltb_irrefl, Z.eqb_refl. cbn. by destruct (String.compare _ _).
  - apply Z.ltb_lt in Hlt. by rewrite Hlt.
  - rewrite (proj2 (Z.ltb_ge _ _)), (proj2 (Z.eqb_neq _ _)) by lia. done.
Qed.
Lemma latest_row_max l b :
  latest_row l = Some b → b ∈ l ∧ ∀ x, x ∈ l → row_before b x = false.
Proof.
  revert b. induction l as [|r l IH]; intros b; [done|]. cbn. fold (latest_row l). destruct (latest_row l) as [c|] eqn:Hl.
  - destruct (IH c eq_refl) as [Hc Hmax]. destruct (row_before c r) eqn:Hcr; intros [= <-].
    + split; [by left|]. intros x [->|Hx]%elem_of_cons; apply not_true_iff_false; rewrite row_before_rank.
      * apply rank_lt_irrefl.
      * intros Hrx. apply row_before_rank in Hcr. pose proof (rank_trans _ _ _ Hcr Hrx) as Hcx.
        apply row_before_rank in Hcx. by rewrite Hmax in Hcx.
    + split; [by right|]. by intros x [->|Hx]%elem_of_cons; [|apply Hmax].
  - intros [= <-]. destruct l as [|y l]; [|cbn in Hl; by destruct (foldr _ _ l)]. split; [by left|].
    intros x [->|?%not_elem_of_nil]%elem_of_cons; [|done]. apply not_true_iff_false. rewrite row_before_rank. apply rank_lt_irrefl.
Qed.
Lemma last_fire_newest w id r :
  keyed (fires (db w)) → last_fire_of w id = Some r →
  fires (db w) !! f_fire_id r = Some r ∧ newest (rows_of id (fires (db w))) r.
Proof.
  intros Hk [Hin Hmax]%latest_row_max.
  assert (∀ x, x ∈ filter (λ r, f_schedule_id r = id) (rows w) ↔ f_schedule_id x = id ∧ fires (db w) !! f_fire_id x = Some x) as Hrow.
  { intros x. unfold rows. rewrite list_elem_of_filter, list_elem_of_fmap. split.
    - intros (Hs & [k y] & -> & Hy%elem_of_map_to_list). cbn in *. by rewrite (Hk _ _ Hy).
    - intros [Hs Hx]. split; [done|]. exists (f_fire_id x, x). split; [done|]. by apply elem_of_map_to_list. }
  apply Hrow in Hin as [Hs Hr]. split; [done|]. intros k x [Hx Hxs]%map_lookup_filter_Some.
  specialize (Hmax x). rewrite Hrow in Hmax. rewrite <- (Hk _ _ Hx) in Hx.
  specialize (Hmax (conj Hxs Hx)). destruct (rank_cmp (row_rank x) (row_rank r)) eqn:Hc; [|by right|].
  - left. apply rank_eq in Hc. injection Hc as _ Hid. congruence.
  - apply not_true_iff_false in Hmax. rewrite row_before_rank, rank_antisym, Hc in Hmax. done.
Qed.

Lemma validate_targets_exact w l seen affected :
  keyed (fires (db w)) → NoDup l → (∀ t, t ∈ l → t ∉ seen ∧ removable (fires (db w)) t) →
  ∃ affected', validate_targets seen affected l w = (Ok affected', w).
Proof.
  intros Hk Hnd. revert seen affected. induction Hnd as [|t l Ht _ IH]; intros seen affected Hl; [by eexists|].
  destruct (Hl t) as [Hseen (r & Hr & <- & Hv & Hset & Hnew)]; [by left|]. cbn [rt_fire_id rt_schedule_id target_row] in *.
  destruct (IH (target_row r :: seen) (btree_insert String.compare (f_schedule_id r) affected)) as [affected' Hrest].
  { intros t' Ht'. destruct (Hl t') as [? ?]; [by right|]. split; [|done]. apply not_elem_of_cons. split; [by intros ->|done]. }
  exists affected'. cbn [validate_targets].
  destruct (btree_contains target_cmp (target_row r) seen) eqn:Hc; [by apply (btree_contains_spec _ target_cmp_eq) in Hc|].
  assert (f_fire_id <$> last_fire_of w (f_schedule_id r) ≠ Some (f_fire_id r)) as Hlast.
  { destruct (last_fire_of w (f_schedule_id r)) as [r'|] eqn:Hl'; [|done]. intros [= Hid].
    apply (last_fire_newest w _ _ Hk) in Hl' as [Hr' Hnew']. rewrite Hid, Hr in Hr'. injection Hr' as <-. done. }
  unfold get_fire, get_last_fire, read, lift, mbind, m_bind. cbn. rewrite Hr. cbn. rewrite Hv. cbn.
  rewrite bool_decide_true by done. cbn. unfold settled in Hset. rewrite Hset. cbn. rewrite bool_decide_false by done. cbn.
  exact Hrest.
Qed.

Lemma keyed_delete m t r :
  keyed m → m !! rt_fire_id t = Some r → target_row r = t → delete (rt_fire_id t) m = retire [t] m.
Proof.
  intros Hk Hr Ht. apply map_eq. intros k. unfold retire. destruct (decide (k = rt_fire_id t)) as [->|Hne].
  - rewrite lookup_delete_eq. symmetry. apply map_lookup_filter_None. right. intros x Hx. cbn.
    rewrite Hr in Hx. injection Hx as <-. rewrite Ht. intros Hn. apply Hn. by left.
  - rewrite lookup_delete_ne by done. destruct (m !! k) as [x|] eqn:Hx; symmetry.
    + apply map_lookup_filter_Some. split; [done|]. cbn. intros Hxt%list_elem_of_singleton. apply Hne.
      rewrite <- (Hk k x Hx). by rewrite <- Hxt.
    + apply map_lookup_filter_None. by left.
Qed.
Lemma keyed_retire T m : keyed m → keyed (retire T m).
Proof. intros Hm k r [Hr _]%map_lookup_filter_Some. by apply Hm. Qed.

Lemma delete_targets_exact l w :
  keyed (fires (db w)) → NoDup l →
  (∀ t, t ∈ l → ∃ r, fires (db w) !! rt_fire_id t = Some r ∧ target_row r = t) →
  for_each delete_target l w = (Ok tt, with_db (set_fires (retire l)) w).
Proof.
  intros Hk Hnd. revert w Hk. induction Hnd as [|t l Ht _ IH]; intros w Hk Hl; cbn [for_each].
  - destruct w as [[]]. unfold with_db, set_fires. cbn. by rewrite retire_nil.
  - destruct (Hl t) as (r & Hr & Hrt); [by left|].
    assert (delete_target t w = (Ok tt, with_db (set_fires (retire [t])) w)) as Hdel.
    { unfold delete_target, get_fire, read, lift, modify, mbind, m_bind. cbn. rewrite Hr. cbn.
      rewrite bool_decide_true by (by rewrite <- Hrt). cbn. unfold with_db, set_fires. by rewrite (keyed_delete _ t r). }
    rewrite (bind_run _ _ _ _ _ Hdel), IH; cbn.
    + unfold with_db, set_fires. cbn. rewrite retire_retire. by rewrite (retire_ext (l ++ [t]) (t :: l)) by set_solver.
    + by apply keyed_retire.
    + intros t' Ht'. destruct (Hl t') as (r' & Hr' & Hrt'); [by right|]. exists r'. split; [|done].
      apply map_lookup_filter_Some. split; [done|]. cbn. rewrite Hrt'. intros ->%list_elem_of_singleton. done.
Qed.

(** The marker of the projection. *)
Lemma marker_current d : projection_state d !! "fires" = Some 1 → size (projection_state d) = 1%nat → projection_is_current d = true.
Proof. intros Hf Hs. unfold projection_is_current. by rewrite !bool_decide_true by done. Qed.
Lemma marker_stale d : projection_state d !! "fires" = Some 0 → projection_is_current d = false.
Proof. intros Hf. unfold projection_is_current. rewrite Hf, andb_false_iff. right. by apply bool_decide_false. Qed.
Lemma current_inv d :
  projection_is_current d = true → projection_state d !! "fires" = Some 1 ∧ size (projection_state d) = 1%nat.
Proof. unfold projection_is_current. rewrite andb_true_iff, !bool_decide_eq_true. naive_solver. Qed.

Record claimed_marker (w : World) : Prop := {
  claimed_fires : projection_state (db w) !! "fires" = Some 0;
  claimed_size : size (projection_state (db w)) = 1%nat;
}.
Lemma publish_claimed message w :
  claimed_marker w →
  publish_projection message w = (Ok tt, with_db (set_projection <["fires" := 1]>) w) ∧
  projection_is_current (set_projection <["fires" := 1]> (db w)) = true.
Proof.
  intros [Hf Hs]. split.
  - unfold publish_projection, read, lift, modify, mbind, m_bind. cbn. by rewrite bool_decide_true by done.
  - apply marker_current; cbn; [by rewrite lookup_insert_eq|]. by rewrite map_size_insert_Some by (by eexists).
Qed.
Lemma begin_retention_cases w :
  (∃ k, begin_fire_retention w = (Ok tt, set_kill k (with_db (set_projection <["fires" := 0]>) w)) ∧
        projection_is_current (db w) = true ∧ outbox (db w) = [] ∧ (kill w = None → k = None)) ∨
  (∃ e w', begin_fire_retention w = (Err e, w') ∧ quiet w w' ∧
           (projection_is_current (db w) = true → outbox (db w) = [] → is_Some (kill w))).
Proof.
  unfold begin_fire_retention. match goal with |- context [transaction ?m w] => set (o := m) end.
  assert ((o w).2 = w ∧ (∃ e, (o w).1 = Err e) ∧ (projection_is_current (db w) = true → outbox (db w) = [] → False) ∨
    o w = (Ok tt, with_db (set_projection <["fires" := 0]>) w) ∧ projection_is_current (db w) = true ∧ outbox (db w) = []) as Ho.
  { unfold o, fire_projection_is_current, pending_fire_outbox, read, lift, modify, mbind, m_bind. cbn.
    destruct (projection_is_current (db w)) eqn:Hc; cbn; [|left; split_and!; [done|by eexists|done]].
    destruct (outbox (db w)) as [|x rest]; cbn; [|left; split_and!; [done|by eexists|done]].
    rewrite bool_decide_true by (by apply current_inv). by right. }
  destruct (transaction_cases o w) as [(a & w1 & k & Hw & Ht & Hk)|(e & w1 & Ht & -> & Hw)];
    destruct Ho as [(Ho2 & [e' Ho1] & Hno)|(Ho & Hc & Hout)].
  - by rewrite Hw in Ho1.
  - rewrite Ho in Hw. injection Hw as <- <-. left. exists k. done.
  - right. eexists _, _. split; [exact Ht|]. rewrite Ho2. split; [by constructor|]. intros Hc Hout. by destruct (Hno Hc Hout).
  - right. rewrite Ho in Hw, Ht. cbn in Hw, Ht. destruct Hw as [|[-> Hk]]; [done|]. eexists _, _. split; [exact Ht|].
    split; [by constructor|done].
Qed.

(** The transaction that republishes the projection either installs the rows
    or changes nothing in the database. *)
Record republished (F : gmap string FireRecord) (w w' : World) : Prop := {
  republished_fires : fires (db w') = F;
  republished_outbox : outbox (db w') = outbox (db w);
  republished_journals : journals w' = journals w;
  republished_current : projection_is_current (db w') = true;
}.
Lemma transaction_publishes {A} (m : Op A) w F a :
  keeps same_files m → (∀ b w1, m w = (Ok b, w1) → b = a ∧ republished F w w1) →
  (∃ w1, transaction m w = (Ok a, w1) ∧ republished F w w1) ∨
  (∃ e w1, transaction m w = (Err e, w1) ∧ db w1 = db w ∧ journals w1 = journals w).
Proof.
  intros Hf Hm. specialize (Hf w).
  destruct (transaction_cases m w) as [(b & w1 & k & Hw & -> & _)|(e & w1 & -> & -> & _)].
  - left. destruct (Hm b w1 Hw) as [-> []]. eexists. split; [done|]. by constructor.
  - right. by eexists _, _.
Qed.
Lemma publish_after {A} (o : Op unit) message (n : A) w b w' :
  keeps quiet o → claimed_marker w → (o ;; publish_projection message ;; mret n) w = (Ok b, w') →
  b = n ∧ republished (fires (db w)) w w'.
Proof.
  intros Ho [Hf Hs] Hrun. apply bind_inv in Hrun as ([] & w1 & Hw1 & Hrun). specialize (Ho w). rewrite Hw1 in Ho.
  cbn in Ho. destruct Ho as [Hfires Hout Hj Hp]. destruct (publish_claimed message w1) as [Hpub Hcur]; [by constructor; rewrite Hp|].
  rewrite (bind_run _ _ _ _ _ Hpub) in Hrun. injection Hrun as <- <-. split; [done|]. by constructor.
Qed.
Lemma validate_targets_quiet l seen affected : keeps quiet (validate_targets seen affected l).
Proof. revert seen affected. induction l as [|t l IH]; intros seen affected; cbn; unfold get_fire, get_last_fire; keep. Qed.
#[local] Hint Resolve validate_targets_quiet quiet_files keeps_files_db : keeps.

Lemma finish_retention_cases w l :
  keyed (fires (db w)) → NoDup l → (∀ t, t ∈ l → removable (fires (db w)) t) → claimed_marker w →
  (∃ w1, finish_fire_retention l w = (Ok (Z.of_nat (length l)), w1) ∧ republished (retire l (fires (db w))) w w1) ∨
  (∃ e w1, finish_fire_retention l w = (Err e, w1) ∧ db w1 = db w ∧ journals w1 = journals w).
Proof.
  intros Hk Hnd Hl Hm. unfold finish_fire_retention. apply transaction_publishes.
  { unfold validate_fire_retention_targets. keep. }
  intros b w1 Hrun. unfold fire_projection_is_current in Hrun.
  rewrite (bind_run _ _ w (projection_is_current (db w)) w), marker_stale in Hrun by (done || apply Hm).
  rewrite (bind_run _ _ w tt w) in Hrun by done.
  destruct (validate_targets_exact w l [] [] Hk Hnd) as [affected Hval].
  { intros t Ht. split; [apply not_elem_of_nil|by apply Hl]. }
  rewrite (bind_run _ _ _ _ _ Hval) in Hrun.
  rewrite (bind_run _ _ _ _ _ (delete_targets_exact l w Hk Hnd (λ t Ht, let '(ex_intro _ r (conj Hr (conj Hrt _))) := Hl t Ht in ex_intro _ r (conj Hr Hrt)))) in Hrun.
  unfold timestamp_millis in Hrun. apply bind_inv in Hrun as (now & w2 & [= _ <-] & Hrun).
  apply publish_after in Hrun as [-> [? ? ? ?]]; [|keep|by constructor; apply Hm]. split; [done|]. by constructor.
Qed.
Lemma finish_purge_cases w id :
  claimed_marker w →
  (∃ n w1, finish_schedule_fire_purge id w = (Ok n, w1) ∧
           republished (filter (λ e, f_schedule_id e.2 ≠ id) (fires (db w))) w w1) ∨
  (∃ e w1, finish_schedule_fire_purge id w = (Err e, w1) ∧ db w1 = db w ∧ journals w1 = journals w).
Proof.
  intros Hm. unfold finish_schedule_fire_purge.
  match goal with |- context [transaction ?o w] =>
    destruct (transaction_publishes o w (filter (λ e, f_schedule_id e.2 ≠ id) (fires (db w)))
      (Z.of_nat (size (filter (λ e : string * FireRecord, f_schedule_id e.2 = id) (fires (db w)))))) as [(w1 & ? & ?)|?] end.
  - keep.
  - intros b w1 Hrun. unfold fire_projection_is_current in Hrun.
    rewrite (bind_run _ _ w (projection_is_current (db w)) w), marker_stale in Hrun by (done || apply Hm).
    rewrite (bind_run _ _ w tt w) in Hrun by done.
    apply bind_inv in Hrun as (n & w2 & [= <- <-] & Hrun). apply bind_inv in Hrun as ([] & w2 & [= <-] & Hrun).
    unfold timestamp_millis in Hrun. apply bind_inv in Hrun as (now & w2 & [= _ <-] & Hrun).
    apply publish_after in Hrun as [-> [? ? ? ?]]; [|keep|by constructor; apply Hm]. split; [done|]. by constructor.
  - left. by eexists _, _.
  - by right.
Qed.

(** ** The life of a table

    Every row of the first table has a successor in the second one, except
    the rows of purged schedules and, where retention ran, settled rows. *)
Definition follows (purged : string → Prop) (retained : bool) (m m' : gmap string FireRecord) : Prop :=
  ∀ fid p, m !! fid = Some p → ¬ purged (f_schedule_id p) →
  ∃ r, row_next p r ∧ (m' !! fid = Some r ∨ retained = true ∧ settled r).
#[export] Instance follows_preorder purged retained : PreOrder (follows purged retained).
Proof.
  split; [intros m fid p Hp _; exists p; split; [reflexivity|by left]|].
  intros m1 m2 m3 H12 H23 fid p Hp Hnot. destruct (H12 fid p Hp Hnot) as (r & Hr & [Hr'|?]); [|by exists r; auto].
  destruct (H23 fid r Hr') as (r2 & Hr2 & Hend).
  { destruct Hr as [(_ & Hs & _) _]. by rewrite Hs. }
  exists r2. split; [by transitivity r|done].
Qed.
Lemma evolve_follows purged retained m m' : evolve m m' → follows purged retained m m'.
Proof. intros He fid p Hp _. destruct (He fid p Hp) as (r & ? & ?). by exists r; auto. Qed.
Lemma shrinks_follows purged m m' : shrinks m m' → follows purged true m m'.
Proof. intros Hs fid p Hp _. exists p. split; [reflexivity|]. destruct (Hs fid p Hp); auto. Qed.
Lemma keeps_steps_follow purged retained {A} (o : Op A) : keeps steps o → keeps (advances (follows purged retained)) o.
Proof.
  intros Ho w m Hm. destruct (keeps_steps_advance o Ho w m Hm) as (m' & Hm' & He). exists m'. split; [done|].
  by apply evolve_follows.
Qed.

(** The rows a policy keeps. *)
Definition unexpired (policy : FireRetentionPolicy) (m : gmap string FireRecord) : gmap string FireRecord :=
  filter (λ e, ¬ expired policy (rows_of (f_schedule_id e.2) m) e.2) m.
Lemma retire_unexpired policy m T :
  keyed m → (∀ t, t ∈ T ↔ expired_target policy m t) → retire T m = unexpired policy m.
Proof.
  intros Hk HT. apply map_filter_ext. intros k r Hr. cbn. rewrite HT. unfold expired_target. cbn.
  rewrite (Hk k r Hr), Hr. naive_solver.
Qed.
Lemma retire_size T m :
  NoDup T → (∀ t, t ∈ T → ∃ r, m !! rt_fire_id t = Some r ∧ target_row r = t) → keyed m →
  (length T + size (retire T m) = size m)%nat.
Proof.
  intros Hnd. revert m. induction Hnd as [|t T Ht _ IH]; intros m HT Hk; [by rewrite retire_nil|].
  destruct (HT t) as (r & Hr & Hrt); [by left|].
  specialize (IH (retire [t] m)). rewrite retire_retire, (retire_ext (T ++ [t]) (t :: T)) in IH by set_solver.
  assert (size (retire [t] m) = size m - 1)%nat as Hsz.
  { rewrite <- (keyed_delete m t r), map_size_delete_Some by (done || by eexists). lia. }
  assert (size m ≠ 0%nat) as Hne by (intros Hz%map_size_empty_iff; by rewrite Hz in Hr).
  cbn. lapply IH; [intros IH'; specialize (IH' (keyed_retire _ _ Hk))|].
  - lia.
  - intros t' Ht'. destruct (HT t') as (r' & Hr' & Hrt'); [by right|]. exists r'. split; [|done].
    apply map_lookup_filter_Some. split; [done|]. cbn. rewrite Hrt'. intros ->%list_elem_of_singleton. done.
Qed.

Section maintenance.
Context `{RetentionContext} `{UnicodeTables} `{JsonText}.

Lemma claimed_table w m published : retired w m published → claimed_marker w → table w m.
Proof.
  intros Hr [Hf _]. exists published, [], EmptyString. apply retired_holds; [done|]. by rewrite marker_stale.
Qed.
Lemma republished_table F w w' published : retired w F published → republished F w w' → retired w' F published ∧ table w' F.
Proof.
  intros (Ho & Hr & Hj & Hi) [Hf Hout Hj' Hc].
  assert (retired w' F published) as Hw' by (unfold retired, journal in *; by rewrite Hout, Hj').
  split; [done|]. exists published, [], EmptyString. by apply retired_holds.
Qed.

(** The journals are swept and the projection is published; an interrupted
    run leaves the marker invalid and the journals complete. *)
Definition retention_attempt (policy : FireRetentionPolicy) : Op Z :=
  swept ← op_context "runtime-state purge failed"
    (ask purge_caches ;;
     sweep_fire_jsonl (Some policy) false {| deleted_fire_records := 0; freed_bytes := 0 |}) ;
  op_context "publish exact scheduler fire retention projection" (finish_fire_retention swept.2).
Record retention_done (policy : FireRetentionPolicy) (m : gmap string FireRecord) (n : Z) (w : World) : Prop := {
  done_fires : fires (db w) = unexpired policy m;
  done_count : n + Z.of_nat (size (unexpired policy m)) = Z.of_nat (size m);
  done_current : projection_is_current (db w) = true;
  done_retired : ∃ published, retired w (unexpired policy m) published;
}.
Lemma ask_run {A} (answer : nat → Result (list string) A) w :
  ask answer w = (map_err Error (answer (observations w)), observe w).
Proof. done. Qed.
Lemma attempt_cases policy w m published :
  retired w m published → claimed_marker w → fires (db w) = m →
  (∃ n w', retention_attempt policy w = (Ok n, w') ∧ retention_done policy m n w') ∨
  (∃ e w' m' published', retention_attempt policy w = (Err e, w') ∧ retired w' m' published' ∧ claimed_marker w' ∧
     shrinks m m').
Proof.
  intros Hr Hc Hf. pose proof (retired_keyed _ _ _ Hr) as Hk. unfold retention_attempt.
  destruct (purge_caches (observations w)) as [[]|chain] eqn:Hask.
  2: { right. do 4 eexists. split_and!; [|exact (Hr : retired (observe w) m published)|constructor; apply Hc|reflexivity].
       apply bind_err. unfold op_context. by rewrite (bind_err _ _ w (Error chain) (observe w)) by (by rewrite ask_run, Hask). }
  destruct (sweep_exact policy false m (observe w) published {| deleted_fire_records := 0; freed_bytes := 0 |} Hr)
    as [out w1 Hrun [Hdb _ _] _ (Hnd & Hsel & pub1 & Hr1)|w1 Hrun [Hdb _ Ht] _].
  2: { right. destruct (Ht m published Hr) as (m' & pub' & Hr' & Hs). exists Killed, w1, m', pub'.
       split_and!; [|done|by constructor; rewrite Hdb; apply Hc|done].
       apply bind_err. unfold op_context. by rewrite (bind_run _ _ w tt (observe w)), Hrun by (by rewrite ask_run, Hask). }
  rewrite (bind_run _ _ w out w1).
  2: { unfold op_context. by rewrite (bind_run _ _ w tt (observe w)), Hrun by (by rewrite ask_run, Hask). }
  assert (fires (db w1) = m) as Hf1 by (by rewrite Hdb). assert (claimed_marker w1) as Hc1 by (by constructor; rewrite Hdb; apply Hc).
  assert (∀ t, t ∈ out.2 → removable m t) as Hrem.
  { intros t Ht%Hsel. eapply expired_removable; [|done]. apply (replays_keyed _ _ _ (proj1 (proj2 Hr)) (map_Forall_empty _)). }
  rewrite <- Hf1 in Hk, Hrem. unfold op_context.
  destruct (finish_retention_cases w1 out.2 Hk Hnd Hrem Hc1) as [(w2 & -> & Hpub)|(e & w2 & -> & Hdb2 & Hj2)].
  - left. eexists _, w2. split; [done|]. rewrite Hf1 in *. pose proof (retire_unexpired policy m out.2 Hk Hsel) as Hun.
    rewrite Hun in *. destruct (republished_table _ _ _ _ Hr1 Hpub) as [Hr2 _].
    split; [apply Hpub| |apply Hpub|by eexists]. rewrite <- Hun. rewrite <- Nat2Z.inj_add, (retire_size out.2 m); [done..| |done].
    intros t (r & ? & ? & _)%Hrem. by exists r.
  - right. eexists (match e with Error chain => _ | e => e end), w2, _, pub1. split; [by destruct e|]. split_and!.
    + destruct Hr1 as (? & ? & ? & ?). unfold retired, journal in *. rewrite Hdb2, Hj2. done.
    + by constructor; rewrite Hdb2; apply Hc1.
    + rewrite Hf1 in *. apply retire_shrinks; [done|]. intros t r (r' & Hr' & _ & _ & ? & _)%Hrem Hrow _. congruence.
Qed.

(** Repair restores the projection of whatever the journals hold. *)
Lemma repair_keeps : keeps (advances eq) (repair_projection rebuild_fires_from_dir).
Proof.
  assert (∀ A (o : Op A), keeps quiet o → keeps (advances eq) o) as Hquiet.
  { intros A o Ho w m (pub & pend & tl & Hd). exists m. split; [|done]. eexists _, _, _. eapply holds_quiet; [apply Ho|done]. }
  unfold repair_projection. apply keeps_bind; [apply _| |intros []].
  - intros w m (pub & pend & tl & Hd). exists m. split; [|done]. eexists _, _, _. by apply rebuild_holds.
  - apply Hquiet. unfold list_specs. keep.
Qed.
Lemma or_repair_cases {A} (attempt : Op A) repair failed w a w' :
  (attempt w = (Ok a, w') → or_repair attempt repair failed w = (Ok a, w')) ∧
  (∀ e, attempt w = (Err e, w') → ∃ e' w'', or_repair attempt repair failed w = (Err e', w'') ∧ (w'' = w' ∨ w'' = (repair w').2)).
Proof.
  unfold or_repair. split; [by intros ->|]. intros e ->.
  destruct e; [|by do 2 eexists; eauto..]. destruct (repair w') as [[[]|[]] w'']; do 2 eexists; eauto.
Qed.

Definition retention_rest (policy : FireRetentionPolicy) : Op Z :=
  op_context "invalidate scheduler fire projection before journal retention" begin_fire_retention ;;
  or_repair (retention_attempt policy) (repair_projection rebuild_fires_from_runtime_directory)
    "; scheduler retention repair also failed: ".
Lemma retain_started policy w :
  retain_fires (Some policy) false w =
  ((_ ← op_context "drain scheduler fire outbox before retention" drain_fire_outbox ; mret tt) ;;
   retention_rest policy) w.
Proof. reflexivity. Qed.

Lemma begun_world w m k :
  table w m → projection_is_current (db w) = true → outbox (db w) = [] →
  let w' := set_kill k (with_db (set_projection <["fires" := 0]>) w) in
  claimed_marker w' ∧ fires (db w') = m ∧ ∃ published, retired w' m published.
Proof.
  intros (pub & pend & tl & Hd) Hc Ho w'. apply current_inv in Hc as Hm. destruct Hm as [Hf Hs]. split_and!.
  - constructor; cbn; [by rewrite lookup_insert_eq|]. by rewrite map_size_insert_Some by (by eexists).
  - by apply (holds_current _ _ _ _ _ Hd).
  - assert (pend = []) as -> by (rewrite (holds_outbox _ _ _ _ _ Hd) in Ho; by destruct pend).
    exists pub. by apply holds_retired in Hd.
Qed.
Lemma rest_cases policy w m :
  table w m →
  (∃ n w', retention_rest policy w = (Ok n, w') ∧ retention_done policy m n w') ∨
  (∃ e w' m', retention_rest policy w = (Err e, w') ∧ table w' m' ∧ shrinks m m').
Proof.
  intros Hw. unfold retention_rest.
  destruct (begin_retention_cases w) as [(k & Hb & Hc & Ho & _)|(e & w' & Hb & Hq & _)].
  2: { right. exists (match e with Error chain => Error ("invalidate scheduler fire projection before journal retention" :: chain) | e => e end), w', m.
       split; [apply bind_err; unfold op_context; rewrite Hb; by destruct e|]. split; [|reflexivity].
       destruct Hw as (pub & pend & tl & Hd). eexists _, _, _. by eapply holds_quiet. }
  destruct (begun_world w m k Hw Hc Ho) as (Hcl & Hf & pub & Hr).
  set (w1 := set_kill k (with_db (set_projection <["fires" := 0]>) w)) in *.
  rewrite (bind_run _ _ w tt w1) by (unfold op_context; by rewrite Hb).
  destruct (attempt_cases policy w1 m pub Hr Hcl Hf) as [(n & w2 & Ha & Hdone)|(e & w2 & m' & pub' & Ha & Hr2 & Hcl2 & Hs)].
  - left. exists n, w2. split; [by apply or_repair_cases|done].
  - right. apply (proj2 (or_repair_cases _ (repair_projection rebuild_fires_from_runtime_directory)
      "; scheduler retention repair also failed: " w1 0 w2)) in Ha as (e' & w3 & Ha & Hw3).
    exists e', w3, m'. split_and!; [done| |done]. pose proof (claimed_table _ _ _ Hr2 Hcl2) as Ht.
    destruct Hw3 as [->| ->]; [done|]. by destruct (repair_keeps w2 m' Ht) as (? & ? & <-).
Qed.
Lemma done_table policy m n w : retention_done policy m n w → table w (unexpired policy m).
Proof. intros [Hf _ _ [pub Hr]]. exists pub, [], EmptyString. by apply retired_holds. Qed.
Lemma unexpired_shrinks policy m : shrinks m (unexpired policy m).
Proof.
  intros k r Hk. destruct (decide (expired policy (rows_of (f_schedule_id r) m) r)) as [Hx|Hx].
  - right. by apply expired_settled in Hx as [? _].
  - left. by apply map_lookup_filter_Some.
Qed.

(** A dry run writes nothing. *)
Lemma sweep_dry_quiet policy result : keeps quiet (sweep_fire_jsonl policy true result).
Proof.
  unfold sweep_fire_jsonl, sweep_one_fires_file. destruct policy; keep.
Qed.
Lemma ask_quiet {A} (answer : nat → Result (list string) A) : keeps quiet (ask answer).
Proof. unfold ask. keep. Qed.
#[local] Hint Resolve sweep_dry_quiet ask_quiet : keeps.
Lemma retain_dry_quiet policy : keeps quiet (retain_fires policy true).
Proof.
  unfold retain_fires, pending_fire_outbox, verify_fire_retention_targets, validate_fire_retention_targets.
  rewrite andb_false_r. keep.
Qed.
Lemma retain_none_quiet : keeps quiet (retain_fires None false).
Proof. unfold retain_fires, sweep_fire_jsonl. cbn. keep. Qed.

Lemma retain_follows policy dry_run purged : keeps (advances (follows purged true)) (retain_fires policy dry_run).
Proof.
  destruct dry_run; [apply keeps_steps_follow, keeps_quiet_steps, retain_dry_quiet|].
  destruct policy as [policy|]; [|apply keeps_steps_follow, keeps_quiet_steps, retain_none_quiet].
  intros w. rewrite retain_started. revert w. apply keeps_bind; [apply _| |intros []].
  - apply keeps_steps_follow. keep.
  - intros w m Hm. destruct (rest_cases policy w m Hm) as [(n & w' & -> & Hdone)|(e & w' & m' & -> & Hm' & Hs)].
    + exists (unexpired policy m). split; [by eapply done_table|]. apply shrinks_follows, unexpired_shrinks.
    + exists m'. split; [done|]. by apply shrinks_follows.
Qed.

(** Purging a schedule removes its journal and its rows. *)
Definition without (id : string) (m : gmap string FireRecord) : gmap string FireRecord :=
  filter (λ e : string * FireRecord, f_schedule_id e.2 ≠ id) m.
Lemma purge_retired w m published id k :
  retired w m published →
  ∃ published', retired (set_journals (delete id) (set_kill k w)) (without id m) published'.
Proof.
  intros (Ho & Hr & Hj & Hi). exists (filter (λ r, f_schedule_id r ≠ id) published). split_and!; [done| | |].
  - apply (replays_filter (λ r, f_schedule_id r ≠ id)) in Hr; [by rewrite map_filter_empty in Hr|].
    intros r p (_ & _ & [Hid _])%transition_inv. naive_solver congruence.
  - intros id'. specialize (Hj id'). unfold journal, journal_text, of_schedule in *. cbn. rewrite list_filter_filter.
    destruct (decide (id' = id)) as [->|Hne].
    + rewrite lookup_delete_eq, filter_none; [done|]. apply Forall_true. naive_solver.
    + rewrite lookup_delete_ne, Hj by done. do 2 f_equal. apply list_filter_iff. naive_solver.
  - intros id'. cbn. destruct (decide (id' = id)) as [->|Hne]; [rewrite lookup_delete_eq; by intros []|].
    rewrite lookup_delete_ne by done. apply Hi.
Qed.
Lemma without_follows id retained m : follows (λ x, x = id) retained m (without id m).
Proof.
  intros fid p Hp Hne. exists p. split; [reflexivity|]. left. by apply map_lookup_filter_Some.
Qed.
Definition purge_attempt (id : string) : Op unit :=
  checkpoint ;; modify (set_journals (delete id)) ;; _ ← finish_schedule_fire_purge id ; mret tt.
Lemma purge_cases w m published id :
  retired w m published → claimed_marker w → fires (db w) = m →
  ∃ m', table (purge_attempt id w).2 m' ∧ (m' = m ∨ m' = without id m).
Proof.
  intros Hr Hc Hf. unfold purge_attempt. destruct (checkpoint_cases w) as [(k & Hk & _)|[Hk _]].
  2: { rewrite (bind_err _ _ _ _ _ Hk). exists m. split; [by eapply claimed_table|by left]. }
  rewrite (bind_run _ _ _ _ _ Hk). destruct (purge_retired w m published id k Hr) as [pub Hr'].
  set (w1 := set_journals (delete id) (set_kill k w)) in *.
  rewrite (bind_run _ _ _ tt w1) by done. exists (without id m). split; [|by right].
  destruct (finish_purge_cases w1 id) as [(n & w2 & Hrun & Hp)|(e & w2 & Hrun & Hdb & Hj)]; [constructor; apply Hc|..].
  - rewrite (bind_run _ _ _ _ _ Hrun). cbn. change (fires (db w1)) with (fires (db w)) in Hp. rewrite Hf in Hp.
    by eapply republished_table.
  - rewrite (bind_err _ _ _ _ _ Hrun). cbn. apply (claimed_table _ _ pub); [|constructor; rewrite Hdb; apply Hc].
    unfold retired, journal in *. by rewrite Hdb, Hj.
Qed.
Lemma internal_world {A} (o : Op A) w : (internal o w).2 = (o w).2.
Proof. unfold internal. by destruct (o w) as [[|[]] ?]. Qed.
Lemma keeps_internal {A} (R : World → World → Prop) (o : Op A) : keeps R o → keeps R (internal o).
Proof. intros Ho w. rewrite internal_world. apply Ho. Qed.
Lemma or_repair_world {A} (attempt : Op A) repair failed w :
  (or_repair attempt repair failed w).2 = (attempt w).2 ∨
  (or_repair attempt repair failed w).2 = (repair (attempt w).2).2.
Proof.
  unfold or_repair. destruct (attempt w) as [[a|e] w']; [by left|]. destruct e; [|by left..].
  cbn. destruct (repair w') as [[|[]] ?]; by right.
Qed.
Lemma purge_follows id retained : keeps (advances (follows (λ x, x = id) retained)) (purge_history id).
Proof.
  unfold purge_history. apply keeps_bind; [apply _| |intros n].
  { apply keeps_steps_follow, keeps_internal, drain_steps. }
  intros w m Hm. destruct (begin_retention_cases w) as [(k & Hb & Hc & Ho & _)|(e & w' & Hb & Hq & _)].
  2: { exists m. split; [|reflexivity]. unfold internal. rewrite (bind_err _ _ _ (match e with Error c => Error (take 1 c) | e => e end) w').
       - destruct Hm as (pub & pend & tl & Hd). eexists _, _, _. by eapply holds_quiet.
       - rewrite Hb. by destruct e. }
  destruct (begun_world w m k Hm Hc Ho) as (Hcl & Hf & pub & Hr).
  set (w1 := set_kill k (with_db (set_projection <["fires" := 0]>) w)) in *.
  rewrite (bind_run _ _ w tt w1) by (unfold internal; by rewrite Hb).
  destruct (purge_cases w1 m pub id Hr Hcl Hf) as (m' & Ht & Hm').
  exists m'. split; [|destruct Hm' as [->| ->]; [reflexivity|apply without_follows]].
  rewrite internal_world. fold (purge_attempt id).
  destruct (or_repair_world (purge_attempt id) (repair_projection rebuild_fires_from_dir)
    "; scheduler fire projection repair failed: " w1) as [Hw|Hw]; [by rewrite Hw|].
  rewrite Hw. by destruct (repair_keeps _ m' Ht) as (? & ? & <-).
Qed.

Lemma keeps_specs f : keeps quiet (modify (with_db (set_specs f))).
Proof. intros w. by constructor. Qed.
#[local] Hint Resolve keeps_specs keeps_internal : keeps.
Lemma upsert_spec_quiet spec : keeps quiet (upsert_spec spec).
Proof. unfold upsert_spec. keep. Qed.
Lemma delete_spec_quiet id : keeps quiet (delete_spec id).
Proof. unfold delete_spec. keep. apply keeps_transaction_quiet. keep. Qed.
#[local] Hint Resolve upsert_spec_quiet delete_spec_quiet : keeps.
Lemma follows_mono (purged purged' : string → Prop) (retained retained' : bool) m m' :
  (∀ id, purged id → purged' id) → (retained = true → retained' = true) →
  follows purged retained m m' → follows purged' retained' m m'.
Proof. intros Hp Hr Hf fid p Hm Hn. destruct (Hf fid p Hm) as (r & ? & ?); [auto|]. exists r. naive_solver. Qed.

Lemma deregister_follows id purge retained :
  keeps (advances (follows (λ x, purge = true ∧ x = id) retained)) (deregister id purge).
Proof.
  assert (∀ A (o : Op A), keeps quiet o → keeps (advances (follows (λ x, purge = true ∧ x = id) retained)) o) as Hq.
  { intros A o Ho. by apply keeps_steps_follow, keeps_quiet_steps. }
  unfold deregister, get_spec.
  do 6 (apply keeps_bind; [apply _|apply Hq; keep|intros ?]).
  apply keeps_bind; [apply _|apply Hq; keep|intros ?]. apply keeps_bind; [apply _| |intros ?].
  - destruct purge; [|apply Hq; keep]. intros w m Hm. destruct (purge_follows id retained w m Hm) as (m' & Hm' & Hf).
    exists m'. split; [done|]. eapply follows_mono; [| |exact Hf]; auto.
  - apply Hq. keep.
Qed.

(** ** Retention completes

    It does so when the caches could be purged and every schedule has a next
    fire time after its last fire. *)
Definition plannable (w : World) : Prop :=
  ∀ id spec n, specs (db w) !! id = Some spec →
  ∃ plan, plan_schedule spec (last_fire_of w id) (clock n) = Ok plan.

Lemma no_last_fire w id r : last_fire_of w id = None → fires (db w) !! f_fire_id r = Some r → f_schedule_id r ≠ id.
Proof.
  unfold last_fire_of, latest_row. intros Hl Hr Hs.
  destruct (filter (λ r, f_schedule_id r = id) (rows w)) as [|x l] eqn:Hf; [|cbn in Hl; by destruct (foldr _ _ l)].
  assert (r ∈ filter (λ r, f_schedule_id r = id) (rows w)) as Hin; [|rewrite Hf in Hin; by apply not_elem_of_nil in Hin].
  apply list_elem_of_filter. split; [done|]. apply list_elem_of_fmap. exists (f_fire_id r, r). split; [done|].
  by apply elem_of_map_to_list.
Qed.
Lemma last_fire_iff w id r :
  keyed (fires (db w)) →
  last_fire_of w id = Some r ↔
  fires (db w) !! f_fire_id r = Some r ∧ f_schedule_id r = id ∧ newest (rows_of id (fires (db w))) r.
Proof.
  intros Hk. split.
  - intros Hl. pose proof (last_fire_newest w id r Hk Hl) as [Hr Hn]. split_and!; [done| |done].
    apply latest_row_max in Hl as [[? _]%list_elem_of_filter _]. done.
  - intros (Hr & Hs & Hn). destruct (last_fire_of w id) as [r'|] eqn:Hl.
    + pose proof (last_fire_newest w id r' Hk Hl) as [Hr' Hn'].
      assert (f_schedule_id r' = id) as Hs' by (by apply latest_row_max in Hl as [[? _]%list_elem_of_filter _]).
      f_equal. destruct (Hn (f_fire_id r') r') as [->|Hlt]; [by apply map_lookup_filter_Some|done|].
      destruct (Hn' (f_fire_id r) r) as [->|Hlt']; [by apply map_lookup_filter_Some|done|].
      by destruct (rank_lt_irrefl _ (rank_trans _ _ _ Hlt Hlt')).
    + by destruct (no_last_fire w id r Hl Hr).
Qed.
(** Retiring fires does not change the last fire of a schedule. *)
Lemma last_fire_retire w w' T id :
  keyed (fires (db w)) → (∀ t, t ∈ T → removable (fires (db w)) t) → fires (db w') = retire T (fires (db w)) →
  last_fire_of w' id = last_fire_of w id.
Proof.
  intros Hk HT Hf. assert (keyed (fires (db w'))) as Hk' by (rewrite Hf; by apply keyed_retire).
  assert (∀ r, last_fire_of w id = Some r → last_fire_of w' id = Some r) as Hsome.
  { intros r (Hr & Hs & Hn)%(last_fire_iff w id r Hk). apply (last_fire_iff w' id r Hk'). rewrite Hf. split_and!; [|done|].
    - apply map_lookup_filter_Some. split; [done|]. cbn. intros (r' & Hr' & _ & _ & _ & Hn')%HT. cbn in *. naive_solver congruence.
    - intros k x [[Hx _]%map_lookup_filter_Some Hxs]%map_lookup_filter_Some. apply (Hn k x). by apply map_lookup_filter_Some. }
  destruct (last_fire_of w id) as [r|] eqn:Hl; [by apply Hsome|].
  destruct (last_fire_of w' id) as [r|] eqn:Hl'; [|done]. exfalso.
  apply (last_fire_iff w' id r Hk') in Hl' as (Hr & Hs & _). rewrite Hf in Hr. apply map_lookup_filter_Some in Hr as [Hr _].
  by destruct (no_last_fire w id r Hl Hr).
Qed.

Lemma refresh_total (S : gmap string ScheduleSpecRecord) F now l w :
  specs (db w) = S → fires (db w) = F → kill w = None →
  (∀ id spec, S !! id = Some spec → ∃ plan, plan_schedule spec (last_fire_of w id) now = Ok plan) →
  ∃ w', for_each (λ id, op_context ("refresh cursor after retaining " +:+ id)
                          (refresh_cursor_for_schedule_conn id now)) l w = (Ok tt, w') ∧ kill w' = None.
Proof.
  revert w. induction l as [|id l IH]; intros w HS HF Hk Hplan; [by eexists|]. cbn [for_each].
  assert (∃ f, refresh_cursor_for_schedule_conn id now w = (Ok tt, with_db (set_cursors f) w)) as [f Hf].
  { unfold refresh_cursor_for_schedule_conn, get_spec. rewrite (bind_run _ _ w (specs (db w) !! id) w) by done.
    destruct (specs (db w) !! id) as [spec|] eqn:Hs; [|by eexists]. rewrite HS in Hs.
    destruct (Hplan id spec Hs) as [plan Hp]. unfold get_last_fire. rewrite (bind_run _ _ w (last_fire_of w id) w) by done.
    rewrite (bind_run _ _ w plan w) by (unfold lift; by rewrite Hp). by eexists. }
  rewrite (bind_run _ _ _ tt (with_db (set_cursors f) w)) by (unfold op_context; by rewrite Hf). by apply IH.
Qed.
Lemma finish_retention_total w l :
  keyed (fires (db w)) → NoDup l → (∀ t, t ∈ l → removable (fires (db w)) t) → claimed_marker w →
  kill w = None → plannable w → ∃ n w', finish_fire_retention l w = (Ok n, w').
Proof.
  intros Hk Hnd Hl Hm Hkill Hplan. unfold finish_fire_retention.
  destruct (validate_targets_exact w l [] [] Hk Hnd) as [affected Hval].
  { intros t Ht. split; [apply not_elem_of_nil|by apply Hl]. }
  assert (for_each delete_target l w = (Ok tt, with_db (set_fires (retire l)) w)) as Hdel.
  { apply delete_targets_exact; [done..|]. intros t (r & ? & ? & _)%Hl. by exists r. }
  set (w1 := with_db (set_fires (retire l)) w) in *.
  destruct (refresh_total (specs (db w1)) (fires (db w1)) (clock (observations w1)) affected (observe w1)) as (w2 & Hrun & Hk2); [done..| |].
  { intros id spec Hs. destruct (Hplan id spec (observations w1) Hs) as [plan Hp]. exists plan.
    by rewrite (last_fire_retire w _ l). }
  assert (keeps quiet (for_each (λ id, op_context ("refresh cursor after retaining " +:+ id)
      (refresh_cursor_for_schedule_conn id (clock (observations w1)))) affected)) as Hq by keep.
  specialize (Hq (observe w1)). rewrite Hrun in Hq. cbn in Hq.
  destruct (publish_claimed "scheduler fire retention marker disappeared before publication" w2) as [Hpub _].
  { constructor; rewrite (quiet_projection _ _ Hq); apply Hm. }
  eexists _, (with_db (set_projection <["fires" := 1]>) w2). apply transaction_run; [|exact Hk2].
  unfold fire_projection_is_current.
  rewrite (bind_run _ _ w (projection_is_current (db w)) w), marker_stale by (done || apply Hm).
  rewrite (bind_run _ _ w tt w) by done. unfold validate_fire_retention_targets.
  rewrite (bind_run _ _ _ _ _ Hval), (bind_run _ _ _ _ _ Hdel).
  rewrite (bind_run _ _ w1 (clock (observations w1)) (observe w1)) by done.
  rewrite (bind_run _ _ _ _ _ Hrun), (bind_run _ _ _ _ _ Hpub). reflexivity.
Qed.

Lemma drain_specs : keeps (λ w w', specs (db w') = specs (db w)) drain_fire_outbox.
Proof. by apply (drain_field (λ w, specs (db w))). Qed.

Lemma attempt_total policy w m published :
  retired w m published → claimed_marker w → fires (db w) = m → kill w = None → plannable w →
  (∀ n, purge_caches n = Ok tt) → ∃ n w', retention_attempt policy w = (Ok n, w').
Proof.
  intros Hr Hc Hf Hkill Hplan Hask. pose proof (retired_keyed _ _ _ Hr) as Hk. unfold retention_attempt.
  destruct (sweep_exact policy false m (observe w) published {| deleted_fire_records := 0; freed_bytes := 0 |} Hr)
    as [out w1 Hrun [Hdb _ _] Hk1 (Hnd & Hsel & _)|w1 Hrun _ Hk1]; cbn in Hk1; [|rewrite Hkill in Hk1; by destruct Hk1].
  change (db (observe w)) with (db w) in Hdb.
  rewrite (bind_run _ _ w out w1)
    by (unfold op_context; by rewrite (bind_run _ _ w tt (observe w)), Hrun by (by rewrite ask_run, Hask)).
  destruct (finish_retention_total w1 out.2) as (n & w2 & Hfin); [by rewrite Hdb, Hf|done| |by constructor; rewrite Hdb; apply Hc|auto| |].
  - rewrite Hdb, Hf. intros t Ht%Hsel. eapply expired_removable; [|done].
    apply (replays_keyed _ _ _ (proj1 (proj2 Hr)) (map_Forall_empty _)).
  - intros id spec n Hs. rewrite Hdb in Hs. destruct (Hplan id spec n Hs) as [plan Hp]. exists plan.
    unfold last_fire_of, rows in *. by rewrite Hdb.
  - exists n, w2. unfold op_context. by rewrite Hfin.
Qed.

(** C35. Retention retires what its policy says and nothing else: a run on a
    published table removes exactly the expired fires (those that are
    terminal, not the newest of their schedule, and past the cutoff or beyond
    the count), from the journals and from the table alike, counts them, and
    publishes the table again with nothing left to drain. *)
Theorem retention_exact policy w m :
  table w m → projection_is_current (db w) = true → kill w = None → plannable w →
  (∀ n, purge_caches n = Ok tt) →
  ∃ n w', retain_fires (Some policy) false w = (Ok n, w') ∧ retention_done policy m n w'.
Proof.
  intros (pub & pend & tl & Hd) Hcur Hkill Hplan Hask. rewrite retain_started.
  destruct (drain_total w m pub pend tl Hd Hkill) as (w1 & pub1 & Hdrain & Hd1 & Hk1 & Hf1 & Hp1).
  pose proof (drain_specs w) as Hs1. rewrite Hdrain in Hs1. cbn in Hs1.
  assert (projection_is_current (db w1) = true) as Hcur1 by (unfold projection_is_current in *; by rewrite Hp1).
  assert (table w1 m) as Ht1 by (by eexists _, _, _).
  rewrite (bind_run _ _ w tt w1) by (unfold op_context, mbind, m_bind; by rewrite Hdrain).
  destruct (rest_cases policy w1 m Ht1) as [?|(e & w' & m' & Hrun & _ & _)]; [done|]. exfalso. revert Hrun. unfold retention_rest.
  destruct (begin_retention_cases w1) as [(k & Hb & _ & Ho & Hk)|(e' & w2 & Hb & _ & Hno)].
  2: { destruct Hno as [? Hno]; [done|apply (holds_outbox _ _ _ _ _ Hd1)|congruence]. }
  destruct (begun_world w1 m k Ht1 Hcur1 Ho) as (Hcl & Hf & pub2 & Hr).
  set (w2 := set_kill k (with_db (set_projection <["fires" := 0]>) w1)) in *.
  rewrite (bind_run _ _ w1 tt w2) by (unfold op_context; by rewrite Hb).
  destruct (attempt_total policy w2 m pub2 Hr Hcl Hf) as (n & w3 & Ha); [by apply Hk| |done|].
  - intros id spec n Hs. cbn in Hs. rewrite Hs1 in Hs. destruct (Hplan id spec n Hs) as [plan Hp]. exists plan.
    unfold last_fire_of, rows in *. cbn. by rewrite Hf1.
  - rewrite (proj1 (or_repair_cases _ _ _ _ _ _) Ha). done.
Qed.

(** A dry run predicts the run: it changes nothing and counts exactly the
    fires the run would remove. *)
Theorem retention_dry_run policy w m :
  table w m → projection_is_current (db w) = true → outbox (db w) = [] → kill w = None →
  (∀ n, purge_caches n = Ok tt) →
  retain_fires (Some policy) true w =
    (Ok (Z.of_nat (size m) - Z.of_nat (size (unexpired policy m))), observe w).
Proof.
  intros (pub & pend & tl & Hd) Hcur Ho Hkill Hask.
  assert (pend = []) as -> by (rewrite (holds_outbox _ _ _ _ _ Hd) in Ho; by destruct pend).
  apply holds_retired in Hd as Hr. pose proof (retired_keyed _ _ _ Hr) as Hk.
  pose proof (holds_current _ _ _ _ _ Hd Hcur) as Hf.
  destruct (sweep_exact policy true m (observe w) pub {| deleted_fire_records := 0; freed_bytes := 0 |} Hr)
    as [out w1 Hrun _ _ (Hnd & Hsel & ->)|w1 Hrun _ Hk1]; [|cbn in Hk1; rewrite Hkill in Hk1; by destruct Hk1].
  assert (∀ t, t ∈ out.2 → removable m t) as Hrem.
  { intros t Ht%Hsel. eapply expired_removable; [|done].
    apply (replays_keyed _ _ _ (proj1 (proj2 Hr)) (map_Forall_empty _)). }
  assert (bool_decide (is_Some (Some policy)) = true) as Hsome by done.
  unfold retain_fires. rewrite Hsome. cbn [negb andb]. rewrite (bind_run _ _ w tt w).
  2: { unfold pending_fire_outbox, read, lift, mbind, m_bind. by rewrite Ho. }
  rewrite (bind_run _ _ w tt w) by done.
  rewrite (bind_run _ _ w out (observe w))
    by (unfold op_context; by rewrite (bind_run _ _ w tt (observe w)), Hrun by (by rewrite ask_run, Hask)).
  destruct (validate_targets_exact (observe w) out.2 [] []) as [affected Hval]; [cbn; by rewrite Hf|done| |].
  { intros t Ht. split; [apply not_elem_of_nil|]. cbn. rewrite Hf. by apply Hrem. }
  rewrite (bind_run _ _ _ tt (observe w)).
  2: { unfold op_context, verify_fire_retention_targets, validate_fire_retention_targets, fire_projection_is_current, pending_fire_outbox.
       unfold read, lift, mbind, m_bind. cbn. rewrite Hcur, Ho. cbn. by rewrite Hval. }
  rewrite <- (retire_unexpired policy m out.2) by done.
  rewrite <- (retire_size out.2 m); [|done| |done].
  - unfold mret, m_ret. do 2 f_equal. lia.
  - intros t (r & ? & ? & _)%Hrem. by exists r.
Qed.

(** How much a policy keeps. *)
Lemma filter_from {A} (P : A → Prop) `{∀ x, Decision (P x)} (l : list A) (c : nat) :
  (∀ i x, l !! i = Some x → P x ↔ (c ≤ i)%nat) → filter P l = drop c l.
Proof.
  revert c. induction l as [|x l IH]; intros c HP; [by rewrite drop_nil|]. rewrite filter_cons.
  pose proof (HP 0%nat x eq_refl) as Hx. destruct c as [|c].
  - rewrite decide_True by (apply Hx; lia). rewrite (IH 0%nat), drop_0; [done|].
    intros i y Hy. rewrite (HP (S i) y Hy). lia.
  - rewrite decide_False by (rewrite Hx; lia). cbn. apply IH. intros i y Hy. rewrite (HP (S i) y Hy). lia.
Qed.
Lemma young_count (l : list FireRecord) (c : nat) :
  NoDup (f_fire_id <$> l) →
  length (filter (λ r, (c ≤ length (filter (λ y, rank_cmp (row_age y) (row_age r) = Lt) l))%nat) l) = (length l - c)%nat.
Proof.
  intros Hnd. set (s := sort_groups ((λ r, group_of r 0 0) <$> l)).
  assert (StronglySorted (λ a b, rank_cmp (row_age a) (row_age b) = Lt) (g_latest <$> s)) as Hs.
  { assert (Forall (λ g, group_age g = row_age (g_latest g)) s) as Hage.
    { unfold s. rewrite sort_groups_perm. by apply Forall_fmap, Forall_true. }
    assert (StronglySorted (λ a b, rank_cmp (group_age a) (group_age b) = Lt) s) as Hs
      by (apply sort_groups_sorted; by rewrite <- list_fmap_compose).
    clearbody s. induction Hs as [|g s Hs IH Hg]; [constructor|]. apply Forall_cons in Hage as [Hgg Hage]. cbn. constructor; [auto|].
    apply Forall_fmap, Forall_forall. intros h Hh. rewrite Forall_forall in Hg, Hage. cbn. rewrite <- Hgg, <- Hage by done. by apply Hg. }
  assert (l ≡ₚ g_latest <$> s) as Hp.
  { unfold s. rewrite sort_groups_perm, <- list_fmap_compose. by rewrite list_fmap_id. }
  clearbody s. rewrite (filter_ext_elem _ (λ r, (c ≤ length (filter (λ y, rank_cmp (row_age y) (row_age r) = Lt) (g_latest <$> s)))%nat)).
  2: { intros r _. by rewrite <- Hp. }
  rewrite Hp. rewrite (filter_from _ _ c), length_drop; [done|].
  intros i x Hx. by rewrite (sorted_position row_age _ i x Hs Hx).
Qed.

Definition kept_settled (policy : FireRetentionPolicy) (R : gmap string FireRecord) : list FireRecord :=
  filter (λ r, settled r ∧ ¬ expired policy R r) (snd <$> map_to_list R).
Lemma rows_nodup R : keyed R → NoDup (f_fire_id <$> (snd <$> map_to_list R)).
Proof.
  intros HR. rewrite <- list_fmap_compose.
  replace (f_fire_id ∘ snd <$> map_to_list R) with ((map_to_list R).*1); [apply NoDup_fst_map_to_list|].
  apply list_fmap_ext. intros i [k r] Hi%list_elem_of_lookup_2%elem_of_map_to_list. cbn. by rewrite (HR _ _ Hi).
Qed.
Lemma newest_few R (l : list FireRecord) :
  NoDup l → (∀ r, r ∈ l → newest R r ∧ R !! f_fire_id r = Some r) → (length l ≤ 1)%nat.
Proof.
  intros Hnd Hl. destruct l as [|a [|b l]]; cbn; [lia..|]. exfalso. apply NoDup_cons in Hnd as [Ha _]. apply Ha.
  destruct (Hl a) as [Hna Hra]; [set_solver|]. destruct (Hl b) as [Hnb Hrb]; [set_solver|].
  destruct (Hna _ _ Hrb) as [->|Hba]; [by left|]. destruct (Hnb _ _ Hra) as [->|Hab]; [by left|].
  by destruct (rank_lt_irrefl _ (rank_trans _ _ _ Hab Hba)).
Qed.
Lemma kept_bound policy R bound :
  keyed R → max_count policy = Some bound →
  Z.of_nat (length (kept_settled policy R)) ≤ Z.max bound 1.
Proof.
  intros HR Hmax. set (S := survivors policy R).
  assert (NoDup (f_fire_id <$> S)) as Hnd by (apply NoDup_fmap_filter, rows_nodup, HR).
  set (O := filter (λ r, ¬ newest R r) S). set (N := filter (newest R) S).
  set (c := Z.to_nat (Z.of_nat (length S) - bound)).
  assert (kept_settled policy R = filter (λ r, ¬ surplus policy R r) S) as ->.
  { unfold kept_settled, S, survivors. rewrite list_filter_filter. apply list_filter_iff. intros r. unfold expired. tauto. }
  assert (S ≡ₚ N ++ O) as HS by (symmetry; apply filter_app_complement).
  assert (length S = length N + length O)%nat as Hlen by (by rewrite HS, length_app).
  assert (length N ≤ 1)%nat as HN.
  { apply (newest_few R); [by apply NoDup_filter, (NoDup_fmap_1 f_fire_id)|]. intros r [Hn Hr]%list_elem_of_filter. split; [done|].
    apply list_elem_of_filter in Hr as [_ ([k x] & -> & Hx%elem_of_map_to_list)%list_elem_of_fmap]. cbn in *. by rewrite (HR _ _ Hx). }
  assert (length (filter (λ r, ¬ surplus policy R r) O) = length O - c)%nat as HO.
  { rewrite <- (young_count O c) by (by apply NoDup_fmap_filter). f_equal. apply filter_ext_elem.
    intros r [Hn [[Hset Hout] _]%list_elem_of_filter]%list_elem_of_filter. unfold surplus. rewrite Hmax.
    assert (elders policy R r = filter (λ y, rank_cmp (row_age y) (row_age r) = Lt) O) as ->.
    { unfold elders, O, S. rewrite list_filter_filter. apply list_filter_iff. tauto. }
    fold S. split; [intros Hns|intros Hc (_ & _ & _ & Hlt)]; [|lia].
    destruct (decide (bound + Z.of_nat (length (filter (λ y, rank_cmp (row_age y) (row_age r) = Lt) O)) < Z.of_nat (length S)));
      [by destruct Hns|lia]. }
  assert (length (filter (λ r, ¬ surplus policy R r) S) ≤ length N + (length O - c))%nat.
  { rewrite HS at 1. rewrite filter_app, length_app, HO. apply Nat.add_le_mono_r, length_filter. }
  lia.
Qed.

Lemma retain_ok policy w m n w' :
  table w m → kill w = None → retain_fires (Some policy) false w = (Ok n, w') → retention_done policy m n w'.
Proof.
  intros (pub & pend & tl & Hd) Hkill. rewrite retain_started.
  destruct (drain_total w m pub pend tl Hd Hkill) as (w1 & pub1 & Hdrain & Hd1 & _).
  rewrite (bind_run _ _ w tt w1) by (unfold op_context, mbind, m_bind; by rewrite Hdrain).
  destruct (rest_cases policy w1 m) as [(n' & w2 & -> & Hdone)|(e & w2 & m' & -> & _)]; [by eexists _, _, _| |done].
  by intros [= <- <-].
Qed.
Lemma rows_of_lookup id m k r : rows_of id m !! k = Some r ↔ m !! k = Some r ∧ f_schedule_id r = id.
Proof. apply map_lookup_filter_Some. Qed.
Lemma rows_unexpired policy m id k r :
  rows_of id (unexpired policy m) !! k = Some r ↔ rows_of id m !! k = Some r ∧ ¬ expired policy (rows_of id m) r.
Proof. unfold unexpired. rewrite !rows_of_lookup, map_lookup_filter_Some. cbn. naive_solver. Qed.
Lemma kept_size policy m id :
  size (filter (λ e, settled e.2) (rows_of id (unexpired policy m))) = length (kept_settled policy (rows_of id m)).
Proof.
  assert (filter (λ e, settled e.2) (rows_of id (unexpired policy m)) =
          filter (λ e, settled e.2 ∧ ¬ expired policy (rows_of id m) e.2) (rows_of id m)) as ->.
  { apply map_eq. intros k. apply option_eq. intros r. rewrite !map_lookup_filter_Some, rows_unexpired. cbn. tauto. }
  rewrite map_filter_alt, map_size_list_to_map by apply NoDup_fmap_filter, NoDup_fst_map_to_list.
  unfold kept_settled. induction (map_to_list (rows_of id m)) as [|[k r] l IH]; [done|]. cbn [fmap list_fmap]. rewrite !filter_cons. cbn [snd].
  case_decide; cbn; by rewrite IH.
Qed.

(** What retention leaves of every schedule: all fires that are not
    settled and the newest one, no other settled fire from before the cutoff,
    and no more settled fires than the policy allows (but the newest). *)
Theorem retention_bounds policy w m n w' id :
  table w m → kill w = None → retain_fires (Some policy) false w = (Ok n, w') →
  let before := rows_of id m in
  let after := rows_of id (fires (db w')) in
  (∀ fid r, before !! fid = Some r → ¬ settled r ∨ newest before r → after !! fid = Some r) ∧
  (∀ fid r cutoff, after !! fid = Some r → settled r → cutoff_ms policy = Some cutoff →
     newest before r ∨ cutoff ≤ latest_timestamp r) ∧
  (∀ bound, max_count policy = Some bound → Z.of_nat (size (filter (λ e, settled e.2) after)) ≤ Z.max bound 1).
Proof.
  intros Hm Hkill Hrun before after. destruct (retain_ok policy w m n w' Hm Hkill Hrun) as [Hf _ _ _].
  unfold after. rewrite Hf. split_and!.
  - intros fid r Hr Hkeep. apply rows_unexpired. split; [done|]. intros [? ?]%expired_settled. tauto.
  - intros fid r cutoff [Hr Hx]%rows_unexpired Hset Hcut. destruct (decide (newest before r)) as [|Hn]; [by left|]. right.
    apply Z.nlt_ge. intros Hlt. apply Hx. left. unfold outdated. by rewrite Hcut.
  - intros bound Hb. rewrite kept_size. apply kept_bound; [|done].
    intros k r [Hr _]%rows_of_lookup. destruct Hm as (pub & pend & tl & Hd).
    by apply (replays_keyed _ _ _ (holds_replay _ _ _ _ _ Hd) (map_Forall_empty _)) in Hr as [? _].
Qed.

End maintenance.
End retention.
