(* ===== verification/SchedulerCorrect.v ===== *)
(** * What the scheduler guarantees

    Fires live and die as their state machine says, whatever the scheduler
    does and wherever the process stops; no fire is lost from the journals;
    no fire is dispatched twice. *)

From S2P Require Import Prelude Float64 Json CanonicalRef Schedule SchedulerDb ScheduleSpec Scheduler.
From S2P Require Import Retention SchedulerDbCorrect RetentionCorrect.

Section operations.
Context `{Calendar} `{Sha256} `{Clock} `{FireCodec} `{!FireCodecLaws} `{RowOrder} `{SchedulerContext}.
Context `{RetentionContext} `{UnicodeTables} `{JsonText}.

(** Every operation but reconciliation is a sequence of steps. *)
Lemma steps_observe {A} (f : nat → A) : keeps steps (observe_with f).
Proof. apply keeps_quiet_steps, keeps_observe. Qed.
Lemma steps_timestamp : keeps steps timestamp_millis.
Proof. apply steps_observe. Qed.
Lemma steps_spawn task : keeps steps (spawn task).
Proof. apply keeps_quiet_steps. by constructor. Qed.
Lemma steps_status thread : keeps steps (get_thread_status thread).
Proof. unfold get_thread_status, ask. keep. apply steps_observe. Qed.
Lemma steps_outcome thread : keeps steps (get_thread_result_outcome thread).
Proof. unfold get_thread_result_outcome, ask. keep. apply steps_observe. Qed.
Lemma steps_cancel thread : keeps steps (submit_cancel thread).
Proof. unfold submit_cancel, ask. keep; [apply steps_observe|]. apply keeps_quiet_steps. by constructor. Qed.
#[local] Hint Resolve steps_observe steps_timestamp steps_spawn : keeps.
#[local] Hint Resolve steps_status steps_outcome steps_cancel : keeps.

Lemma steps_ignore m : keeps steps m → keeps steps (ignore_errors m).
Proof. intros Hm w. specialize (Hm w). unfold ignore_errors. by destruct (m w) as [[|[]] ?]. Qed.
Lemma steps_skip message fid spec at_ reason : keeps steps (record_skip message fid spec at_ reason).
Proof. unfold record_skip. keep. Qed.
#[local] Hint Resolve steps_ignore steps_skip : keeps.
Lemma steps_skips spec reason l : keeps steps (skip_misfires spec reason l).
Proof. unfold skip_misfires. keep. Qed.
Lemma steps_detect spec horizon fuel cursor : keeps steps (detect_loop spec horizon fuel cursor).
Proof. revert cursor. induction fuel as [|fuel IH]; intros cursor; cbn [detect_loop]; unfold get_fire; keep. Qed.
#[local] Hint Resolve steps_skips steps_detect : keeps.
Lemma steps_policy spec policy missed now : keeps steps (apply_policy spec policy missed now).
Proof. unfold apply_policy. keep. Qed.
#[local] Hint Resolve steps_policy : keeps.
Lemma steps_misfires spec horizon now : keeps steps (evaluate_misfires_before spec horizon now).
Proof.
  unfold evaluate_misfires_before, misfire_anchor, detect_misfires_before, get_cursor, get_last_fire. keep.
Qed.
Lemma steps_overlap spec : keeps steps (check_overlap spec).
Proof. unfold check_overlap, get_inflight_for_schedule. keep. Qed.
Lemma steps_dispatch fid spec at_ reason skip : keeps steps (dispatch_fire fid spec at_ reason skip).
Proof. unfold dispatch_fire, get_fire. keep. Qed.
Lemma steps_task task : keeps steps (run_task task).
Proof. unfold run_task. keep. Qed.
#[local] Hint Resolve steps_misfires steps_overlap steps_dispatch steps_task : keeps.
Lemma steps_fires spec l : keeps steps (process_fires spec l).
Proof. induction l; cbn [process_fires]; keep. Qed.
#[local] Hint Resolve steps_fires : keeps.
Lemma steps_last message spec : keeps steps (valid_last_fire message spec).
Proof. unfold valid_last_fire, get_last_fire. keep. Qed.
#[local] Hint Resolve steps_last : keeps.
Lemma steps_process spec : keeps steps (process_spec spec).
Proof. unfold process_spec. keep. Qed.
Lemma steps_repair : keeps steps repair_stale_fires.
Proof. unfold repair_stale_fires, find_stale_dispatched_fires, repair_fire. keep. Qed.
Lemma steps_terminal fire thread status outcome : keeps steps (update_fire_terminal fire thread status outcome).
Proof. unfold update_fire_terminal. keep. Qed.
#[local] Hint Resolve steps_process steps_repair steps_terminal : keeps.
Lemma steps_recover : keeps steps recover_inflight_fires.
Proof.
  unfold recover_inflight_fires, get_inflight_fires, recover_fire, redispatch_or, get_spec. keep.
  intros w. pose proof (steps_outcome s w) as Ho. by destruct (get_thread_result_outcome s w) as [[|[]] ?].
Qed.
Lemma steps_recovery intent : keeps steps (dispatch_recovery_fire intent).
Proof. unfold dispatch_recovery_fire, get_fire. keep. Qed.
#[local] Hint Resolve steps_recover steps_recovery : keeps.
Lemma steps_replace l : keeps steps (replace_specs l).
Proof.
  apply keeps_quiet_steps. unfold replace_specs. apply keeps_bind; [apply _|keep|intros _].
  apply keeps_transaction_quiet. keep; by constructor.
Qed.
#[local] Hint Resolve steps_replace : keeps.
Lemma steps_cycle last_repair : keeps steps (timer_cycle last_repair).
Proof.
  unfold timer_cycle, fire_projection_is_current, load_specs, load_enabled_specs, spec_is_due, compute_soonest_fire. keep.
Qed.
#[local] Hint Resolve steps_cycle : keeps.

(** Reconciliation may rebuild the fire table. *)
Lemma reconcile_follows l purged retained :
  keeps (advances (follows purged retained)) (reconcile (_ ← replace_specs l ; mret tt)).
Proof.
  assert (∀ A (o : Op A), keeps steps o → keeps (advances (follows purged retained)) o) as Hs.
  { intros A o. apply keeps_steps_follow. }
  unfold reconcile, list_specs. apply keeps_bind; [apply _|apply Hs; keep|intros _].
  apply keeps_bind; [apply _|apply Hs; keep|intros _]. apply keeps_bind; [apply _|apply Hs; keep|intros all].
  apply keeps_bind; [apply _|apply Hs; keep|intros now]. apply keeps_bind; [apply _|apply Hs; keep|intros current].
  apply keeps_bind; [apply _| |intros _; apply Hs; unfold load_enabled_specs, reconcile_spec, get_cursor; keep].
  destruct current.
  - apply Hs. apply keeps_bind; [apply _|apply keeps_quiet_steps, reconcile_cursors_quiet|intros _; keep].
  - apply keeps_bind; [apply _| |intros _; apply Hs, keeps_quiet_steps; keep; apply rebuild_cursors_quiet].
    intros w m Hm. destruct (rebuild_advances w m Hm) as (m' & ? & ?). exists m'. split; [done|]. by apply evolve_follows.
Qed.

(** ** Histories *)

(** What the daemon does with the scheduler, one operation after the other: a
    detached dispatch task runs as a whole between two others, whenever and
    whether or not it was spawned.  Discarding the whole history of fires,
    which the offline garbage collector does, is not one of them. *)
Inductive operation :=
| Register (spec : ScheduleSpecRecord)
| Deregister (id : string) (purge : bool)
| Retain (policy : option FireRetentionPolicy) (dry_run : bool)
| Reconcile (sources : list ScheduleSpecRecord)
| Resume (intent : ResumeIntent)
| Cycle (last_repair : Z)
| RunTask (task : DispatchTask)
| Drain.
Definition run_operation (o : operation) (w : World) : World :=
  match o with
  | Register spec => (upsert_spec spec w).2
  | Deregister id purge => (deregister id purge w).2
  | Retain policy dry_run => (retain_fires policy dry_run w).2
  | Reconcile sources => (reconcile (_ ← replace_specs sources ; mret tt) w).2
  | Resume intent => (dispatch_recovery_fire intent w).2
  | Cycle last_repair => (timer_cycle last_repair w).2
  | RunTask task => (run_task task w).2
  | Drain => (drain_fire_outbox w).2
  end.

(** The process may die while it runs an operation, before any of its durable
    writes or with some bytes of a journal line written, or after it.
    [spawned] records every task ever handed over, in whichever process. *)
Inductive event :=
| Ran (o : operation)
| Died (o : operation) (k : Kill).
Definition restart (w : World) : World :=
  {| db := db w; journals := journals w; spawned := spawned w; cancelled := cancelled w;
     observations := observations w; kill := None |}.
Definition run_event (w : World) (e : event) : World :=
  match e with
  | Ran o => run_operation o (set_kill None w)
  | Died o k => restart (run_operation o (set_kill (Some k) w))
  end.
Definition run_events (w : World) (l : list event) : World := foldl run_event w l.
Definition operation_of (e : event) : operation := match e with Ran o | Died o _ => o end.

(** The operations that remove fires. *)
Definition purges (id : string) (o : operation) : bool :=
  match o with Deregister id' purge => purge && bool_decide (id = id') | _ => false end.
Definition retains (o : operation) : bool :=
  match o with Retain (Some _) false => true | _ => false end.
Definition purged (l : list event) (id : string) : Prop := existsb (λ e, purges id (operation_of e)) l = true.
Definition retained (l : list event) : bool := existsb (λ e, retains (operation_of e)) l.

Lemma quiet_follows P b w w' : quiet w w' → advances (follows P b) w w'.
Proof.
  intros Hq m Hm. destruct (steps_advance w w' (quiet_steps _ _ Hq) m Hm) as (m' & Hm' & He). exists m'.
  split; [done|]. by apply evolve_follows.
Qed.
Lemma retain_advances policy dry_run P :
  keeps (advances (follows P (retains (Retain policy dry_run)))) (retain_fires policy dry_run).
Proof.
  destruct dry_run; [apply keeps_steps_follow, keeps_quiet_steps, retain_dry_quiet|].
  destruct policy; [apply retain_follows|apply keeps_steps_follow, keeps_quiet_steps, retain_none_quiet].
Qed.
Lemma operation_follows o w :
  advances (follows (λ id, purges id o = true) (retains o)) w (run_operation o w).
Proof.
  assert (∀ A (m : Op A), keeps steps m → advances (follows (λ id, purges id o = true) (retains o)) w (m w).2) as Hs.
  { intros A m Hm. by apply keeps_steps_follow. }
  destruct o; cbn [run_operation].
  - apply Hs, keeps_quiet_steps, upsert_spec_quiet.
  - intros m Hm. destruct (deregister_follows id purge (retains (Deregister id purge)) w m Hm) as (m' & Hm' & Hf).
    exists m'. split; [done|]. eapply follows_mono; [|done|exact Hf]. cbn. intros x [-> ->]. by apply bool_decide_true.
  - apply retain_advances.
  - apply reconcile_follows.
  - apply Hs. keep.
  - apply Hs. keep.
  - apply Hs. keep.
  - apply Hs. keep.
Qed.
Lemma event_follows e w :
  advances (follows (λ id, purges id (operation_of e) = true) (retains (operation_of e))) w (run_event w e).
Proof.
  destruct e as [o|o k]; cbn [run_event operation_of].
  - transitivity (set_kill None w); [apply quiet_follows, set_kill_quiet|]. apply operation_follows.
  - transitivity (set_kill (Some k) w); [apply quiet_follows, set_kill_quiet|].
    transitivity (run_operation o (set_kill (Some k) w)); [apply operation_follows|]. apply quiet_follows. by constructor.
Qed.
Lemma events_follow l w : advances (follows (purged l) (retained l)) w (run_events w l).
Proof.
  revert w. induction l as [|e l IH]; intros w; [reflexivity|].
  intros m Hm. destruct (event_follows e w m Hm) as (m1 & Hm1 & Hf1). destruct (IH _ m1 Hm1) as (m2 & Hm2 & Hf2).
  exists m2. split; [done|]. transitivity m1; (eapply follows_mono; [| |done]); unfold purged, retained; cbn.
  - intros id ->. done.
  - by intros ->.
  - intros id ->. by rewrite orb_true_r.
  - intros ->. by rewrite orb_true_r.
Qed.

(** C3. The journals never lose a fire: through every history of
    registrations, timer cycles, dispatches, recoveries, rebuilds, retention
    and purges, with the process killed before any durable write or in the
    middle of a journal line, the journals and the outbox hold one table of
    fires.  Draining the outbox succeeds, rebuilding the fire table from the
    journals alone succeeds and yields exactly that table; the fire table is
    that table whenever its marker says so; and every fire of the start is
    still in it, unless its schedule was purged or retention removed it
    settled. *)
Theorem fires_durable l w m :
  table w m →
  ∃ m' n w1 w2,
    follows (purged l) (retained l) m m' ∧
    (projection_is_current (db (run_events w l)) = true → fires (db (run_events w l)) = m') ∧
    drain_fire_outbox (set_kill None (run_events w l)) = (Ok n, w1) ∧
    rebuild_fires_from_dir w1 = (Ok tt, w2) ∧
    fires (db w2) = m' ∧ outbox (db w2) = [] ∧ projection_is_current (db w2) = true.
Proof.
  intros Hm. destruct (events_follow l w m Hm) as (m' & (pub & pend & tl & Hd) & Hf).
  set (v := run_events w l) in *. assert (holds (set_kill None v) m' pub pend tl) as Hd0.
  { eapply holds_quiet; [apply set_kill_quiet|done]. }
  destruct (drain_total _ _ _ _ _ Hd0 eq_refl) as (w1 & pub1 & Hdrain & Hd1 & Hk1 & _).
  destruct (rebuild_holds w1 m' pub1 [] EmptyString Hd1) as (Hd2 & Hcur & Hok).
  destruct (Hok eq_refl Hk1) as [Hrun _]. destruct (Hcur Hrun) as [Hc2 Ho2].
  exists m', (Z.of_nat (length pend)), w1, (rebuild_fires_from_dir w1).2. split_and!; try done.
  - apply (holds_current _ _ _ _ _ Hd).
  - rewrite <- Hrun. by destruct (rebuild_fires_from_dir w1).
  - by apply (holds_current _ _ _ _ _ Hd2).
Qed.

(** C4. Fires follow their state machine through every such history: between
    two moments at which the fire table is published, a fire that was
    recorded stays recorded, keeps its identity, trigger, authority, dispatch
    time and thread, and does not change any more once it is terminal;
    retention removes terminal fires only; and every recorded fire is a valid
    record under its own identity. *)
Theorem fire_lifecycle l w :
  table w (fires (db w)) → projection_is_current (db (run_events w l)) = true →
  valid_rows (run_events w l) ∧
  ∀ fid p, fires (db w) !! fid = Some p → ¬ purged l (f_schedule_id p) →
    ∃ r, row_next p r ∧
         (fires (db (run_events w l)) !! fid = Some r ∨
          retained l = true ∧ is_terminal_fire_status (f_status r) = true).
Proof.
  intros Hm Hc. destruct (events_follow l w _ Hm) as (m' & (pub & pend & tl & Hd) & Hf).
  unfold valid_rows. rewrite (holds_current _ _ _ _ _ Hd Hc). split; [|exact Hf].
  exact (replays_keyed _ _ _ (holds_replay _ _ _ _ _ Hd) (map_Forall_empty _)).
Qed.

(** ** Dispatching once *)

Definition same_tasks (w w' : World) : Prop := spawned w' = spawned w.
#[export] Instance same_tasks_preorder : PreOrder same_tasks.
Proof. split; [done|]. unfold same_tasks. intros ???. congruence. Qed.

(** Tasks are for different fires, which the logical table records. *)
Definition tasks_recorded (w : World) (m : gmap string FireRecord) : Prop :=
  NoDup (t_fire_id <$> spawned w) ∧ ∀ t, t ∈ spawned w → is_Some (m !! t_fire_id t).
(** New tasks are for fires that were not recorded before. *)
Record dispatched (w w' : World) (m m' : gmap string FireRecord) : Prop := {
  dispatched_table : table w' m';
  dispatched_evolve : evolve m m';
  dispatched_recorded : tasks_recorded w m → tasks_recorded w' m';
  dispatched_new t : t ∈ spawned w' → t ∈ spawned w ∨ m !! t_fire_id t = None;
}.
Definition dispatches_new (w w' : World) : Prop := ∀ m, table w m → ∃ m', dispatched w w' m m'.
#[export] Instance dispatches_new_preorder : PreOrder dispatches_new.
Proof.
  split; [intros w m Hm; exists m; by split; auto|].
  intros w1 w2 w3 H12 H23 m Hm. destruct (H12 m Hm) as (m1 & [Ht1 He1 Hr1 Hn1]).
  destruct (H23 m1 Ht1) as (m2 & [Ht2 He2 Hr2 Hn2]). exists m2.
  split; [done|by transitivity m1|auto|]. intros t [Ht|Hnew]%Hn2; [auto|]. right.
  destruct (m !! t_fire_id t) as [p|] eqn:Hp; [|done]. destruct (He1 _ _ Hp) as (r & Hr & _). congruence.
Qed.
Lemma recorded_evolve w w' m m' : evolve m m' → same_tasks w w' → tasks_recorded w m → tasks_recorded w' m'.
Proof.
  unfold same_tasks, tasks_recorded. intros He ->. intros [Hnd Hrec]. split; [done|]. intros t Hin.
  destruct (Hrec t Hin) as [p Hp]. destruct (He _ _ Hp) as (r & Hr & _). by exists r.
Qed.

Lemma new_of_advances {A} (o : Op A) : keeps (advances evolve) o → keeps same_tasks o → keeps dispatches_new o.
Proof.
  intros Ha Ht w m Hm. destruct (Ha w m Hm) as (m' & Hm' & He). specialize (Ht w). exists m'.
  split; [done|done|by apply recorded_evolve|]. intros t. rewrite Ht. auto.
Qed.
Lemma new_of_same {A} (m : Op A) : keeps steps m → keeps same_tasks m → keeps dispatches_new m.
Proof. intros Hs. by apply new_of_advances, keeps_steps_advance. Qed.

Lemma same_tasks_db f : keeps same_tasks (modify (with_db f)).
Proof. done. Qed.
Lemma same_tasks_journals f : keeps same_tasks (modify (set_journals f)).
Proof. done. Qed.
Lemma same_tasks_observe {A} (f : nat → A) : keeps same_tasks (observe_with f).
Proof. done. Qed.
Lemma same_tasks_timestamp : keeps same_tasks timestamp_millis.
Proof. done. Qed.
#[local] Hint Resolve same_tasks_db same_tasks_journals same_tasks_observe same_tasks_timestamp : keeps.
Lemma same_tasks_transaction {A} (m : Op A) : keeps same_tasks m → keeps same_tasks (transaction m).
Proof.
  intros Hm w. specialize (Hm w). destruct (transaction_cases m w) as [(a & w1 & k & Hw & -> & _)|(e & w1 & -> & -> & _)]; [|done].
  by rewrite Hw in Hm.
Qed.
Lemma same_tasks_checkpoint : keeps same_tasks checkpoint.
Proof. intros w. by destruct (checkpoint_cases w) as [(k & -> & _)|[-> _]]. Qed.
#[local] Hint Resolve same_tasks_transaction same_tasks_checkpoint : keeps.
Lemma same_tasks_refresh id now : keeps same_tasks (refresh_cursor_for_schedule_conn id now).
Proof. unfold refresh_cursor_for_schedule_conn, get_spec, get_last_fire. keep. Qed.
#[local] Hint Resolve same_tasks_refresh : keeps.
Lemma same_tasks_drain : keeps same_tasks drain_fire_outbox.
Proof. by apply (drain_field spawned). Qed.
#[local] Hint Resolve same_tasks_drain : keeps.
Lemma same_tasks_persist rec : keeps same_tasks (persist_fire_snapshot rec).
Proof.
  unfold persist_fire_snapshot, upsert_fire. apply keeps_bind; [apply _| |intros _; keep].
  apply keeps_bind; [apply _|keep|intros _]. apply same_tasks_transaction.
  unfold require_current_fire_projection, fire_projection_is_current, get_fire, upsert_fire_conn, enqueue_current_fire_snapshot_conn.
  unfold get_fire. keep.
Qed.
Lemma same_tasks_claim rec : keeps same_tasks (claim_fire_snapshot rec).
Proof.
  unfold claim_fire_snapshot, claim_fire. apply keeps_bind; [apply _| |intros b; keep].
  apply keeps_bind; [apply _|keep|intros _]. apply same_tasks_transaction.
  unfold require_current_fire_projection, fire_projection_is_current, get_fire, upsert_fire_conn, enqueue_current_fire_snapshot_conn.
  unfold get_fire. keep.
Qed.
#[local] Hint Resolve same_tasks_persist same_tasks_claim : keeps.

Lemma new_observe {A} (f : nat → A) : keeps dispatches_new (observe_with f).
Proof. apply new_of_same; keep. Qed.
Lemma new_timestamp : keeps dispatches_new timestamp_millis.
Proof. apply new_observe. Qed.
Lemma new_persist rec : keeps dispatches_new (persist_fire_snapshot rec).
Proof. apply new_of_same; keep. Qed.
Lemma new_drain : keeps dispatches_new drain_fire_outbox.
Proof. apply new_of_same; keep. Qed.
Lemma new_status thread : keeps dispatches_new (get_thread_status thread).
Proof. apply new_of_same; [keep|]. unfold get_thread_status, ask. keep. Qed.
Lemma new_outcome thread : keeps dispatches_new (get_thread_result_outcome thread).
Proof. apply new_of_same; [keep|]. unfold get_thread_result_outcome, ask. keep. Qed.
Lemma new_cancel thread : keeps dispatches_new (submit_cancel thread).
Proof. apply new_of_same; [keep|]. unfold submit_cancel, ask. keep. Qed.
#[local] Hint Resolve new_observe new_timestamp new_persist new_drain new_status new_outcome new_cancel : keeps.

Lemma record_row_fires rec w w' :
  record_row rec w = (Ok tt, w') → fires (db w') = <[f_fire_id rec := rec]> (fires (db w)).
Proof.
  intros ([] & w2 & [= <-] & Hrow)%bind_inv.
  match type of Hrow with ?m ?v = _ => assert (keeps (λ w w', fires (db w') = fires (db w)) m) as Hk;
    [|specialize (Hk v); rewrite Hrow in Hk] end; [|done].
  assert (PreOrder (λ w w' : World, fires (db w') = fires (db w))) by (split; [done|intros ? ? ? -> ->; done]).
  unfold enqueue_current_fire_snapshot_conn, get_fire. apply keeps_bind; [done| |intros _].
  - keep. done.
  - apply (keeps_mono quiet); [by intros ? ? []|]. keep.
Qed.
Lemma step_projection w w' : step w w' → projection_state (db w') = projection_state (db w).
Proof. by intros [[]| |? ? ? ? ? ? ? ? ? ? []]. Qed.
Lemma steps_current w w' : steps w w' → projection_is_current (db w') = projection_is_current (db w).
Proof.
  induction 1 as [|w w1 w2 Hst _ IH]; [done|]. rewrite IH. unfold projection_is_current.
  by rewrite (step_projection _ _ Hst).
Qed.
Lemma claim_snapshot_true rec w w' :
  claim_fire_snapshot rec w = (Ok true, w') →
  projection_is_current (db w) = true ∧ fires (db w) !! f_fire_id rec = None ∧
  is_Some (fires (db w') !! f_fire_id rec).
Proof.
  intros (claimed & w1 & Hclaim & Hrun)%bind_inv. apply bind_inv in Hrun as (n & w2 & Hdrain & [= -> ->]).
  pose proof (drain_steps w1) as Hs. rewrite Hdrain in Hs. cbn in Hs.
  apply bind_inv in Hclaim as ([] & w2 & [_ ->]%lift_inv & (w2 & k & Hin & ->)%transaction_inv).
  apply bind_inv in Hin as ([] & w3 & Hcur & Hin).
  apply bind_inv in Hcur as (c & w4 & [= <- <-] & [Hc ->]%lift_inv). apply reject_inv, negb_false_iff in Hc.
  apply bind_inv in Hin as (prev & w3 & [= <- <-] & Hin).
  destruct (fires (db w) !! f_fire_id rec); [done|]. split_and!; [done..|].
  rewrite claim_row in Hin. apply bind_inv in Hin as ([] & w3 & Hrow & [= ->]).
  apply record_row_fires in Hrow.
  destruct (steps_evolve _ _ Hs (f_fire_id rec) rec) as (r & Hr & _); [|by exists r].
  cbn. by rewrite Hrow, lookup_insert_eq.
Qed.
Lemma upsert_fire_ok rec w w' :
  upsert_fire rec w = (Ok tt, w') → fires (db w') = <[f_fire_id rec := rec]> (fires (db w)).
Proof.
  intros ([] & w1 & [_ ->]%lift_inv & (w1' & k & Hin & ->)%transaction_inv)%bind_inv.
  apply bind_inv in Hin as ([] & w2 & Hcur & Hin).
  apply bind_inv in Hcur as (c & w3 & [= <- <-] & [_ ->]%lift_inv).
  apply bind_inv in Hin as (prev & w2 & [= <- <-] & Hin).
  apply bind_inv in Hin as ([] & w2 & Hprev & Hin).
  assert (w2 = w) as -> by (destruct (fires (db w) !! f_fire_id rec); [by apply lift_inv in Hprev as [_ ->]|by injection Hprev]).
  exact (record_row_fires _ _ _ Hin).
Qed.
Lemma persist_ok rec w w' :
  persist_fire_snapshot rec w = (Ok tt, w') → ∃ r, fires (db w') !! f_fire_id rec = Some r ∧ row_next rec r.
Proof.
  intros ([] & w1 & Hup%upsert_fire_ok & Hrun)%bind_inv. apply bind_inv in Hrun as (n & w2 & Hdrain & [= ->]).
  pose proof (drain_steps w1) as Hs. rewrite Hdrain in Hs. cbn in Hs.
  apply (steps_evolve _ _ Hs). by rewrite Hup, lookup_insert_eq.
Qed.

Lemma new_dispatch fid spec at_ reason : keeps dispatches_new (dispatch_fire fid spec at_ reason false).
Proof.
  unfold dispatch_fire. case_decide; [keep|].
  apply keeps_bind; [apply _|keep|intros record]. apply keeps_bind; [apply _|keep|intros _].
  apply keeps_bind; [apply _|keep|intros dispatched_at].
  set (rec := dispatched_record _ _ _ _ _). intros w.
  destruct (claim_fire_snapshot rec w) as [[[]|e] w'] eqn:Hclaim.
  2: { rewrite (bind_run _ _ _ _ _ Hclaim). cbn. change w' with ((Ok (E := Fault) false, w').2). rewrite <- Hclaim.
       apply (new_of_same (claim_fire_snapshot rec)); keep. }
  2: { rewrite (bind_err _ _ _ _ _ Hclaim). cbn. change w' with ((Err (A := bool) e, w').2). rewrite <- Hclaim.
       apply (new_of_same (claim_fire_snapshot rec)); keep. }
  pose proof (claim_snapshot_steps rec w) as Hs. pose proof (same_tasks_claim rec w) as Ht.
  rewrite Hclaim in Hs, Ht. cbn in Hs, Ht.
  rewrite (bind_run _ _ _ _ _ Hclaim). unfold spawn, modify, mbind, m_bind. cbn.
  apply claim_snapshot_true in Hclaim as (Hc & Hnone & Hsome). intros m Hm.
  assert (fires (db w) = m) as Hf by (destruct Hm as (? & ? & ? & Hd); by apply (holds_current _ _ _ _ _ Hd)).
  destruct (steps_advance _ _ Hs m Hm) as (m' & Hm' & He). exists m'.
  assert (fires (db w') = m') as Hf'.
  { destruct Hm' as (? & ? & ? & Hd). apply (holds_current _ _ _ _ _ Hd). by rewrite (steps_current _ _ Hs). }
  rewrite Hf in Hnone. rewrite Hf' in Hsome. cbn in Hnone, Hsome. split; cbn; [|done| |].
  - destruct Hm' as (pub & pend & tl & Hd). eexists _, _, _. eapply holds_quiet; [|exact Hd]. by constructor.
  - intros Hrec. pose proof (recorded_evolve _ _ _ _ He Ht Hrec) as [Hnd Hrec']. destruct Hrec as [_ Hrec].
    split; cbn.
    + rewrite fmap_app. apply NoDup_app. split_and!; [done| |apply NoDup_singleton].
      intros x (t & -> & Hin)%list_elem_of_fmap Hx%list_elem_of_singleton. cbn in Hx.
      rewrite Ht in Hin. destruct (Hrec t Hin) as [q Hq]. congruence.
    + intros t [Hin|Hin]%elem_of_app; [by apply Hrec'|]. by apply list_elem_of_singleton in Hin as ->.
  - intros t [Hin|Hin]%elem_of_app; [left; by rewrite <- Ht|]. apply list_elem_of_singleton in Hin as ->. by right.
Qed.
#[local] Hint Resolve new_dispatch : keeps.

Lemma new_skip message fid spec at_ reason : keeps dispatches_new (record_skip message fid spec at_ reason).
Proof. unfold record_skip. keep. Qed.
#[local] Hint Resolve new_skip : keeps.
Lemma new_detect spec horizon fuel cursor : keeps dispatches_new (detect_loop spec horizon fuel cursor).
Proof. revert cursor. induction fuel as [|fuel IH]; intros cursor; cbn [detect_loop]; unfold get_fire; keep. Qed.
#[local] Hint Resolve new_detect : keeps.
Lemma new_misfires spec horizon now : keeps dispatches_new (evaluate_misfires_before spec horizon now).
Proof.
  unfold evaluate_misfires_before, misfire_anchor, detect_misfires_before, get_cursor, get_last_fire.
  unfold apply_policy, skip_misfires. keep.
Qed.
Lemma new_overlap spec : keeps dispatches_new (check_overlap spec).
Proof. unfold check_overlap, get_inflight_for_schedule. keep. Qed.
#[local] Hint Resolve new_misfires new_overlap : keeps.
Lemma new_fires spec l : keeps dispatches_new (process_fires spec l).
Proof. induction l; cbn [process_fires]; keep. Qed.
Lemma new_last message spec : keeps dispatches_new (valid_last_fire message spec).
Proof. unfold valid_last_fire, get_last_fire. keep. Qed.
#[local] Hint Resolve new_fires new_last : keeps.
Lemma new_ignore m : keeps dispatches_new m → keeps dispatches_new (ignore_errors m).
Proof. intros Hm w. specialize (Hm w). unfold ignore_errors. by destruct (m w) as [[|[]] ?]. Qed.
#[local] Hint Resolve new_ignore : keeps.
Lemma new_task task : keeps dispatches_new (run_task task).
Proof. unfold run_task. keep. Qed.
Lemma new_repair : keeps dispatches_new repair_stale_fires.
Proof. unfold repair_stale_fires, find_stale_dispatched_fires, repair_fire. keep. Qed.
#[local] Hint Resolve new_repair : keeps.
Lemma new_cycle last_repair : keeps dispatches_new (timer_cycle last_repair).
Proof.
  unfold timer_cycle, fire_projection_is_current, load_specs, load_enabled_specs, spec_is_due, compute_soonest_fire, process_spec.
  keep.
Qed.
Lemma new_terminal fire thread status outcome : keeps dispatches_new (update_fire_terminal fire thread status outcome).
Proof. unfold update_fire_terminal. keep. Qed.
#[local] Hint Resolve new_terminal : keeps.
Lemma new_replace l : keeps dispatches_new (replace_specs l).
Proof. apply new_of_same; [apply steps_replace|]. unfold replace_specs. keep. Qed.
#[local] Hint Resolve new_replace : keeps.
Lemma same_tasks_skips spec reason l : keeps same_tasks (skip_misfires spec reason l).
Proof. unfold skip_misfires, record_skip. keep. Qed.
Lemma same_tasks_detect spec horizon fuel cursor : keeps same_tasks (detect_loop spec horizon fuel cursor).
Proof. revert cursor. induction fuel as [|fuel IH]; intros cursor; cbn [detect_loop]; unfold get_fire; keep. Qed.
Lemma same_tasks_anchor spec : keeps same_tasks (misfire_anchor spec).
Proof. unfold misfire_anchor, get_cursor, get_last_fire. keep. Qed.
#[local] Hint Resolve same_tasks_skips same_tasks_detect same_tasks_anchor : keeps.
Lemma same_tasks_policy spec policy missed now : keeps same_tasks (apply_policy spec policy missed now).
Proof. unfold apply_policy. keep. Qed.
#[local] Hint Resolve same_tasks_policy : keeps.
Lemma same_tasks_misfires spec horizon now : keeps same_tasks (evaluate_misfires_before spec horizon now).
Proof. unfold evaluate_misfires_before, detect_misfires_before. keep. Qed.
Lemma same_tasks_terminal fire thread status outcome : keeps same_tasks (update_fire_terminal fire thread status outcome).
Proof. unfold update_fire_terminal. keep. Qed.
#[local] Hint Resolve same_tasks_misfires same_tasks_terminal : keeps.
Lemma same_tasks_redispatch fire reason m : keeps same_tasks m → keeps same_tasks (redispatch_or fire reason m).
Proof. intros Hm. unfold redispatch_or, get_spec. keep. Qed.
#[local] Hint Resolve same_tasks_redispatch : keeps.
Lemma same_tasks_recover fire : keeps same_tasks (recover_fire fire).
Proof.
  unfold recover_fire, get_thread_status, ask. keep.
  intros w. unfold get_thread_result_outcome, ask, observe_with, lift, mbind, m_bind. cbn.
  by destruct (thread_result_outcome _ _).
Qed.
Lemma same_tasks_rebuild : keeps same_tasks rebuild_fires_from_dir.
Proof.
  unfold rebuild_fires_from_dir, begin_fire_projection_rebuild, rebuild_fire_projection, project_fire_from_journal.
  unfold finish_fire_projection_rebuild, publish_projection. keep; apply same_tasks_transaction; keep.
Qed.
Lemma same_tasks_reconcile_spec now spec : keeps same_tasks (reconcile_spec now spec).
Proof. unfold reconcile_spec, get_cursor. keep. Qed.
Lemma same_tasks_cursors l now : keeps same_tasks (reconcile_cursors_for_specs l now).
Proof. unfold reconcile_cursors_for_specs, upsert_cursor. keep. Qed.
Lemma same_tasks_all_cursors l now : keeps same_tasks (rebuild_cursors_for_specs l now).
Proof. unfold rebuild_cursors_for_specs, upsert_cursor. keep. Qed.
#[local] Hint Resolve same_tasks_cursors same_tasks_all_cursors : keeps.
#[local] Hint Resolve same_tasks_recover same_tasks_rebuild same_tasks_reconcile_spec : keeps.
Lemma same_tasks_reconcile m : keeps same_tasks m → keeps same_tasks (reconcile m).
Proof.
  intros Hm. unfold reconcile, list_specs, fire_projection_is_current, load_enabled_specs, recover_inflight_fires, get_inflight_fires.
  keep.
Qed.

(** The operations that dispatch a recorded fire again, or forget one. *)
Definition repeats (o : operation) : bool :=
  match o with
  | Resume intent => match i_kind intent with ReclaimExisting => true | DispatchNew => false end
  | Deregister _ purge => purge
  | _ => retains o
  end.

Lemma evolve_of_follows m m' : follows (λ _, False) false m m' → evolve m m'.
Proof. intros Hf fid p Hp. destruct (Hf fid p Hp) as (r & Hr & [?|[? _]]); [by intros []|by exists r|done]. Qed.
Lemma advances_evolve {A} (o : Op A) : keeps (advances (follows (λ _, False) false)) o → keeps (advances evolve) o.
Proof.
  apply keeps_mono. intros w w' Ha m Hm. destruct (Ha m Hm) as (m' & ? & ?). exists m'.
  split; [done|]. by apply evolve_of_follows.
Qed.
Lemma same_tasks_validate l seen affected : keeps same_tasks (validate_targets seen affected l).
Proof. revert seen affected. induction l as [|t l IH]; intros seen affected; cbn; unfold get_fire, get_last_fire; keep. Qed.
#[local] Hint Resolve same_tasks_validate keeps_internal : keeps.
Lemma same_tasks_dry policy : keeps same_tasks (retain_fires policy true).
Proof.
  unfold retain_fires, pending_fire_outbox, verify_fire_retention_targets, validate_fire_retention_targets, ask.
  unfold sweep_fire_jsonl, sweep_one_fires_file. rewrite andb_false_r. keep.
Qed.
Lemma new_retain policy dry_run :
  retains (Retain policy dry_run) = false → keeps dispatches_new (retain_fires policy dry_run).
Proof.
  intros Hr. apply new_of_same.
  - apply keeps_quiet_steps. destruct dry_run; [apply retain_dry_quiet|]. destruct policy; [done|apply retain_none_quiet].
  - destruct dry_run; [apply same_tasks_dry|]. destruct policy; [done|]. unfold retain_fires, ask, sweep_fire_jsonl. cbn. keep.
Qed.
Lemma new_deregister id : keeps dispatches_new (deregister id false).
Proof.
  apply new_of_advances.
  - apply advances_evolve. intros w m Hm. destruct (deregister_follows id false false w m Hm) as (m' & ? & Hf).
    exists m'. split; [done|]. eapply follows_mono; [|done|exact Hf]. by intros x [? _].
  - unfold deregister, get_spec, ask, upsert_spec, delete_spec.
    repeat first [progress keep | apply keeps_internal | apply same_tasks_transaction].
Qed.

Lemma operation_new o w : repeats o = false → dispatches_new w (run_operation o w).
Proof.
  destruct o as [spec|id purge|policy dry_run|l|intent|last|task|]; cbn [run_operation repeats]; intros Ho.
  - apply new_of_same; [apply keeps_quiet_steps, upsert_spec_quiet|]. unfold upsert_spec. keep.
  - subst purge. apply new_deregister.
  - by apply new_retain.
  - apply new_of_advances; [apply advances_evolve, reconcile_follows|]. apply same_tasks_reconcile. unfold replace_specs. keep.
  - unfold dispatch_recovery_fire. destruct (i_kind intent); [done|]. apply new_dispatch.
  - apply new_cycle.
  - apply new_task.
  - apply new_drain.
Qed.
Lemma quiet_new w w' : quiet w w' → same_tasks w w' → dispatches_new w w'.
Proof.
  intros Hq Ht m Hm. destruct (steps_advance _ _ (quiet_steps _ _ Hq) m Hm) as (m' & Hm' & He). exists m'.
  split; [done|done|by apply recorded_evolve|]. rewrite Ht. auto.
Qed.
Lemma event_new e w : repeats (operation_of e) = false → dispatches_new w (run_event w e).
Proof.
  intros He. destruct e as [o|o k]; cbn [run_event operation_of] in *.
  - transitivity (set_kill None w); [apply quiet_new; [apply set_kill_quiet|done]|]. by apply operation_new.
  - transitivity (set_kill (Some k) w); [apply quiet_new; [apply set_kill_quiet|done]|].
    transitivity (run_operation o (set_kill (Some k) w)); [by apply operation_new|].
    apply quiet_new; [by constructor|done].
Qed.

(** C5. A fire is handed over for dispatch at most once: in every history
    without recovery redispatch, retention and purges, in which the process
    may be killed at any moment and restarted any number of times, no two of
    all the dispatch tasks that were handed over, before and after the kills,
    are for the same fire, and a fire that was recorded before is not handed
    over again. *)
Theorem dispatched_once l w m :
  table w m → tasks_recorded w m → forallb (λ e, negb (repeats (operation_of e))) l = true →
  NoDup (t_fire_id <$> spawned (run_events w l)) ∧
  ∀ t, t ∈ spawned (run_events w l) → t ∈ spawned w ∨ m !! t_fire_id t = None.
Proof.
  intros Hm Hrec Hl.
  assert (dispatches_new w (run_events w l)) as Hnew.
  { clear Hm Hrec. revert w. induction l as [|e l IH]; intros w; cbn; [reflexivity|].
    cbn in Hl. apply andb_prop in Hl as [He Hl]. transitivity (run_event w e); [|by apply IH].
    apply negb_true_iff in He. by apply event_new. }
  destruct (Hnew m Hm) as (m' & [_ _ Hr Ht]). split; [by apply Hr|done].
Qed.

End operations.
