(* ===== verification/ScheduleCorrect.v ===== *)
(** * Plans of interval schedules

    The boundaries of an interval schedule are its anchor plus the positive
    multiples of the interval.  The planner returns the latest boundary that
    is due and the next one that is not; the arithmetic stays in [i64] for
    every schedule whose next boundary does. *)

From S2P Require Import Prelude Schedule.

Definition boundary (anchor interval t : Z) : Prop := ∃ k, 1 ≤ k ∧ t = anchor + k * interval.

(** An interval specification with the interval it names, in milliseconds. *)
Record interval_spec (spec : ScheduleSpecRecord) (interval : Z) : Prop := {
  interval_type : schedule_type spec = "interval";
  interval_seconds : ∃ secs, parse_i64 (expression spec) = Ok secs ∧ interval = secs * 1000;
  interval_positive : 0 < interval;
  interval_fits : interval ≤ i64_max;
}.

Lemma checked_ok z : i64_min ≤ z → z ≤ i64_max → checked z = Ok z.
Proof. intros. unfold checked, is_i64. rewrite !(proj2 (Z.leb_le _ _)) by done. done. Qed.
Definition in_i64 (z : Z) : Prop := i64_min ≤ z ≤ i64_max.
Lemma i64_add_ok a b : in_i64 (a + b) → i64_add a b = Ok (a + b).
Proof. intros []. by apply checked_ok. Qed.
Lemma i64_sub_ok a b : in_i64 (a - b) → i64_sub a b = Ok (a - b).
Proof. intros []. by apply checked_ok. Qed.
Lemma i64_mul_ok a b : in_i64 (a * b) → i64_mul a b = Ok (a * b).
Proof. intros []. by apply checked_ok. Qed.
Lemma i64_bounds : i64_min = - 9223372036854775808 ∧ i64_max = 9223372036854775807.
Proof. done. Qed.
Ltac machine :=
  cbn [mbind result_bind]; first [rewrite i64_add_ok | rewrite i64_sub_ok | rewrite i64_mul_ok];
  [cbn [mbind result_bind]|pose proof i64_bounds; unfold in_i64; nia].
Lemma interval_ms_ok spec interval : interval_spec spec interval → interval_ms spec = Ok (Some interval).
Proof.
  intros [_ (secs & Hs & ->) Hp Hf]. unfold interval_ms, i64_mul. rewrite Hs.
  rewrite (proj2 (Z.leb_gt secs 0)) by lia.
  rewrite checked_ok by (unfold i64_min in *; lia). done.
Qed.

Lemma quot_bounds a b : 0 ≤ a → 0 < b → Z.quot a b * b ≤ a < Z.quot a b * b + b ∧ 0 ≤ Z.quot a b.
Proof.
  intros Ha Hb. rewrite Z.quot_div_nonneg by lia. pose proof (Z.div_mod a b). pose proof (Z.mod_pos_bound a b).
  pose proof (Z.div_pos a b). lia.
Qed.

Section plan.
Context (spec : ScheduleSpecRecord) (interval : Z) (Hspec : interval_spec spec interval).
Context (last : option Z) (now : Z).
Notation anchor := (default (registered_at spec) last).
Context (Hanchor : 0 ≤ anchor) (Hroom : anchor + interval ≤ i64_max).
Context (Hnow : 0 ≤ now) (Hnow_room : now + interval ≤ i64_max).

Lemma due_exact :
  (compute_current_interval_due spec last now = Ok None ∧ now < anchor + interval) ∨
  ∃ d, compute_current_interval_due spec last now = Ok (Some d) ∧
       boundary anchor interval d ∧ d ≤ now < d + interval.
Proof using Hspec Hanchor Hroom Hnow Hnow_room.
  destruct Hspec as [_ _ Hp Hf]. unfold compute_current_interval_due. rewrite (interval_ms_ok _ _ Hspec).
  machine.
  destruct (Z.ltb_spec now (anchor + interval)) as [Hlt|Hge]; [by left|right].
  destruct (quot_bounds (now - (anchor + interval)) interval) as [Hq Hq0]; [lia..|].
  machine. set (q := Z.quot _ _) in *. machine. machine.
  eexists. split; [done|]. split; [|lia]. exists (q + 1). lia.
Qed.

Lemma next_exact (Hreg : 0 ≤ registered_at spec) (Hregroom : registered_at spec + interval ≤ i64_max) due :
  compute_current_interval_due spec last now = Ok due →
  ∃ n, compute_next_interval_fire spec last now due = Ok (Some n) ∧
       boundary anchor interval n ∧ now < n ∧ (n - interval ≤ now ∨ n = anchor + interval).
Proof using Hspec Hanchor Hroom Hnow Hnow_room.
  intros Hdue. destruct Hspec as [_ _ Hp Hf]. unfold compute_next_interval_fire. rewrite (interval_ms_ok _ _ Hspec).
  machine. destruct due_exact as [[Hnone Hlt]|(d & Hd & [k [Hk Hdk]] & Hdn)]; rewrite Hdue in *.
  - injection Hnone as ->. destruct last as [l|]; cbn in Hlt, Hanchor, Hroom |- *.
    + machine. rewrite (proj2 (Z.leb_gt _ _)) by lia.
      eexists. split; [done|]. split_and!; [exists 1; lia|lia|by right].
    + rewrite (proj2 (Z.ltb_lt _ _)) by done.
      eexists. split; [done|]. split_and!; [exists 1; lia|lia|by right].
  - injection Hd as ->.
    assert (bool_decide (last = None) && (now <? registered_at spec + interval) = false) as ->.
    { destruct last; [done|]. apply andb_false_iff. right. apply Z.ltb_ge. cbn in *. nia. }
    assert (default (registered_at spec + interval) (union (Some d) last) = d) as -> by (by destruct last).
    machine. rewrite (proj2 (Z.leb_gt _ _)) by lia.
    eexists. split; [done|]. split_and!; [exists (k + 1); lia|lia|left; lia].
Qed.
End plan.

(** The latest boundary that is due, and the first that is not. *)
Definition latest_due (anchor interval now d : Z) : Prop :=
  boundary anchor interval d ∧ d ≤ now ∧ ∀ t, boundary anchor interval t → t ≤ now → t ≤ d.
Definition first_after (anchor interval now n : Z) : Prop :=
  boundary anchor interval n ∧ now < n ∧ ∀ t, boundary anchor interval t → now < t → n ≤ t.

Lemma latest_due_intro anchor interval now d :
  0 < interval → boundary anchor interval d → d ≤ now < d + interval → latest_due anchor interval now d.
Proof.
  intros Hp [k [Hk Hdk]] Hd. split_and!; [by exists k|lia|]. intros t [j [Hj ->]] Ht. subst d.
  assert (j ≤ k) by nia. nia.
Qed.
Lemma first_after_intro anchor interval now n :
  0 < interval → boundary anchor interval n → now < n → n - interval ≤ now ∨ n = anchor + interval →
  first_after anchor interval now n.
Proof.
  intros Hp [k [Hk Hnk]] Hn Hor. split_and!; [by exists k|lia|]. intros t [j [Hj ->]] Ht. subst n.
  destruct Hor as [Hor|Hor]; [assert (k ≤ j) by nia; nia|]. assert (k = 1) as -> by nia. nia.
Qed.

(** A boundary is within its grace until the grace has passed since it;
    the saturating arithmetic of the code does not change that. *)
Definition in_grace (spec : ScheduleSpecRecord) (now d : Z) : bool :=
  bool_decide (now - d ≤ lateness_grace_secs spec * 1000).

Lemma within_grace_exact spec now d :
  0 ≤ d ≤ now → now ≤ i64_max → within_lateness_grace spec d now = in_grace spec now d.
Proof.
  intros Hd Hnow. unfold within_lateness_grace, in_grace, i64_clamp, i64_min, i64_max in *.
  case_bool_decide; [apply Z.leb_le|apply Z.leb_gt]; lia.
Qed.

(** What the planner computes from the boundary that is due and the next. *)
Lemma plan_of_boundaries `{Calendar} spec interval last fired now due n :
  interval_spec spec interval → enabled spec = true →
  compute_current_interval_due spec last now = Ok due →
  compute_next_interval_fire spec last now due = Ok (Some n) →
  ∃ plan, plan_schedule_from_boundaries spec last fired now = Ok plan ∧
    current_due_at plan = due ∧ next_fire_at plan = Some n ∧
    current_due_within_grace plan = (λ d, within_lateness_grace spec d now) <$> due ∧
    misfire_horizon_exclusive plan = (λ d, if within_lateness_grace spec d now then d else now) <$> due ∧
    decision plan =
      match due with
      | Some d => if within_lateness_grace spec d now then "due_within_grace" else "late_misfire_evaluation"
      | None => "waiting_for_next_boundary"
      end.
Proof.
  intros Hspec Hen Hdue Hn.
  unfold plan_schedule_from_boundaries, compute_current_due_at, compute_next_planned_fire.
  rewrite Hen, (interval_type _ _ Hspec). cbn [negb].
  rewrite !(decide_False (P := "interval" = "at")), !(decide_True (P := "interval" = "interval")) by done.
  rewrite Hdue. unfold mbind, result_bind. rewrite Hn.
  destruct due as [d|]; cbn [plan_decision fmap option_fmap option_map];
    [destruct (within_lateness_grace spec d now) eqn:E|]; eexists; split_and!; try done; cbn; by rewrite ?E.
Qed.

(** C36. The plan of an enabled interval schedule is exact, as long as one
    more interval fits in [i64] after its registration, its anchor and now:
    it is computed without overflow; what it calls due is the latest
    boundary not after now, and nothing exactly when no boundary has
    passed; it says whether no more than the grace has passed since that
    boundary; its next fire is the first boundary after now; misfires are
    evaluated up to the due boundary when that is within its grace and up
    to now otherwise; and its decision says which of these cases it is. *)
Theorem interval_plan_exact `{Calendar} spec interval last fired now :
  interval_spec spec interval → enabled spec = true →
  let anchor := default (registered_at spec) last in
  0 ≤ registered_at spec → registered_at spec + interval ≤ i64_max →
  0 ≤ anchor → anchor + interval ≤ i64_max → 0 ≤ now → now + interval ≤ i64_max →
  ∃ plan n, plan_schedule_from_boundaries spec last fired now = Ok plan ∧
    (∀ d, current_due_at plan = Some d ↔ latest_due anchor interval now d) ∧
    next_fire_at plan = Some n ∧ first_after anchor interval now n ∧
    current_due_within_grace plan = in_grace spec now <$> current_due_at plan ∧
    misfire_horizon_exclusive plan =
      (λ d, if in_grace spec now d then d else now) <$> current_due_at plan ∧
    decision plan =
      match current_due_at plan with
      | Some d => if in_grace spec now d then "due_within_grace" else "late_misfire_evaluation"
      | None => "waiting_for_next_boundary"
      end.
Proof.
  intros Hspec Hen anchor Hreg Hregroom Hanchor Hroom Hnow Hnowroom.
  pose proof (interval_positive _ _ Hspec) as Hpos.
  pose proof (due_exact spec interval Hspec last now Hanchor Hroom Hnow Hnowroom) as Hdue.
  assert (∃ due, compute_current_interval_due spec last now = Ok due) as [due Hrun] by (destruct Hdue as [[]|[? []]]; eauto).
  destruct (next_exact spec interval Hspec last now Hanchor Hroom Hnow Hnowroom Hreg Hregroom due Hrun)
    as (n & Hn & Hb & Hnn & Hor).
  destruct (plan_of_boundaries spec interval last fired now due n Hspec Hen Hrun Hn)
    as (plan & Hplan & Hcur & Hnext & Hgrace & Hhor & Hdec).
  exists plan, n. rewrite Hcur, Hgrace, Hhor, Hdec, Hnext. rewrite Hrun in Hdue.
  split_and!; [done| |done|by apply first_after_intro|..];
    destruct Hdue as [[[= ->] Hlt]|(d & [= ->] & Hbd & Hd)]; try done;
    try (cbn; rewrite within_grace_exact; [done|destruct Hbd as [k [Hk ->]]; nia|lia]).
  - intros d. split; [done|]. intros ([k [Hk ->]] & Hle & _). fold anchor in Hlt. nia.
  - pose proof (latest_due_intro _ _ _ _ Hpos Hbd Hd) as Hlat. intros d'. split; [by intros [= <-]|].
    intros (Hbd2 & Hle & Hmax). f_equal. destruct Hlat as (Hb' & Hl' & Hm').
    apply Z.le_antisymm; [by apply Hmax|by apply Hm'].
Qed.

(** C39. The validator of schedule expressions accepts every positive number
    of seconds, but above [i64::MAX / 1000] the computation of fire times
    overflows in its first operation: neither the next fire of such a
    schedule nor, while it is enabled, its plan can be computed. *)
Theorem accepted_interval_overflows `{Calendar} spec secs after last fired now :
  schedule_type spec = "interval" → enabled spec = true →
  parse_i64 (expression spec) = Ok secs → i64_max < secs * 1000 →
  validate_expression (schedule_type spec) (expression spec) = Ok tt ∧
  compute_next_fire (schedule_type spec) (expression spec) (timezone spec) after last = Err Panicked ∧
  plan_schedule_from_boundaries spec last fired now = Err Panicked.
Proof.
  intros Ht Hen Hp Hbig. rewrite Ht. assert (0 < secs) as Hpos by (pose proof i64_bounds; lia).
  assert (i64_mul secs 1000 = Err Panicked) as Hmul.
  { unfold i64_mul, checked, is_i64. rewrite (proj2 (Z.leb_gt (secs * 1000) _)) by done. by rewrite andb_false_r. }
  split_and!.
  - unfold validate_expression.
    rewrite (decide_False (P := "interval" = "cron")), (decide_True (P := "interval" = "interval")) by done. rewrite Hp. cbn.
    unfold reject. by rewrite (proj2 (Z.leb_gt _ _)).
  - unfold compute_next_fire, next_interval_fire.
    rewrite (decide_False (P := "interval" = "cron")), (decide_True (P := "interval" = "interval")) by done. rewrite Hp. cbn -[i64_mul].
    rewrite (proj2 (Z.leb_gt _ _)) by done. by rewrite Hmul.
  - unfold plan_schedule_from_boundaries, compute_current_due_at, compute_current_interval_due, interval_ms.
    rewrite Hen, Ht. cbn [negb].
    rewrite (decide_False (P := "interval" = "at")), (decide_True (P := "interval" = "interval")) by done. rewrite Hp.
    rewrite (proj2 (Z.leb_gt _ _)) by done. by rewrite Hmul.
Qed.
