(* ===== verification/MisfireCorrect.v ===== *)
(** * Missed fires are accounted for

    Detection finds exactly the boundaries that no fire records, the
    policies divide them between fires and recorded skips, and a timer pass
    leaves no boundary of its window without a row. *)

From S2P Require Import Prelude Float64 Json CanonicalRef Schedule SchedulerDb ScheduleSpec Scheduler.
From S2P Require Import SchedulerDbCorrect SchedulerCorrect ScheduleCorrect.

Section misfires.
Context `{Calendar} `{Sha256} `{Clock} `{FireCodec} `{RowOrder} `{SchedulerContext}.

(** ** Detection *)

(** The boundaries one scan visits: after the anchor, before the horizon, at
    most a batch. *)
Definition window (anchor interval horizon : Z) (batch : nat) : list Z :=
  (λ k, anchor + k * interval) <$>
    seqZ 1 (Z.min (Z.of_nat batch) ((horizon - 1 - anchor) `div` interval)).
Definition unrecorded (w : World) (spec : ScheduleSpecRecord) (t : Z) : Prop :=
  fires (db w) !! fire_id (schedule_id spec) t = None.
#[export] Instance unrecorded_dec w spec t : Decision (unrecorded w spec t) := _.

Lemma next_interval_at spec interval cursor :
  interval_spec spec interval → in_i64 (cursor + interval) →
  compute_next_fire (schedule_type spec) (expression spec) (timezone spec) cursor (Some cursor) =
  Ok (Some (cursor + interval)).
Proof.
  intros [Ht (secs & Hs & ->) Hp Hf] Hin. unfold compute_next_fire, next_interval_fire. rewrite Ht.
  destruct (decide ("interval" = "cron")) as [?|_]; [done|].
  destruct (decide ("interval" = "interval")) as [_|?]; [|done].
  rewrite Hs. cbn -[i64_mul i64_add]. rewrite (proj2 (Z.leb_gt secs 0)) by lia.
  rewrite i64_mul_ok by (split; [unfold i64_min; lia|lia]). cbn -[i64_add].
  rewrite i64_add_ok by done. cbn. by rewrite (proj2 (Z.ltb_ge _ _)) by lia.
Qed.

Lemma window_step anchor interval horizon n :
  0 < interval → anchor + interval < horizon →
  window anchor interval horizon (S n) = (anchor + interval) :: window (anchor + interval) interval horizon n.
Proof.
  intros Hp Hlt. unfold window.
  assert ((horizon - 1 - anchor) `div` interval = 1 + (horizon - 1 - (anchor + interval)) `div` interval) as Hq.
  { replace (horizon - 1 - anchor) with (horizon - 1 - (anchor + interval) + 1 * interval) by lia.
    rewrite Z.div_add by lia. lia. }
  set (q := (horizon - 1 - (anchor + interval)) `div` interval) in *.
  assert (0 ≤ q) by (apply Z.div_pos; lia).
  rewrite Hq, seqZ_cons by lia. cbn [fmap list_fmap]. f_equal; [lia|].
  replace (Z.pred (Z.min (Z.of_nat (S n)) (1 + q))) with (Z.min (Z.of_nat n) q) by lia.
  replace (Z.succ 1) with (1 + 1) by lia. rewrite <- (fmap_add_seqZ 1 1), <- list_fmap_compose.
  apply list_fmap_ext. intros i x _. cbn. lia.
Qed.
Lemma window_nil anchor interval horizon n :
  0 < interval → horizon ≤ anchor + interval → window anchor interval horizon n = [].
Proof.
  intros Hp Hle. unfold window. rewrite seqZ_nil; [done|].
  assert ((horizon - 1 - anchor) `div` interval < 1) by (apply Z.div_lt_upper_bound; lia). lia.
Qed.

Lemma detect_loop_exact spec interval horizon fuel cursor w :
  interval_spec spec interval → valid_rows w → 0 ≤ cursor → cursor < horizon → horizon + interval ≤ i64_max →
  detect_loop spec horizon fuel cursor w =
  (Ok (filter (unrecorded w spec) (window cursor interval horizon fuel)), w).
Proof.
  intros Hspec Hrows. revert cursor. induction fuel as [|fuel IH]; intros cursor Hc Hlt Hroom.
  - unfold window. rewrite seqZ_nil by lia. done.
  - pose proof (interval_positive _ _ Hspec) as Hp. cbn [detect_loop].
    rewrite (next_interval_at spec interval) by first [done|split; [unfold i64_min; lia|lia]].
    unfold lift. unfold mbind at 1, m_bind at 1.
    destruct (Z.ltb_spec (cursor + interval) horizon) as [Hin|Hout]; [|by rewrite window_nil].
    rewrite window_step by done. unfold get_fire, read. unfold mbind at 1, m_bind at 1.
    specialize (IH (cursor + interval) ltac:(lia) Hin Hroom).
    destruct (fires (db w) !! fire_id (schedule_id spec) (cursor + interval)) as [r|] eqn:Hr.
    + rewrite filter_cons_False by (unfold unrecorded; by rewrite Hr).
      destruct (Hrows _ _ Hr) as [_ Hv]. rewrite Hv. unfold mbind, m_bind. cbn. exact IH.
    + rewrite filter_cons_True by done. unfold mbind, m_bind. by rewrite IH.
Qed.

(** C33. Misfire detection is exact for interval schedules: it reads the
    store without changing it, and returns, in order, exactly those
    boundaries between the anchor and the horizon that no fire records, of
    the first ten thousand. *)
Theorem missed_exact spec interval anchor horizon w :
  interval_spec spec interval → valid_rows w → 0 ≤ anchor → horizon + interval ≤ i64_max →
  detect_misfires_before spec anchor horizon w =
  (Ok (filter (unrecorded w spec) (window anchor interval horizon MISFIRE_SCAN_BATCH)), w).
Proof.
  intros Hspec Hrows Ha Hroom. unfold detect_misfires_before.
  destruct (Z.leb_spec horizon anchor) as [Hle|Hlt]; [|by apply detect_loop_exact].
  rewrite window_nil; [done|apply (interval_positive _ _ Hspec)|].
  pose proof (interval_positive _ _ Hspec). lia.
Qed.

(** ** Policies *)

Definition recorded (w : World) (fid : string) : Prop := is_Some (fires (db w) !! fid).
Definition skipped_row (w : World) (spec : ScheduleSpecRecord) (reason : string) (t : Z) : Prop :=
  ∃ r, fires (db w) !! fire_id (schedule_id spec) t = Some r ∧
       f_status r = "skipped" ∧ f_trigger_reason r = reason.

Lemma recorded_stable w w' fid : steps w w' → recorded w fid → recorded w' fid.
Proof. intros Hs [p Hp]. destruct (steps_evolve _ _ Hs _ _ Hp) as (r & Hr & _). by exists r. Qed.
Lemma skipped_stable w w' spec reason t : steps w w' → skipped_row w spec reason t → skipped_row w' spec reason t.
Proof.
  intros Hs (p & Hp & Hst & Htr). destruct (steps_evolve _ _ Hs _ _ Hp) as (r & Hr & [_ Hfin]).
  rewrite Hfin in Hr by (by rewrite Hst). by exists p.
Qed.
Lemma context_inv {A} message (m : Op A) w a w' : op_context message m w = (Ok a, w') → m w = (Ok a, w').
Proof. unfold op_context. destruct (m w) as [[|[]] ?]; cbn; congruence. Qed.

Lemma record_skip_ok message fid spec t reason w w' :
  record_skip message fid spec t reason w = (Ok tt, w') →
  ∃ r, fires (db w') !! fid = Some r ∧ f_status r = "skipped" ∧ f_trigger_reason r = reason.
Proof.
  intros (now & w1 & [= <- <-] & Hrun)%bind_inv. apply context_inv, persist_ok in Hrun as (r & Hr & [_ Hfin]).
  rewrite Hfin in Hr by done. eexists. split; [exact Hr|done].
Qed.
Lemma steps_run {A} (m : Op A) w r w' :
  keeps steps m → m w = (r, w') → steps w w'.
Proof.
  intros Hm Hrun. specialize (Hm w). by rewrite Hrun in Hm.
Qed.
Lemma skip_misfires_ok spec reason l w w' :
  skip_misfires spec reason l w = (Ok tt, w') →
  Forall (skipped_row w' spec reason) l.
Proof.
  revert w. induction l as [|t l IH]; intros w Hrun; [constructor|].
  apply bind_inv in Hrun as ([] & w1 & Hskip & Hrun).
  pose proof (steps_run _ _ _ _ (steps_skips spec reason l) Hrun) as Hs.
  constructor; [|by apply (IH w1)]. eapply skipped_stable; [done|]. by apply record_skip_ok in Hskip.
Qed.

(** How a policy divides the missed boundaries into fires and skips. *)
Definition divided (policy : MisfirePolicy) (missed : list Z) (now : Z) (fired skipped : list Z) : Prop :=
  match policy with
  | Skip => fired = [] ∧ skipped = missed
  | FireOnceNow => missed = skipped ++ fired ∧ length fired = 1%nat
  | CatchUpBounded max => missed = fired ++ skipped ∧ Z.of_nat (length fired) = Z.max 0 max
  | CatchUpWithinSecs secs =>
      fired = filter (λ t, now - secs * 1000 ≤ t) missed ∧ skipped = filter (λ t, t < now - secs * 1000) missed
  end.
Lemma pending_times spec reason (l : list Z) : p_scheduled_at <$> (pending_fire spec reason <$> l) = l.
Proof. rewrite <- list_fmap_compose. by apply list_fmap_id. Qed.

Lemma checked_inv z y : checked z = Ok y → y = z.
Proof. unfold checked. destruct (is_i64 z); [congruence|done]. Qed.

Lemma apply_policy_divides spec policy missed now pending w w' :
  apply_policy spec policy missed now w = (Ok pending, w') →
  ∃ skipped reason,
    divided policy missed now (p_scheduled_at <$> pending) skipped ∧
    Forall (skipped_row w' spec reason) skipped ∧
    Forall (λ p, p_fire_id p = fire_id (schedule_id spec) (p_scheduled_at p)) pending.
Proof.
  destruct policy as [| |max|secs]; cbn [apply_policy].
  - intros ([] & w1 & Hskip & [= <- ->])%bind_inv. eexists missed, _.
    split; [done|]. split; [by eapply skip_misfires_ok|constructor].
  - intros ([] & w1 & Hskip & Hrun)%bind_inv. destruct (last missed) as [t|] eqn:Hl; [|done]. injection Hrun as <- ->.
    apply last_Some in Hl as [l ->]. rewrite length_app in Hskip. cbn in Hskip.
    rewrite Nat.add_sub, take_app_length in Hskip.
    eexists l, _. split; [done|]. split; [by eapply skip_misfires_ok|]. by constructor.
  - destruct (Z.ltb_spec (Z.of_nat (length missed)) max) as [|Hle]; [done|].
    intros ([] & w1 & Hskip & [= <- ->])%bind_inv. eexists (drop (Z.to_nat max) missed), _.
    split; [|split; [by eapply skip_misfires_ok|]].
    + cbn. rewrite pending_times, take_drop, length_take. split; [done|lia].
    + apply Forall_fmap, Forall_true. done.
  - intros (window & w1 & [Hw%checked_inv ->]%lift_inv & Hrun)%bind_inv.
    apply bind_inv in Hrun as (cutoff & w2 & [Hcut%checked_inv ->]%lift_inv & Hrun). subst window cutoff.
    apply bind_inv in Hrun as ([] & w1 & Hskip & [= <- ->]).
    eexists _, _. split; [cbn; by rewrite pending_times|]. split; [by eapply skip_misfires_ok|].
    apply Forall_fmap, Forall_true. done.
Qed.

(** C34. A misfire policy accounts for every missed boundary: each one is
    either returned as a fire to dispatch, under its own identity, or is in
    the store as a skipped fire; skip skips them all, fire-once keeps the
    last, bounded catch-up keeps the oldest ones up to its bound and
    windowed catch-up those inside the window. *)
Theorem policy_accounts spec policy missed now pending w w' :
  apply_policy spec policy missed now w = (Ok pending, w') →
  ∃ skipped reason,
    divided policy missed now (p_scheduled_at <$> pending) skipped ∧
    Forall (skipped_row w' spec reason) skipped ∧
    Forall (λ p, p_fire_id p = fire_id (schedule_id spec) (p_scheduled_at p)) pending.
Proof. apply apply_policy_divides. Qed.

(** C38. Bounded catch-up crashes the timer whenever at least one fire was
    missed and fewer than its bound: the slice [missed[max..]] is out of
    range.  When none was missed it returns without looking at the bound. *)
Theorem bounded_catch_up_panics spec max anchor horizon missed now w :
  parse_misfire_policy (misfire_policy spec) = Ok (CatchUpBounded max) →
  misfire_anchor spec w = (Ok anchor, w) → anchor < horizon →
  detect_misfires_before spec anchor horizon w = (Ok missed, w) →
  (missed ≠ [] → Z.of_nat (length missed) < max →
   evaluate_misfires_before spec horizon now w = (Err Panicked, w)) ∧
  (missed = [] → evaluate_misfires_before spec horizon now w = (Ok [], w)).
Proof.
  intros Hpol Hanchor Hlt Hdet. unfold evaluate_misfires_before.
  rewrite (bind_run _ _ _ _ _ Hanchor). rewrite (proj2 (Z.leb_gt _ _)) by done.
  rewrite (bind_run _ _ w missed w) by (unfold op_context; by rewrite Hdet).
  split; [|by intros ->]. intros Hne Hlen. rewrite decide_False by done.
  unfold resolve_misfire_policy. rewrite Hpol. unfold lift, mbind, m_bind, with_context, apply_policy.
  by rewrite (proj2 (Z.ltb_lt _ _)).
Qed.

(** ** A pass of the timer *)

Lemma claim_recorded rec claimed w w' :
  claim_fire_snapshot rec w = (Ok claimed, w') → recorded w' (f_fire_id rec).
Proof.
  intros Hrun. destruct claimed; [by apply claim_snapshot_true in Hrun as (_ & _ & ?)|].
  pose proof (steps_run _ _ _ _ (claim_snapshot_steps rec) Hrun) as Hs. eapply recorded_stable; [done|].
  apply bind_inv in Hrun as (b & w1 & Hclaim & Hrun). apply bind_inv in Hrun as (n & w2 & _ & [= -> _]).
  apply bind_inv in Hclaim as ([] & w2' & [_ ->]%lift_inv & (w2'' & k & Hin & ->)%transaction_inv).
  apply bind_inv in Hin as ([] & w3 & Hcur & Hin).
  apply bind_inv in Hcur as (c & w4 & [= <- <-] & [_ ->]%lift_inv).
  apply bind_inv in Hin as (prev & w4 & [= <- <-] & Hin). unfold recorded.
  destruct (fires (db w) !! f_fire_id rec) as [p|]; [by exists p|]. exfalso.
  rewrite claim_row in Hin. by apply bind_inv in Hin as ([] & w5 & _ & ?).
Qed.
Lemma dispatch_recorded fid spec t reason o w w' :
  dispatch_fire fid spec t reason false w = (Ok o, w') → recorded w' fid.
Proof.
  unfold dispatch_fire. case_decide as Hcap.
  - intros (now & w1 & [= <- <-] & Hrun)%bind_inv. apply bind_inv in Hrun as ([] & w2 & Hp & [= _ <-]).
    apply context_inv, persist_ok in Hp as (r & Hr & _). by exists r.
  - intros (record & w1 & [= <- <-] & Hrun)%bind_inv. apply bind_inv in Hrun as ([] & w1 & [_ ->]%lift_inv & Hrun).
    apply bind_inv in Hrun as (at_ & w1 & [= <- <-] & Hrun).
    apply bind_inv in Hrun as (claimed & w2 & Hclaim & Hrun).
    apply claim_recorded in Hclaim. cbn in Hclaim.
    destruct claimed; [|by injection Hrun as _ <-]. by apply bind_inv in Hrun as ([] & w3 & [= <-] & [= _ <-]).
Qed.

Lemma overlap_allow spec w b w' :
  overlap_policy spec = "allow" → check_overlap spec w = (Ok b, w') → b = true ∧ w' = w.
Proof.
  intros Hpol. unfold check_overlap, resolve_overlap_policy. rewrite Hpol.
  intros (policy & w1 & [[= <-] ->]%lift_inv & Hrun)%bind_inv.
  apply bind_inv in Hrun as (row & w1 & [= <- <-] & Hrun). destruct (latest_row _) as [fire|]; [|by injection Hrun].
  apply bind_inv in Hrun as ([] & w1 & [_ ->]%lift_inv & Hrun).
  apply bind_inv in Hrun as (thread & w1 & [_ ->]%lift_inv & Hrun). by injection Hrun.
Qed.
Lemma process_fires_recorded spec l w w' :
  overlap_policy spec = "allow" →
  process_fires spec l w = (Ok tt, w') → Forall (λ p, recorded w' (p_fire_id p)) l.
Proof.
  intros Hpol. revert w. induction l as [|p l IH]; intros w Hrun; [constructor|].
  apply bind_inv in Hrun as (b & w1 & Hover & Hrun). apply overlap_allow in Hover as [-> ->]; [|done].
  apply bind_inv in Hrun as (o & w1 & Hd%context_inv & Hrun).
  pose proof (steps_run _ _ _ _ (steps_fires spec l) Hrun) as Hs.
  constructor; [|by apply (IH w1)]. eapply recorded_stable; [done|]. eapply dispatch_recorded; exact Hd.
Qed.
Lemma elem_of_sort_fires p l : p ∈ sort_fires l ↔ p ∈ l.
Proof.
  assert (∀ x k, p ∈ insert_fire x k ↔ p = x ∨ p ∈ k) as Hins.
  { intros x k. induction k as [|y k IH]; cbn; [apply elem_of_cons|].
    destruct (p_scheduled_at x <=? p_scheduled_at y); rewrite !elem_of_cons; [done|]. rewrite IH. naive_solver. }
  unfold sort_fires. induction l as [|x l IH]; cbn; [done|]. rewrite Hins, IH, elem_of_cons. done.
Qed.

(** Every boundary a policy divides is a fire or a recorded skip. *)
Lemma divided_elem policy missed now fired skipped t :
  divided policy missed now fired skipped → t ∈ missed → t ∈ fired ∨ t ∈ skipped.
Proof.
  destruct policy; cbn.
  - intros [-> ->]. by right.
  - intros [-> _] [?|?]%elem_of_app; auto.
  - intros [-> _] [?|?]%elem_of_app; auto.
  - intros [-> ->] Ht. rewrite !list_elem_of_filter. destruct (decide (now - seconds * 1000 ≤ t)); [by left|right; split; [lia|done]].
Qed.

Lemma anchor_observe spec anchor w :
  misfire_anchor spec w = (Ok anchor, w) → misfire_anchor spec (observe w) = (Ok anchor, observe w).
Proof.
  assert (last_fire_of (observe w) (schedule_id spec) = last_fire_of w (schedule_id spec)) as Hlast by done.
  unfold misfire_anchor, get_cursor, get_last_fire, read, lift, mbind, m_bind. cbn -[last_fire_of].
  destruct (cursors (db w) !! schedule_id spec) as [c|]; [case_decide; [by intros [= <-]|]|]; cbn -[last_fire_of];
    rewrite Hlast; (destruct (last_fire_of w (schedule_id spec)); [|by intros [= <-]]);
    (destruct (with_context _ _); [by intros [= <-]|done]).
Qed.
Lemma valid_last_run message spec w :
  ∀ last w', valid_last_fire message spec w = (Ok last, w') → last = last_fire_of w (schedule_id spec) ∧ w' = w.
Proof.
  intros last w' (row & w1 & [= <- <-] & Hrun)%bind_inv. apply bind_inv in Hrun as ([] & w1 & Hv & [= <- <-]).
  split; [done|]. destruct (last_fire_of w (schedule_id spec)); [by apply lift_inv in Hv as [_ ->]|by injection Hv].
Qed.

Lemma evaluate_accounts spec interval anchor horizon now pending w w' :
  interval_spec spec interval → valid_rows w →
  misfire_anchor spec w = (Ok anchor, w) → 0 ≤ anchor → horizon + interval ≤ i64_max →
  evaluate_misfires_before spec horizon now w = (Ok pending, w') →
  ∀ t, t ∈ window anchor interval horizon MISFIRE_SCAN_BATCH →
    recorded w' (fire_id (schedule_id spec) t) ∨
    ∃ p, p ∈ pending ∧ p_fire_id p = fire_id (schedule_id spec) t.
Proof.
  intros Hspec Hrows Hanchor Ha Hroom Hrun t Ht. pose proof (interval_positive _ _ Hspec) as Hp.
  pose proof (steps_run _ _ _ _ (steps_misfires spec horizon now) Hrun) as Hs.
  unfold evaluate_misfires_before in Hrun. rewrite (bind_run _ _ _ _ _ Hanchor) in Hrun.
  destruct (Z.leb_spec horizon anchor) as [Hle|Hlt].
  { rewrite window_nil in Ht by lia. by apply not_elem_of_nil in Ht. }
  set (missed := filter (unrecorded w spec) (window anchor interval horizon MISFIRE_SCAN_BATCH)).
  rewrite (bind_run _ _ w missed w) in Hrun.
  2: { unfold op_context, detect_misfires_before. rewrite (proj2 (Z.leb_gt _ _)) by done.
       by rewrite (detect_loop_exact spec interval). }
  destruct (decide (unrecorded w spec t)) as [Hun|Hrec].
  2: { left. eapply recorded_stable; [done|]. unfold unrecorded in Hrec. unfold recorded. by destruct (fires (db w) !! _). }
  assert (t ∈ missed) as Hin by (by apply list_elem_of_filter).
  destruct (decide (missed = [])) as [Hnil|_]; [rewrite Hnil in Hin; by apply not_elem_of_nil in Hin|].
  apply bind_inv in Hrun as (policy & w1 & [_ ->]%lift_inv & Hrun).
  apply apply_policy_divides in Hrun as (skipped & reason & Hdiv & Hskip & Hids).
  apply (divided_elem _ _ _ _ _ t) in Hdiv as [Hf|Hsk]; [|left|done].
  - apply list_elem_of_fmap in Hf as (p & -> & Hpin). right. exists p. split; [done|].
    by apply (proj1 (Forall_forall _ _) Hids).
  - destruct (proj1 (Forall_forall _ _) Hskip t Hsk) as (r & Hr & _). by exists r.
Qed.

(** C32. A pass of the timer leaves no boundary unaccounted for: when it
    succeeds for an interval schedule that allows overlap, every boundary
    between the schedule's anchor and the misfire horizon, of the first ten
    thousand, has a row in the store afterwards, as a dispatched, failed or
    skipped fire, and so has the boundary that was due within its grace. *)
Theorem boundaries_accounted spec interval anchor plan due w w' :
  let now := clock (observations w) in
  let horizon := default now (misfire_horizon_exclusive plan) in
  interval_spec spec interval → overlap_policy spec = "allow" →
  valid_rows w →
  plan_schedule spec (last_fire_of w (schedule_id spec)) now = Ok plan → current_due_at plan = Some due →
  misfire_anchor spec w = (Ok anchor, w) → 0 ≤ anchor → horizon + interval ≤ i64_max →
  process_spec spec w = (Ok tt, w') →
  (∀ t, t ∈ window anchor interval horizon MISFIRE_SCAN_BATCH → recorded w' (fire_id (schedule_id spec) t)) ∧
  (current_due_within_grace plan = Some true → recorded w' (fire_id (schedule_id spec) due)).
Proof.
  intros now horizon Hspec Hover Hrows Hplan Hdue Hanchor Ha Hroom Hrun. unfold process_spec in Hrun.
  apply bind_inv in Hrun as (now' & w0 & [= <- <-] & Hrun). fold now in Hrun.
  apply bind_inv in Hrun as (last & w0 & [-> ->]%valid_last_run & Hrun).
  change (last_fire_of (observe w)) with (last_fire_of w) in Hrun. rewrite Hplan in Hrun. unfold lift in Hrun.
  unfold mbind at 1, m_bind at 1 in Hrun. rewrite Hdue in Hrun.
  apply bind_inv in Hrun as (pending & w1 & Hev & Hrun).
  pose proof (process_fires_recorded _ _ _ _ Hover Hrun) as Hall. rewrite Forall_forall in Hall.
  pose proof (steps_run _ _ _ _ (steps_fires spec _) Hrun) as Hs1. split.
  - intros t Ht. destruct (evaluate_accounts spec interval anchor horizon now pending (observe w) w1) with (t := t)
      as [Hr|(p & Hp & <-)]; try done; [by apply anchor_observe|by eapply recorded_stable|].
    apply Hall, elem_of_sort_fires, elem_of_app. by left.
  - intros Hg. rewrite Hg in Hall. apply (Hall (pending_fire spec "normal" due)).
    apply elem_of_sort_fires, elem_of_app. right. by apply list_elem_of_singleton.
Qed.

End misfires.
