(* ===== verification/SchedulerSamples.v ===== *)
(** * A concrete scheduler

    Instances of everything the scheduler takes from its environment, a
    schedule and a store, on which its theorems are applied. *)

From stdpp Require Import countable.
From S2P Require Import Prelude Float64 Json CanonicalRef Schedule SchedulerDb ScheduleSpec Scheduler.
From S2P Require Import Retention SchedulerDbCorrect RetentionCorrect SchedulerCorrect ScheduleCorrect MisfireCorrect.

#[local] Instance sample_calendar : Calendar := {|
  CronSchedule := unit; Tz := unit; Instant := Z;
  cron_from_str _ := Err "no cron"; tz_parse _ := Ok tt;
  from_timestamp_millis t := Some t; utc_now := 0;
  cron_after _ _ _ _ := None; parse_from_rfc3339 _ := None;
|}.
Lemma zero_bytes (n : nat) : Forall (λ b, 0 ≤ b < 256) (replicate n 0).
Proof. apply Forall_replicate. lia. Qed.
#[local] Instance sample_sha : Sha256 := {|
  sha256 _ := replicate 32 0; sha256_length _ := eq_refl; sha256_bytes _ := zero_bytes 32;
|}.
(** A clock that stands still at 300 seconds. *)
#[local] Instance sample_clock : Clock := {| clock _ := 300000 |}.
#[local] Instance sample_order : RowOrder := {|
  scan A l := l; scan_permutation A l := Permutation_refl l;
|}.
(** A daemon whose threads are all running. *)
#[local] Instance sample_context : SchedulerContext := {|
  thread_status _ _ := Ok (Some "running"); thread_result_outcome _ _ := Ok None;
  submit_cancel_result _ _ := Ok tt; recovery_execution_released _ := true;
  dispatch_scheduled_item _ _ := Ok tt;
|}.
(** Caches that are purged, a caller who owns every schedule, schedules
    without a source. *)
#[local] Instance sample_retention : RetentionContext := {|
  purge_caches _ := Ok tt; require_owner _ _ := Ok tt; verify_source _ _ := Ok None; remove_source _ _ := Ok tt;
|}.
#[local] Instance sample_tables : UnicodeTables := {| is_alphanumeric := is_ascii_alphanumeric |}.
#[local] Instance sample_json : JsonText := {| json_read _ := Ok (VObject []); json_write _ := "{}" |}.

(** A codec of fire records: the binary digits of their code. *)
Definition record_fields (r : FireRecord) : list positive :=
  [encode (f_fire_id r); encode (f_schedule_id r); encode (f_scheduled_at r); encode (f_fired_at r);
   encode (f_completed_at r); encode (f_thread_id r); encode (f_status r); encode (f_trigger_reason r);
   encode (f_outcome r); encode (f_signer_fingerprint r)].
Definition record_of_fields (l : list positive) : option FireRecord :=
  match l with
  | [a; b; c; d; e; f; g; h; i; j] =>
      a ← decode a; b ← decode b; c ← decode c; d ← decode d; e ← decode e; f ← decode f; g ← decode g;
      h ← decode h; i ← decode i; j ← decode j;
      Some {| f_fire_id := a; f_schedule_id := b; f_scheduled_at := c; f_fired_at := d; f_completed_at := e;
              f_thread_id := f; f_status := g; f_trigger_reason := h; f_outcome := i; f_signer_fingerprint := j |}
  | _ => None
  end.
#[local] Instance FireRecord_countable : Countable FireRecord.
Proof.
  refine (inj_countable record_fields record_of_fields _).
  intros []. unfold record_of_fields, record_fields. cbn [mbind option_bind]. by rewrite !decode_encode.
Defined.
Fixpoint digits (p : positive) : string :=
  match p with xH => "2" | xO p => "0" +:+ digits p | xI p => "1" +:+ digits p end.
Fixpoint undigits (s : string) : option positive :=
  match s with
  | EmptyString => None
  | String a s =>
      if byte_of a =? 48 then xO <$> undigits s
      else if byte_of a =? 49 then xI <$> undigits s
      else Some xH
  end.
Lemma undigits_digits p : undigits (digits p) = Some p.
Proof.
  induction p as [p IH|p IH|]; cbn [digits]; [| |done].
  - change (undigits ("1" +:+ digits p)) with (xI <$> undigits (digits p)). by rewrite IH.
  - change (undigits ("0" +:+ digits p)) with (xO <$> undigits (digits p)). by rewrite IH.
Qed.
Lemma digits_free b p : b ≠ 48 → b ≠ 49 → b ≠ 50 → free_of b (digits p) = true.
Proof.
  intros H0 H1 H2. induction p as [p IH|p IH|]; cbn [digits].
  - change (free_of b ("1" +:+ digits p)) with (negb (49 =? b) && free_of b (digits p)).
    by rewrite IH, (proj2 (Z.eqb_neq _ _)).
  - change (free_of b ("0" +:+ digits p)) with (negb (48 =? b) && free_of b (digits p)).
    by rewrite IH, (proj2 (Z.eqb_neq _ _)).
  - change (free_of b "2") with (negb (50 =? b) && true). by rewrite (proj2 (Z.eqb_neq _ _)).
Qed.
Lemma digits_nonempty p : digits p ≠ EmptyString.
Proof. destruct p; intros Hd; discriminate Hd. Qed.
Definition write_record (r : FireRecord) : string := digits (encode r).
Definition read_record (s : string) : Result string FireRecord :=
  match undigits s ≫= decode with Some r => Ok r | None => Err "not a record" end.
#[local] Instance sample_codec : FireCodec := {|
  fire_to_string := write_record; fire_canonical_json := write_record; fire_from_str := read_record;
|}.
#[local] Instance sample_codec_laws : FireCodecLaws.
Proof.
  assert (∀ r, read_record (write_record r) = Ok r) as Hrw.
  { intros r. unfold read_record, write_record. rewrite undigits_digits. cbn. by rewrite decode_encode. }
  constructor; intros r; [apply Hrw|apply Hrw|apply digits_nonempty| |]; by apply digits_free.
Qed.

(** A schedule every sixty seconds, registered at time zero. *)
Definition sample_hash : string := "0000000000000000000000000000000000000000000000000000000000000000".
Definition sample_spec (expr misfire overlap : string) : ScheduleSpecRecord := {|
  schedule_id := "backup"; item_ref := "tool:backup/run"; ref_bindings := []; params := "{}";
  schedule_type := "interval"; expression := expr; timezone := "UTC"; misfire_policy := misfire;
  overlap_policy := overlap; lateness_grace_secs := 60; enabled := true; project_root := None;
  signer_fingerprint := sample_hash; spec_hash := sample_hash; registered_at := 0;
  requester_fingerprint := "fp:operator"; capabilities := ["ryeos.execute.*"];
|}.
Definition empty_world : World := {|
  db := {| specs := ∅; fires := ∅; cursors := ∅; projection_state := {["fires" := 1]}; outbox := [] |};
  journals := ∅; spawned := []; cancelled := []; observations := 0; kill := None;
|}.
Definition minutely := sample_spec "60" "catch_up_within_secs:3600" "allow".
(** One that skips what it missed. *)
Definition skipper := sample_spec "60" "skip" "allow".
(** Two settled fires are kept. *)
Definition two_kept : FireRetentionPolicy := {| cutoff_ms := None; max_count := Some 2 |}.
(** A registration, a timer cycle killed with seven bytes of a journal line
    written, a restart, another cycle, a retention run killed when it has
    rewritten the journal, and a restart that rebuilds the fire table. *)
Definition sample_history : list event :=
  [Ran (Register skipper); Died (Cycle 0) {| writes_left := 2; torn_bytes := 7 |};
   Ran (Reconcile [skipper]); Ran (Cycle 0);
   Died (Retain (Some two_kept) false) {| writes_left := 2; torn_bytes := 0 |}; Ran (Reconcile [skipper])].
(** The same without retention. *)
Definition dispatch_history : list event :=
  [Ran (Register skipper); Died (Cycle 0) {| writes_left := 2; torn_bytes := 7 |};
   Ran (Reconcile [skipper]); Ran (Cycle 0)].

Lemma empty_valid : valid_rows empty_world.
Proof. apply map_Forall_empty. Qed.
Lemma empty_table : table empty_world ∅.
Proof.
  exists [], [], EmptyString. constructor; try done; [apply replays_nil|].
  intros id [? Hid]. cbn in Hid. by rewrite lookup_empty in Hid.
Qed.
(** The cycle is killed, and so is the retention run, which leaves the fire
    table unpublished. *)
Lemma killed_operations :
  (timer_cycle 0 (set_kill (Some {| writes_left := 2; torn_bytes := 7 |}) (upsert_spec skipper empty_world).2)).1
    = Err Killed ∧
  projection_is_current (db (run_events empty_world (take 5 sample_history))) = false.
Proof. split; vm_compute; reflexivity. Qed.
Lemma minutely_interval : interval_spec minutely 60000.
Proof. constructor; [done|by exists 60|done|done]. Qed.

(** ** The theorems applied *)

Lemma run_pair {A} (m : Op A) w a : (m w).1 = Ok a → m w = (Ok a, (m w).2).
Proof. destruct (m w). cbn. by intros ->. Qed.

Lemma fire_lifecycle_witness : valid_rows (run_events empty_world sample_history).
Proof. apply (fire_lifecycle sample_history empty_world); [apply empty_table|vm_compute; reflexivity]. Defined.

Lemma fires_durable_witness :
  ∃ m' n w1 w2,
    follows (purged sample_history) (retained sample_history) ∅ m' ∧
    (projection_is_current (db (run_events empty_world sample_history)) = true →
       fires (db (run_events empty_world sample_history)) = m') ∧
    drain_fire_outbox (set_kill None (run_events empty_world sample_history)) = (Ok n, w1) ∧
    rebuild_fires_from_dir w1 = (Ok tt, w2) ∧
    fires (db w2) = m' ∧ outbox (db w2) = [] ∧ projection_is_current (db w2) = true.
Proof. apply (fires_durable sample_history empty_world ∅), empty_table. Defined.
Lemma sample_rows :
  size (fires (db (run_events empty_world dispatch_history))) = 5%nat ∧
  size (fires (db (run_events empty_world sample_history))) = 3%nat.
Proof. split; vm_compute; reflexivity. Qed.

Lemma dispatched_once_witness :
  NoDup (t_fire_id <$> spawned (run_events empty_world dispatch_history)).
Proof.
  apply (dispatched_once dispatch_history empty_world ∅); [apply empty_table| |reflexivity].
  split; [constructor|]. intros t Ht. by apply not_elem_of_nil in Ht.
Defined.

(** Five fires, of which four are settled, and the policy that keeps two. *)
Definition fired : World := run_events empty_world dispatch_history.
Lemma fired_current : projection_is_current (db fired) = true.
Proof. vm_compute. reflexivity. Qed.
Lemma fired_table : table fired (fires (db fired)).
Proof.
  destruct (events_follow dispatch_history empty_world ∅ empty_table) as (m & Hm & _).
  fold fired in Hm. pose proof Hm as (pub & pend & tl & Hd).
  by rewrite (holds_current _ _ _ _ _ Hd fired_current).
Qed.
Lemma fired_plannable : plannable fired.
Proof.
  intros id spec n Hs. assert (specs (db fired) = {["backup" := skipper]}) as Hspecs by (vm_compute; reflexivity).
  rewrite Hspecs in Hs. apply lookup_singleton_Some in Hs as [<- <-].
  assert (∃ plan, plan_schedule skipper (last_fire_of fired "backup") 300000 = Ok plan) as Hp; [|exact Hp].
  assert (match plan_schedule skipper (last_fire_of fired "backup") 300000 with Ok _ => true | Err _ => false end = true) as Hok
    by (vm_compute; reflexivity).
  destruct (plan_schedule skipper (last_fire_of fired "backup") 300000); [by eexists|done].
Qed.
Lemma retention_exact_witness :
  ∃ n w', retain_fires (Some two_kept) false fired = (Ok n, w') ∧ retention_done two_kept (fires (db fired)) n w'.
Proof.
  apply (retention_exact two_kept fired (fires (db fired)));
    [apply fired_table|apply fired_current|vm_compute; reflexivity|apply fired_plannable|reflexivity].
Defined.
Lemma retention_dry_run_witness :
  retain_fires (Some two_kept) true fired =
    (Ok (Z.of_nat (size (fires (db fired))) - Z.of_nat (size (unexpired two_kept (fires (db fired))))), observe fired).
Proof.
  apply (retention_dry_run two_kept fired (fires (db fired)));
    [apply fired_table|apply fired_current|vm_compute; reflexivity|vm_compute; reflexivity|reflexivity].
Defined.
Definition kept_two : World := (retain_fires (Some two_kept) false fired).2.
Lemma retention_bounds_witness :
  let before := rows_of "backup" (fires (db fired)) in
  let after := rows_of "backup" (fires (db kept_two)) in
  (∀ fid r, before !! fid = Some r → ¬ settled r ∨ newest before r → after !! fid = Some r) ∧
  (∀ fid r cutoff, after !! fid = Some r → settled r → cutoff_ms two_kept = Some cutoff →
     newest before r ∨ cutoff ≤ latest_timestamp r) ∧
  (∀ bound, max_count two_kept = Some bound → Z.of_nat (size (filter (λ e, settled e.2) after)) ≤ Z.max bound 1).
Proof.
  apply (retention_bounds two_kept fired (fires (db fired)) 2 kept_two "backup");
    [apply fired_table|vm_compute; reflexivity|].
  unfold kept_two. apply run_pair. vm_compute. reflexivity.
Defined.

Lemma interval_plan_exact_witness :
  ∃ plan n, plan_schedule_from_boundaries minutely (Some 120000) None 300000 = Ok plan ∧
    (∀ d, current_due_at plan = Some d ↔ latest_due 120000 60000 300000 d) ∧
    next_fire_at plan = Some n ∧ first_after 120000 60000 300000 n ∧
    current_due_within_grace plan = in_grace minutely 300000 <$> current_due_at plan ∧
    misfire_horizon_exclusive plan =
      (λ d, if in_grace minutely 300000 d then d else 300000) <$> current_due_at plan ∧
    decision plan =
      match current_due_at plan with
      | Some d => if in_grace minutely 300000 d then "due_within_grace" else "late_misfire_evaluation"
      | None => "waiting_for_next_boundary"
      end.
Proof.
  apply (interval_plan_exact minutely 60000 (Some 120000) None 300000);
    [apply minutely_interval|reflexivity|unfold i64_max; cbn; lia..].
Defined.

Definition forever := sample_spec "9223372036854775807" "skip" "allow".
Lemma accepted_interval_overflows_witness :
  validate_expression (schedule_type forever) (expression forever) = Ok tt ∧
  compute_next_fire (schedule_type forever) (expression forever) (timezone forever) 0 None = Err Panicked ∧
  plan_schedule_from_boundaries forever None None 300000 = Err Panicked.
Proof.
  apply (accepted_interval_overflows forever i64_max 0 None None 300000);
    [reflexivity|reflexivity|vm_compute; reflexivity|reflexivity].
Defined.

Lemma missed_exact_witness :
  detect_misfires_before minutely 0 300000 empty_world =
  (Ok (filter (unrecorded empty_world minutely) (window 0 60000 300000 MISFIRE_SCAN_BATCH)), empty_world).
Proof.
  apply (missed_exact minutely 60000 0 300000 empty_world);
    [apply minutely_interval|apply empty_valid|lia|unfold i64_max; lia].
Defined.

(** Three missed fires, of which the policy keeps the last. *)
Definition skipping : World :=
  (apply_policy minutely FireOnceNow [60000; 120000; 180000] 300000 empty_world).2.
Lemma policy_accounts_witness :
  ∃ skipped reason,
    divided FireOnceNow [60000; 120000; 180000] 300000 [180000] skipped ∧
    Forall (skipped_row skipping minutely reason) skipped ∧
    Forall (λ p, p_fire_id p = fire_id "backup" (p_scheduled_at p))
      [pending_fire minutely "misfire_fire_once" 180000].
Proof.
  apply (policy_accounts minutely FireOnceNow [60000; 120000; 180000] 300000
           [pending_fire minutely "misfire_fire_once" 180000] empty_world skipping).
  unfold skipping. apply run_pair. vm_compute. reflexivity.
Defined.

(** Ten fires may be caught up, four were missed. *)
Definition bounded := sample_spec "60" "catch_up_bounded:10" "allow".
Lemma bounded_catch_up_panics_witness :
  evaluate_misfires_before bounded 300000 300000 empty_world = (Err Panicked, empty_world) ∧
  evaluate_misfires_before bounded 60000 300000 empty_world = (Ok [], empty_world).
Proof.
  split.
  - apply (bounded_catch_up_panics bounded 10 0 300000 [60000; 120000; 180000; 240000] 300000 empty_world);
      [vm_compute; reflexivity|vm_compute; reflexivity|lia|vm_compute; reflexivity|done|cbn; lia].
  - apply (bounded_catch_up_panics bounded 10 0 60000 [] 300000 empty_world);
      [vm_compute; reflexivity|vm_compute; reflexivity|lia|vm_compute; reflexivity|reflexivity].
Defined.

Definition registered : World := (upsert_spec minutely empty_world).2.
Lemma registered_valid : valid_rows registered.
Proof. unfold valid_rows. replace (fires (db registered)) with (∅ : gmap string FireRecord) by (vm_compute; reflexivity). apply map_Forall_empty. Qed.
Definition passed : World := (process_spec minutely registered).2.
Definition minutely_plan : SchedulePlan :=
  {| last_scheduled_at := None; last_fire_at := None; current_due_at := Some 300000;
     current_due_within_grace := Some true; misfire_horizon_exclusive := Some 300000;
     next_fire_at := Some 360000; decision := "due_within_grace";
     decision_reason := "current due boundary is within lateness grace" |}.
Lemma boundaries_accounted_witness :
  (∀ t, t ∈ window 0 60000 300000 MISFIRE_SCAN_BATCH → recorded passed (fire_id "backup" t)) ∧
  (Some true = Some true → recorded passed (fire_id "backup" 300000)).
Proof.
  apply (boundaries_accounted minutely 60000 0 minutely_plan 300000 registered passed);
    [apply minutely_interval|reflexivity|apply registered_valid|vm_compute; reflexivity
    |reflexivity|vm_compute; reflexivity|lia|cbn; unfold i64_max; lia|].
  unfold passed. apply run_pair. vm_compute. reflexivity.
Defined.

(** A schedule that waits for its running thread and catches up two fires. *)
Definition waiting := sample_spec "60" "catch_up_bounded:2" "skip".
Definition in_flight : World :=
  (dispatch_fire (fire_id "backup" 0) waiting 0 "normal" false (upsert_spec waiting empty_world).2).2.
Definition held_back : World := (process_spec waiting in_flight).2.
(** A catch-up fire held back by the overlap policy is not retried: with two
    of four missed fires to catch up and a thread still running, the pass
    succeeds, records the first as skipped and leaves the second without a
    row, and the anchor of the next pass is already past both, at the newest
    of the fires the policy skipped; the next pass leaves it without a row. *)
Example held_catch_up_is_lost :
  (process_spec waiting in_flight).1 = Ok tt ∧
  (detect_misfires_before waiting 0 300000 in_flight).1 = Ok [60000; 120000; 180000; 240000] ∧
  (f_status <$> fires (db held_back) !! fire_id "backup" 60000) = Some "skipped" ∧
  fires (db held_back) !! fire_id "backup" 120000 = None ∧
  (f_status <$> fires (db held_back) !! fire_id "backup" 180000) = Some "skipped" ∧
  (misfire_anchor waiting held_back).1 = Ok 240000 ∧
  (process_spec waiting held_back).1 = Ok tt ∧
  fires (db (process_spec waiting held_back).2) !! fire_id "backup" 120000 = None.
Proof. by vm_compute. Qed.
