(* ===== verification/CasStore.v ===== *)
(** * Content-addressed storage

    The kernel library's object store ([lillux/src/cas.rs]) and its clock
    ([lillux/src/time.rs]): the canonical JSON encoding that objects are
    hashed and stored in, verified reads, and the batch write that
    publishes immutable entries one by one after checking all of them.

    The object namespace of a store is the map from the file name of an
    entry, its hash, to the bytes of the file.  Opening directories, the
    hidden temporary files and the durability barriers are not modelled: a
    batch that is cut short has published some of its complete entries and
    nothing else, which is the contract [atomic_write_batch] documents. *)

From S2P Require Import Prelude Float64 Json CanonicalRef Schedule.

(** ** Loops over results *)

(** [for x in l { f(x)?; }]. *)
Definition each {E A} (f : A → Result E unit) : list A → Result E unit :=
  fix go l :=
    match l with
    | [] => Ok tt
    | x :: l => f x ;; go l
    end.

(** [for x in l { acc = f(acc, x)?; }]. *)
Definition each_from {E A B} (f : B → A → Result E B) : B → list A → Result E B :=
  fix go acc l :=
    match l with
    | [] => Ok acc
    | x :: l => acc ← f acc x ; go acc l
    end.

(** ** Canonical JSON *)

Definition hex4 (n : Z) : string :=
  String (hex_digit (Z.land (Z.shiftr n 12) 15)) (String (hex_digit (Z.land (Z.shiftr n 8) 15))
    (String (hex_digit (Z.land (Z.shiftr n 4) 15)) (String (hex_digit (Z.land n 15)) EmptyString))).
Definition unicode_escape (n : Z) : string := backslash +:+ "u" +:+ hex4 n.

(** One character of [write_string]. *)
Definition write_char (c : Z) : string :=
  if c =? 34 then backslash +:+ dquote
  else if c =? 92 then backslash +:+ backslash
  else if c =? 8 then backslash +:+ "b"
  else if c =? 12 then backslash +:+ "f"
  else if c =? 10 then backslash +:+ "n"
  else if c =? 13 then backslash +:+ "r"
  else if c =? 9 then backslash +:+ "t"
  else if c <? 32 then unicode_escape c
  else if c <? 128 then String (ascii_of_Z c) EmptyString
  else if c <=? 65535 then unicode_escape c
  else
    let scalar := c - 65536 in
    unicode_escape (55296 + Z.shiftr scalar 10) +:+ unicode_escape (56320 + Z.land scalar 1023).

Definition write_string (s : string) : string :=
  dquote +:+ foldr (λ c out, write_char c +:+ out) EmptyString (chars s) +:+ dquote.

Fixpoint join_commas (l : list string) : string :=
  match l with
  | [] => EmptyString
  | [x] => x
  | x :: l => x +:+ "," +:+ join_commas l
  end.

(** [keys.sort()], each key with the text of its value. *)
Fixpoint insert_key (k t : string) (l : list (string * string)) : list (string * string) :=
  match l with
  | [] => [(k, t)]
  | (k', t') :: l' =>
      match String.compare k k' with
      | Gt => (k', t') :: insert_key k t l'
      | _ => (k, t) :: l
      end
  end.
Definition sort_keys : list (string * string) → list (string * string) :=
  foldr (λ '(k, t) l, insert_key k t l) [].

Section canonical.
Context `{Externals}.

(** [write_canonical_json]; its error is never constructed. *)
Fixpoint write_canonical_json (v : Value) : string :=
  match v with
  | VNull => "null"
  | VBool true => "true"
  | VBool false => "false"
  | VNumber number => number_to_string number
  | VString s => write_string s
  | VObject m =>
      "{" +:+
      join_commas (map (λ '(k, t), write_string k +:+ ":" +:+ t)
                     (sort_keys (map (λ '(k, v), (k, write_canonical_json v)) m)))
      +:+ "}"
  | VArray l => "[" +:+ join_commas (map write_canonical_json l) +:+ "]"
  end.
Definition canonical_json (v : Value) : string := write_canonical_json v.

End canonical.

(** ** Hashes *)

Definition is_ascii_uppercase (b : Z) : bool := (65 <=? b) && (b <=? 90).
Definition valid_hash (s : string) : bool := (len s =? 64) && all_bytes is_ascii_hexdigit s.
(** [hash.bytes().any(|byte| byte.is_ascii_uppercase())] is false. *)
Definition no_uppercase (s : string) : bool := all_bytes (λ b, negb (is_ascii_uppercase b)) s.
Definition canonical_cas_hash (hash : string) : bool := valid_hash hash && no_uppercase hash.

(** ** The store *)

Definition Cas : Type := gmap string string.

(** [serde_json::from_slice] into a [Value]. *)
Class JsonReader := { from_slice : string → option Value }.

Section store.
Context `{Externals} `{Sha256} `{JsonReader}.

Definition read_verified_entry (bytes expected_hash : string) : Sch string :=
  reject (negb (bool_decide (sha256_hex bytes = expected_hash))) "CAS corruption" ;;
  Ok bytes.

(** [CasStore::get_object]. *)
Definition get_object (cas : Cas) (hash : string) : Sch (option Value) :=
  if negb (canonical_cas_hash hash) then Ok None
  else
    match cas !! hash with
    | None => Ok None
    | Some file =>
        data ← read_verified_entry file hash ;
        value ← some_or (from_slice data) "decode CAS object" ;
        reject (negb (bool_decide (canonical_json value = data)))
          "CAS object bytes violate the RyeOS canonical JSON contract" ;;
        Ok (Some value)
    end.

(** [verify_batch_entry]. *)
Definition verify_batch_entry (cas : Cas) (hash data : string) : Sch unit :=
  existing ← some_or (cas !! hash) "CAS batch entry disappeared" ;
  reject (negb (bool_decide (existing = data)))
    "immutable CAS batch entry differs from requested bytes".

End store.

(** The first pass of [atomic_write_batch]: an entry that exists must hold
    the requested bytes, the others are prepared. *)
Fixpoint prepare_batch (cas : Cas) (writes : list (string * string)) : Sch (list (string * string)) :=
  match writes with
  | [] => Ok []
  | (hash, data) :: writes =>
      match cas !! hash with
      | Some _ =>
          verify_batch_entry cas hash data ;;
          prepare_batch cas writes
      | None =>
          prepared ← prepare_batch cas writes ;
          Ok ((hash, data) :: prepared)
      end
  end.

(** The publication of a prepared entry: created when it is still absent,
    otherwise compared with the entry that is there. *)
Definition publish_entry (cas : Cas) (hash data : string) : Sch Cas :=
  match cas !! hash with
  | None => Ok (<[hash := data]> cas)
  | Some _ => verify_batch_entry cas hash data ;; Ok cas
  end.

(** ** The clock *)

(** The readings of [SystemTime::now], in nanoseconds from the epoch, by the
    number of the reading: nothing is assumed of them.  A reading before the
    epoch counts as the epoch ([unwrap_or_default]). *)
Class SystemTime := { system_time : nat → Z }.
Definition nanos_since_epoch `{SystemTime} (reading : nat) : Z := Z.max 0 (system_time reading).
Definition secs_since_epoch `{SystemTime} (reading : nat) : Z :=
  Z.quot (nanos_since_epoch reading) 1000000000.

(** [{n:0width$}]. *)
Fixpoint pad_zeros (missing : nat) (s : string) : string :=
  match missing with
  | O => s
  | S missing => String (ascii_of_Z 48) (pad_zeros missing s)
  end.
Definition padded (width : nat) (n : Z) : string :=
  let digits := pretty n in pad_zeros (width - String.length digits) digits.

Definition civil_from_days (days : Z) : Z * Z * Z :=
  let z := days + 719468 in
  let era := Z.quot (if 0 <=? z then z else z - 146096) 146097 in
  let doe := z - era * 146097 in
  let yoe := Z.quot (doe - Z.quot doe 1460 + Z.quot doe 36524 - Z.quot doe 146096) 365 in
  let y := yoe + era * 400 in
  let doy := doe - (365 * yoe + Z.quot yoe 4 - Z.quot yoe 100) in
  let mp := Z.quot (5 * doy + 2) 153 in
  let d := doy - Z.quot (153 * mp + 2) 5 + 1 in
  let m := if mp <? 10 then mp + 3 else mp - 9 in
  let y := if m <=? 2 then y + 1 else y in
  (y, m, d).

Definition iso8601_from_unix_secs (secs : Z) : string :=
  let days := Z.quot secs 86400 in
  let day_secs := Z.rem secs 86400 in
  let hours := Z.quot day_secs 3600 in
  let minutes := Z.quot (Z.rem day_secs 3600) 60 in
  let seconds := Z.rem day_secs 60 in
  let '(year, month, day) := civil_from_days days in
  padded 4 year +:+ "-" +:+ padded 2 month +:+ "-" +:+ padded 2 day +:+ "T" +:+
  padded 2 hours +:+ ":" +:+ padded 2 minutes +:+ ":" +:+ padded 2 seconds +:+ "Z".
