(* ===== verification/ChainObjects.v ===== *)
(** * The objects of an execution chain

    [ryeos-state/src/objects]: project authorities
    ([execution_project_authority.rs]), thread snapshots
    ([thread_snapshot.rs]), thread events ([thread_event.rs]) and chain
    states ([chain_state.rs]), each with its validation.

    Messages are the constant text of the source's messages; contexts added
    to an error on its way out are left out.  A path is its text, and two
    paths are equal when their components are. *)

From stdpp Require Import sorting.
From S2P Require Import Prelude Float64 Json CanonicalRef Schedule ScheduleSpec CasStore.

(** ** Reading and writing objects with [serde]

    The conversions [#[derive(Serialize, Deserialize)]] generates for a type
    of object. *)
Class Wire (A : Type) := {
  to_value : A → Value;
  from_value : Value → option A;
}.

(** The content hash of an object. *)
Definition object_json `{Externals} `{Wire A} (a : A) : string := canonical_json (to_value a).
Definition object_hash `{Externals} `{Sha256} `{Wire A} (a : A) : string :=
  sha256_hex (object_json a).

(** [u64::checked_add]; sequence numbers are natural numbers. *)
Definition checked_add_u64 (a b : N) : option N :=
  if (a + b <=? 18446744073709551615)%N then Some (a + b)%N else None.

(** ** Shared checks *)

Definition SCHEMA_VERSION : Z := 1.

Definition validate_object_kind (kind expected : string) : Sch unit :=
  reject (negb (bool_decide (kind = expected))) "object kind mismatch".

(** [thread_snapshot::validate_canonical_hash]. *)
Definition validate_canonical_hash (label value : string) : Sch unit :=
  reject (negb (valid_hash value) || negb (no_uppercase value))
    (label +:+ " is not a canonical lowercase hash").
Definition validate_optional_canonical_hash (label : string) (value : option string) : Sch unit :=
  match value with Some hash => validate_canonical_hash label hash | None => Ok tt end.

(** [char::is_control]. *)
Definition is_control (c : Z) : bool := (c <? 32) || ((127 <=? c) && (c <? 160)).
Definition has_control (s : string) : bool := existsb is_control (chars s).

Definition validate_trimmed_control_free (label value : string) (allow_empty : bool) : Sch unit :=
  reject ((negb allow_empty && is_empty value) || negb (bool_decide (trim value = value)))
    (label +:+ " must be non-empty and have no surrounding whitespace") ;;
  reject (has_control value) (label +:+ " must not contain control characters").

(** ** Timestamps *)

(** [NaiveDateTime::parse_from_str] with the format
    [%Y-%m-%dT%H:%M:%SZ], the instant in seconds since the epoch. *)
Class NaiveDateTime := { parse_from_str : string → option Z }.

Definition byte_at (s : string) (i : nat) : Z :=
  match String.get i s with Some a => byte_of a | None => -1 end.
Definition digit_indices : list nat := [0; 1; 2; 3; 5; 6; 8; 9; 11; 12; 14; 15; 17; 18]%nat.

Definition parse_canonical_timestamp `{NaiveDateTime} (value : string) : Sch Z :=
  let separators_are_canonical :=
    (len value =? 20) && (byte_at value 4 =? 45) && (byte_at value 7 =? 45) &&
    (byte_at value 10 =? 84) && (byte_at value 13 =? 58) && (byte_at value 16 =? 58) &&
    (byte_at value 19 =? 90) in
  let digits_are_ascii :=
    separators_are_canonical && forallb (λ i, is_ascii_digit (byte_at value i)) digit_indices in
  reject (negb digits_are_ascii)
    "timestamp must use canonical whole-second UTC YYYY-MM-DDTHH:MM:SSZ form" ;;
  reject (59 <? digits_value (slice 17 19 value)) "timestamp seconds must be within 00..=59" ;;
  timestamp ← some_or (parse_from_str value) "timestamp is not a valid UTC calendar instant" ;
  let year := digits_value (slice 0 4 value) in
  reject (negb ((1970 <=? year) && (year <=? 9999)))
    "timestamp must be within 1970-01-01T00:00:00Z..=9999-12-31T23:59:59Z" ;;
  Ok timestamp.

(** [option.map(parse_canonical_timestamp).transpose()?]. *)
Definition parse_optional_timestamp `{NaiveDateTime} (value : option string) : Sch (option Z) :=
  match value with
  | Some value => timestamp ← parse_canonical_timestamp value ; Ok (Some timestamp)
  | None => Ok None
  end.
Definition is_some_and {A} (o : option A) (f : A → bool) : bool :=
  match o with Some a => f a | None => false end.

(** ** Paths *)

Definition path_eqb (a b : string) : bool := bool_decide (components a = components b).
Definition option_eqb {A} (eqb : A → A → bool) (a b : option A) : bool :=
  match a, b with
  | Some a, Some b => eqb a b
  | None, None => true
  | _, _ => false
  end.

Definition validate_absolute_normal_path (label path : string) : Sch unit :=
  reject (negb (is_absolute path) || negb (forallb normal_or_root (components path)))
    (label +:+ " must be an absolute normalized path").

(** [previous.is_some_and(|value| value >= name)]. *)
Definition not_after (previous : option string) (name : string) : bool :=
  is_some_and previous (λ value,
    match String.compare value name with Lt => false | _ => true end).

(** The loops that require a strictly sorted list of checked names. *)
Definition validate_sorted (check : string → Sch unit) (message : string)
    : option string → list string → Sch unit :=
  fix go previous names :=
    match names with
    | [] => Ok tt
    | name :: names =>
        check name ;;
        reject (not_after previous name) message ;;
        go (Some name) names
    end.
Definition validate_sorted_relative_paths (label : string) (paths : list string) : Sch unit :=
  validate_sorted (λ path,
    validate_trimmed_control_free label path false ;;
    reject (is_absolute path || negb (forallb is_normal (components path)))
      (label +:+ " must be a normalized relative path"))
    (label +:+ "s must be strictly sorted and unique") None paths.
Definition environment_name_byte (first : bool) (b : Z) : bool :=
  (b =? 95) || is_ascii_uppercase b || (negb first && is_ascii_digit b).
Definition canonical_environment_name (name : string) : bool :=
  match name with
  | EmptyString => true
  | String a rest =>
      environment_name_byte true (byte_of a) && all_bytes (environment_name_byte false) rest
  end.
Definition validate_allowed_names (names : list string) : Sch unit :=
  validate_sorted (λ name,
    validate_trimmed_control_free "environment name" name false ;;
    reject (negb (canonical_environment_name name)) "invalid canonical environment name")
    "environment names must be strictly sorted and unique" None names.
Definition validate_capability_ceiling (capabilities : list string) : Sch unit :=
  validate_sorted (λ capability,
    validate_trimmed_control_free "capability ceiling entry" capability false)
    "capability ceiling must be strictly sorted and unique" None capabilities.
Definition validate_hash (label value : string) : Sch unit :=
  reject (negb (valid_hash value)) (label +:+ " must be a 64-character hexadecimal digest").

(** ** Project authority *)

Inductive LiveProjectAccess := LiveReadOnly | LiveReadWrite.
Inductive LiveFilesystemConfinement :=
| DescriptorRootedMasked (denied_control_paths : list string)
| UnconfinedHost.
Record LiveAccessAuthority := {
  access : LiveProjectAccess;
  authorized_write_namespaces : list string;
  confinement : LiveFilesystemConfinement;
}.
Inductive PinnedTerminalPublication :=
| Discard
| RetainResult
| AdvanceHead (head_ref expected_hash : string).
Inductive PinnedProjectRealization :=
| PinnedReadOnly
| Cow (terminal_publication : PinnedTerminalPublication).
Inductive PinnedChildProjectRealization := ChildReadOnly | ChildCowDiscard.
Inductive ChildProjectAuthorityPolicy :=
| Inherit
| PinAtSpawn (realization : PinnedChildProjectRealization).
Inductive EnvironmentNameAuthority :=
| DeclaredRequired
| ExactNames (names : list string).
Inductive EnvironmentAuthority :=
| NoEnvironment
| ProjectOverlay (project_authority_id source_identity : string) (include_operator_vault : bool)
    (name_authority : EnvironmentNameAuthority)
| VaultEnvironment (namespace : string) (name_authority : EnvironmentNameAuthority)
| Delegated (provider grant_id : string) (name_authority : EnvironmentNameAuthority).
Inductive ExecutionProjectAuthority :=
| Projectless (environment : EnvironmentAuthority)
| LiveProject (authority_id authored_project_identity canonical_root : string)
    (live_access : LiveAccessAuthority) (environment : EnvironmentAuthority)
    (capability_ceiling : list string) (child_policy : ChildProjectAuthorityPolicy)
| PinnedGeneration (stable_project_identity : string) (display_path : option string)
    (snapshot_hash : string) (realization : PinnedProjectRealization)
    (environment : EnvironmentAuthority) (capability_ceiling : list string)
    (child_policy : ChildProjectAuthorityPolicy).

#[export] Instance LiveProjectAccess_eq_dec : EqDecision LiveProjectAccess.
Proof. solve_decision. Defined.
#[export] Instance LiveFilesystemConfinement_eq_dec : EqDecision LiveFilesystemConfinement.
Proof. solve_decision. Defined.
#[export] Instance LiveAccessAuthority_eq_dec : EqDecision LiveAccessAuthority.
Proof. solve_decision. Defined.
#[export] Instance PinnedTerminalPublication_eq_dec : EqDecision PinnedTerminalPublication.
Proof. solve_decision. Defined.
#[export] Instance PinnedProjectRealization_eq_dec : EqDecision PinnedProjectRealization.
Proof. solve_decision. Defined.
#[export] Instance PinnedChildProjectRealization_eq_dec : EqDecision PinnedChildProjectRealization.
Proof. solve_decision. Defined.
#[export] Instance ChildProjectAuthorityPolicy_eq_dec : EqDecision ChildProjectAuthorityPolicy.
Proof. solve_decision. Defined.
#[export] Instance EnvironmentNameAuthority_eq_dec : EqDecision EnvironmentNameAuthority.
Proof. solve_decision. Defined.
#[export] Instance EnvironmentAuthority_eq_dec : EqDecision EnvironmentAuthority.
Proof. solve_decision. Defined.

(** The derived [PartialEq], on paths by their components. *)
Definition project_authority_eqb (a b : ExecutionProjectAuthority) : bool :=
  match a, b with
  | Projectless e, Projectless e' => bool_decide (e = e')
  | LiveProject i n r l e c p, LiveProject i' n' r' l' e' c' p' =>
      bool_decide (i = i' ∧ n = n') && path_eqb r r' &&
      bool_decide (l = l' ∧ e = e' ∧ c = c' ∧ p = p')
  | PinnedGeneration n d h r e c p, PinnedGeneration n' d' h' r' e' c' p' =>
      bool_decide (n = n') && option_eqb path_eqb d d' &&
      bool_decide (h = h' ∧ r = r' ∧ e = e' ∧ c = c' ∧ p = p')
  | _, _ => false
  end.

Definition validate_name_authority (names : EnvironmentNameAuthority) : Sch unit :=
  match names with
  | DeclaredRequired => Ok tt
  | ExactNames names => validate_allowed_names names
  end.

(** [EnvironmentAuthority::validate]. *)
Definition validate_environment (environment : EnvironmentAuthority) (project_backed : bool)
    : Sch unit :=
  match environment with
  | NoEnvironment => Ok tt
  | ProjectOverlay project_authority_id source_identity _ name_authority =>
      reject (negb project_backed) "project environment overlay requires project authority" ;;
      validate_trimmed_control_free "environment project authority id" project_authority_id false ;;
      validate_trimmed_control_free "environment source identity" source_identity false ;;
      validate_name_authority name_authority
  | VaultEnvironment namespace name_authority =>
      validate_trimmed_control_free "vault namespace" namespace false ;;
      validate_name_authority name_authority
  | Delegated provider grant_id name_authority =>
      validate_trimmed_control_free "delegated environment provider" provider false ;;
      validate_trimmed_control_free "delegated environment grant" grant_id false ;;
      validate_name_authority name_authority
  end.

(** [LiveAccessAuthority::validate]. *)
Definition validate_live_access (live : LiveAccessAuthority) : Sch unit :=
  match confinement live with
  | DescriptorRootedMasked denied_control_paths =>
      validate_sorted_relative_paths "denied live control path" denied_control_paths
  | UnconfinedHost =>
      reject (bool_decide (access live = LiveReadOnly))
        "unconfined host live access cannot truthfully enforce read-only project authority"
  end ;;
  validate_sorted (λ namespace,
      validate_trimmed_control_free "live write namespace" namespace false)
    "live write namespaces must be strictly sorted and unique" None
    (authorized_write_namespaces live) ;;
  match access live with
  | LiveReadOnly =>
      reject (negb (bool_decide (authorized_write_namespaces live = [])))
        "read-only live authority cannot carry write namespaces"
  | LiveReadWrite =>
      reject (bool_decide (authorized_write_namespaces live = []))
        "read-write live authority requires a write namespace"
  end.

Section authority.
Context `{Sha256}.

(** The identifier of a live project; [Path::display] of a UTF-8 path is
    its text. *)
Definition live_authority_id (project_identity root : string) : string :=
  let nul := String (ascii_of_Z 0) EmptyString in
  sha256_hex ("live-project" +:+ nul +:+ project_identity +:+ nul +:+ root).

(** [ExecutionProjectAuthority::validate]. *)
Definition validate_project_authority (authority : ExecutionProjectAuthority) : Sch unit :=
  match authority with
  | Projectless environment => validate_environment environment false
  | LiveProject authority_id authored_project_identity canonical_root live_access environment
      capability_ceiling _ =>
      validate_hash "live project authority id" authority_id ;;
      validate_trimmed_control_free "authored project identity" authored_project_identity false ;;
      validate_absolute_normal_path "live project root" canonical_root ;;
      validate_live_access live_access ;;
      reject (negb (bool_decide
          (authority_id = live_authority_id authored_project_identity canonical_root)))
        "live project authority id is not canonical" ;;
      match environment with
      | ProjectOverlay project_authority_id _ _ _ =>
          reject (negb (bool_decide (project_authority_id = authority_id)))
            "live project environment authority is bound to another project"
      | _ => Ok tt
      end ;;
      validate_environment environment true ;;
      validate_capability_ceiling capability_ceiling
  | PinnedGeneration stable_project_identity display_path snapshot_hash realization environment
      capability_ceiling _ =>
      validate_trimmed_control_free "stable project identity" stable_project_identity false ;;
      match display_path with
      | Some path => validate_absolute_normal_path "pinned project display path" path
      | None => Ok tt
      end ;;
      validate_hash "project snapshot hash" snapshot_hash ;;
      validate_environment environment true ;;
      match environment with
      | ProjectOverlay project_authority_id _ _ _ =>
          root ← some_or display_path
            "pinned project overlay requires its original live project path" ;
          reject (negb (bool_decide
              (project_authority_id = live_authority_id stable_project_identity root)))
            "pinned project environment authority is not bound to its original live project"
      | _ => Ok tt
      end ;;
      match realization with
      | Cow (AdvanceHead head_ref expected_hash) =>
          validate_trimmed_control_free "HEAD ref" head_ref false ;;
          validate_hash "HEAD expected hash" expected_hash
      | _ => Ok tt
      end ;;
      validate_capability_ceiling capability_ceiling
  end.

End authority.

Definition project_root_projection (authority : ExecutionProjectAuthority) : option string :=
  match authority with
  | Projectless _ => None
  | LiveProject _ _ canonical_root _ _ _ _ => Some canonical_root
  | PinnedGeneration _ display_path _ _ _ _ _ => display_path
  end.
Definition base_snapshot_projection (authority : ExecutionProjectAuthority) : option string :=
  match authority with
  | PinnedGeneration _ _ snapshot_hash _ _ _ _ => Some snapshot_hash
  | _ => None
  end.

(** ** Captured history policies *)

(** [validate_canonical_item_ref]: the grammar of the engine's canonical
    references, checked without building one. *)
Definition item_kind_byte (c : Z) : bool :=
  ((97 <=? c) && (c <=? 122)) || is_ascii_digit c || (c =? 95) || (c =? 45).
Definition is_dot_segment (s : string) : bool := bool_decide (s = EmptyString ∨ s = "." ∨ s = "..").
Section item_ref.
Context `{UnicodeTables}.

Definition bare_id_char (c : Z) : bool :=
  is_alphanumeric c || (c =? 47) || (c =? 45) || (c =? 95) || (c =? 46).
Definition validate_canonical_item_ref (value : string) : Sch unit :=
  match split_once 58 value with
  | (_, None) => bail "bare refs are not canonical"
  | (kind, Some remainder) =>
      reject (is_empty kind || negb (forallb item_kind_byte (chars kind)))
        "kind prefix is empty or contains invalid characters" ;;
      reject (is_empty remainder) "bare item ID is empty" ;;
      let '(bare_id, suffix) := split_once 64 remainder in
      reject (is_empty bare_id || negb (forallb bare_id_char (chars bare_id)) ||
              starts_with "/" bare_id || ends_with_byte 47 bare_id ||
              existsb is_dot_segment (split 47 bare_id))
        "bare item ID is not canonical" ;;
      match suffix with
      | None => Ok tt
      | Some suffix =>
          if starts_with "cap:" suffix then
            let parts := splitn 58 3 (drop_bytes 4 suffix) in
            reject (negb (bool_decide (length parts = 3%nat)) || existsb is_empty parts)
              "cap suffix requires three non-empty fields"
          else if starts_with "sig:" suffix then
            let parts := splitn 58 2 (drop_bytes 4 suffix) in
            reject (negb (bool_decide (length parts = 2%nat)) || existsb is_empty parts)
              "sig suffix requires two non-empty fields"
          else
            reject (negb (starts_with "t:" suffix && negb (is_empty (drop_bytes 2 suffix))))
              "canonical ref suffix is unknown or incomplete"
      end
  end.

End item_ref.

Inductive ThreadHistoryRetention :=
| DurableHistory
| TerminalFor (seconds : Z).
Inductive CapturedItemTrustClass := ItemTrusted | ItemUntrusted | ItemUnsigned.
Inductive CapturedEffectiveTrustClass :=
  TrustedBundle | TrustedProject | UntrustedProject | EffectiveUnsigned.
Inductive CapturedItemSpace := ProjectSpace | BundleSpace.
Inductive CapturedNodeHistoryPolicyProvenance :=
| MissingConfig
| SignedConfig (path : string) (space : CapturedItemSpace) (content_hash signer_fingerprint : string).
Record CapturedThreadHistoryMinimumClamp := {
  clamp_requested_seconds : Z;
  clamp_minimum_seconds : Z;
}.
Inductive CapturedPolicyProvenance :=
| NodeDefault (node_policy : CapturedNodeHistoryPolicyProvenance)
| ItemAuthored (composed_path : string) (requested_seconds : Z)
    (effective_trust_class : CapturedEffectiveTrustClass)
    (minimum_clamp : option CapturedThreadHistoryMinimumClamp)
    (node_policy : CapturedNodeHistoryPolicyProvenance).
Record CapturedThreadHistoryPolicy := {
  retention : ThreadHistoryRetention;
  canonical_item_ref : string;
  item_content_hash : string;
  item_signer_fingerprint : option string;
  item_trust_class : CapturedItemTrustClass;
  kind_schema_content_hash : string;
  resolved_from : CapturedPolicyProvenance;
}.

#[export] Instance ThreadHistoryRetention_eq_dec : EqDecision ThreadHistoryRetention.
Proof. solve_decision. Defined.
#[export] Instance CapturedItemTrustClass_eq_dec : EqDecision CapturedItemTrustClass.
Proof. solve_decision. Defined.
#[export] Instance CapturedEffectiveTrustClass_eq_dec : EqDecision CapturedEffectiveTrustClass.
Proof. solve_decision. Defined.
#[export] Instance CapturedItemSpace_eq_dec : EqDecision CapturedItemSpace.
Proof. solve_decision. Defined.
#[export] Instance CapturedThreadHistoryMinimumClamp_eq_dec :
  EqDecision CapturedThreadHistoryMinimumClamp.
Proof. solve_decision. Defined.

(** The derived [PartialEq] of the captured policies. *)
Definition node_policy_eqb (a b : CapturedNodeHistoryPolicyProvenance) : bool :=
  match a, b with
  | MissingConfig, MissingConfig => true
  | SignedConfig p s c f, SignedConfig p' s' c' f' =>
      path_eqb p p' && bool_decide (s = s' ∧ c = c' ∧ f = f')
  | _, _ => false
  end.
Definition provenance_eqb (a b : CapturedPolicyProvenance) : bool :=
  match a, b with
  | NodeDefault n, NodeDefault n' => node_policy_eqb n n'
  | ItemAuthored c r e m n, ItemAuthored c' r' e' m' n' =>
      bool_decide (c = c' ∧ r = r' ∧ e = e' ∧ m = m') && node_policy_eqb n n'
  | _, _ => false
  end.
Definition history_policy_eqb (a b : CapturedThreadHistoryPolicy) : bool :=
  bool_decide (retention a = retention b ∧ canonical_item_ref a = canonical_item_ref b ∧
    item_content_hash a = item_content_hash b ∧
    item_signer_fingerprint a = item_signer_fingerprint b ∧
    item_trust_class a = item_trust_class b ∧
    kind_schema_content_hash a = kind_schema_content_hash b) &&
  provenance_eqb (resolved_from a) (resolved_from b).

Definition MAX_TERMINAL_DURATION_SECONDS : Z := i64_max - 253402300799.

Definition validate_retention (r : ThreadHistoryRetention) : Sch unit :=
  match r with
  | DurableHistory => Ok tt
  | TerminalFor seconds =>
      reject (seconds =? 0) "captured history terminal retention must be positive" ;;
      reject (MAX_TERMINAL_DURATION_SECONDS <? seconds)
        "captured history terminal retention exceeds the maximum"
  end.
Definition validate_node_policy (policy : CapturedNodeHistoryPolicyProvenance) : Sch unit :=
  match policy with
  | MissingConfig => Ok tt
  | SignedConfig path _ content_hash signer_fingerprint =>
      reject (negb (path_eqb path "config/execution/execution.yaml"))
        "captured node history policy path must be exactly config/execution/execution.yaml" ;;
      validate_canonical_hash "captured node history policy content_hash" content_hash ;;
      validate_canonical_hash "captured node history policy signer_fingerprint" signer_fingerprint
  end.
Definition is_missing_config (policy : CapturedNodeHistoryPolicyProvenance) : bool :=
  match policy with MissingConfig => true | _ => false end.

(** [CapturedPolicyProvenance::validate]. *)
Definition validate_provenance (provenance : CapturedPolicyProvenance)
    (retention : ThreadHistoryRetention) (item_trust_class : CapturedItemTrustClass) : Sch unit :=
  match provenance with
  | NodeDefault node_policy =>
      validate_node_policy node_policy ;;
      reject (is_missing_config node_policy && negb (bool_decide (retention = DurableHistory)))
        "missing node history config can only supply the built-in durable default"
  | ItemAuthored composed_path requested_seconds effective_trust_class minimum_clamp node_policy =>
      validate_node_policy node_policy ;;
      reject (is_empty composed_path || negb (bool_decide (trim composed_path = composed_path)) ||
              has_control composed_path)
        "captured item-authored history composed_path must be non-empty, trimmed, and free of control characters" ;;
      reject (negb (bool_decide (item_trust_class = ItemTrusted)))
        "item-authored history requires a trusted item signature" ;;
      reject (negb (bool_decide
          (effective_trust_class = TrustedBundle ∨ effective_trust_class = TrustedProject)))
        "item-authored history requires trusted effective composition" ;;
      reject ((requested_seconds =? 0) || (MAX_TERMINAL_DURATION_SECONDS <? requested_seconds))
        "captured item-authored requested_seconds must be within the supported positive duration range" ;;
      match retention with
      | DurableHistory => bail "item-authored history must resolve to terminal retention"
      | TerminalFor seconds =>
          match minimum_clamp with
          | None =>
              reject (negb (seconds =? requested_seconds))
                "unclamped item-authored retention must equal requested_seconds"
          | Some clamp =>
              reject (is_missing_config node_policy)
                "missing node history config cannot impose a minimum clamp" ;;
              reject (negb (clamp_requested_seconds clamp =? requested_seconds))
                "captured history clamp requested_seconds does not match provenance" ;;
              reject ((clamp_minimum_seconds clamp <=? clamp_requested_seconds clamp) ||
                      (MAX_TERMINAL_DURATION_SECONDS <? clamp_minimum_seconds clamp))
                "captured history clamp must raise the request to a supported larger minimum" ;;
              reject (negb (seconds =? clamp_minimum_seconds clamp))
                "captured terminal retention does not equal the recorded clamp minimum"
          end
      end
  end.

(** [CapturedThreadHistoryPolicy::validate]. *)
Definition validate_history_policy `{UnicodeTables} (policy : CapturedThreadHistoryPolicy)
    : Sch unit :=
  validate_retention (retention policy) ;;
  validate_canonical_item_ref (canonical_item_ref policy) ;;
  validate_canonical_hash "captured history item_content_hash" (item_content_hash policy) ;;
  validate_canonical_hash "captured history kind_schema_content_hash"
    (kind_schema_content_hash policy) ;;
  match item_trust_class policy, item_signer_fingerprint policy with
  | ItemUnsigned, None => Ok tt
  | ItemUnsigned, Some _ => bail "unsigned captured history policy cannot name an item signer"
  | _, Some signer_fingerprint =>
      validate_canonical_hash "captured history item_signer_fingerprint" signer_fingerprint
  | _, None => bail "signed captured history policy must name an item signer"
  end ;;
  validate_provenance (resolved_from policy) (retention policy) (item_trust_class policy).

(** ** Thread snapshots *)

Inductive ThreadStatus :=
  Created | Running | Completed | Failed | Cancelled | KilledStatus | TimedOut | Continued.
#[export] Instance ThreadStatus_eq_dec : EqDecision ThreadStatus.
Proof. solve_decision. Defined.

Definition is_terminal (status : ThreadStatus) : bool :=
  match status with Created | Running => false | _ => true end.

Record ThreadUsage := {
  completed_turns : Z;
  input_tokens : Z;
  output_tokens : Z;
  spend_usd : f64;
  spawns_used : Z;
  usage_started_at : string;
  settled_at : string;
  last_settled_turn_seq : Z;
  elapsed_ms : Z;
  provider_id : option string;
  model : option string;
  profile : option string;
}.

Record ThreadSnapshot := {
  sn_schema : Z;
  sn_kind : string;
  sn_thread_id : string;
  sn_chain_root_id : string;
  sn_status : ThreadStatus;
  sn_kind_name : string;
  sn_item_ref : string;
  sn_executor_ref : string;
  sn_launch_mode : string;
  sn_current_site_id : string;
  sn_origin_site_id : string;
  sn_upstream_thread_id : option string;
  sn_requested_by : option string;
  sn_project_root : option string;
  sn_project_authority : ExecutionProjectAuthority;
  sn_admitted_launch_capsule_hash : option string;
  sn_captured_history_policy : option CapturedThreadHistoryPolicy;
  sn_base_project_snapshot_hash : option string;
  sn_result_project_snapshot_hash : option string;
  sn_created_at : string;
  sn_updated_at : string;
  sn_started_at : option string;
  sn_finished_at : option string;
  sn_result : option Value;
  sn_outcome_code : option string;
  sn_error : option Value;
  sn_budget : option ThreadUsage;
  sn_artifacts : list Value;
  sn_facets : gmap string string;
  sn_last_event_hash : option string;
  sn_last_chain_seq : N;
  sn_last_thread_seq : N;
}.

Definition THREAD_SNAPSHOT_SCHEMA_VERSION : Z := 6.

Section snapshot.
Context `{Sha256} `{UnicodeTables} `{NaiveDateTime}.

(** [ThreadUsage::validate]. *)
Definition validate_usage (usage : ThreadUsage) : Sch unit :=
  started_at ← parse_canonical_timestamp (usage_started_at usage) ;
  settled_at ← parse_canonical_timestamp (settled_at usage) ;
  reject (settled_at <? started_at) "thread usage settled_at must not precede started_at" ;;
  reject (negb (F64.is_finite (spend_usd usage)) || F64.ltb (spend_usd usage) F64.zero)
    "thread usage spend_usd must be finite and non-negative".

(** The identity fields of [ThreadSnapshot::validate]. *)
Definition validate_snapshot_identity (s : ThreadSnapshot) : Sch unit :=
  validate_object_kind (sn_kind s) "thread_snapshot" ;;
  reject (negb (sn_schema s =? THREAD_SNAPSHOT_SCHEMA_VERSION)) "unexpected schema version" ;;
  reject (is_empty (sn_thread_id s)) "thread_id must not be empty" ;;
  reject (is_empty (sn_chain_root_id s)) "chain_root_id must not be empty" ;;
  reject (is_empty (sn_kind_name s)) "kind_name must not be empty" ;;
  reject (is_empty (sn_item_ref s)) "item_ref must not be empty" ;;
  reject (is_empty (sn_executor_ref s)) "executor_ref must not be empty" ;;
  reject (negb (bool_decide (sn_launch_mode s = "wait" ∨ sn_launch_mode s = "detached")))
    "invalid launch_mode" ;;
  reject (is_empty (sn_current_site_id s)) "current_site_id must not be empty" ;;
  reject (is_empty (sn_origin_site_id s)) "origin_site_id must not be empty".

(** The authority fields. *)
Definition validate_snapshot_authority (s : ThreadSnapshot) : Sch unit :=
  let is_root := bool_decide (sn_thread_id s = sn_chain_root_id s) in
  let has_policy := bool_decide (is_Some (sn_captured_history_policy s)) in
  reject (is_root && negb has_policy) "chain root snapshot is missing captured_history_policy" ;;
  reject (negb is_root && has_policy)
    "captured_history_policy is valid only on a chain root snapshot" ;;
  match sn_captured_history_policy s with
  | Some policy =>
      validate_history_policy policy ;;
      reject (negb (bool_decide (canonical_item_ref policy = sn_item_ref s)))
        "captured history policy subject does not match root item_ref"
  | None => Ok tt
  end ;;
  validate_project_authority (sn_project_authority s) ;;
  reject (negb (option_eqb path_eqb (sn_project_root s)
      (project_root_projection (sn_project_authority s))))
    "project_root projection contradicts project_authority" ;;
  reject (negb (bool_decide (sn_base_project_snapshot_hash s =
      base_snapshot_projection (sn_project_authority s))))
    "base_project_snapshot_hash projection contradicts project_authority".

(** The lifecycle timestamps. *)
Definition validate_snapshot_times (s : ThreadSnapshot) : Sch unit :=
  created_at ← parse_canonical_timestamp (sn_created_at s) ;
  updated_at ← parse_canonical_timestamp (sn_updated_at s) ;
  reject (updated_at <? created_at) "updated_at must not precede created_at" ;;
  started_at ← parse_optional_timestamp (sn_started_at s) ;
  finished_at ← parse_optional_timestamp (sn_finished_at s) ;
  reject (is_some_and started_at (λ started_at,
      (started_at <? created_at) || (updated_at <? started_at)))
    "started_at must be within created_at..=updated_at" ;;
  reject (is_some_and finished_at (λ finished_at,
      (finished_at <? created_at) || (updated_at <? finished_at) ||
      is_some_and started_at (λ started_at, finished_at <? started_at)))
    "finished_at must be within created_at..=updated_at and not precede started_at" ;;
  let started := bool_decide (is_Some (sn_started_at s)) in
  let finished := bool_decide (is_Some (sn_finished_at s)) in
  match sn_status s with
  | Created =>
      reject (started || finished) "created snapshot cannot have started_at or finished_at"
  | Running =>
      reject (negb started || finished)
        "running snapshot requires started_at and cannot have finished_at"
  | _ => reject (negb finished) "terminal snapshot requires finished_at"
  end.

(** [ThreadSnapshot::validate]. *)
Definition validate_snapshot (s : ThreadSnapshot) : Sch unit :=
  validate_snapshot_identity s ;;
  validate_snapshot_authority s ;;
  validate_snapshot_times s ;;
  match sn_budget s with Some usage => validate_usage usage | None => Ok tt end ;;
  validate_optional_canonical_hash "base_project_snapshot_hash" (sn_base_project_snapshot_hash s) ;;
  validate_optional_canonical_hash "result_project_snapshot_hash"
    (sn_result_project_snapshot_hash s) ;;
  validate_optional_canonical_hash "admitted_launch_capsule_hash"
    (sn_admitted_launch_capsule_hash s) ;;
  validate_optional_canonical_hash "last_event_hash" (sn_last_event_hash s).

(** [ThreadSnapshot::from_current_value]: the kind and the schema are read
    before the whole value is decoded. *)
Definition as_object (v : Value) : option Map.t :=
  match v with VObject m => Some m | _ => None end.
Definition from_current_value `{Wire ThreadSnapshot} (value : Value) : Sch ThreadSnapshot :=
  object ← some_or (as_object value) "thread snapshot must be an object" ;
  kind ← some_or (match Map.get "kind" object with Some (VString kind) => Some kind | _ => None end)
    "thread snapshot has no string kind" ;
  reject (negb (bool_decide (kind = "thread_snapshot"))) "unexpected thread snapshot kind" ;;
  schema ← some_or (match Map.get "schema" object with
                    | Some (VNumber number) => Number.as_u64 number
                    | _ => None
                    end) "thread snapshot has no numeric schema" ;
  reject (negb (schema =? THREAD_SNAPSHOT_SCHEMA_VERSION))
    "thread snapshot is not the exact current contract" ;;
  snapshot ← some_or (from_value value) "deserialize current thread snapshot" ;
  validate_snapshot snapshot ;;
  Ok snapshot.

End snapshot.

(** ** Thread events *)

Inductive EventDurability := Durable | Journal | Ephemeral.
Definition is_cas_stored (d : EventDurability) : bool :=
  match d with Durable | Journal => true | Ephemeral => false end.
Definition is_projection_indexed (d : EventDurability) : bool :=
  match d with Durable => true | _ => false end.

Record ThreadEvent := {
  ev_schema : Z;
  ev_kind : string;
  ev_chain_root_id : string;
  ev_chain_seq : N;
  ev_thread_id : string;
  ev_thread_seq : N;
  ev_event_type : string;
  ev_durability : EventDurability;
  ev_ts : string;
  ev_prev_chain_event_hash : option string;
  ev_prev_thread_event_hash : option string;
  ev_payload : Value;
}.

Definition MAX_THREAD_EVENT_SERIALIZED_BYTES : Z := 512 * 1024.

(** [ThreadEvent::validate]. *)
Definition validate_event `{Externals} `{NaiveDateTime} `{Wire ThreadEvent} (e : ThreadEvent)
    : Sch unit :=
  validate_object_kind (ev_kind e) "thread_event" ;;
  reject (negb (ev_schema e =? SCHEMA_VERSION)) "unexpected schema version" ;;
  reject (is_empty (ev_chain_root_id e)) "chain_root_id must not be empty" ;;
  reject (is_empty (ev_thread_id e)) "thread_id must not be empty" ;;
  reject (is_empty (ev_event_type e)) "event_type must not be empty" ;;
  parse_canonical_timestamp (ev_ts e) ;;
  validate_optional_canonical_hash "prev_chain_event_hash" (ev_prev_chain_event_hash e) ;;
  validate_optional_canonical_hash "prev_thread_event_hash" (ev_prev_thread_event_hash e) ;;
  reject (MAX_THREAD_EVENT_SERIALIZED_BYTES <? len (object_json e))
    "thread event exceeds the serialized byte limit".

(** ** Chain states *)

Record ChainThreadEntry := {
  te_snapshot_hash : string;
  te_last_event_hash : option string;
  te_last_thread_seq : N;
  te_status : ThreadStatus;
}.
#[export] Instance ChainThreadEntry_eq_dec : EqDecision ChainThreadEntry.
Proof. solve_decision. Defined.

Record ChainState := {
  cs_schema : Z;
  cs_kind : string;
  cs_chain_root_id : string;
  cs_prev_chain_state_hash : option string;
  cs_last_event_hash : option string;
  cs_last_chain_seq : N;
  cs_updated_at : string;
  cs_threads : gmap string ChainThreadEntry;
}.

(** The entries of a [BTreeMap], in key order. *)
Definition key_le {A} (a b : string * A) : Prop := String.compare a.1 b.1 ≠ Gt.
#[export] Instance key_le_dec {A} : RelDecision (@key_le A).
Proof. intros a b. unfold key_le. apply _. Defined.
Definition btree_entries {A} (m : gmap string A) : list (string * A) :=
  merge_sort key_le (map_to_list m).

(** [ChainThreadEntry::validate]. *)
Definition validate_entry (entry : ChainThreadEntry) : Sch unit :=
  reject (is_empty (te_snapshot_hash entry)) "snapshot_hash must not be empty" ;;
  validate_canonical_hash "snapshot_hash" (te_snapshot_hash entry) ;;
  validate_optional_canonical_hash "last_event_hash" (te_last_event_hash entry).

(** [ChainState::validate]. *)
Definition validate_state `{NaiveDateTime} (state : ChainState) : Sch unit :=
  validate_object_kind (cs_kind state) "chain_state" ;;
  reject (negb (cs_schema state =? SCHEMA_VERSION)) "unexpected schema version" ;;
  reject (is_empty (cs_chain_root_id state)) "chain_root_id must not be empty" ;;
  validate_optional_canonical_hash "prev_chain_state_hash" (cs_prev_chain_state_hash state) ;;
  validate_optional_canonical_hash "last_event_hash" (cs_last_event_hash state) ;;
  parse_canonical_timestamp (cs_updated_at state) ;;
  each (λ '(thread_id, entry),
      reject (is_empty thread_id) "thread_id in threads map must not be empty" ;;
      validate_entry entry)
    (btree_entries (cs_threads state)) ;;
  reject (negb (bool_decide (is_Some (cs_threads state !! cs_chain_root_id state))))
    "chain_root_id must exist in threads map".
