(* ===== verification/ChainValidation.v ===== *)
(** * Validation of chain histories

    [ryeos-state/src/chain/validation.rs]: the checks a chain state, its
    events and its snapshots pass before they become authoritative, the
    normalisation of the times and positions of new objects, and the
    validator that replays a whole history from the content store before it
    is projected.

    The validator is modelled with the cancellation callback that always
    succeeds ([validate_authoritative_history_with_cas]).  Its two walks,
    over the events and over the states, keep the set of visited hashes;
    the fuel of their models is one more than the number of objects in the
    store, which the walks never exhaust.  An [expect] that fails is the
    fault [Panicked]. *)

From S2P Require Import Prelude Float64 Json CanonicalRef Schedule ScheduleSpec CasStore ChainObjects.

Record ThreadEventCursor := {
  next_hash : option string;
  next_sequence : N;
}.

Record EventPosition := {
  ep_thread_id : string;
  ep_chain_sequence : N;
  ep_thread_sequence : N;
  ep_timestamp : string;
  ep_prev_chain_hash : option string;
  ep_prev_thread_hash : option string;
}.

Record SnapshotEventPosition := {
  sp_thread_id : string;
  sp_event_hash : string;
  sp_chain_sequence : N;
  sp_thread_sequence : N;
}.

(** ** Links and positions *)

Definition validate_predecessor_link (label : string) (sequence : N) (predecessor : option string)
    : Sch unit :=
  if (sequence =? 0)%N then bail (label +:+ " has sequence zero")
  else if (sequence =? 1)%N then
    reject (bool_decide (is_Some predecessor)) (label +:+ " sequence one has a predecessor")
  else reject (bool_decide (predecessor = None)) (label +:+ " is missing its predecessor").

Definition validate_hash_sequence_pair (label : string) (sequence : N)
    (last_event_hash : option string) : Sch unit :=
  if (sequence =? 0)%N then
    reject (bool_decide (is_Some last_event_hash)) (label +:+ " has an event hash at sequence zero")
  else reject (bool_decide (last_event_hash = None)) (label +:+ " is missing its event hash").

Definition validate_chain_positions `{NaiveDateTime} (state : ChainState) : Sch unit :=
  validate_hash_sequence_pair "chain" (cs_last_chain_seq state) (cs_last_event_hash state) ;;
  parse_canonical_timestamp (cs_updated_at state) ;;
  each (λ '(thread_id, entry),
      validate_hash_sequence_pair "thread" (te_last_thread_seq entry) (te_last_event_hash entry) ;;
      reject (cs_last_chain_seq state <? te_last_thread_seq entry)%N%N
        "thread sequence exceeds chain sequence")
    (btree_entries (cs_threads state)).

(** [value -= 1] on a [u64]. *)
Definition decrement (value : N) : Sch N :=
  if (value =? 0)%N then Err Panicked else Ok (value - 1)%N.

(** [x.expect(..)]. *)
Definition expect {A} (o : option A) : Sch A :=
  match o with Some a => Ok a | None => Err Panicked end.

(** ** Fields of a snapshot that the chain layer owns *)

Definition revise (s : ThreadSnapshot) (updated_at : string) (started_at finished_at : option string)
    (result error : option Value) (last_event_hash : option string)
    (last_chain_seq last_thread_seq : N) : ThreadSnapshot := {|
  sn_schema := sn_schema s;
  sn_kind := sn_kind s;
  sn_thread_id := sn_thread_id s;
  sn_chain_root_id := sn_chain_root_id s;
  sn_status := sn_status s;
  sn_kind_name := sn_kind_name s;
  sn_item_ref := sn_item_ref s;
  sn_executor_ref := sn_executor_ref s;
  sn_launch_mode := sn_launch_mode s;
  sn_current_site_id := sn_current_site_id s;
  sn_origin_site_id := sn_origin_site_id s;
  sn_upstream_thread_id := sn_upstream_thread_id s;
  sn_requested_by := sn_requested_by s;
  sn_project_root := sn_project_root s;
  sn_project_authority := sn_project_authority s;
  sn_admitted_launch_capsule_hash := sn_admitted_launch_capsule_hash s;
  sn_captured_history_policy := sn_captured_history_policy s;
  sn_base_project_snapshot_hash := sn_base_project_snapshot_hash s;
  sn_result_project_snapshot_hash := sn_result_project_snapshot_hash s;
  sn_created_at := sn_created_at s;
  sn_updated_at := updated_at;
  sn_started_at := started_at;
  sn_finished_at := finished_at;
  sn_result := result;
  sn_outcome_code := sn_outcome_code s;
  sn_error := error;
  sn_budget := sn_budget s;
  sn_artifacts := sn_artifacts s;
  sn_facets := sn_facets s;
  sn_last_event_hash := last_event_hash;
  sn_last_chain_seq := last_chain_seq;
  sn_last_thread_seq := last_thread_seq;
|}.
Definition with_times (s : ThreadSnapshot) (updated_at : string)
    (started_at finished_at : option string) : ThreadSnapshot :=
  revise s updated_at started_at finished_at (sn_result s) (sn_error s) (sn_last_event_hash s)
    (sn_last_chain_seq s) (sn_last_thread_seq s).

Definition stamp_snapshot_position (s : ThreadSnapshot) (entry : ChainThreadEntry)
    (chain_sequence : N) : ThreadSnapshot :=
  revise s (sn_updated_at s) (sn_started_at s) (sn_finished_at s) (sn_result s) (sn_error s)
    (te_last_event_hash entry) chain_sequence (te_last_thread_seq entry).

(** What a snapshot is read back as: the nullable [result] and [error]
    fields do not distinguish a [null] payload from an absent one. *)
Definition null_to_none (v : option Value) : option Value :=
  match v with Some VNull => None | _ => v end.
Definition as_stored (s : ThreadSnapshot) : ThreadSnapshot :=
  revise s (sn_updated_at s) (sn_started_at s) (sn_finished_at s)
    (null_to_none (sn_result s)) (null_to_none (sn_error s))
    (sn_last_event_hash s) (sn_last_chain_seq s) (sn_last_thread_seq s).

(** ** Snapshots against their chain *)

Section snapshots.
Context `{Externals} `{Sha256} `{UnicodeTables} `{NaiveDateTime} `{Wire ThreadEvent}.

Definition validate_stored_snapshot (state : ChainState) (thread_id : string)
    (entry : ChainThreadEntry) (s : ThreadSnapshot) : Sch unit :=
  validate_snapshot s ;;
  reject (negb (bool_decide (sn_thread_id s = thread_id))) "snapshot thread_id mismatch" ;;
  reject (negb (bool_decide (sn_chain_root_id s = cs_chain_root_id state)))
    "snapshot chain_root_id mismatch" ;;
  reject (negb (bool_decide (sn_status s = te_status entry))) "snapshot status mismatch" ;;
  reject (cs_last_chain_seq state <? sn_last_chain_seq s)%N%N
    "snapshot chain sequence exceeds authoritative chain sequence" ;;
  reject (te_last_thread_seq entry <? sn_last_thread_seq s)%N%N
    "snapshot thread sequence exceeds authoritative thread sequence" ;;
  reject (sn_last_chain_seq s <? sn_last_thread_seq s)%N%N
    "snapshot thread sequence exceeds its chain sequence" ;;
  validate_hash_sequence_pair "snapshot" (sn_last_thread_seq s) (sn_last_event_hash s) ;;
  reject ((sn_last_thread_seq s =? te_last_thread_seq entry)%N &&
          negb (bool_decide (sn_last_event_hash s = te_last_event_hash entry)))
    "snapshot last_event_hash disagrees with the authoritative thread entry".

Definition validate_snapshot_last_event (s : ThreadSnapshot) (expected_hash : string)
    (event : ThreadEvent) : Sch unit :=
  validate_event event ;;
  parse_canonical_timestamp (ev_ts event) ;;
  reject (negb (bool_decide (sn_last_event_hash s = Some expected_hash)))
    "snapshot does not name the event supplied as its last event" ;;
  reject (negb (bool_decide (ev_chain_root_id event = sn_chain_root_id s)) ||
          negb (bool_decide (ev_thread_id event = sn_thread_id s)))
    "snapshot last event belongs to a different chain or thread" ;;
  reject (negb (ev_thread_seq event =? sn_last_thread_seq s)%N)
    "snapshot thread sequence disagrees with last event sequence" ;;
  reject (sn_last_chain_seq s <? ev_chain_seq event)%N%N
    "snapshot last event chain sequence exceeds snapshot chain sequence".

Definition validate_update_identity (update_thread_id : string) (s : ThreadSnapshot)
    (chain_root_id : string) : Sch unit :=
  reject (negb (bool_decide (update_thread_id = sn_thread_id s)))
    "snapshot update thread_id does not match snapshot thread_id" ;;
  reject (negb (bool_decide (sn_chain_root_id s = chain_root_id)))
    "snapshot update belongs to another chain".

Definition validate_status_transition (previous next : ThreadStatus) : Sch unit :=
  let valid :=
    match previous with
    | Created => bool_decide (next = Running) || is_terminal next
    | Running => is_terminal next
    | _ => false
    end in
  reject (negb valid) "illegal thread status transition".

Definition immutable (same : bool) (field : string) : Sch unit :=
  reject (negb same) ("snapshot transition cannot change immutable field " +:+ field).

Definition validate_snapshot_transition_identity (previous next : ThreadSnapshot) : Sch unit :=
  immutable (sn_schema previous =? sn_schema next) "schema" ;;
  immutable (bool_decide (sn_kind previous = sn_kind next)) "kind" ;;
  immutable (bool_decide (sn_thread_id previous = sn_thread_id next)) "thread_id" ;;
  immutable (bool_decide (sn_chain_root_id previous = sn_chain_root_id next)) "chain_root_id" ;;
  immutable (bool_decide (sn_kind_name previous = sn_kind_name next)) "kind_name" ;;
  immutable (bool_decide (sn_item_ref previous = sn_item_ref next)) "item_ref" ;;
  immutable (bool_decide (sn_executor_ref previous = sn_executor_ref next)) "executor_ref" ;;
  immutable (bool_decide (sn_launch_mode previous = sn_launch_mode next)) "launch_mode" ;;
  immutable (bool_decide (sn_origin_site_id previous = sn_origin_site_id next)) "origin_site_id" ;;
  immutable (bool_decide (sn_upstream_thread_id previous = sn_upstream_thread_id next))
    "upstream_thread_id" ;;
  immutable (bool_decide (sn_requested_by previous = sn_requested_by next)) "requested_by" ;;
  immutable (option_eqb path_eqb (sn_project_root previous) (sn_project_root next))
    "project_root" ;;
  immutable (project_authority_eqb (sn_project_authority previous) (sn_project_authority next))
    "project_authority" ;;
  immutable (option_eqb history_policy_eqb (sn_captured_history_policy previous)
               (sn_captured_history_policy next)) "captured_history_policy" ;;
  immutable (bool_decide (sn_created_at previous = sn_created_at next)) "created_at" ;;
  validate_status_transition (sn_status previous) (sn_status next) ;;
  reject (negb (bool_decide
      (sn_base_project_snapshot_hash previous = sn_base_project_snapshot_hash next)))
    "base_project_snapshot_hash is a project-authority projection and is immutable" ;;
  reject (negb (bool_decide
        (sn_result_project_snapshot_hash previous = sn_result_project_snapshot_hash next) ||
      (bool_decide (sn_result_project_snapshot_hash previous = None) &&
       bool_decide (is_Some (sn_result_project_snapshot_hash next)) &&
       is_terminal (sn_status next))))
    "result_project_snapshot_hash may only be established by a terminal transition" ;;
  reject (bool_decide (is_Some (sn_started_at previous)) &&
          negb (bool_decide (sn_started_at previous = sn_started_at next)))
    "snapshot transition cannot change or clear started_at once established".

Definition validate_new_thread_project_snapshots (s : ThreadSnapshot)
    (continuation_source : option string) : Sch unit :=
  reject (bool_decide (is_Some (sn_result_project_snapshot_hash s)))
    "new created snapshot cannot carry a result project snapshot hash" ;;
  match sn_base_project_snapshot_hash s, continuation_source with
  | Some _, Some source =>
      reject (negb (bool_decide (sn_upstream_thread_id s = Some source)))
        "continuation successor upstream does not match continuation source"
  | _, _ => Ok tt
  end.

Definition validate_new_thread_snapshot (s : ThreadSnapshot) (continuation_source : option string)
    : Sch unit :=
  reject (negb (bool_decide (sn_status s = Created)))
    "new authoritative thread must begin in created status" ;;
  validate_new_thread_project_snapshots s continuation_source.

(** ** Times of new objects *)

(** The value [clamp_timestamp] leaves: the floor when it is later. *)
Definition clamp_timestamp (value floor : string) : Sch string :=
  value_time ← parse_canonical_timestamp value ;
  floor_time ← parse_canonical_timestamp floor ;
  Ok (if value_time <? floor_time then floor else value).

Definition with_ts (e : ThreadEvent) (ts : string) : ThreadEvent := {|
  ev_schema := ev_schema e; ev_kind := ev_kind e; ev_chain_root_id := ev_chain_root_id e;
  ev_chain_seq := ev_chain_seq e; ev_thread_id := ev_thread_id e;
  ev_thread_seq := ev_thread_seq e; ev_event_type := ev_event_type e;
  ev_durability := ev_durability e; ev_ts := ts;
  ev_prev_chain_event_hash := ev_prev_chain_event_hash e;
  ev_prev_thread_event_hash := ev_prev_thread_event_hash e; ev_payload := ev_payload e;
|}.

(** The events with their clamped times, and the last of the times. *)
Fixpoint clamp_events (events : list ThreadEvent) (cursor : string)
    : Sch (list ThreadEvent * string) :=
  match events with
  | [] => Ok ([], cursor)
  | event :: events =>
      ts ← clamp_timestamp (ev_ts event) cursor ;
      '(events, cursor) ← clamp_events events ts ;
      Ok (with_ts event ts :: events, cursor)
  end.
Definition normalize_event_timestamps (events : list ThreadEvent) (floor : string)
    : Sch (list ThreadEvent * string) :=
  parse_canonical_timestamp floor ;;
  clamp_events events floor.

(** The times of [normalize_and_validate_snapshot_transition]. *)
Definition clamp_started_at (previous next : ThreadSnapshot) (updated_at : string)
    : Sch (option string * string) :=
  match sn_started_at next with
  | None => Ok (None, updated_at)
  | Some started_at =>
      started_at ← clamp_timestamp started_at (sn_created_at next) ;
      started_at ← (if decide (sn_started_at previous = None)
                    then clamp_timestamp started_at (sn_updated_at previous)
                    else Ok started_at) ;
      updated_at ← clamp_timestamp updated_at started_at ;
      Ok (Some started_at, updated_at)
  end.
Definition clamp_finished_at (previous next : ThreadSnapshot) (started_at : option string)
    (append_timestamp updated_at : string) : Sch (option string * string) :=
  match sn_finished_at next with
  | None => Ok (None, updated_at)
  | Some finished_at =>
      finished_at ← clamp_timestamp finished_at (sn_created_at next) ;
      finished_at ← clamp_timestamp finished_at (sn_updated_at previous) ;
      finished_at ← clamp_timestamp finished_at append_timestamp ;
      finished_at ← match started_at with
                    | Some started_at => clamp_timestamp finished_at started_at
                    | None => Ok finished_at
                    end ;
      updated_at ← clamp_timestamp updated_at finished_at ;
      Ok (Some finished_at, updated_at)
  end.
Definition normalize_and_validate_snapshot_transition (previous next : ThreadSnapshot)
    (append_timestamp : string) : Sch ThreadSnapshot :=
  validate_snapshot_transition_identity previous next ;;
  updated_at ← clamp_timestamp (sn_updated_at next) (sn_updated_at previous) ;
  '(started_at, updated_at) ← clamp_started_at previous next updated_at ;
  '(finished_at, updated_at) ←
     clamp_finished_at previous next started_at append_timestamp updated_at ;
  updated_at ← clamp_timestamp updated_at append_timestamp ;
  let next := with_times next updated_at started_at finished_at in
  validate_snapshot next ;;
  Ok next.

Definition normalize_and_validate_new_thread (s : ThreadSnapshot)
    (chain_root_id timestamp_floor : string) (continuation_source : option string)
    : Sch ThreadSnapshot :=
  reject (negb (bool_decide (sn_chain_root_id s = chain_root_id)))
    "snapshot chain_root_id mismatch" ;;
  reject (negb (bool_decide (sn_status s = Created)))
    "new thread snapshot must start in created status" ;;
  validate_new_thread_project_snapshots s continuation_source ;;
  parse_canonical_timestamp (sn_created_at s) ;;
  updated_at ← clamp_timestamp (sn_updated_at s) (sn_created_at s) ;
  updated_at ← clamp_timestamp updated_at timestamp_floor ;
  let s := with_times s updated_at (sn_started_at s) (sn_finished_at s) in
  validate_snapshot s ;;
  Ok s.

(** [monotonic_now], given the reading of the local clock. *)
Definition monotonic_now (now : string) (floors : list string) : Sch string :=
  now_time ← parse_canonical_timestamp now ;
  '(result, _) ← each_from (λ '(result, result_time) floor,
      floor_time ← parse_canonical_timestamp floor ;
      Ok (if result_time <? floor_time then (floor, floor_time) else (result, result_time)))
    (now, now_time) floors ;
  Ok result.

Definition validate_untouched_entries (previous next : gmap string ChainThreadEntry)
    (updated_threads : list string) : Sch unit :=
  let expected := foldl (λ m thread_id, delete thread_id m) previous updated_threads in
  each (λ '(thread_id, expected_entry),
      actual ← some_or (next !! thread_id) "prospective chain removed thread" ;
      reject (negb (bool_decide (actual = expected_entry)))
        "prospective chain changed untouched thread")
    (btree_entries expected).

End snapshots.

(** ** Loading objects by hash *)

Section validator.
Context `{Externals} `{Sha256} `{JsonReader} `{UnicodeTables} `{NaiveDateTime}.
Context `{Wire ThreadEvent} `{Wire ThreadSnapshot} `{Wire ChainState}.

Definition not_canonical (hash : string) {A} `{Wire A} (a : A) : Sch unit :=
  reject (negb (bool_decide (object_hash a = hash))) "authoritative object is not canonically encoded".

Definition load_hashed_chain_state (cas : Cas) (hash : string) : Sch ChainState :=
  object ← get_object cas hash ;
  value ← some_or object "authoritative ChainState object is absent" ;
  state ← some_or (from_value value) "decode authoritative ChainState object" ;
  not_canonical hash (state : ChainState) ;;
  Ok state.

Definition load_hashed_snapshot (cas : Cas) (hash : string) : Sch ThreadSnapshot :=
  object ← get_object cas hash ;
  value ← some_or object "authoritative snapshot object is absent" ;
  snapshot ← from_current_value value ;
  not_canonical hash (snapshot : ThreadSnapshot) ;;
  Ok snapshot.

Definition load_hashed_event (cas : Cas) (hash : string) : Sch ThreadEvent :=
  object ← get_object cas hash ;
  value ← some_or object "authoritative event object is absent" ;
  event ← some_or (from_value value) "decode authoritative event object" ;
  not_canonical hash (event : ThreadEvent) ;;
  Ok event.

(** ** The closure of one head *)

(** One turn of the loop over the threads of the head. *)
Definition load_thread (cas : Cas) (state : ChainState) (state_updated_at : Z)
    (acc : gmap string ThreadEventCursor * list SnapshotEventPosition)
    (thread : string * ChainThreadEntry)
    : Sch (gmap string ThreadEventCursor * list SnapshotEventPosition) :=
  let '(thread_id, entry) := thread in
  let '(cursors, positions) := acc in
  snapshot ← load_hashed_snapshot cas (te_snapshot_hash entry) ;
  validate_stored_snapshot state thread_id entry snapshot ;;
  snapshot_updated_at ← parse_canonical_timestamp (sn_updated_at snapshot) ;
  reject (state_updated_at <? snapshot_updated_at)
    "snapshot updated_at exceeds authoritative chain updated_at" ;;
  let positions :=
    match sn_last_event_hash snapshot with
    | Some event_hash =>
        positions ++ [{| sp_thread_id := thread_id; sp_event_hash := event_hash;
                         sp_chain_sequence := sn_last_chain_seq snapshot;
                         sp_thread_sequence := sn_last_thread_seq snapshot |}]
    | None => positions
    end in
  let cursor := {| next_hash := te_last_event_hash entry;
                   next_sequence := te_last_thread_seq entry |} in
  Ok (<[thread_id := cursor]> cursors, positions).

(** The variables of the loop over the events, newest first. *)
Record Walk := {
  wk_current_hash : option string;
  wk_expected_sequence : N;
  wk_newer_timestamp : Z;
  wk_visited : gset string;
  wk_cursors : gmap string ThreadEventCursor;
  wk_positions : gmap string EventPosition;
}.

Definition event_position (event : ThreadEvent) : EventPosition := {|
  ep_thread_id := ev_thread_id event;
  ep_chain_sequence := ev_chain_seq event;
  ep_thread_sequence := ev_thread_seq event;
  ep_timestamp := ev_ts event;
  ep_prev_chain_hash := ev_prev_chain_event_hash event;
  ep_prev_thread_hash := ev_prev_thread_event_hash event;
|}.

Definition walk_event (cas : Cas) (state : ChainState) (w : Walk) : Sch Walk :=
  event_hash ← some_or (wk_current_hash w) "chain event history ended early" ;
  reject (bool_decide (event_hash ∈ wk_visited w)) "cycle in chain event history" ;;
  event ← load_hashed_event cas event_hash ;
  validate_event event ;;
  reject (negb (bool_decide (ev_chain_root_id event = cs_chain_root_id state)))
    "event belongs to another chain" ;;
  reject (negb (ev_chain_seq event =? wk_expected_sequence w)%N) "event chain sequence mismatch" ;;
  event_timestamp ← parse_canonical_timestamp (ev_ts event) ;
  reject (wk_newer_timestamp w <? event_timestamp)
    "event timestamp exceeds the next authoritative chain timestamp" ;;
  cursor ← some_or (wk_cursors w !! ev_thread_id event)
    "event names thread absent from the authoritative head" ;
  reject (negb (bool_decide (next_hash cursor = Some event_hash))) "thread event link mismatch" ;;
  reject (negb (ev_thread_seq event =? next_sequence cursor)%N) "event thread sequence mismatch" ;;
  validate_predecessor_link "chain event" (ev_chain_seq event) (ev_prev_chain_event_hash event) ;;
  validate_predecessor_link "thread event" (ev_thread_seq event)
    (ev_prev_thread_event_hash event) ;;
  expected_sequence ← decrement (wk_expected_sequence w) ;
  next_sequence ← decrement (next_sequence cursor) ;
  Ok {| wk_current_hash := ev_prev_chain_event_hash event;
        wk_expected_sequence := expected_sequence;
        wk_newer_timestamp := event_timestamp;
        wk_visited := {[event_hash]} ∪ wk_visited w;
        wk_cursors := <[ev_thread_id event := {|
            next_hash := ev_prev_thread_event_hash event; next_sequence := next_sequence |}]>
          (wk_cursors w);
        wk_positions := <[event_hash := event_position event]> (wk_positions w) |}.

Fixpoint walk_events (fuel : nat) (cas : Cas) (state : ChainState) (w : Walk) : Sch Walk :=
  if (0 <? wk_expected_sequence w)%N then
    match fuel with
    | O => Err Diverged
    | S fuel => w ← walk_event cas state w ; walk_events fuel cas state w
    end
  else Ok w.

Definition check_snapshot_position (positions : gmap string EventPosition)
    (snapshot : SnapshotEventPosition) : Sch unit :=
  event ← some_or (positions !! sp_event_hash snapshot)
    "snapshot references event outside the authoritative chain history" ;
  reject (negb (bool_decide (ep_thread_id event = sp_thread_id snapshot)) ||
          negb (ep_thread_sequence event =? sp_thread_sequence snapshot)%N ||
          (sp_chain_sequence snapshot <? ep_chain_sequence event)%N)
    "snapshot event position mismatch".

Definition validate_authoritative_closure (cas : Cas) (state : ChainState)
    : Sch (gmap string EventPosition) :=
  validate_state state ;;
  validate_chain_positions state ;;
  state_updated_at ← parse_canonical_timestamp (cs_updated_at state) ;
  '(thread_cursors, snapshot_event_positions) ←
     each_from (load_thread cas state state_updated_at) (∅, []) (btree_entries (cs_threads state)) ;
  w ← walk_events (S (size cas)) cas state {|
        wk_current_hash := cs_last_event_hash state;
        wk_expected_sequence := cs_last_chain_seq state;
        wk_newer_timestamp := state_updated_at;
        wk_visited := ∅; wk_cursors := thread_cursors; wk_positions := ∅ |} ;
  reject (bool_decide (is_Some (wk_current_hash w)))
    "chain event history continues before sequence one" ;;
  each (λ '(thread_id, cursor),
      reject (negb (next_sequence cursor =? 0)%N || bool_decide (is_Some (next_hash cursor)))
        "thread event history is not fully represented by the chain event history")
    (btree_entries (wk_cursors w)) ;;
  each (check_snapshot_position (wk_positions w)) snapshot_event_positions ;;
  Ok (wk_positions w).

(** ** Transitions between consecutive states *)

Definition validate_snapshot_event_position (s : ThreadSnapshot)
    (events : gmap string EventPosition) : Sch unit :=
  match sn_last_event_hash s with
  | None => Ok tt
  | Some hash =>
      event ← some_or (events !! hash) "snapshot references event outside chain history" ;
      reject (negb (bool_decide (ep_thread_id event = sn_thread_id s)) ||
              negb (ep_thread_sequence event =? sn_last_thread_seq s)%N ||
              (sn_last_chain_seq s <? ep_chain_sequence event)%N)
        "snapshot event identity or position mismatch"
  end.

Definition validate_published_snapshot (state : ChainState) (thread_id : string)
    (entry : ChainThreadEntry) (s : ThreadSnapshot) (events : gmap string EventPosition)
    : Sch unit :=
  validate_stored_snapshot state thread_id entry s ;;
  reject (negb (sn_last_chain_seq s =? cs_last_chain_seq state)%N ||
          negb (sn_last_thread_seq s =? te_last_thread_seq entry)%N ||
          negb (bool_decide (sn_last_event_hash s = te_last_event_hash entry)))
    "new snapshot does not carry its exact publication position" ;;
  snapshot_updated_at ← parse_canonical_timestamp (sn_updated_at s) ;
  state_updated_at ← parse_canonical_timestamp (cs_updated_at state) ;
  reject (state_updated_at <? snapshot_updated_at)
    "snapshot exceeds its publishing ChainState time" ;;
  validate_snapshot_event_position s events.

Definition validate_entry_event_position (state : ChainState) (thread_id : string)
    (entry : ChainThreadEntry) (events : gmap string EventPosition) : Sch unit :=
  match te_last_event_hash entry with
  | None => Ok tt
  | Some hash =>
      event ← some_or (events !! hash) "thread entry references event outside chain history" ;
      reject (negb (bool_decide (ep_thread_id event = thread_id)) ||
              negb (ep_thread_sequence event =? te_last_thread_seq entry)%N ||
              (cs_last_chain_seq state <? ep_chain_sequence event)%N)
        "thread entry event position mismatch"
  end.

Definition validate_historical_snapshot_transition (previous next : ThreadSnapshot)
    (appended_through : option string) : Sch unit :=
  appended_through ← some_or appended_through
    "existing thread snapshot changed without an event append" ;
  validate_snapshot_transition_identity previous next ;;
  validate_snapshot next ;;
  previous_updated_at ← parse_canonical_timestamp (sn_updated_at previous) ;
  next_updated_at ← parse_canonical_timestamp (sn_updated_at next) ;
  reject (next_updated_at <? previous_updated_at) "snapshot updated_at moved backwards" ;;
  (if decide (sn_started_at previous = None) then
     started_at ← parse_optional_timestamp (sn_started_at next) ;
     reject (is_some_and started_at (λ started_at, started_at <? previous_updated_at))
       "new snapshot started_at precedes its predecessor update"
   else Ok tt) ;;
  appended_through ← parse_canonical_timestamp appended_through ;
  reject (next_updated_at <? appended_through)
    "snapshot updated_at precedes its publishing event append" ;;
  finished_at ← parse_optional_timestamp (sn_finished_at next) ;
  reject (is_some_and finished_at (λ finished_at,
      (finished_at <? previous_updated_at) || (finished_at <? appended_through)))
    "snapshot finished_at precedes its predecessor or publishing append".

Inductive EventHistory := ChainEvents | ThreadEvents (thread_id : string).

(** The sequence and the predecessor of an event in one of the histories. *)
Definition history_link (history : EventHistory) (event : EventPosition)
    : Sch (N * option string) :=
  match history with
  | ChainEvents => Ok (ep_chain_sequence event, ep_prev_chain_hash event)
  | ThreadEvents thread_id =>
      reject (negb (bool_decide (ep_thread_id event = thread_id)))
        "thread history crosses into another thread" ;;
      Ok (ep_thread_sequence event, ep_prev_thread_hash event)
  end.

(** The loop of [validate_event_advance], [steps] being the sequences left. *)
Fixpoint advance_steps (steps : nat) (events : gmap string EventPosition) (history : EventHistory)
    (sequence : N) (hash newest oldest : option string)
    : Sch (option string * option string * option string) :=
  match steps with
  | O => Ok (hash, newest, oldest)
  | S steps =>
      current_hash ← some_or hash "event history ended early" ;
      event ← some_or (events !! current_hash) "event is outside the authoritative chain history" ;
      '(actual_sequence, predecessor) ← history_link history event ;
      reject (negb (actual_sequence =? sequence)%N) "event sequence mismatch" ;;
      let newest := match newest with None => Some (ep_timestamp event) | _ => newest end in
      advance_steps steps events history (sequence - 1)%N predecessor newest
        (Some (ep_timestamp event))
  end.

(** The oldest and the newest time of the events between two positions. *)
Definition validate_event_advance (events : gmap string EventPosition) (history : EventHistory)
    (previous_hash : option string) (previous_sequence : N) (next_hash : option string)
    (next_sequence : N) : Sch (option (string * string)) :=
  reject (next_sequence <? previous_sequence)%N "event sequence moved backwards" ;;
  if (next_sequence =? previous_sequence)%N then
    reject (negb (bool_decide (next_hash = previous_hash)))
      "event hash changed without advancing its sequence" ;;
    Ok None
  else
    '(hash, newest, oldest) ←
       advance_steps (N.to_nat (next_sequence - previous_sequence)) events history next_sequence
         next_hash None None ;
    reject (negb (bool_decide (hash = previous_hash)))
      "event advance does not join the predecessor history" ;;
    oldest ← expect oldest ;
    newest ← expect newest ;
    Ok (Some (oldest, newest)).

(** The thread a project-bearing new thread continues, as the validator
    reads it from the snapshot. *)
Definition continuation_source (previous : ChainState) (s : ThreadSnapshot) : option string :=
  match sn_base_project_snapshot_hash s, sn_upstream_thread_id s with
  | Some _, Some source =>
      if decide (is_Some (cs_threads previous !! source)) then Some source else None
  | _, _ => None
  end.

(** One turn of the loop over the threads of the successor state. *)
Definition validate_thread_transition (cas : Cas) (previous next : ChainState)
    (events : gmap string EventPosition) (appended_times : option (string * string))
    (thread : string * ChainThreadEntry) : Sch unit :=
  let '(thread_id, next_entry) := thread in
  validate_entry_event_position next thread_id next_entry events ;;
  match cs_threads previous !! thread_id with
  | None =>
      validate_event_advance events (ThreadEvents thread_id) None 0%N
        (te_last_event_hash next_entry) (te_last_thread_seq next_entry) ;;
      snapshot ← load_hashed_snapshot cas (te_snapshot_hash next_entry) ;
      validate_published_snapshot next thread_id next_entry snapshot events ;;
      validate_new_thread_snapshot snapshot (continuation_source previous snapshot)
  | Some previous_entry =>
      validate_event_advance events (ThreadEvents thread_id)
        (te_last_event_hash previous_entry) (te_last_thread_seq previous_entry)
        (te_last_event_hash next_entry) (te_last_thread_seq next_entry) ;;
      if decide (te_snapshot_hash previous_entry = te_snapshot_hash next_entry) then
        reject (negb (bool_decide (te_status previous_entry = te_status next_entry)))
          "thread changed status without publishing a new snapshot"
      else
        previous_snapshot ← load_hashed_snapshot cas (te_snapshot_hash previous_entry) ;
        next_snapshot ← load_hashed_snapshot cas (te_snapshot_hash next_entry) ;
        validate_published_snapshot next thread_id next_entry next_snapshot events ;;
        validate_historical_snapshot_transition previous_snapshot next_snapshot
          (snd <$> appended_times)
  end.

Definition validate_chain_state_transition (cas : Cas) (previous_hash : string)
    (previous : ChainState) (next : ChainState) (events : gmap string EventPosition) : Sch unit :=
  reject (negb (bool_decide (cs_prev_chain_state_hash next = Some previous_hash)))
    "ChainState does not name its direct predecessor" ;;
  reject (negb (cs_schema next =? cs_schema previous) ||
          negb (bool_decide (cs_kind next = cs_kind previous)) ||
          negb (bool_decide (cs_chain_root_id next = cs_chain_root_id previous)))
    "ChainState transition changed immutable chain identity" ;;
  previous_updated_at ← parse_canonical_timestamp (cs_updated_at previous) ;
  next_updated_at ← parse_canonical_timestamp (cs_updated_at next) ;
  reject (next_updated_at <? previous_updated_at) "ChainState updated_at moved backwards" ;;
  appended_times ← validate_event_advance events ChainEvents
    (cs_last_event_hash previous) (cs_last_chain_seq previous)
    (cs_last_event_hash next) (cs_last_chain_seq next) ;
  match appended_times with
  | None => Ok tt
  | Some (oldest, newest) =>
      oldest ← parse_canonical_timestamp oldest ;
      reject (oldest <? previous_updated_at)
        "new chain events precede the previous ChainState timestamp" ;;
      newest ← parse_canonical_timestamp newest ;
      reject (next_updated_at <? newest)
        "new chain events exceed the successor ChainState timestamp"
  end ;;
  each (λ '(thread_id, _),
      reject (bool_decide (cs_threads next !! thread_id = None))
        "ChainState transition removed thread")
    (btree_entries (cs_threads previous)) ;;
  each (validate_thread_transition cas previous next events appended_times)
    (btree_entries (cs_threads next)).

Definition validate_genesis_state (cas : Cas) (state : ChainState)
    (events : gmap string EventPosition) : Sch unit :=
  reject (bool_decide (is_Some (cs_prev_chain_state_hash state)))
    "genesis ChainState has a predecessor" ;;
  reject (negb (bool_decide (size (cs_threads state) = 1%nat)))
    "genesis ChainState must contain only its root thread" ;;
  entry ← expect (cs_threads state !! cs_chain_root_id state) ;
  snapshot ← load_hashed_snapshot cas (te_snapshot_hash entry) ;
  validate_published_snapshot state (cs_chain_root_id state) entry snapshot events ;;
  validate_new_thread_snapshot snapshot None ;;
  if (cs_last_chain_seq state =? 0)%N then
    reject (bool_decide (is_Some (cs_last_event_hash state)))
      "zero-event genesis ChainState carries an event hash"
  else
    reject (negb (te_last_thread_seq entry =? cs_last_chain_seq state)%N ||
            negb (bool_decide (te_last_event_hash entry = cs_last_event_hash state)))
      "historical event-bearing genesis must contain one root-only event history" ;;
    last_hash ← expect (cs_last_event_hash state) ;
    last_event ← expect (events !! last_hash) ;
    reject (negb (bool_decide (ep_thread_id last_event = cs_chain_root_id state)) ||
            negb (ep_thread_sequence last_event =? cs_last_chain_seq state)%N)
      "historical event-bearing genesis must contain only contiguous root events" ;;
    snapshot_updated_at ← parse_canonical_timestamp (sn_updated_at snapshot) ;
    event_timestamp ← parse_canonical_timestamp (ep_timestamp last_event) ;
    reject (snapshot_updated_at <? event_timestamp)
      "historical genesis snapshot predates its final initial event".

(** ** Whole histories *)

(** The walk along the predecessors, giving the hashes oldest first: the
    source collects them newest first and reverses them. *)
Fixpoint walk_states (fuel : nat) (cas : Cas) (chain_root_id : string) (hash : string)
    (visited : gset string) (newer : list string) : Sch (list string) :=
  match fuel with
  | O => Err Diverged
  | S fuel =>
      reject (bool_decide (hash ∈ visited)) "cycle in ChainState history" ;;
      state ← load_hashed_chain_state cas hash ;
      validate_state state ;;
      validate_chain_positions state ;;
      reject (negb (bool_decide (cs_chain_root_id state = chain_root_id)))
        "historical ChainState belongs to another chain" ;;
      match cs_prev_chain_state_hash state with
      | Some previous =>
          walk_states fuel cas chain_root_id previous ({[hash]} ∪ visited) (hash :: newer)
      | None => Ok (hash :: newer)
      end
  end.

Fixpoint validate_transitions (cas : Cas) (events : gmap string EventPosition)
    (previous_hash : string) (previous : ChainState) (hashes : list string) : Sch unit :=
  match hashes with
  | [] => Ok tt
  | next_hash :: hashes =>
      next ← load_hashed_chain_state cas next_hash ;
      validate_chain_state_transition cas previous_hash previous next events ;;
      validate_transitions cas events next_hash next hashes
  end.

Definition validate_authoritative_history (cas : Cas) (chain_root_id target_hash : string)
    (expected_ancestor : option string) : Sch unit :=
  target ← load_hashed_chain_state cas target_hash ;
  reject (negb (bool_decide (cs_chain_root_id target = chain_root_id)))
    "target chain root mismatch" ;;
  event_positions ← validate_authoritative_closure cas target ;
  oldest_to_newest ← walk_states (S (size cas)) cas chain_root_id target_hash ∅ [] ;
  match expected_ancestor with
  | Some expected =>
      reject (negb (bool_decide (expected ∈ oldest_to_newest)))
        "target ChainState does not advance from expected current head"
  | None => Ok tt
  end ;;
  match oldest_to_newest with
  | [] => bail "empty ChainState history"
  | genesis_hash :: later =>
      previous ← load_hashed_chain_state cas genesis_hash ;
      validate_genesis_state cas previous event_positions ;;
      validate_transitions cas event_positions genesis_hash previous later
  end.

End validator.
