(* ===== verification/Chain.v ===== *)
(** * Writing execution chains

    [ryeos-state/src/chain.rs] with what it uses of the signed refs
    ([refs.rs], [signer.rs]), of the recovery journal ([recovery.rs]) and of
    the head cache ([head_cache.rs]): creating a chain, appending events and
    snapshot updates, adding threads, and reading the current snapshot of a
    thread.

    The store has the objects, the head of each chain and the transition
    that is pending for it; a head file and a journal file are the values
    they hold.  Operations run under the chain lock, so that between the
    operations of one chain only other objects appear in the store; opening
    and comparing the directories a lock pins is not modelled, nor are
    failures to read.

    Every durable write is one step: the publication of one object of a
    batch, of a journal record, of a head.  [st_kill] is the number of steps
    that are left before the process dies or a write fails; the operation
    then stops where it is. *)

From S2P Require Import Prelude Float64 Json CanonicalRef Schedule ScheduleSpec.
From S2P Require Import CasStore ChainObjects ChainValidation.

(** ** Keys and signed refs *)

(** [ed25519_dalek] and [base64]. *)
Class Ed25519 := {
  VerifyingKey : Type;
  key_bytes : VerifyingKey → string;
  Signature : Type;
  signature_from_slice : string → option Signature;
  verify : VerifyingKey → string → Signature → bool;
  base64_encode : string → string;
  base64_decode : string → option string;
}.

(** The trait [Signer]. *)
Record Signer `{Ed25519} := {
  sign : string → string;
  fingerprint : string;
  verifying_key : VerifyingKey;
}.
Definition TrustStore `{Ed25519} : Type := gmap string VerifyingKey.

Definition ensure_signer_trusted `{Ed25519} `{Sha256} (signer : Signer) (trust_store : TrustStore)
    : Sch unit :=
  let actual_fingerprint := sha256_hex (key_bytes (verifying_key signer)) in
  reject (negb (bool_decide (fingerprint signer = actual_fingerprint)))
    "signer fingerprint/key mismatch" ;;
  trusted ← some_or (trust_store !! fingerprint signer) "signer is not trusted" ;
  reject (negb (bool_decide (key_bytes trusted = key_bytes (verifying_key signer))))
    "signer key does not match trusted key".

Record SignedRef := {
  sr_schema : Z;
  sr_kind : string;
  sr_ref_path : string;
  sr_target_hash : string;
  sr_updated_at : string;
  sr_signer : string;
  sr_signature : string;
}.
Definition SIGNED_REF_SCHEMA : Z := 1.
Definition SIGNED_REF_KIND : string := "signed_ref".

Definition new_signed_ref (ref_path target_hash updated_at signer : string) : SignedRef := {|
  sr_schema := SIGNED_REF_SCHEMA; sr_kind := SIGNED_REF_KIND; sr_ref_path := ref_path;
  sr_target_hash := target_hash; sr_updated_at := updated_at; sr_signer := signer;
  sr_signature := EmptyString;
|}.
Definition with_signature (r : SignedRef) (signature : string) : SignedRef := {|
  sr_schema := sr_schema r; sr_kind := sr_kind r; sr_ref_path := sr_ref_path r;
  sr_target_hash := sr_target_hash r; sr_updated_at := sr_updated_at r; sr_signer := sr_signer r;
  sr_signature := signature;
|}.

(** [SignedRef::validate]. *)
Definition validate_signed_ref `{NaiveDateTime} (r : SignedRef) : Sch unit :=
  reject (negb (sr_schema r =? SIGNED_REF_SCHEMA)) "invalid schema" ;;
  reject (negb (bool_decide (sr_kind r = SIGNED_REF_KIND))) "invalid kind" ;;
  reject (is_empty (sr_ref_path r)) "ref_path must not be empty" ;;
  validate_canonical_hash "target_hash" (sr_target_hash r) ;;
  parse_canonical_timestamp (sr_updated_at r) ;;
  validate_canonical_hash "signer" (sr_signer r) ;;
  reject (is_empty (sr_signature r)) "signature must not be empty".

Definition without_signature (r : SignedRef) : Value :=
  VObject [("kind", VString (sr_kind r)); ("ref_path", VString (sr_ref_path r));
           ("schema", VNumber (PosInt (sr_schema r))); ("signer", VString (sr_signer r));
           ("target_hash", VString (sr_target_hash r)); ("updated_at", VString (sr_updated_at r))].

Section refs.
Context `{Externals} `{NaiveDateTime} `{Ed25519}.

(** [encode_signed_ref]: the ref that is written. *)
Definition encode_signed_ref (r : SignedRef) (signer : Signer) : Sch SignedRef :=
  let sig_bytes := sign signer (canonical_json (without_signature r)) in
  let r := with_signature r (base64_encode sig_bytes) in
  validate_signed_ref r ;;
  Ok r.

Definition verify_signed_ref (r : SignedRef) (verifying_keys : TrustStore) : Sch unit :=
  validate_signed_ref r ;;
  pubkey ← some_or (verifying_keys !! sr_signer r) "signer not in trust store" ;
  let canonical := canonical_json (without_signature r) in
  sig_bytes ← some_or (base64_decode (sr_signature r)) "failed to decode signature" ;
  signature ← some_or (signature_from_slice sig_bytes) "failed to parse signature" ;
  reject (negb (verify pubkey canonical signature)) "signature verification failed".

End refs.

(** ** The store *)

Inductive HeadOperation := SetHead | RemoveHead.
Inductive TransitionPhase := Prepared | HeadPublished | ApplyingProjection.
#[export] Instance HeadOperation_eq_dec : EqDecision HeadOperation.
Proof. solve_decision. Defined.
#[export] Instance TransitionPhase_eq_dec : EqDecision TransitionPhase.
Proof. solve_decision. Defined.

Record PendingChainHeadTransition := {
  pt_schema : Z;
  pt_transition_id : string;
  pt_chain_root_id : string;
  pt_operation : HeadOperation;
  pt_phase : TransitionPhase;
  pt_expected_previous_hash : option string;
  pt_target_hash : option string;
  pt_prepared_at : string;
}.
Definition PENDING_SCHEMA : Z := 1.

Record CachedHead := {
  chain_state_hash : string;
  chain_state : ChainState;
}.

Record Store := {
  st_cas : Cas;
  st_heads : gmap string SignedRef;
  st_pending : gmap string PendingChainHeadTransition;
  st_cache : gmap string CachedHead;
  (** Readings of the clock, and numbers drawn by [unique_id], so far. *)
  st_readings : nat;
  st_sequence : nat;
  st_kill : option nat;
}.
Definition with_cas (s : Store) (cas : Cas) : Store := {|
  st_cas := cas; st_heads := st_heads s; st_pending := st_pending s; st_cache := st_cache s;
  st_readings := st_readings s; st_sequence := st_sequence s; st_kill := st_kill s |}.
Definition with_heads (s : Store) (heads : gmap string SignedRef) : Store := {|
  st_cas := st_cas s; st_heads := heads; st_pending := st_pending s; st_cache := st_cache s;
  st_readings := st_readings s; st_sequence := st_sequence s; st_kill := st_kill s |}.
Definition with_pending (s : Store) (pending : gmap string PendingChainHeadTransition) : Store := {|
  st_cas := st_cas s; st_heads := st_heads s; st_pending := pending; st_cache := st_cache s;
  st_readings := st_readings s; st_sequence := st_sequence s; st_kill := st_kill s |}.
Definition with_cache (s : Store) (cache : gmap string CachedHead) : Store := {|
  st_cas := st_cas s; st_heads := st_heads s; st_pending := st_pending s; st_cache := cache;
  st_readings := st_readings s; st_sequence := st_sequence s; st_kill := st_kill s |}.
Definition with_counters (s : Store) (readings sequence : nat) (kill : option nat) : Store := {|
  st_cas := st_cas s; st_heads := st_heads s; st_pending := st_pending s; st_cache := st_cache s;
  st_readings := readings; st_sequence := sequence; st_kill := kill |}.

Definition Op : Type → Type := M Store Fault.

(** A durable write: nothing once the process is dead. *)
Definition durable (f : Store → Store) : Op unit := λ s,
  match st_kill s with
  | None => (Ok tt, f s)
  | Some O => (Err Killed, s)
  | Some (S n) => (Ok tt, with_counters (f s) (st_readings s) (st_sequence s) (Some n))
  end.
Definition cas_of : Op Cas := s ← get ; mret (st_cas s).

(** [HeadCache::insert] and [HeadCache::invalidate]. *)
Definition cache_insert (chain_root_id : string) (cached : CachedHead) : Op unit :=
  s ← get ; put (with_cache s (<[chain_root_id := cached]> (st_cache s))).
Definition cache_invalidate (chain_root_id : string) : Op unit :=
  s ← get ; put (with_cache s (delete chain_root_id (st_cache s))).

Section clock.
Context `{SystemTime}.

Definition reading : Op nat :=
  s ← get ;
  put (with_counters s (S (st_readings s)) (st_sequence s) (st_kill s)) ;;
  mret (st_readings s).
Definition iso8601_now : Op string :=
  n ← reading ; mret (iso8601_from_unix_secs (secs_since_epoch n)).

(** [{n:x}]. *)
Fixpoint hex_from (fuel : nat) (n : Z) (acc : string) : string :=
  match fuel with
  | O => acc
  | S fuel =>
      let acc := String (hex_digit (Z.land n 15)) acc in
      if Z.shiftr n 4 =? 0 then acc else hex_from fuel (Z.shiftr n 4) acc
  end.
(** At most 32 digits: the values are [u128] nanoseconds and smaller. *)
Definition hex (n : Z) : string := hex_from 32 n EmptyString.
(** [std::process::id]. *)
Class Process := { process_id : Z }.
Definition unique_id `{Process} (prefix : string) : Op string :=
  n ← reading ;
  s ← get ;
  put (with_counters s (st_readings s) (S (st_sequence s)) (st_kill s)) ;;
  mret (prefix +:+ "-" +:+ hex (nanos_since_epoch n) +:+ "-" +:+ hex process_id +:+ "-" +:+
        hex (Z.of_nat (st_sequence s))).

End clock.

(** ** The chain lock *)

(** A lock is the chain it protects. *)
Definition ChainLock : Type := string.

Definition is_ascii_control (b : Z) : bool := (b <? 32) || (b =? 127).
Definition validate_chain_root_id (chain_root_id : string) : Sch unit :=
  reject (is_empty chain_root_id || (255 <? len chain_root_id) ||
          bool_decide (chain_root_id = "." ∨ chain_root_id = "..") ||
          negb (all_bytes (λ b, negb ((b =? 47) || (b =? 92))) chain_root_id) ||
          negb (all_bytes (λ b, negb (is_ascii_control b)) chain_root_id))
    "invalid chain root id".
(** [ChainLock::acquire]. *)
Definition acquire (chain_root_id : string) : Sch ChainLock :=
  validate_chain_root_id chain_root_id ;;
  Ok chain_root_id.
Definition ensure_lock_protects (lock : ChainLock) (chain_root_id : string) : Sch unit :=
  reject (negb (bool_decide (lock = chain_root_id))) "chain lock protects another chain".

(** ** The recovery journal *)

Definition validate_optional_hash (label : string) (hash : option string) : Sch unit :=
  match hash with
  | Some hash => reject (negb (canonical_cas_hash hash)) ("invalid " +:+ label)
  | None => Ok tt
  end.

(** [PendingChainHeadTransition::validate]. *)
Definition validate_pending `{NaiveDateTime} (p : PendingChainHeadTransition) : Sch unit :=
  reject (negb (pt_schema p =? PENDING_SCHEMA)) "unsupported pending transition schema" ;;
  validate_chain_root_id (pt_chain_root_id p) ;;
  reject (is_empty (pt_transition_id p) || (128 <? len (pt_transition_id p)))
    "invalid transition_id" ;;
  parse_canonical_timestamp (pt_prepared_at p) ;;
  match pt_operation p with
  | SetHead =>
      validate_optional_hash "expected_previous_hash" (pt_expected_previous_hash p) ;;
      target ← some_or (pt_target_hash p) "pending Set is missing target_hash" ;
      validate_optional_hash "target_hash" (Some target)
  | RemoveHead =>
      previous ← some_or (pt_expected_previous_hash p)
        "pending Remove is missing expected_previous_hash" ;
      validate_optional_hash "expected_previous_hash" (Some previous) ;;
      reject (bool_decide (is_Some (pt_target_hash p))) "pending Remove must not contain target_hash"
  end.
Definition with_phase (p : PendingChainHeadTransition) (phase : TransitionPhase)
    : PendingChainHeadTransition := {|
  pt_schema := pt_schema p; pt_transition_id := pt_transition_id p;
  pt_chain_root_id := pt_chain_root_id p; pt_operation := pt_operation p; pt_phase := phase;
  pt_expected_previous_hash := pt_expected_previous_hash p; pt_target_hash := pt_target_hash p;
  pt_prepared_at := pt_prepared_at p;
|}.

Section recovery.
Context `{NaiveDateTime} `{SystemTime} `{Process}.

Definition read_pending (chain_root_id : string) : Op (option PendingChainHeadTransition) :=
  lift (validate_chain_root_id chain_root_id) ;;
  s ← get ;
  match st_pending s !! chain_root_id with
  | None => mret None
  | Some record =>
      lift (validate_pending record) ;;
      lift (reject (negb (bool_decide (pt_chain_root_id record = chain_root_id)))
              "pending transition path/chain mismatch") ;;
      mret (Some record)
  end.

Definition write_pending (record : PendingChainHeadTransition) : Op unit :=
  lift (validate_pending record) ;;
  durable (λ s, with_pending s (<[pt_chain_root_id record := record]> (st_pending s))).

Definition prepare_set (lock : ChainLock) (chain_root_id : string)
    (expected_previous_hash : option string) (target_hash : string)
    : Op PendingChainHeadTransition :=
  lift (ensure_lock_protects lock chain_root_id) ;;
  lift (validate_chain_root_id chain_root_id) ;;
  lift (validate_optional_hash "expected_previous_hash" expected_previous_hash) ;;
  lift (validate_optional_hash "target_hash" (Some target_hash)) ;;
  existing ← read_pending chain_root_id ;
  match existing with
  | Some existing =>
      match pt_operation existing with
      | RemoveHead => throw (Error ["chain has a pending Remove; recover it before publishing Set"])
      | SetHead =>
          if decide (pt_target_hash existing = Some target_hash ∧
                     pt_expected_previous_hash existing = expected_previous_hash)
          then mret existing
          else throw (Error ["chain has a pending Set; repair and acknowledge it before publishing another Set"])
      end
  | None =>
      transition_id ← unique_id "transition" ;
      prepared_at ← iso8601_now ;
      let record := {|
        pt_schema := PENDING_SCHEMA; pt_transition_id := transition_id;
        pt_chain_root_id := chain_root_id; pt_operation := SetHead; pt_phase := Prepared;
        pt_expected_previous_hash := expected_previous_hash; pt_target_hash := Some target_hash;
        pt_prepared_at := prepared_at |} in
      write_pending record ;;
      mret record
  end.

Definition acknowledge (lock : ChainLock) (chain_root_id transition_id : string) : Op bool :=
  lift (ensure_lock_protects lock chain_root_id) ;;
  current ← read_pending chain_root_id ;
  match current with
  | None => mret false
  | Some current =>
      if decide (pt_transition_id current = transition_id) then
        durable (λ s, with_pending s (delete chain_root_id (st_pending s))) ;;
        mret true
      else mret false
  end.

Definition advance_phase (lock : ChainLock) (chain_root_id transition_id : string)
    (expected next : TransitionPhase) : Op PendingChainHeadTransition :=
  lift (ensure_lock_protects lock chain_root_id) ;;
  lift (reject (negb (match expected, next with
                      | Prepared, HeadPublished | HeadPublished, ApplyingProjection => true
                      | _, _ => false
                      end)) "invalid recovery phase transition") ;;
  current ← read_pending chain_root_id ;
  current ← lift (some_or current "pending transition disappeared") ;
  lift (reject (negb (bool_decide (pt_transition_id current = transition_id)))
          "pending transition ID changed before phase advance") ;;
  lift (reject (negb (bool_decide (pt_phase current = expected)))
          "pending transition phase changed") ;;
  let current := with_phase current next in
  write_pending current ;;
  mret current.

End recovery.

(** ** Heads and objects *)

Section chain.
Context `{Externals} `{Sha256} `{JsonReader} `{UnicodeTables} `{NaiveDateTime}.
Context `{Wire ThreadEvent} `{Wire ThreadSnapshot} `{Wire ChainState}.
Context `{Ed25519} `{SystemTime} `{Process}.

Definition head_ref_path (chain_root_id : string) : string :=
  "chains/" +:+ chain_root_id +:+ "/head".

(** [ChainLock::read_verified_head]. *)
Definition read_verified_head (lock : ChainLock) (trust_store : TrustStore)
    : Op (option SignedRef) :=
  s ← get ;
  match st_heads s !! lock with
  | None => mret None
  | Some head =>
      lift (verify_signed_ref head trust_store) ;;
      lift (reject (negb (bool_decide (sr_ref_path head = head_ref_path lock)))
              "chain head ref_path mismatch") ;;
      mret (Some head)
  end.

(** [ChainLock::write_signed_head]. *)
Definition write_signed_head (lock : ChainLock) (r : SignedRef) (signer : Signer) : Op unit :=
  r ← lift (encode_signed_ref r signer) ;
  durable (λ s, with_heads s (<[lock := r]> (st_heads s))).

Definition verify_expected_current_head (lock : ChainLock) (chain_root_id : string)
    (expected_previous_hash : option string) (trust_store : TrustStore) : Op unit :=
  lift (ensure_lock_protects lock chain_root_id) ;;
  current ← read_verified_head lock trust_store ;
  match current, expected_previous_hash with
  | None, None => mret tt
  | Some _, None => throw (Error ["chain already has a signed head"])
  | None, Some _ => throw (Error ["chain head disappeared"])
  | Some current, Some expected =>
      lift (reject (negb (bool_decide (sr_target_hash current = expected))) "chain head conflict")
  end.

Definition read_cas_object {A} `{Wire A} (cas : Cas) (hash : string) : Sch A :=
  object ← get_object cas hash ;
  value ← some_or object "CAS object is absent" ;
  some_or (from_value value) "decode CAS object".

(** [write_cas_batch], with the batch publication of [atomic_write_batch]. *)
Definition publish_prepared (entry : string * string) : Op unit :=
  let '(hash, data) := entry in
  cas ← cas_of ;
  cas' ← lift (publish_entry cas hash data) ;
  if decide (cas !! hash = None) then durable (λ s, with_cas s cas') else mret tt.
Definition write_cas_batch (writes : list (string * string)) : Op unit :=
  cas ← cas_of ;
  prepared ← lift (prepare_batch cas writes) ;
  for_each publish_prepared prepared.

(** The address and the bytes of an object. *)
Definition object_write {A} `{Wire A} (a : A) : string * string := (object_hash a, object_json a).

Definition read_chain_head_for_mutation (lock : ChainLock) (chain_root_id : string)
    (trust_store : TrustStore) : Op ChainState :=
  lift (ensure_lock_protects lock chain_root_id) ;;
  signed_ref ← read_verified_head lock trust_store ;
  signed_ref ← lift (some_or signed_ref "signed ref not found for chain") ;
  cas ← cas_of ;
  state ← lift (read_cas_object cas (sr_target_hash signed_ref)) ;
  lift (validate_state state) ;;
  lift (validate_chain_positions state) ;;
  lift (reject (negb (bool_decide (cs_chain_root_id state = chain_root_id)))
          "chain head object root mismatch") ;;
  lift (reject (negb (bool_decide (object_hash state = sr_target_hash signed_ref)))
          "chain head object is not canonically encoded") ;;
  cache_insert chain_root_id
    {| chain_state_hash := sr_target_hash signed_ref; chain_state := state |} ;;
  mret state.

Definition validate_snapshot_last_event_object (cas : Cas) (s : ThreadSnapshot) : Sch unit :=
  match sn_last_event_hash s with
  | None => Ok tt
  | Some event_hash =>
      event ← read_cas_object cas event_hash ;
      reject (negb (bool_decide (object_hash (event : ThreadEvent) = event_hash)))
        "snapshot last event is not canonically encoded" ;;
      validate_snapshot_last_event s event_hash event
  end.

Definition read_current_snapshot_for_mutation (cas : Cas) (state : ChainState) (thread_id : string)
    : Sch ThreadSnapshot :=
  entry ← some_or (cs_threads state !! thread_id) "thread not found in chain" ;
  object ← get_object cas (te_snapshot_hash entry) ;
  value ← some_or object "current snapshot CAS object is absent" ;
  snapshot ← from_current_value value ;
  reject (negb (bool_decide (object_hash (snapshot : ThreadSnapshot) = te_snapshot_hash entry)))
    "current snapshot is not canonically encoded" ;;
  validate_stored_snapshot state thread_id entry snapshot ;;
  validate_snapshot_last_event_object cas snapshot ;;
  Ok snapshot.

(** [read_thread_snapshot_with_trust]. *)
Definition read_thread_snapshot_with_trust (lock : ChainLock) (chain_root_id thread_id : string)
    (trust_store : TrustStore) : Op (option ThreadSnapshot) :=
  lift (validate_chain_root_id chain_root_id) ;;
  lift (ensure_lock_protects lock chain_root_id) ;;
  head ← read_verified_head lock trust_store ;
  match head with
  | None => cache_invalidate chain_root_id ;; mret None
  | Some signed_ref =>
      s ← get ;
      let cached := c ← st_cache s !! chain_root_id ;
                    if decide (chain_state_hash c = sr_target_hash signed_ref)
                    then Some (chain_state c) else None in
      state ← match cached with
              | Some state =>
                  lift (validate_state state) ;;
                  lift (validate_chain_positions state) ;;
                  lift (reject (negb (bool_decide (cs_chain_root_id state = chain_root_id)))
                          "cached chain head object root mismatch") ;;
                  lift (reject (negb (bool_decide (object_hash state = sr_target_hash signed_ref)))
                          "cached chain head hash mismatch") ;;
                  mret state
              | None => read_chain_head_for_mutation lock chain_root_id trust_store
              end ;
      if decide (is_Some (cs_threads state !! thread_id)) then
        cas ← cas_of ;
        snapshot ← lift (read_current_snapshot_for_mutation cas state thread_id) ;
        mret (Some snapshot)
      else mret None
  end.

Definition publish_chain_head (lock : ChainLock) (chain_root_id : string)
    (expected_previous_hash : option string) (target_hash updated_at : string)
    (signer : Signer) (trust_store : TrustStore) : Op unit :=
  lift (ensure_lock_protects lock chain_root_id) ;;
  verify_expected_current_head lock chain_root_id expected_previous_hash trust_store ;;
  cas ← cas_of ;
  object ← lift (get_object cas target_hash) ;
  lift (some_or object "new chain head CAS object is absent") ;;
  pending ← prepare_set lock chain_root_id expected_previous_hash target_hash ;
  let signed_ref :=
    new_signed_ref (head_ref_path chain_root_id) target_hash updated_at (fingerprint signer) in
  write_signed_head lock signed_ref signer ;;
  if decide (pt_phase pending = Prepared) then
    advance_phase lock chain_root_id (pt_transition_id pending) Prepared HeadPublished ;;
    mret tt
  else mret tt.

(** ** Staging *)

Record SnapshotUpdate := {
  up_thread_id : string;
  up_new_snapshot : ThreadSnapshot;
}.

Definition linked (e : ThreadEvent) (chain_seq thread_seq : N)
    (prev_chain_event_hash prev_thread_event_hash : option string) : ThreadEvent := {|
  ev_schema := ev_schema e; ev_kind := ev_kind e; ev_chain_root_id := ev_chain_root_id e;
  ev_chain_seq := chain_seq; ev_thread_id := ev_thread_id e;
  ev_thread_seq := thread_seq; ev_event_type := ev_event_type e;
  ev_durability := ev_durability e; ev_ts := ev_ts e;
  ev_prev_chain_event_hash := prev_chain_event_hash;
  ev_prev_thread_event_hash := prev_thread_event_hash; ev_payload := ev_payload e;
|}.

(** The loop that numbers, links and hashes the events of a batch, with the
    offset of the first event, the sequences before the batch and the last
    hashes of the chain and of the thread. *)
Fixpoint stage_events (first_chain_seq last_thread_seq offset : N)
    (last_event_hash last_thread_event_hash : option string) (events : list ThreadEvent)
    : Sch (list ThreadEvent * option string * option string) :=
  match events with
  | [] => Ok ([], last_event_hash, last_thread_event_hash)
  | event :: events =>
      chain_seq ← some_or (checked_add_u64 first_chain_seq offset) "chain sequence exhausted" ;
      thread_seq ← some_or (n ← checked_add_u64 last_thread_seq offset ; checked_add_u64 n 1%N)
        "thread sequence exhausted" ;
      let event := linked event chain_seq thread_seq last_event_hash last_thread_event_hash in
      validate_event event ;;
      let event_hash := object_hash event in
      '(stored, last_event_hash, last_thread_event_hash) ←
         stage_events first_chain_seq last_thread_seq (offset + 1)%N (Some event_hash)
           (Some event_hash) events ;
      Ok (event :: stored, last_event_hash, last_thread_event_hash)
  end.

(** The loops that check the identity of the events of a batch. *)
Definition check_events (chain_root_id thread_id : string) (events : list ThreadEvent) : Sch unit :=
  each (λ event,
      validate_event event ;;
      reject (negb (bool_decide (ev_chain_root_id event = chain_root_id)))
        "event chain_root_id mismatch" ;;
      reject (negb (bool_decide (ev_thread_id event = thread_id))) "event thread_id mismatch")
    events.

(** The loop that loads the predecessor of every updated snapshot;
    [new_thread] is the thread added by the same transition. *)
Definition load_previous (cas : Cas) (chain_root_id : string) (state : ChainState)
    (new_thread : option string) (previous_snapshots : gmap string ThreadSnapshot) (update : SnapshotUpdate)
    : Sch (gmap string ThreadSnapshot) :=
  validate_update_identity (up_thread_id update) (up_new_snapshot update) chain_root_id ;;
  reject (bool_decide (new_thread = Some (up_thread_id update)))
    "new thread snapshot must be supplied through the add operation" ;;
  reject (bool_decide (is_Some (previous_snapshots !! up_thread_id update)))
    "duplicate snapshot update" ;;
  previous ← read_current_snapshot_for_mutation cas state (up_thread_id update) ;
  validate_snapshot_transition_identity previous (up_new_snapshot update) ;;
  Ok (<[up_thread_id update := previous]> previous_snapshots).

Definition with_event (entry : ChainThreadEntry) (last_event_hash : option string)
    (last_thread_seq : N) : ChainThreadEntry := {|
  te_snapshot_hash := te_snapshot_hash entry; te_last_event_hash := last_event_hash;
  te_last_thread_seq := last_thread_seq; te_status := te_status entry |}.
Definition with_snapshot (entry : ChainThreadEntry) (snapshot_hash : string)
    (status : ThreadStatus) : ChainThreadEntry := {|
  te_snapshot_hash := snapshot_hash; te_last_event_hash := te_last_event_hash entry;
  te_last_thread_seq := te_last_thread_seq entry; te_status := status |}.

(** One turn of the loop over the snapshot updates: the entries and the
    updates so far. *)
Definition apply_update (cas : Cas) (thread_id append_timestamp : string) (final_chain_seq : N)
    (stored_events : list ThreadEvent) (previous_snapshots : gmap string ThreadSnapshot)
    (acc : gmap string ChainThreadEntry * list SnapshotUpdate) (update : SnapshotUpdate)
    : Sch (gmap string ChainThreadEntry * list SnapshotUpdate) :=
  let '(new_threads, updates) := acc in
  entry ← expect (new_threads !! up_thread_id update) ;
  let snapshot := stamp_snapshot_position (up_new_snapshot update) entry final_chain_seq in
  previous ← expect (previous_snapshots !! up_thread_id update) ;
  snapshot ← normalize_and_validate_snapshot_transition previous snapshot append_timestamp ;
  (if decide (up_thread_id update = thread_id) then
     expected_hash ← some_or (sn_last_event_hash snapshot)
       "appending snapshot is missing its final event hash" ;
     event ← expect (last stored_events) ;
     validate_snapshot_last_event snapshot expected_hash event
   else validate_snapshot_last_event_object cas snapshot) ;;
  Ok (<[up_thread_id update := with_snapshot entry (object_hash snapshot) (sn_status snapshot)]>
        new_threads,
      updates ++ [{| up_thread_id := up_thread_id update; up_new_snapshot := snapshot |}]).

Definition new_chain_state (chain_root_id : string) (prev_chain_state_hash last_event_hash : option string)
    (last_chain_seq : N) (updated_at : string) (threads : gmap string ChainThreadEntry)
    : ChainState := {|
  cs_schema := 1; cs_kind := "chain_state"; cs_chain_root_id := chain_root_id;
  cs_prev_chain_state_hash := prev_chain_state_hash; cs_last_event_hash := last_event_hash;
  cs_last_chain_seq := last_chain_seq; cs_updated_at := updated_at; cs_threads := threads;
|}.

Definition now_after (floors : list string) : Op string :=
  now ← iso8601_now ; lift (monotonic_now now floors).

(** The end of every write: the new state is checked, the whole batch is
    stored, and the head is published. *)
Definition commit (lock : ChainLock) (chain_root_id : string) (writes : list (string * string))
    (expected_previous_hash : option string) (state : ChainState)
    (check : Op unit) (signer : Signer) (trust_store : TrustStore) : Op string :=
  lift (validate_state state) ;;
  lift (validate_chain_positions state) ;;
  let hash := object_hash state in
  write_cas_batch (writes ++ [object_write state]) ;;
  check ;;
  publish_chain_head lock chain_root_id expected_previous_hash hash (cs_updated_at state)
    signer trust_store ;;
  cache_insert chain_root_id {| chain_state_hash := hash; chain_state := state |} ;;
  mret hash.

(** ** Creating a chain

    The results, whose [event_count] is the number of their events; the
    events of a [CreateResult] are empty. *)

Record CreateResult := {
  cr_chain_state_hash : string;
  cr_snapshot_hash : string;
  cr_snapshot : ThreadSnapshot;
}.
Record AppendResult := {
  ar_chain_state_hash : string;
  ar_first_chain_seq : N;
  ar_events : list ThreadEvent;
  ar_snapshot_updates : list SnapshotUpdate;
}.
Record AddThreadWithEventsResult := {
  at_chain_state_hash : string;
  at_snapshot_hash : string;
  at_snapshot : ThreadSnapshot;
  at_first_chain_seq : N;
  at_events : list ThreadEvent;
  at_snapshot_updates : list SnapshotUpdate;
}.

Definition unplaced (status : ThreadStatus) (last_event_hash : option string) (last_thread_seq : N)
    : ChainThreadEntry := {|
  te_snapshot_hash := EmptyString; te_last_event_hash := last_event_hash;
  te_last_thread_seq := last_thread_seq; te_status := status |}.

Definition create_chain_with_trust_under_lock (lock : ChainLock) (chain_root_id : string)
    (initial_snapshot : ThreadSnapshot) (signer : Signer) (trust_store : TrustStore)
    : Op CreateResult :=
  lift (ensure_lock_protects lock chain_root_id) ;;
  lift (ensure_signer_trusted signer trust_store) ;;
  lift (reject (negb (bool_decide (sn_thread_id initial_snapshot = chain_root_id)) ||
                negb (bool_decide (sn_chain_root_id initial_snapshot = chain_root_id)))
          "root thread snapshot must have thread_id and chain_root_id equal to the chain") ;;
  let entry := unplaced (sn_status initial_snapshot) None 0%N in
  let snapshot := stamp_snapshot_position initial_snapshot entry 0%N in
  snapshot ← lift (normalize_and_validate_new_thread snapshot chain_root_id
                     (sn_created_at snapshot) None) ;
  verify_expected_current_head lock chain_root_id None trust_store ;;
  updated_at ← now_after [sn_updated_at snapshot] ;
  let threads := {[ chain_root_id := with_snapshot entry (object_hash snapshot) (sn_status snapshot) ]} in
  let state := new_chain_state chain_root_id None None 0%N updated_at threads in
  hash ← commit lock chain_root_id [object_write snapshot] None state (mret tt) signer trust_store ;
  mret {| cr_chain_state_hash := hash; cr_snapshot_hash := object_hash snapshot;
          cr_snapshot := snapshot |}.

Definition create_chain_with_events_and_trust_under_lock (lock : ChainLock) (chain_root_id : string)
    (initial_snapshot : ThreadSnapshot) (events : list ThreadEvent) (signer : Signer)
    (trust_store : TrustStore) : Op AddThreadWithEventsResult :=
  lift (ensure_lock_protects lock chain_root_id) ;;
  lift (ensure_signer_trusted signer trust_store) ;;
  lift (reject (negb (bool_decide (sn_thread_id initial_snapshot = chain_root_id)) ||
                negb (bool_decide (sn_chain_root_id initial_snapshot = chain_root_id)))
          "root thread snapshot must have thread_id and chain_root_id equal to the chain") ;;
  lift (reject (bool_decide (events = [])) "cannot create root chain with empty event list") ;;
  lift (check_events chain_root_id chain_root_id events) ;;
  let genesis_entry := unplaced (sn_status initial_snapshot) None 0%N in
  let snapshot := stamp_snapshot_position initial_snapshot genesis_entry 0%N in
  snapshot ← lift (normalize_and_validate_new_thread snapshot chain_root_id
                     (sn_created_at snapshot) None) ;
  verify_expected_current_head lock chain_root_id None trust_store ;;
  genesis_updated_at ← now_after [sn_updated_at snapshot] ;
  let genesis := new_chain_state chain_root_id None None 0%N genesis_updated_at
    {[ chain_root_id := with_snapshot genesis_entry (object_hash snapshot)
                          (sn_status initial_snapshot) ]} in
  lift (validate_state genesis) ;;
  lift (validate_chain_positions genesis) ;;
  '(events, append_timestamp) ← lift (normalize_event_timestamps events genesis_updated_at) ;
  '(stored, last_event_hash, _) ← lift (stage_events 1%N 0%N 0%N None None events) ;
  updated_at ← now_after [append_timestamp; genesis_updated_at] ;
  let root_entry := {|
    te_snapshot_hash := object_hash snapshot; te_last_event_hash := last_event_hash;
    te_last_thread_seq := N.of_nat (length events); te_status := sn_status snapshot |} in
  let state := new_chain_state chain_root_id (Some (object_hash genesis)) last_event_hash
    (N.of_nat (length events)) updated_at {[ chain_root_id := root_entry ]} in
  hash ← commit lock chain_root_id
    (object_write snapshot :: object_write genesis :: map object_write stored) None state
    (cas ← cas_of ;
     lift (validate_authoritative_history cas chain_root_id (object_hash state)
             (Some (object_hash genesis)))) signer trust_store ;
  mret {| at_chain_state_hash := hash; at_snapshot_hash := object_hash snapshot;
          at_snapshot := snapshot; at_first_chain_seq := 1%N; at_events := stored;
          at_snapshot_updates := [] |}.

(** ** Appending events *)

Definition append_events_with_trust_under_lock (lock : ChainLock) (chain_root_id thread_id : string)
    (events : list ThreadEvent) (snapshot_updates : list SnapshotUpdate) (signer : Signer)
    (trust_store : TrustStore) : Op AppendResult :=
  lift (reject (bool_decide (events = [])) "cannot append empty event list") ;;
  lift (ensure_lock_protects lock chain_root_id) ;;
  lift (ensure_signer_trusted signer trust_store) ;;
  current ← read_chain_head_for_mutation lock chain_root_id trust_store ;
  entry ← lift (some_or (cs_threads current !! thread_id) "thread not found in chain") ;
  cas ← cas_of ;
  previous_snapshots ←
    lift (each_from (load_previous cas chain_root_id current None) ∅ snapshot_updates) ;
  lift (check_events chain_root_id thread_id events) ;;
  '(events, append_timestamp) ← lift (normalize_event_timestamps events (cs_updated_at current)) ;
  let event_count := N.of_nat (length events) in
  first_chain_seq ← lift (some_or (checked_add_u64 (cs_last_chain_seq current) 1%N)
                            "chain sequence exhausted") ;
  final_chain_seq ← lift (some_or (checked_add_u64 (cs_last_chain_seq current) event_count)
                            "chain sequence exhausted") ;
  final_thread_seq ← lift (some_or (checked_add_u64 (te_last_thread_seq entry) event_count)
                             "thread sequence exhausted") ;
  '(stored, last_event_hash, last_thread_event_hash) ←
     lift (stage_events first_chain_seq (te_last_thread_seq entry) 0%N (cs_last_event_hash current)
             (te_last_event_hash entry) events) ;
  let new_threads :=
    <[thread_id := with_event entry last_thread_event_hash final_thread_seq]> (cs_threads current) in
  '(new_threads, updates) ←
     lift (each_from (apply_update cas thread_id append_timestamp final_chain_seq stored
                        previous_snapshots) (new_threads, []) snapshot_updates) ;
  lift (validate_untouched_entries (cs_threads current) new_threads
          (map up_thread_id updates ++ [thread_id])) ;;
  updated_at ← now_after (cs_updated_at current :: append_timestamp ::
                          map (λ u, sn_updated_at (up_new_snapshot u)) updates) ;
  let state := new_chain_state chain_root_id (Some (object_hash current)) last_event_hash
    final_chain_seq updated_at new_threads in
  hash ← commit lock chain_root_id
    (map object_write stored ++ map (λ u, object_write (up_new_snapshot u)) updates)
    (Some (object_hash current)) state (mret tt) signer trust_store ;
  mret {| ar_chain_state_hash := hash; ar_first_chain_seq := first_chain_seq; ar_events := stored;
          ar_snapshot_updates := updates |}.

(** ** Adding threads *)

Definition check_new_thread (chain_root_id : string) (new_snapshot : ThreadSnapshot) : Sch unit :=
  reject (negb (bool_decide (sn_chain_root_id new_snapshot = chain_root_id)))
    "snapshot chain_root_id mismatch" ;;
  reject (bool_decide (sn_thread_id new_snapshot = chain_root_id))
    "use create_chain() for root threads".

Definition add_thread_to_chain_with_trust_under_lock (lock : ChainLock) (chain_root_id : string)
    (new_snapshot : ThreadSnapshot) (signer : Signer) (trust_store : TrustStore)
    : Op CreateResult :=
  lift (ensure_lock_protects lock chain_root_id) ;;
  lift (ensure_signer_trusted signer trust_store) ;;
  lift (check_new_thread chain_root_id new_snapshot) ;;
  current ← read_chain_head_for_mutation lock chain_root_id trust_store ;
  lift (reject (bool_decide (is_Some (cs_threads current !! sn_thread_id new_snapshot)))
          "thread already exists in chain") ;;
  let entry := unplaced (sn_status new_snapshot) None 0%N in
  let snapshot := stamp_snapshot_position new_snapshot entry (cs_last_chain_seq current) in
  snapshot ← lift (normalize_and_validate_new_thread snapshot chain_root_id
                     (cs_updated_at current) None) ;
  let new_threads := <[sn_thread_id snapshot :=
      with_snapshot entry (object_hash snapshot) (sn_status snapshot)]> (cs_threads current) in
  updated_at ← now_after [cs_updated_at current; sn_updated_at snapshot] ;
  let state := new_chain_state chain_root_id (Some (object_hash current))
    (cs_last_event_hash current) (cs_last_chain_seq current) updated_at new_threads in
  hash ← commit lock chain_root_id [object_write snapshot] (Some (object_hash current)) state
    (mret tt) signer trust_store ;
  mret {| cr_chain_state_hash := hash; cr_snapshot_hash := object_hash snapshot;
          cr_snapshot := snapshot |}.

Definition add_thread_to_chain_with_events_and_trust_under_lock (lock : ChainLock)
    (chain_root_id : string) (new_snapshot : ThreadSnapshot) (events : list ThreadEvent)
    (signer : Signer) (trust_store : TrustStore) : Op AddThreadWithEventsResult :=
  lift (ensure_lock_protects lock chain_root_id) ;;
  lift (ensure_signer_trusted signer trust_store) ;;
  lift (check_new_thread chain_root_id new_snapshot) ;;
  lift (reject (bool_decide (events = [])) "cannot add thread with empty event list") ;;
  lift (check_events chain_root_id (sn_thread_id new_snapshot) events) ;;
  current ← read_chain_head_for_mutation lock chain_root_id trust_store ;
  lift (reject (bool_decide (is_Some (cs_threads current !! sn_thread_id new_snapshot)))
          "thread already exists in chain") ;;
  '(events, append_timestamp) ← lift (normalize_event_timestamps events (cs_updated_at current)) ;
  let event_count := N.of_nat (length events) in
  first_chain_seq ← lift (some_or (checked_add_u64 (cs_last_chain_seq current) 1%N)
                            "chain sequence exhausted") ;
  final_chain_seq ← lift (some_or (checked_add_u64 (cs_last_chain_seq current) event_count)
                            "chain sequence exhausted") ;
  '(stored, last_event_hash, last_thread_event_hash) ←
     lift (stage_events first_chain_seq 0%N 0%N (cs_last_event_hash current) None events) ;
  let entry := unplaced (sn_status new_snapshot) last_thread_event_hash event_count in
  let snapshot := stamp_snapshot_position new_snapshot entry final_chain_seq in
  snapshot ← lift (normalize_and_validate_new_thread snapshot chain_root_id append_timestamp None) ;
  last_hash ← lift (some_or (sn_last_event_hash snapshot)
                      "new thread snapshot is missing its final event hash") ;
  last_event ← lift (expect (last stored)) ;
  lift (validate_snapshot_last_event snapshot last_hash last_event) ;;
  let new_threads := <[sn_thread_id snapshot :=
      with_snapshot entry (object_hash snapshot) (te_status entry)]> (cs_threads current) in
  updated_at ← now_after [cs_updated_at current; append_timestamp; sn_updated_at snapshot] ;
  let state := new_chain_state chain_root_id (Some (object_hash current)) last_event_hash
    final_chain_seq updated_at new_threads in
  hash ← commit lock chain_root_id (map object_write stored ++ [object_write snapshot])
    (Some (object_hash current)) state (mret tt) signer trust_store ;
  mret {| at_chain_state_hash := hash; at_snapshot_hash := object_hash snapshot;
          at_snapshot := snapshot; at_first_chain_seq := first_chain_seq; at_events := stored;
          at_snapshot_updates := [] |}.

(** [add_thread_to_chain_with_events_and_append_with_trust_under_lock]. *)
Definition add_thread_and_append_under_lock (lock : ChainLock) (chain_root_id : string)
    (new_snapshot : ThreadSnapshot) (new_thread_events : list ThreadEvent)
    (existing_thread_id : string) (existing_thread_events : list ThreadEvent)
    (snapshot_updates : list SnapshotUpdate) (signer : Signer) (trust_store : TrustStore)
    : Op AddThreadWithEventsResult :=
  lift (ensure_lock_protects lock chain_root_id) ;;
  lift (ensure_signer_trusted signer trust_store) ;;
  lift (check_new_thread chain_root_id new_snapshot) ;;
  lift (reject (bool_decide (new_thread_events = []) || bool_decide (existing_thread_events = []))
          "atomic add-and-append requires events for both threads") ;;
  lift (check_events chain_root_id (sn_thread_id new_snapshot) new_thread_events) ;;
  lift (check_events chain_root_id existing_thread_id existing_thread_events) ;;
  current ← read_chain_head_for_mutation lock chain_root_id trust_store ;
  lift (reject (bool_decide (is_Some (cs_threads current !! sn_thread_id new_snapshot)))
          "thread already exists in chain") ;;
  existing ← lift (some_or (cs_threads current !! existing_thread_id)
                     "thread not found in chain") ;
  cas ← cas_of ;
  previous_snapshots ← lift (each_from (load_previous cas chain_root_id current
                               (Some (sn_thread_id new_snapshot))) ∅ snapshot_updates) ;
  '(new_events, new_timestamp) ←
     lift (normalize_event_timestamps new_thread_events (cs_updated_at current)) ;
  '(existing_events, append_timestamp) ←
     lift (normalize_event_timestamps existing_thread_events new_timestamp) ;
  let new_count := N.of_nat (length new_events) in
  let existing_count := N.of_nat (length existing_events) in
  total ← lift (some_or (checked_add_u64 new_count existing_count) "event batch is too large") ;
  first_chain_seq ← lift (some_or (checked_add_u64 (cs_last_chain_seq current) 1%N)
                            "chain sequence exhausted") ;
  final_chain_seq ← lift (some_or (checked_add_u64 (cs_last_chain_seq current) total)
                            "chain sequence exhausted") ;
  existing_final_seq ← lift (some_or (checked_add_u64 (te_last_thread_seq existing) existing_count)
                               "thread sequence exhausted") ;
  '(stored_new, last_event_hash, new_last_hash) ←
     lift (stage_events first_chain_seq 0%N 0%N (cs_last_event_hash current) None new_events) ;
  first_existing_seq ← lift (some_or (checked_add_u64 first_chain_seq new_count)
                               "chain sequence exhausted") ;
  '(stored_existing, last_event_hash, existing_last_hash) ←
     lift (stage_events first_existing_seq (te_last_thread_seq existing) 0%N last_event_hash
             (te_last_event_hash existing) existing_events) ;
  let entry := unplaced (sn_status new_snapshot) new_last_hash new_count in
  let snapshot := stamp_snapshot_position new_snapshot entry final_chain_seq in
  snapshot ← lift (normalize_and_validate_new_thread snapshot chain_root_id append_timestamp
                     (Some existing_thread_id)) ;
  last_hash ← lift (some_or (sn_last_event_hash snapshot)
                      "new thread snapshot is missing its final event hash") ;
  last_event ← lift (expect (last stored_new)) ;
  lift (validate_snapshot_last_event snapshot last_hash last_event) ;;
  let new_threads :=
    <[existing_thread_id := with_event existing existing_last_hash existing_final_seq]>
      (<[sn_thread_id snapshot := with_snapshot entry (object_hash snapshot) (te_status entry)]>
         (cs_threads current)) in
  '(new_threads, updates) ←
     lift (each_from (apply_update cas existing_thread_id append_timestamp final_chain_seq
                        (stored_new ++ stored_existing) previous_snapshots)
             (new_threads, []) snapshot_updates) ;
  lift (validate_untouched_entries (cs_threads current) new_threads
          (map up_thread_id updates ++ [existing_thread_id])) ;;
  updated_at ← now_after (cs_updated_at current :: append_timestamp :: sn_updated_at snapshot ::
                          map (λ u, sn_updated_at (up_new_snapshot u)) updates) ;
  let state := new_chain_state chain_root_id (Some (object_hash current)) last_event_hash
    final_chain_seq updated_at new_threads in
  hash ← commit lock chain_root_id
    (map object_write (stored_new ++ stored_existing) ++
     object_write snapshot :: map (λ u, object_write (up_new_snapshot u)) updates)
    (Some (object_hash current)) state (mret tt) signer trust_store ;
  mret {| at_chain_state_hash := hash; at_snapshot_hash := object_hash snapshot;
          at_snapshot := snapshot; at_first_chain_seq := first_chain_seq;
          at_events := stored_new ++ stored_existing; at_snapshot_updates := updates |}.

End chain.
