(* ===== verification/ChainHistory.v ===== *)
(** * What a chain history is

    The specification the validator of [ChainValidation] and the writers of
    [Chain] are compared with: the log of the events of a chain, the states
    that were its head one after the other, and the objects of the store
    they name.  With the lemmas on results, hashes and stored objects the
    proofs on chains share. *)

From stdpp Require Import sorting.
From S2P Require Import Prelude Float64 Json CanonicalRef Schedule ScheduleSpec.
From S2P Require Import CasStore ChainObjects ChainValidation Chain.

(** ** Results *)

Lemma sch_bind_ok {A B} (r : Sch A) (f : A → Sch B) b :
  r ≫= f = Ok b ↔ ∃ a, r = Ok a ∧ f a = Ok b.
Proof. destruct r as [a|e]; cbn; split; [eauto|by intros (? & [= ->] & ?)|done|by intros (? & ? & ?)]. Qed.
Lemma sch_reject_ok bad message (u : unit) : reject bad message = Ok u ↔ bad = false.
Proof. destruct u, bad; cbn; done. Qed.
Lemma sch_some_ok {A} (o : option A) message a : some_or o message = Ok a ↔ o = Some a.
Proof. unfold some_or, expect, bail. destruct o; split; congruence. Qed.
Lemma sch_expect_ok {A} (o : option A) a : expect o = Ok a ↔ o = Some a.
Proof. unfold some_or, expect, bail. destruct o; split; congruence. Qed.
Lemma sch_ret_ok {A} (a b : A) : (Ok a : Sch A) = Ok b ↔ a = b.
Proof. split; congruence. Qed.

Lemma sch_each_ok {A} (f : A → Sch unit) l : each f l = Ok tt ↔ ∀ x, x ∈ l → f x = Ok tt.
Proof.
  induction l as [|x l IH]; cbn.
  - split; [|done]. intros _ y Hy. by apply not_elem_of_nil in Hy.
  - rewrite sch_bind_ok. setoid_rewrite IH. split.
    + intros ([] & Hx & Hl) y [->|Hy]%elem_of_cons; auto.
    + intros Hall. exists tt. split; [apply Hall; left|]. intros y Hy. apply Hall. by right.
Qed.

Lemma sch_each_from_app {E A B} (f : B → A → Result E B) l1 l2 acc :
  each_from f acc (l1 ++ l2) = (each_from f acc l1 ≫= λ acc, each_from f acc l2).
Proof. revert acc. induction l1 as [|x l1 IH]; intros acc; cbn; [done|]. destruct (f acc x); cbn; [apply IH|done]. Qed.

(** Boolean guards as propositions. *)
Lemma negb_decide_false (P : Prop) `{Decision P} : negb (bool_decide P) = false ↔ P.
Proof. rewrite negb_false_iff. apply bool_decide_eq_true. Qed.
Lemma negb_eqb_false (a b : N) : negb (a =? b)%N = false ↔ a = b.
Proof. rewrite negb_false_iff. apply N.eqb_eq. Qed.
Lemma negb_zeqb_false (a b : Z) : negb (a =? b) = false ↔ a = b.
Proof. rewrite negb_false_iff. apply Z.eqb_eq. Qed.
Create Rewrite HintDb chain.
#[export] Hint Rewrite @sch_bind_ok @sch_reject_ok @sch_some_ok @sch_expect_ok @sch_ret_ok
  @sch_each_ok @negb_decide_false @negb_eqb_false @negb_zeqb_false @bool_decide_eq_false
  orb_false_iff N.ltb_ge Z.ltb_ge : chain.

(** Splits the hypothesis that a check returned [Ok] into the facts it
    established. *)
Ltac facts H :=
  autorewrite with chain in H;
  repeat match type of H with
  | ∃ _ : unit, _ => destruct H as [[] H]; autorewrite with chain in H
  | ∃ _, _ => let x := fresh "x" in destruct H as [x H]; autorewrite with chain in H
  | _ ∧ _ => let E := fresh "E" in destruct H as [E H]; autorewrite with chain in E, H
  end.

(** The converse: a sequence of checks holds when each of them does. *)
Lemma sch_then {A} (r : Sch unit) (f : unit → Sch A) a : r = Ok tt → f tt = Ok a → r ≫= f = Ok a.
Proof. by intros ->. Qed.
Ltac holds := first [assumption | autorewrite with chain; first [done | congruence | lia | tauto]].
Ltac checks := repeat (apply sch_then; [solve [holds]|]).

(** ** Hashes *)

Lemma hex_digit_hex n : 0 ≤ n < 16 →
  is_ascii_hexdigit (byte_of (hex_digit n)) = true ∧ is_ascii_uppercase (byte_of (hex_digit n)) = false.
Proof.
  intros Hn. assert (n = 0 ∨ n = 1 ∨ n = 2 ∨ n = 3 ∨ n = 4 ∨ n = 5 ∨ n = 6 ∨ n = 7 ∨ n = 8 ∨ n = 9 ∨
    n = 10 ∨ n = 11 ∨ n = 12 ∨ n = 13 ∨ n = 14 ∨ n = 15) as Hcases by lia.
  repeat (destruct Hcases as [->|Hcases]; [by vm_compute|]). by subst.
Qed.
Lemma byte_nibbles b : 0 ≤ b < 256 → 0 ≤ Z.shiftr b 4 < 16 ∧ 0 ≤ Z.land b 15 < 16.
Proof.
  intros Hb. rewrite Z.shiftr_div_pow2 by lia. change 15 with (Z.ones 4).
  rewrite Z.land_ones by lia. change (2 ^ 4) with 16. split; [split|].
  - apply Z.div_pos; lia.
  - apply Z.div_lt_upper_bound; lia.
  - apply Z.mod_pos_bound. lia.
Qed.

Section hashes.
Context `{Sha256}.

Lemma hex_bytes (l : list Z) : Forall (λ b, 0 ≤ b < 256) l →
  let s := foldr (λ b s, String (hex_digit (Z.shiftr b 4)) (String (hex_digit (Z.land b 15)) s))
             EmptyString l in
  String.length s = (2 * length l)%nat ∧ all_bytes is_ascii_hexdigit s = true ∧ no_uppercase s = true.
Proof.
  induction 1 as [|b l Hb Hl (IHl & IHh & IHu)]; cbn in *; [done|].
  destruct (byte_nibbles b Hb) as [H1 H2].
  destruct (hex_digit_hex _ H1) as [-> Hu1], (hex_digit_hex _ H2) as [-> Hu2].
  unfold no_uppercase in *. cbn. rewrite Hu1, Hu2. cbn. repeat split; [lia|done|done].
Qed.

Lemma sha256_canonical data : canonical_cas_hash (sha256_hex data) = true.
Proof.
  destruct (hex_bytes _ (sha256_bytes data)) as (Hlen & Hhex & Hup).
  unfold canonical_cas_hash, valid_hash, len, sha256_hex. rewrite Hhex, Hup, Hlen, sha256_length. done.
Qed.
Lemma sha256_validates label data : validate_canonical_hash label (sha256_hex data) = Ok tt.
Proof.
  unfold validate_canonical_hash. pose proof (sha256_canonical data) as Hc.
  unfold canonical_cas_hash in Hc. apply andb_prop in Hc as [-> ->]. done.
Qed.
Lemma sha256_nonempty data : is_empty (sha256_hex data) = false.
Proof.
  pose proof (sha256_canonical data) as Hc. destruct (sha256_hex data) as [|a s]; [done|done].
Qed.

End hashes.

(** ** Maps in key order *)

Lemma elem_of_btree_entries {A} (m : gmap string A) k v : (k, v) ∈ btree_entries m ↔ m !! k = Some v.
Proof. unfold btree_entries. rewrite merge_sort_Permutation. apply elem_of_map_to_list. Qed.
Lemma btree_NoDup {A} (m : gmap string A) : NoDup (btree_entries m).*1.
Proof. unfold btree_entries. rewrite merge_sort_Permutation. apply NoDup_fst_map_to_list. Qed.
Lemma each_btree {A} (f : string * A → Sch unit) (m : gmap string A) :
  each f (btree_entries m) = Ok tt ↔ ∀ k v, m !! k = Some v → f (k, v) = Ok tt.
Proof.
  rewrite sch_each_ok. split; intros Hall.
  - intros k v Hv. apply Hall. by apply elem_of_btree_entries.
  - intros [k v] Hv. apply Hall. by apply elem_of_btree_entries.
Qed.

(** ** Logs *)

Definition Log : Type := list (string * ThreadEvent).
Definition thread_log (tid : string) (log : Log) : Log :=
  filter (λ p, ev_thread_id p.2 = tid) log.
Definition last_hash {A} (log : list (string * A)) : option string := fst <$> last log.

Lemma thread_log_app tid l1 l2 : thread_log tid (l1 ++ l2) = thread_log tid l1 ++ thread_log tid l2.
Proof. apply filter_app. Qed.
Lemma thread_log_one tid h e :
  thread_log tid [(h, e)] = if decide (ev_thread_id e = tid) then [(h, e)] else [].
Proof. reflexivity. Qed.
Lemma thread_log_length tid log : (length (thread_log tid log) ≤ length log)%nat.
Proof. apply length_filter. Qed.
Lemma last_hash_snoc {A} (log : list (string * A)) h e : last_hash (log ++ [(h, e)]) = Some h.
Proof. unfold last_hash. by rewrite last_snoc. Qed.
Lemma last_hash_take {A} (log : list (string * A)) n h e :
  log !! n = Some (h, e) → last_hash (take (S n) log) = Some h.
Proof. intros Hn. rewrite (take_S_r _ _ _ Hn). apply last_hash_snoc. Qed.
Lemma last_hash_none {A} (log : list (string * A)) : last_hash log = None ↔ log = [].
Proof. unfold last_hash. rewrite fmap_None. apply last_None. Qed.

Section spec.
Context `{Externals} `{Sha256} `{JsonReader} `{UnicodeTables} `{NaiveDateTime}.
Context `{Wire ThreadEvent} `{Wire ThreadSnapshot} `{Wire ChainState}.

(** Both times are canonical, and the first is not after the second. *)
Definition not_later (a b : string) : Prop :=
  ∃ ta tb, parse_canonical_timestamp a = Ok ta ∧ parse_canonical_timestamp b = Ok tb ∧ ta ≤ tb.

(** The event that can come after a log. *)
Record event_follows (cas : Cas) (root : string) (log : Log) (h : string) (e : ThreadEvent) : Prop := {
  ef_load : load_hashed_event cas h = Ok e;
  ef_valid : validate_event e = Ok tt;
  ef_root : ev_chain_root_id e = root;
  ef_seq : ev_chain_seq e = N.of_nat (S (length log));
  ef_prev : ev_prev_chain_event_hash e = last_hash log;
  ef_thread_seq : ev_thread_seq e = N.of_nat (S (length (thread_log (ev_thread_id e) log)));
  ef_thread_prev : ev_prev_thread_event_hash e = last_hash (thread_log (ev_thread_id e) log);
  ef_time : ∀ p, last log = Some p → not_later (ev_ts p.2) (ev_ts e);
}.

Inductive valid_log (cas : Cas) (root : string) : Log → Prop :=
| valid_nil : valid_log cas root []
| valid_snoc log h e :
    valid_log cas root log → event_follows cas root log h e → valid_log cas root (log ++ [(h, e)]).

(** The event a snapshot names is in the log, at the position it records. *)
Definition snapshot_within (log : Log) (s : ThreadSnapshot) : Prop :=
  ∀ h, sn_last_event_hash s = Some h →
    ∃ e, (h, e) ∈ log ∧ ev_thread_id e = sn_thread_id s ∧
         ev_thread_seq e = sn_last_thread_seq s ∧ (ev_chain_seq e ≤ sn_last_chain_seq s)%N.

(** A snapshot published together with a state. *)
Record published (cas : Cas) (log : Log) (state : ChainState) (tid : string)
    (entry : ChainThreadEntry) (s : ThreadSnapshot) : Prop := {
  pb_load : load_hashed_snapshot cas (te_snapshot_hash entry) = Ok s;
  pb_stored : validate_stored_snapshot state tid entry s = Ok tt;
  pb_chain_seq : sn_last_chain_seq s = cs_last_chain_seq state;
  pb_thread_seq : sn_last_thread_seq s = te_last_thread_seq entry;
  pb_hash : sn_last_event_hash s = te_last_event_hash entry;
  pb_time : not_later (sn_updated_at s) (cs_updated_at state);
  pb_within : snapshot_within log s;
}.

(** The entry of a thread names an event of the thread among the first [n]
    events of the log. *)
Definition entry_within (log : Log) (n : nat) (tid : string) (entry : ChainThreadEntry) : Prop :=
  ∃ k, te_last_thread_seq entry = N.of_nat k ∧
       te_last_event_hash entry = last_hash (take k (thread_log tid log)) ∧
       (k ≤ length (thread_log tid (take n log)))%nat.

(** A state that was the head when the log had [n] events. *)
Record placed (cas : Cas) (root : string) (log : Log) (h : string) (s : ChainState) (n : nat)
    : Prop := {
  pl_load : load_hashed_chain_state cas h = Ok s;
  pl_valid : validate_state s = Ok tt;
  pl_positions : validate_chain_positions s = Ok tt;
  pl_root : cs_chain_root_id s = root;
  pl_length : (n ≤ length log)%nat;
  pl_seq : cs_last_chain_seq s = N.of_nat n;
  pl_hash : cs_last_event_hash s = last_hash (take n log);
}.

Record genesis (cas : Cas) (log : Log) (s : ChainState) (n : nat) (entry : ChainThreadEntry)
    (sn : ThreadSnapshot) : Prop := {
  gn_prev : cs_prev_chain_state_hash s = None;
  gn_threads : cs_threads s = {[ cs_chain_root_id s := entry ]};
  gn_seq : te_last_thread_seq entry = N.of_nat n;
  gn_entry : entry_within log n (cs_chain_root_id s) entry;
  gn_published : published cas log s (cs_chain_root_id s) entry sn;
  gn_new : validate_new_thread_snapshot sn None = Ok tt;
  gn_time : ∀ p, last (take n log) = Some p → not_later (ev_ts p.2) (sn_updated_at sn);
}.

(** How a thread of the successor state comes from the state before it. *)
Definition thread_step (cas : Cas) (log : Log) (s : ChainState) (n : nat) (s' : ChainState)
    (n' : nat) (tid : string) (entry' : ChainThreadEntry) : Prop :=
  entry_within log n' tid entry' ∧
  match cs_threads s !! tid with
  | None => ∃ sn, published cas log s' tid entry' sn ∧ validate_new_thread_snapshot sn None = Ok tt
  | Some entry =>
      (te_last_thread_seq entry ≤ te_last_thread_seq entry')%N ∧
      (te_snapshot_hash entry = te_snapshot_hash entry' ∧ te_status entry = te_status entry' ∨
       te_snapshot_hash entry ≠ te_snapshot_hash entry' ∧
       ∃ p sn sn', (n < n')%nat ∧ last (take n' log) = Some p ∧
         load_hashed_snapshot cas (te_snapshot_hash entry) = Ok sn ∧
         published cas log s' tid entry' sn' ∧
         validate_historical_snapshot_transition sn sn' (Some (ev_ts p.2)) = Ok tt)
  end.

Record transition (cas : Cas) (log : Log) (h : string) (s : ChainState) (n : nat) (s' : ChainState)
    (n' : nat) : Prop := {
  tr_link : cs_prev_chain_state_hash s' = Some h;
  tr_order : (n ≤ n')%nat;
  tr_time : not_later (cs_updated_at s) (cs_updated_at s');
  tr_oldest : ∀ p, (n < n')%nat → log !! n = Some p → not_later (cs_updated_at s) (ev_ts p.2);
  tr_newest : ∀ p, (n < n')%nat → last (take n' log) = Some p →
    not_later (ev_ts p.2) (cs_updated_at s');
  tr_kept : ∀ tid, is_Some (cs_threads s !! tid) → is_Some (cs_threads s' !! tid);
  tr_threads : ∀ tid entry', cs_threads s' !! tid = Some entry' →
    thread_step cas log s n s' n' tid entry';
}.

(** The states of a chain, oldest first, the last of them at position [n]. *)
Inductive states (cas : Cas) (root : string) (log : Log)
    : list string → string → ChainState → nat → Prop :=
| states_genesis h s n entry sn :
    placed cas root log h s n → genesis cas log s n entry sn → states cas root log [h] h s n
| states_next hs h s n h' s' n' :
    states cas root log hs h s n →
    placed cas root log h' s' n' → transition cas log h s n s' n' →
    states cas root log (hs ++ [h']) h' s' n'.

(** The head names the whole log and the current snapshot of every thread. *)
Record head_closure (cas : Cas) (log : Log) (s : ChainState) : Prop := {
  hc_seq : cs_last_chain_seq s = N.of_nat (length log);
  hc_hash : cs_last_event_hash s = last_hash log;
  hc_time : ∀ p, last log = Some p → not_later (ev_ts p.2) (cs_updated_at s);
  hc_threads : ∀ p, p ∈ log → is_Some (cs_threads s !! ev_thread_id p.2);
  hc_entry : ∀ tid entry, cs_threads s !! tid = Some entry →
    te_last_thread_seq entry = N.of_nat (length (thread_log tid log)) ∧
    te_last_event_hash entry = last_hash (thread_log tid log);
  hc_snapshot : ∀ tid entry, cs_threads s !! tid = Some entry →
    ∃ sn, load_hashed_snapshot cas (te_snapshot_hash entry) = Ok sn ∧
      validate_stored_snapshot s tid entry sn = Ok tt ∧
      not_later (sn_updated_at sn) (cs_updated_at s) ∧ snapshot_within log sn;
}.

(** The history of a chain whose head is the object [h]. *)
Record history (cas : Cas) (root h : string) (log : Log) (hs : list string) (s : ChainState)
    : Prop := {
  hi_log : valid_log cas root log;
  hi_states : states cas root log hs h s (length log);
  hi_closure : head_closure cas log s;
}.

(** ** Logs, continued *)

Lemma valid_log_lookup cas root log i h e :
  valid_log cas root log → log !! i = Some (h, e) → event_follows cas root (take i log) h e.
Proof.
  induction 1 as [|log h' e' Hlog IH Hf]; [done|].
  intros Hi. apply lookup_snoc_Some in Hi as [[Hlt Hi]|[-> [= <- <-]]].
  - rewrite take_app_le by lia. auto.
  - by rewrite take_app_length.
Qed.

Lemma valid_log_seq cas root log i h e :
  valid_log cas root log → log !! i = Some (h, e) → ev_chain_seq e = N.of_nat (S i).
Proof.
  intros Hlog Hi. rewrite (ef_seq _ _ _ _ _ (valid_log_lookup _ _ _ _ _ _ Hlog Hi)).
  apply lookup_lt_Some in Hi. rewrite length_take. f_equal. lia.
Qed.

(** A hash is loaded as one event, so that the hashes of a log are distinct. *)
Lemma valid_log_inj cas root log i j h e e' :
  valid_log cas root log → log !! i = Some (h, e) → log !! j = Some (h, e') → i = j ∧ e = e'.
Proof.
  intros Hlog Hi Hj.
  pose proof (ef_load _ _ _ _ _ (valid_log_lookup _ _ _ _ _ _ Hlog Hi)) as E1.
  pose proof (ef_load _ _ _ _ _ (valid_log_lookup _ _ _ _ _ _ Hlog Hj)) as E2.
  rewrite E1 in E2. injection E2 as <-.
  pose proof (valid_log_seq _ _ _ _ _ _ Hlog Hi). pose proof (valid_log_seq _ _ _ _ _ _ Hlog Hj).
  split; [lia|done].
Qed.

Lemma valid_log_NoDup cas root log : valid_log cas root log → NoDup log.*1.
Proof.
  intros Hlog. apply NoDup_alt. intros i j h Hi Hj.
  apply list_lookup_fmap_Some in Hi as ([h1 e1] & -> & Hi).
  apply list_lookup_fmap_Some in Hj as ([h2 e2] & E & Hj). cbn in E. subst.
  by destruct (valid_log_inj _ _ _ _ _ _ _ _ Hlog Hi Hj).
Qed.

Lemma valid_log_prefix cas root l1 l2 : valid_log cas root (l1 ++ l2) → valid_log cas root l1.
Proof.
  induction l2 as [|[h e] l2 IH] using rev_ind; [by rewrite app_nil_r|].
  rewrite app_assoc. inversion 1 as [Hnil|log h' e' Hlog Hf Heq].
  - by destruct (l1 ++ l2).
  - apply app_inj_tail in Heq as [-> _]. auto.
Qed.
Lemma valid_log_take cas root log n : valid_log cas root log → valid_log cas root (take n log).
Proof. intros Hlog. apply (valid_log_prefix _ _ _ (drop n log)). by rewrite take_drop. Qed.

(** The events of a thread carry the sequence and the link of their place in
    the log of the thread. *)
Lemma thread_log_lookup cas root log tid j h e :
  valid_log cas root log → thread_log tid log !! j = Some (h, e) →
  ev_thread_id e = tid ∧ ev_thread_seq e = N.of_nat (S j) ∧
  ev_prev_thread_event_hash e = last_hash (take j (thread_log tid log)).
Proof.
  induction 1 as [|log h' e' Hlog IH Hf]; [done|].
  rewrite thread_log_app, thread_log_one. case_decide as Ht; [|rewrite app_nil_r; done].
  intros Hj. apply lookup_snoc_Some in Hj as [[Hlt Hj]|[-> [= <- <-]]].
  - rewrite take_app_le by lia. auto.
  - rewrite take_app_length. destruct Hf. by subst tid.
Qed.

Lemma thread_log_elem tid log p : p ∈ thread_log tid log ↔ ev_thread_id p.2 = tid ∧ p ∈ log.
Proof. apply (list_elem_of_filter (λ p : string * ThreadEvent, ev_thread_id p.2 = tid)). Qed.

End spec.
