(* ===== verification/ChainValidationCorrect.v ===== *)
(** * The validator accepts exactly the histories

    The replay of [validate_authoritative_history] against the
    specification of [ChainHistory]: the walk over the events reads a valid
    log, the walk over the states their ancestry, and the checks on
    consecutive states are the transitions of the specification.  Neither
    walk runs out of its fuel, and no [expect] fails. *)

From stdpp Require Import sorting.
From S2P Require Import Prelude Float64 Json CanonicalRef Schedule ScheduleSpec.
From S2P Require Import CasStore ChainObjects ChainValidation Chain ChainHistory.

Section validation.
Context `{Externals} `{Sha256} `{JsonReader} `{UnicodeTables} `{NaiveDateTime}.
Context `{Wire ThreadEvent} `{Wire ThreadSnapshot} `{Wire ChainState}.

(** ** Positions *)

Definition positions_of (log : Log) : gmap string EventPosition :=
  list_to_map (prod_map id event_position <$> log).

Lemma positions_fst (log : Log) : (prod_map id event_position <$> log).*1 = log.*1.
Proof. rewrite <- list_fmap_compose. by apply list_fmap_ext. Qed.
Lemma positions_lookup cas root log h ep :
  valid_log cas root log →
  positions_of log !! h = Some ep ↔ ∃ e, (h, e) ∈ log ∧ ep = event_position e.
Proof.
  intros Hlog. unfold positions_of. rewrite <- elem_of_list_to_map
    by (rewrite positions_fst; by eapply valid_log_NoDup).
  rewrite list_elem_of_fmap. split.
  - intros ([h' e] & [= -> ->] & He). eauto.
  - intros (e & He & ->). by exists (h, e).
Qed.

(** A log, or the log of a thread, as the histories [validate_event_advance]
    follows. *)
Definition history_log (log : Log) (hist : EventHistory) : Log :=
  match hist with ChainEvents => log | ThreadEvents tid => thread_log tid log end.

Lemma history_present cas root log hist j h e :
  valid_log cas root log → history_log log hist !! j = Some (h, e) →
  positions_of log !! h = Some (event_position e) ∧
  history_link hist (event_position e) = Ok (N.of_nat (S j), last_hash (take j (history_log log hist))).
Proof.
  intros Hlog Hj. split.
  - apply (positions_lookup cas root); [done|]. exists e. split; [|done].
    apply list_elem_of_lookup_2 in Hj. destruct hist; [done|]. apply thread_log_elem in Hj. tauto.
  - destruct hist as [|tid]; cbn in *.
    + destruct (valid_log_lookup _ _ _ _ _ _ Hlog Hj). rewrite ef_seq, ef_prev.
      apply lookup_lt_Some in Hj. rewrite length_take. do 3 f_equal. lia.
    + destruct (thread_log_lookup _ _ _ _ _ _ _ Hlog Hj) as (Ht & -> & ->).
      rewrite bool_decide_true by done. done.
Qed.

Lemma history_found cas root log hist h ep seq pred :
  valid_log cas root log → positions_of log !! h = Some ep → history_link hist ep = Ok (seq, pred) →
  ∃ j e, history_log log hist !! j = Some (h, e) ∧ ep = event_position e ∧
         seq = N.of_nat (S j) ∧ pred = last_hash (take j (history_log log hist)).
Proof.
  intros Hlog (e & He & ->)%(positions_lookup cas root) Hlink; [|done].
  assert (Hin : (h, e) ∈ history_log log hist).
  { destruct hist as [|tid]; [done|]. apply thread_log_elem. split; [|done].
    cbn in Hlink. facts Hlink. done. }
  apply list_elem_of_lookup in Hin as [j Hj]. exists j, e. split; [done|]. split; [done|].
  destruct (history_present _ _ _ _ _ _ _ Hlog Hj) as [_ Heq]. rewrite Heq in Hlink.
  by injection Hlink.
Qed.

(** The times of the first and of the last of the events [m - k .. m]. *)
Lemma advance_steps_run cas root log hist k m newest oldest :
  valid_log cas root log → (k ≤ m ≤ length (history_log log hist))%nat →
  advance_steps k (positions_of log) hist (N.of_nat m) (last_hash (take m (history_log log hist)))
    newest oldest =
  Ok (last_hash (take (m - k) (history_log log hist)),
      match newest with
      | None => if decide (k = O) then None
                else (λ p, ev_ts p.2) <$> last (take m (history_log log hist))
      | _ => newest
      end,
      if decide (k = O) then oldest
      else (λ p, ev_ts p.2) <$> (history_log log hist !! (m - k)%nat)).
Proof.
  intros Hlog. revert m newest oldest. induction k as [|k IH]; intros m newest oldest Hm; cbn [advance_steps].
  - rewrite !decide_True by done. rewrite Nat.sub_0_r. by destruct newest.
  - destruct m as [|m]; [lia|].
    destruct (lookup_lt_is_Some_2 (history_log log hist) m) as [[h e] He]; [lia|].
    destruct (history_present _ _ _ _ _ _ _ Hlog He) as [Hpos Hlink].
    assert (Hs : (N.of_nat (S m) - 1)%N = N.of_nat m) by lia.
    rewrite (last_hash_take _ _ _ _ He). generalize dependent (N.of_nat (S m)). intros q Hlink Hs.
    cbn. rewrite Hpos. cbn. rewrite Hlink. cbn. rewrite N.eqb_refl. cbn. rewrite Hs, IH by lia.
    destruct (decide (S k = O)) as [|_]; [done|].
    replace (S m - S k)%nat with (m - k)%nat by lia. do 3 f_equal.
    + destruct newest; [done|]. rewrite (take_S_r _ _ _ He), last_snoc. done.
    + case_decide; [subst k|done]. rewrite Nat.sub_0_r. by setoid_rewrite He.
Qed.

Lemma advance_steps_inv cas root log hist k m hash newest oldest r :
  valid_log cas root log → (0 < k)%nat →
  advance_steps k (positions_of log) hist (N.of_nat m) hash newest oldest = Ok r →
  (m ≤ length (history_log log hist))%nat ∧ hash = last_hash (take m (history_log log hist)).
Proof.
  intros Hlog Hk. destruct k as [|k]; [lia|]. cbn [advance_steps]. intros Hr. facts Hr. subst hash.
  destruct x1 as [seq pred].
  match goal with E : history_link _ _ = _ |- _ =>
    destruct (history_found _ _ _ _ _ _ _ _ Hlog E0 E) as (j & e & Hj & -> & -> & ->) end.
  cbn in Hr. facts Hr.
  assert (m = S j) as -> by lia. pose proof (lookup_lt_Some _ _ _ Hj). split; [lia|].
  by rewrite (last_hash_take _ _ _ _ Hj).
Qed.

(** The times of the first and the last event between two positions. *)
Definition times_between (v : Log) (p q : nat) : option (string * string) :=
  if decide (p = q) then None
  else oldest ← v !! p ; newest ← last (take q v) ; Some (ev_ts oldest.2, ev_ts newest.2).

Lemma event_advance_exact cas root log hist p hash seq times :
  valid_log cas root log → (p ≤ length (history_log log hist))%nat →
  validate_event_advance (positions_of log) hist (last_hash (take p (history_log log hist)))
    (N.of_nat p) hash seq = Ok times ↔
  ∃ q, seq = N.of_nat q ∧ (p ≤ q ≤ length (history_log log hist))%nat ∧
       hash = last_hash (take q (history_log log hist)) ∧
       times = times_between (history_log log hist) p q.
Proof.
  intros Hlog Hp. unfold validate_event_advance.
  set (v := history_log log hist) in *. destruct (N.eqb_spec seq (N.of_nat p)) as [->|Hne].
  - split.
    + intros Hok. facts Hok. exists p. unfold times_between. rewrite decide_True by done. auto with lia.
    + intros (q & Hq & Hlen & -> & ->). assert (q = p) as -> by lia.
      rewrite N.ltb_irrefl. cbn. rewrite bool_decide_true by done. cbn.
      unfold times_between. by rewrite decide_True.
  - assert (Hrun : ∀ q, (p < q ≤ length v)%nat → seq = N.of_nat q → hash = last_hash (take q v) →
      ∃ a b, v !! p = Some a ∧ last (take q v) = Some b ∧
        advance_steps (N.to_nat (seq - N.of_nat p)) (positions_of log) hist seq hash None None =
        Ok (last_hash (take p v), Some (ev_ts b.2), Some (ev_ts a.2))).
    { intros q Hq -> ->. destruct (lookup_lt_is_Some_2 v p) as [a Ha]; [lia|].
      destruct (lookup_lt_is_Some_2 v (q - 1)) as [b Hb]; [lia|].
      exists a, b. assert (Hlast : last (take q v) = Some b).
      { replace q with (S (q - 1)) by lia. by rewrite (take_S_r _ _ _ Hb), last_snoc. }
      split; [done|]. split; [done|].
      replace (N.to_nat (N.of_nat q - N.of_nat p)) with (q - p)%nat by lia.
      rewrite (advance_steps_run cas root) by (done || fold v; lia). fold v.
      rewrite !decide_False by lia. replace (q - (q - p))%nat with p by lia.
      rewrite Hlast. setoid_rewrite Ha. done. }
    split.
    + intros Hok. facts Hok.
      destruct (advance_steps_inv cas root log hist (N.to_nat (seq - N.of_nat p)) (N.to_nat seq)
        hash None None x Hlog) as [Hq Hhash]; [lia|by rewrite N2Nat.id|].
      fold v in Hq, Hhash.
      destruct (Hrun (N.to_nat seq)) as (a & b & Ha & Hb & Hstep); [lia|by rewrite N2Nat.id|done|].
      rewrite Hstep in *. simplify_eq. cbn in Hok. facts Hok. simplify_eq.
      exists (N.to_nat seq). split; [by rewrite N2Nat.id|]. split; [lia|]. split; [done|].
      unfold times_between. rewrite decide_False by lia. rewrite Ha. cbn. rewrite Hb. done.
    + intros (q & -> & Hq & -> & ->).
      destruct (Hrun q) as (a & b & Ha & Hb & Hstep); [lia|done|done|].
      rewrite Hstep. rewrite (proj2 (N.ltb_ge _ _)) by lia. cbn.
      rewrite bool_decide_true by done. cbn. unfold times_between. rewrite decide_False by lia.
      by rewrite Ha; cbn; rewrite Hb.
Qed.

(** ** The walk over the events *)

Definition cursor_for (log : Log) (tid : string) : ThreadEventCursor := {|
  next_hash := last_hash (thread_log tid log);
  next_sequence := N.of_nat (length (thread_log tid log));
|}.

(** What is left to walk is the log. *)
Record remaining (cas : Cas) (root : string) (w : Walk) (log : Log) : Prop := {
  rm_log : valid_log cas root log;
  rm_seq : wk_expected_sequence w = N.of_nat (length log);
  rm_hash : wk_current_hash w = last_hash log;
  rm_time : ∀ p, last log = Some p →
    ∃ t, parse_canonical_timestamp (ev_ts p.2) = Ok t ∧ t ≤ wk_newer_timestamp w;
  rm_cursors : ∀ tid c, wk_cursors w !! tid = Some c → c = cursor_for log tid;
  rm_threads : ∀ p, p ∈ log → is_Some (wk_cursors w !! ev_thread_id p.2);
}.
Definition finished (w : Walk) : Prop :=
  wk_current_hash w = None ∧
  ∀ tid c, wk_cursors w !! tid = Some c → next_sequence c = 0%N ∧ next_hash c = None.

Lemma predecessor_link_exact label seq pred :
  validate_predecessor_link label seq pred = Ok tt ↔
  (seq = 1%N ∧ pred = None ∨ (1 < seq)%N ∧ is_Some pred).
Proof.
  unfold validate_predecessor_link. destruct (N.eqb_spec seq 0) as [->|]; [split; [done|lia]|].
  destruct (N.eqb_spec seq 1) as [->|]; autorewrite with chain; destruct pred as [h|]; split.
  - intros []. eauto.
  - by intros [[_ ?]|[? _]]; [|lia].
  - auto.
  - by intros _ [].
  - intros _. right. split; [lia|eauto].
  - done.
  - by intros [].
  - intros [[-> _]|[_ [? ?]]]; done.
Qed.

Lemma cursor_snoc log h e tid :
  cursor_for (log ++ [(h, e)]) tid =
  if decide (ev_thread_id e = tid)
  then {| next_hash := Some h; next_sequence := N.of_nat (S (length (thread_log tid log))) |}
  else cursor_for log tid.
Proof.
  unfold cursor_for. rewrite thread_log_app, thread_log_one. case_decide.
  - rewrite last_hash_snoc, length_app. cbn. do 2 f_equal. lia.
  - by rewrite app_nil_r.
Qed.

Lemma positions_snoc cas root log h e m :
  valid_log cas root (log ++ [(h, e)]) →
  positions_of (log ++ [(h, e)]) ∪ m = positions_of log ∪ <[h := event_position e]> m.
Proof.
  intros Hlog. apply valid_log_NoDup in Hlog. rewrite fmap_app, NoDup_app in Hlog.
  destruct Hlog as (_ & Hh & _). specialize (Hh h).
  assert (Hnone : positions_of log !! h = None).
  { apply not_elem_of_list_to_map. rewrite positions_fst. intros Hin. apply Hh; [done|]. by left. }
  rewrite <- insert_union_r, insert_union_l by done. f_equal. unfold positions_of.
  rewrite fmap_app. cbn. apply list_to_map_snoc. rewrite positions_fst. intros Hin.
  apply Hh; [done|]. by left.
Qed.

Lemma positions_nil m : positions_of [] ∪ m = m.
Proof. apply (left_id_L ∅ (∪)). Qed.

(** One turn of the walk. *)
Definition walked (w : Walk) (h : string) (e : ThreadEvent) (t : Z) : Walk := {|
  wk_current_hash := ev_prev_chain_event_hash e;
  wk_expected_sequence := (wk_expected_sequence w - 1)%N;
  wk_newer_timestamp := t;
  wk_visited := {[h]} ∪ wk_visited w;
  wk_cursors := <[ev_thread_id e := {|
      next_hash := ev_prev_thread_event_hash e; next_sequence := (ev_thread_seq e - 1)%N |}]>
    (wk_cursors w);
  wk_positions := <[h := event_position e]> (wk_positions w);
|}.
Record walkable (cas : Cas) (root : string) (w : Walk) (h : string) (e : ThreadEvent) (t : Z) : Prop := {
  wa_hash : wk_current_hash w = Some h;
  wa_new : h ∉ wk_visited w;
  wa_load : load_hashed_event cas h = Ok e;
  wa_valid : validate_event e = Ok tt;
  wa_root : ev_chain_root_id e = root;
  wa_seq : ev_chain_seq e = wk_expected_sequence w;
  wa_time : parse_canonical_timestamp (ev_ts e) = Ok t;
  wa_older : t ≤ wk_newer_timestamp w;
  wa_cursor : wk_cursors w !! ev_thread_id e =
    Some {| next_hash := Some h; next_sequence := ev_thread_seq e |};
  wa_link : validate_predecessor_link "chain event" (ev_chain_seq e) (ev_prev_chain_event_hash e) = Ok tt;
  wa_thread_link :
    validate_predecessor_link "thread event" (ev_thread_seq e) (ev_prev_thread_event_hash e) = Ok tt;
}.

Lemma walk_event_exact cas state w w' :
  (0 < wk_expected_sequence w)%N →
  walk_event cas state w = Ok w' ↔
  ∃ h e t, walkable cas (cs_chain_root_id state) w h e t ∧ w' = walked w h e t.
Proof.
  intros Hpos. unfold walk_event. split.
  - intros Hok. facts Hok. unfold decrement in *. repeat case_match; simplify_eq.
    exists x, x0, x1. destruct x2 as [ch cs]; cbn in *; subst. split; [by split|].
    done.
  - intros (h & e & t & [] & ->). rewrite wa_hash0. cbn. rewrite bool_decide_false by done. cbn.
    rewrite wa_load0. cbn. rewrite wa_valid0. cbn. rewrite bool_decide_true by done. cbn.
    rewrite wa_seq0, N.eqb_refl. cbn. rewrite wa_time0. cbn.
    rewrite (proj2 (Z.ltb_ge _ _)) by done. cbn. rewrite wa_cursor0. cbn.
    rewrite bool_decide_true by done. cbn. rewrite N.eqb_refl. cbn.
    rewrite wa_seq0 in wa_link0. rewrite wa_link0. cbn. rewrite wa_thread_link0. cbn.
    apply predecessor_link_exact in wa_thread_link0.
    unfold decrement. rewrite (proj2 (N.eqb_neq (wk_expected_sequence w) 0)) by lia. cbn.
    rewrite (proj2 (N.eqb_neq (ev_thread_seq e) 0)) by lia. done.
Qed.

Lemma remaining_snoc cas root w h e t log :
  (0 < wk_expected_sequence w)%N → walkable cas root w h e t →
  remaining cas root (walked w h e t) log → remaining cas root w (log ++ [(h, e)]).
Proof.
  intros Hpos [] [Hlog Hseq Hhash Htime Hcur Hthr]. cbn in *.
  assert (Hc := Hcur (ev_thread_id e)). rewrite lookup_insert_eq in Hc.
  specialize (Hc _ eq_refl). injection Hc as Hth Hts.
  apply predecessor_link_exact in wa_thread_link0.
  split.
  - constructor; [done|]. split; try done; [lia|lia|].
    intros p Hp. destruct (Htime p Hp) as (t' & Ht' & Hle). exists t', t. auto.
  - rewrite length_app. cbn. lia.
  - by rewrite last_hash_snoc.
  - intros p. rewrite last_snoc. intros [= <-]. eauto.
  - intros tid c Hcs. rewrite cursor_snoc. case_decide as Ht.
    + subst tid. rewrite wa_cursor0 in Hcs. injection Hcs as <-. f_equal. lia.
    + apply Hcur. by rewrite lookup_insert_ne.
  - intros p [Hp| ->%list_elem_of_singleton]%elem_of_app; [|cbn; rewrite wa_cursor0; eauto].
    destruct (Hthr p Hp) as [c Hcc]. destruct (decide (ev_thread_id e = ev_thread_id p.2)) as [<-|Hne].
    + rewrite wa_cursor0; eauto.
    + rewrite lookup_insert_ne in Hcc by done. eauto.
Qed.

Lemma walk_events_sound fuel cas state w w' :
  walk_events fuel cas state w = Ok w' → finished w' →
  ∃ log, remaining cas (cs_chain_root_id state) w log ∧
         wk_positions w' = positions_of log ∪ wk_positions w.
Proof.
  revert w. induction fuel as [|fuel IH]; intros w; cbn [walk_events].
  all: destruct (N.ltb_spec 0 (wk_expected_sequence w)) as [Hpos|Hzero]; [|].
  1: done.
  1,3: intros [= <-] [Hcur Hcursors]; exists []; split; [|by rewrite positions_nil];
    split; [constructor|cbn; lia|done|done| |by intros ? ?%not_elem_of_nil];
    intros tid [ch cs] Hc; destruct (Hcursors _ _ Hc) as [Hs Hh]; cbn in Hs, Hh; by subst.
  intros (w1 & Hstep & Hrun)%sch_bind_ok Hfin.
  apply walk_event_exact in Hstep as (h & e & t & Hw & ->); [|done].
  destruct (IH _ Hrun Hfin) as (log & Hrem & Hposs).
  pose proof (remaining_snoc _ _ _ _ _ _ _ Hpos Hw Hrem) as Hrem'.
  exists (log ++ [(h, e)]). split; [done|].
  rewrite Hposs, (positions_snoc cas (cs_chain_root_id state)); [done|by destruct Hrem'].
Qed.

Lemma remaining_walkable cas root w log h e :
  remaining cas root w (log ++ [(h, e)]) → h ∉ wk_visited w →
  ∃ t, walkable cas root w h e t ∧ remaining cas root (walked w h e t) log.
Proof.
  intros [Hlog Hseq Hhash Htime Hcur Hthr] Hnew.
  inversion Hlog as [Hnil|log' h' e' Hl Hf Heq]; [by destruct log|].
  apply app_inj_tail in Heq as [-> [= -> ->]].
  destruct (Htime (h, e)) as (t & Ht & Hle); [by rewrite last_snoc|]. cbn in Ht.
  rewrite length_app in Hseq. cbn in Hseq. rewrite last_hash_snoc in Hhash.
  destruct (Hthr (h, e)) as [c Hc]; [apply elem_of_app; right; by left|]. cbn in Hc.
  pose proof (Hcur _ _ Hc) as Hcc. rewrite cursor_snoc, decide_True in Hcc by done.
  exists t. destruct Hf. split.
  - split; try done; [lia|by rewrite Hc, Hcc, ef_thread_seq| |].
    + apply predecessor_link_exact. rewrite ef_prev, ef_seq. unfold last_hash.
      destruct log as [|p log _] using rev_ind; [left; done|right].
      rewrite last_snoc, length_app. cbn. split; [lia|eauto].
    + apply predecessor_link_exact. rewrite ef_thread_prev, ef_thread_seq. unfold last_hash.
      destruct (thread_log _ log) as [|p tl _] using rev_ind; [left; done|right].
      rewrite last_snoc, length_app. cbn. split; [lia|eauto].
  - split; cbn; [done|lia|done| | |].
    + intros p Hp. destruct (ef_time p Hp) as (t1 & t2 & Ht1 & Ht2 & ?). rewrite Ht in Ht2.
      injection Ht2 as <-. eauto.
    + intros tid c' Hc'. destruct (decide (ev_thread_id e = tid)) as [<-|Hne].
      * rewrite lookup_insert_eq in Hc'. injection Hc' as <-. unfold cursor_for. f_equal; [done|lia].
      * rewrite lookup_insert_ne in Hc' by done. rewrite (Hcur _ _ Hc'), cursor_snoc.
        by rewrite decide_False.
    + intros p Hp. apply lookup_insert_is_Some'. right. apply Hthr. apply elem_of_app. by left.
Qed.

Lemma walk_events_complete cas state w log fuel :
  remaining cas (cs_chain_root_id state) w log →
  (∀ h, h ∈ log.*1 → h ∉ wk_visited w) → (length log ≤ fuel)%nat →
  ∃ w', walk_events fuel cas state w = Ok w' ∧ finished w' ∧
        wk_positions w' = positions_of log ∪ wk_positions w.
Proof.
  revert w fuel. induction log as [|[h e] log IH] using rev_ind; intros w fuel Hrem Hvis Hfuel.
  - exists w. split.
    { destruct Hrem. cbn in rm_seq0. destruct fuel; cbn [walk_events];
        by rewrite (proj2 (N.ltb_ge _ _)) by lia. }
    split; [|by rewrite positions_nil]. destruct Hrem. split; [done|].
    intros tid c Hc. by rewrite (rm_cursors0 _ _ Hc).
  - rewrite length_app in Hfuel. cbn in Hfuel. destruct fuel as [|fuel]; [lia|].
    assert (Hlog : valid_log cas (cs_chain_root_id state) (log ++ [(h, e)])) by by destruct Hrem.
    assert (Hpos : (0 < wk_expected_sequence w)%N).
    { destruct Hrem. rewrite rm_seq0, length_app. cbn. lia. }
    destruct (remaining_walkable _ _ _ _ _ _ Hrem) as (t & Hw & Hrem1).
    { apply Hvis. rewrite fmap_app. apply elem_of_app. right. by left. }
    destruct (IH (walked w h e t) fuel Hrem1) as (w' & Hrun & Hfin & Hposs); [|lia|].
    { intros h' Hh'. cbn. rewrite not_elem_of_union, not_elem_of_singleton. split.
      - intros ->. apply valid_log_NoDup in Hlog. rewrite fmap_app, NoDup_app in Hlog.
        destruct Hlog as (_ & Hd & _). apply (Hd h Hh'). by left.
      - apply Hvis. rewrite fmap_app. apply elem_of_app. by left. }
    exists w'. cbn [walk_events]. rewrite (proj2 (N.ltb_lt _ _)) by done.
    rewrite (proj2 (walk_event_exact _ _ _ _ Hpos)) by eauto. cbn. split; [done|]. split; [done|].
    rewrite Hposs. cbn. by rewrite (positions_snoc cas (cs_chain_root_id state)).
Qed.

(** ** The closure of a head *)

Definition cursor_at (entry : ChainThreadEntry) : ThreadEventCursor := {|
  next_hash := te_last_event_hash entry; next_sequence := te_last_thread_seq entry |}.
Definition position_of (tid : string) (s : ThreadSnapshot) : list SnapshotEventPosition :=
  match sn_last_event_hash s with
  | Some event_hash => [{| sp_thread_id := tid; sp_event_hash := event_hash;
                           sp_chain_sequence := sn_last_chain_seq s;
                           sp_thread_sequence := sn_last_thread_seq s |}]
  | None => []
  end.
Definition loaded (cas : Cas) (state : ChainState) (t : Z) (thread : string * ChainThreadEntry)
    (s : ThreadSnapshot) : Prop :=
  load_hashed_snapshot cas (te_snapshot_hash thread.2) = Ok s ∧
  validate_stored_snapshot state thread.1 thread.2 s = Ok tt ∧
  ∃ u, parse_canonical_timestamp (sn_updated_at s) = Ok u ∧ u ≤ t.
Definition add_cursor (m : gmap string ThreadEventCursor) (thread : string * ChainThreadEntry)
    : gmap string ThreadEventCursor := <[thread.1 := cursor_at thread.2]> m.

Lemma load_thread_exact cas state t acc thread r :
  load_thread cas state t acc thread = Ok r ↔
  ∃ s, loaded cas state t thread s ∧ r = (add_cursor acc.1 thread, acc.2 ++ position_of thread.1 s).
Proof.
  destruct acc as [c0 p0], thread as [tid entry]. unfold load_thread, loaded, position_of, add_cursor.
  split.
  - intros Hok. facts Hok. exists x. split; [by eauto 8|]. subst r. cbn. f_equal.
    destruct (sn_last_event_hash x); [done|by rewrite app_nil_r].
  - cbn. intros (s & (Hl & Hs & u & Hu & Hle) & ->). rewrite Hl. cbn. rewrite Hs. cbn. rewrite Hu. cbn.
    rewrite (proj2 (Z.ltb_ge _ _)) by done. cbn. do 2 f_equal.
    destruct (sn_last_event_hash s); [done|by rewrite app_nil_r].
Qed.

Lemma load_threads_exact cas state t l acc r :
  each_from (load_thread cas state t) acc l = Ok r ↔
  ∃ sns, Forall2 (loaded cas state t) l sns ∧
    r = (foldl add_cursor acc.1 l,
         acc.2 ++ concat (zip_with (λ thread s, position_of thread.1 s) l sns)).
Proof.
  revert acc. induction l as [|thread l IH]; intros acc; cbn [each_from].
  - split.
    + intros [= <-]. exists []. split; [constructor|]. cbn. rewrite app_nil_r. by destruct acc.
    + intros (sns & Hs & ->). inversion Hs; subst. cbn. rewrite app_nil_r. by destruct acc.
  - rewrite sch_bind_ok. setoid_rewrite load_thread_exact. setoid_rewrite IH. split.
    + intros (a & (s & Hs & ->) & sns & Hsns & ->). exists (s :: sns). split; [by constructor|].
      cbn. by rewrite (assoc_L (++)).
    + intros (sns & Hall & ->). inversion Hall as [|? s ? sns' Hs Hsns]; subst.
      eexists. split; [by eauto|]. exists sns'. split; [done|]. cbn. by rewrite (assoc_L (++)).
Qed.

Lemma cursors_lookup l m tid entry :
  NoDup l.*1 → (tid, entry) ∈ l → foldl add_cursor m l !! tid = Some (cursor_at entry).
Proof.
  revert m. induction l as [|[k e] l IH]; intros m; [by intros _ ?%not_elem_of_nil|].
  cbn. intros [Hk Hnd]%NoDup_cons [[= -> ->]|Hin]%elem_of_cons; [|auto].
  clear IH. assert (∀ m, m !! k = Some (cursor_at e) → foldl add_cursor m l !! k = Some (cursor_at e)) as Hkeep.
  { clear m. induction l as [|[k' e'] l IH]; intros m Hm; [done|]. cbn in *.
    apply not_elem_of_cons in Hk as [Hne Hk]. apply NoDup_cons in Hnd as [_ Hnd].
    apply IH; [done|done|]. unfold add_cursor. cbn. by rewrite lookup_insert_ne. }
  apply Hkeep. unfold add_cursor. cbn. apply lookup_insert_eq.
Qed.
Lemma cursors_absent l m tid : tid ∉ l.*1 → foldl add_cursor m l !! tid = m !! tid.
Proof.
  revert m. induction l as [|[k e] l IH]; intros m; [done|]. cbn.
  intros [Hne Hk]%not_elem_of_cons. rewrite IH by done. unfold add_cursor. cbn. by rewrite lookup_insert_ne.
Qed.

(** The cursors the walk starts from. *)
Lemma initial_cursors (threads : gmap string ChainThreadEntry) tid :
  foldl add_cursor ∅ (btree_entries threads) !! tid = cursor_at <$> threads !! tid.
Proof.
  destruct (threads !! tid) as [entry|] eqn:Ht; cbn.
  - apply cursors_lookup; [apply btree_NoDup|]. by apply elem_of_btree_entries.
  - rewrite cursors_absent; [apply lookup_empty|].
    intros ([k e] & -> & Hin)%list_elem_of_fmap. apply elem_of_btree_entries in Hin. cbn in Ht. congruence.
Qed.

Lemma check_position_exact cas root log tid s :
  valid_log cas root log → sn_thread_id s = tid →
  (∀ sp, sp ∈ position_of tid s → check_snapshot_position (positions_of log) sp = Ok tt) ↔
  snapshot_within log s.
Proof.
  intros Hlog Htid. unfold position_of, snapshot_within. destruct (sn_last_event_hash s) as [h|].
  2: { split; [done|]. intros _ sp Hsp. by apply not_elem_of_nil in Hsp. }
  split.
  - intros Hall h' [= <-]. specialize (Hall _ ltac:(by left)). unfold check_snapshot_position in Hall.
    facts Hall. apply (positions_lookup cas root) in E as (e & He & ->); [|done].
    cbn in *. subst tid. exists e. tauto.
  - intros Hw sp ->%list_elem_of_singleton. destruct (Hw h eq_refl) as (e & He & Ht & Hs & Hc).
    unfold check_snapshot_position. cbn.
    rewrite (proj2 (positions_lookup cas root log h _ Hlog)) by eauto. cbn.
    rewrite Ht, Hs, bool_decide_true, N.eqb_refl, (proj2 (N.ltb_ge _ _)) by done. done.
Qed.

Lemma positions_checked cas root log state t l sns :
  valid_log cas root log → Forall2 (loaded cas state t) l sns →
  (∀ sp, sp ∈ concat (zip_with (λ thread s, position_of thread.1 s) l sns) →
         check_snapshot_position (positions_of log) sp = Ok tt) ↔
  Forall (snapshot_within log) sns.
Proof.
  intros Hlog. induction 1 as [|[tid entry] s l sns Hs Hl IH]; cbn.
  - split; [constructor|]. by intros _ ? ?%not_elem_of_nil.
  - setoid_rewrite elem_of_app. rewrite Forall_cons, <- IH.
    rewrite <- (check_position_exact cas root log tid s Hlog); [naive_solver|].
    destruct Hs as (_ & Hst & _). cbn in Hst. unfold validate_stored_snapshot in Hst. by facts Hst.
Qed.

Lemma Forall2_choose {A B} (R : A → B → Prop) l :
  (∀ x, x ∈ l → ∃ y, R x y) → ∃ k, Forall2 R l k.
Proof.
  induction l as [|x l IH]; intros Hl; [by exists []|].
  destruct (Hl x) as [y Hy]; [by left|]. destruct IH as [k Hk]; [intros; apply Hl; by right|].
  exists (y :: k). by constructor.
Qed.

(** Objects that load are in the store. *)
Lemma get_object_stored cas hash v : get_object cas hash = Ok (Some v) → is_Some (cas !! hash).
Proof. unfold get_object. destruct (negb _); [done|]. destruct (cas !! hash); [eauto|done]. Qed.
Lemma load_event_stored cas hash e : load_hashed_event cas hash = Ok e → hash ∈ dom cas.
Proof.
  unfold load_hashed_event. intros Hl. facts Hl. subst x. apply elem_of_dom.
  by eapply get_object_stored.
Qed.
Lemma load_state_stored cas hash s : load_hashed_chain_state cas hash = Ok s → hash ∈ dom cas.
Proof.
  unfold load_hashed_chain_state. intros Hl. facts Hl. subst x. apply elem_of_dom.
  by eapply get_object_stored.
Qed.
Lemma distinct_stored (cas : Cas) l : NoDup l → (∀ h, h ∈ l → h ∈ dom cas) → (length l ≤ size cas)%nat.
Proof.
  intros Hnd Hin. rewrite <- (size_list_to_set (C := gset string)) by done.
  transitivity (size (dom cas : gset string)); [|by rewrite (size_dom (cas : gmap string string))].
  apply subseteq_size. intros h Hh. apply Hin. by apply elem_of_list_to_set in Hh.
Qed.
Lemma log_stored cas root log : valid_log cas root log → (length log ≤ size cas)%nat.
Proof.
  intros Hlog. rewrite <- (length_fmap fst). apply distinct_stored; [by eapply valid_log_NoDup|].
  intros h ([h' e] & -> & Hin)%list_elem_of_fmap. apply list_elem_of_lookup in Hin as [i Hi].
  eapply load_event_stored. by destruct (valid_log_lookup _ _ _ _ _ _ Hlog Hi).
Qed.

(** The walk the closure starts. *)
Definition first_walk (state : ChainState) (t : Z) : Walk := {|
  wk_current_hash := cs_last_event_hash state;
  wk_expected_sequence := cs_last_chain_seq state;
  wk_newer_timestamp := t; wk_visited := ∅;
  wk_cursors := foldl add_cursor ∅ (btree_entries (cs_threads state)); wk_positions := ∅ |}.

Lemma first_walk_remaining cas root state t log sns :
  parse_canonical_timestamp (cs_updated_at state) = Ok t →
  Forall2 (loaded cas state t) (btree_entries (cs_threads state)) sns →
  remaining cas root (first_walk state t) log ∧ Forall (snapshot_within log) sns ↔
  valid_log cas root log ∧ head_closure cas log state.
Proof.
  intros Ht Hsns. split.
  - intros [[Hlog Hseq Hhash Htime Hcur Hthr] Hw]. cbn in *. split; [done|]. split; [done|done| | | |].
    + intros p Hp. destruct (Htime p Hp) as (t' & Ht' & ?). exists t', t. auto.
    + intros p Hp. apply Hthr in Hp. rewrite initial_cursors in Hp. by apply fmap_is_Some in Hp.
    + intros tid entry He. specialize (Hcur tid (cursor_at entry)).
      rewrite initial_cursors, He in Hcur. injection (Hcur eq_refl). auto.
    + intros tid entry He. apply elem_of_btree_entries, list_elem_of_lookup in He as [i Hi].
      destruct (Forall2_lookup_l _ _ _ _ _ Hsns Hi) as (sn & Hsn & Hld & Hst & u & Hu & Hle).
      exists sn. split; [done|]. split; [done|]. split; [by exists u, t|].
      eapply Forall_lookup_1; eauto.
  - intros [Hlog []]. split.
    + split; cbn; [done|done|done| | |].
      * intros p Hp. destruct (hc_time p Hp) as (t1 & t2 & ? & Ht2 & ?). rewrite Ht in Ht2.
        injection Ht2 as <-. eauto.
      * intros tid c. rewrite initial_cursors. destruct (cs_threads state !! tid) as [entry|] eqn:He; [|done].
        intros [= <-]. destruct (hc_entry _ _ He) as [E1 E2]. unfold cursor_at, cursor_for. by f_equal.
      * intros p Hp. rewrite initial_cursors. apply fmap_is_Some. auto.
    + apply Forall_lookup. intros i sn Hi.
      destruct (Forall2_lookup_r _ _ _ _ _ Hsns Hi) as ([tid entry] & Hx & Hld & _). cbn in Hld.
      apply list_elem_of_lookup_2, elem_of_btree_entries in Hx.
      destruct (hc_snapshot _ _ Hx) as (sn' & Hld' & _ & _ & ?). rewrite Hld in Hld'. by injection Hld' as <-.
Qed.

Lemma closure_exact cas state positions :
  validate_authoritative_closure cas state = Ok positions ↔
  validate_state state = Ok tt ∧ validate_chain_positions state = Ok tt ∧
  ∃ log, valid_log cas (cs_chain_root_id state) log ∧ head_closure cas log state ∧
         positions = positions_of log.
Proof.
  unfold validate_authoritative_closure. remember (S (size cas)) as fuel eqn:Hfuel. split.
  - intros Hok. rewrite sch_bind_ok in Hok. destruct Hok as ([] & Hv & Hok).
    rewrite sch_bind_ok in Hok. destruct Hok as ([] & Hp & Hok).
    split; [done|]. split; [done|].
    rewrite sch_bind_ok in Hok. destruct Hok as (t & Ht & Hok).
    rewrite sch_bind_ok in Hok. destruct Hok as (acc & Hl & Hok).
    apply load_threads_exact in Hl as (sns & Hsns & ->). cbn in Hok. facts Hok.
    fold (first_walk state t) in E.
    apply walk_events_sound in E as (log & Hrem & Hpos).
    2: { split; [by apply eq_None_not_Some|]. intros tid c Hc.
         apply elem_of_btree_entries in Hc. specialize (E1 _ Hc). cbn in E1. facts E1.
         split; [done|]. by apply eq_None_not_Some. }
    exists log. cbn in Hpos. rewrite (right_id_L ∅ (∪)) in Hpos. rewrite <- Hok, Hpos in *.
    assert (valid_log cas (cs_chain_root_id state) log ∧ head_closure cas log state) as []; [|done].
    apply (first_walk_remaining _ _ _ t _ sns); [done|done|]. split; [done|].
    eapply positions_checked; [by destruct Hrem|done|]. done.
  - intros (Hv & Hp & log & Hlog & Hcl & ->). rewrite Hv. cbn. rewrite Hp. cbn.
    unfold validate_chain_positions in Hp. facts Hp. rename x into t.
    match goal with E : parse_canonical_timestamp _ = _ |- _ => rename E into Ht; rewrite Ht end.
    cbn. destruct (Forall2_choose (loaded cas state t) (btree_entries (cs_threads state)))
      as [sns Hsns].
    { intros [tid entry] Hin%elem_of_btree_entries. destruct Hcl.
      destruct (hc_snapshot _ _ Hin) as (sn & Hld & Hst & (t1 & t2 & Ht1 & Ht2 & Hle) & _).
      rewrite Ht in Ht2. injection Ht2 as <-. exists sn. split; [done|]. split; [done|]. eauto. }
    rewrite (proj2 (load_threads_exact _ _ _ _ _ _)) by eauto. cbn.
    destruct (proj2 (first_walk_remaining cas (cs_chain_root_id state) state t log sns Ht Hsns))
      as [Hrem Hw]; [done|].
    fold (first_walk state t).
    destruct (walk_events_complete cas state _ _ fuel Hrem) as (w & Hrun & [Hcur Hfin] & Hpos).
    { intros h _. cbn. apply not_elem_of_empty. }
    { pose proof (log_stored _ _ _ Hlog). lia. }
    rewrite Hrun. cbn. rewrite Hcur. cbn.
    rewrite (proj2 (each_btree _ _)). 2: { intros tid c Hc. destruct (Hfin _ _ Hc) as [-> ->]. done. }
    cbn. cbn in Hpos. rewrite (right_id_L ∅ (∪)) in Hpos. rewrite Hpos.
    rewrite (proj2 (sch_each_ok _ _)); [done|].
    by apply (positions_checked cas (cs_chain_root_id state) log state t).
Qed.

(** ** Positions of entries and snapshots *)

Lemma thread_log_within cas root log tid j h e n :
  valid_log cas root log → thread_log tid log !! j = Some (h, e) →
  (ev_chain_seq e ≤ N.of_nat n)%N ↔ (j < length (thread_log tid (take n log)))%nat.
Proof.
  intros Hlog Hj. destruct (thread_log_lookup _ _ _ _ _ _ _ Hlog Hj) as (<- & Hseq & _).
  apply list_elem_of_lookup_2, thread_log_elem in Hj as [_ Hin].
  apply list_elem_of_lookup in Hin as [i Hi].
  pose proof (valid_log_lookup _ _ _ _ _ _ Hlog Hi) as [].
  assert (Hij : j = length (thread_log (ev_thread_id e) (take i log))) by lia.
  rewrite (valid_log_seq _ _ _ _ _ _ Hlog Hi). set (tid := ev_thread_id e) in *.
  assert (Hmono : ∀ a b, (a ≤ b)%nat →
    (length (thread_log tid (take a log)) ≤ length (thread_log tid (take b log)))%nat).
  { intros a b Hab. replace (take a log) with (take a (take b log)) by (rewrite take_take; f_equal; lia).
    rewrite <- (take_drop a (take b log)) at 2. rewrite thread_log_app, length_app. lia. }
  split.
  - intros Hle. specialize (Hmono (S i) n ltac:(lia)).
    rewrite (take_S_r _ _ _ Hi), thread_log_app, thread_log_one, decide_True, length_app in Hmono by done.
    cbn in Hmono. lia.
  - intros Hlt. destruct (decide (S i ≤ n)%nat); [lia|]. specialize (Hmono n i ltac:(lia)). lia.
Qed.

Lemma entry_position_exact cas root log state tid entry k n :
  valid_log cas root log → (k ≤ length (thread_log tid log))%nat →
  te_last_thread_seq entry = N.of_nat k → te_last_event_hash entry = last_hash (take k (thread_log tid log)) →
  cs_last_chain_seq state = N.of_nat n →
  validate_entry_event_position state tid entry (positions_of log) = Ok tt ↔
  (k ≤ length (thread_log tid (take n log)))%nat.
Proof.
  intros Hlog Hk Hseq Hhash Hn. unfold validate_entry_event_position.
  destruct k as [|j]; [rewrite Hhash; cbn; split; [lia|done]|].
  destruct (lookup_lt_is_Some_2 (thread_log tid log) j) as [[h e] Hj]; [lia|].
  rewrite Hhash, (last_hash_take _ _ _ _ Hj).
  destruct (history_present _ _ _ (ThreadEvents tid) _ _ _ Hlog Hj) as [-> _].
  destruct (thread_log_lookup _ _ _ _ _ _ _ Hlog Hj) as (Ht & Hts & _).
  rewrite <- (thread_log_within _ _ _ _ _ _ _ n Hlog Hj) by done. cbn. rewrite Ht, Hts, Hseq, Hn.
  rewrite bool_decide_true, N.eqb_refl by done. cbn. rewrite sch_reject_ok. apply N.ltb_ge.
Qed.

Lemma snapshot_position_exact cas root log s :
  valid_log cas root log →
  validate_snapshot_event_position s (positions_of log) = Ok tt ↔ snapshot_within log s.
Proof.
  intros Hlog. unfold validate_snapshot_event_position, snapshot_within.
  destruct (sn_last_event_hash s) as [h|]; [|done]. split.
  - intros Hok h' [= <-]. facts Hok. apply (positions_lookup cas root) in E as (e & He & ->); [|done].
    exists e. tauto.
  - intros Hw. destruct (Hw h eq_refl) as (e & He & Ht & Hs & Hc).
    rewrite (proj2 (positions_lookup cas root log h _ Hlog)) by eauto. cbn.
    rewrite Ht, Hs, bool_decide_true, N.eqb_refl, (proj2 (N.ltb_ge _ _)) by done. done.
Qed.

Lemma published_exact cas root log state tid entry s :
  valid_log cas root log → load_hashed_snapshot cas (te_snapshot_hash entry) = Ok s →
  validate_published_snapshot state tid entry s (positions_of log) = Ok tt ↔
  published cas log state tid entry s.
Proof.
  intros Hlog Hload. unfold validate_published_snapshot. split.
  - intros Hok. facts Hok. apply (snapshot_position_exact cas root) in Hok; [|done].
    split; try tauto. by exists x, x0.
  - intros [_ Hst Hc Ht Hh (t1 & t2 & Ht1 & Ht2 & Hle) Hw]. rewrite Hst. cbn.
    rewrite Hc, Ht, Hh, !N.eqb_refl, bool_decide_true by done. cbn. rewrite Ht1. cbn. rewrite Ht2. cbn.
    rewrite (proj2 (Z.ltb_ge _ _)) by done. cbn. by apply (snapshot_position_exact cas root).
Qed.

(** The source of a continuation is read from the snapshot it is compared
    with, so that the comparison never fails. *)
Lemma continuation_source_vacuous previous s :
  validate_new_thread_snapshot s (continuation_source previous s) =
  validate_new_thread_snapshot s None.
Proof.
  unfold validate_new_thread_snapshot, validate_new_thread_project_snapshots, continuation_source.
  destruct (sn_base_project_snapshot_hash s), (sn_upstream_thread_id s) as [src|]; try done.
  case_decide; [|done]. by rewrite bool_decide_true.
Qed.

(** ** Steps of a history *)

Lemma thread_log_take_le tid n log :
  (length (thread_log tid (take n log)) ≤ length (thread_log tid log))%nat.
Proof. rewrite <- (take_drop n log) at 2. rewrite thread_log_app, length_app. lia. Qed.

Lemma thread_advance_exact cas root log state tid entry k n :
  valid_log cas root log → (k ≤ length (thread_log tid log))%nat →
  cs_last_chain_seq state = N.of_nat n →
  (validate_entry_event_position state tid entry (positions_of log) = Ok tt ∧
   ∃ times, validate_event_advance (positions_of log) (ThreadEvents tid)
     (last_hash (take k (thread_log tid log))) (N.of_nat k)
     (te_last_event_hash entry) (te_last_thread_seq entry) = Ok times) ↔
  entry_within log n tid entry ∧ (N.of_nat k ≤ te_last_thread_seq entry)%N.
Proof.
  intros Hlog Hk Hn. pose proof (event_advance_exact cas root log (ThreadEvents tid)) as Hadv.
  cbn in Hadv. split.
  - intros [Hpos [times Ht]]. apply Hadv in Ht as (q & Hq & Hle & Hh & _); [|done|done].
    split; [|lia]. exists q. split; [done|]. split; [done|].
    eapply (entry_position_exact cas root log state); [done|lia|done|done|done|done].
  - intros [(q & Hq & Hh & Hle) Hlek]. pose proof (thread_log_take_le tid n log). split.
    + eapply (entry_position_exact cas root log state); [done| |done|done|done|done]. lia.
    + eexists. apply Hadv; [done|done|]. exists q. split; [done|]. split; [lia|]. done.
Qed.

Lemma newest_between (log : Log) n n' :
  (n < n' ≤ length log)%nat →
  ∃ a p, log !! n = Some a ∧ last (take n' log) = Some p ∧
         times_between log n n' = Some (ev_ts a.2, ev_ts p.2).
Proof.
  intros Hn. destruct (lookup_lt_is_Some_2 log n) as [a Ha]; [lia|].
  destruct (lookup_lt_is_Some_2 log (n' - 1)) as [p Hp]; [lia|]. exists a, p. split; [done|].
  assert (Hlast : last (take n' log) = Some p).
  { replace n' with (S (n' - 1)) by lia. by rewrite (take_S_r _ _ _ Hp), last_snoc. }
  split; [done|]. unfold times_between. rewrite decide_False by lia. setoid_rewrite Ha. cbn. by setoid_rewrite Hlast.
Qed.
Lemma times_between_same log n : times_between log n n = None.
Proof. unfold times_between. by rewrite decide_True. Qed.

Lemma thread_step_exact cas root log s n s' n' tid entry' :
  valid_log cas root log → (n ≤ n' ≤ length log)%nat → cs_last_chain_seq s' = N.of_nat n' →
  (∀ entry, cs_threads s !! tid = Some entry → entry_within log n tid entry) →
  validate_thread_transition cas s s' (positions_of log) (times_between log n n') (tid, entry') = Ok tt ↔
  thread_step cas log s n s' n' tid entry'.
Proof.
  intros Hlog Hn Hseq Hprev. unfold validate_thread_transition, thread_step.
  destruct (cs_threads s !! tid) as [entry|] eqn:Ht.
  - destruct (Hprev _ eq_refl) as (k & Hk & Hh & Hle). pose proof (thread_log_take_le tid n log).
    rewrite Hk, Hh. pose proof (thread_advance_exact cas root log s' tid entry' k n' Hlog) as Hadv.
    split.
    + intros ([] & Hpos & (times & Htimes & Hrest)%sch_bind_ok)%sch_bind_ok.
      destruct (proj1 (Hadv ltac:(lia) Hseq)) as [Hew Hord]; [by eauto|]. split; [done|]. split; [done|].
      case_decide as Heq; facts Hrest; [by left|right]. split; [done|].
      destruct (decide (n = n')) as [->|Hne]; [by rewrite times_between_same in Hrest|].
      destruct (newest_between log n n') as (a & p & Ha & Hp & Hb); [lia|]. rewrite Hb in Hrest.
      exists p, x, x0. split; [lia|]. split; [done|]. split; [done|]. split; [|done].
      by apply (published_exact cas root).
    + intros (Hew & Hord & Hcase). destruct (proj2 (Hadv ltac:(lia) Hseq)) as [Hpos [times Htimes]]; [done|].
      rewrite Hpos. cbn. rewrite Htimes. cbn.
      destruct Hcase as [[Heq Hst]|(Hne & p & sn & sn' & Hnn & Hp & Hl & Hpb & Htr)].
      * by rewrite decide_True, bool_decide_true.
      * rewrite decide_False, Hl by done. cbn. rewrite (pb_load _ _ _ _ _ _ Hpb). cbn.
        rewrite (proj2 (published_exact cas root log s' tid entry' sn' Hlog (pb_load _ _ _ _ _ _ Hpb))) by done.
        destruct (newest_between log n n') as (a & p' & Ha & Hp' & ->); [lia|].
        rewrite Hp in Hp'. injection Hp' as <-. done.
  - pose proof (thread_advance_exact cas root log s' tid entry' 0 n' Hlog ltac:(lia) Hseq) as Hadv.
    change (last_hash (take 0 (thread_log tid log))) with (@None string) in Hadv.
    change (N.of_nat 0) with 0%N in Hadv. split.
    + intros ([] & Hpos & (times & Htimes & Hrest)%sch_bind_ok)%sch_bind_ok. facts Hrest.
      destruct (proj1 Hadv) as [Hew _]; [by eauto|]. split; [done|]. exists x.
      rewrite continuation_source_vacuous in Hrest. split; [|done]. by apply (published_exact cas root).
    + intros (Hew & sn & Hpb & Hnew). destruct (proj2 Hadv) as [Hpos [times Htimes]]; [split; [done|lia]|].
      rewrite Hpos. cbn. rewrite Htimes. cbn.
      rewrite (pb_load _ _ _ _ _ _ Hpb). cbn.
      rewrite (proj2 (published_exact cas root log s' tid entry' sn Hlog (pb_load _ _ _ _ _ _ Hpb))) by done.
      cbn. by rewrite continuation_source_vacuous.
Qed.

(** What the walk over the states checks of one of them. *)
Definition located (cas : Cas) (root h : string) (s : ChainState) : Prop :=
  load_hashed_chain_state cas h = Ok s ∧ validate_state s = Ok tt ∧
  validate_chain_positions s = Ok tt ∧ cs_chain_root_id s = root.

Lemma chain_kind s : validate_state s = Ok tt → cs_schema s = SCHEMA_VERSION ∧ cs_kind s = "chain_state".
Proof.
  unfold validate_state, validate_object_kind. intros Hv. facts Hv. done.
Qed.

Lemma appended_times_exact (log : Log) n n' (s s' : ChainState) t t' :
  (n ≤ n' ≤ length log)%nat →
  parse_canonical_timestamp (cs_updated_at s) = Ok t →
  parse_canonical_timestamp (cs_updated_at s') = Ok t' →
  match times_between log n n' with
  | None => Ok tt
  | Some (oldest, newest) =>
      oldest ← parse_canonical_timestamp oldest ;
      reject (oldest <? t) "new chain events precede the previous ChainState timestamp" ;;
      newest ← parse_canonical_timestamp newest ;
      reject (t' <? newest) "new chain events exceed the successor ChainState timestamp"
  end = Ok tt ↔
  (∀ p, (n < n')%nat → log !! n = Some p → not_later (cs_updated_at s) (ev_ts p.2)) ∧
  (∀ p, (n < n')%nat → last (take n' log) = Some p → not_later (ev_ts p.2) (cs_updated_at s')).
Proof.
  intros Hn Ht Ht'. destruct (decide (n = n')) as [<-|Hne].
  { rewrite times_between_same. split; [|done]. intros _. split; intros; lia. }
  destruct (newest_between log n n') as (a & p & Ha & Hb & ->); [lia|]. rewrite Ha, Hb. split.
  - intros Hok. facts Hok. split; intros ? _ [= <-]; [exists t, x|exists x0, t']; auto.
  - intros [Hold Hnew]. destruct (Hold a ltac:(lia) eq_refl) as (t1 & t2 & Ht1 & Ht2 & Hle2).
    destruct (Hnew p ltac:(lia) eq_refl) as (t3 & t4 & Ht3 & Ht4 & Hle4).
    assert (t1 = t) as -> by congruence. assert (t4 = t') as -> by congruence.
    rewrite Ht2. cbn. rewrite (proj2 (Z.ltb_ge _ _)) by done. cbn. rewrite Ht3. cbn.
    by rewrite (proj2 (Z.ltb_ge _ _)).
Qed.

Lemma transition_exact cas root log h s n h' s' :
  valid_log cas root log → placed cas root log h s n → located cas root h' s' →
  (∀ tid entry, cs_threads s !! tid = Some entry → entry_within log n tid entry) →
  validate_chain_state_transition cas h s s' (positions_of log) = Ok tt ↔
  ∃ n', placed cas root log h' s' n' ∧ transition cas log h s n s' n'.
Proof.
  intros Hlog [Hl Hv Hp Hr Hn Hseq Hhash] (Hl' & Hv' & Hp' & Hr') Hent.
  destruct (chain_kind _ Hv) as [Hsch Hkind], (chain_kind _ Hv') as [Hsch' Hkind'].
  pose proof (λ hash seq times, event_advance_exact cas root log ChainEvents n hash seq times Hlog Hn) as Hadv.
  cbn in Hadv. unfold validate_chain_state_transition.
  rewrite Hsch, Hsch', Hkind, Hkind', Hr, Hr', Hseq, Hhash.
  rewrite Z.eqb_refl, !bool_decide_true by done. cbn [negb orb]. split.
  - intros ([] & Hlink & ([] & _ & Hok)%sch_bind_ok)%sch_bind_ok.
    apply sch_reject_ok, negb_decide_false in Hlink.
    apply sch_bind_ok in Hok as (t & Ht & (t' & Ht' & ([] & Hle & Hok)%sch_bind_ok)%sch_bind_ok).
    apply sch_bind_ok in Hok as (times & (n' & Hn' & Hord & Hh' & ->)%Hadv & Hok).
    apply sch_reject_ok, Z.ltb_ge in Hle.
    apply sch_bind_ok in Hok as ([] & Htimes & ([] & Hkept & Hthreads)%sch_bind_ok).
    rewrite each_btree in Hkept, Hthreads.
    apply (appended_times_exact log n n' s s' t t' ltac:(lia) Ht Ht') in Htimes as [Hold Hnew].
    exists n'. split; [by split; try done; lia|].
    split; [done|lia|by exists t, t'|done|done| |].
    + intros tid [entry He]. specialize (Hkept _ _ He). cbn in Hkept.
      apply sch_reject_ok, bool_decide_eq_false in Hkept. by apply not_eq_None_Some.
    + intros tid entry' He. specialize (Hthreads _ _ He).
      eapply (thread_step_exact cas root); [done|lia|done|by apply Hent|done].
  - intros (n' & [_ _ _ _ Hlen Hseq' Hhash'] & [Hlink Hord (t & t' & Ht & Ht' & Hle) Hold Hnew Hkept Hsteps]).
    rewrite Hlink, bool_decide_true by done. cbn. rewrite Ht. cbn. rewrite Ht'. cbn.
    rewrite (proj2 (Z.ltb_ge _ _)) by done. cbn.
    rewrite (proj2 (Hadv _ _ (times_between log n n'))); [|exists n'; auto]. cbn.
    rewrite (proj2 (appended_times_exact log n n' s s' t t' ltac:(lia) Ht Ht')) by done. cbn.
    apply sch_bind_ok. exists tt. split; apply each_btree.
    { intros tid entry He. apply sch_reject_ok, bool_decide_eq_false, not_eq_None_Some. eauto. }
    intros tid entry' He.
    eapply (thread_step_exact cas root); [done|lia|done|by apply Hent|by apply Hsteps].
Qed.

(** ** The first state *)

Lemma singleton_of_size {A} (m : gmap string A) k v :
  m !! k = Some v → size m = 1%nat → m = {[ k := v ]}.
Proof.
  intros Hk Hs. rewrite <- (insert_delete_id m k v Hk) in Hs |- *.
  rewrite map_size_insert_None in Hs by apply lookup_delete_eq. injection Hs as Hs.
  apply map_size_empty_inv in Hs. by rewrite Hs.
Qed.

(** The first [n] events are all of one thread. *)
Lemma thread_log_all tid (log : Log) : (length log ≤ length (thread_log tid log))%nat → thread_log tid log = log.
Proof.
  induction log as [|p log IH]; [done|].
  change (p :: log) with ([p] ++ log). destruct p as [h e].
  rewrite thread_log_app, thread_log_one. case_decide; cbn.
  - intros Hle. f_equal. apply IH. lia.
  - pose proof (thread_log_length tid log). lia.
Qed.
Lemma thread_log_all_take tid (log : Log) n :
  (n ≤ length log)%nat → (n ≤ length (thread_log tid (take n log)))%nat →
  take n (thread_log tid log) = take n log.
Proof.
  intros Hn Hle. rewrite <- (take_drop n log) at 1. rewrite thread_log_app.
  rewrite (thread_log_all tid (take n log)) by (rewrite length_take; lia).
  rewrite take_app_le by (rewrite length_take; lia). by rewrite take_take, Nat.min_id.
Qed.

Lemma genesis_event cas root log tid h e n :
  valid_log cas root log → (h, e) ∈ log → ev_thread_id e = tid →
  ev_thread_seq e = N.of_nat n → (ev_chain_seq e ≤ N.of_nat n)%N →
  (0 < n ≤ length log)%nat ∧ last (take n log) = Some (h, e) ∧
  last_hash (take n (thread_log tid log)) = Some h ∧
  (n ≤ length (thread_log tid (take n log)))%nat.
Proof.
  intros Hlog Hin Ht Hts Hcs. pose proof Hin as Hin'. apply list_elem_of_lookup in Hin' as [i Hi].
  pose proof (valid_log_lookup _ _ _ _ _ _ Hlog Hi) as Hf.
  pose proof (ef_thread_seq _ _ _ _ _ Hf) as Hfs. rewrite Hts in Hfs.
  rewrite (valid_log_seq _ _ _ _ _ _ Hlog Hi) in Hcs.
  pose proof (thread_log_length (ev_thread_id e) (take i log)) as Hlen.
  pose proof (lookup_lt_Some _ _ _ Hi). rewrite length_take in Hlen.
  assert (n = S i) as -> by lia.
  assert (Htl : (h, e) ∈ thread_log tid log) by by apply thread_log_elem.
  apply list_elem_of_lookup in Htl as [j Hj].
  destruct (thread_log_lookup _ _ _ _ _ _ _ Hlog Hj) as (_ & Hjs & _). assert (j = i) as -> by lia.
  split; [lia|]. split; [by rewrite (take_S_r _ _ _ Hi), last_snoc|].
  split; [by apply (last_hash_take _ _ _ _ Hj)|].
  apply (thread_log_within _ _ _ _ _ _ _ (S i) Hlog Hj). by rewrite (valid_log_seq _ _ _ _ _ _ Hlog Hi).
Qed.

Lemma pair_exact label seq hash :
  validate_hash_sequence_pair label seq hash = Ok tt ↔ (seq = 0%N ↔ hash = None).
Proof.
  unfold validate_hash_sequence_pair. destruct (N.eqb_spec seq 0) as [->|Hne].
  - rewrite sch_reject_ok, bool_decide_eq_false, <- eq_None_not_Some. tauto.
  - rewrite sch_reject_ok, bool_decide_eq_false. tauto.
Qed.
Lemma chain_positions_exact s :
  validate_chain_positions s = Ok tt ↔
  (cs_last_chain_seq s = 0%N ↔ cs_last_event_hash s = None) ∧
  (∃ t, parse_canonical_timestamp (cs_updated_at s) = Ok t) ∧
  ∀ tid entry, cs_threads s !! tid = Some entry →
    (te_last_thread_seq entry = 0%N ↔ te_last_event_hash entry = None) ∧
    (te_last_thread_seq entry ≤ cs_last_chain_seq s)%N.
Proof.
  unfold validate_chain_positions. split.
  - intros ([] & Hp%pair_exact & (t & Ht & Hall)%sch_bind_ok)%sch_bind_ok. rewrite each_btree in Hall.
    split; [done|]. split; [eauto|]. intros tid entry He. specialize (Hall _ _ He). cbn in Hall. facts Hall.
    apply pair_exact in E. done.
  - intros (Hp & [t Ht] & Hall). rewrite (proj2 (pair_exact _ _ _)) by done. cbn. rewrite Ht. cbn.
    apply each_btree. intros tid entry He. destruct (Hall _ _ He) as [Hpair Hle].
    rewrite (proj2 (pair_exact _ _ _)) by done. cbn. by rewrite (proj2 (N.ltb_ge _ _)).
Qed.

Lemma genesis_sound cas root log h s :
  valid_log cas root log → located cas root h s →
  validate_genesis_state cas s (positions_of log) = Ok tt →
  ∃ n entry sn, placed cas root log h s n ∧ genesis cas log s n entry sn.
Proof.
  intros Hlog (Hl & Hv & Hp & Hr) Hok. unfold validate_genesis_state in Hok.
  rewrite sch_bind_ok in Hok. destruct Hok as ([] & Hprev & Hok).
  rewrite sch_bind_ok in Hok. destruct Hok as ([] & Hsize & Hok).
  rewrite sch_bind_ok in Hok. destruct Hok as (entry & He & Hok).
  rewrite sch_bind_ok in Hok. destruct Hok as (sn & Hsn & Hok).
  rewrite sch_bind_ok in Hok. destruct Hok as ([] & Hpub & Hok).
  rewrite sch_bind_ok in Hok. destruct Hok as ([] & Hnew & Hok).
  apply sch_reject_ok, bool_decide_eq_false, eq_None_not_Some in Hprev.
  apply sch_reject_ok, negb_decide_false in Hsize. apply sch_expect_ok in He.
  apply (published_exact cas root) in Hpub; [|done|done].
  pose proof Hp as Hp'. apply chain_positions_exact in Hp' as (Hpair & [t Ht] & Hent).
  destruct (Hent _ _ He) as [Hepair Hele].
  destruct (N.eqb_spec (cs_last_chain_seq s) 0) as [Hz|Hnz].
  - exists O, entry, sn. assert (te_last_thread_seq entry = 0%N) as Hez by lia. split.
    + split; try done; [lia|]. by apply Hpair.
    + split; try done; [by apply singleton_of_size|]. exists O. split; [done|]. split; [|lia]. by apply Hepair.
  - facts Hok. destruct (proj1 (positions_lookup cas root log _ _ Hlog) E1) as (e & Hin & ->). cbn in *.
    exists (N.to_nat (cs_last_chain_seq s)), entry, sn.
    destruct (pb_within _ _ _ _ _ _ Hpub x) as (e' & Hin' & _ & _ & Hcs).
    { rewrite (pb_hash _ _ _ _ _ _ Hpub). destruct E; congruence. }
    assert (e' = e) as ->.
    { apply list_elem_of_lookup in Hin as [i Hi], Hin' as [j Hj].
      by destruct (valid_log_inj _ _ _ _ _ _ _ _ Hlog Hi Hj). }
    rewrite (pb_chain_seq _ _ _ _ _ _ Hpub) in Hcs.
    destruct (genesis_event cas root log (cs_chain_root_id s) x e (N.to_nat (cs_last_chain_seq s)))
      as (Hn & Hlast & Hth & Hle); [done|done|tauto|rewrite N2Nat.id; tauto|by rewrite N2Nat.id|].
    split.
    + split; try done; [lia|by rewrite N2Nat.id|]. unfold last_hash. by rewrite Hlast.
    + split; try done; [by apply singleton_of_size|rewrite N2Nat.id; tauto| |].
      * exists (N.to_nat (cs_last_chain_seq s)). rewrite N2Nat.id. destruct E as [E E0']. split; [done|]. split; [|done]. by rewrite Hth, E0'.
      * intros p Hlast'. rewrite Hlast in Hlast'. injection Hlast' as <-. by exists x2, x1.
Qed.

Lemma genesis_complete cas root log h s n entry sn :
  valid_log cas root log → placed cas root log h s n → genesis cas log s n entry sn →
  validate_genesis_state cas s (positions_of log) = Ok tt.
Proof.
  intros Hlog [Hl Hv Hp Hr Hn Hseq Hhash] [Hprev Hth Hes (k & Hk & Hkh & Hkle) Hpub Hnew Htime].
  unfold validate_genesis_state. rewrite Hprev. cbn. rewrite Hth, map_size_singleton. cbn.
  rewrite lookup_singleton_eq. cbn. rewrite (pb_load _ _ _ _ _ _ Hpub). cbn.
  rewrite (proj2 (published_exact cas root _ _ _ _ _ Hlog (pb_load _ _ _ _ _ _ Hpub))) by done. cbn.
  rewrite Hnew. cbn. assert (k = n) as -> by lia. rewrite Hseq.
  destruct n as [|i]; [by rewrite Hhash|].
  assert (Hall : last_hash (take (S i) (thread_log (cs_chain_root_id s) log)) = last_hash (take (S i) log)).
  { unfold last_hash. by rewrite thread_log_all_take. }
  rewrite (proj2 (N.eqb_neq _ _)) by lia. rewrite Hk, N.eqb_refl, Hkh, Hhash, Hall, bool_decide_true by done.
  cbn [negb orb]. destruct (lookup_lt_is_Some_2 log i) as [[h1 e] Hi]; [lia|].
  rewrite (last_hash_take _ _ _ _ Hi) in *. cbn.
  rewrite (proj2 (positions_lookup cas root log h1 (event_position e) Hlog)); [|exists e; split; [by eapply list_elem_of_lookup_2|done]].
  cbn. destruct (lookup_lt_is_Some_2 (thread_log (cs_chain_root_id s) log) i) as [[h2 e2] Hi2].
  { pose proof (thread_log_take_le (cs_chain_root_id s) (S i) log). lia. }
  rewrite (last_hash_take _ _ _ _ Hi2) in Hall. injection Hall as ->.
  destruct (thread_log_lookup _ _ _ _ _ _ _ Hlog Hi2) as (Ht2 & Hs2 & _).
  apply list_elem_of_lookup_2, thread_log_elem in Hi2 as [_ Hin2].
  apply list_elem_of_lookup in Hin2 as [i2 Hi2].
  destruct (valid_log_inj _ _ _ _ _ _ _ _ Hlog Hi Hi2) as [<- <-].
  rewrite Ht2, Hs2, bool_decide_true, N.eqb_refl by done. cbn [negb orb].
  destruct (Htime (h1, e)) as (t1 & t2 & Ht1 & Ht2' & Hle).
  { by rewrite (take_S_r _ _ _ Hi), last_snoc. }
  cbn in Ht1. rewrite Ht2'. cbn. rewrite Ht1. cbn. by rewrite (proj2 (Z.ltb_ge _ _)).
Qed.

(** ** The walk over the states *)

Inductive ancestry (cas : Cas) (root : string) : list string → string → ChainState → Prop :=
| ancestry_first h s :
    located cas root h s → cs_prev_chain_state_hash s = None → ancestry cas root [h] h s
| ancestry_next hs h s h' s' :
    ancestry cas root hs h s → located cas root h' s' → cs_prev_chain_state_hash s' = Some h →
    ancestry cas root (hs ++ [h']) h' s'.

Lemma ancestry_head cas root hs h s :
  ancestry cas root hs h s → located cas root h s ∧ ∃ older, hs = older ++ [h].
Proof. destruct 1; [by split; [|exists []]|by split; [|eauto]]. Qed.
Lemma ancestry_located cas root hs h s x :
  ancestry cas root hs h s → x ∈ hs → ∃ older s', ancestry cas root (older ++ [x]) x s' ∧ (older ++ [x]) `prefix_of` hs.
Proof.
  induction 1 as [h s Hl Hp|hs h s h' s' Ha IH Hl Hp].
  - intros ->%list_elem_of_singleton. exists [], s. split; [by constructor|done].
  - intros [Hx| ->%list_elem_of_singleton]%elem_of_app.
    + destruct (IH Hx) as (older & s0 & ? & ?). exists older, s0. split; [done|].
      by apply prefix_app_r.
    + exists hs, s'. split; [by econstructor|done].
Qed.
Lemma ancestry_unique cas root hs h s hs' s' :
  ancestry cas root hs h s → ancestry cas root hs' h s' → hs = hs' ∧ s = s'.
Proof.
  intros Ha. revert hs' s'. induction Ha as [h s Hl Hp|hs h0 s0 h s Ha IH Hl Hp]; intros hs' s' Ha'.
  - inversion Ha' as [h' s'' Hl' Hp' E1 E2|hs0 h1 s1 h' s'' Ha1 Hl' Hp' E1 E2]; subst.
    all: destruct Hl as [Hl _], Hl' as [Hl' _]; assert (s' = s) as -> by congruence.
    + done.
    + congruence.
  - inversion Ha' as [h' s'' Hl' Hp' E1 E2|hs1 h1 s1 h' s'' Ha1 Hl' Hp' E1 E2]; subst.
    all: destruct Hl as [Hl _], Hl' as [Hl' _]; assert (s' = s) as -> by congruence.
    { congruence. }
    assert (h1 = h0) as -> by congruence. by destruct (IH _ _ Ha1) as [-> _].
Qed.
Lemma ancestry_NoDup cas root hs h s : ancestry cas root hs h s → NoDup hs.
Proof.
  induction 1 as [h s Hl Hp|hs h s h' s' Ha IH Hl Hp]; [apply NoDup_singleton|].
  apply NoDup_app. split; [done|]. split; [|apply NoDup_singleton].
  intros x Hx ->%list_elem_of_singleton.
  destruct (ancestry_located _ _ _ _ _ _ Ha Hx) as (older & s0 & Ha0 & Hpre).
  assert (Ha' : ancestry cas root (hs ++ [h']) h' s') by by econstructor.
  destruct (ancestry_unique _ _ _ _ _ _ _ Ha0 Ha') as [Heq _].
  apply prefix_length in Hpre. rewrite Heq, length_app in Hpre. cbn in Hpre. lia.
Qed.
Lemma ancestry_stored cas root hs h s : ancestry cas root hs h s → (length hs ≤ size cas)%nat.
Proof.
  intros Ha. apply distinct_stored; [by eapply ancestry_NoDup|]. intros x Hx.
  destruct (ancestry_located _ _ _ _ _ _ Ha Hx) as (older & s0 & Ha0 & _).
  destruct (ancestry_head _ _ _ _ _ Ha0) as [[Hl _] _]. by eapply load_state_stored.
Qed.

Lemma walk_states_sound fuel cas root h visited newer l :
  walk_states fuel cas root h visited newer = Ok l →
  ∃ hs s, ancestry cas root hs h s ∧ l = hs ++ newer.
Proof.
  revert h visited newer. induction fuel as [|fuel IH]; intros h visited newer; cbn [walk_states]; [done|].
  intros Hok. rewrite sch_bind_ok in Hok. destruct Hok as ([] & _ & Hok).
  rewrite sch_bind_ok in Hok. destruct Hok as (s & Hl & Hok).
  rewrite sch_bind_ok in Hok. destruct Hok as ([] & Hv & Hok).
  rewrite sch_bind_ok in Hok. destruct Hok as ([] & Hp & Hok).
  rewrite sch_bind_ok in Hok. destruct Hok as ([] & Hr%sch_reject_ok%negb_decide_false & Hok).
  assert (Hloc : located cas root h s) by done.
  destruct (cs_prev_chain_state_hash s) as [previous|] eqn:Hprev.
  - destruct (IH _ _ _ Hok) as (hs & s0 & Ha & ->). exists (hs ++ [h]), s.
    split; [by econstructor|]. by rewrite <- app_assoc.
  - injection Hok as <-. exists [h], s. split; [by constructor|done].
Qed.

Lemma walk_states_complete cas root hs h s fuel visited newer :
  ancestry cas root hs h s → (length hs ≤ fuel)%nat → (∀ x, x ∈ hs → x ∉ visited) →
  walk_states fuel cas root h visited newer = Ok (hs ++ newer).
Proof.
  intros Ha. revert fuel visited newer. induction Ha as [h s Hl Hp|hs h0 s0 h s Ha IH Hl Hp];
    intros fuel visited newer Hfuel Hvis; rewrite ?length_app in Hfuel; cbn in Hfuel.
  all: destruct fuel as [|fuel]; [lia|]; destruct (Hl) as (El & Ev & Ep & Er); cbn [walk_states].
  all: rewrite bool_decide_false by (apply Hvis; set_solver); cbn.
  all: rewrite El; cbn; rewrite Ev; cbn; rewrite Ep; cbn; rewrite bool_decide_true by done; cbn; rewrite Hp.
  - done.
  - rewrite IH; [by rewrite <- app_assoc|lia|]. intros x Hx. apply not_elem_of_union. split; [|set_solver].
    intros ->%elem_of_singleton. assert (Ha' : ancestry cas root (hs ++ [h]) h s) by by econstructor.
    apply ancestry_NoDup, NoDup_app in Ha' as (_ & Hd & _). apply (Hd h Hx). by left.
Qed.

(** ** Whole histories *)

Lemma placed_located cas root log h s n : placed cas root log h s n → located cas root h s.
Proof. by intros []. Qed.
Lemma states_head cas root log hs h s n :
  states cas root log hs h s n → placed cas root log h s n ∧
  ∀ tid entry, cs_threads s !! tid = Some entry → entry_within log n tid entry.
Proof.
  destruct 1 as [h s n entry sn Hpl Hgn|hs h s n h' s' n' Hst Hpl Htr]; (split; [done|]).
  - intros tid entry'. destruct Hgn. rewrite gn_threads. intros [<- <-]%lookup_singleton_Some. done.
  - intros tid entry' He. by destruct (tr_threads _ _ _ _ _ _ _ Htr _ _ He).
Qed.
Lemma states_ancestry cas root log hs h s n : states cas root log hs h s n → ancestry cas root hs h s.
Proof.
  induction 1 as [h s n entry sn Hpl Hgn|hs h s n h' s' n' Hst IH Hpl Htr].
  - constructor; [by eapply placed_located|by destruct Hgn].
  - econstructor; [done|by eapply placed_located|by destruct Htr].
Qed.

Lemma transitions_sound cas root log hs h s n later :
  valid_log cas root log → states cas root log hs h s n →
  (∀ x, x ∈ later → ∃ s', located cas root x s') →
  validate_transitions cas (positions_of log) h s later = Ok tt →
  ∃ h' s' n', states cas root log (hs ++ later) h' s' n' ∧ last (h :: later) = Some h'.
Proof.
  intros Hlog. revert hs h s n. induction later as [|x later IH]; intros hs h s n Hst Hloc Hok.
  - exists h, s, n. by rewrite app_nil_r.
  - cbn in Hok. rewrite sch_bind_ok in Hok. destruct Hok as (s' & Hl & ([] & Htr & Hok)%sch_bind_ok).
    destruct (Hloc x) as (s0 & Hloc0); [by left|]. assert (s0 = s') as -> by (destruct Hloc0; congruence).
    destruct (states_head _ _ _ _ _ _ _ Hst) as [Hpl Hent].
    apply (transition_exact cas root log h s n x s') in Htr as (n' & Hpl' & Htr); [|done..].
    destruct (IH (hs ++ [x]) x s' n') as (h' & s1 & n1 & Hst' & Hlast).
    + by econstructor.
    + intros y Hy. apply Hloc. by right.
    + done.
    + exists h', s1, n1. split; [by rewrite <- app_assoc in Hst'|done].
Qed.

Lemma transitions_complete cas root log hs h s n :
  valid_log cas root log → states cas root log hs h s n →
  ∃ g sg later, hs = g :: later ∧ load_hashed_chain_state cas g = Ok sg ∧
    validate_genesis_state cas sg (positions_of log) = Ok tt ∧
    ∀ rest, validate_transitions cas (positions_of log) g sg (later ++ rest) =
            validate_transitions cas (positions_of log) h s rest.
Proof.
  intros Hlog. induction 1 as [h s n entry sn Hpl Hgn|hs h s n h' s' n' Hst IH Hpl Htr].
  - exists h, s, []. split; [done|]. split; [by destruct Hpl|]. split; [|done].
    by eapply (genesis_complete cas root).
  - destruct IH as (g & sg & later & -> & Hl & Hg & Hrest). exists g, sg, (later ++ [h']).
    split; [done|]. split; [done|]. split; [done|]. intros rest. rewrite <- app_assoc, Hrest. cbn.
    rewrite (pl_load _ _ _ _ _ _ Hpl). cbn. destruct (states_head _ _ _ _ _ _ _ Hst) as [Hpl0 Hent].
    rewrite (proj2 (transition_exact cas root log h s n h' s' Hlog Hpl0 (placed_located _ _ _ _ _ _ Hpl) Hent));
      [done|eauto].
Qed.

Lemma history_sound cas root h ancestor :
  validate_authoritative_history cas root h ancestor = Ok tt →
  ∃ log hs s, history cas root h log hs s ∧ ∀ a, ancestor = Some a → a ∈ hs.
Proof.
  unfold validate_authoritative_history. remember (S (size cas)) as fuel eqn:Hfuel.
  intros Hok. rewrite sch_bind_ok in Hok. destruct Hok as (target & Hl & Hok).
  rewrite sch_bind_ok in Hok. destruct Hok as ([] & Hr%sch_reject_ok%negb_decide_false & Hok).
  rewrite sch_bind_ok in Hok. destruct Hok as (positions & Hcl & Hok).
  apply closure_exact in Hcl as (Hv & Hp & log & Hlog & Hclosure & ->). rewrite Hr in Hlog.
  rewrite sch_bind_ok in Hok. destruct Hok as (l & Hwalk & Hok).
  apply walk_states_sound in Hwalk as (hs & s & Ha & ->). rewrite app_nil_r in Hok.
  rewrite sch_bind_ok in Hok. destruct Hok as ([] & Hanc & Hok).
  destruct (ancestry_head _ _ _ _ _ Ha) as [Hloc [older Holder]].
  assert (s = target) as -> by (destruct Hloc; congruence).
  destruct hs as [|g later]; [by destruct older|].
  rewrite sch_bind_ok in Hok. destruct Hok as (sg & Hlg & ([] & Hg & Htr)%sch_bind_ok).
  assert (Hlocs : ∀ x, x ∈ g :: later → ∃ s', located cas root x s').
  { intros x Hx. destruct (ancestry_located _ _ _ _ _ _ Ha Hx) as (o & s0 & Ha0 & _).
    destruct (ancestry_head _ _ _ _ _ Ha0) as [? _]. eauto. }
  destruct (Hlocs g) as (s0 & Hloc0); [by left|]. assert (s0 = sg) as -> by (destruct Hloc0; congruence).
  apply (genesis_sound cas root log g) in Hg as (n & entry & sn & Hpl & Hgn); [|done|done].
  destruct (transitions_sound cas root log [g] g sg n later) as (h' & s' & n' & Hst & Hlast);
    [done|by econstructor|intros; apply Hlocs; by right|done|].
  rewrite Holder, last_snoc in Hlast. injection Hlast as <-.
  destruct (states_head _ _ _ _ _ _ _ Hst) as [Hpl' _].
  assert (s' = target) as -> by (destruct Hpl'; congruence).
  assert (n' = length log) as -> by (destruct Hpl', Hclosure; lia).
  exists log, (g :: later), target. split; [by split|].
  intros a ->. by apply sch_reject_ok, negb_decide_false in Hanc.
Qed.

Lemma history_accepted cas root h log hs s ancestor :
  history cas root h log hs s → (∀ a, ancestor = Some a → a ∈ hs) →
  validate_authoritative_history cas root h ancestor = Ok tt.
Proof.
  unfold validate_authoritative_history. remember (S (size cas)) as fuel eqn:Hfuel.
  intros [Hlog Hst Hcl] Hanc.
  destruct (states_head _ _ _ _ _ _ _ Hst) as [[Hl Hv Hp Hr _ _ _] _].
  rewrite Hl. cbn. rewrite bool_decide_true by done. cbn.
  rewrite (proj2 (closure_exact cas s (positions_of log))); [|rewrite Hr; eauto 8]. cbn.
  pose proof (states_ancestry _ _ _ _ _ _ _ Hst) as Ha.
  rewrite (walk_states_complete _ _ _ _ _ _ _ _ Ha);
    [|pose proof (ancestry_stored _ _ _ _ _ Ha); lia|intros; apply not_elem_of_empty].
  cbn. rewrite app_nil_r.
  destruct (transitions_complete _ _ _ _ _ _ _ Hlog Hst) as (g & sg & later & -> & Hlg & Hg & Hrest).
  specialize (Hrest []). rewrite app_nil_r in Hrest.
  rewrite Hlg. cbn. rewrite Hg. cbn. rewrite Hrest.
  destruct ancestor as [a|]; [|done]. by rewrite bool_decide_true by auto.
Qed.

(** C6. The validator of a chain accepts a head exactly when the store holds
    a history of the specification that ends in it: a log of events linked
    along the chain and along every thread, in order of time, and the states
    that were the head one after the other, each a transition of the one
    before it, from a first state that holds the root thread only, with the
    expected ancestor among them. *)
Theorem history_exact cas root h ancestor :
  validate_authoritative_history cas root h ancestor = Ok tt ↔
  ∃ log hs s, history cas root h log hs s ∧ ∀ a, ancestor = Some a → a ∈ hs.
Proof.
  split; [apply history_sound|]. intros (log & hs & s & Hh & Ha). by eapply history_accepted.
Qed.

End validation.
