(* ===== verification/ChainTotality.v ===== *)
(** * The validator returns

    On every store, also on one that was tampered with or is incomplete,
    [validate_authoritative_history] returns: its walks stop within their
    fuel, because they visit an object at most once, and what fails is an
    error value, never an [expect] or a sequence number below zero. *)

From stdpp Require Import sorting.
From S2P Require Import Prelude Float64 Json CanonicalRef Schedule ScheduleSpec.
From S2P Require Import CasStore ChainObjects ChainValidation Chain ChainHistory ChainValidationCorrect.

(** A result whose failures are error values. *)
Definition regular {A} (r : Sch A) : Prop := ∀ fault, r = Err fault → ∃ chain, fault = Error chain.

Lemma regular_ok {A} (a : A) : regular (Ok a).
Proof. by intros fault. Qed.
Lemma regular_bail {A} message : regular (bail message : Sch A).
Proof. intros fault [= <-]. eauto. Qed.
Lemma regular_reject bad message : regular (reject bad message).
Proof. destruct bad; [apply regular_bail|apply regular_ok]. Qed.
Lemma regular_some_or {A} (o : option A) message : regular (some_or o message).
Proof. destruct o; [apply regular_ok|apply regular_bail]. Qed.
Lemma regular_bind {A B} (r : Sch A) (f : A → Sch B) :
  regular r → (∀ a, r = Ok a → regular (f a)) → regular (r ≫= f).
Proof.
  intros Hr Hf. destruct r as [a|e]; [by apply Hf|]. intros fault [= <-]. by apply Hr.
Qed.
Lemma regular_each {A} (f : A → Sch unit) l : (∀ x, regular (f x)) → regular (each f l).
Proof.
  intros Hf. induction l as [|x l IH]; [apply regular_ok|]. cbn. by apply regular_bind.
Qed.
Lemma regular_each_from {A B} (f : B → A → Sch B) l acc :
  (∀ acc x, regular (f acc x)) → regular (each_from f acc l).
Proof.
  intros Hf. revert acc. induction l as [|x l IH]; intros acc; [apply regular_ok|]. cbn. by apply regular_bind.
Qed.
Lemma regular_sorted check message names previous :
  (∀ name, regular (check name)) → regular (validate_sorted check message previous names).
Proof.
  intros Hc. revert previous. induction names as [|name names IH]; intros previous; [apply regular_ok|]. cbn.
  apply regular_bind; [done|]. intros _ _. apply regular_bind; [apply regular_reject|auto].
Qed.

Create HintDb regular.
#[export] Hint Resolve regular_ok regular_bail regular_reject regular_some_or : regular.

(** Follows the binds and the matches of a check. *)
Ltac regular :=
  repeat first
    [ progress intros
    | solve [eauto 2 with regular]
    | apply regular_bind
    | apply regular_each
    | apply regular_each_from
    | apply regular_sorted
    | case_match ].

Section totality.
Context `{Externals} `{Sha256} `{JsonReader} `{UnicodeTables} `{NaiveDateTime}.
Context `{Wire ThreadEvent} `{Wire ThreadSnapshot} `{Wire ChainState}.

Lemma regular_timestamp value : regular (parse_canonical_timestamp value).
Proof. unfold parse_canonical_timestamp. regular. Qed.
Lemma regular_optional_timestamp value : regular (parse_optional_timestamp value).
Proof. pose proof regular_timestamp. unfold parse_optional_timestamp. regular. Qed.
Lemma regular_trimmed label value allow : regular (validate_trimmed_control_free label value allow).
Proof. unfold validate_trimmed_control_free. regular. Qed.
Lemma regular_hash label value : regular (validate_canonical_hash label value).
Proof. unfold validate_canonical_hash. regular. Qed.
Lemma regular_optional_hash label value : regular (validate_optional_canonical_hash label value).
Proof. pose proof regular_hash. unfold validate_optional_canonical_hash. regular. Qed.
Hint Resolve regular_timestamp regular_optional_timestamp regular_trimmed regular_hash
  regular_optional_hash : regular.
Lemma regular_environment environment backed : regular (validate_environment environment backed).
Proof. unfold validate_environment, validate_name_authority, validate_allowed_names. regular. Qed.
Hint Resolve regular_environment : regular.
Lemma regular_authority authority : regular (validate_project_authority authority).
Proof.
  unfold validate_project_authority, validate_live_access, validate_sorted_relative_paths,
    validate_capability_ceiling, validate_hash, validate_absolute_normal_path. regular.
Qed.
Lemma regular_node_policy policy : regular (validate_node_policy policy).
Proof. unfold validate_node_policy. regular. Qed.
Hint Resolve regular_authority regular_node_policy : regular.
Lemma regular_history_policy policy : regular (validate_history_policy policy).
Proof.
  unfold validate_history_policy, validate_retention, validate_canonical_item_ref, validate_provenance.
  regular.
Qed.
Hint Resolve regular_history_policy : regular.
Lemma regular_snapshot s : regular (validate_snapshot s).
Proof.
  unfold validate_snapshot, validate_snapshot_identity, validate_snapshot_authority,
    validate_snapshot_times, validate_usage, validate_object_kind. regular.
Qed.
Lemma regular_event e : regular (validate_event e).
Proof. unfold validate_event, validate_object_kind. regular. Qed.
Lemma regular_state s : regular (validate_state s).
Proof. unfold validate_state, validate_object_kind, validate_entry. regular. Qed.
Lemma regular_pair label seq hash : regular (validate_hash_sequence_pair label seq hash).
Proof. unfold validate_hash_sequence_pair. regular. Qed.
Hint Resolve regular_snapshot regular_event regular_state regular_pair : regular.
Lemma regular_positions s : regular (validate_chain_positions s).
Proof. unfold validate_chain_positions. regular. Qed.
Lemma regular_get_object cas h : regular (get_object cas h).
Proof. unfold get_object, read_verified_entry. regular. Qed.
Hint Resolve regular_positions regular_get_object : regular.
Lemma regular_load_state cas h : regular (load_hashed_chain_state cas h).
Proof. unfold load_hashed_chain_state, not_canonical. regular. Qed.
Lemma regular_load_event cas h : regular (load_hashed_event cas h).
Proof. unfold load_hashed_event, not_canonical. regular. Qed.
Lemma regular_load_snapshot cas h : regular (load_hashed_snapshot cas h).
Proof. unfold load_hashed_snapshot, from_current_value, not_canonical. regular. Qed.
Lemma regular_stored state tid entry s : regular (validate_stored_snapshot state tid entry s).
Proof. unfold validate_stored_snapshot. regular. Qed.
Hint Resolve regular_load_state regular_load_event regular_load_snapshot regular_stored : regular.
Lemma regular_load_thread cas state t acc thread : regular (load_thread cas state t acc thread).
Proof. unfold load_thread. regular. Qed.
Lemma regular_link label seq pred : regular (validate_predecessor_link label seq pred).
Proof. unfold validate_predecessor_link. regular. Qed.
Lemma regular_published state tid entry s events :
  regular (validate_published_snapshot state tid entry s events).
Proof. unfold validate_published_snapshot, validate_snapshot_event_position. regular. Qed.
Lemma regular_identity previous next : regular (validate_snapshot_transition_identity previous next).
Proof. unfold validate_snapshot_transition_identity, immutable, validate_status_transition. regular. Qed.
Lemma regular_new s source : regular (validate_new_thread_snapshot s source).
Proof. unfold validate_new_thread_snapshot, validate_new_thread_project_snapshots. regular. Qed.
Hint Resolve regular_load_thread regular_link regular_published regular_identity regular_new : regular.

(** ** The walks *)

Lemma regular_decrement n : (0 < n)%N → regular (decrement n).
Proof. intros Hn. unfold decrement. rewrite (proj2 (N.eqb_neq _ _)) by lia. apply regular_ok. Qed.
Lemma regular_expect {A} (o : option A) : is_Some o → regular (expect o).
Proof. intros [a ->]. apply regular_ok. Qed.

Lemma regular_walk_event cas state w : (0 < wk_expected_sequence w)%N → regular (walk_event cas state w).
Proof.
  intros Hpos. unfold walk_event. regular; apply regular_decrement; [done|].
  repeat match goal with E : reject _ _ = Ok _ |- _ => apply sch_reject_ok in E end.
  repeat match goal with a : unit |- _ => destruct a end.
  match goal with E : validate_predecessor_link "thread event" _ _ = _ |- _ =>
    apply predecessor_link_exact in E end.
  match goal with E : negb (ev_thread_seq _ =? _)%N = false |- _ => apply negb_eqb_false in E end. lia.
Qed.

Lemma visited_fewer (cas : Cas) (visited : gset string) :
  visited ⊆ dom cas → (size visited ≤ size cas)%nat.
Proof.
  intros Hsub. transitivity (size (dom cas : gset string)); [by apply subseteq_size|].
  by rewrite (size_dom (cas : gmap string string)).
Qed.
Lemma visit_size (visited : gset string) h :
  h ∉ visited → size ({[h]} ∪ visited) = S (size visited).
Proof. intros Hh. rewrite size_union by set_solver. by rewrite size_singleton. Qed.

Lemma regular_walk_events fuel cas state w :
  wk_visited w ⊆ dom cas → (size cas < fuel + size (wk_visited w))%nat →
  regular (walk_events fuel cas state w).
Proof.
  revert w. induction fuel as [|fuel IH]; intros w Hsub Hsize; cbn [walk_events].
  - pose proof (visited_fewer _ _ Hsub). lia.
  - destruct (N.ltb_spec 0 (wk_expected_sequence w)) as [Hpos|]; [|apply regular_ok].
    apply regular_bind; [by apply regular_walk_event|].
    intros w' (h & e & t & [] & ->)%walk_event_exact; [|done]. apply IH; cbn.
    + apply union_subseteq. split; [|done]. apply singleton_subseteq_l. by eapply load_event_stored.
    + rewrite visit_size by done. lia.
Qed.

Lemma regular_walk_states fuel cas root h visited newer :
  visited ⊆ dom cas → (size cas < fuel + size visited)%nat →
  regular (walk_states fuel cas root h visited newer).
Proof.
  revert h visited newer. induction fuel as [|fuel IH]; intros h visited newer Hsub Hsize; cbn [walk_states].
  - pose proof (visited_fewer _ _ Hsub). lia.
  - apply regular_bind; [apply regular_reject|].
    intros [] Hnew%sch_reject_ok%bool_decide_eq_false.
    apply regular_bind; [apply regular_load_state|]. intros s Hl. regular.
    apply IH.
    + apply union_subseteq. split; [|done]. apply singleton_subseteq_l. by eapply load_state_stored.
    + rewrite visit_size by done. lia.
Qed.

(** ** Transitions *)

Lemma regular_advance_steps steps events hist seq hash newest oldest :
  regular (advance_steps steps events hist seq hash newest oldest).
Proof.
  revert seq hash newest oldest. induction steps as [|steps IH]; intros; [apply regular_ok|].
  cbn [advance_steps]. unfold history_link. regular; apply IH.
Qed.
Lemma advance_steps_times steps events hist seq hash newest oldest r :
  (0 < steps)%nat ∨ is_Some newest ∧ is_Some oldest →
  advance_steps steps events hist seq hash newest oldest = Ok r → is_Some r.1.2 ∧ is_Some r.2.
Proof.
  revert seq hash newest oldest. induction steps as [|steps IH]; intros seq hash newest oldest Hor; cbn [advance_steps].
  - intros [= <-]. destruct Hor; [lia|done].
  - intros Hok. facts Hok. destruct x1 as [s p]. facts Hok. apply IH in Hok; [done|].
    right. destruct newest; eauto.
Qed.
Lemma regular_event_advance events hist h1 s1 h2 s2 :
  regular (validate_event_advance events hist h1 s1 h2 s2).
Proof.
  unfold validate_event_advance. apply regular_bind; [apply regular_reject|].
  intros [] Hle%sch_reject_ok%N.ltb_ge. destruct (N.eqb_spec s2 s1); [regular|].
  apply regular_bind; [apply regular_advance_steps|]. intros [[hash newest] oldest] Hr.
  apply advance_steps_times in Hr as [Hn Ho]; [|left; lia].
  regular; by apply regular_expect.
Qed.
Hint Resolve regular_event_advance : regular.

Lemma regular_thread_transition cas previous next events times thread :
  regular (validate_thread_transition cas previous next events times thread).
Proof.
  unfold validate_thread_transition, validate_entry_event_position, validate_historical_snapshot_transition.
  regular.
Qed.
Hint Resolve regular_thread_transition : regular.
Lemma regular_transition cas h previous next events :
  regular (validate_chain_state_transition cas h previous next events).
Proof. unfold validate_chain_state_transition. regular. Qed.
Hint Resolve regular_transition : regular.
Lemma regular_transitions cas events h s later : regular (validate_transitions cas events h s later).
Proof. revert h s. induction later as [|h' later IH]; intros h s; cbn; regular. Qed.

Lemma regular_genesis cas s events :
  validate_state s = Ok tt → validate_chain_positions s = Ok tt →
  regular (validate_genesis_state cas s events).
Proof.
  intros Hv (Hpair & _)%chain_positions_exact. unfold validate_state in Hv. facts Hv.
  unfold validate_genesis_state.
  apply regular_bind; [apply regular_reject|]. intros _ _.
  apply regular_bind; [apply regular_reject|]. intros _ _.
  apply regular_bind; [by apply regular_expect|]. intros entry _.
  apply regular_bind; [apply regular_load_snapshot|]. intros sn _.
  apply regular_bind; [apply regular_published|]. intros [] Hpub.
  apply regular_bind; [apply regular_new|]. intros _ _.
  destruct (N.eqb_spec (cs_last_chain_seq s) 0) as [|Hnz]; [regular|].
  apply regular_bind; [apply regular_reject|]. intros [] Hsame. facts Hsame.
  apply regular_bind; [apply regular_expect, not_eq_None_Some; tauto|]. intros last_hash Hlast%sch_expect_ok.
  apply regular_bind.
  - apply regular_expect. unfold validate_published_snapshot, validate_snapshot_event_position in Hpub.
    facts Hpub.
    destruct E8 as [_ Hsn]. rewrite Hsn, Hsame, Hlast in Hpub. facts Hpub. eauto.
  - regular.
Qed.

Lemma regular_closure cas state : regular (validate_authoritative_closure cas state).
Proof.
  unfold validate_authoritative_closure, check_snapshot_position. remember (S (size cas)) as fuel eqn:Hfuel.
  regular. apply regular_walk_events; cbn; [apply empty_subseteq|]. rewrite size_empty. lia.
Qed.
Hint Resolve regular_closure regular_transitions : regular.

(** C14. The validator of a chain returns on every store and every head: it
    accepts, or reports an error.  Its walks over events and states end on
    every store, also on one whose links form a cycle, and none of its
    [expect]s and decrements can panic. *)
Theorem validation_total cas root h ancestor :
  validate_authoritative_history cas root h ancestor = Ok tt ∨
  ∃ chain, validate_authoritative_history cas root h ancestor = Err (Error chain).
Proof.
  assert (regular (validate_authoritative_history cas root h ancestor)) as Hreg.
  2: { destruct (validate_authoritative_history cas root h ancestor) as [[]|fault]; [by left|right].
       destruct (Hreg _ eq_refl) as [chain ->]. eauto. }
  unfold validate_authoritative_history. remember (S (size cas)) as fuel eqn:Hfuel.
  apply regular_bind; [apply regular_load_state|]. intros target _.
  apply regular_bind; [apply regular_reject|]. intros _ _.
  apply regular_bind; [apply regular_closure|]. intros positions _.
  apply regular_bind.
  { apply regular_walk_states; [apply empty_subseteq|]. rewrite size_empty. lia. }
  intros l (hs & s & Ha & ->)%walk_states_sound. rewrite app_nil_r.
  apply regular_bind; [regular|]. intros _ _. destruct hs as [|g later]; [regular|].
  apply regular_bind; [apply regular_load_state|]. intros sg Hl.
  destruct (ancestry_located _ _ _ _ _ g Ha ltac:(by left)) as (older & sg' & Ha' & _).
  destruct (ancestry_head _ _ _ _ _ Ha') as [(Hl' & Hv & Hp & _) _].
  assert (sg' = sg) as -> by congruence.
  apply regular_bind; [by apply regular_genesis|]. intros _ _. regular.
Qed.

End totality.
