(* ===== verification/ChainGrowth.v ===== *)
(** * How histories grow

    A history stays one when objects are added to the store and events to
    its log, and a successor of its head makes a longer history of it.  With
    what the store returns for the objects written to it. *)

From stdpp Require Import sorting.
From S2P Require Import Prelude Float64 Json CanonicalRef Schedule ScheduleSpec.
From S2P Require Import CasStore ChainObjects ChainValidation Chain ChainHistory ChainValidationCorrect.

Section growth.
Context `{Externals} `{Sha256} `{JsonReader} `{UnicodeTables} `{NaiveDateTime}.
Context `{Wire ThreadEvent} `{Wire ThreadSnapshot} `{Wire ChainState}.

(** ** Stores that grow *)

Lemma get_object_grows (cas cas' : Cas) h v :
  cas ⊆ cas' → get_object cas h = Ok (Some v) → get_object cas' h = Ok (Some v).
Proof.
  unfold get_object. intros Hsub. destruct (negb _); [done|].
  destruct (cas !! h) as [file|] eqn:E; [|done].
  assert (cas' !! h = Some file) as -> by exact (lookup_weaken _ _ _ _ E Hsub). done.
Qed.
Lemma load_event_grows (cas cas' : Cas) h e :
  cas ⊆ cas' → load_hashed_event cas h = Ok e → load_hashed_event cas' h = Ok e.
Proof.
  unfold load_hashed_event. intros Hsub Hl. facts Hl. subst. rewrite (get_object_grows _ _ _ _ Hsub E). cbn.
  rewrite E1. cbn. by rewrite E2.
Qed.
Lemma load_snapshot_grows (cas cas' : Cas) h e :
  cas ⊆ cas' → load_hashed_snapshot cas h = Ok e → load_hashed_snapshot cas' h = Ok e.
Proof.
  unfold load_hashed_snapshot. intros Hsub Hl. facts Hl. subst. rewrite (get_object_grows _ _ _ _ Hsub E). cbn.
  rewrite E1. cbn. by rewrite E2.
Qed.
Lemma load_state_grows (cas cas' : Cas) h e :
  cas ⊆ cas' → load_hashed_chain_state cas h = Ok e → load_hashed_chain_state cas' h = Ok e.
Proof.
  unfold load_hashed_chain_state. intros Hsub Hl. facts Hl. subst. rewrite (get_object_grows _ _ _ _ Hsub E). cbn.
  rewrite E1. cbn. by rewrite E2.
Qed.

Lemma valid_log_grows cas cas' root log : cas ⊆ cas' → valid_log cas root log → valid_log cas' root log.
Proof.
  intros Hsub. induction 1 as [|log h e Hlog IH []]; constructor; [done|].
  split; try done. by eapply load_event_grows.
Qed.

(** ** Logs that grow *)

Lemma snapshot_within_grows log new s : snapshot_within log s → snapshot_within (log ++ new) s.
Proof.
  intros Hw h Hh. destruct (Hw h Hh) as (e & He & Hr). exists e. split; [|done]. apply elem_of_app. by left.
Qed.
Lemma published_grows cas cas' log new state tid entry s :
  cas ⊆ cas' → published cas log state tid entry s → published cas' (log ++ new) state tid entry s.
Proof.
  intros Hsub []. split; try done; [by eapply load_snapshot_grows|by apply snapshot_within_grows].
Qed.
Lemma thread_log_take_app tid (log new : Log) k :
  (k ≤ length (thread_log tid log))%nat →
  take k (thread_log tid (log ++ new)) = take k (thread_log tid log).
Proof. intros Hk. rewrite thread_log_app. by apply take_app_le. Qed.
Lemma entry_within_grows log new n tid entry :
  (n ≤ length log)%nat → entry_within log n tid entry → entry_within (log ++ new) n tid entry.
Proof.
  intros Hn (k & Hk & Hh & Hle). exists k. pose proof (thread_log_take_le tid n log).
  rewrite thread_log_take_app by lia. rewrite take_app_le by done. done.
Qed.
Lemma placed_grows cas cas' root log new h s n :
  cas ⊆ cas' → placed cas root log h s n → placed cas' root (log ++ new) h s n.
Proof.
  intros Hsub []. split; try done; [by eapply load_state_grows|rewrite length_app; lia|by rewrite take_app_le].
Qed.
Lemma genesis_grows cas cas' log new s n entry sn :
  cas ⊆ cas' → (n ≤ length log)%nat → genesis cas log s n entry sn → genesis cas' (log ++ new) s n entry sn.
Proof.
  intros Hsub Hn []. split; try done; [by apply entry_within_grows|by eapply published_grows|by rewrite take_app_le].
Qed.
Lemma thread_step_grows cas cas' log new s n s' n' tid entry' :
  cas ⊆ cas' → (n' ≤ length log)%nat →
  thread_step cas log s n s' n' tid entry' → thread_step cas' (log ++ new) s n s' n' tid entry'.
Proof.
  intros Hsub Hn [Hew Hcase]. split; [by apply entry_within_grows|].
  destruct (cs_threads s !! tid) as [entry|].
  - destruct Hcase as [Hord [Hkeep|(Hne & p & sn & sn' & Hnn & Hp & Hl & Hpb & Htr)]]; (split; [done|]); [by left|right].
    split; [done|]. exists p, sn, sn'. rewrite take_app_le by done.
    split; [done|]. split; [done|]. split; [by eapply load_snapshot_grows|]. split; [by eapply published_grows|done].
  - destruct Hcase as (sn & Hpb & Hnew). exists sn. split; [by eapply published_grows|done].
Qed.
Lemma transition_grows cas cas' log new h s n s' n' :
  cas ⊆ cas' → (n ≤ n' ≤ length log)%nat →
  transition cas log h s n s' n' → transition cas' (log ++ new) h s n s' n'.
Proof.
  intros Hsub Hn []. split; try done.
  - intros p Hlt Hp. apply tr_oldest; [done|]. rewrite <- Hp. symmetry. apply lookup_app_l. lia.
  - intros p Hlt Hp. apply tr_newest; [done|]. by rewrite take_app_le in Hp by lia.
  - intros tid entry' He. apply (thread_step_grows cas); [done|lia|]. by apply tr_threads.
Qed.
Lemma states_grow cas cas' root log new hs h s n :
  cas ⊆ cas' → states cas root log hs h s n → states cas' root (log ++ new) hs h s n.
Proof.
  intros Hsub. induction 1 as [h s n entry sn Hpl Hgn|hs h s n h' s' n' Hst IH Hpl Htr].
  - econstructor; [by eapply placed_grows|eapply genesis_grows; [done|by destruct Hpl|done]].
  - econstructor; [done|by eapply placed_grows|]. eapply transition_grows; [done| |done].
    destruct Hpl, Htr. lia.
Qed.

Lemma history_grows cas cas' root h log hs s :
  cas ⊆ cas' → history cas root h log hs s → history cas' root h log hs s.
Proof.
  intros Hsub [Hlog Hst Hcl]. split; [by eapply valid_log_grows| |].
  - rewrite <- (app_nil_r log) at 1. by eapply states_grow.
  - destruct Hcl. split; try done. intros tid entry He.
    destruct (hc_snapshot _ _ He) as (sn & Hl & Hr). exists sn. split; [by eapply load_snapshot_grows|done].
Qed.

(** ** Successors of a head *)

Lemma not_later_trans a b c : not_later a b → not_later b c → not_later a c.
Proof.
  intros (ta & tb & Ha & Hb & Hab) (tb' & tc & Hb' & Hc & Hbc). assert (tb' = tb) as -> by congruence.
  exists ta, tc. split; [done|]. split; [done|]. lia.
Qed.
Lemma not_later_canonical a b : not_later a b →
  (∃ t, parse_canonical_timestamp a = Ok t) ∧ ∃ t, parse_canonical_timestamp b = Ok t.
Proof. intros (ta & tb & Ha & Hb & _). eauto. Qed.

(** Where the entry of a thread in a successor comes from. *)
Definition origin (cas : Cas) (log new : Log) (s s' : ChainState) (tid : string)
    (entry' : ChainThreadEntry) : Prop :=
  match cs_threads s !! tid with
  | Some entry =>
      te_snapshot_hash entry' = te_snapshot_hash entry ∧ te_status entry' = te_status entry ∨
      ∃ p sn sn', last new = Some p ∧
        load_hashed_snapshot cas (te_snapshot_hash entry) = Ok sn ∧
        published cas (log ++ new) s' tid entry' sn' ∧
        validate_historical_snapshot_transition sn sn' (Some (ev_ts p.2)) = Ok tt
  | None =>
      ∃ sn, published cas (log ++ new) s' tid entry' sn ∧ validate_new_thread_snapshot sn None = Ok tt
  end.

Record successor (cas : Cas) (root h : string) (log new : Log) (s s' : ChainState) : Prop := {
  su_valid : validate_state s' = Ok tt;
  su_root : cs_chain_root_id s' = root;
  su_prev : cs_prev_chain_state_hash s' = Some h;
  su_seq : cs_last_chain_seq s' = N.of_nat (length (log ++ new));
  su_hash : cs_last_event_hash s' = last_hash (log ++ new);
  su_time : not_later (cs_updated_at s) (cs_updated_at s');
  su_first : ∀ p, head new = Some p → not_later (cs_updated_at s) (ev_ts p.2);
  su_last : ∀ p, last new = Some p → not_later (ev_ts p.2) (cs_updated_at s');
  su_kept : ∀ tid, is_Some (cs_threads s !! tid) → is_Some (cs_threads s' !! tid);
  su_owned : ∀ p, p ∈ new → is_Some (cs_threads s' !! ev_thread_id p.2);
  su_entry : ∀ tid entry', cs_threads s' !! tid = Some entry' →
    te_last_thread_seq entry' = N.of_nat (length (thread_log tid (log ++ new))) ∧
    te_last_event_hash entry' = last_hash (thread_log tid (log ++ new)) ∧
    origin cas log new s s' tid entry';
}.

Lemma covering_positions log s :
  (∃ t, parse_canonical_timestamp (cs_updated_at s) = Ok t) →
  cs_last_chain_seq s = N.of_nat (length log) → cs_last_event_hash s = last_hash log →
  (∀ tid entry, cs_threads s !! tid = Some entry →
     te_last_thread_seq entry = N.of_nat (length (thread_log tid log)) ∧
     te_last_event_hash entry = last_hash (thread_log tid log)) →
  validate_chain_positions s = Ok tt.
Proof.
  intros Ht Hseq Hhash Hent. apply chain_positions_exact.
  assert (Hpair : ∀ l : Log, N.of_nat (length l) = 0%N ↔ last_hash l = None).
  { intros l. rewrite last_hash_none. split; [|by intros ->]. destruct l; [done|cbn; lia]. }
  rewrite Hseq, Hhash. split; [apply Hpair|]. split; [done|].
  intros tid entry He. destruct (Hent _ _ He) as [-> ->]. split; [apply Hpair|].
  pose proof (thread_log_length tid log). lia.
Qed.

(** A snapshot stays the stored snapshot of its thread. *)
Lemma stored_grows s s' tid entry entry' sn :
  validate_stored_snapshot s tid entry sn = Ok tt →
  cs_chain_root_id s' = cs_chain_root_id s → te_status entry' = te_status entry →
  (cs_last_chain_seq s ≤ cs_last_chain_seq s')%N →
  (te_last_thread_seq entry ≤ te_last_thread_seq entry')%N →
  (te_last_thread_seq entry = te_last_thread_seq entry' → te_last_event_hash entry = te_last_event_hash entry') →
  validate_stored_snapshot s' tid entry' sn = Ok tt.
Proof.
  unfold validate_stored_snapshot. intros Hst Hr Hs Hc Ht Hh. facts Hst.
  checks.
  apply sch_reject_ok. destruct (N.eqb_spec (sn_last_thread_seq sn) (te_last_thread_seq entry')) as [He|]; [|done].
  assert (te_last_thread_seq entry = te_last_thread_seq entry') as Heq by lia.
  rewrite <- (Hh Heq). rewrite <- Heq in He. rewrite He, N.eqb_refl in Hst. exact Hst.
Qed.

(** The status of a thread changes with every new snapshot. *)
Lemma status_changes status : validate_status_transition status status ≠ Ok tt.
Proof. by destruct status. Qed.
Lemma historical_status sn sn' t :
  validate_historical_snapshot_transition sn sn' t = Ok tt → sn ≠ sn'.
Proof.
  unfold validate_historical_snapshot_transition, validate_snapshot_transition_identity.
  intros Hok <-. facts Hok. facts E0.
  eapply status_changes. eassumption.
Qed.

Section successor.
Context (cas : Cas) (root h h' : string) (log new : Log) (hs : list string) (s s' : ChainState).
Hypothesis old : history cas root h log hs s.
Hypothesis grown : valid_log cas root (log ++ new).
Hypothesis next : successor cas root h log new s s'.

Lemma entry_order tid entry entry' :
  cs_threads s !! tid = Some entry → cs_threads s' !! tid = Some entry' →
  (te_last_thread_seq entry ≤ te_last_thread_seq entry')%N ∧
  (te_last_thread_seq entry = te_last_thread_seq entry' → te_last_event_hash entry = te_last_event_hash entry').
Proof.
  intros He He'. destruct (hc_entry _ _ _ (hi_closure _ _ _ _ _ _ old) _ _ He) as [-> ->].
  destruct (su_entry _ _ _ _ _ _ _ next _ _ He') as (-> & -> & _).
  rewrite thread_log_app, length_app. split; [lia|]. intros Heq.
  destruct (thread_log tid new) as [|p l]; [by rewrite app_nil_r|]. cbn in Heq. lia.
Qed.

Lemma successor_step tid entry' :
  cs_threads s' !! tid = Some entry' →
  thread_step cas (log ++ new) s (length log) s' (length (log ++ new)) tid entry'.
Proof.
  intros He'. destruct (su_entry _ _ _ _ _ _ _ next _ _ He') as (Hseq & Hhash & Horigin). split.
  { exists (length (thread_log tid (log ++ new))). rewrite !firstn_all. done. }
  unfold origin in Horigin. destruct (cs_threads s !! tid) as [entry|] eqn:He; [|done].
  split; [by eapply entry_order|].
  destruct Horigin as [[-> ->]|(p & sn & sn' & Hp & Hl & Hpb & Htr)]; [by left|right]. split.
  - intros Heq. pose proof (pb_load _ _ _ _ _ _ Hpb) as Hl'. rewrite <- Heq in Hl'.
    apply historical_status in Htr. congruence.
  - exists p, sn, sn'. rewrite firstn_all, length_app, last_app, Hp.
    split; [|done]. destruct new; [done|cbn; lia].
Qed.

Lemma successor_time p : last (log ++ new) = Some p → not_later (ev_ts p.2) (cs_updated_at s').
Proof.
  rewrite last_app. destruct (last new) as [q|] eqn:Hq.
  - intros [= <-]. by apply (su_last _ _ _ _ _ _ _ next).
  - intros Hp. eapply not_later_trans; [|by destruct next].
    by apply (hc_time _ _ _ (hi_closure _ _ _ _ _ _ old)).
Qed.

Lemma successor_snapshot tid entry' :
  cs_threads s' !! tid = Some entry' →
  ∃ sn, load_hashed_snapshot cas (te_snapshot_hash entry') = Ok sn ∧
    validate_stored_snapshot s' tid entry' sn = Ok tt ∧
    not_later (sn_updated_at sn) (cs_updated_at s') ∧ snapshot_within (log ++ new) sn.
Proof.
  intros He'. destruct (su_entry _ _ _ _ _ _ _ next _ _ He') as (Hseq & Hhash & Horigin).
  unfold origin in Horigin. destruct (cs_threads s !! tid) as [entry|] eqn:He.
  - destruct Horigin as [[Hs Ht]|(p & sn & sn' & Hp & Hl & [] & Htr)]; [|by exists sn'].
    destruct (hc_snapshot _ _ _ (hi_closure _ _ _ _ _ _ old) _ _ He) as (sn & Hl & Hst & Htime & Hw).
    exists sn. rewrite Hs. split; [done|]. split; [|split].
    + destruct (states_head _ _ _ _ _ _ _ (hi_states _ _ _ _ _ _ old)) as [[] _], next.
      destruct (entry_order _ _ _ He He') as [Hle Heq].
      eapply stored_grows; [done|congruence|done| |done|done].
      rewrite pl_seq, su_seq0, length_app. lia.
    + eapply not_later_trans; [done|by destruct next].
    + by apply snapshot_within_grows.
  - destruct Horigin as (sn & [] & _). by exists sn.
Qed.

Lemma successor_history :
  load_hashed_chain_state cas h' = Ok s' → history cas root h' (log ++ new) (hs ++ [h']) s'.
Proof.
  intros Hl. pose proof old as [Hlog Hst Hcl]. destruct (states_head _ _ _ _ _ _ _ Hst) as [Hpl _].
  assert (Hent : ∀ tid entry, cs_threads s' !! tid = Some entry →
    te_last_thread_seq entry = N.of_nat (length (thread_log tid (log ++ new))) ∧
    te_last_event_hash entry = last_hash (thread_log tid (log ++ new))).
  { intros tid entry He. destruct (su_entry _ _ _ _ _ _ _ next _ _ He) as (? & ? & _). done. }
  split; [done| |].
  - eapply states_next.
    + by apply (states_grow cas).
    + destruct next. split; try done; [|by rewrite firstn_all].
      eapply covering_positions; [by eapply not_later_canonical|done..].
    + pose proof next as []. split; try done; [rewrite length_app; lia| | |].
      * intros p Hlt Hp. apply su_first0. rewrite <- Hp. destruct new as [|q l]; [rewrite app_nil_r in Hlt; lia|].
        symmetry. apply list_lookup_middle. done.
      * intros p _. rewrite firstn_all. apply successor_time.
      * apply successor_step.
  - pose proof next as []. split; try done; [apply successor_time| |apply successor_snapshot].
    intros p [Hp|Hp]%elem_of_app; [|auto]. apply su_kept0. by apply (hc_threads _ _ _ Hcl).
Qed.

End successor.

(** The history of a new chain. *)
Lemma genesis_history cas root h s entry sn :
  load_hashed_chain_state cas h = Ok s → validate_state s = Ok tt →
  cs_chain_root_id s = root → cs_prev_chain_state_hash s = None →
  cs_last_chain_seq s = 0%N → cs_last_event_hash s = None →
  cs_threads s = {[ root := entry ]} →
  te_last_thread_seq entry = 0%N → te_last_event_hash entry = None →
  published cas [] s root entry sn → validate_new_thread_snapshot sn None = Ok tt →
  history cas root h [] [h] s.
Proof.
  intros Hl Hv Hr Hp Hs Hh Hth Hes Heh Hpb Hnew.
  assert (Hent : ∀ tid e, cs_threads s !! tid = Some e → tid = root ∧ e = entry).
  { intros tid e. rewrite Hth. by intros [<- <-]%lookup_singleton_Some. }
  split; [constructor| |].
  - eapply states_genesis; split; try done.
    + eapply (covering_positions []); [|done|done|].
      * eapply not_later_canonical. by destruct Hpb.
      * intros tid e [-> ->]%Hent. done.
    + by rewrite Hr.
    + exists O. done.
    + by rewrite Hr.
  - split; try done; [by intros ? ?%not_elem_of_nil|by intros tid e [-> ->]%Hent|].
    intros tid e [-> ->]%Hent. destruct Hpb. by exists sn.
Qed.

(** ** Reading what was written

    Values that [serde_json] reads back from their canonical text, also
    inside [outer] further containers.  The reader of the workspace is built
    without [float_roundtrip], so that not every number with a fraction is
    read back, and it refuses texts with more than 127 levels of nesting. *)
Fixpoint nesting (v : Value) : nat :=
  match v with
  | VArray vs => S (foldr (λ v n, Nat.max (nesting v) n) O vs)
  | VObject m => S (foldr (λ kv n, Nat.max (nesting kv.2) n) O m)
  | _ => O
  end.
Definition exact (outer : nat) (v : Value) : Prop :=
  from_slice (canonical_json v) = Some v ∧ (outer + nesting v ≤ 127)%nat.
Definition exact_snapshot (s : ThreadSnapshot) : Prop :=
  (∀ v, sn_result s = Some v → exact 1 v) ∧ (∀ v, sn_error s = Some v → exact 1 v) ∧
  Forall (exact 2) (sn_artifacts s) ∧
  (∀ u, sn_budget s = Some u → exact 2 (VNumber (Float (spend_usd u)))).

(** The canonical text of [a] is read as the value [v], from which the
    conversion makes [b]. *)
Record reads {A} `{Wire A} (a : A) (v : Value) (b : A) : Prop := {
  rd_slice : from_slice (object_json a) = Some v;
  rd_canonical : canonical_json v = object_json a;
  rd_value : from_value v = Some b;
  rd_same : object_json b = object_json a;
}.

End growth.

(** What the derived conversions and the reader promise of valid objects:
    an object is read back from its canonical text when the values it
    embeds are, at the depth at which it embeds them; a snapshot is an
    object with its kind and its schema as members, and is read back with
    [null] payloads absent. *)
Class WireLaws `{Externals} `{Sha256} `{JsonReader} `{UnicodeTables} `{NaiveDateTime}
    `{Wire ThreadEvent} `{Wire ThreadSnapshot} `{Wire ChainState} : Prop := {
  event_reads : ∀ e : ThreadEvent,
    validate_event e = Ok tt → exact 1 (ev_payload e) → ∃ v, reads e v e;
  state_reads : ∀ s : ChainState, validate_state s = Ok tt → ∃ v, reads s v s;
  snapshot_reads : ∀ s : ThreadSnapshot,
    validate_snapshot s = Ok tt → exact_snapshot s →
    ∃ m number, reads s (VObject m) (as_stored s) ∧
      Map.get "kind" m = Some (VString (sn_kind s)) ∧
      Map.get "schema" m = Some (VNumber number) ∧ Number.as_u64 number = Some (sn_schema s);
}.

Section laws.
Context `{WireLaws}.

Lemma get_written {A} `{Wire A} (cas : Cas) (a : A) v b :
  cas !! object_hash a = Some (object_json a) → reads a v b →
  get_object cas (object_hash a) = Ok (Some v).
Proof.
  intros Hc []. unfold get_object. unfold object_hash at 1. rewrite sha256_canonical. cbn [negb]. rewrite Hc.
  unfold read_verified_entry, object_hash. rewrite bool_decide_true by done. cbn. rewrite rd_slice0. cbn.
  by rewrite bool_decide_true.
Qed.
Lemma not_canonical_same {A} `{Wire A} (a b : A) :
  object_json b = object_json a → not_canonical (object_hash a) b = Ok tt.
Proof. intros E. unfold not_canonical, object_hash. rewrite E, bool_decide_true by done. done. Qed.

Lemma load_written_event (cas : Cas) (e : ThreadEvent) :
  cas !! object_hash e = Some (object_json e) → validate_event e = Ok tt → exact 1 (ev_payload e) →
  load_hashed_event cas (object_hash e) = Ok e.
Proof.
  intros Hc Hv Hx. destruct (event_reads e Hv Hx) as [v Hr]. unfold load_hashed_event.
  rewrite (get_written _ _ _ _ Hc Hr). destruct Hr. cbn. rewrite rd_value0.
  apply sch_then; [by apply not_canonical_same|done].
Qed.
Lemma load_written_state (cas : Cas) (s : ChainState) :
  cas !! object_hash s = Some (object_json s) → validate_state s = Ok tt →
  load_hashed_chain_state cas (object_hash s) = Ok s.
Proof.
  intros Hc Hv. destruct (state_reads s Hv) as [v Hr]. unfold load_hashed_chain_state.
  rewrite (get_written _ _ _ _ Hc Hr). destruct Hr. cbn. rewrite rd_value0.
  apply sch_then; [by apply not_canonical_same|done].
Qed.

(** Validation does not look at the payloads. *)
Lemma as_stored_valid s : validate_snapshot (as_stored s) = validate_snapshot s.
Proof. reflexivity. Qed.

Lemma load_written_snapshot (cas : Cas) (s : ThreadSnapshot) :
  cas !! object_hash s = Some (object_json s) → validate_snapshot s = Ok tt → exact_snapshot s →
  load_hashed_snapshot cas (object_hash s) = Ok (as_stored s).
Proof.
  intros Hc Hv Hx. destruct (snapshot_reads s Hv Hx) as (m & number & Hr & Hk & Hs & Hn).
  unfold load_hashed_snapshot. rewrite (get_written _ _ _ _ Hc Hr). cbn. destruct Hr.
  unfold from_current_value. cbn. rewrite Hk. cbn.
  assert (sn_kind s = "thread_snapshot" ∧ sn_schema s = THREAD_SNAPSHOT_SCHEMA_VERSION) as [-> Hsch].
  { unfold validate_snapshot, validate_snapshot_identity, validate_object_kind in Hv.
    apply sch_bind_ok in Hv as ([] & Hid & _). facts Hid. done. }
  cbn. rewrite Hs. cbn. rewrite Hn. cbn. rewrite Hsch. cbn. rewrite rd_value0. cbn.
  rewrite as_stored_valid, Hv. apply sch_then; [by apply not_canonical_same|done].
Qed.

End laws.
