(* ===== verification/ChainStaging.v ===== *)
(** * What the writers stage

    The times, numbers and links that [Chain] and [ChainValidation] give to
    new events and snapshots satisfy what a history asks of them. *)

From stdpp Require Import sorting.
From S2P Require Import Prelude Float64 Json CanonicalRef Schedule ScheduleSpec.
From S2P Require Import CasStore ChainObjects ChainValidation Chain ChainHistory ChainValidationCorrect ChainGrowth.

Section staging.
Context `{WireLaws}.

(** ** Times *)

Lemma later_intro a b ta tb :
  parse_canonical_timestamp a = Ok ta → parse_canonical_timestamp b = Ok tb → ta ≤ tb → not_later a b.
Proof. by exists ta, tb. Qed.
Ltac later := eapply later_intro; [eassumption|eassumption|lia].

Lemma clamp_later value floor r :
  clamp_timestamp value floor = Ok r → not_later value r ∧ not_later floor r.
Proof.
  unfold clamp_timestamp. intros Hok. facts Hok. subst r. destruct (Z.ltb_spec x x0); split; later.
Qed.
Lemma clamp_kept value floor r : clamp_timestamp value floor = Ok r → not_later floor value → r = value.
Proof.
  unfold clamp_timestamp. intros Hok (tf & tv & Hf & Hv & Hle). facts Hok. subst r.
  rewrite Hv in E. injection E as <-. rewrite Hf in E0. injection E0 as <-.
  by rewrite (proj2 (Z.ltb_ge _ _)).
Qed.
Lemma not_later_refl a t : parse_canonical_timestamp a = Ok t → not_later a a.
Proof. intros Ha. exists t, t. auto with lia. Qed.

Lemma monotonic_fold floors now t r t' :
  parse_canonical_timestamp now = Ok t →
  each_from (λ '(result, result_time) floor,
      floor_time ← parse_canonical_timestamp floor ;
      Ok (if result_time <? floor_time then (floor, floor_time) else (result, result_time)) : Sch _)
    (now, t) floors = Ok (r, t') →
  not_later now r ∧ ∀ f, f ∈ floors → not_later f r.
Proof.
  revert now t. induction floors as [|f floors IH]; intros now t Hnow Hrun; cbn in Hrun.
  - injection Hrun as -> ->. split; [later|]. by intros ? ?%not_elem_of_nil.
  - rewrite !sch_bind_ok in Hrun. destruct Hrun as ([now' t1] & Hstep & Hrun). facts Hstep.
    assert (not_later now now' ∧ not_later f now' ∧ parse_canonical_timestamp now' = Ok t1) as (Hn & Hf & Hp).
    { destruct (Z.ltb_spec t x); simplify_eq; (split; [later|split; [later|done]]). }
    destruct (IH _ _ Hp Hrun) as [Hr Hall]. split; [by eapply not_later_trans|].
    intros g [->|Hg]%elem_of_cons; [by eapply not_later_trans|auto].
Qed.
Lemma monotonic_later now floors r :
  monotonic_now now floors = Ok r → ∀ f, f ∈ floors → not_later f r.
Proof.
  unfold monotonic_now. intros Hok. facts Hok. destruct x0 as [result t]. injection Hok as ->.
  by destruct (monotonic_fold _ _ _ _ _ E E0).
Qed.

(** Times that do not decrease from [floor] on. *)
Fixpoint ascending (floor : string) (events : list ThreadEvent) : Prop :=
  match events with
  | [] => True
  | e :: events => not_later floor (ev_ts e) ∧ ascending (ev_ts e) events
  end.
Definition last_time (floor : string) (events : list ThreadEvent) : string :=
  match last events with Some e => ev_ts e | None => floor end.
Lemma last_time_cons floor e events : last_time floor (e :: events) = last_time (ev_ts e) events.
Proof. unfold last_time. rewrite last_cons. by destruct (last events). Qed.

(** An event with another time. *)
Definition retimed (e e' : ThreadEvent) : Prop := ∃ ts, e' = with_ts e ts.

Lemma clamp_events_ascending events floor events' r :
  clamp_events events floor = Ok (events', r) →
  ascending floor events' ∧ r = last_time floor events' ∧ Forall2 retimed events events'.
Proof.
  revert floor events' r. induction events as [|e events IH]; intros floor events' r; cbn.
  - intros [= <- <-]. repeat constructor.
  - intros (ts & Hts & ([rest r0] & Hrest & Hok)%sch_bind_ok)%sch_bind_ok. injection Hok as <- <-.
    destruct (IH _ _ _ Hrest) as (Ha & -> & Hf). apply clamp_later in Hts as [_ Hts].
    split; [done|]. split; [by rewrite last_time_cons|]. constructor; [by exists ts|done].
Qed.
Lemma normalize_events_ascending events floor events' r :
  normalize_event_timestamps events floor = Ok (events', r) →
  ascending floor events' ∧ r = last_time floor events' ∧ Forall2 retimed events events'.
Proof.
  unfold normalize_event_timestamps. intros (t & _ & Hok)%sch_bind_ok. by apply clamp_events_ascending.
Qed.
Lemma ascending_last floor events t :
  parse_canonical_timestamp floor = Ok t → ascending floor events → not_later floor (last_time floor events).
Proof.
  revert floor t. induction events as [|e events IH]; intros floor t Ht; [intros _; cbn; later|].
  intros [Hle Ha]. rewrite last_time_cons. eapply not_later_trans; [done|].
  destruct Hle as (? & t' & _ & Ht' & _). by eapply IH.
Qed.

(** ** Events *)

Definition stored_log (stored : list ThreadEvent) : Log := (λ e, (object_hash e, e)) <$> stored.
Definition written {A} `{Wire A} (cas : Cas) (a : A) : Prop := cas !! object_hash a = Some (object_json a).

(** An event a writer accepts for a thread of a chain. *)
Definition event_for (root tid : string) (e : ThreadEvent) : Prop :=
  ev_chain_root_id e = root ∧ ev_thread_id e = tid ∧ exact 1 (ev_payload e).

Lemma check_events_exact root tid events :
  check_events root tid events = Ok tt → Forall (λ e, exact 1 (ev_payload e)) events →
  Forall (event_for root tid) events.
Proof.
  unfold check_events. rewrite sch_each_ok, !Forall_forall. intros Hall Hx e He.
  specialize (Hall _ He). facts Hall. split_and!; auto.
Qed.
Lemma retimed_for root tid events events' :
  Forall2 retimed events events' → Forall (event_for root tid) events → Forall (event_for root tid) events'.
Proof. induction 1 as [|e e' l l' [ts ->] Hl IH]; inversion 1; subst; constructor; auto. Qed.
Lemma retimed_length events events' : Forall2 retimed events events' → length events' = length events.
Proof. intros Hf. symmetry. by eapply Forall2_length. Qed.

(** What staging adds to a log. *)
Record staged (cas : Cas) (root tid : string) (log : Log) (events stored : list ThreadEvent)
    (lh lth : option string) : Prop := {
  sg_log : valid_log cas root (log ++ stored_log stored);
  sg_hash : lh = last_hash (log ++ stored_log stored);
  sg_thread_hash : lth = last_hash (thread_log tid (log ++ stored_log stored));
  sg_thread : Forall (λ e, ev_thread_id e = tid) stored;
  sg_times : ev_ts <$> stored = ev_ts <$> events;
}.

Lemma checked_add_some a b c : checked_add_u64 a b = Some c → c = (a + b)%N.
Proof. unfold checked_add_u64. case_match; congruence. Qed.

Lemma stage_events_valid cas root tid first_seq thread_seq events offset log lh lth floor stored lh' lth' :
  stage_events first_seq thread_seq offset lh lth events = Ok (stored, lh', lth') →
  valid_log cas root log → Forall (event_for root tid) events →
  ascending floor events → (∀ p, last log = Some p → not_later (ev_ts p.2) floor) →
  (first_seq + offset = N.of_nat (S (length log)))%N →
  (thread_seq + offset = N.of_nat (length (thread_log tid log)))%N →
  lh = last_hash log → lth = last_hash (thread_log tid log) →
  (∀ e, e ∈ stored → written cas e) →
  staged cas root tid log events stored lh' lth'.
Proof.
  revert offset log lh lth floor stored. induction events as [|e events IH];
    intros offset log lh lth floor stored Hrun Hlog Hfor Hasc Hfloor Hseq Htseq Hlh Hlth Hw; cbn in Hrun.
  - injection Hrun as <- <- <-. cbn. split; rewrite ?app_nil_r; done.
  - rewrite !sch_bind_ok in Hrun. destruct Hrun as (cseq & Hc%sch_some_ok%checked_add_some & Hrun).
    rewrite !sch_bind_ok in Hrun. destruct Hrun as (tseq & Ht%sch_some_ok & Hrun).
    destruct (checked_add_u64 thread_seq offset) as [n|] eqn:Hn; [|done].
    apply checked_add_some in Hn. apply checked_add_some in Ht.
    rewrite !sch_bind_ok in Hrun. destruct Hrun as ([] & Hv & Hrun).
    set (e' := linked e cseq tseq lh lth) in *.
    rewrite !sch_bind_ok in Hrun. destruct Hrun as ([[rest lh1] lth1] & Hrest & Hok).
    injection Hok as <- <- <-. inversion Hfor as [|? ? (Hr & Hid & Hx) Hfor']; subst.
    destruct Hasc as [Hle Hasc].
    assert (Hf : event_follows cas (ev_chain_root_id e) log (object_hash e') e').
    { split; try done.
      - apply load_written_event; [apply Hw; by left|done|done].
      - change (thread_seq + offset + 1 = N.of_nat (S (length (thread_log (ev_thread_id e) log))))%N. lia.
      - intros p Hp. eapply not_later_trans; [by apply Hfloor|done]. }
    assert (Hone : thread_log (ev_thread_id e) (log ++ [(object_hash e', e')]) =
      thread_log (ev_thread_id e) log ++ [(object_hash e', e')]).
    { by rewrite thread_log_app, thread_log_one, decide_True. }
    apply (IH _ (log ++ [(object_hash e', e')]) _ _ (ev_ts e)) in Hrest as [].
    + cbn. rewrite <- app_assoc in *. split; try done; [by constructor|]. cbn. by f_equal.
    + by constructor.
    + done.
    + done.
    + rewrite last_snoc. intros p [= <-]. cbn. destruct Hle as (? & t & _ & Ht & _).
      by eapply not_later_refl.
    + rewrite length_app. cbn. lia.
    + rewrite Hone, length_app. cbn. lia.
    + by rewrite last_hash_snoc.
    + by rewrite Hone, last_hash_snoc.
    + intros x Hx'. apply Hw. by right.
Qed.

(** ** Snapshots *)

Lemma snapshot_times_valid s :
  validate_snapshot s = Ok tt →
  not_later (sn_created_at s) (sn_updated_at s) ∧
  ∀ t, sn_started_at s = Some t → not_later (sn_created_at s) t.
Proof.
  unfold validate_snapshot. intros Hv. facts Hv. unfold validate_snapshot_times in E1. facts E1.
  split; [later|]. intros t Ht. rewrite Ht in *. unfold parse_optional_timestamp in *.
  repeat match goal with E : Ok _ ≫= _ = Ok _ |- _ => facts E | E : (_ ≫= _) = Ok _ |- _ => facts E end.
  subst. match goal with E : is_some_and (Some _) _ = false |- _ => cbn in E; autorewrite with chain in E; destruct E end.
  later.
Qed.

Lemma normalized_new s root floor source s' :
  normalize_and_validate_new_thread s root floor source = Ok s' →
  (∃ u, s' = with_times s u (sn_started_at s) (sn_finished_at s)) ∧
  sn_chain_root_id s = root ∧ validate_snapshot s' = Ok tt ∧
  validate_new_thread_snapshot (as_stored s') None = Ok tt ∧ not_later floor (sn_updated_at s').
Proof.
  unfold normalize_and_validate_new_thread. intros Hok. facts Hok. subst s'.
  split; [by eexists|]. split; [done|]. split; [done|]. split.
  - unfold validate_new_thread_snapshot. cbn. rewrite bool_decide_true by done. cbn.
    unfold validate_new_thread_project_snapshots in E1 |- *. facts E1. cbn.
    rewrite bool_decide_false by done. cbn. by destruct (sn_base_project_snapshot_hash s).
  - by apply clamp_later in E4 as [_ ?].
Qed.

Lemma clamp_started previous next updated_at started updated' :
  validate_snapshot previous = Ok tt → sn_created_at previous = sn_created_at next →
  (is_Some (sn_started_at previous) → sn_started_at previous = sn_started_at next) →
  clamp_started_at previous next updated_at = Ok (started, updated') →
  (∃ t, parse_canonical_timestamp updated_at = Ok t) →
  not_later updated_at updated' ∧
  (is_Some (sn_started_at previous) → started = sn_started_at previous) ∧
  (sn_started_at previous = None → ∀ t, started = Some t → not_later (sn_updated_at previous) t).
Proof.
  intros Hv Hc Hsame Hok [t0 Ht0]. unfold clamp_started_at in Hok.
  destruct (sn_started_at next) as [st|] eqn:Hst; facts Hok; simplify_eq.
  2: { split; [later|]. split; [intros Hp; by apply Hsame in Hp|done]. }
  apply clamp_later in E1 as [Hu _]. split; [done|]. split.
  - intros Hp. rewrite Hsame by done. rewrite decide_False in E0 by (by rewrite Hsame). facts E0. subst.
    f_equal. eapply clamp_kept; [done|]. rewrite <- Hc.
    eapply snapshot_times_valid; [done|]. by apply Hsame.
  - intros Hp t [= <-]. rewrite decide_True in E0 by done. by apply clamp_later in E0 as [_ ?].
Qed.

Lemma clamp_finished previous next started append updated_at finished updated' :
  clamp_finished_at previous next started append updated_at = Ok (finished, updated') →
  (∃ t, parse_canonical_timestamp updated_at = Ok t) →
  not_later updated_at updated' ∧
  ∀ t, finished = Some t → not_later (sn_updated_at previous) t ∧ not_later append t.
Proof.
  intros Hok [t0 Ht0]. unfold clamp_finished_at in Hok.
  destruct (sn_finished_at next) as [fi|]; facts Hok; simplify_eq; [|by split; [later|]].
  apply clamp_later in E3 as [Hu _]. split; [done|]. intros t [= <-].
  apply clamp_later in E0 as [_ Hp], E1 as [H01 Ha].
  assert (not_later x1 x2) as H12.
  { destruct started; [by apply clamp_later in E2 as [? _]|]. injection E2 as <-.
    destruct Ha as (? & t & _ & Ht & _). later. }
  split; [|by eapply not_later_trans]. eapply not_later_trans; [done|]. by eapply not_later_trans.
Qed.

(** The identity checks only look at the start among the times. *)
Lemma identity_retimed previous next u started finished :
  validate_snapshot_transition_identity previous next = Ok tt →
  (is_Some (sn_started_at previous) → started = sn_started_at previous) →
  validate_snapshot_transition_identity previous (as_stored (with_times next u started finished)) = Ok tt.
Proof.
  unfold validate_snapshot_transition_identity. intros Hok Hst. cbn. facts Hok. checks.
  apply sch_reject_ok, andb_false_iff. destruct (sn_started_at previous); [right|by left].
  apply negb_decide_false. by rewrite Hst.
Qed.

Lemma identity_facts previous next :
  validate_snapshot_transition_identity previous next = Ok tt →
  sn_created_at previous = sn_created_at next ∧ sn_thread_id previous = sn_thread_id next ∧
  sn_chain_root_id previous = sn_chain_root_id next ∧
  (is_Some (sn_started_at previous) → sn_started_at previous = sn_started_at next).
Proof.
  unfold validate_snapshot_transition_identity, immutable. intros Hok. facts Hok.
  split; [done|]. split; [done|]. split; [done|]. intros Hp.
  rewrite bool_decide_true in Hok by done. cbn in Hok. by apply negb_decide_false in Hok.
Qed.

Lemma historical_intro previous next append :
  validate_snapshot_transition_identity previous next = Ok tt → validate_snapshot next = Ok tt →
  not_later (sn_updated_at previous) (sn_updated_at next) → not_later append (sn_updated_at next) →
  (sn_started_at previous = None → ∀ t, sn_started_at next = Some t → not_later (sn_updated_at previous) t) →
  (∀ t, sn_finished_at next = Some t → not_later (sn_updated_at previous) t ∧ not_later append t) →
  validate_historical_snapshot_transition previous next (Some append) = Ok tt.
Proof.
  intros Hid Hv (t1 & t2 & Ht1 & Ht2 & Hle) (t3 & t2' & Ht3 & Ht2' & Hle') Hst Hfi.
  assert (t2' = t2) as -> by congruence. unfold validate_historical_snapshot_transition. cbn [some_or mbind result_bind].
  apply sch_then; [done|]. apply sch_then; [done|]. rewrite Ht1. cbn. rewrite Ht2. cbn.
  rewrite (proj2 (Z.ltb_ge _ _)) by done. cbn. apply sch_then.
  - case_decide as Hn; [|done]. destruct (sn_started_at next) as [st|]; cbn; [|done].
    destruct (Hst Hn st eq_refl) as (a & b & Ha & Hb & ?). rewrite Hb. cbn.
    by rewrite (proj2 (Z.ltb_ge _ _)) by (assert (a = t1) by congruence; lia).
  - rewrite Ht3. cbn. rewrite (proj2 (Z.ltb_ge _ _)) by done. cbn.
    destruct (sn_finished_at next) as [fi|]; cbn; [|done].
    destruct (Hfi fi eq_refl) as [(a & b & Ha & Hb & ?) (c & d & Hc & Hd & ?)]. rewrite Hb. cbn.
    rewrite (proj2 (Z.ltb_ge _ _)) by (assert (a = t1) by congruence; lia).
    by rewrite (proj2 (Z.ltb_ge _ _)) by (assert (c = t3) by congruence; assert (d = b) by congruence; lia).
Qed.

Lemma normalized_transition previous next append next' :
  validate_snapshot previous = Ok tt →
  normalize_and_validate_snapshot_transition previous next append = Ok next' →
  (∃ u started finished, next' = with_times next u started finished) ∧
  validate_snapshot next' = Ok tt ∧
  validate_historical_snapshot_transition previous (as_stored next') (Some append) = Ok tt.
Proof.
  intros Hv Hok. unfold normalize_and_validate_snapshot_transition in Hok.
  rewrite sch_bind_ok in Hok. destruct Hok as ([] & Hid & Hok).
  rewrite sch_bind_ok in Hok. destruct Hok as (u1 & Hu1 & Hok).
  rewrite sch_bind_ok in Hok. destruct Hok as ([started u2] & Hst & Hok).
  rewrite sch_bind_ok in Hok. destruct Hok as ([finished u3] & Hfi & Hok).
  rewrite sch_bind_ok in Hok. destruct Hok as (u4 & Hu4 & Hok).
  rewrite sch_bind_ok in Hok. destruct Hok as ([] & Hv' & Hok). injection Hok as <-.
  destruct (identity_facts _ _ Hid) as (Hc & _ & _ & Hsame).
  apply clamp_later in Hu1 as [_ Hp1].
  destruct (clamp_started _ _ _ _ _ Hv Hc Hsame Hst) as (H12 & Hkeep & Hnew); [by eapply not_later_canonical|].
  destruct (clamp_finished _ _ _ _ _ _ _ Hfi) as [H23 Hf]; [by eapply not_later_canonical|].
  apply clamp_later in Hu4 as [H34 Ha].
  split; [eauto|]. split; [done|].
  apply historical_intro; [by apply identity_retimed|done| |done|done|done].
  eapply not_later_trans; [done|]. eapply not_later_trans; [done|]. by eapply not_later_trans.
Qed.

Lemma last_thread_event cas root log tid h :
  valid_log cas root log → last_hash (thread_log tid log) = Some h →
  ∃ e, (h, e) ∈ log ∧ ev_thread_id e = tid ∧
       ev_thread_seq e = N.of_nat (length (thread_log tid log)) ∧
       (ev_chain_seq e ≤ N.of_nat (length log))%N.
Proof.
  intros Hlog Hh. unfold last_hash in Hh.
  destruct (last (thread_log tid log)) as [[h' e]|] eqn:Hlast; [|done]. injection Hh as ->.
  rewrite last_lookup in Hlast. pose proof Hlast as Hj.
  apply list_elem_of_lookup_2, thread_log_elem in Hlast as [Ht Hin].
  destruct (thread_log_lookup _ _ _ _ _ _ _ Hlog Hj) as (_ & Hs & _).
  exists e. split; [done|]. split; [done|]. split.
  - rewrite Hs. f_equal. apply lookup_lt_Some in Hj. lia.
  - apply list_elem_of_lookup in Hin as [i Hi]. rewrite (valid_log_seq _ _ _ _ _ _ Hlog Hi).
    apply lookup_lt_Some in Hi. lia.
Qed.

Lemma published_written cas root log s tid entry sn :
  valid_log cas root log → written cas sn → validate_snapshot sn = Ok tt → exact_snapshot sn →
  te_snapshot_hash entry = object_hash sn → te_status entry = sn_status sn →
  sn_thread_id sn = tid → sn_chain_root_id sn = cs_chain_root_id s →
  cs_last_chain_seq s = N.of_nat (length log) → sn_last_chain_seq sn = cs_last_chain_seq s →
  te_last_thread_seq entry = N.of_nat (length (thread_log tid log)) →
  te_last_event_hash entry = last_hash (thread_log tid log) →
  sn_last_thread_seq sn = te_last_thread_seq entry → sn_last_event_hash sn = te_last_event_hash entry →
  not_later (sn_updated_at sn) (cs_updated_at s) →
  published cas log s tid entry (as_stored sn).
Proof.
  intros Hlog Hw Hv Hx Hh Hst Ht Hr Hc Hsc Hes Heh Hss Hsh Htime.
  pose proof (thread_log_length tid log) as Hlen.
  split; try done; [rewrite Hh; by apply load_written_snapshot| |].
  - unfold validate_stored_snapshot. rewrite as_stored_valid. cbn.
    apply sch_then; [done|]. checks. apply sch_then; [|].
    + apply pair_exact. rewrite Hss, Hsh, Hes, Heh, last_hash_none.
      split; [|by intros ->]. destruct (thread_log tid log); [done|cbn; lia].
    + rewrite Hsh, bool_decide_true by done. apply sch_reject_ok. apply andb_false_r.
  - intros h Hh'. cbn in Hh' |- *. rewrite Hsh, Heh in Hh'.
    destruct (last_thread_event cas root log tid h Hlog Hh') as (e & Hin & He & Hs & Hcs).
    exists e. rewrite Ht, Hss, Hes, Hsc, Hc. done.
Qed.

(** ** Snapshot updates *)

Definition touched (updates : list SnapshotUpdate) : list string := up_thread_id <$> updates.

Lemma current_snapshot cas s tid previous :
  read_current_snapshot_for_mutation cas s tid = Ok previous →
  ∃ entry, cs_threads s !! tid = Some entry ∧
    load_hashed_snapshot cas (te_snapshot_hash entry) = Ok previous ∧ validate_snapshot previous = Ok tt.
Proof.
  unfold read_current_snapshot_for_mutation. intros Hok. facts Hok. subst. exists x.
  split; [done|]. split.
  - unfold load_hashed_snapshot. rewrite E0. cbn. rewrite E2. apply sch_then; [|done].
    unfold not_canonical. by rewrite bool_decide_true.
  - unfold validate_stored_snapshot in E4. by facts E4.
Qed.

Lemma load_previous_all cas root s new updates prevs prevs' :
  each_from (load_previous cas root s new) prevs updates = Ok prevs' →
  prevs ⊆ prevs' ∧ NoDup (touched updates) ∧ (∀ t, t ∈ touched updates → prevs !! t = None) ∧
  ∀ u, u ∈ updates →
    sn_thread_id (up_new_snapshot u) = up_thread_id u ∧ sn_chain_root_id (up_new_snapshot u) = root ∧
    new ≠ Some (up_thread_id u) ∧
    ∃ previous, prevs' !! up_thread_id u = Some previous ∧
      read_current_snapshot_for_mutation cas s (up_thread_id u) = Ok previous.
Proof.
  revert prevs. induction updates as [|u updates IH]; intros prevs Hrun; cbn in Hrun.
  - injection Hrun as <-. split; [done|]. split; [constructor|]. split; by intros ? ?%not_elem_of_nil.
  - rewrite !sch_bind_ok in Hrun. destruct Hrun as (prevs1 & Hone & Hrun).
    unfold load_previous, validate_update_identity in Hone. facts Hone. facts E. subst prevs1.
    destruct (IH _ Hrun) as (Hsub & Hnd & Hfresh & Hall).
    assert (Hnone : prevs !! up_thread_id u = None) by by apply eq_None_not_Some.
    split; [|split; [|split]].
    + transitivity (<[up_thread_id u := x]> prevs); [by apply insert_subseteq|done].
    + cbn. constructor; [|done]. intros Hin. specialize (Hfresh _ Hin). by rewrite lookup_insert_eq in Hfresh.
    + intros t [->|Hin]%elem_of_cons; [done|]. specialize (Hfresh _ Hin).
      by apply lookup_insert_None in Hfresh as [? _].
    + intros u' [->|Hin]%elem_of_cons; [|by apply Hall]. split; [done|]. split; [done|]. split; [done|].
      exists x. split; [|done]. eapply lookup_weaken; [|done]. apply lookup_insert_eq.
Qed.

Lemma Forall2_impl_elem {A B} (P Q : A → B → Prop) l k :
  Forall2 P l k → (∀ x y, x ∈ l → P x y → Q x y) → Forall2 Q l k.
Proof.
  induction 1 as [|x y l k Hxy Hl IH]; intros Hi; constructor; [apply Hi; [by left|done]|].
  apply IH. intros. apply Hi; [by right|done].
Qed.

(** What one update leaves for its thread. *)
Definition applied (append : string) (final : N) (prevs : gmap string ThreadSnapshot)
    (threads threads' : gmap string ChainThreadEntry) (u u' : SnapshotUpdate) : Prop :=
  ∃ entry previous,
    up_thread_id u' = up_thread_id u ∧
    threads !! up_thread_id u = Some entry ∧ prevs !! up_thread_id u = Some previous ∧
    normalize_and_validate_snapshot_transition previous
      (stamp_snapshot_position (up_new_snapshot u) entry final) append = Ok (up_new_snapshot u') ∧
    threads' !! up_thread_id u =
      Some (with_snapshot entry (object_hash (up_new_snapshot u')) (sn_status (up_new_snapshot u'))).

Lemma apply_updates_all cas tid append final stored prevs updates threads ups threads' ups' :
  each_from (apply_update cas tid append final stored prevs) (threads, ups) updates = Ok (threads', ups') →
  NoDup (touched updates) →
  (∀ t, t ∉ touched updates → threads' !! t = threads !! t) ∧
  ∃ ups1, ups' = ups ++ ups1 ∧ Forall2 (applied append final prevs threads threads') updates ups1.
Proof.
  revert threads ups. induction updates as [|u updates IH]; intros threads ups Hrun Hnd; cbn in Hrun.
  - injection Hrun as <- <-. split; [done|]. exists []. by rewrite app_nil_r.
  - rewrite !sch_bind_ok in Hrun. destruct Hrun as ([threads1 ups1] & Hone & Hrun).
    unfold apply_update in Hone. facts Hone. simplify_eq. apply NoDup_cons in Hnd as [Hnot Hnd].
    destruct (IH _ _ Hrun Hnd) as (Hsame & ups2 & -> & Hall). split.
    + intros t [Hne Ht]%not_elem_of_cons. rewrite Hsame by done. by rewrite lookup_insert_ne.
    + eexists (_ :: ups2). rewrite <- app_assoc. split; [done|]. constructor.
      * exists x, x0. repeat split; try done. cbn. rewrite Hsame by done. apply lookup_insert_eq.
      * eapply Forall2_impl_elem; [exact Hall|].
        intros u1 u2 Hin (entry & previous & ? & He & Hrest). exists entry, previous.
        split; [done|]. split; [|done]. rewrite lookup_insert_ne in He; [done|].
        intros Heq. apply Hnot. rewrite Heq. by apply list_elem_of_fmap_2.
Qed.

(** ** Origins of the entries of a successor *)

Section origins.
Context (cas0 cas : Cas) (root h : string) (log new : Log) (hs : list string) (s s' : ChainState).
Hypothesis sub : cas0 ⊆ cas.
Hypothesis grown : valid_log cas root (log ++ new).
Hypothesis same_root : cs_chain_root_id s' = root.
Hypothesis seq : cs_last_chain_seq s' = N.of_nat (length (log ++ new)).

(** The position of an entry covers its thread. *)
Definition covers (tid : string) (entry : ChainThreadEntry) : Prop :=
  te_last_thread_seq entry = N.of_nat (length (thread_log tid (log ++ new))) ∧
  te_last_event_hash entry = last_hash (thread_log tid (log ++ new)).

Lemma update_origin u entry previous sn append p :
  last new = Some p → append = ev_ts p.2 →
  sn_thread_id (up_new_snapshot u) = up_thread_id u → sn_chain_root_id (up_new_snapshot u) = root →
  exact_snapshot (up_new_snapshot u) →
  read_current_snapshot_for_mutation cas0 s (up_thread_id u) = Ok previous →
  covers (up_thread_id u) entry →
  normalize_and_validate_snapshot_transition previous
    (stamp_snapshot_position (up_new_snapshot u) entry (cs_last_chain_seq s')) append = Ok sn →
  written cas sn → not_later (sn_updated_at sn) (cs_updated_at s') →
  origin cas log new s s' (up_thread_id u) (with_snapshot entry (object_hash sn) (sn_status sn)).
Proof.
  intros Hp -> Hid Hroot Hx Hcur [Hes Heh] Hnorm Hw Htime.
  apply current_snapshot in Hcur as (entry0 & He0 & Hl0 & Hv0).
  destruct (normalized_transition _ _ _ _ Hv0 Hnorm) as ((u0 & st & fi & ->) & Hv & Htr).
  unfold origin. rewrite He0. right. exists p, previous. eexists. split; [done|].
  split; [by eapply load_snapshot_grows|]. split; [|exact Htr].
  eapply (published_written cas root); try done. cbn. congruence.
Qed.

Lemma new_origin tid snapshot entry floor source sn :
  cs_threads s !! tid = None → sn_thread_id snapshot = tid → exact_snapshot snapshot →
  covers tid entry → te_status entry = sn_status snapshot →
  normalize_and_validate_new_thread
    (stamp_snapshot_position snapshot entry (cs_last_chain_seq s')) root floor source = Ok sn →
  written cas sn → not_later (sn_updated_at sn) (cs_updated_at s') →
  origin cas log new s s' tid (with_snapshot entry (object_hash sn) (sn_status sn)).
Proof.
  intros Hnone Ht Hx [Hes Heh] Hst Hnorm Hw Htime.
  destruct (normalized_new _ _ _ _ _ Hnorm) as ([u ->] & Hroot & Hv & Hnew & _).
  unfold origin. rewrite Hnone. eexists. split; [|exact Hnew].
  eapply (published_written cas root); try done. cbn in *. congruence.
Qed.

End origins.

End staging.
