(* ===== verification/ChainSuccessor.v ===== *)
(** * The states the writers build

    The state each operation of [Chain] stages is a successor of the head,
    or the first state of a chain, so that with its objects in the store it
    ends a history. *)

From stdpp Require Import sorting.
From S2P Require Import Prelude Float64 Json CanonicalRef Schedule ScheduleSpec.
From S2P Require Import CasStore ChainObjects ChainValidation Chain ChainHistory ChainValidationCorrect.
From S2P Require Import ChainGrowth ChainStaging.

Section successors.
Context `{WireLaws}.

(** ** Logs of one thread *)

Lemma stored_log_cons e stored : stored_log (e :: stored) = [(object_hash e, e)] ++ stored_log stored.
Proof. done. Qed.
Lemma stored_log_app l k : stored_log (l ++ k) = stored_log l ++ stored_log k.
Proof. apply fmap_app. Qed.
Lemma thread_log_same tid stored :
  Forall (λ e, ev_thread_id e = tid) stored → thread_log tid (stored_log stored) = stored_log stored.
Proof.
  induction 1 as [|e stored He Hall IH]; [done|].
  rewrite stored_log_cons, thread_log_app, thread_log_one, decide_True by done.
  by rewrite IH.
Qed.
Lemma thread_log_other tid tid' stored :
  Forall (λ e, ev_thread_id e = tid) stored → tid' ≠ tid → thread_log tid' (stored_log stored) = [].
Proof.
  intros Hall Hne. induction Hall as [|e stored He Hall IH]; [done|].
  rewrite stored_log_cons, thread_log_app, thread_log_one, decide_False by congruence.
  by rewrite IH.
Qed.

Lemma stored_last events stored p :
  ev_ts <$> stored = ev_ts <$> events → last (stored_log stored) = Some p →
  ∀ floor, ev_ts p.2 = last_time floor events.
Proof.
  intros Ht Hl floor. unfold stored_log in Hl. rewrite fmap_last in Hl. destruct (last stored) as [e|] eqn:He; [|done].
  injection Hl as <-. cbn. unfold last_time. assert (last (ev_ts <$> events) = Some (ev_ts e)) as Hle.
  { by rewrite <- Ht, fmap_last, He. }
  rewrite fmap_last in Hle. destruct (last events); [|done]. by injection Hle.
Qed.
Lemma stored_head events stored p floor :
  ev_ts <$> stored = ev_ts <$> events → ascending floor events → head (stored_log stored) = Some p →
  not_later floor (ev_ts p.2).
Proof.
  destruct stored as [|e stored], events as [|e' events]; try done. cbn. intros [= Ht _] [Hle _] [= <-]. cbn.
  by rewrite Ht.
Qed.
Lemma stored_ends events stored :
  ev_ts <$> stored = ev_ts <$> events → events ≠ [] → ∃ p, last (stored_log stored) = Some p.
Proof.
  intros Ht Hne. destruct stored as [|e stored _] using rev_ind; [by destruct events|].
  exists (object_hash e, e). rewrite stored_log_app. apply last_snoc.
Qed.

(** ** Entries *)

Section entries.
Context (cas0 cas : Cas) (root : string) (log new : Log) (s s' : ChainState).
Hypothesis sub : cas0 ⊆ cas.
Hypothesis valid : valid_log cas root (log ++ new).
Hypothesis same_root : cs_chain_root_id s' = root.
Hypothesis seq : cs_last_chain_seq s' = N.of_nat (length (log ++ new)).

(** An entry of a successor. *)
Definition settled (tid : string) (entry : ChainThreadEntry) : Prop :=
  covers log new tid entry ∧ origin cas log new s s' tid entry.

(** The entries before the snapshot updates carry over to those after. *)
Lemma updates_settled tid append stored added prevs updates threads threads' ups p :
  (∀ t entry, threads !! t = Some entry → settled t entry) →
  last new = Some p → append = ev_ts p.2 →
  each_from (load_previous cas0 root s added) ∅ updates = Ok prevs →
  each_from (apply_update cas0 tid append (cs_last_chain_seq s') stored prevs) (threads, []) updates =
    Ok (threads', ups) →
  Forall (λ u, exact_snapshot (up_new_snapshot u)) updates →
  (∀ u, u ∈ ups → written cas (up_new_snapshot u) ∧
                  not_later (sn_updated_at (up_new_snapshot u)) (cs_updated_at s')) →
  ∀ t entry, threads' !! t = Some entry → settled t entry.
Proof.
  intros Hbase Hp Ha Hload Happly Hx Hups t entry He.
  destruct (load_previous_all _ _ _ _ _ _ _ Hload) as (_ & Hnd & _ & Hprev).
  destruct (apply_updates_all _ _ _ _ _ _ _ _ _ _ _ Happly Hnd) as (Hsame & ups1 & -> & Hall). cbn in *.
  destruct (decide (t ∈ touched updates)) as [Hin|Hnot]; [|rewrite Hsame in He by done; auto].
  apply list_elem_of_fmap in Hin as (u & -> & Hin). pose proof Hin as Hu.
  apply list_elem_of_lookup in Hin as [i Hi].
  destruct (Forall2_lookup_l _ _ _ _ _ Hall Hi) as (u' & Hi' & entry0 & previous & Hid & He0 & Hpr & Hnorm & Hres).
  rewrite He in Hres. injection Hres as ->. destruct (Hbase _ _ He0) as [Hcov _].
  split; [done|]. destruct (Hprev _ Hu) as (Hsid & Hsroot & _ & previous' & Hpr' & Hcur).
  assert (previous' = previous) as -> by congruence.
  destruct (Hups u') as [Hw Htime]; [by eapply list_elem_of_lookup_2|].
  eapply (update_origin cas0 cas root); try done. by eapply Forall_lookup_1 in Hx.
Qed.

Lemma updates_domain tid append final stored prevs updates threads threads' ups added t :
  each_from (load_previous cas0 root s added) ∅ updates = Ok prevs →
  each_from (apply_update cas0 tid append final stored prevs) (threads, []) updates = Ok (threads', ups) →
  is_Some (threads !! t) → is_Some (threads' !! t).
Proof.
  intros Hload Happly Hs. destruct (load_previous_all _ _ _ _ _ _ _ Hload) as (_ & Hnd & _ & _).
  destruct (apply_updates_all _ _ _ _ _ _ _ _ _ _ _ Happly Hnd) as (Hsame & ups1 & -> & Hall).
  destruct (decide (t ∈ touched updates)) as [Hin|Hnot]; [|by rewrite Hsame].
  apply list_elem_of_fmap in Hin as (u & -> & [i Hi]%list_elem_of_lookup).
  destruct (Forall2_lookup_l _ _ _ _ _ Hall Hi) as (u' & _ & entry & previous & _ & _ & _ & _ & ->). eauto.
Qed.

End entries.

(** ** Appending *)

(** The entry of the thread that gets the events, and the others. *)
Lemma append_covers cas0 log hs root s tid entry stored lth :
  history cas0 root (object_hash s) log hs s → cs_threads s !! tid = Some entry →
  Forall (λ e, ev_thread_id e = tid) stored →
  lth = last_hash (thread_log tid (log ++ stored_log stored)) →
  ∀ t e, <[tid := with_event entry lth (te_last_thread_seq entry + N.of_nat (length stored))%N]>
           (cs_threads s) !! t = Some e →
    covers log (stored_log stored) t e ∧
    ∃ e0, cs_threads s !! t = Some e0 ∧ te_snapshot_hash e = te_snapshot_hash e0 ∧ te_status e = te_status e0.
Proof.
  intros [_ _ Hcl] He Hall -> t e. destruct Hcl. destruct (decide (tid = t)) as [<-|Hne].
  - rewrite lookup_insert_eq. intros [= <-]. destruct (hc_entry _ _ He) as [Hs _]. split; [|by exists entry].
    split; [|done]. cbn. rewrite Hs, thread_log_app, thread_log_same, length_app by done.
    unfold stored_log. rewrite length_fmap. lia.
  - rewrite lookup_insert_ne by done. intros Ht. destruct (hc_entry _ _ Ht) as [Hs Hh]. split; [|by exists e].
    split; by rewrite thread_log_app, (thread_log_other tid), app_nil_r.
Qed.

Lemma append_history cas0 cas root s log hs tid entry events events' append stored lh lth
    updates prevs threads' ups updated_at final_chain final_thread :
  history cas0 root (object_hash s) log hs s → cas0 ⊆ cas →
  cs_threads s !! tid = Some entry →
  events ≠ [] → Forall (λ e, exact 1 (ev_payload e)) events →
  Forall (λ u, exact_snapshot (up_new_snapshot u)) updates →
  each_from (load_previous cas0 root s None) ∅ updates = Ok prevs →
  check_events root tid events = Ok tt →
  normalize_event_timestamps events (cs_updated_at s) = Ok (events', append) →
  final_chain = (cs_last_chain_seq s + N.of_nat (length events'))%N →
  final_thread = (te_last_thread_seq entry + N.of_nat (length events'))%N →
  stage_events (cs_last_chain_seq s + 1)%N (te_last_thread_seq entry) 0%N (cs_last_event_hash s)
    (te_last_event_hash entry) events' = Ok (stored, lh, lth) →
  each_from (apply_update cas0 tid append final_chain stored prevs)
    (<[tid := with_event entry lth final_thread]> (cs_threads s), []) updates = Ok (threads', ups) →
  (∀ f, f ∈ cs_updated_at s :: append :: map (λ u, sn_updated_at (up_new_snapshot u)) ups → not_later f updated_at) →
  let s' := new_chain_state root (Some (object_hash s)) lh final_chain updated_at threads' in
  validate_state s' = Ok tt →
  (∀ w, w ∈ (map object_write stored ++ map (λ u, object_write (up_new_snapshot u)) ups) ++ [object_write s'] →
        cas !! w.1 = Some w.2) →
  history cas root (object_hash s') (log ++ stored_log stored) (hs ++ [object_hash s']) s'.
Proof.
  intros Hold Hsub He Hne Hx Hxu Hload Hcheck Hnorm Hfc Hft Hstage Happly Hnow s' Hv Hw.
  assert (Hwe : ∀ e, e ∈ stored → written cas e).
  { intros e Hin. apply (Hw (object_write e)). do 2 (apply elem_of_app; left). by apply list_elem_of_fmap_2. }
  assert (Hwu : ∀ u, u ∈ ups → written cas (up_new_snapshot u)).
  { intros u Hin. apply (Hw (object_write (up_new_snapshot u))). apply elem_of_app; left. apply elem_of_app; right.
    by apply (list_elem_of_fmap_2 (λ u, object_write (up_new_snapshot u))). }
  assert (Hws : written cas s') by (apply (Hw (object_write s')); apply elem_of_app; right; by left).
  pose proof (history_grows _ _ _ _ _ _ _ Hsub Hold) as Hold'. pose proof Hold' as [Hlog Hst Hcl].
  destruct (normalize_events_ascending _ _ _ _ Hnorm) as (Hasc & Happ & Hret).
  pose proof (retimed_for _ _ _ _ Hret (check_events_exact _ _ _ Hcheck Hx)) as Hfor.
  pose proof (retimed_length _ _ Hret) as Hlen.
  assert (Hne' : events' ≠ []) by (intros ->; by destruct events).
  pose proof Hcl as [Hseq Hhash Htime _ Hent _]. destruct (Hent _ _ He) as [Hes Heh].
  eapply (stage_events_valid cas root tid _ _ _ _ log) in Hstage; [|done|done|done|done|lia|lia|done|done|done].
  destruct Hstage as [Hgl -> Hlth Hall Htimes].
  assert (Hsl : length stored = length events').
  { rewrite <- (length_fmap ev_ts stored), Htimes. apply length_fmap. }
  destruct (stored_ends _ _ Htimes Hne') as [p Hp]. pose proof (stored_last _ _ _ Htimes Hp (cs_updated_at s)) as Hpt.
  assert (Hfinal : final_chain = N.of_nat (length (log ++ stored_log stored))).
  { rewrite length_app. unfold stored_log. rewrite length_fmap. lia. }
  rewrite <- Hsl in Hft. subst final_thread.
  pose proof (append_covers _ _ _ _ _ _ _ _ _ Hold He Hall Hlth) as Hbase.
  eapply (successor_history cas root (object_hash s)); [done|done| |by apply load_written_state].
  split; try done.
  - apply Hnow. by left.
  - intros q Hq. by eapply stored_head.
  - intros q Hq. rewrite Hp in Hq. injection Hq as <-. rewrite Hpt, <- Happ. apply Hnow. right. by left.
  - intros t Ht. eapply updates_domain; [done|done|]. apply lookup_insert_is_Some'. by right.
  - intros q Hq. eapply updates_domain; [done|done|]. apply lookup_insert_is_Some'. left.
    apply list_elem_of_fmap in Hq as (e & -> & Hin). symmetry. by eapply Forall_forall in Hall.
  - intros t e' Ht. assert (settled cas log (stored_log stored) s s' t e') as [[] ?]; [|done].
    eapply (updates_settled cas0 cas root); try done.
    + intros t0 e0 Ht0. destruct (Hbase _ _ Ht0) as (Hc & e1 & He1 & Hs1 & Hs2). split; [done|].
      unfold origin. rewrite He1. by left.
    + rewrite <- Happ. exact Happly.
    + intros u Hu. split; [auto|]. apply Hnow. do 2 right. by apply (list_elem_of_fmap_2 (λ u, sn_updated_at (up_new_snapshot u))).
Qed.

(** ** Adding a thread *)

Lemma absent_log cas0 root h log hs s tid :
  history cas0 root h log hs s → cs_threads s !! tid = None → thread_log tid log = [].
Proof.
  intros [_ _ Hcl] Hnone. destruct (thread_log tid log) as [|p l] eqn:Hl; [done|].
  assert (Hin : p ∈ thread_log tid log) by (rewrite Hl; by left).
  apply thread_log_elem in Hin as [Ht Hin]. destruct (hc_threads _ _ _ Hcl _ Hin) as [e He]. congruence.
Qed.

Lemma new_covers cas0 root h log hs s tid stored lth status :
  history cas0 root h log hs s → cs_threads s !! tid = None →
  Forall (λ e, ev_thread_id e = tid) stored →
  lth = last_hash (thread_log tid (log ++ stored_log stored)) →
  covers log (stored_log stored) tid (unplaced status lth (N.of_nat (length stored))).
Proof.
  intros Hold Hnone Hall ->. split; [|done]. cbn.
  rewrite thread_log_app, (absent_log _ _ _ _ _ _ _ Hold Hnone), thread_log_same by done.
  unfold stored_log. by rewrite length_app, length_fmap.
Qed.

(** The entries of the other threads stay. *)
Lemma other_covers cas0 root h log hs s tid stored t e :
  history cas0 root h log hs s → cs_threads s !! t = Some e → t ≠ tid →
  Forall (λ e, ev_thread_id e = tid) stored → covers log (stored_log stored) t e.
Proof.
  intros [_ _ Hcl] He Hne Hall. destruct (hc_entry _ _ _ Hcl _ _ He) as [Hs Hh].
  split; by rewrite thread_log_app, (thread_log_other tid), app_nil_r.
Qed.

Lemma staged_nil cas root tid log s hs :
  history cas root (object_hash s) log hs s → cs_threads s !! tid = None →
  staged cas root tid log [] [] (cs_last_event_hash s) None.
Proof.
  intros Hold Hnone. pose proof (absent_log _ _ _ _ _ _ _ Hold Hnone) as Hno. destruct Hold as [Hlog _ []].
  split; cbn; rewrite ?app_nil_r, ?Hno; done.
Qed.

Lemma add_history cas0 cas root s log hs tid snapshot events stored lh lth floor source sn
    updated_at final_chain :
  history cas0 root (object_hash s) log hs s → cas0 ⊆ cas →
  cs_threads s !! tid = None → sn_thread_id snapshot = tid → exact_snapshot snapshot →
  staged cas root tid log events stored lh lth → ascending (cs_updated_at s) events →
  final_chain = (cs_last_chain_seq s + N.of_nat (length events))%N →
  let entry := unplaced (sn_status snapshot) lth (N.of_nat (length events)) in
  normalize_and_validate_new_thread (stamp_snapshot_position snapshot entry final_chain)
    root floor source = Ok sn →
  (∀ f, f ∈ [cs_updated_at s; last_time (cs_updated_at s) events; sn_updated_at sn] → not_later f updated_at) →
  let s' := new_chain_state root (Some (object_hash s)) lh final_chain updated_at
    (<[tid := with_snapshot entry (object_hash sn) (sn_status sn)]> (cs_threads s)) in
  validate_state s' = Ok tt → written cas sn → written cas s' →
  history cas root (object_hash s') (log ++ stored_log stored) (hs ++ [object_hash s']) s'.
Proof.
  intros Hold Hsub Hnone Htid Hx [Hgl -> Hlth Hall Htimes] Hasc -> entry Hnorm Hnow s' Hv Hw Hws.
  pose proof (history_grows _ _ _ _ _ _ _ Hsub Hold) as Hold'. pose proof Hold' as [Hlog Hst Hcl].
  assert (Hsl : length stored = length events).
  { rewrite <- (length_fmap ev_ts stored), Htimes. apply length_fmap. }
  pose proof Hcl as [Hseq Hhash Htime _ Hent _].
  assert (Hfinal : cs_last_chain_seq s' = N.of_nat (length (log ++ stored_log stored))).
  { cbn. rewrite length_app. unfold stored_log. rewrite length_fmap. lia. }
  eapply (successor_history cas root (object_hash s)); [done|done| |by apply load_written_state].
  split; try done.
  - apply Hnow. by left.
  - intros q Hq. by eapply stored_head.
  - intros q Hq. rewrite (stored_last _ _ _ Htimes Hq (cs_updated_at s)). apply Hnow. right. by left.
  - intros t Ht. apply lookup_insert_is_Some'. by right.
  - intros q Hq. apply lookup_insert_is_Some'. left.
    apply list_elem_of_fmap in Hq as (e & -> & Hin). symmetry. by eapply Forall_forall in Hall.
  - intros t e' Ht. assert (settled cas log (stored_log stored) s s' t e') as [[] ?]; [|done].
    cbn in Ht. destruct (decide (tid = t)) as [<-|Hne].
    + rewrite lookup_insert_eq in Ht. injection Ht as <-.
      assert (Hc : covers log (stored_log stored) tid entry).
      { unfold entry. rewrite <- Hsl. by eapply new_covers. }
      split; [done|]. eapply (new_origin cas root); try done. apply Hnow. do 2 right. by left.
    + rewrite lookup_insert_ne in Ht by done. split; [by eapply (other_covers _ _ _ _ _ _ tid)|].
      unfold origin. rewrite Ht. by left.
Qed.

(** ** Adding a thread and appending to another *)

(** The entries before the snapshot updates. *)
Lemma add_append_covers cas0 root h log hs s tid added etid existing ln le lth2 t e :
  history cas0 root h log hs s → cs_threads s !! tid = None → cs_threads s !! etid = Some existing →
  Forall (λ e, ev_thread_id e = tid) ln → Forall (λ e, ev_thread_id e = etid) le →
  covers log (stored_log ln) tid added →
  lth2 = last_hash (thread_log etid ((log ++ stored_log ln) ++ stored_log le)) →
  <[etid := with_event existing lth2 (te_last_thread_seq existing + N.of_nat (length le))%N]>
    (<[tid := added]> (cs_threads s)) !! t = Some e →
  covers log (stored_log ln ++ stored_log le) t e.
Proof.
  intros Hold Hnone Hex Hn He Hadd Hlth Ht. assert (Hne : tid ≠ etid) by congruence.
  assert (Happ : ∀ x, thread_log x (log ++ stored_log ln ++ stored_log le) =
    thread_log x (log ++ stored_log ln) ++ thread_log x (stored_log le)).
  { intros x. by rewrite app_assoc, thread_log_app. }
  unfold covers. rewrite Happ. destruct (decide (etid = t)) as [<-|Het]; [|destruct (decide (tid = t)) as [<-|Htt]].
  - rewrite lookup_insert_eq in Ht. injection Ht as <-.
    destruct Hold as [_ _ Hcl]. destruct (hc_entry _ _ _ Hcl _ _ Hex) as [Hs _].
    split; cbn; [|by rewrite Hlth, thread_log_app].
    rewrite Hs, thread_log_app, (thread_log_other tid), thread_log_same, app_nil_r, length_app by done.
    unfold stored_log. rewrite length_fmap. lia.
  - rewrite lookup_insert_ne, lookup_insert_eq in Ht by done. injection Ht as <-.
    rewrite (thread_log_other etid), app_nil_r by done. done.
  - rewrite !lookup_insert_ne in Ht by done. rewrite (thread_log_other etid), app_nil_r by done.
    by destruct (other_covers _ _ _ _ _ _ tid ln _ _ Hold Ht (not_eq_sym Htt) Hn).
Qed.

Lemma last_time_app floor l k : k ≠ [] → last_time floor (l ++ k) = last_time (last_time floor l) k.
Proof.
  intros Hk. unfold last_time. rewrite last_app. destruct (last k) eqn:E; [done|]. by apply last_None in E.
Qed.
Lemma stored_log_length stored : length (stored_log stored) = length stored.
Proof. apply length_fmap. Qed.

Lemma add_append_history cas0 cas root s log hs tid snapshot etid existing evn eve stn ste lh1 lth1 lh2 lth2
    append source sn updates prevs threads' ups updated_at final_chain :
  history cas0 root (object_hash s) log hs s → cas0 ⊆ cas →
  cs_threads s !! tid = None → sn_thread_id snapshot = tid → exact_snapshot snapshot →
  cs_threads s !! etid = Some existing →
  Forall (λ u, exact_snapshot (up_new_snapshot u)) updates →
  each_from (load_previous cas0 root s (Some tid)) ∅ updates = Ok prevs →
  staged cas root tid log evn stn lh1 lth1 →
  staged cas root etid (log ++ stored_log stn) eve ste lh2 lth2 →
  ascending (cs_updated_at s) evn → evn ≠ [] → eve ≠ [] → append = last_time (cs_updated_at s) eve →
  final_chain = (cs_last_chain_seq s + (N.of_nat (length evn) + N.of_nat (length eve)))%N →
  let entry := unplaced (sn_status snapshot) lth1 (N.of_nat (length evn)) in
  normalize_and_validate_new_thread (stamp_snapshot_position snapshot entry final_chain)
    root append source = Ok sn →
  each_from (apply_update cas0 etid append final_chain (stn ++ ste) prevs)
    (<[etid := with_event existing lth2 (te_last_thread_seq existing + N.of_nat (length eve))%N]>
       (<[tid := with_snapshot entry (object_hash sn) (sn_status sn)]> (cs_threads s)), []) updates =
    Ok (threads', ups) →
  (∀ f, f ∈ cs_updated_at s :: append :: sn_updated_at sn ::
          map (λ u, sn_updated_at (up_new_snapshot u)) ups → not_later f updated_at) →
  let s' := new_chain_state root (Some (object_hash s)) lh2 final_chain updated_at threads' in
  validate_state s' = Ok tt → written cas sn → written cas s' →
  (∀ u, u ∈ ups → written cas (up_new_snapshot u)) →
  history cas root (object_hash s') (log ++ stored_log (stn ++ ste)) (hs ++ [object_hash s']) s'.
Proof.
  intros Hold Hsub Hnone Htid Hx Hex Hxu Hload [_ _ Hlth1 Hall1 Htimes1] [Hgl -> Hlth2 Hall2 Htimes2] Hasc
    Hne1 Hne2 Happ -> entry Hnorm Happly Hnow s' Hv Hw Hws Hwu.
  pose proof (history_grows _ _ _ _ _ _ _ Hsub Hold) as Hold'. pose proof Hold' as [Hlog Hst Hcl].
  assert (Hlen : ∀ st ev, ev_ts <$> st = ev_ts <$> ev → length st = length ev).
  { intros st ev Ht. rewrite <- (length_fmap ev_ts st), Ht. apply length_fmap. }
  pose proof (Hlen _ _ Htimes1) as Hl1. pose proof (Hlen _ _ Htimes2) as Hl2.
  rewrite stored_log_app. rewrite <- app_assoc in Hgl.
  destruct (stored_ends _ _ Htimes2 Hne2) as [p Hp]. pose proof (stored_last _ _ _ Htimes2 Hp (cs_updated_at s)) as Hpt.
  assert (Hlast : last (stored_log stn ++ stored_log ste) = Some p) by by rewrite last_app, Hp.
  assert (Hfinal : cs_last_chain_seq s' = N.of_nat (length (log ++ stored_log stn ++ stored_log ste))).
  { cbn. rewrite !length_app, !stored_log_length. pose proof (hc_seq _ _ _ Hcl). lia. }
  assert (Hadded : covers log (stored_log stn) tid entry).
  { unfold entry. rewrite <- Hl1. by eapply new_covers. }
  pose proof (λ t e, add_append_covers _ _ _ _ _ _ _ (with_snapshot entry (object_hash sn) (sn_status sn))
    _ _ _ _ _ t e Hold Hnone Hex Hall1 Hall2 Hadded Hlth2) as Hbase. rewrite Hl2 in Hbase.
  assert (Hdom : ∀ t, is_Some (cs_threads s !! t) ∨ t = tid → is_Some (threads' !! t)).
  { intros t Ht. eapply updates_domain; [done|done|]. rewrite !lookup_insert_is_Some'. naive_solver. }
  eapply (successor_history cas root (object_hash s)); [done|done| |by apply load_written_state].
  split; try done.
  - cbn. by rewrite app_assoc.
  - apply Hnow. by left.
  - intros q Hq. apply (stored_head evn stn); [done|done|]. destruct stn; [by destruct evn|done].
  - intros q Hq. rewrite Hlast in Hq. injection Hq as <-. rewrite Hpt, <- Happ. apply Hnow. right. by left.
  - intros t Ht. apply Hdom. by left.
  - intros q [Hq|Hq]%elem_of_app; apply list_elem_of_fmap in Hq as (e & -> & Hin); apply Hdom; [right|left].
    + by eapply Forall_forall in Hall1.
    + eapply Forall_forall in Hall2; [|done]. cbn in *. rewrite Hall2. eauto.
  - intros t e' Ht. assert (settled cas log (stored_log stn ++ stored_log ste) s s' t e') as [[] ?]; [|done].
    eapply (updates_settled cas0 cas root _ _ s s' Hsub Hgl eq_refl Hfinal etid append); try done.
    + intros t0 e0 Ht0. split; [by apply Hbase|]. apply Hbase in Ht0 as Hc. unfold origin.
      destruct (decide (etid = t0)) as [<-|Hne]; [rewrite lookup_insert_eq in Ht0; injection Ht0 as <-; rewrite Hex; by left|].
      rewrite lookup_insert_ne in Ht0 by done. destruct (decide (tid = t0)) as [<-|Hne'].
      * rewrite lookup_insert_eq in Ht0. injection Ht0 as <-.
        eapply (new_origin cas root log (stored_log stn ++ stored_log ste) s s'); try done.
        apply Hnow. do 2 right. by left.
      * rewrite lookup_insert_ne in Ht0 by done. rewrite Ht0. by left.
    + by rewrite Hpt.
    + intros u Hu. split; [auto|]. apply Hnow. do 3 right.
      by apply (list_elem_of_fmap_2 (λ u, sn_updated_at (up_new_snapshot u))).
Qed.

(** ** Creating a chain *)

Lemma create_history cas root snapshot floor sn updated_at :
  sn_thread_id snapshot = root → exact_snapshot snapshot →
  let entry := unplaced (sn_status snapshot) None 0%N in
  normalize_and_validate_new_thread (stamp_snapshot_position snapshot entry 0%N) root floor None = Ok sn →
  not_later (sn_updated_at sn) updated_at →
  let s' := new_chain_state root None None 0%N updated_at
    {[ root := with_snapshot entry (object_hash sn) (sn_status sn) ]} in
  validate_state s' = Ok tt → written cas sn → written cas s' →
  history cas root (object_hash s') [] [object_hash s'] s'.
Proof.
  intros Htid Hx entry Hnorm Htime s' Hv Hw Hws.
  destruct (normalized_new _ _ _ _ _ Hnorm) as ([u ->] & Hroot & Hvs & Hnew & _).
  eapply genesis_history; try done; [by apply load_written_state|].
  eapply (published_written cas root); try done. apply valid_nil.
Qed.

Lemma stage_same_hashes first_seq thread_seq offset lh events stored lh' lth' :
  stage_events first_seq thread_seq offset lh lh events = Ok (stored, lh', lth') → lth' = lh'.
Proof.
  revert offset lh stored. induction events as [|e events IH]; intros offset lh stored; cbn.
  - by intros [= _ <- <-].
  - intros Hok. facts Hok.
    destruct x1 as [[st a] b]. injection Hok as <- <- <-. by eapply IH.
Qed.

Lemma create_events_history cas root snapshot floor sn genesis_at events events' append stored lh lth updated_at :
  sn_thread_id snapshot = root → exact_snapshot snapshot →
  let entry := unplaced (sn_status snapshot) None 0%N in
  normalize_and_validate_new_thread (stamp_snapshot_position snapshot entry 0%N) root floor None = Ok sn →
  not_later (sn_updated_at sn) genesis_at →
  let g := new_chain_state root None None 0%N genesis_at
    {[ root := with_snapshot entry (object_hash sn) (sn_status snapshot) ]} in
  validate_state g = Ok tt → written cas sn → written cas g →
  events ≠ [] → Forall (λ e, exact 1 (ev_payload e)) events → check_events root root events = Ok tt →
  normalize_event_timestamps events genesis_at = Ok (events', append) →
  stage_events 1%N 0%N 0%N None None events' = Ok (stored, lh, lth) →
  (∀ f, f ∈ [append; genesis_at] → not_later f updated_at) →
  let s' := new_chain_state root (Some (object_hash g)) lh (N.of_nat (length events')) updated_at
    {[ root := {| te_snapshot_hash := object_hash sn; te_last_event_hash := lh;
                  te_last_thread_seq := N.of_nat (length events'); te_status := sn_status sn |} ]} in
  validate_state s' = Ok tt → (∀ e, e ∈ stored → written cas e) → written cas s' →
  history cas root (object_hash s') (stored_log stored) [object_hash g; object_hash s'] s'.
Proof.
  intros Htid Hx entry Hnorm Htime g Hvg Hw Hwg Hne Hxe Hcheck Hnev Hstage Hnow s' Hv Hwe Hws.
  assert (Hstat : sn_status sn = sn_status snapshot).
  { destruct (normalized_new _ _ _ _ _ Hnorm) as ([u ->] & _). done. }
  assert (Hg : history cas root (object_hash g) [] [object_hash g] g).
  { unfold g in *. rewrite <- Hstat in *. by eapply create_history. }
  assert (Hth : <[root := with_event (with_snapshot entry (object_hash sn) (sn_status snapshot)) lh
      (N.of_nat (length events'))]> (cs_threads g) = cs_threads s').
  { cbn. rewrite insert_singleton_eq. unfold with_event. cbn. by rewrite Hstat. }
  pose proof (stage_same_hashes _ _ _ _ _ _ _ _ Hstage) as ->.
  refine (append_history cas cas root g [] [object_hash g] root
    (with_snapshot entry (object_hash sn) (sn_status snapshot)) events events' append stored lh lh
    [] ∅ (cs_threads s') [] updated_at (N.of_nat (length events')) (N.of_nat (length events'))
    Hg _ _ Hne Hxe _ _ Hcheck Hnev _ _ Hstage _ _ Hv _); try done.
  - apply lookup_singleton_eq.
  - by rewrite Hth.
  - intros f [->|[->|Hf]%elem_of_cons]%elem_of_cons; [apply Hnow; right; by left|apply Hnow; by left|].
    by apply not_elem_of_nil in Hf.
  - rewrite app_nil_r. intros w [Hin|Hin]%elem_of_app.
    + apply list_elem_of_fmap in Hin as (e & -> & He). by apply Hwe.
    + apply list_elem_of_singleton in Hin as ->. exact Hws.
Qed.

End successors.
