(* ===== verification/ChainCorrect.v ===== *)
(** * Chains that are written

    Every operation of [Chain], whether it completes, fails or is stopped at
    a durable write, leaves every head with a history: the store an
    operation leaves has the head it had, or a new head whose history
    extends the history of the old one. *)

From stdpp Require Import sorting.
From S2P Require Import Prelude Float64 Json CanonicalRef Schedule ScheduleSpec.
From S2P Require Import CasStore ChainObjects ChainValidation Chain ChainHistory ChainValidationCorrect.
From S2P Require Import ChainGrowth ChainStaging ChainSuccessor.

(** ** Outcomes of operations

    [Q] holds of the result and the store an operation returns with, [R] of
    the store it fails or is stopped in. *)
Definition wp {A} (m : Op A) (Q : A → Store → Prop) (R : Store → Prop) (s : Store) : Prop :=
  match m s with (Ok a, s') => Q a s' | (Err _, s') => R s' end.

Lemma wp_bind {A B} (m : Op A) (f : A → Op B) Q R s :
  wp m (λ a s', wp (f a) Q R s') R s → wp (m ≫= f) Q R s.
Proof. unfold wp, mbind, m_bind. by destruct (m s) as [[a|e] s']. Qed.
Lemma wp_mono {A} (m : Op A) (Q Q' : A → Store → Prop) (R R' : Store → Prop) s :
  wp m Q R s → (∀ a s', Q a s' → Q' a s') → (∀ s', R s' → R' s') → wp m Q' R' s.
Proof. unfold wp. destruct (m s) as [[a|e] s']; auto. Qed.
Lemma wp_ret {A} (a : A) Q R s : Q a s → wp (mret a) Q R s.
Proof. done. Qed.
Lemma wp_get Q R s : Q s s → wp get Q R s.
Proof. done. Qed.
Lemma wp_lift {A} (r : Sch A) (Q : A → Store → Prop) (R : Store → Prop) s :
  R s → (∀ a, r = Ok a → Q a s) → wp (lift r) Q R s.
Proof. unfold wp, lift. destruct r; auto. Qed.
Lemma wp_throw {A} fault (Q : A → Store → Prop) (R : Store → Prop) s : R s → wp (throw fault) Q R s.
Proof. done. Qed.

(** Follows the binds of an operation up to its next effect. *)
Ltac wps :=
  repeat match goal with
  | |- wp (_ ≫= _) _ _ _ => apply wp_bind
  | |- wp (mret _) _ _ _ => apply wp_ret
  | |- wp get _ _ _ => apply wp_get
  end.

(** The store has more objects and the same heads. *)
Definition grown (s s' : Store) : Prop := st_cas s ⊆ st_cas s' ∧ st_heads s' = st_heads s.

Lemma grown_refl s : grown s s.
Proof. done. Qed.
Lemma grown_trans s1 s2 s3 : grown s1 s2 → grown s2 s3 → grown s1 s3.
Proof. intros [H1 E1] [H2 E2]. split; [by etrans|congruence]. Qed.

(** The store has the same objects and heads. *)
Definition quiet (s s' : Store) : Prop := st_cas s' = st_cas s ∧ st_heads s' = st_heads s.
Lemma quiet_grown s1 s2 s3 : grown s1 s2 → quiet s2 s3 → grown s1 s3.
Proof. intros [H1 E1] [H2 E2]. split; [by rewrite H2|congruence]. Qed.

Lemma wp_durable f (Q : unit → Store → Prop) (R : Store → Prop) s :
  R s → (∀ readings sequence kill, Q tt (with_counters (f s) readings sequence kill)) →
  (∀ s', with_counters s' (st_readings s') (st_sequence s') (st_kill s') = s') →
  wp (durable f) Q R s.
Proof.
  intros HR HQ Heta. unfold wp, durable. destruct (st_kill s) as [[|n]|]; [done|apply HQ|].
  rewrite <- (Heta (f s)). apply HQ.
Qed.
Lemma counters_eta s : with_counters s (st_readings s) (st_sequence s) (st_kill s) = s.
Proof. by destruct s. Qed.

Section objects.

Lemma prepare_batch_all (cas : Cas) writes prepared :
  prepare_batch cas writes = Ok prepared →
  ∀ w, w ∈ writes → cas !! w.1 = Some w.2 ∨ w ∈ prepared.
Proof.
  revert prepared. induction writes as [|[hash data] writes IH]; intros prepared Hp w Hw;
    [by apply not_elem_of_nil in Hw|]. cbn in Hp. destruct (cas !! hash) as [old|] eqn:Hc.
  - unfold verify_batch_entry in Hp. rewrite Hc in Hp. facts Hp. facts E. injection E0 as <-. subst.
    apply elem_of_cons in Hw as [->|Hw]; [by left|]. by apply IH.
  - facts Hp. subst. apply elem_of_cons in Hw as [->|Hw]; [right; by left|].
    destruct (IH _ E w Hw); [by left|right; by right].
Qed.

Lemma publish_entry_all (cas cas' : Cas) hash data :
  publish_entry cas hash data = Ok cas' → cas ⊆ cas' ∧ cas' !! hash = Some data.
Proof.
  unfold publish_entry. destruct (cas !! hash) as [old|] eqn:Hc.
  - unfold verify_batch_entry. intros Hp. rewrite Hc in Hp. facts Hp. facts E. injection E0 as <-. by subst.
  - intros [= <-]. split; [by apply insert_subseteq|apply lookup_insert_eq].
Qed.

Lemma publish_one s0 s w :
  grown s0 s →
  wp (publish_prepared w) (λ _ s', grown s s' ∧ st_cas s' !! w.1 = Some w.2) (grown s0) s.
Proof.
  intros Hg. destruct w as [hash data]. unfold publish_prepared, cas_of. wps.
  apply wp_lift; [done|]. intros cas' (Hsub & Hin)%publish_entry_all. case_decide as Hnone.
  - apply wp_durable; [done| |apply counters_eta]. done.
  - apply wp_ret. split; [done|]. cbn. destruct (st_cas s !! hash) as [old|] eqn:Hc; [|done].
    assert (cas' !! hash = Some old) as E by exact (lookup_weaken _ _ _ _ Hc Hsub). congruence.
Qed.
Lemma publish_all prepared s0 s :
  grown s0 s →
  wp (for_each publish_prepared prepared)
    (λ _ s', grown s s' ∧ ∀ w, w ∈ prepared → st_cas s' !! w.1 = Some w.2) (grown s0) s.
Proof.
  revert s. induction prepared as [|w prepared IH]; intros s Hg; cbn [for_each].
  { apply wp_ret. split; [done|]. by intros ? ?%not_elem_of_nil. }
  apply wp_bind. eapply wp_mono; [by apply publish_one| |done]. intros [] s1 [Hg1 Hin1].
  eapply wp_mono; [by apply IH, (grown_trans _ s)| |done].
  intros [] s2 [Hg2 Hall]. split; [by eapply grown_trans|].
  intros w' [->|Hw]%elem_of_cons; [|auto]. destruct Hg2 as [Hs2 _]. exact (lookup_weaken _ _ _ _ Hin1 Hs2).
Qed.

Lemma write_batch s0 s writes :
  grown s0 s →
  wp (write_cas_batch writes)
    (λ _ s', grown s0 s' ∧ ∀ w, w ∈ writes → st_cas s' !! w.1 = Some w.2) (grown s0) s.
Proof.
  intros Hg. unfold write_cas_batch, cas_of. wps.
  apply wp_lift; [done|]. intros prepared Hp.
  eapply wp_mono; [by apply publish_all| |done]. intros [] s' [Hg' Hall]. split; [by eapply grown_trans|].
  intros w Hw. destruct (prepare_batch_all _ _ _ Hp w Hw) as [Hin|Hin]; [|auto].
  destruct Hg' as [Hsub _]. exact (lookup_weaken _ _ _ _ Hin Hsub).
Qed.

End objects.

(** ** Operations that leave objects and heads alone *)

Definition silent {A} (m : Op A) : Prop := ∀ s, quiet s (m s).2.

Lemma silent_bind {A B} (m : Op A) (f : A → Op B) : silent m → (∀ a, silent (f a)) → silent (m ≫= f).
Proof.
  intros Hm Hf s. unfold mbind, m_bind. specialize (Hm s). destruct (m s) as [[a|e] s']; [|done].
  specialize (Hf a s'). destruct Hm as [H1 H2], Hf as [H3 H4]. split; cbn in *; congruence.
Qed.
Lemma silent_ret {A} (a : A) : silent (mret a).
Proof. done. Qed.
Lemma silent_lift {A} (r : Sch A) : silent (lift r).
Proof. done. Qed.
Lemma silent_throw {A} fault : silent (throw fault : Op A).
Proof. done. Qed.
Lemma silent_get_bind {A} (f : Store → Op A) : (∀ s, quiet s (f s s).2) → silent (get ≫= f).
Proof. done. Qed.
Lemma silent_durable f : (∀ s, quiet s (f s)) → silent (durable f).
Proof. intros Hf s. unfold durable. by destruct (st_kill s) as [[|n]|]; [|apply Hf|apply Hf]. Qed.
Lemma silent_reading : silent reading.
Proof. done. Qed.
Create HintDb silent.
#[export] Hint Resolve silent_ret silent_lift silent_throw silent_reading : silent.
Ltac silent :=
  repeat first
    [ progress intros
    | solve [eauto 2 with silent]
    | match goal with |- silent (_ ≫= _) => apply silent_bind end
    | case_match ].

Lemma silent_get : silent get.
Proof. done. Qed.
#[export] Hint Resolve silent_get : silent.

Lemma wp_silent {A} (m : Op A) s0 s :
  silent m → grown s0 s → wp m (λ _ s', grown s0 s' ∧ quiet s s') (grown s0) s.
Proof.
  intros Hm Hg. unfold wp. specialize (Hm s). destruct (m s) as [[a|e] s']; cbn in Hm; [split; [|done]|];
    by eapply quiet_grown.
Qed.

Section quiet.
Context `{Externals} `{Sha256} `{JsonReader} `{UnicodeTables} `{NaiveDateTime}.
Context `{Wire ThreadEvent} `{Wire ThreadSnapshot} `{Wire ChainState}.
Context `{Ed25519} `{SystemTime} `{Process}.

Lemma silent_cache_insert root cached : silent (cache_insert root cached).
Proof. done. Qed.
Lemma silent_cache_invalidate root : silent (cache_invalidate root).
Proof. done. Qed.
Lemma silent_now : silent iso8601_now.
Proof. unfold iso8601_now. silent. Qed.
Lemma silent_unique prefix : silent (unique_id prefix).
Proof. done. Qed.
Hint Resolve silent_cache_insert silent_cache_invalidate silent_now silent_unique : silent.
Lemma silent_now_after floors : silent (now_after floors).
Proof. unfold now_after. silent. Qed.
Lemma silent_read_pending root : silent (read_pending root).
Proof. unfold read_pending. silent. Qed.
Lemma silent_write_pending record : silent (write_pending record).
Proof. unfold write_pending. silent. by apply silent_durable. Qed.
Hint Resolve silent_now_after silent_read_pending silent_write_pending : silent.
Lemma silent_prepare_set lock root expected target : silent (prepare_set lock root expected target).
Proof. unfold prepare_set. silent. Qed.
Lemma silent_advance_phase lock root id expected next : silent (advance_phase lock root id expected next).
Proof. unfold advance_phase. silent. Qed.
Lemma silent_acknowledge lock root id : silent (acknowledge lock root id).
Proof. unfold acknowledge. silent. by apply silent_durable. Qed.
Lemma silent_read_head lock trust : silent (read_verified_head lock trust).
Proof. unfold read_verified_head. silent. Qed.
Hint Resolve silent_prepare_set silent_advance_phase silent_read_head : silent.
Lemma silent_verify_head lock root expected trust :
  silent (verify_expected_current_head lock root expected trust).
Proof. unfold verify_expected_current_head. silent. Qed.
Lemma silent_read_chain_head lock root trust : silent (read_chain_head_for_mutation lock root trust).
Proof. unfold read_chain_head_for_mutation, cas_of. silent. Qed.
Hint Resolve silent_verify_head silent_read_chain_head : silent.
Lemma silent_read_thread lock root tid trust : silent (read_thread_snapshot_with_trust lock root tid trust).
Proof. unfold read_thread_snapshot_with_trust, cas_of. silent. Qed.

End quiet.
#[export] Hint Resolve silent_cache_insert silent_now_after silent_prepare_set silent_advance_phase
  silent_verify_head silent_read_chain_head : silent.

(** ** Publication *)

(** The objects of [s'] and the heads of [s], with [target] as the new head
    of a chain. *)
Definition headed (s : Store) (root target : string) (s' : Store) : Prop :=
  st_cas s ⊆ st_cas s' ∧
  ∃ r, st_heads s' = <[root := r]> (st_heads s) ∧ sr_target_hash r = target.

Lemma headed_quiet s root target s1 s2 : headed s root target s1 → quiet s1 s2 → headed s root target s2.
Proof. intros [Hsub (r & Hr & Ht)] [Hc Hh]. split; [by rewrite Hc|]. exists r. split; [congruence|done]. Qed.

(** The batch of a write, with its new state, is stored and its head
    published. *)
Definition committed `{Externals} `{Sha256} `{Wire ChainState} (s : Store) (root : string)
    (writes : list (string * string)) (state : ChainState) (s' : Store) : Prop :=
  headed s root (object_hash state) s' ∧
  ∀ w, w ∈ writes ++ [object_write state] → st_cas s' !! w.1 = Some w.2.

Section publication.
Context `{Externals} `{Sha256} `{JsonReader} `{UnicodeTables} `{NaiveDateTime}.
Context `{Wire ThreadEvent} `{Wire ThreadSnapshot} `{Wire ChainState}.
Context `{Ed25519} `{SystemTime} `{Process}.

Lemma write_head s0 s lock r signer :
  grown s0 s →
  wp (write_signed_head lock r signer) (λ _ s', headed s0 lock (sr_target_hash r) s' ∧ st_cas s' = st_cas s) (grown s0) s.
Proof.
  intros Hg. unfold write_signed_head. wps. apply wp_lift; [done|]. intros r' Hr.
  unfold encode_signed_ref in Hr. facts Hr. subst r'.
  apply wp_durable; [done| |apply counters_eta]. intros. destruct Hg as [Hsub Hh]. split; [|done].
  split; [done|]. eexists. cbn. by rewrite Hh.
Qed.

Lemma publish_head s0 s lock root expected target updated signer trust :
  grown s0 s →
  wp (publish_chain_head lock root expected target updated signer trust)
    (λ _ s', headed s0 root target s' ∧ st_cas s' = st_cas s)
    (λ s', grown s0 s' ∨ headed s0 root target s' ∧ st_cas s' = st_cas s) s.
Proof.
  intros Hg. unfold publish_chain_head, cas_of. wps. apply wp_lift; [by left|]. intros [] Hlock.
  unfold ensure_lock_protects in Hlock. facts Hlock. subst root.
  wps. eapply wp_mono; [by apply wp_silent; [apply silent_verify_head|]| |by left]. intros [] s1 [Hg1 [Hc1 _]].
  wps. apply wp_lift; [by left|]. intros object _. wps. apply wp_lift; [by left|]. intros value _.
  wps. eapply wp_mono; [by apply wp_silent; [apply silent_prepare_set|]| |by left]. intros pending s2 [Hg2 [Hc2 _]].
  wps. eapply wp_mono; [by apply write_head| |by left]. intros [] s3 [Hh3 Hc3]. cbn in Hh3.
  assert (Hc : st_cas s3 = st_cas s) by congruence.
  case_decide; [|by apply wp_ret].
  wps. unfold wp. match goal with |- match ?m s3 with _ => _ end => 
    pose proof (silent_advance_phase lock lock (pt_transition_id pending) Prepared HeadPublished s3) as Hq;
    destruct (m s3) as [[record|e] s4] end; cbn in Hq.
  - split; [by eapply headed_quiet|]. destruct Hq. congruence.
  - right. split; [by eapply headed_quiet|]. destruct Hq. congruence.
Qed.

Lemma commit_outcome s0 s lock root writes expected state check signer trust :
  grown s0 s → silent check →
  wp (commit lock root writes expected state check signer trust)
    (λ hash s', hash = object_hash state ∧ validate_state state = Ok tt ∧ committed s0 root writes state s')
    (λ s', grown s0 s' ∨ validate_state state = Ok tt ∧ committed s0 root writes state s') s.
Proof.
  intros Hg Hcheck. unfold commit. wps. apply wp_lift; [by left|]. intros [] Hv.
  wps. apply wp_lift; [by left|]. intros [] _.
  wps. eapply wp_mono; [by apply write_batch| |by left]. intros [] s1 [Hg1 Hall].
  wps. eapply wp_mono; [by apply wp_silent| |by left]. intros [] s2 [Hg2 [Hc2 _]].
  rewrite <- Hc2 in Hall.
  wps. eapply wp_mono; [by apply publish_head| |].
  - intros [] s3 [Hh Hc]. wps. unfold cache_insert. wps.
    rewrite <- Hc in Hall. by split.
  - intros s3 [Hg3|[Hh Hc]]; [by left|right]. rewrite <- Hc in Hall. by split.
Qed.

Lemma verified_head s0 s lock trust :
  grown s0 s →
  wp (read_verified_head lock trust) (λ head s', s' = s ∧ head = st_heads s !! lock) (grown s0) s.
Proof.
  intros Hg. unfold read_verified_head. wps. destruct (st_heads s !! lock) as [head|]; [|by apply wp_ret].
  wps. apply wp_lift; [done|]. intros [] _. wps. apply wp_lift; [done|]. intros [] _. by apply wp_ret.
Qed.

Lemma head_for_mutation s0 s lock root trust :
  grown s0 s →
  wp (read_chain_head_for_mutation lock root trust)
    (λ state s', grown s0 s' ∧ quiet s s' ∧ lock = root ∧ cs_chain_root_id state = root ∧
       ∃ r, st_heads s !! root = Some r ∧ sr_target_hash r = object_hash state ∧
       load_hashed_chain_state (st_cas s) (object_hash state) = Ok state)
    (grown s0) s.
Proof.
  intros Hg. unfold read_chain_head_for_mutation, cas_of. wps. apply wp_lift; [done|]. intros [] Hlock.
  unfold ensure_lock_protects in Hlock. facts Hlock. subst root.
  wps. eapply wp_mono; [by apply verified_head| |done]. intros head s1 [-> Hhead].
  wps. apply wp_lift; [done|]. intros r Hr%sch_some_ok.
  wps. apply wp_lift; [done|]. intros state Hstate. unfold read_cas_object in Hstate. facts Hstate. subst.
  wps. apply wp_lift; [done|]. intros [] _. wps. apply wp_lift; [done|]. intros [] _.
  wps. apply wp_lift; [done|]. intros [] Hroot. facts Hroot.
  wps. apply wp_lift; [done|]. intros [] Hsame. facts Hsame.
  unfold cache_insert. wps. unfold wp, put, mret, m_ret. cbn.
  split; [done|]. split; [done|]. split; [done|]. split; [done|]. exists r. split; [done|]. split; [done|].
  unfold load_hashed_chain_state. rewrite Hsame, E. cbn. rewrite Hstate. cbn.
  unfold not_canonical. by rewrite Hsame, bool_decide_true.
Qed.

Lemma no_head s0 s lock root trust :
  grown s0 s →
  wp (verify_expected_current_head lock root None trust)
    (λ _ s', s' = s ∧ st_heads s !! root = None) (grown s0) s.
Proof.
  intros Hg. unfold verify_expected_current_head. wps. apply wp_lift; [done|]. intros [] Hlock.
  unfold ensure_lock_protects in Hlock. facts Hlock. subst root.
  wps. eapply wp_mono; [by apply verified_head| |done]. intros head s1 [-> ->].
  destruct (st_heads s !! lock) eqn:E; [by apply wp_throw|by apply wp_ret].
Qed.

Lemma now_after_later s0 s floors :
  grown s0 s →
  wp (now_after floors) (λ now s', grown s0 s' ∧ quiet s s' ∧ ∀ f, f ∈ floors → not_later f now)
    (grown s0) s.
Proof.
  intros Hg. unfold now_after. wps.
  eapply wp_mono; [by apply wp_silent; [apply silent_now|]| |done]. intros now s1 [Hg1 Hq].
  apply wp_lift; [done|]. intros r Hr. split; [done|]. split; [done|]. by eapply monotonic_later.
Qed.

End publication.

(** ** Histories behind the heads *)

Section operations.
Context `{WireLaws} `{Ed25519} `{SystemTime} `{Process}.

(** Every head of the store has a history in it. *)
Definition sound (s : Store) : Prop :=
  ∀ root r, st_heads s !! root = Some r →
    ∃ log hs state, history (st_cas s) root (sr_target_hash r) log hs state.

(** The head of a chain has become [target], the history of which has the
    events [new] after the events [log] of the old head. *)
Definition advanced_from (s : Store) (root : string) (log new : Log) (target : string) (s' : Store) : Prop :=
  headed s root target s' ∧
  ∃ r hs state state', st_heads s !! root = Some r ∧
    history (st_cas s) root (sr_target_hash r) log hs state ∧
    history (st_cas s') root target (log ++ new) (hs ++ [target]) state'.
Definition advanced (s : Store) (root : string) (new : Log) (target : string) (s' : Store) : Prop :=
  ∃ log, advanced_from s root log new target s'.

(** The chain had no head, and now has [target], with the events [new]. *)
Definition founded (s : Store) (root : string) (new : Log) (target : string) (s' : Store) : Prop :=
  headed s root target s' ∧ st_heads s !! root = None ∧
  ∃ hs state, history (st_cas s') root target new hs state.

Definition extended (s : Store) (root : string) (s' : Store) : Prop :=
  ∃ new target, advanced s root new target s' ∨ founded s root new target s'.

(** What an operation on a chain leaves when it fails or is stopped. *)
Definition stopped (s : Store) (root : string) (s' : Store) : Prop := grown s s' ∨ extended s root s'.

Lemma sound_head s root current r :
  sound s → st_heads s !! root = Some r → sr_target_hash r = object_hash current →
  load_hashed_chain_state (st_cas s) (object_hash current) = Ok current →
  ∃ log hs, history (st_cas s) root (object_hash current) log hs current.
Proof.
  intros Hs Hr Ht Hl. destruct (Hs _ _ Hr) as (log & hs & state & Hh). rewrite Ht in Hh.
  destruct (states_head _ _ _ _ _ _ _ (hi_states _ _ _ _ _ _ Hh)) as [[] _].
  assert (state = current) as -> by congruence. eauto.
Qed.

Lemma committed_advanced s root writes state s' r current log hs new :
  st_heads s !! root = Some r → sr_target_hash r = object_hash current →
  history (st_cas s) root (object_hash current) log hs current →
  committed s root writes state s' →
  history (st_cas s') root (object_hash state) (log ++ new) (hs ++ [object_hash state]) state →
  advanced_from s root log new (object_hash state) s'.
Proof.
  intros Hr Ht Hh [Hhead _] Hh'. split; [done|]. exists r, hs, current, state. by rewrite Ht.
Qed.

Lemma committed_sub s root writes state s' : committed s root writes state s' → st_cas s ⊆ st_cas s'.
Proof. by intros [[? _] _]. Qed.

(** An event as it is recorded: with its time, its numbers and its links. *)
Definition recorded (e e' : ThreadEvent) : Prop :=
  ∃ ts chain_seq thread_seq prev_chain prev_thread,
    e' = linked (with_ts e ts) chain_seq thread_seq prev_chain prev_thread.
Lemma stage_recorded first_seq thread_seq offset lh lth events events' stored lh' lth' :
  Forall2 retimed events events' →
  stage_events first_seq thread_seq offset lh lth events' = Ok (stored, lh', lth') →
  Forall2 recorded events stored.
Proof.
  intros Hr. revert offset lh lth stored. induction Hr as [|e e' l l' [ts ->] Hr IH];
    intros offset lh lth stored; cbn [stage_events].
  - intros [= <- _ _]. constructor.
  - intros Hok. facts Hok. destruct x1 as [[st a] b]. injection Hok as <- <- <-. constructor; [|by eapply IH].
    by exists ts, x, x0, lh, lth.
Qed.

(** The steps that read. *)
Ltac check_step := apply wp_bind, wp_lift; [first [done|by left]|].

Lemma append_outcome s lock root tid events updates signer trust :
  sound s → Forall (λ e, exact 1 (ev_payload e)) events →
  Forall (λ u, exact_snapshot (up_new_snapshot u)) updates →
  wp (append_events_with_trust_under_lock lock root tid events updates signer trust)
    (λ r s', ∃ log, advanced_from s root log (stored_log (ar_events r)) (ar_chain_state_hash r) s' ∧
       ar_first_chain_seq r = N.of_nat (S (length log)) ∧ Forall2 recorded events (ar_events r))
    (stopped s root) s.
Proof.
  intros Hs Hx Hxu. unfold append_events_with_trust_under_lock, cas_of.
  check_step. intros [] Hne%sch_reject_ok%bool_decide_eq_false. check_step. intros [] _. check_step. intros [] _.
  apply wp_bind. eapply wp_mono; [apply head_for_mutation, grown_refl| |by left].
  intros current s1 (Hg1 & [Hc1 Hh1] & -> & Hroot & r & Hr & Ht & Hl).
  destruct (sound_head _ _ _ _ Hs Hr Ht Hl) as (log & hs & Hhist).
  check_step. intros entry He%sch_some_ok. wps. rewrite Hc1.
  apply wp_lift; [by left|]. intros prevs Hload.
  check_step. intros [] Hcheck. check_step. intros [events' append] Hnorm.
  check_step. intros first Hfirst%sch_some_ok%checked_add_some.
  check_step. intros final Hfinal%sch_some_ok%checked_add_some.
  check_step. intros fthread Hft%sch_some_ok%checked_add_some.
  check_step. intros [[stored lh] lth] Hstage. rewrite Hfirst in Hstage.
  check_step. intros [threads' ups] Happly. check_step. intros [] _.
  apply wp_bind. eapply wp_mono; [by apply now_after_later| |by left]. intros updated s2 (Hg2 & _ & Hnow).
  set (s' := new_chain_state _ _ _ _ _ _).
  assert (Hfin : ∀ s3, validate_state s' = Ok tt →
    committed s root (map object_write stored ++ map (λ u, object_write (up_new_snapshot u)) ups) s' s3 →
    advanced_from s root log (stored_log stored) (object_hash s') s3).
  { intros s3 Hv Hc. eapply committed_advanced; [done|done|done|done|].
    eapply append_history; try done; [by eapply committed_sub|by destruct Hc]. }
  apply wp_bind. eapply wp_mono; [by apply commit_outcome; [|apply silent_ret]| |].
  - intros hash s3 (-> & Hv & Hc). apply wp_ret. exists log. split; [by apply Hfin|]. split.
    + cbn. pose proof (hc_seq _ _ _ (hi_closure _ _ _ _ _ _ Hhist)). lia.
    + destruct (normalize_events_ascending _ _ _ _ Hnorm) as (_ & _ & Hret).
      by eapply stage_recorded.
  - intros s3 [Hg3|[Hv Hc]]; [by left|right]. eexists _, _. left. exists log. by apply Hfin.
Qed.

(** The last event of a batch is the last event of the state that links it. *)
Lemma stage_events_last first_seq thread_seq offset lh lth events stored lh' lth' :
  stage_events first_seq thread_seq offset lh lth events = Ok (stored, lh', lth') →
  lh' = match last stored with Some e => Some (object_hash e) | None => lh end.
Proof.
  revert offset lh lth stored. induction events as [|e events IH]; intros offset lh lth stored; cbn [stage_events].
  - by intros [= <- <- _].
  - intros Hok. facts Hok. destruct x1 as [[st a] b]. injection Hok as <- <- <-.
    match goal with Hst : stage_events _ _ _ _ _ _ = _ |- _ => apply IH in Hst as -> end.
    rewrite last_cons. by destruct (last st).
Qed.

(** What an append publishes, whatever the values of its events. *)
Lemma append_publishes s lock root tid events updates signer trust :
  wp (append_events_with_trust_under_lock lock root tid events updates signer trust)
    (λ r s', ∃ state, ar_chain_state_hash r = object_hash state ∧ validate_state state = Ok tt ∧
       headed s root (object_hash state) s' ∧ written (st_cas s') state ∧ Forall (written (st_cas s')) (ar_events r) ∧
       ∀ e, last (ar_events r) = Some e → cs_last_event_hash state = Some (object_hash e))
    (λ _, True) s.
Proof.
  unfold append_events_with_trust_under_lock, cas_of.
  check_step. intros [] _. check_step. intros [] _. check_step. intros [] _.
  apply wp_bind. eapply wp_mono; [apply head_for_mutation, grown_refl| |done].
  intros current s1 (Hg1 & _ & -> & _). check_step. intros entry _. wps.
  apply wp_lift; [done|]. intros prevs _. check_step. intros [] _. check_step. intros [events' append] _.
  check_step. intros first _. check_step. intros final _. check_step. intros fthread _.
  check_step. intros [[stored lh] lth] Hstage. check_step. intros [threads' ups] _. check_step. intros [] _.
  apply wp_bind. eapply wp_mono; [by apply now_after_later| |done]. intros updated s2 (Hg2 & _).
  set (s' := new_chain_state _ _ _ _ _ _).
  apply wp_bind. eapply wp_mono; [by apply commit_outcome; [|apply silent_ret]| |done].
  intros hash s3 (-> & Hv & [Hh Hw]). apply wp_ret. exists s'. split_and!; try done.
  - apply (Hw (object_write s')). apply elem_of_app. right. by left.
  - apply Forall_forall. intros e He. apply (Hw (object_write e)). apply elem_of_app. left.
    apply elem_of_app. left. rewrite list_elem_of_In. by apply in_map, list_elem_of_In.
  - intros e He. apply stage_events_last in Hstage. cbn in He. rewrite He in Hstage. done.
Qed.

(** What the last step of an operation establishes. *)
Lemma commit_step {A} s s1 root lock writes expected state check signer trust (f : string → A)
    (Q : A → Store → Prop) (R : Store → Prop) :
  grown s s1 → silent check →
  (∀ s', validate_state state = Ok tt → committed s root writes state s' → Q (f (object_hash state)) s') →
  (∀ s', validate_state state = Ok tt → committed s root writes state s' → R s') →
  (∀ s', grown s s' → R s') →
  wp (hash ← commit lock root writes expected state check signer trust ; mret (f hash)) Q R s1.
Proof.
  intros Hg Hc HQ HR HG. apply wp_bind. eapply wp_mono; [by apply commit_outcome| |].
  - intros hash s' (-> & Hv & Hs'). apply wp_ret. by apply HQ.
  - intros s' [Hs'|[Hv Hs']]; auto.
Qed.

Lemma absent_thread (threads : gmap string ChainThreadEntry) tid message :
  reject (bool_decide (is_Some (threads !! tid))) message = Ok tt → threads !! tid = None.
Proof. rewrite sch_reject_ok, bool_decide_eq_false. apply eq_None_not_Some. Qed.

Lemma add_outcome s lock root snapshot signer trust :
  sound s → exact_snapshot snapshot →
  wp (add_thread_to_chain_with_trust_under_lock lock root snapshot signer trust)
    (λ r s', advanced s root [] (cr_chain_state_hash r) s') (stopped s root) s.
Proof.
  intros Hs Hx. unfold add_thread_to_chain_with_trust_under_lock.
  check_step. intros [] _. check_step. intros [] _. check_step. intros [] _.
  apply wp_bind. eapply wp_mono; [apply head_for_mutation, grown_refl| |by left].
  intros current s1 (Hg1 & [Hc1 Hh1] & -> & Hroot & r & Hr & Ht & Hl).
  destruct (sound_head _ _ _ _ Hs Hr Ht Hl) as (log & hs & Hhist).
  check_step. intros [] Hnone%absent_thread. check_step. intros sn Hnorm.
  apply wp_bind. eapply wp_mono; [by apply now_after_later| |by left]. intros updated s2 (Hg2 & _ & Hnow).
  assert (Hid : sn_thread_id sn = sn_thread_id snapshot).
  { destruct (normalized_new _ _ _ _ _ Hnorm) as ([u ->] & _). done. }
  rewrite Hid. set (s' := new_chain_state _ _ _ _ _ _).
  assert (Hfin : ∀ s3, validate_state s' = Ok tt → committed s root [object_write sn] s' s3 →
    advanced s root [] (object_hash s') s3).
  { intros s3 Hv Hc. eexists. eapply committed_advanced; [done|done|done|done|].
    pose proof (history_grows _ _ _ _ _ _ _ (committed_sub _ _ _ _ _ Hc) Hhist) as Hhist'.
    destruct (Hc) as [_ Hw].
    refine (add_history (st_cas s) (st_cas s3) root current log hs (sn_thread_id snapshot) snapshot [] []
      (cs_last_event_hash current) None _ None sn updated (cs_last_chain_seq current)
      Hhist (committed_sub _ _ _ _ _ Hc) Hnone eq_refl Hx (staged_nil _ _ _ _ _ _ Hhist' Hnone) _ _ Hnorm _ Hv
      (Hw (object_write sn) _) (Hw (object_write s') _)); try done.
    - by rewrite N.add_0_r.
    - intros f [->|[->|[->|Hf]%elem_of_cons]%elem_of_cons]%elem_of_cons; [apply Hnow; by left..|apply Hnow; right; by left|].
      by apply not_elem_of_nil in Hf.
    - by left.
    - right. by left. }
  apply (commit_step s s2 root root); [done|apply silent_ret|done| |by left].
  intros s3 Hv Hc. right. eexists _, _. left. by apply Hfin.
Qed.

(** The events of a batch, once they are stored. *)
Lemma batch_staged cas0 cas root current log hs tid events events' append first tseq lth stored lh' lth' :
  history cas0 root (object_hash current) log hs current → cas0 ⊆ cas →
  Forall (λ e, exact 1 (ev_payload e)) events → check_events root tid events = Ok tt →
  normalize_event_timestamps events (cs_updated_at current) = Ok (events', append) →
  first = (cs_last_chain_seq current + 1)%N →
  tseq = N.of_nat (length (thread_log tid log)) → lth = last_hash (thread_log tid log) →
  stage_events first tseq 0%N (cs_last_event_hash current) lth events' = Ok (stored, lh', lth') →
  (∀ e, e ∈ stored → written cas e) →
  staged cas root tid log events' stored lh' lth'.
Proof.
  intros Hh Hsub Hx Hcheck Hnorm -> -> -> Hstage Hw.
  destruct (history_grows _ _ _ _ _ _ _ Hsub Hh) as [Hlog _ [Hseq Hhash Htime _ _ _]].
  destruct (normalize_events_ascending _ _ _ _ Hnorm) as (Hasc & _ & Hret).
  eapply stage_events_valid; try done; [|lia|lia].
  eapply retimed_for; [done|]. by apply check_events_exact.
Qed.

Lemma written_events {A} `{Wire A} cas (l : list A) rest :
  (∀ w, w ∈ map object_write l ++ rest → cas !! w.1 = Some w.2) → ∀ e, e ∈ l → written cas e.
Proof.
  intros Hw e Hin. apply (Hw (object_write e)). apply elem_of_app. left. by apply list_elem_of_fmap_2.
Qed.

Lemma add_events_outcome s lock root snapshot events signer trust :
  sound s → exact_snapshot snapshot → Forall (λ e, exact 1 (ev_payload e)) events →
  wp (add_thread_to_chain_with_events_and_trust_under_lock lock root snapshot events signer trust)
    (λ r s', advanced s root (stored_log (at_events r)) (at_chain_state_hash r) s') (stopped s root) s.
Proof.
  intros Hs Hx Hxe. unfold add_thread_to_chain_with_events_and_trust_under_lock.
  check_step. intros [] _. check_step. intros [] _. check_step. intros [] _.
  check_step. intros [] Hne%sch_reject_ok%bool_decide_eq_false. check_step. intros [] Hcheck.
  apply wp_bind. eapply wp_mono; [apply head_for_mutation, grown_refl| |by left].
  intros current s1 (Hg1 & [Hc1 Hh1] & -> & Hroot & r & Hr & Ht & Hl).
  destruct (sound_head _ _ _ _ Hs Hr Ht Hl) as (log & hs & Hhist).
  check_step. intros [] Hnone%absent_thread. check_step. intros [events' append] Hnev.
  check_step. intros first Hfirst%sch_some_ok%checked_add_some.
  check_step. intros final Hfinal%sch_some_ok%checked_add_some.
  check_step. intros [[stored lh] lth] Hstage. check_step. intros sn Hnorm.
  check_step. intros lhash _. check_step. intros levent _. check_step. intros [] _.
  apply wp_bind. eapply wp_mono; [by apply now_after_later| |by left]. intros updated s2 (Hg2 & _ & Hnow).
  assert (sn_thread_id sn = sn_thread_id snapshot ∧ sn_status sn = sn_status snapshot) as [Hid Hst].
  { destruct (normalized_new _ _ _ _ _ Hnorm) as ([u ->] & _). done. }
  assert (Hent : ∀ h n, te_status (unplaced (sn_status snapshot) h n) = sn_status sn) by done.
  rewrite Hid, Hent. set (s' := new_chain_state _ _ _ _ _ _).
  assert (Hfin : ∀ s3, validate_state s' = Ok tt →
    committed s root (map object_write stored ++ [object_write sn]) s' s3 →
    advanced s root (stored_log stored) (object_hash s') s3).
  { intros s3 Hv Hc. eexists. eapply committed_advanced; [done|done|done|done|]. pose proof (committed_sub _ _ _ _ _ Hc) as Hsub.
    destruct (Hc) as [_ Hw]. rewrite <- app_assoc in Hw. pose proof (absent_log _ _ _ _ _ _ _ Hhist Hnone) as Hno.
    assert (Hstaged : staged (st_cas s3) root (sn_thread_id snapshot) log events' stored lh lth).
    { eapply (batch_staged (st_cas s) _ _ _ _ _ _ events); try done.
      - by rewrite Hno.
      - by eapply written_events. }
    destruct (normalize_events_ascending _ _ _ _ Hnev) as (Hasc & Happ & _).
    eapply add_history; try done.
    - intros f [->|[->|[->|Hf]%elem_of_cons]%elem_of_cons]%elem_of_cons; [apply Hnow; by left|
        apply Hnow; rewrite <- Happ; right; by left|apply Hnow; do 2 right; by left|by apply not_elem_of_nil in Hf].
    - apply (Hw (object_write sn)). apply elem_of_app. right. by left.
    - apply (Hw (object_write s')). apply elem_of_app. do 2 right. by left. }
  apply (commit_step s s2 root root); [done|apply silent_ret|done| |by left].
  intros s3 Hv Hc. right. eexists _, _. left. by apply Hfin.
Qed.

(** The two batches of an addition with an append. *)
Lemma batches_staged cas0 cas root current log hs tid etid existing evn evn' t1 eve eve' t2 stn lh1 lth1 ste lh2 lth2 :
  history cas0 root (object_hash current) log hs current → cas0 ⊆ cas →
  cs_threads current !! tid = None → cs_threads current !! etid = Some existing →
  Forall (λ e, exact 1 (ev_payload e)) evn → Forall (λ e, exact 1 (ev_payload e)) eve →
  check_events root tid evn = Ok tt → check_events root etid eve = Ok tt →
  normalize_event_timestamps evn (cs_updated_at current) = Ok (evn', t1) →
  normalize_event_timestamps eve t1 = Ok (eve', t2) →
  stage_events (cs_last_chain_seq current + 1)%N 0%N 0%N (cs_last_event_hash current) None evn' =
    Ok (stn, lh1, lth1) →
  stage_events (cs_last_chain_seq current + 1 + N.of_nat (length evn'))%N (te_last_thread_seq existing) 0%N
    lh1 (te_last_event_hash existing) eve' = Ok (ste, lh2, lth2) →
  (∀ e, e ∈ stn → written cas e) → (∀ e, e ∈ ste → written cas e) →
  staged cas root tid log evn' stn lh1 lth1 ∧
  staged cas root etid (log ++ stored_log stn) eve' ste lh2 lth2.
Proof.
  intros Hh Hsub Hnone Hex Hx1 Hx2 Hc1 Hc2 Hn1 Hn2 Hs1 Hs2 Hw1 Hw2.
  pose proof (absent_log _ _ _ _ _ _ _ Hh Hnone) as Hno.
  assert (Hst : staged cas root tid log evn' stn lh1 lth1).
  { eapply (batch_staged cas0 cas root current log hs tid evn); try done. by rewrite Hno. }
  split; [done|]. destruct (normalize_events_ascending _ _ _ _ Hn2) as (Hasc & _ & Hret).
  destruct (normalize_events_ascending _ _ _ _ Hn1) as (Hasc1 & Ht1 & _).
  destruct Hst as [Hgl -> _ Hall Htimes].
  assert (Hlen : length stn = length evn').
  { rewrite <- (length_fmap ev_ts stn), Htimes. apply length_fmap. }
  destruct (history_grows _ _ _ _ _ _ _ Hsub Hh) as [_ _ [Hseq Hhash Htime _ Hent _]].
  destruct (Hent _ _ Hex) as [Hes Heh]. assert (Hne : etid ≠ tid) by congruence.
  assert (Hother : thread_log etid (log ++ stored_log stn) = thread_log etid log).
  { by rewrite thread_log_app, (thread_log_other tid), app_nil_r. }
  eapply (stage_events_valid cas root etid _ _ _ _ (log ++ stored_log stn)); try done.
  - eapply retimed_for; [done|]. by apply check_events_exact.
  - intros p. rewrite last_app. destruct (last (stored_log stn)) as [q|] eqn:Hq.
    + intros [= <-]. rewrite (stored_last _ _ _ Htimes Hq (cs_updated_at current)), Ht1.
      assert (∃ t, parse_canonical_timestamp t1 = Ok t) as [t Ht].
      { unfold normalize_event_timestamps in Hn2. apply sch_bind_ok in Hn2 as (t & Ht & _). eauto. }
      rewrite <- Ht1. by eapply not_later_refl.
    + intros Hp. eapply not_later_trans; [by apply Htime|]. rewrite Ht1.
      apply Htime in Hp as (? & t & _ & Ht & _). by eapply ascending_last.
  - rewrite length_app, stored_log_length. lia.
  - rewrite Hother. lia.
  - by rewrite Hother.
Qed.

Lemma create_outcome s lock root snapshot signer trust :
  exact_snapshot snapshot →
  wp (create_chain_with_trust_under_lock lock root snapshot signer trust)
    (λ r s', founded s root [] (cr_chain_state_hash r) s') (stopped s root) s.
Proof.
  intros Hx. unfold create_chain_with_trust_under_lock.
  check_step. intros [] _. check_step. intros [] _. check_step. intros [] Hroot. facts Hroot. rename E into Htid.
  check_step. intros sn Hnorm.
  apply wp_bind. eapply wp_mono; [apply no_head, grown_refl| |by left]. intros [] s1 [-> Hnone].
  apply wp_bind. eapply wp_mono; [by apply now_after_later, grown_refl| |by left]. intros updated s2 (Hg2 & _ & Hnow).
  set (s' := new_chain_state _ _ _ _ _ _).
  assert (Hfin : ∀ s3, validate_state s' = Ok tt → committed s root [object_write sn] s' s3 →
    founded s root [] (object_hash s') s3).
  { intros s3 Hv [Hc Hw]. split; [done|]. split; [done|]. eexists _, s'.
    eapply create_history; try done; [apply Hnow; by left| |].
    - apply (Hw (object_write sn)). by left.
    - apply (Hw (object_write s')). right. by left. }
  apply (commit_step s s2 root lock); [done|apply silent_ret|done| |by left].
  intros s3 Hv Hc. right. eexists _, _. right. by apply Hfin.
Qed.

Lemma create_events_outcome s lock root snapshot events signer trust :
  exact_snapshot snapshot → Forall (λ e, exact 1 (ev_payload e)) events →
  wp (create_chain_with_events_and_trust_under_lock lock root snapshot events signer trust)
    (λ r s', founded s root (stored_log (at_events r)) (at_chain_state_hash r) s') (stopped s root) s.
Proof.
  intros Hx Hxe. unfold create_chain_with_events_and_trust_under_lock.
  check_step. intros [] _. check_step. intros [] _. check_step. intros [] Hroot. facts Hroot. rename E into Htid.
  check_step. intros [] Hne%sch_reject_ok%bool_decide_eq_false. check_step. intros [] Hcheck.
  check_step. intros sn Hnorm.
  apply wp_bind. eapply wp_mono; [apply no_head, grown_refl| |by left]. intros [] s1 [-> Hnone].
  apply wp_bind. eapply wp_mono; [by apply now_after_later, grown_refl| |by left]. intros gat s2 (Hg2 & _ & Hgnow).
  check_step. intros [] Hvg. check_step. intros [] _.
  check_step. intros [events' append] Hnev. check_step. intros [[stored lh] lth] Hstage.
  apply wp_bind. eapply wp_mono; [by apply now_after_later| |by left]. intros updated s3 (Hg3 & _ & Hnow).
  set (g := new_chain_state _ _ _ 0%N _ _) in *. set (s' := new_chain_state _ _ lh _ _ _).
  assert (Hfin : ∀ s4, validate_state s' = Ok tt →
    committed s root (object_write sn :: object_write g :: map object_write stored) s' s4 →
    founded s root (stored_log stored) (object_hash s') s4).
  { intros s4 Hv [Hc Hw]. split; [done|]. split; [done|]. eexists _, s'.
    eapply create_events_history; try done.
    - apply Hgnow. by left.
    - apply (Hw (object_write sn)). by left.
    - apply (Hw (object_write g)). right. by left.
    - intros e He. apply (Hw (object_write e)). do 2 right. apply elem_of_app. left. by apply list_elem_of_fmap_2.
    - apply (Hw (object_write s')). do 2 right. apply elem_of_app. right. by left. }
  apply (commit_step s s3 root lock); [done| |done| |by left].
  - unfold cas_of. silent.
  - intros s4 Hv Hc. right. eexists _, _. right. by apply Hfin.
Qed.

Lemma add_append_outcome s lock root snapshot evn etid eve updates signer trust :
  sound s → exact_snapshot snapshot → Forall (λ e, exact 1 (ev_payload e)) evn →
  Forall (λ e, exact 1 (ev_payload e)) eve → Forall (λ u, exact_snapshot (up_new_snapshot u)) updates →
  wp (add_thread_and_append_under_lock lock root snapshot evn etid eve updates signer trust)
    (λ r s', advanced s root (stored_log (at_events r)) (at_chain_state_hash r) s') (stopped s root) s.
Proof.
  intros Hs Hx Hx1 Hx2 Hxu. unfold add_thread_and_append_under_lock, cas_of.
  check_step. intros [] _. check_step. intros [] _. check_step. intros [] _. check_step. intros [] Hne. facts Hne.
  rename E into Hne1. check_step. intros [] Hc1. check_step. intros [] Hc2.
  apply wp_bind. eapply wp_mono; [apply head_for_mutation, grown_refl| |by left].
  intros current s1 (Hg1 & [Hq1 Hh1] & -> & Hroot & r & Hr & Ht & Hl).
  destruct (sound_head _ _ _ _ Hs Hr Ht Hl) as (log & hs & Hhist).
  check_step. intros [] Hnone%absent_thread. check_step. intros existing Hex%sch_some_ok.
  wps. rewrite Hq1. apply wp_lift; [by left|]. intros prevs Hload.
  check_step. intros [evn' t1] Hn1. check_step. intros [eve' append] Hn2.
  check_step. intros total Htotal%sch_some_ok%checked_add_some.
  check_step. intros first Hfirst%sch_some_ok%checked_add_some.
  check_step. intros final Hfinal%sch_some_ok%checked_add_some.
  check_step. intros efinal Hefinal%sch_some_ok%checked_add_some.
  check_step. intros [[stn lh1] lth1] Hs1. check_step. intros fexist Hfexist%sch_some_ok%checked_add_some.
  check_step. intros [[ste lh2] lth2] Hs2. check_step. intros sn Hnorm.
  check_step. intros lhash _. check_step. intros levent _. check_step. intros [] _.
  assert (sn_thread_id sn = sn_thread_id snapshot ∧ sn_status sn = sn_status snapshot) as [Hid Hst].
  { destruct (normalized_new _ _ _ _ _ Hnorm) as ([u ->] & _). done. }
  assert (Hent : ∀ h n, te_status (unplaced (sn_status snapshot) h n) = sn_status sn) by done.
  rewrite Hid, Hent. check_step. intros [threads' ups] Happly. check_step. intros [] _.
  apply wp_bind. eapply wp_mono; [by apply now_after_later| |by left]. intros updated s2 (Hg2 & _ & Hnow).
  subst first fexist efinal total. set (s' := new_chain_state _ _ _ _ _ _).
  assert (Hfin : ∀ s3, validate_state s' = Ok tt →
    committed s root (map object_write (stn ++ ste) ++ object_write sn ::
      map (λ u, object_write (up_new_snapshot u)) ups) s' s3 →
    advanced s root (stored_log (stn ++ ste)) (object_hash s') s3).
  { intros s3 Hv Hc. eexists. eapply committed_advanced; [done|done|done|done|]. pose proof (committed_sub _ _ _ _ _ Hc) as Hsub.
    destruct (Hc) as [_ Hw]. rewrite <- app_assoc in Hw.
    pose proof (written_events _ _ _ Hw) as Hwe.
    destruct (batches_staged (st_cas s) (st_cas s3) root current log hs (sn_thread_id snapshot) etid existing
      evn evn' t1 eve eve' append stn lh1 lth1 ste lh2 lth2) as [Hst1 Hst2]; try done.
    { intros e He. apply Hwe, elem_of_app. by left. }
    { intros e He. apply Hwe, elem_of_app. by right. }
    destruct (normalize_events_ascending _ _ _ _ Hn1) as (Hasc1 & _ & Hret1).
    destruct (normalize_events_ascending _ _ _ _ Hn2) as (_ & Happ & Hret2).
    assert (Hne1' : evn' ≠ []) by (intros ->; by destruct evn; [|inversion Hret1]).
    assert (Hne2' : eve' ≠ []) by (intros ->; by destruct eve; [|inversion Hret2]).
    apply (add_append_history (st_cas s) (st_cas s3) root current log hs (sn_thread_id snapshot) snapshot etid
      existing evn' eve' stn ste lh1 lth1 lh2 lth2 append (Some etid) sn updates prevs threads' ups updated final);
      try done.
    - rewrite Happ. unfold last_time. destruct (last eve') eqn:El; [done|]. by apply last_None in El.
    - apply (Hw (object_write sn)). apply elem_of_app. right. by left.
    - apply (Hw (object_write s')). apply elem_of_app. right. right. apply elem_of_app. right. by left.
    - intros u Hu. apply (Hw (object_write (up_new_snapshot u))). apply elem_of_app. right. right.
      apply elem_of_app. left. by apply (list_elem_of_fmap_2 (λ u, object_write (up_new_snapshot u))). }
  apply (commit_step s s2 root root); [done|apply silent_ret|done| |by left].
  intros s3 Hv Hc. right. eexists _, _. left. by apply Hfin.
Qed.

End operations.
