(* ===== verification/ChainRuns.v ===== *)
(** * Sequences of operations on a store

    Chains are written by the operations of [Chain] one after the other,
    each of which can be stopped at any durable write, with restarts between
    them and other objects appearing in the store.  In every store that is
    reached, each head is accepted by the validator, and the events of a
    head stay the first events of the heads that follow it. *)

From stdpp Require Import sorting.
From S2P Require Import Prelude Float64 Json CanonicalRef Schedule ScheduleSpec.
From S2P Require Import CasStore ChainObjects ChainValidation Chain ChainHistory ChainValidationCorrect.
From S2P Require Import ChainGrowth ChainStaging ChainSuccessor ChainCorrect.

(** ** A hash has one history *)

Section unique.
Context `{Externals} `{Sha256} `{JsonReader} `{UnicodeTables} `{NaiveDateTime}.
Context `{Wire ThreadEvent} `{Wire ThreadSnapshot} `{Wire ChainState}.

(** Two stores that return the same object for the same hash. *)
Definition agree (cas1 cas2 : Cas) : Prop :=
  ∀ h v1 v2, get_object cas1 h = Ok (Some v1) → get_object cas2 h = Ok (Some v2) → v1 = v2.

Lemma agree_refl cas : agree cas cas.
Proof. intros h v1 v2 E1 E2. congruence. Qed.
Lemma agree_event cas1 cas2 h e1 e2 :
  agree cas1 cas2 → load_hashed_event cas1 h = Ok e1 → load_hashed_event cas2 h = Ok e2 → e1 = e2.
Proof.
  unfold load_hashed_event. intros Ha Hl1 Hl2. facts Hl1. facts Hl2. subst.
  rewrite (Ha _ _ _ E E3) in *. congruence.
Qed.
Lemma agree_state cas1 cas2 h s1 s2 :
  agree cas1 cas2 → load_hashed_chain_state cas1 h = Ok s1 → load_hashed_chain_state cas2 h = Ok s2 → s1 = s2.
Proof.
  unfold load_hashed_chain_state. intros Ha Hl1 Hl2. facts Hl1. facts Hl2. subst.
  rewrite (Ha _ _ _ E E3) in *. congruence.
Qed.
Lemma agree_snapshot cas1 cas2 h s1 s2 :
  agree cas1 cas2 → load_hashed_snapshot cas1 h = Ok s1 → load_hashed_snapshot cas2 h = Ok s2 → s1 = s2.
Proof.
  unfold load_hashed_snapshot. intros Ha Hl1 Hl2. facts Hl1. facts Hl2. subst.
  rewrite (Ha _ _ _ E E3) in *. congruence.
Qed.

Lemma log_unique cas1 cas2 root1 root2 log1 log2 :
  agree cas1 cas2 → valid_log cas1 root1 log1 → valid_log cas2 root2 log2 →
  last_hash log1 = last_hash log2 → log1 = log2.
Proof.
  intros Ha Hv1. revert log2. induction Hv1 as [|log1 h e Hv1 IH Hf1]; intros log2 Hv2 Hh.
  - symmetry in Hh. by apply last_hash_none in Hh.
  - destruct Hv2 as [|log2 h2 e2 Hv2 Hf2]; [by apply last_hash_none in Hh|].
    rewrite !last_hash_snoc in Hh. injection Hh as <-. destruct Hf1, Hf2.
    assert (e2 = e) as -> by (symmetry; by eapply agree_event). f_equal. apply IH; [done|congruence].
Qed.

Lemma ancestry_agree cas1 cas2 root1 root2 hs1 hs2 h s1 s2 :
  agree cas1 cas2 → ancestry cas1 root1 hs1 h s1 → ancestry cas2 root2 hs2 h s2 → hs1 = hs2 ∧ s1 = s2.
Proof.
  intros Ha Ha1. revert hs2 s2. induction Ha1 as [h s (Hl & _) Hp|hs h0 s0 h s Ha1 IH (Hl & _) Hp]; intros hs2 s2 Ha2.
  - destruct Ha2 as [h s' (Hl' & _) Hp'|hs0 h1 s1 h s' Ha2 (Hl' & _) Hp'].
    all: assert (s' = s) as -> by (symmetry; by eapply agree_state).
    + done.
    + congruence.
  - destruct Ha2 as [h s' (Hl' & _) Hp'|hs0 h1 s1 h s' Ha2 (Hl' & _) Hp'].
    all: assert (s' = s) as -> by (symmetry; by eapply agree_state).
    { congruence. }
    assert (h1 = h0) as -> by congruence. by destruct (IH _ _ Ha2) as [-> _].
Qed.

Lemma history_agree cas1 cas2 root1 root2 h log1 log2 hs1 hs2 s1 s2 :
  agree cas1 cas2 → history cas1 root1 h log1 hs1 s1 → history cas2 root2 h log2 hs2 s2 →
  log1 = log2 ∧ hs1 = hs2 ∧ s1 = s2.
Proof.
  intros Ha [Hl1 Hst1 Hc1] [Hl2 Hst2 Hc2].
  destruct (ancestry_agree _ _ _ _ _ _ _ _ _ Ha (states_ancestry _ _ _ _ _ _ _ Hst1)
    (states_ancestry _ _ _ _ _ _ _ Hst2)) as [-> ->].
  split; [|done]. eapply log_unique; [done|done|done|]. destruct Hc1, Hc2. congruence.
Qed.

(** ** Tampering *)

(** The two stores hold different texts with the same digest, under it. *)
Definition collision (cas1 cas2 : Cas) : Prop :=
  ∃ h d1 d2, cas1 !! h = Some d1 ∧ cas2 !! h = Some d2 ∧ d1 ≠ d2 ∧ sha256_hex d1 = h ∧ sha256_hex d2 = h.

Lemma stored_bytes (cas : Cas) h v :
  get_object cas h = Ok (Some v) → ∃ d, cas !! h = Some d ∧ sha256_hex d = h ∧ from_slice d = Some v.
Proof.
  unfold get_object. destruct (negb _); [done|]. destruct (cas !! h) as [d|]; [|done].
  unfold read_verified_entry. intros Hok. facts Hok. facts E. injection Hok as <-. subst x. by exists d.
Qed.
(** Another text with the digest [h] is stored in place of [d]. *)
Definition clash (cas : Cas) (h d : string) : Prop :=
  match cas !! h with Some d' => d ≠ d' ∧ sha256_hex d = h ∧ sha256_hex d' = h | None => False end.
#[local] Instance clash_dec cas h d : Decision (clash cas h d).
Proof. unfold clash. destruct (cas !! h); apply _. Defined.

(** Objects with the same hash are the same, or the stores hold a collision. *)
Lemma agree_or_collision (cas1 cas2 : Cas) : agree cas1 cas2 ∨ collision cas1 cas2.
Proof.
  destruct (decide (map_Forall (λ h d, ¬ clash cas2 h d) (cas1 : gmap string string))) as [Hall|Hnot].
  - left. intros h v1 v2 (d1 & Hc1 & Hs1 & Hv1)%stored_bytes (d2 & Hc2 & Hs2 & Hv2)%stored_bytes.
    destruct (decide (d1 = d2)) as [->|Hne]; [congruence|]. destruct (Hall _ _ Hc1).
    unfold clash. by rewrite Hc2.
  - right. apply map_not_Forall in Hnot as (h & d & Hd & Hc); [|apply _].
    destruct (decide (clash cas2 h d)) as [Hc'|]; [|done].
    unfold clash in Hc'. destruct (cas2 !! h) as [d'|] eqn:Hd'; [|done]. by exists h, d, d'.
Qed.

(** C9. A head hash fixes its whole history: two stores whose validators
    accept the same head, the second one possibly written by someone else,
    hold the same events, the same states and the same current snapshots for
    it, unless the two stores hold, under one hash, two different texts
    whose SHA-256 digest it is. *)
Theorem history_tamper_evident cas1 cas2 root h a1 a2 :
  validate_authoritative_history cas1 root h a1 = Ok tt →
  validate_authoritative_history cas2 root h a2 = Ok tt →
  collision cas1 cas2 ∨
  ∃ log hs s, history cas1 root h log hs s ∧ history cas2 root h log hs s ∧
    ∀ tid entry, cs_threads s !! tid = Some entry →
      load_hashed_snapshot cas1 (te_snapshot_hash entry) = load_hashed_snapshot cas2 (te_snapshot_hash entry).
Proof.
  intros (log1 & hs1 & s1 & H01 & _)%history_sound (log2 & hs2 & s2 & H02 & _)%history_sound.
  destruct (agree_or_collision cas1 cas2) as [Ha|Hc]; [right|by left].
  destruct (history_agree _ _ _ _ _ _ _ _ _ _ _ Ha H01 H02) as (<- & <- & <-).
  exists log1, hs1, s1. split; [done|]. split; [done|]. intros tid entry He.
  destruct (hc_snapshot _ _ _ (hi_closure _ _ _ _ _ _ H01) _ _ He) as (sn1 & Hl1 & _).
  destruct (hc_snapshot _ _ _ (hi_closure _ _ _ _ _ _ H02) _ _ He) as (sn2 & Hl2 & _).
  rewrite Hl1, Hl2. f_equal. by eapply agree_snapshot.
Qed.

(** ** Threads along a history *)

(** The entry of a thread names a snapshot with its status. *)
Lemma entry_status cas root log hs h s n tid entry :
  states cas root log hs h s n → cs_threads s !! tid = Some entry →
  ∃ sn, load_hashed_snapshot cas (te_snapshot_hash entry) = Ok sn ∧ sn_status sn = te_status entry.
Proof.
  assert (Hpub : ∀ s tid entry sn, published cas log s tid entry sn →
    ∃ sn, load_hashed_snapshot cas (te_snapshot_hash entry) = Ok sn ∧ sn_status sn = te_status entry).
  { intros ? ? ? sn []. exists sn. split; [done|]. unfold validate_stored_snapshot in pb_stored. by facts pb_stored. }
  intros Hst. revert tid entry. induction Hst as [h s n entry sn Hpl []|hs h s n h' s' n' Hst IH Hpl []]; intros tid entry' He.
  - rewrite gn_threads in He. apply lookup_singleton_Some in He as [<- <-]. eauto.
  - destruct (tr_threads _ _ He) as [_ Hcase]. destruct (cs_threads s !! tid) as [entry|] eqn:Ht.
    + destruct Hcase as [_ [[<- <-]|(_ & p & sn & sn' & _ & _ & _ & Hpb & _)]]; eauto.
    + destruct Hcase as (sn & Hpb & _). eauto.
Qed.

Lemma identity_status previous next :
  validate_snapshot_transition_identity previous next = Ok tt →
  validate_status_transition (sn_status previous) (sn_status next) = Ok tt.
Proof. unfold validate_snapshot_transition_identity. intros Hok. facts Hok. done. Qed.
Lemma historical_terminal sn sn' t :
  validate_historical_snapshot_transition sn sn' t = Ok tt → is_terminal (sn_status sn) = false.
Proof.
  unfold validate_historical_snapshot_transition. intros (x & _ & ([] & Hid & _)%sch_bind_ok)%sch_bind_ok.
  apply identity_status in Hid. by destruct (sn_status sn).
Qed.

Lemma terminal_step cas log root hs h s n s' n' tid entry :
  states cas root log hs h s n → transition cas log h s n s' n' →
  cs_threads s !! tid = Some entry → is_terminal (te_status entry) = true →
  ∃ entry', cs_threads s' !! tid = Some entry' ∧ te_status entry' = te_status entry ∧
            te_snapshot_hash entry' = te_snapshot_hash entry.
Proof.
  intros Hst [] He Hterm. destruct (tr_kept tid) as [entry' He']; [eauto|]. exists entry'. split; [done|].
  destruct (tr_threads _ _ He') as [_ Hcase]. rewrite He in Hcase.
  destruct Hcase as [_ [[-> ->]|(_ & p & sn & sn' & _ & _ & Hl & _ & Hh)]]; [done|].
  destruct (entry_status _ _ _ _ _ _ _ _ _ Hst He) as (sn0 & Hl0 & Hs0).
  apply historical_terminal in Hh. assert (sn0 = sn) as -> by congruence. congruence.
Qed.

(** C12. Once a thread has ended it does not change: in a head the validator
    accepts, every thread that the ancestor it was accepted with lists
    as ended is still listed, with the status and the snapshot it ended with. *)
Theorem ended_threads_stay cas root h ancestor s1 tid entry :
  validate_authoritative_history cas root h (Some ancestor) = Ok tt →
  load_hashed_chain_state cas ancestor = Ok s1 → cs_threads s1 !! tid = Some entry →
  is_terminal (te_status entry) = true →
  ∃ s entry', load_hashed_chain_state cas h = Ok s ∧ cs_threads s !! tid = Some entry' ∧
    te_status entry' = te_status entry ∧ te_snapshot_hash entry' = te_snapshot_hash entry.
Proof.
  intros (log & hs & s & [Hlog Hst _] & Hanc)%history_sound Hl He Hterm.
  specialize (Hanc _ eq_refl). clear Hlog. revert Hst. generalize (length log). intros n Hst. exists s.
  induction Hst as [h s n entry0 sn Hpl Hgn|hs h s n h' s' n' Hst IH Hpl Htr].
  - apply list_elem_of_singleton in Hanc as ->. destruct Hpl. assert (s1 = s) as -> by congruence. by exists entry.
  - apply elem_of_app in Hanc as [Hin| ->%list_elem_of_singleton].
    + destruct (IH Hin) as (entry' & _ & He' & Hs' & Hh').
      destruct (terminal_step _ _ _ _ _ _ _ _ _ _ _ Hst Htr He') as (e2 & He2 & Hs2 & Hh2); [congruence|].
      exists e2. destruct Hpl. split; [done|]. split; [done|]. split; congruence.
    + destruct Hpl. assert (s1 = s') as -> by congruence. by exists entry.
Qed.

End unique.

(** ** Requests *)

Section runs.
Context `{WireLaws} `{Ed25519} `{SystemTime} `{Process}.

Inductive Request :=
| CreateChain (lock root : string) (snapshot : ThreadSnapshot)
| CreateWithEvents (lock root : string) (snapshot : ThreadSnapshot) (events : list ThreadEvent)
| AppendEvents (lock root thread : string) (events : list ThreadEvent) (updates : list SnapshotUpdate)
| AddThread (lock root : string) (snapshot : ThreadSnapshot)
| AddWithEvents (lock root : string) (snapshot : ThreadSnapshot) (events : list ThreadEvent)
| AddAndAppend (lock root : string) (snapshot : ThreadSnapshot) (events : list ThreadEvent)
    (existing : string) (existing_events : list ThreadEvent) (updates : list SnapshotUpdate)
| ReadThread (lock root thread : string)
| Acknowledge (lock root transition : string)
| AdvancePhase (lock root transition : string) (expected next : TransitionPhase).

Definition perform (signer : Signer) (trust : TrustStore) (request : Request) : Op unit :=
  match request with
  | CreateChain lock root snapshot =>
      create_chain_with_trust_under_lock lock root snapshot signer trust ;; mret tt
  | CreateWithEvents lock root snapshot events =>
      create_chain_with_events_and_trust_under_lock lock root snapshot events signer trust ;; mret tt
  | AppendEvents lock root thread events updates =>
      append_events_with_trust_under_lock lock root thread events updates signer trust ;; mret tt
  | AddThread lock root snapshot =>
      add_thread_to_chain_with_trust_under_lock lock root snapshot signer trust ;; mret tt
  | AddWithEvents lock root snapshot events =>
      add_thread_to_chain_with_events_and_trust_under_lock lock root snapshot events signer trust ;; mret tt
  | AddAndAppend lock root snapshot events existing existing_events updates =>
      add_thread_and_append_under_lock lock root snapshot events existing existing_events updates
        signer trust ;; mret tt
  | ReadThread lock root thread =>
      read_thread_snapshot_with_trust lock root thread trust ;; mret tt
  | Acknowledge lock root transition => acknowledge lock root transition ;; mret tt
  | AdvancePhase lock root transition expected next =>
      advance_phase lock root transition expected next ;; mret tt
  end.

(** The chain a request is about. *)
Definition chain_of (request : Request) : string :=
  match request with
  | CreateChain _ root _ | CreateWithEvents _ root _ _ | AppendEvents _ root _ _ _ | AddThread _ root _
  | AddWithEvents _ root _ _ | AddAndAppend _ root _ _ _ _ _ | ReadThread _ root _ | Acknowledge _ root _
  | AdvancePhase _ root _ _ _ => root
  end.

(** The values a request embeds are read back from their text.  The
    operations do not check it. *)
Definition exact_request (request : Request) : Prop :=
  match request with
  | CreateChain _ _ snapshot | AddThread _ _ snapshot => exact_snapshot snapshot
  | CreateWithEvents _ _ snapshot events | AddWithEvents _ _ snapshot events =>
      exact_snapshot snapshot ∧ Forall (λ e, exact 1 (ev_payload e)) events
  | AppendEvents _ _ _ events updates =>
      Forall (λ e, exact 1 (ev_payload e)) events ∧ Forall (λ u, exact_snapshot (up_new_snapshot u)) updates
  | AddAndAppend _ _ snapshot events _ existing_events updates =>
      exact_snapshot snapshot ∧ Forall (λ e, exact 1 (ev_payload e)) events ∧
      Forall (λ e, exact 1 (ev_payload e)) existing_events ∧
      Forall (λ u, exact_snapshot (up_new_snapshot u)) updates
  | _ => True
  end.

Lemma wp_discard {A} (m : Op A) (Q : A → Store → Prop) (P R : Store → Prop) s :
  wp m Q R s → (∀ a s', Q a s' → P s') → (∀ s', R s' → P s') → P ((m ;; mret tt : Op unit) s).2.
Proof. unfold wp, mbind, m_bind. intros Hm HQ HR. destruct (m s) as [[a|e] s']; cbn; eauto. Qed.

Lemma silent_stopped {A} (m : Op A) root s : silent m → stopped s root ((m ;; mret tt : Op unit) s).2.
Proof.
  intros Hm. eapply wp_discard; [by apply wp_silent, grown_refl| |]; [|by left]. intros a s' [Hg _]. by left.
Qed.

Lemma perform_stopped signer trust request s :
  sound s → exact_request request → stopped s (chain_of request) (perform signer trust request s).2.
Proof.
  intros Hs Hx.
  assert (Hadv : ∀ root new target s', advanced s root new target s' → stopped s root s').
  { intros. right. eexists _, _. by left. }
  assert (Hfnd : ∀ root new target s', founded s root new target s' → stopped s root s').
  { intros. right. eexists _, _. by right. }
  destruct request; cbn in Hx |- *; repeat match goal with Hx : _ ∧ _ |- _ => destruct Hx as [? Hx] end.
  - eapply wp_discard; [by apply create_outcome|intros ? ?; apply Hfnd|done].
  - eapply wp_discard; [by apply create_events_outcome|intros ? ?; apply Hfnd|done].
  - eapply wp_discard; [by apply append_outcome| |done]. intros r s' (log & Ha & _). eapply Hadv. by exists log.
  - eapply wp_discard; [by apply add_outcome|intros ? ?; apply Hadv|done].
  - eapply wp_discard; [by apply add_events_outcome|intros ? ?; apply Hadv|done].
  - eapply wp_discard; [by apply add_append_outcome|intros ? ?; apply Hadv|done].
  - apply silent_stopped, silent_read_thread.
  - apply silent_stopped, silent_acknowledge.
  - apply silent_stopped, silent_advance_phase.
Qed.

(** ** Runs *)

(** A store without chains. *)
Definition fresh (cas : Cas) : Store := {|
  st_cas := cas; st_heads := ∅; st_pending := ∅; st_cache := ∅;
  st_readings := O; st_sequence := O; st_kill := None |}.
(** The process dies at the durable write after [kill] more, or not. *)
Definition with_kill (s : Store) (kill : option nat) : Store :=
  with_counters s (st_readings s) (st_sequence s) kill.
(** The process goes on, or is restarted with an empty cache. *)
Definition resume (restart : bool) (s : Store) : Store :=
  if restart then with_cache (with_counters s (st_readings s) O None) ∅ else with_kill s None.

(** A step of a run: a request whose values are read back from their text,
    with what becomes of the process, or new objects in the store.  What an
    append with other values leaves behind is [unreadable_append_refused]. *)
Inductive step : Store → Store → Prop :=
| step_request signer trust request kill restart s :
    exact_request request →
    step s (resume restart (perform signer trust request (with_kill s kill)).2)
| step_objects cas s : st_cas s ⊆ cas → step s (with_cas s cas).

(** The histories of [s] go on in [s']. *)
Definition continues (s s' : Store) : Prop :=
  ∀ root r log hs state, st_heads s !! root = Some r →
    history (st_cas s) root (sr_target_hash r) log hs state →
    ∃ r' log' hs' state', st_heads s' !! root = Some r' ∧
      history (st_cas s') root (sr_target_hash r') log' hs' state' ∧
      log `prefix_of` log' ∧ hs `prefix_of` hs'.

Lemma continues_trans s1 s2 s3 : continues s1 s2 → continues s2 s3 → continues s1 s3.
Proof.
  intros H12 H23 root r log hs state Hr Hh.
  destruct (H12 _ _ _ _ _ Hr Hh) as (r2 & log2 & hs2 & st2 & Hr2 & Hh2 & Hl2 & Hs2).
  destruct (H23 _ _ _ _ _ Hr2 Hh2) as (r3 & log3 & hs3 & st3 & Hr3 & Hh3 & Hl3 & Hs3).
  exists r3, log3, hs3, st3. split; [done|]. split; [done|]. split; by etrans.
Qed.

Lemma grown_continues s s' : sound s → grown s s' → sound s' ∧ continues s s'.
Proof.
  intros Hs [Hsub Hh]. split.
  - intros root r Hr. rewrite Hh in Hr. destruct (Hs _ _ Hr) as (log & hs & state & Hhist).
    exists log, hs, state. by eapply history_grows.
  - intros root r log hs state Hr Hhist. exists r, log, hs, state. rewrite Hh.
    split; [done|]. split; [by eapply history_grows|done].
Qed.

Lemma headed_continues s s' root target log' hs' state' :
  sound s → headed s root target s' → history (st_cas s') root target log' hs' state' →
  (∀ r log hs state, st_heads s !! root = Some r → history (st_cas s) root (sr_target_hash r) log hs state →
     log `prefix_of` log' ∧ hs `prefix_of` hs') →
  sound s' ∧ continues s s'.
Proof.
  intros Hs [Hsub (r' & Hh & Ht)] Hhist Hpre. split.
  - intros root' r Hr. rewrite Hh in Hr. destruct (decide (root = root')) as [<-|Hne].
    + rewrite lookup_insert_eq in Hr. injection Hr as <-. rewrite Ht. eauto.
    + rewrite lookup_insert_ne in Hr by done. destruct (Hs _ _ Hr) as (log & hs & state & Hold).
      exists log, hs, state. by eapply history_grows.
  - intros root' r log hs state Hr Hold. rewrite Hh. destruct (decide (root = root')) as [<-|Hne].
    + rewrite lookup_insert_eq. exists r', log', hs', state'. rewrite Ht. split; [done|]. split; [done|]. by eapply Hpre.
    + rewrite lookup_insert_ne by done. exists r, log, hs, state.
      split; [done|]. split; [by eapply history_grows|done].
Qed.

Lemma stopped_continues s root s' : sound s → stopped s root s' → sound s' ∧ continues s s'.
Proof.
  intros Hs [Hg|(new & target & [(log & Hh & r & hs & st & st' & Hr & Hold & Hnew)|(Hh & Hnone & hs & st & Hnew)])].
  - by apply grown_continues.
  - eapply headed_continues; [done|done|done|]. intros r0 log0 hs0 st0 Hr0 Hold0.
    assert (r0 = r) as -> by congruence.
    destruct (history_agree _ _ _ _ _ _ _ _ _ _ _ (agree_refl _) Hold0 Hold) as (-> & -> & _).
    split; by apply prefix_app_r.
  - eapply headed_continues; [done|done|done|]. intros r0 log0 hs0 st0 Hr0. congruence.
Qed.

Lemma step_continues s s' : sound s → step s s' → sound s' ∧ continues s s'.
Proof.
  intros Hs Hstep. destruct Hstep as [signer trust request kill restart s Hx|cas s Hsub].
  - assert (Hp := perform_stopped signer trust request (with_kill s kill) Hs Hx).
    eapply (stopped_continues s) in Hp; [|done]. by destruct restart.
  - by apply grown_continues.
Qed.

Lemma run_continues s s' : sound s → rtc step s s' → sound s' ∧ continues s s'.
Proof.
  intros Hs Hrun. induction Hrun as [s|s1 s2 s3 Hstep Hrun IH].
  - split; [done|]. intros root r log hs state Hr Hh. by exists r, log, hs, state.
  - destruct (step_continues _ _ Hs Hstep) as [Hs2 H12]. destruct (IH Hs2) as [Hs3 H23].
    split; [done|]. by eapply continues_trans.
Qed.

Lemma fresh_sound cas : sound (fresh cas).
Proof. intros root r Hr. cbn in Hr. by rewrite lookup_empty in Hr. Qed.
Lemma run_keeps_sound cas s : rtc step (fresh cas) s → sound s.
Proof. intros Hrun. by eapply run_continues; [apply fresh_sound|]. Qed.

Lemma history_target cas root h log hs s : history cas root h log hs s → h ∈ hs.
Proof.
  intros Hh. destruct (ancestry_head _ _ _ _ _ (states_ancestry _ _ _ _ _ _ _ (hi_states _ _ _ _ _ _ Hh)))
    as [_ [older ->]]. apply elem_of_app. right. by left.
Qed.

(** The head of a chain is accepted, as an advance of itself. *)
Lemma head_accepted cas s root r :
  rtc step (fresh cas) s → st_heads s !! root = Some r →
  validate_authoritative_history (st_cas s) root (sr_target_hash r) (Some (sr_target_hash r)) = Ok tt.
Proof.
  intros Hrun Hr. destruct (run_keeps_sound _ _ Hrun _ _ Hr) as (log & hs & state & Hh).
  eapply history_accepted; [done|]. intros a [= <-]. by eapply history_target.
Qed.

(** C7. Whatever sequence of operations wrote the chains of a store, each of
    them completed, refused or stopped at one of its durable writes, with
    restarts in between, as long as the JSON values of the requests are
    among those [serde_json] reads back: a chain that once had a head still
    has one, and the validator accepts the present head as an advance of the
    earlier one. *)
Theorem heads_advance cas s s' root r :
  rtc step (fresh cas) s → rtc step s s' → st_heads s !! root = Some r →
  ∃ r', st_heads s' !! root = Some r' ∧
    validate_authoritative_history (st_cas s') root (sr_target_hash r') (Some (sr_target_hash r)) = Ok tt.
Proof.
  intros Hrun Hrun' Hr. pose proof (run_keeps_sound _ _ Hrun) as Hs.
  destruct (Hs _ _ Hr) as (log & hs & state & Hh).
  destruct (run_continues _ _ Hs Hrun') as [_ Hc].
  destruct (Hc _ _ _ _ _ Hr Hh) as (r' & log' & hs' & state' & Hr' & Hh' & _ & Hpre).
  exists r'. split; [done|]. eapply history_accepted; [done|]. intros a [= <-].
  eapply elem_of_prefix; [|done]. by eapply history_target.
Qed.

(** C10. The events and the states of a chain are only ever added to: the
    validator's log and list of states behind a head are the beginning of
    those behind every later head of the chain, whatever operations on
    values that [serde_json] reads back, kills and restarts lie between
    them. *)
Theorem events_append_only cas s s' root r r' :
  rtc step (fresh cas) s → rtc step s s' → st_heads s !! root = Some r → st_heads s' !! root = Some r' →
  ∃ log hs state new later state',
    history (st_cas s) root (sr_target_hash r) log hs state ∧
    history (st_cas s') root (sr_target_hash r') (log ++ new) (hs ++ later) state'.
Proof.
  intros Hrun Hrun' Hr Hr'. pose proof (run_keeps_sound _ _ Hrun) as Hs.
  destruct (Hs _ _ Hr) as (log & hs & state & Hh). destruct (run_continues _ _ Hs Hrun') as [_ Hc].
  destruct (Hc _ _ _ _ _ Hr Hh) as (r2 & log2 & hs2 & state2 & Hr2 & Hh2 & [new ->] & [later ->]).
  assert (r2 = r') as -> by congruence. by exists log, hs, state, new, later, state2.
Qed.

(** C8. An operation on values that [serde_json] reads back, in a store
    written by such operations, that fails, is refused or dies at any
    durable write leaves the heads as they were, or the new head of its own chain
    completely published: with its history, and the earlier events and
    states as the beginning of it. *)
Theorem operations_atomic cas s signer trust request kill :
  rtc step (fresh cas) s → exact_request request →
  let s' := (perform signer trust request (with_kill s kill)).2 in
  st_cas s ⊆ st_cas s' ∧
  (st_heads s' = st_heads s ∨ extended s (chain_of request) s').
Proof.
  intros Hrun Hx s'. pose proof (run_keeps_sound _ _ Hrun) as Hs.
  destruct (perform_stopped signer trust request (with_kill s kill) Hs Hx) as [[Hsub Hh]|Hext].
  - split; [done|by left].
  - split; [|by right]. destruct Hext as (new & target & [(log & [Hsub _] & _)|([Hsub _] & _)]); done.
Qed.

(** C11. When [append_events_with_trust_under_lock] returns, given events and
    snapshots with values that [serde_json] reads back, the chain has a new
    head with the returned hash: the log is the log before with the
    returned events after it, which are the given events with times, numbers
    and links, numbered from the returned sequence on. *)
Theorem append_events_exact cas s lock root thread events updates signer trust result s' :
  rtc step (fresh cas) s → exact_request (AppendEvents lock root thread events updates) →
  append_events_with_trust_under_lock lock root thread events updates signer trust s = (Ok result, s') →
  ∃ log, advanced_from s root log (stored_log (ar_events result)) (ar_chain_state_hash result) s' ∧
    ar_first_chain_seq result = N.of_nat (S (length log)) ∧
    Forall2 recorded events (ar_events result).
Proof.
  intros Hrun [Hx Hxu] Hop.
  pose proof (append_outcome s lock root thread events updates signer trust (run_keeps_sound _ _ Hrun) Hx Hxu) as Ho.
  unfold wp in Ho. by rewrite Hop in Ho.
Qed.

(** ** Values that are not read back *)




End runs.
