(* ===== verification/ChainReads.v ===== *)
(** * Reading a thread

    The head cache never changes what is read: through every sequence of
    operations, kills and restarts a cached state is the stored object of
    its hash, and reading a thread through the cache or without it returns
    the snapshot the signed head names. *)

From S2P Require Import Prelude Float64 Json CanonicalRef Schedule ScheduleSpec.
From S2P Require Import CasStore ChainObjects ChainValidation Chain ChainHistory ChainValidationCorrect.
From S2P Require Import ChainGrowth ChainStaging ChainSuccessor ChainCorrect ChainRuns.

Section reads.
Context `{WireLaws} `{Ed25519} `{SystemTime} `{Process}.

(** ** What the cache holds *)

(** Every cached state is the stored object of its hash. *)
Definition coherent (s : Store) : Prop :=
  ∀ root c, st_cache s !! root = Some c →
    load_hashed_chain_state (st_cas s) (chain_state_hash c) = Ok (chain_state c).

Definition retains {A} (m : Op A) : Prop := ∀ s, coherent s → wp m (λ _ s', coherent s') coherent s.

Lemma coherent_grows s s' : st_cas s ⊆ st_cas s' → st_cache s' = st_cache s → coherent s → coherent s'.
Proof. intros Hsub Hc Hs root c Hl. rewrite Hc in Hl. by eapply load_state_grows, Hs. Qed.

Lemma retains_bind {A B} (m : Op A) (f : A → Op B) : retains m → (∀ a, retains (f a)) → retains (m ≫= f).
Proof.
  intros Hm Hf s Hs. apply wp_bind. eapply wp_mono; [by apply Hm| |done]. intros a s' Hs'. by apply Hf.
Qed.
Lemma retains_ret {A} (a : A) : retains (mret a).
Proof. intros s Hs. exact Hs. Qed.
Lemma retains_lift {A} (r : Sch A) : retains (lift r).
Proof. intros s Hs. by apply wp_lift. Qed.
Lemma retains_throw {A} fault : retains (throw fault : Op A).
Proof. intros s Hs. exact Hs. Qed.
Lemma retains_get : retains get.
Proof. intros s Hs. exact Hs. Qed.
Lemma retains_durable f : (∀ s, coherent s → coherent (f s)) → retains (durable f).
Proof. intros Hf s Hs. apply wp_durable; [done| |apply counters_eta]. intros. by apply Hf. Qed.
Lemma retains_reading : retains reading.
Proof. intros s Hs. exact Hs. Qed.
Lemma retains_unique prefix : retains (unique_id prefix).
Proof. intros s Hs. exact Hs. Qed.
Lemma retains_invalidate root : retains (cache_invalidate root).
Proof. intros s Hs root' c Hl. cbn in Hl. apply lookup_delete_Some in Hl as [_ Hl]. by eapply Hs. Qed.
Lemma coherent_insert s root c :
  coherent s → load_hashed_chain_state (st_cas s) (chain_state_hash c) = Ok (chain_state c) →
  wp (cache_insert root c) (λ _ s', coherent s') coherent s.
Proof.
  intros Hs Hc root' c' Hl. cbn in Hl. apply lookup_insert_Some in Hl as [[_ <-]|[_ Hl]]; [done|by eapply Hs].
Qed.

Create HintDb retains.
Hint Resolve retains_ret retains_lift retains_throw retains_get retains_reading retains_unique retains_invalidate : retains.
Ltac retains :=
  repeat first
    [ progress intros
    | solve [eauto 2 with retains]
    | match goal with |- retains (_ ≫= _) => apply retains_bind end
    | case_match ].

(** ** The operations *)

Lemma retains_now_after floors : retains (now_after floors).
Proof. unfold now_after, iso8601_now. retains. Qed.
Lemma retains_write_pending record : retains (write_pending record).
Proof. unfold write_pending. retains. by apply retains_durable. Qed.
Lemma retains_read_pending root : retains (read_pending root).
Proof. unfold read_pending. retains. Qed.
Lemma retains_read_head lock trust : retains (read_verified_head lock trust).
Proof. unfold read_verified_head. retains. Qed.
Hint Resolve retains_now_after retains_write_pending retains_read_pending retains_read_head : retains.
Lemma retains_now : retains iso8601_now.
Proof. unfold iso8601_now. retains. Qed.
Hint Resolve retains_now : retains.
Lemma retains_prepare_set lock root expected target : retains (prepare_set lock root expected target).
Proof. unfold prepare_set. retains. Qed.
Lemma retains_advance_phase lock root id expected next : retains (advance_phase lock root id expected next).
Proof. unfold advance_phase. retains. Qed.
Lemma retains_acknowledge lock root id : retains (acknowledge lock root id).
Proof. unfold acknowledge. retains. by apply retains_durable. Qed.
Lemma retains_verify_head lock root expected trust : retains (verify_expected_current_head lock root expected trust).
Proof. unfold verify_expected_current_head. retains. Qed.
Lemma retains_write_head lock r signer : retains (write_signed_head lock r signer).
Proof. unfold write_signed_head. retains. by apply retains_durable. Qed.
Hint Resolve retains_prepare_set retains_advance_phase retains_acknowledge retains_verify_head retains_write_head : retains.
Lemma retains_publish lock root expected target updated signer trust :
  retains (publish_chain_head lock root expected target updated signer trust).
Proof. unfold publish_chain_head, cas_of. retains. Qed.
Hint Resolve retains_publish : retains.

Lemma wp_and {A} (m : Op A) (Q Q' : A → Store → Prop) (R R' : Store → Prop) s :
  wp m Q R s → wp m Q' R' s → wp m (λ a s', Q a s' ∧ Q' a s') (λ s', R s' ∧ R' s') s.
Proof. unfold wp. by destruct (m s) as [[a|e] s']. Qed.

Lemma retains_publish_prepared w : retains (publish_prepared w).
Proof.
  intros s Hs. destruct w as [hash data]. unfold publish_prepared, cas_of. wps.
  apply wp_lift; [done|]. intros cas' (Hsub & _)%publish_entry_all. case_decide; [|by apply wp_ret].
  apply wp_durable; [done| |apply counters_eta]. intros. by apply (coherent_grows s).
Qed.
Lemma retains_for_each {A} (f : A → Op unit) l : (∀ a, retains (f a)) → retains (for_each f l).
Proof. intros Hf. induction l as [|a l IH]; cbn [for_each]; retains. Qed.
Hint Resolve retains_publish_prepared retains_for_each : retains.
Lemma retains_write_batch writes : retains (write_cas_batch writes).
Proof. unfold write_cas_batch, cas_of. retains. Qed.

Lemma retains_commit lock root writes expected state check signer trust :
  silent check → retains check → retains (commit lock root writes expected state check signer trust).
Proof.
  intros Hq Hk s Hs. unfold commit. wps. apply wp_lift; [done|]. intros [] Hv.
  wps. apply wp_lift; [done|]. intros [] _.
  wps. eapply wp_mono; [apply (wp_and _ _ _ _ _ _ (write_batch s s _ (grown_refl s)) (retains_write_batch _ s Hs))| |by intros ? []].
  intros [] s1 [[Hg1 Hall] Hs1].
  wps. eapply wp_mono; [apply (wp_and _ _ _ _ _ _ (wp_silent check s1 s1 Hq (grown_refl s1)) (Hk s1 Hs1))| |by intros ? []].
  intros [] s2 [[_ [Hc2 _]] Hs2].
  wps. eapply wp_mono; [apply (wp_and _ _ _ _ _ _ (publish_head s2 s2 lock root expected (object_hash state)
    (cs_updated_at state) signer trust (grown_refl s2)) (retains_publish lock root expected _ _ signer trust s2 Hs2))| |by intros ? []].
  intros [] s3 [[_ Hc3] Hs3]. wps. eapply wp_mono; [apply coherent_insert; [done|]|by intros|done].
  cbn. apply load_written_state; [|done]. rewrite Hc3, Hc2. apply (Hall (object_write state)).
  apply elem_of_app. right. by left.
Qed.
Lemma retains_commit_unchecked lock root writes expected state signer trust :
  retains (commit lock root writes expected state (mret tt) signer trust).
Proof. apply retains_commit; [apply silent_ret|apply retains_ret]. Qed.
Hint Resolve retains_commit_unchecked : retains.

Lemma retains_read_chain_head lock root trust : retains (read_chain_head_for_mutation lock root trust).
Proof.
  intros s Hs. unfold read_chain_head_for_mutation, cas_of. wps. apply wp_lift; [done|]. intros [] _.
  wps. eapply wp_mono; [by apply retains_read_head| |done]. intros head s1 Hs1.
  wps. apply wp_lift; [done|]. intros r _.
  wps. apply wp_lift; [done|]. intros state Hstate. unfold read_cas_object in Hstate. facts Hstate. subst.
  wps. apply wp_lift; [done|]. intros [] _. wps. apply wp_lift; [done|]. intros [] _.
  wps. apply wp_lift; [done|]. intros [] _. wps. apply wp_lift; [done|]. intros [] Hsame. facts Hsame.
  wps. eapply wp_mono; [apply coherent_insert; [done|]|by intros|done]. cbn.
  unfold load_hashed_chain_state. rewrite E. cbn. rewrite Hstate. cbn.
  unfold not_canonical. by rewrite Hsame, bool_decide_true.
Qed.
Hint Resolve retains_read_chain_head : retains.
Lemma retains_read_thread lock root tid trust : retains (read_thread_snapshot_with_trust lock root tid trust).
Proof. unfold read_thread_snapshot_with_trust, cas_of. retains. Qed.
Hint Resolve retains_read_thread : retains.

Lemma retains_create lock root snapshot signer trust :
  retains (create_chain_with_trust_under_lock lock root snapshot signer trust).
Proof. unfold create_chain_with_trust_under_lock. retains. Qed.
Lemma retains_create_events lock root snapshot events signer trust :
  retains (create_chain_with_events_and_trust_under_lock lock root snapshot events signer trust).
Proof.
  unfold create_chain_with_events_and_trust_under_lock. retains.
  apply retains_commit; unfold cas_of; [silent|retains].
Qed.
Lemma retains_append lock root thread events updates signer trust :
  retains (append_events_with_trust_under_lock lock root thread events updates signer trust).
Proof. unfold append_events_with_trust_under_lock, cas_of. retains. Qed.
Lemma retains_add lock root snapshot signer trust :
  retains (add_thread_to_chain_with_trust_under_lock lock root snapshot signer trust).
Proof. unfold add_thread_to_chain_with_trust_under_lock. retains. Qed.
Lemma retains_add_events lock root snapshot events signer trust :
  retains (add_thread_to_chain_with_events_and_trust_under_lock lock root snapshot events signer trust).
Proof. unfold add_thread_to_chain_with_events_and_trust_under_lock. retains. Qed.
Lemma retains_add_append lock root snapshot events existing existing_events updates signer trust :
  retains (add_thread_and_append_under_lock lock root snapshot events existing existing_events updates signer trust).
Proof. unfold add_thread_and_append_under_lock, cas_of. retains. Qed.
Hint Resolve retains_create retains_create_events retains_append retains_add retains_add_events retains_add_append : retains.
Lemma retains_perform signer trust request : retains (perform signer trust request).
Proof. destruct request; cbn [perform]; retains. Qed.

Lemma step_coherent s s' : coherent s → step s s' → coherent s'.
Proof.
  intros Hs Hstep. destruct Hstep as [signer trust request kill restart s _|cas s Hsub].
  - pose proof (retains_perform signer trust request (with_kill s kill) Hs) as Hk. unfold wp in Hk.
    destruct (perform signer trust request (with_kill s kill)) as [[a|e] s']; cbn in *;
      destruct restart; try done; intros root c Hl; cbn in Hl; by rewrite lookup_empty in Hl.
  - by apply (coherent_grows s).
Qed.
Lemma run_coherent cas s : rtc step (fresh cas) s → coherent s.
Proof.
  intros Hrun. assert (Hf : coherent (fresh cas)) by (intros root c Hl; cbn in Hl; by rewrite lookup_empty in Hl).
  induction Hrun as [s|s1 s2 s3 Hstep _ IH]; [done|]. by eapply IH, step_coherent.
Qed.

(** ** Reading the head *)

Lemma load_state_ok cas h s :
  load_hashed_chain_state cas h = Ok s → read_cas_object cas h = Ok s ∧ object_hash s = h.
Proof.
  unfold load_hashed_chain_state, read_cas_object. intros Hl. facts Hl. subst. rewrite E. cbn. rewrite E1.
  unfold not_canonical in E2. by facts E2.
Qed.
Lemma load_event_ok cas h e :
  load_hashed_event cas h = Ok e → read_cas_object cas h = Ok e ∧ object_hash e = h.
Proof.
  unfold load_hashed_event, read_cas_object. intros Hl. facts Hl. subst. rewrite E. cbn. rewrite E1.
  unfold not_canonical in E2. by facts E2.
Qed.

Lemma last_event_ok cas root log s :
  valid_log cas root log → sn_chain_root_id s = root → snapshot_within log s →
  validate_snapshot_last_event_object cas s = Ok tt.
Proof.
  intros Hlog Hroot Hin. unfold validate_snapshot_last_event_object.
  destruct (sn_last_event_hash s) as [h|] eqn:Hh; [|done].
  destruct (Hin _ Hh) as (e & [i He]%list_elem_of_lookup & Ht & Hseq & Hchain).
  destruct (valid_log_lookup _ _ _ _ _ _ Hlog He).
  destruct (load_event_ok _ _ _ ef_load) as [-> Hhash]. cbn.
  apply sch_then; [holds|]. unfold validate_snapshot_last_event. apply sch_then; [done|].
  unfold validate_event in ef_valid. facts ef_valid. rewrite E4. cbn.
  assert (ev_chain_root_id e = sn_chain_root_id s) by congruence. checks. holds.
Qed.

(** The current snapshot of a thread of an accepted head can be read. *)
Lemma current_readable cas root h log hs s tid entry :
  history cas root h log hs s → cs_threads s !! tid = Some entry →
  ∃ sn, load_hashed_snapshot cas (te_snapshot_hash entry) = Ok sn ∧
    read_current_snapshot_for_mutation cas s tid = Ok sn.
Proof.
  intros [Hlog Hst Hc] He. destruct (hc_snapshot _ _ _ Hc _ _ He) as (sn & Hl & Hv & _ & Hin).
  exists sn. split; [done|]. unfold read_current_snapshot_for_mutation. rewrite He. cbn.
  unfold load_hashed_snapshot in Hl. facts Hl. subst. rewrite E. cbn. rewrite E1. cbn.
  unfold not_canonical in E2. facts E2. apply sch_then; [holds|]. apply sch_then; [done|].
  apply sch_then; [|done]. eapply last_event_ok; [done| |done].
  destruct (states_head _ _ _ _ _ _ _ Hst) as [[] _]. unfold validate_stored_snapshot in Hv. facts Hv. congruence.
Qed.

(** ** Runs of a read *)

Lemma step_bind {A B} (m : Op A) (f : A → Op B) s a s' : m s = (Ok a, s') → (m ≫= f) s = f a s'.
Proof. unfold mbind, m_bind. by intros ->. Qed.
Lemma step_lift {A B} (r : Sch A) (f : A → Op B) s a : r = Ok a → (lift r ≫= f) s = f a s.
Proof. by intros ->. Qed.
Lemma verified_run (root : ChainLock) r trust s :
  st_heads s !! root = Some r → verify_signed_ref r trust = Ok tt → sr_ref_path r = head_ref_path root →
  read_verified_head root trust s = (Ok (Some r), s).
Proof.
  intros Hr Hv Hp. unfold read_verified_head. rewrite (step_bind get _ s s s eq_refl). cbv beta. rewrite Hr.
  rewrite (step_lift _ _ _ tt Hv). rewrite (step_lift _ _ _ tt); [done|]. holds.
Qed.

(** The head that is read is cached. *)
Lemma mutation_run root r trust s state :
  st_heads s !! root = Some r → verify_signed_ref r trust = Ok tt → sr_ref_path r = head_ref_path root →
  located (st_cas s) root (sr_target_hash r) state →
  ∃ s', read_chain_head_for_mutation root root trust s = (Ok state, s') ∧ st_cas s' = st_cas s.
Proof.
  intros Hr Hv Hp (Hl & Hs & Hpos & Hroot). destruct (load_state_ok _ _ _ Hl) as [Hread Hhash].
  unfold read_chain_head_for_mutation, ensure_lock_protects.
  rewrite (step_lift _ _ _ tt); [|holds]. rewrite (step_bind _ _ _ _ _ (verified_run _ _ _ _ Hr Hv Hp)).
  rewrite (step_lift _ _ _ r eq_refl), (step_bind cas_of _ s (st_cas s) s eq_refl).
  rewrite (step_lift _ _ _ _ Hread), (step_lift _ _ _ _ Hs), (step_lift _ _ _ _ Hpos).
  rewrite (step_lift _ _ _ tt); [|holds]. rewrite (step_lift _ _ _ tt); [|holds].
  eexists. split; [reflexivity|done].
Qed.
Lemma thread_run root r thread trust s state :
  coherent s → validate_chain_root_id root = Ok tt →
  st_heads s !! root = Some r → verify_signed_ref r trust = Ok tt → sr_ref_path r = head_ref_path root →
  located (st_cas s) root (sr_target_hash r) state →
  (read_thread_snapshot_with_trust root root thread trust s).1 =
  if decide (is_Some (cs_threads state !! thread)) then
    Some <$> read_current_snapshot_for_mutation (st_cas s) state thread
  else Ok None.
Proof.
  intros Hs Hvalid Hr Hv Hp Hloc. pose proof (mutation_run root r trust s state Hr Hv Hp Hloc) as (s' & Hrun & Hcas).
  destruct Hloc as (Hl & Hst & Hpos & Hroot). destruct (load_state_ok _ _ _ Hl) as [_ Hhash].
  unfold read_thread_snapshot_with_trust, ensure_lock_protects.
  rewrite (step_lift _ _ _ _ Hvalid). rewrite (step_lift _ _ _ tt); [|holds].
  rewrite (step_bind _ _ _ _ _ (verified_run _ _ _ _ Hr Hv Hp)), (step_bind get _ s s s eq_refl). cbv beta.
  assert (Hend : ∀ s1, st_cas s1 = st_cas s →
    ((if decide (is_Some (cs_threads state !! thread)) then
        cas ← cas_of ; snapshot ← lift (read_current_snapshot_for_mutation cas state thread) ; mret (Some snapshot)
      else mret None : Op (option ThreadSnapshot)) s1).1 =
    (if decide (is_Some (cs_threads state !! thread)) then
       Some <$> read_current_snapshot_for_mutation (st_cas s) state thread else Ok None)).
  { intros s1 Hs1. case_decide; [|done]. rewrite (step_bind cas_of _ s1 (st_cas s1) s1 eq_refl), Hs1.
    by destruct (read_current_snapshot_for_mutation (st_cas s) state thread). }
  destruct (st_cache s !! root) as [c|] eqn:Hc; cbn [mbind option_bind]; [destruct (decide (chain_state_hash c = sr_target_hash r)) as [Hsame|_]|].
  - pose proof (Hs _ _ Hc) as Hlc. rewrite Hsame, Hl in Hlc. injection Hlc as <-.
    etransitivity; [apply (f_equal fst); refine (step_bind _ _ s state s _)|by apply Hend].
    rewrite (step_lift _ _ _ _ Hst), (step_lift _ _ _ _ Hpos).
    rewrite (step_lift _ _ _ tt); [|holds]. rewrite (step_lift _ _ _ tt); [done|holds].
  - etransitivity; [apply (f_equal fst); exact (step_bind _ _ _ _ _ Hrun)|by apply Hend].
  - etransitivity; [apply (f_equal fst); exact (step_bind _ _ _ _ _ Hrun)|by apply Hend].
Qed.

(** C13. Reading a thread returns what the signed head names, whatever the
    head cache holds: after any sequence of operations on values that
    [serde_json] reads back, of kills and restarts, with a head whose
    signature the trust store verifies, the read gives no
    snapshot for a thread the head state does not list, and otherwise the
    stored snapshot of the thread's entry. *)
Theorem read_thread_exact cas s root r thread trust :
  rtc step (fresh cas) s → validate_chain_root_id root = Ok tt →
  st_heads s !! root = Some r → verify_signed_ref r trust = Ok tt → sr_ref_path r = head_ref_path root →
  ∃ log hs state, history (st_cas s) root (sr_target_hash r) log hs state ∧
    match cs_threads state !! thread with
    | None => (read_thread_snapshot_with_trust root root thread trust s).1 = Ok None
    | Some entry => ∃ sn, load_hashed_snapshot (st_cas s) (te_snapshot_hash entry) = Ok sn ∧
        (read_thread_snapshot_with_trust root root thread trust s).1 = Ok (Some sn)
    end.
Proof.
  intros Hrun Hvalid Hr Hv Hp. destruct (run_keeps_sound _ _ Hrun _ _ Hr) as (log & hs & state & Hh).
  exists log, hs, state. split; [done|].
  destruct (states_head _ _ _ _ _ _ _ (hi_states _ _ _ _ _ _ Hh)) as [Hpl%placed_located _].
  rewrite (thread_run _ _ _ _ _ _ (run_coherent _ _ Hrun) Hvalid Hr Hv Hp Hpl).
  destruct (cs_threads state !! thread) as [entry|] eqn:He; [|done].
  destruct (current_readable _ _ _ _ _ _ _ _ Hh He) as (sn & Hl & Hread). exists sn. split; [done|].
  rewrite decide_True by eauto. by rewrite Hread.
Qed.

End reads.
