(* ===== verification/ChainCodec.v ===== *)
(** * A codec for chain objects

    A concrete stand-in for [serde_json] on the objects of a chain, for
    which the laws of [WireLaws] hold: an object is a string of digits that
    is read from its beginning, and a snapshot an object with that string,
    its kind and its schema as members. *)

From stdpp Require Import sorting countable.
From S2P Require Import Prelude Float64 Json CanonicalRef Schedule ScheduleSpec Samples.
From S2P Require Import CasStore ChainObjects ChainValidation Chain ChainHistory ChainGrowth.

(** ** Codes *)

Inductive digit := D0 | D1 | D2.
(** [enc a out] is [out] with the code of [a] before it, which [dec] reads. *)
Class Code (A : Type) := {
  enc : A → list digit → list digit;
  dec : list digit → option (A * list digit);
  dec_enc a out : dec (enc a out) = Some (a, out);
}.
#[global] Arguments enc {_ _} _ _ : simpl never.
#[global] Arguments dec {_ _} _ : simpl never.
Ltac code_law := intros [] ?; cbn; repeat (rewrite dec_enc; cbn); reflexivity.
(** The same for a pair of functions. *)
Ltac law i o := unfold i, o; code_law.

Fixpoint bits (p : positive) (out : list digit) : list digit :=
  match p with xH => D2 :: out | xO p => D0 :: bits p out | xI p => D1 :: bits p out end.
Fixpoint unbits (s : list digit) : option (positive * list digit) :=
  match s with
  | [] => None
  | D0 :: s => '(p, out) ← unbits s ; Some (xO p, out)
  | D1 :: s => '(p, out) ← unbits s ; Some (xI p, out)
  | D2 :: s => Some (xH, s)
  end.
Lemma unbits_bits p out : unbits (bits p out) = Some (p, out).
Proof. induction p as [p IH|p IH|]; cbn; by rewrite ?IH. Qed.
#[export] Instance positive_code : Code positive := {| enc := bits; dec := unbits; dec_enc := unbits_bits |}.

(** Finite and numeric types by their number. *)
Section numbered.
Context {A : Type} (number : A → positive) (of_number : positive → option A).
Hypothesis of_number_number : ∀ a, of_number (number a) = Some a.
Definition numbered_in (s : list digit) : option (A * list digit) :=
  '(p, out) ← dec s ; a ← of_number p ; Some (a, out).
Lemma numbered_law a out : numbered_in (enc (number a) out) = Some (a, out).
Proof. unfold numbered_in. rewrite dec_enc. cbn. by rewrite of_number_number. Qed.
Definition numbered : Code A := {| enc a := enc (number a); dec := numbered_in; dec_enc := numbered_law |}.
End numbered.
#[export] Instance bool_code : Code bool := numbered encode decode decode_encode.
#[export] Instance N_code : Code N := numbered encode decode decode_encode.
#[export] Instance Z_code : Code Z := numbered encode decode decode_encode.
#[export] Instance ascii_code : Code Ascii.ascii := numbered encode decode decode_encode.

Definition option_out {A} `{!Code A} (o : option A) (out : list digit) : list digit :=
  match o with None => enc false out | Some a => enc true (enc a out) end.
Definition option_in {A} `{!Code A} (s : list digit) : option (option A * list digit) :=
  '(b, s) ← dec s ; if b : bool then '(a, s) ← dec s ; Some (Some a, s) else Some (None, s).
Lemma option_law {A} `{!Code A} (o : option A) out : option_in (option_out o out) = Some (o, out).
Proof. revert o out. unfold option_in, option_out. code_law. Qed.
#[export] Instance option_code {A} `{!Code A} : Code (option A) := {|
  enc := option_out; dec := option_in; dec_enc := option_law |}.

Fixpoint dec_all {A} `{!Code A} (n : nat) (s : list digit) : option (list A * list digit) :=
  match n with O => Some ([], s) | S n => '(a, s) ← dec s ; '(l, s) ← dec_all n s ; Some (a :: l, s) end.
Definition list_out {A} `{!Code A} (l : list A) (out : list digit) : list digit :=
  enc (N.of_nat (length l)) (foldr enc out l).
Definition list_in {A} `{!Code A} (s : list digit) : option (list A * list digit) :=
  '(n, s) ← dec s ; dec_all (N.to_nat n) s.
Lemma dec_all_enc {A} `{!Code A} (l : list A) out : dec_all (length l) (foldr enc out l) = Some (l, out).
Proof. induction l as [|a l IH]; [done|]. cbn. rewrite dec_enc. cbn. by rewrite IH. Qed.
Lemma list_law {A} `{!Code A} (l : list A) out : list_in (list_out l out) = Some (l, out).
Proof. unfold list_in, list_out. rewrite dec_enc. cbn. rewrite Nat2N.id. apply dec_all_enc. Qed.
#[export] Instance list_code {A} `{!Code A} : Code (list A) := {|
  enc := list_out; dec := list_in; dec_enc := list_law |}.

Definition string_in (s : list digit) : option (string * list digit) :=
  '(l, s) ← dec s ; Some (String.string_of_list_ascii l, s).
Lemma string_law (x : string) out : string_in (enc (String.list_ascii_of_string x) out) = Some (x, out).
Proof. unfold string_in. rewrite dec_enc. cbn. by rewrite String.string_of_list_ascii_of_string. Qed.
#[export] Instance string_code : Code string := {|
  enc x := enc (String.list_ascii_of_string x); dec := string_in; dec_enc := string_law |}.

Definition pair_in {A B} `{!Code A, !Code B} (s : list digit) : option ((A * B) * list digit) :=
  '(a, s) ← dec s ; '(b, s) ← dec s ; Some ((a, b), s).
Lemma pair_law {A B} `{!Code A, !Code B} (x : A * B) out : pair_in (enc x.1 (enc x.2 out)) = Some (x, out).
Proof. revert x out. unfold pair_in. code_law. Qed.
#[export] Instance pair_code {A B} `{!Code A, !Code B} : Code (A * B) := {|
  enc x out := enc x.1 (enc x.2 out); dec := pair_in; dec_enc := pair_law |}.
Definition map_in {A} `{!Code A} (s : list digit) : option (gmap string A * list digit) :=
  '(l, s) ← @dec (list (string * A)) _ s ; Some (list_to_map l, s).
Lemma map_law {A} `{!Code A} (m : gmap string A) out : map_in (@enc (list (string * A)) _ (map_to_list m) out) = Some (m, out).
Proof. unfold map_in. rewrite dec_enc. cbn. by rewrite list_to_map_to_list. Qed.
#[export] Instance map_code {A} `{!Code A} : Code (gmap string A) := {|
  enc m := @enc (list (string * A)) _ (map_to_list m); dec := map_in; dec_enc := map_law |}.

(** ** Values *)

Definition float_out (f : f64) (out : list digit) : list digit :=
  match f with
  | S754_zero s => enc 1%positive (enc s out)
  | S754_infinity s => enc 2%positive (enc s out)
  | S754_nan => enc 3%positive out
  | S754_finite s m e => enc 4%positive (enc s (enc m (enc e out)))
  end.
Definition float_in (s : list digit) : option (f64 * list digit) :=
  '(tag, s) ← dec s ;
  match (tag : positive) with
  | 1%positive => '(b, s) ← dec s ; Some (S754_zero b, s)
  | 2%positive => '(b, s) ← dec s ; Some (S754_infinity b, s)
  | 3%positive => Some (S754_nan, s)
  | 4%positive => '(b, s) ← dec s ; '(m, s) ← dec s ; '(e, s) ← dec s ; Some (S754_finite b m e, s)
  | _ => None
  end.
Lemma float_law f out : float_in (float_out f out) = Some (f, out).
Proof. revert f out. law float_in float_out. Qed.
#[export] Instance float_code : Code f64 := {|
  enc := float_out; dec := float_in; dec_enc := float_law |}.

(** Numbers and values by their number. *)
Definition number_tree (n : Number) : positive :=
  match n with
  | PosInt n => encode (0%Z, n, 0%Z) | NegInt n => encode (1%Z, n, 0%Z)
  | Float (S754_zero s) => encode (2%Z, Z.b2z s, 0%Z)
  | Float (S754_infinity s) => encode (3%Z, Z.b2z s, 0%Z)
  | Float S754_nan => encode (4%Z, 0%Z, 0%Z)
  | Float (S754_finite false m e) => encode (5%Z, Zpos m, e)
  | Float (S754_finite true m e) => encode (6%Z, Zpos m, e)
  end.
Definition tree_number (p : positive) : option Number :=
  match decode p with
  | Some (0%Z, n, _) => Some (PosInt n) | Some (1%Z, n, _) => Some (NegInt n)
  | Some (2%Z, b, _) => Some (Float (S754_zero (b =? 1)))
  | Some (3%Z, b, _) => Some (Float (S754_infinity (b =? 1)))
  | Some (4%Z, _, _) => Some (Float S754_nan)
  | Some (5%Z, Zpos m, e) => Some (Float (S754_finite false m e))
  | Some (6%Z, Zpos m, e) => Some (Float (S754_finite true m e))
  | _ => None
  end.
Lemma number_law n : tree_number (number_tree n) = Some n.
Proof. unfold tree_number. destruct n as [n|n|[[]|[]| |[] m e]]; cbn [number_tree]; by rewrite decode_encode. Qed.
Fixpoint to_tree (v : Value) : gen_tree positive :=
  match v with
  | VNull => GenNode 0 []
  | VBool b => GenNode 1 [GenLeaf (encode b)]
  | VNumber n => GenNode 2 [GenLeaf (number_tree n)]
  | VString s => GenNode 3 [GenLeaf (encode s)]
  | VArray vs => GenNode 4 (map to_tree vs)
  | VObject m => GenNode 5 (map (λ '(k, v), GenNode 6 [GenLeaf (encode k); to_tree v]) m)
  end.
Definition or_null {A} (f : A → Value) (o : option A) : Value :=
  match o with Some a => f a | None => VNull end.
Fixpoint from_tree (t : gen_tree positive) : Value :=
  match t with
  | GenNode 1 [GenLeaf p] => or_null VBool (decode p)
  | GenNode 2 [GenLeaf p] => or_null VNumber (tree_number p)
  | GenNode 3 [GenLeaf p] => or_null VString (decode p)
  | GenNode 4 ts => VArray (map from_tree ts)
  | GenNode 5 ts =>
      VObject (map (λ t, match t with
                         | GenNode 6 [GenLeaf p; t] => (default EmptyString (decode p), from_tree t)
                         | _ => (EmptyString, VNull)
                         end) ts)
  | _ => VNull
  end.
Lemma tree_law v : from_tree (to_tree v) = v.
Proof.
  induction v as [|b|n|s|vs IH|m IH] using Value_ind; cbn [to_tree from_tree map];
    rewrite ?decode_encode, ?number_law; try reflexivity.
  - f_equal. induction IH as [|v vs Hv Hvs IHvs]; [done|]. cbn. by rewrite Hv, IHvs.
  - f_equal. induction IH as [|[k v] m Hv Hm IHm]; [done|]. cbn -[encode decode]. rewrite decode_encode.
    cbn in Hv |- *. by rewrite Hv, IHm.
Qed.
Definition value_number (v : Value) : positive := encode (to_tree v).
Definition number_value (p : positive) : option Value := from_tree <$> decode p.
Lemma value_law v : number_value (value_number v) = Some v.
Proof. unfold number_value, value_number. rewrite decode_encode. cbn. by rewrite tree_law. Qed.
#[export] Instance value_code : Code Value := numbered value_number number_value value_law.

(** ** Objects *)

Definition access_out (x : LiveProjectAccess) (out : list digit) : list digit :=
  match x with
  | LiveReadOnly => enc 1%positive out
  | LiveReadWrite => enc 2%positive out
  end.
Definition access_in (s : list digit) : option (LiveProjectAccess * list digit) :=
  '(tag, s) ← dec s ;
  match (tag : positive) with
  | 1%positive => Some (LiveReadOnly, s)
  | 2%positive => Some (LiveReadWrite, s)
  | _ => None
  end.
Lemma access_law x out : access_in (access_out x out) = Some (x, out).
Proof. revert x out. law access_in access_out. Qed.
#[export] Instance access_code : Code LiveProjectAccess := {|
  enc := access_out; dec := access_in; dec_enc := access_law |}.
Definition confinement_out (x : LiveFilesystemConfinement) (out : list digit) : list digit :=
  match x with
  | DescriptorRootedMasked a0 => enc 1%positive (enc a0 out)
  | UnconfinedHost => enc 2%positive out
  end.
Definition confinement_in (s : list digit) : option (LiveFilesystemConfinement * list digit) :=
  '(tag, s) ← dec s ;
  match (tag : positive) with
  | 1%positive => '(a0, s) ← dec s ; Some (DescriptorRootedMasked a0, s)
  | 2%positive => Some (UnconfinedHost, s)
  | _ => None
  end.
Lemma confinement_law x out : confinement_in (confinement_out x out) = Some (x, out).
Proof. revert x out. law confinement_in confinement_out. Qed.
#[export] Instance confinement_code : Code LiveFilesystemConfinement := {|
  enc := confinement_out; dec := confinement_in; dec_enc := confinement_law |}.
Definition live_out (x : LiveAccessAuthority) (out : list digit) : list digit :=
  match x with
  | Build_LiveAccessAuthority a0 a1 a2 => enc a0 (enc a1 (enc a2 out))
  end.
Definition live_in (s : list digit) : option (LiveAccessAuthority * list digit) :=
  '(a0, s) ← dec s ; '(a1, s) ← dec s ; '(a2, s) ← dec s ;
  Some (Build_LiveAccessAuthority a0 a1 a2, s).
Lemma live_law x out : live_in (live_out x out) = Some (x, out).
Proof. revert x out. law live_in live_out. Qed.
#[export] Instance live_code : Code LiveAccessAuthority := {|
  enc := live_out; dec := live_in; dec_enc := live_law |}.
Definition publication_out (x : PinnedTerminalPublication) (out : list digit) : list digit :=
  match x with
  | Discard => enc 1%positive out
  | RetainResult => enc 2%positive out
  | AdvanceHead a0 a1 => enc 3%positive (enc a0 (enc a1 out))
  end.
Definition publication_in (s : list digit) : option (PinnedTerminalPublication * list digit) :=
  '(tag, s) ← dec s ;
  match (tag : positive) with
  | 1%positive => Some (Discard, s)
  | 2%positive => Some (RetainResult, s)
  | 3%positive => '(a0, s) ← dec s ; '(a1, s) ← dec s ; Some (AdvanceHead a0 a1, s)
  | _ => None
  end.
Lemma publication_law x out : publication_in (publication_out x out) = Some (x, out).
Proof. revert x out. law publication_in publication_out. Qed.
#[export] Instance publication_code : Code PinnedTerminalPublication := {|
  enc := publication_out; dec := publication_in; dec_enc := publication_law |}.
Definition realization_out (x : PinnedProjectRealization) (out : list digit) : list digit :=
  match x with
  | PinnedReadOnly => enc 1%positive out
  | Cow a0 => enc 2%positive (enc a0 out)
  end.
Definition realization_in (s : list digit) : option (PinnedProjectRealization * list digit) :=
  '(tag, s) ← dec s ;
  match (tag : positive) with
  | 1%positive => Some (PinnedReadOnly, s)
  | 2%positive => '(a0, s) ← dec s ; Some (Cow a0, s)
  | _ => None
  end.
Lemma realization_law x out : realization_in (realization_out x out) = Some (x, out).
Proof. revert x out. law realization_in realization_out. Qed.
#[export] Instance realization_code : Code PinnedProjectRealization := {|
  enc := realization_out; dec := realization_in; dec_enc := realization_law |}.
Definition child_realization_out (x : PinnedChildProjectRealization) (out : list digit) : list digit :=
  match x with
  | ChildReadOnly => enc 1%positive out
  | ChildCowDiscard => enc 2%positive out
  end.
Definition child_realization_in (s : list digit) : option (PinnedChildProjectRealization * list digit) :=
  '(tag, s) ← dec s ;
  match (tag : positive) with
  | 1%positive => Some (ChildReadOnly, s)
  | 2%positive => Some (ChildCowDiscard, s)
  | _ => None
  end.
Lemma child_realization_law x out : child_realization_in (child_realization_out x out) = Some (x, out).
Proof. revert x out. law child_realization_in child_realization_out. Qed.
#[export] Instance child_realization_code : Code PinnedChildProjectRealization := {|
  enc := child_realization_out; dec := child_realization_in; dec_enc := child_realization_law |}.
Definition child_policy_out (x : ChildProjectAuthorityPolicy) (out : list digit) : list digit :=
  match x with
  | Inherit => enc 1%positive out
  | PinAtSpawn a0 => enc 2%positive (enc a0 out)
  end.
Definition child_policy_in (s : list digit) : option (ChildProjectAuthorityPolicy * list digit) :=
  '(tag, s) ← dec s ;
  match (tag : positive) with
  | 1%positive => Some (Inherit, s)
  | 2%positive => '(a0, s) ← dec s ; Some (PinAtSpawn a0, s)
  | _ => None
  end.
Lemma child_policy_law x out : child_policy_in (child_policy_out x out) = Some (x, out).
Proof. revert x out. law child_policy_in child_policy_out. Qed.
#[export] Instance child_policy_code : Code ChildProjectAuthorityPolicy := {|
  enc := child_policy_out; dec := child_policy_in; dec_enc := child_policy_law |}.
Definition names_out (x : EnvironmentNameAuthority) (out : list digit) : list digit :=
  match x with
  | DeclaredRequired => enc 1%positive out
  | ExactNames a0 => enc 2%positive (enc a0 out)
  end.
Definition names_in (s : list digit) : option (EnvironmentNameAuthority * list digit) :=
  '(tag, s) ← dec s ;
  match (tag : positive) with
  | 1%positive => Some (DeclaredRequired, s)
  | 2%positive => '(a0, s) ← dec s ; Some (ExactNames a0, s)
  | _ => None
  end.
Lemma names_law x out : names_in (names_out x out) = Some (x, out).
Proof. revert x out. law names_in names_out. Qed.
#[export] Instance names_code : Code EnvironmentNameAuthority := {|
  enc := names_out; dec := names_in; dec_enc := names_law |}.
Definition environment_out (x : EnvironmentAuthority) (out : list digit) : list digit :=
  match x with
  | NoEnvironment => enc 1%positive out
  | ProjectOverlay a0 a1 a2 a3 => enc 2%positive (enc a0 (enc a1 (enc a2 (enc a3 out))))
  | VaultEnvironment a0 a1 => enc 3%positive (enc a0 (enc a1 out))
  | Delegated a0 a1 a2 => enc 4%positive (enc a0 (enc a1 (enc a2 out)))
  end.
Definition environment_in (s : list digit) : option (EnvironmentAuthority * list digit) :=
  '(tag, s) ← dec s ;
  match (tag : positive) with
  | 1%positive => Some (NoEnvironment, s)
  | 2%positive => '(a0, s) ← dec s ; '(a1, s) ← dec s ; '(a2, s) ← dec s ; '(a3, s) ← dec s ;
      Some (ProjectOverlay a0 a1 a2 a3, s)
  | 3%positive => '(a0, s) ← dec s ; '(a1, s) ← dec s ; Some (VaultEnvironment a0 a1, s)
  | 4%positive => '(a0, s) ← dec s ; '(a1, s) ← dec s ; '(a2, s) ← dec s ;
      Some (Delegated a0 a1 a2, s)
  | _ => None
  end.
Lemma environment_law x out : environment_in (environment_out x out) = Some (x, out).
Proof. revert x out. law environment_in environment_out. Qed.
#[export] Instance environment_code : Code EnvironmentAuthority := {|
  enc := environment_out; dec := environment_in; dec_enc := environment_law |}.
Definition authority_out (x : ExecutionProjectAuthority) (out : list digit) : list digit :=
  match x with
  | Projectless a0 => enc 1%positive (enc a0 out)
  | LiveProject a0 a1 a2 a3 a4 a5 a6 => enc 2%positive (enc a0 (enc a1 (enc a2 (enc a3 (enc a4 (
      enc a5 (enc a6 out)))))))
  | PinnedGeneration a0 a1 a2 a3 a4 a5 a6 => enc 3%positive (enc a0 (enc a1 (enc a2 (enc a3 (
      enc a4 (enc a5 (enc a6 out)))))))
  end.
Definition authority_in (s : list digit) : option (ExecutionProjectAuthority * list digit) :=
  '(tag, s) ← dec s ;
  match (tag : positive) with
  | 1%positive => '(a0, s) ← dec s ; Some (Projectless a0, s)
  | 2%positive => '(a0, s) ← dec s ; '(a1, s) ← dec s ; '(a2, s) ← dec s ; '(a3, s) ← dec s ;
      '(a4, s) ← dec s ; '(a5, s) ← dec s ; '(a6, s) ← dec s ;
      Some (LiveProject a0 a1 a2 a3 a4 a5 a6, s)
  | 3%positive => '(a0, s) ← dec s ; '(a1, s) ← dec s ; '(a2, s) ← dec s ; '(a3, s) ← dec s ;
      '(a4, s) ← dec s ; '(a5, s) ← dec s ; '(a6, s) ← dec s ;
      Some (PinnedGeneration a0 a1 a2 a3 a4 a5 a6, s)
  | _ => None
  end.
Lemma authority_law x out : authority_in (authority_out x out) = Some (x, out).
Proof. revert x out. law authority_in authority_out. Qed.
#[export] Instance authority_code : Code ExecutionProjectAuthority := {|
  enc := authority_out; dec := authority_in; dec_enc := authority_law |}.
Definition retention_out (x : ThreadHistoryRetention) (out : list digit) : list digit :=
  match x with
  | DurableHistory => enc 1%positive out
  | TerminalFor a0 => enc 2%positive (enc a0 out)
  end.
Definition retention_in (s : list digit) : option (ThreadHistoryRetention * list digit) :=
  '(tag, s) ← dec s ;
  match (tag : positive) with
  | 1%positive => Some (DurableHistory, s)
  | 2%positive => '(a0, s) ← dec s ; Some (TerminalFor a0, s)
  | _ => None
  end.
Lemma retention_law x out : retention_in (retention_out x out) = Some (x, out).
Proof. revert x out. law retention_in retention_out. Qed.
#[export] Instance retention_code : Code ThreadHistoryRetention := {|
  enc := retention_out; dec := retention_in; dec_enc := retention_law |}.
Definition trust_out (x : CapturedItemTrustClass) (out : list digit) : list digit :=
  match x with
  | ItemTrusted => enc 1%positive out
  | ItemUntrusted => enc 2%positive out
  | ItemUnsigned => enc 3%positive out
  end.
Definition trust_in (s : list digit) : option (CapturedItemTrustClass * list digit) :=
  '(tag, s) ← dec s ;
  match (tag : positive) with
  | 1%positive => Some (ItemTrusted, s)
  | 2%positive => Some (ItemUntrusted, s)
  | 3%positive => Some (ItemUnsigned, s)
  | _ => None
  end.
Lemma trust_law x out : trust_in (trust_out x out) = Some (x, out).
Proof. revert x out. law trust_in trust_out. Qed.
#[export] Instance trust_code : Code CapturedItemTrustClass := {|
  enc := trust_out; dec := trust_in; dec_enc := trust_law |}.
Definition effective_out (x : CapturedEffectiveTrustClass) (out : list digit) : list digit :=
  match x with
  | TrustedBundle => enc 1%positive out
  | TrustedProject => enc 2%positive out
  | UntrustedProject => enc 3%positive out
  | EffectiveUnsigned => enc 4%positive out
  end.
Definition effective_in (s : list digit) : option (CapturedEffectiveTrustClass * list digit) :=
  '(tag, s) ← dec s ;
  match (tag : positive) with
  | 1%positive => Some (TrustedBundle, s)
  | 2%positive => Some (TrustedProject, s)
  | 3%positive => Some (UntrustedProject, s)
  | 4%positive => Some (EffectiveUnsigned, s)
  | _ => None
  end.
Lemma effective_law x out : effective_in (effective_out x out) = Some (x, out).
Proof. revert x out. law effective_in effective_out. Qed.
#[export] Instance effective_code : Code CapturedEffectiveTrustClass := {|
  enc := effective_out; dec := effective_in; dec_enc := effective_law |}.
Definition space_out (x : CapturedItemSpace) (out : list digit) : list digit :=
  match x with
  | ProjectSpace => enc 1%positive out
  | BundleSpace => enc 2%positive out
  end.
Definition space_in (s : list digit) : option (CapturedItemSpace * list digit) :=
  '(tag, s) ← dec s ;
  match (tag : positive) with
  | 1%positive => Some (ProjectSpace, s)
  | 2%positive => Some (BundleSpace, s)
  | _ => None
  end.
Lemma space_law x out : space_in (space_out x out) = Some (x, out).
Proof. revert x out. law space_in space_out. Qed.
#[export] Instance space_code : Code CapturedItemSpace := {|
  enc := space_out; dec := space_in; dec_enc := space_law |}.
Definition node_out (x : CapturedNodeHistoryPolicyProvenance) (out : list digit) : list digit :=
  match x with
  | MissingConfig => enc 1%positive out
  | SignedConfig a0 a1 a2 a3 => enc 2%positive (enc a0 (enc a1 (enc a2 (enc a3 out))))
  end.
Definition node_in (s : list digit) : option (CapturedNodeHistoryPolicyProvenance * list digit) :=
  '(tag, s) ← dec s ;
  match (tag : positive) with
  | 1%positive => Some (MissingConfig, s)
  | 2%positive => '(a0, s) ← dec s ; '(a1, s) ← dec s ; '(a2, s) ← dec s ; '(a3, s) ← dec s ;
      Some (SignedConfig a0 a1 a2 a3, s)
  | _ => None
  end.
Lemma node_law x out : node_in (node_out x out) = Some (x, out).
Proof. revert x out. law node_in node_out. Qed.
#[export] Instance node_code : Code CapturedNodeHistoryPolicyProvenance := {|
  enc := node_out; dec := node_in; dec_enc := node_law |}.
Definition clamp_out (x : CapturedThreadHistoryMinimumClamp) (out : list digit) : list digit :=
  match x with
  | Build_CapturedThreadHistoryMinimumClamp a0 a1 => enc a0 (enc a1 out)
  end.
Definition clamp_in (s : list digit) : option (CapturedThreadHistoryMinimumClamp * list digit) :=
  '(a0, s) ← dec s ; '(a1, s) ← dec s ; Some (Build_CapturedThreadHistoryMinimumClamp a0 a1, s).
Lemma clamp_law x out : clamp_in (clamp_out x out) = Some (x, out).
Proof. revert x out. law clamp_in clamp_out. Qed.
#[export] Instance clamp_code : Code CapturedThreadHistoryMinimumClamp := {|
  enc := clamp_out; dec := clamp_in; dec_enc := clamp_law |}.
Definition provenance_out (x : CapturedPolicyProvenance) (out : list digit) : list digit :=
  match x with
  | NodeDefault a0 => enc 1%positive (enc a0 out)
  | ItemAuthored a0 a1 a2 a3 a4 => enc 2%positive (enc a0 (enc a1 (enc a2 (enc a3 (enc a4 out)))))
  end.
Definition provenance_in (s : list digit) : option (CapturedPolicyProvenance * list digit) :=
  '(tag, s) ← dec s ;
  match (tag : positive) with
  | 1%positive => '(a0, s) ← dec s ; Some (NodeDefault a0, s)
  | 2%positive => '(a0, s) ← dec s ; '(a1, s) ← dec s ; '(a2, s) ← dec s ; '(a3, s) ← dec s ;
      '(a4, s) ← dec s ; Some (ItemAuthored a0 a1 a2 a3 a4, s)
  | _ => None
  end.
Lemma provenance_law x out : provenance_in (provenance_out x out) = Some (x, out).
Proof. revert x out. law provenance_in provenance_out. Qed.
#[export] Instance provenance_code : Code CapturedPolicyProvenance := {|
  enc := provenance_out; dec := provenance_in; dec_enc := provenance_law |}.
Definition policy_out (x : CapturedThreadHistoryPolicy) (out : list digit) : list digit :=
  match x with
  | Build_CapturedThreadHistoryPolicy a0 a1 a2 a3 a4 a5 a6 => enc a0 (enc a1 (enc a2 (enc a3 (
      enc a4 (enc a5 (enc a6 out))))))
  end.
Definition policy_in (s : list digit) : option (CapturedThreadHistoryPolicy * list digit) :=
  '(a0, s) ← dec s ; '(a1, s) ← dec s ; '(a2, s) ← dec s ; '(a3, s) ← dec s ;
  '(a4, s) ← dec s ; '(a5, s) ← dec s ; '(a6, s) ← dec s ;
  Some (Build_CapturedThreadHistoryPolicy a0 a1 a2 a3 a4 a5 a6, s).
Lemma policy_law x out : policy_in (policy_out x out) = Some (x, out).
Proof. revert x out. law policy_in policy_out. Qed.
#[export] Instance policy_code : Code CapturedThreadHistoryPolicy := {|
  enc := policy_out; dec := policy_in; dec_enc := policy_law |}.
Definition status_out (x : ThreadStatus) (out : list digit) : list digit :=
  match x with
  | Created => enc 1%positive out
  | Running => enc 2%positive out
  | Completed => enc 3%positive out
  | Failed => enc 4%positive out
  | Cancelled => enc 5%positive out
  | KilledStatus => enc 6%positive out
  | TimedOut => enc 7%positive out
  | Continued => enc 8%positive out
  end.
Definition status_in (s : list digit) : option (ThreadStatus * list digit) :=
  '(tag, s) ← dec s ;
  match (tag : positive) with
  | 1%positive => Some (Created, s)
  | 2%positive => Some (Running, s)
  | 3%positive => Some (Completed, s)
  | 4%positive => Some (Failed, s)
  | 5%positive => Some (Cancelled, s)
  | 6%positive => Some (KilledStatus, s)
  | 7%positive => Some (TimedOut, s)
  | 8%positive => Some (Continued, s)
  | _ => None
  end.
Lemma status_law x out : status_in (status_out x out) = Some (x, out).
Proof. revert x out. law status_in status_out. Qed.
#[export] Instance status_code : Code ThreadStatus := {|
  enc := status_out; dec := status_in; dec_enc := status_law |}.
Definition usage_out (x : ThreadUsage) (out : list digit) : list digit :=
  match x with
  | Build_ThreadUsage a0 a1 a2 a3 a4 a5 a6 a7 a8 a9 a10 a11 => enc a0 (enc a1 (enc a2 (enc a3 (
      enc a4 (enc a5 (enc a6 (enc a7 (enc a8 (enc a9 (enc a10 (enc a11 out)))))))))))
  end.
Definition usage_in (s : list digit) : option (ThreadUsage * list digit) :=
  '(a0, s) ← dec s ; '(a1, s) ← dec s ; '(a2, s) ← dec s ; '(a3, s) ← dec s ;
  '(a4, s) ← dec s ; '(a5, s) ← dec s ; '(a6, s) ← dec s ; '(a7, s) ← dec s ;
  '(a8, s) ← dec s ; '(a9, s) ← dec s ; '(a10, s) ← dec s ; '(a11, s) ← dec s ;
  Some (Build_ThreadUsage a0 a1 a2 a3 a4 a5 a6 a7 a8 a9 a10 a11, s).
Lemma usage_law x out : usage_in (usage_out x out) = Some (x, out).
Proof. revert x out. law usage_in usage_out. Qed.
#[export] Instance usage_code : Code ThreadUsage := {|
  enc := usage_out; dec := usage_in; dec_enc := usage_law |}.
Definition durability_out (x : EventDurability) (out : list digit) : list digit :=
  match x with
  | Durable => enc 1%positive out
  | Journal => enc 2%positive out
  | Ephemeral => enc 3%positive out
  end.
Definition durability_in (s : list digit) : option (EventDurability * list digit) :=
  '(tag, s) ← dec s ;
  match (tag : positive) with
  | 1%positive => Some (Durable, s)
  | 2%positive => Some (Journal, s)
  | 3%positive => Some (Ephemeral, s)
  | _ => None
  end.
Lemma durability_law x out : durability_in (durability_out x out) = Some (x, out).
Proof. revert x out. law durability_in durability_out. Qed.
#[export] Instance durability_code : Code EventDurability := {|
  enc := durability_out; dec := durability_in; dec_enc := durability_law |}.
Definition snapshot_out (x : ThreadSnapshot) (out : list digit) : list digit :=
  match x with
  | Build_ThreadSnapshot a0 a1 a2 a3 a4 a5 a6 a7 a8 a9 a10 a11 a12 a13 a14 a15 a16 a17 a18 a19 a20
      a21 a22 a23 a24 a25 a26 a27 a28 a29 a30 a31 => enc a0 (enc a1 (enc a2 (enc a3 (enc a4 (
      enc a5 (enc a6 (enc a7 (enc a8 (enc a9 (enc a10 (enc a11 (enc a12 (enc a13 (enc a14 (enc a15 (
      enc a16 (enc a17 (enc a18 (enc a19 (enc a20 (enc a21 (enc a22 (enc a23 (enc a24 (enc a25 (
      enc a26 (enc a27 (enc a28 (enc a29 (enc a30 (enc a31 out)))))))))))))))))))))))))))))))
  end.
Definition snapshot_in (s : list digit) : option (ThreadSnapshot * list digit) :=
  '(a0, s) ← dec s ; '(a1, s) ← dec s ; '(a2, s) ← dec s ; '(a3, s) ← dec s ;
  '(a4, s) ← dec s ; '(a5, s) ← dec s ; '(a6, s) ← dec s ; '(a7, s) ← dec s ;
  '(a8, s) ← dec s ; '(a9, s) ← dec s ; '(a10, s) ← dec s ; '(a11, s) ← dec s ;
  '(a12, s) ← dec s ; '(a13, s) ← dec s ; '(a14, s) ← dec s ; '(a15, s) ← dec s ;
  '(a16, s) ← dec s ; '(a17, s) ← dec s ; '(a18, s) ← dec s ; '(a19, s) ← dec s ;
  '(a20, s) ← dec s ; '(a21, s) ← dec s ; '(a22, s) ← dec s ; '(a23, s) ← dec s ;
  '(a24, s) ← dec s ; '(a25, s) ← dec s ; '(a26, s) ← dec s ; '(a27, s) ← dec s ;
  '(a28, s) ← dec s ; '(a29, s) ← dec s ; '(a30, s) ← dec s ; '(a31, s) ← dec s ;
  Some (Build_ThreadSnapshot a0 a1 a2 a3 a4 a5 a6 a7 a8 a9 a10 a11 a12 a13 a14 a15 a16 a17 a18 a19 a20 a21 a22 a23 a24 a25 a26 a27 a28 a29 a30 a31, s).
Lemma snapshot_law x out : snapshot_in (snapshot_out x out) = Some (x, out).
Proof. revert x out. law snapshot_in snapshot_out. Qed.
#[export] Instance snapshot_code : Code ThreadSnapshot := {|
  enc := snapshot_out; dec := snapshot_in; dec_enc := snapshot_law |}.
Definition event_out (x : ThreadEvent) (out : list digit) : list digit :=
  match x with
  | Build_ThreadEvent a0 a1 a2 a3 a4 a5 a6 a7 a8 a9 a10 a11 => enc a0 (enc a1 (enc a2 (enc a3 (
      enc a4 (enc a5 (enc a6 (enc a7 (enc a8 (enc a9 (enc a10 (enc a11 out)))))))))))
  end.
Definition event_in (s : list digit) : option (ThreadEvent * list digit) :=
  '(a0, s) ← dec s ; '(a1, s) ← dec s ; '(a2, s) ← dec s ; '(a3, s) ← dec s ;
  '(a4, s) ← dec s ; '(a5, s) ← dec s ; '(a6, s) ← dec s ; '(a7, s) ← dec s ;
  '(a8, s) ← dec s ; '(a9, s) ← dec s ; '(a10, s) ← dec s ; '(a11, s) ← dec s ;
  Some (Build_ThreadEvent a0 a1 a2 a3 a4 a5 a6 a7 a8 a9 a10 a11, s).
Lemma event_law x out : event_in (event_out x out) = Some (x, out).
Proof. revert x out. law event_in event_out. Qed.
#[export] Instance event_code : Code ThreadEvent := {|
  enc := event_out; dec := event_in; dec_enc := event_law |}.
Definition entry_out (x : ChainThreadEntry) (out : list digit) : list digit :=
  match x with
  | Build_ChainThreadEntry a0 a1 a2 a3 => enc a0 (enc a1 (enc a2 (enc a3 out)))
  end.
Definition entry_in (s : list digit) : option (ChainThreadEntry * list digit) :=
  '(a0, s) ← dec s ; '(a1, s) ← dec s ; '(a2, s) ← dec s ; '(a3, s) ← dec s ;
  Some (Build_ChainThreadEntry a0 a1 a2 a3, s).
Lemma entry_law x out : entry_in (entry_out x out) = Some (x, out).
Proof. revert x out. law entry_in entry_out. Qed.
#[export] Instance entry_code : Code ChainThreadEntry := {|
  enc := entry_out; dec := entry_in; dec_enc := entry_law |}.
Definition state_out (x : ChainState) (out : list digit) : list digit :=
  match x with
  | Build_ChainState a0 a1 a2 a3 a4 a5 a6 a7 => enc a0 (enc a1 (enc a2 (enc a3 (enc a4 (enc a5 (
      enc a6 (enc a7 out)))))))
  end.
Definition state_in (s : list digit) : option (ChainState * list digit) :=
  '(a0, s) ← dec s ; '(a1, s) ← dec s ; '(a2, s) ← dec s ; '(a3, s) ← dec s ;
  '(a4, s) ← dec s ; '(a5, s) ← dec s ; '(a6, s) ← dec s ; '(a7, s) ← dec s ;
  Some (Build_ChainState a0 a1 a2 a3 a4 a5 a6 a7, s).
Lemma state_law x out : state_in (state_out x out) = Some (x, out).
Proof. revert x out. law state_in state_out. Qed.
#[export] Instance state_code : Code ChainState := {|
  enc := state_out; dec := state_in; dec_enc := state_law |}.

(** ** Texts *)

Definition digit_char (d : digit) : string := match d with D0 => "0" | D1 => "1" | D2 => "2" end.
Definition text (ds : list digit) (out : string) : string := foldr (λ d out, digit_char d +:+ out) out ds.
(** The digits at the beginning of a text. *)
Fixpoint untext (s : string) : list digit :=
  match s with
  | EmptyString => []
  | String a s =>
      let b := byte_of a in
      if b =? 48 then D0 :: untext s else if b =? 49 then D1 :: untext s
      else if b =? 50 then D2 :: untext s else []
  end.
Lemma untext_text ds out : untext out = [] → untext (text ds out) = ds.
Proof.
  intros Hout. induction ds as [|d ds IH]; [done|]. change (text (d :: ds) out) with (digit_char d +:+ text ds out).
  rewrite <- IH at 2. by destruct d.
Qed.
Lemma write_digits ds : write_string (text ds EmptyString) = dquote +:+ text ds dquote.
Proof.
  unfold write_string. f_equal. induction ds as [|d ds IH]; [done|].
  change (text (d :: ds) dquote) with (digit_char d +:+ text ds dquote). rewrite <- IH. by destruct d.
Qed.

Definition encoded {A} `{!Code A} (a : A) : string := text (enc a []) EmptyString.
Definition decoded {A} `{!Code A} (s : string) : option A :=
  match dec (untext s) with Some (a, _) => Some a | None => None end.
Lemma decoded_encoded {A} `{!Code A} (a : A) : decoded (encoded a) = Some a.
Proof. unfold decoded, encoded. rewrite untext_text by done. by rewrite dec_enc. Qed.

Definition wire_of {A} `{!Code A} : Wire A := {|
  to_value a := VString (encoded a);
  from_value v := match v with VString s => decoded s | _ => None end;
|}.
#[export] Instance event_wire : Wire ThreadEvent := wire_of.
#[export] Instance state_wire : Wire ChainState := wire_of.
#[export] Instance snapshot_wire : Wire ThreadSnapshot := {|
  to_value s := VObject [("body", VString (encoded (as_stored s))); ("kind", VString (sn_kind s));
                         ("schema", VNumber (PosInt (sn_schema s)))]%string;
  from_value v :=
    match v with
    | VObject ((_, VString s) :: _) => decoded s
    | _ => None
    end;
|}.
(** Reads [null], the text of an event or a state and that of a snapshot. *)
#[export] Instance sample_reader : JsonReader := {|
  from_slice t :=
    if starts_with dquote t then Some (VString (text (untext (drop_bytes 1 t)) EmptyString))
    else if starts_with "{" t then
      Some (VObject [("body", VString (text (untext (drop_bytes 9 t)) EmptyString));
                     ("kind", VString "thread_snapshot"); ("schema", VNumber (PosInt 6))])
    else if bool_decide (t = "null") then Some VNull else None;
|}%string.

Lemma read_quoted t :
  from_slice (dquote +:+ t) = Some (VString (text (untext t) EmptyString)).
Proof. reflexivity. Qed.
Lemma wire_reads {A} (C : Code A) (a : A) : @reads _ _ A wire_of a (VString (encoded a)) a.
Proof.
  constructor; [|done| |done].
  - change (from_slice (write_string (encoded a)) = Some (VString (encoded a))). unfold encoded.
    by rewrite write_digits, read_quoted, untext_text.
  - apply decoded_encoded.
Qed.

(** The text of a snapshot with the digits [ds]. *)
Definition snapshot_value (ds : list digit) : Value :=
  VObject [("body", VString (text ds EmptyString)); ("kind", VString "thread_snapshot");
           ("schema", VNumber (PosInt 6))]%string.
Definition snapshot_tail : string :=
  "," +:+ write_string "kind" +:+ ":" +:+ write_string "thread_snapshot" +:+ "," +:+
  write_string "schema" +:+ ":6".
Definition snapshot_prefix : string := "{" +:+ dquote +:+ "body" +:+ dquote +:+ ":" +:+ dquote.
Lemma text_append ds a b : text ds a +:+ b = text ds (a +:+ b).
Proof.
  induction ds as [|d ds IH]; [done|]. change (text (d :: ds) ?o) with (digit_char d +:+ text ds o).
  rewrite <- IH. by destruct d.
Qed.
Lemma snapshot_text ds :
  canonical_json (snapshot_value ds) = snapshot_prefix +:+ text ds (dquote +:+ snapshot_tail +:+ "}").
Proof.
  transitivity (snapshot_prefix +:+ ((text ds dquote +:+ snapshot_tail) +:+ "}")).
  - unfold canonical_json, snapshot_value. cbn [write_canonical_json map]. rewrite write_digits. reflexivity.
  - by rewrite !text_append.
Qed.
Lemma read_snapshot t :
  from_slice (snapshot_prefix +:+ t) = Some (snapshot_value (untext t)).
Proof. reflexivity. Qed.

Lemma as_stored_twice s : as_stored (as_stored s) = as_stored s.
Proof. destruct s as [? ? ? ? ? ? ? ? ? ? ? ? ? ? ? ? ? ? ? ? ? ? ? [[]|] ? [[]|]]; reflexivity. Qed.
Lemma snapshot_reads_back (s : ThreadSnapshot) :
  sn_kind s = "thread_snapshot" → sn_schema s = 6 →
  reads s (snapshot_value (enc (as_stored s) [])) (as_stored s).
Proof.
  intros Hk Hs.
  assert (Hj : object_json s = canonical_json (snapshot_value (enc (as_stored s) []))).
  { unfold object_json. cbn [to_value snapshot_wire]. by rewrite Hk, Hs. }
  constructor.
  - by rewrite Hj, snapshot_text, read_snapshot, untext_text.
  - done.
  - exact (decoded_encoded (as_stored s)).
  - unfold object_json. cbn [to_value snapshot_wire]. by rewrite as_stored_twice.
Qed.

(** ** The environment of a chain *)

#[export] Instance sample_tables : UnicodeTables := {| is_alphanumeric := is_ascii_alphanumeric |}.
(** Digests by the length of the text. *)
Definition length_digest (s : string) : list Z := (len s mod 256) :: (len s / 256 mod 256) :: replicate 30 0.
Lemma length_digest_bytes s : Forall (λ b, 0 ≤ b < 256) (length_digest s).
Proof.
  repeat constructor; try (apply Z.mod_pos_bound; lia). all: lia.
Qed.
#[export] Instance sample_sha : Sha256 := {|
  sha256 := length_digest; sha256_length _ := eq_refl; sha256_bytes := length_digest_bytes |}.
(** The digits of a time stamp as one number, which orders them. *)
#[export] Instance sample_times : NaiveDateTime := {|
  parse_from_str s := Some (digits_value (fold_right (λ i out,
    match String.get i s with Some a => String a out | None => out end) EmptyString digit_indices)) |}.
(** A key that signs by naming the text. *)
#[export] Instance sample_ed25519 : Ed25519 := {|
  VerifyingKey := string; key_bytes k := k; Signature := string; signature_from_slice s := Some s;
  verify _ _ _ := true; base64_encode s := s; base64_decode s := Some s |}.
#[export] Instance sample_system_time : SystemTime := {| system_time n := 1000000000 * Z.of_nat n |}.
#[export] Instance sample_process : Process := {| process_id := 1 |}.

Lemma sample_snapshot_reads (s : ThreadSnapshot) :
  validate_snapshot s = Ok tt →
  ∃ m number, reads s (VObject m) (as_stored s) ∧ Map.get "kind" m = Some (VString (sn_kind s)) ∧
    Map.get "schema" m = Some (VNumber number) ∧ Number.as_u64 number = Some (sn_schema s).
Proof.
  intros Hv. unfold validate_snapshot in Hv. apply sch_bind_ok in Hv as (x & Hv & _).
  unfold validate_snapshot_identity, validate_object_kind in Hv.
  facts Hv. eexists _, (PosInt 6). split; [by apply snapshot_reads_back|].
  rewrite E, E0. done.
Qed.

#[export] Instance sample_wire_laws : WireLaws.
Proof.
  constructor.
  - intros e _ _. eexists. apply wire_reads.
  - intros s _. eexists. apply wire_reads.
  - intros s Hv _. by apply sample_snapshot_reads.
Qed.
