(* ===== verification/ChainSamples.v ===== *)
(** * A concrete chain

    A chain that is created with an event and completed by a second one,
    with the stand-ins of [ChainCodec], on which the theorems about chains
    are applied. *)

From stdpp Require Import sorting.
From S2P Require Import Prelude Float64 Json CanonicalRef Schedule ScheduleSpec Samples.
From S2P Require Import CasStore ChainObjects ChainValidation Chain ChainHistory ChainValidationCorrect.
From S2P Require Import ChainGrowth ChainStaging ChainSuccessor ChainCorrect ChainRuns ChainReads ChainCodec.

Definition zero_hash : string := "0000000000000000000000000000000000000000000000000000000000000000".
Definition sample_time : string := "1970-01-01T00:00:00Z".
Definition sample_policy : CapturedThreadHistoryPolicy := {|
  retention := DurableHistory; canonical_item_ref := "tool:t"; item_content_hash := zero_hash;
  item_signer_fingerprint := None; item_trust_class := ItemUnsigned; kind_schema_content_hash := zero_hash;
  resolved_from := NodeDefault MissingConfig |}.
Definition sample_snapshot (status : ThreadStatus) (finished : option string) : ThreadSnapshot := {|
  sn_schema := 6; sn_kind := "thread_snapshot"; sn_thread_id := "r"; sn_chain_root_id := "r";
  sn_status := status; sn_kind_name := "tool"; sn_item_ref := "tool:t"; sn_executor_ref := "e";
  sn_launch_mode := "wait"; sn_current_site_id := "s"; sn_origin_site_id := "s";
  sn_upstream_thread_id := None; sn_requested_by := None; sn_project_root := None;
  sn_project_authority := Projectless NoEnvironment; sn_admitted_launch_capsule_hash := None;
  sn_captured_history_policy := Some sample_policy; sn_base_project_snapshot_hash := None;
  sn_result_project_snapshot_hash := None; sn_created_at := sample_time; sn_updated_at := sample_time;
  sn_started_at := None; sn_finished_at := finished; sn_result := None; sn_outcome_code := None;
  sn_error := None; sn_budget := None; sn_artifacts := []; sn_facets := ∅; sn_last_event_hash := None;
  sn_last_chain_seq := 0%N; sn_last_thread_seq := 0%N |}.
Definition sample_event (kind : string) : ThreadEvent := {|
  ev_schema := 1; ev_kind := "thread_event"; ev_chain_root_id := "r"; ev_chain_seq := 0%N;
  ev_thread_id := "r"; ev_thread_seq := 0%N; ev_event_type := kind; ev_durability := Durable;
  ev_ts := sample_time; ev_prev_chain_event_hash := None; ev_prev_thread_event_hash := None;
  ev_payload := VNull |}.
(** A key whose fingerprint is its digest. *)
Definition sample_signer : Signer := {|
  sign t := "s"; fingerprint := sha256_hex "key"; verifying_key := "key" : VerifyingKey |}.
Definition sample_trust : TrustStore := {[ sha256_hex "key" := "key" : VerifyingKey ]}.

Definition created_request : Request :=
  CreateWithEvents "r" "r" (sample_snapshot Created None) [sample_event "start"].
Definition sample_updates : list SnapshotUpdate :=
  [{| up_thread_id := "r"; up_new_snapshot := sample_snapshot Completed (Some sample_time) |}].
Definition completed_request : Request :=
  AppendEvents "r" "r" "r" [sample_event "end"] sample_updates.
Definition acknowledge_request : Request := Acknowledge "r" "r" "transition-77359400-1-0".

(** The store when the chain is created, when the transition is acknowledged
    and when the thread has ended. *)
Definition after (s : Store) (request : Request) : Store :=
  resume false (perform sample_signer sample_trust request (with_kill s None)).2.
Definition created_store : Store := after (fresh ∅) created_request.
Definition acknowledged_store : Store := after created_store acknowledge_request.
Definition completed_store : Store := after acknowledged_store completed_request.

Lemma null_exact : exact 1 VNull.
Proof. split; [reflexivity|cbn; lia]. Qed.
Lemma sample_exact status finished : exact_snapshot (sample_snapshot status finished).
Proof. by split; [|split; [|split; [constructor|]]]. Qed.
Lemma created_exact : exact_request created_request.
Proof. split; [apply sample_exact|]. apply Forall_singleton, null_exact. Qed.
Lemma completed_exact : exact_request completed_request.
Proof. split; apply Forall_singleton; [apply null_exact|apply sample_exact]. Qed.

Lemma created_run : rtc step (fresh ∅) created_store.
Proof. apply rtc_once. by apply step_request, created_exact. Qed.
Lemma acknowledged_run : rtc step (fresh ∅) acknowledged_store.
Proof. eapply rtc_r; [apply created_run|]. by apply step_request. Qed.
Lemma later_run : rtc step created_store completed_store.
Proof. apply (rtc_l _ _ acknowledged_store); [by apply step_request|]. apply rtc_once. by apply step_request, completed_exact. Qed.
Lemma completed_run : rtc step (fresh ∅) completed_store.
Proof. etrans; [apply created_run|apply later_run]. Qed.

(** The heads, evaluated. *)
Definition created_hash : string := "600a000000000000000000000000000000000000000000000000000000000000".
Definition completed_hash : string := "610a000000000000000000000000000000000000000000000000000000000000".
Definition head_is (s : Store) (hash : string) : bool :=
  match st_heads s !! "r" with Some r => bool_decide (sr_target_hash r = hash) | None => false end.
Lemma head_is_some s hash : head_is s hash = true → ∃ r, st_heads s !! "r" = Some r ∧ sr_target_hash r = hash.
Proof. unfold head_is. destruct (st_heads s !! "r") as [r|]; [|done]. intros Hb%bool_decide_eq_true. by exists r. Qed.
Lemma created_head : ∃ r, st_heads created_store !! "r" = Some r ∧ sr_target_hash r = created_hash.
Proof. apply head_is_some. vm_compute. reflexivity. Qed.
Lemma completed_head : ∃ r, st_heads completed_store !! "r" = Some r ∧ sr_target_hash r = completed_hash.
Proof. apply head_is_some. vm_compute. reflexivity. Qed.

Definition head_verified (s : Store) : bool :=
  match st_heads s !! "r" with
  | Some r =>
      match verify_signed_ref r sample_trust with
      | Ok _ => bool_decide (sr_ref_path r = head_ref_path "r")
      | Err _ => false
      end
  | None => false
  end.
Lemma head_verified_some s : head_verified s = true →
  ∃ r, st_heads s !! "r" = Some r ∧ verify_signed_ref r sample_trust = Ok tt ∧ sr_ref_path r = head_ref_path "r".
Proof.
  unfold head_verified. destruct (st_heads s !! "r") as [r|]; [|done].
  destruct (verify_signed_ref r sample_trust) as [[]|] eqn:Hv; [|done]. intros Hp%bool_decide_eq_true. by exists r.
Qed.
Lemma completed_verified : head_verified completed_store = true.
Proof. vm_compute. reflexivity. Qed.

(** An unrelated object is added. *)
Definition littered_store : Store := with_cas created_store (<[zero_hash := "x"]> (st_cas created_store)).
Lemma created_free : st_cas created_store !! zero_hash = None.
Proof. vm_compute. reflexivity. Qed.
Lemma heads_with_cas s cas : st_heads (with_cas s cas) = st_heads s.
Proof. reflexivity. Qed.
Lemma littered_head r : st_heads created_store !! "r" = Some r → st_heads littered_store !! "r" = Some r.
Proof. intros Hr. unfold littered_store. rewrite heads_with_cas. exact Hr. Qed.
Lemma littered_run : rtc step (fresh ∅) littered_store.
Proof. eapply rtc_r; [apply created_run|]. apply step_objects. by apply insert_subseteq, created_free. Qed.

(** The thread has ended in the last state. *)
Definition ended_at (s : Store) (h : string) : bool :=
  match load_hashed_chain_state (st_cas s) h with
  | Ok state => match cs_threads state !! "r" with Some entry => is_terminal (te_status entry) | None => false end
  | Err _ => false
  end.
Lemma ended_at_some s h : ended_at s h = true →
  ∃ state entry, load_hashed_chain_state (st_cas s) h = Ok state ∧ cs_threads state !! "r" = Some entry ∧
    is_terminal (te_status entry) = true.
Proof.
  unfold ended_at. destruct (load_hashed_chain_state _ _) as [state|]; [|done].
  destruct (cs_threads state !! "r") as [entry|] eqn:He; [|done]. by exists state, entry.
Qed.
Lemma sample_ended : ended_at completed_store completed_hash = true.
Proof. vm_compute. reflexivity. Qed.

(** The second event is accepted. *)
Definition append_sample : Result Fault AppendResult * Store :=
  append_events_with_trust_under_lock "r" "r" "r" [sample_event "end"] sample_updates
    sample_signer sample_trust acknowledged_store.
Lemma append_sample_ok : match append_sample.1 with Ok _ => true | Err _ => false end = true.
Proof. vm_compute. reflexivity. Qed.

#[local] Opaque created_store acknowledged_store completed_store perform.

(** ** The theorems on the sample *)

(** The same head in a store with one more object. *)
Lemma littered_no_collision : ¬ collision (st_cas created_store) (st_cas littered_store).
Proof.
  intros (h & d1 & d2 & H1 & H2 & Hne & _). apply Hne.
  assert (h ≠ zero_hash) as Hh by (intros ->; rewrite created_free in H1; discriminate H1).
  assert (st_cas littered_store !! h = st_cas created_store !! h) as Hsame.
  { exact (lookup_insert_ne (M := gmap string) (st_cas created_store) zero_hash h "x"%string (not_eq_sym Hh)). }
  congruence.
Qed.
Lemma history_tamper_evident_witness :
  ∃ log hs s, history (st_cas created_store) "r" created_hash log hs s ∧
    history (st_cas littered_store) "r" created_hash log hs s ∧
    ∀ tid entry, cs_threads s !! tid = Some entry →
      load_hashed_snapshot (st_cas created_store) (te_snapshot_hash entry) =
      load_hashed_snapshot (st_cas littered_store) (te_snapshot_hash entry).
Proof.
  destruct created_head as (r & Hr & Ht).
  pose proof (head_accepted _ _ _ _ created_run Hr) as Hok1. rewrite Ht in Hok1.
  pose proof (head_accepted _ littered_store "r" r littered_run (littered_head _ Hr)) as Hok2. rewrite Ht in Hok2.
  destruct (history_tamper_evident _ _ _ _ _ _ Hok1 Hok2) as [Hc|Hsame]; [|exact Hsame].
  destruct (littered_no_collision Hc).
Defined.

Lemma ended_threads_stay_witness :
  ∃ ended entry s entry',
    load_hashed_chain_state (st_cas completed_store) completed_hash = Ok ended ∧
    cs_threads ended !! "r" = Some entry ∧
    load_hashed_chain_state (st_cas completed_store) completed_hash = Ok s ∧
    cs_threads s !! "r" = Some entry' ∧
    te_status entry' = te_status entry ∧ te_snapshot_hash entry' = te_snapshot_hash entry.
Proof.
  destruct completed_head as (r & Hr & Ht).
  pose proof (head_accepted _ _ _ _ completed_run Hr) as Hok. rewrite Ht in Hok.
  destruct (ended_at_some _ _ sample_ended) as (ended & entry & Hl & He & Hterm).
  destruct (ended_threads_stay _ _ _ _ _ _ _ Hok Hl He Hterm) as (s & entry' & Hs).
  exists ended, entry, s, entry'. exact (conj Hl (conj He Hs)).
Defined.

Lemma heads_advance_witness :
  ∃ r', st_heads completed_store !! "r" = Some r' ∧
    validate_authoritative_history (st_cas completed_store) "r" (sr_target_hash r') (Some created_hash) = Ok tt.
Proof.
  destruct created_head as (r & Hr & Ht). rewrite <- Ht.
  exact (heads_advance _ _ _ _ _ created_run later_run Hr).
Defined.

Lemma events_append_only_witness :
  ∃ log hs state new later state',
    history (st_cas created_store) "r" created_hash log hs state ∧
    history (st_cas completed_store) "r" completed_hash (log ++ new) (hs ++ later) state'.
Proof.
  destruct created_head as (r & Hr & Ht). destruct completed_head as (r' & Hr' & Ht'). rewrite <- Ht, <- Ht'.
  exact (events_append_only _ _ _ _ _ _ created_run later_run Hr Hr').
Defined.

(** The process dies at the third durable write of the append. *)
Lemma operations_atomic_witness :
  let s' := (perform sample_signer sample_trust completed_request (with_kill acknowledged_store (Some 2%nat))).2 in
  st_cas acknowledged_store ⊆ st_cas s' ∧
  (st_heads s' = st_heads acknowledged_store ∨ extended acknowledged_store "r" s').
Proof.
  exact (operations_atomic ∅ acknowledged_store sample_signer sample_trust completed_request (Some 2%nat)
           acknowledged_run completed_exact).
Defined.

Lemma append_events_exact_witness :
  ∃ result s' log,
    append_sample = (Ok result, s') ∧
    advanced_from acknowledged_store "r" log (stored_log (ar_events result)) (ar_chain_state_hash result) s' ∧
    ar_first_chain_seq result = N.of_nat (S (length log)) ∧
    Forall2 recorded [sample_event "end"] (ar_events result).
Proof.
  pose proof append_sample_ok as Hok. destruct append_sample as [[result|e] s'] eqn:Ha; [|discriminate Hok].
  unfold append_sample in Ha.
  destruct (append_events_exact ∅ acknowledged_store "r" "r" "r" _ sample_updates sample_signer sample_trust result s' acknowledged_run completed_exact Ha) as (log & Hadv).
  exists result, s', log. exact (conj eq_refl Hadv).
Defined.

Lemma read_thread_exact_witness :
  ∃ r log hs state, history (st_cas completed_store) "r" (sr_target_hash r) log hs state ∧
    match cs_threads state !! "r" with
    | None => (read_thread_snapshot_with_trust "r" "r" "r" sample_trust completed_store).1 = Ok None
    | Some entry => ∃ sn, load_hashed_snapshot (st_cas completed_store) (te_snapshot_hash entry) = Ok sn ∧
        (read_thread_snapshot_with_trust "r" "r" "r" sample_trust completed_store).1 = Ok (Some sn)
    end.
Proof.
  destruct (head_verified_some _ completed_verified) as (r & Hr & Hv & Hp). exists r.
  exact (read_thread_exact ∅ completed_store "r" r "r" sample_trust completed_run eq_refl Hr Hv Hp).
Defined.
