(* ===== verification/ChainLossy.v ===== *)
(** * A reader that loses a fraction

    The stand-ins of [ChainCodec] with a reader that reads one event, whose
    payload is a fraction, as the event with a neighbouring fraction.  The
    laws of [WireLaws] hold of it, and the append of that event is one that
    the validator refuses. *)

From stdpp Require Import sorting.
From S2P Require Import Prelude Float64 Json CanonicalRef Schedule ScheduleSpec Samples.
From S2P Require Import CasStore ChainObjects ChainValidation Chain ChainHistory ChainValidationCorrect.
From S2P Require Import ChainGrowth ChainStaging ChainSuccessor ChainCorrect ChainRuns ChainReads ChainCodec.
From S2P Require Import ChainSamples.

(** The fraction 0.1 and the next one. *)
Definition fraction : f64 := S754_finite false 7205759403792794 (-56).
Definition neighbour : f64 := S754_finite false 7205759403792795 (-56).

Definition with_payload (e : ThreadEvent) (v : Value) : ThreadEvent := {|
  ev_schema := ev_schema e; ev_kind := ev_kind e; ev_chain_root_id := ev_chain_root_id e;
  ev_chain_seq := ev_chain_seq e; ev_thread_id := ev_thread_id e; ev_thread_seq := ev_thread_seq e;
  ev_event_type := ev_event_type e; ev_durability := ev_durability e; ev_ts := ev_ts e;
  ev_prev_chain_event_hash := ev_prev_chain_event_hash e;
  ev_prev_thread_event_hash := ev_prev_thread_event_hash e; ev_payload := v |}.
Definition measured (f : f64) : ThreadEvent := with_payload (sample_event "measure") (VNumber (Float f)).

(** The append of the event, with any reader. *)
Section measuring.
Context {reader : JsonReader}.
Definition append_measured : Result Fault AppendResult * Store :=
  append_events_with_trust_under_lock "r" "r" "r" [measured fraction] sample_updates sample_signer sample_trust
    acknowledged_store.
End measuring.

(** The last event of a batch that was appended. *)
Definition last_appended (r : Result Fault AppendResult) : option ThreadEvent :=
  match r with Ok result => last (ar_events result) | Err _ => None end.
(** The event as it is stored. *)
Definition stored_measure : ThreadEvent :=
  default (measured neighbour) (last_appended (fst (append_measured (reader := sample_reader)))).

#[local] Instance lossy_reader : JsonReader := {|
  from_slice t :=
    if decide (t = object_json stored_measure)
    then Some (to_value (with_payload stored_measure (VNumber (Float neighbour))))
    else from_slice (JsonReader := sample_reader) t;
|}.


Lemma measure_payload : ev_payload stored_measure = VNumber (Float fraction).
Proof. vm_compute. reflexivity. Qed.
Lemma measure_not_state : decoded (A := ChainState) (encoded stored_measure) = None.
Proof. vm_compute. reflexivity. Qed.
Lemma fraction_lost : from_slice (canonical_json (VNumber (Float fraction))) = None.
Proof. vm_compute. reflexivity. Qed.

#[local] Opaque stored_measure.

(** Other texts are read as before. *)
Lemma lossy_other {A} `{Wire A} (a : A) v b :
  @reads _ sample_reader _ _ a v b → object_json a ≠ object_json stored_measure → reads a v b.
Proof.
  intros [Hs Hc Hv Hj] Hne. constructor; [|done|done|done]. unfold from_slice, lossy_reader. by rewrite decide_False.
Qed.

#[local] Opaque acknowledged_store.

Lemma encoded_text {A} (C : Code A) (a : A) :
  @object_json _ _ wire_of a = write_string (encoded a).
Proof. reflexivity. Qed.
Lemma decoded_text {A B} (C : Code A) (D : Code B) (a : A) (b : B) :
  @object_json _ _ (wire_of (A := A)) a = @object_json _ _ (wire_of (A := B)) b → decoded (encoded b) = Some a.
Proof.
  rewrite !encoded_text. unfold encoded at 1 2. rewrite !write_digits. intros Ht.
  apply (f_equal (drop_bytes 1)) in Ht.
  change (drop_bytes 1 (dquote +:+ ?t)) with t in Ht. apply (f_equal untext) in Ht.
  rewrite !untext_text in Ht by done.
  rewrite <- (decoded_encoded a). unfold decoded, encoded. rewrite !untext_text by done. by rewrite Ht.
Qed.

Lemma text_inj {A} (C : Code A) (a b : A) :
  @object_json _ _ (wire_of (A := A)) a = @object_json _ _ (wire_of (A := A)) b → a = b.
Proof. intros Ht%decoded_text. rewrite decoded_encoded in Ht. congruence. Qed.
Lemma text_other {A B} (C : Code A) (D : Code B) (a : A) (b : B) :
  decoded (A := A) (encoded b) = None →
  @object_json _ _ (wire_of (A := A)) a ≠ @object_json _ _ (wire_of (A := B)) b.
Proof. intros Hd Ht%decoded_text. congruence. Qed.

Lemma measure_is_no_state (s : ChainState) : object_json s ≠ object_json stored_measure.
Proof. exact (text_other state_code event_code s stored_measure measure_not_state). Qed.
Lemma exact_not_measure (e : ThreadEvent) :
  exact 1 (ev_payload e) → object_json e ≠ object_json stored_measure.
Proof.
  intros [Hx _] Ht. apply (text_inj event_code e stored_measure) in Ht. rewrite Ht, measure_payload in Hx.
  rewrite fraction_lost in Hx. discriminate Hx.
Qed.
Lemma snapshot_not_measure (s : ThreadSnapshot) : object_json s ≠ object_json stored_measure.
Proof.
  rewrite (encoded_text event_code). unfold encoded at 1. rewrite write_digits.
  unfold object_json, canonical_json. cbn [to_value snapshot_wire write_canonical_json]. discriminate.
Qed.

#[local] Instance lossy_wire_laws : WireLaws.
Proof.
  constructor.
  - intros e _ Hx. exists (VString (encoded e)).
    apply lossy_other; [apply wire_reads|exact (exact_not_measure e Hx)].
  - intros s _. exists (VString (encoded s)).
    apply lossy_other; [apply wire_reads|exact (measure_is_no_state s)].
  - intros s Hv _. destruct (sample_snapshot_reads s Hv) as (m & number & Hr & Hm). exists m, number.
    split; [|exact Hm]. apply lossy_other; [exact Hr|exact (snapshot_not_measure s)].
Qed.


